(* ===== verification/_CoqProject ===== *)
-Q . S2P
Prelude.v
Prog.v
Text.v
Codec.v
Crypto.v
Demo.v
Transaction.v
Block.v
Ledger.v
Mempool.v
OrphanPool.v
ProofOfWork.v
Retarget.v
Blockchain.v
ForkResolution.v
BlockLocator.v
Storage.v
Calls.v
Sqlite.v
OpenSsl.v
Threads.v
Shutdown.v
DemoLog.v
NodeId.v
ChainManager.v
ChainLedger.v
ChainSafety.v
ChainProgress.v
ChainReorg.v
ChainSync.v
Restart.v
Recovery.v
Wire.v
Message.v
AddressBook.v
TcpSocket.v
Node.v
NodeSafety.v
NodePeers.v
NodeSync.v
Rpc.v
Wallet.v
Startup.v
Orchestrator.v
Main.v
