(* ===== verification/Prelude.v ===== *)
(** * ForgeChain: a verification development

    ForgeChain is a proof-of-work blockchain node in C++, with a wallet. This library models
    it in Rocq, file by file and function by function, and proves the properties the
    programs rely on. Paths below are relative to the repository.

    ** The program and how its parts interact

    A [Node] (src/network) exchanges framed messages with peers and hands blocks and
    transactions to the [ChainManager] (src/chain). The manager owns the [Blockchain], the
    [Ledger], the [Mempool] and the [OrphanPool] (src/core), applies the consensus rules
    (src/consensus) and mirrors the chain into [Storage] (src/storage, SQLite). The
    orchestrator (src/app) owns all of them, restores the chain at the start, runs the
    mining loop and the console, and starts the RPC server the wallet talks to. Hashes,
    addresses and signatures come from src/crypto (OpenSSL).

    ** Files

    - Prelude: byte strings, fixed-width integers, exceptions, state passing, bounded
      loops, and the list lemmas and tactics the other files share.
    - Prog: threads as sequences of critical sections, schedules, the condition under which
      an invariant holds at every point of every schedule, and what one thread among others
      can end with. Text: words and numbers as
      the command interpreters read and print them (src/app/ParseNumber.hpp).
    - Codec: the bounds-checked readers every [deserialize] is made of, with composition
      lemmas for both directions of a round trip, the class [Codec], and the equality of
      "compare the size once, then copy" with the checked walk.
    - Crypto: src/crypto. The classes [Crypto], [CryptoLaws] and [SignatureLaws] stand for
      OpenSSL. Demo: a concrete instance, used by the witnesses only.
    - Transaction, Block: src/core/Transaction.cpp, Block.cpp.
    - Ledger, Mempool, OrphanPool: the files of the same names in src/core. [OrphanPool.Fifo]
      is the abstract specification the orphan pool refines.
    - ProofOfWork: src/consensus/ProofOfWork.cpp and ConsensusParams.hpp, with an exact
      logarithm in [retarget]. Retarget: how far the floating-point logarithm of the code may
      be off without changing a difficulty.
    - Blockchain, ForkResolution, BlockLocator: the files of the same names in src/core.
    - Storage: src/storage/Storage.cpp. The class [Sqlite] is the library, [SqliteLaws] its
      documented behaviour; [BlockStore] and [BlockStoreLaws] are what the chain manager
      uses of the storage, and the storage discharges them.
    - Calls: programs that call a library, its documented behaviour as a relation, and the
      weakest precondition of a program over it. Sqlite: SqliteConnection.cpp,
      SqliteStatement.cpp and the storage over their handles, with and without failing calls. OpenSsl: OpenSSLTypes.hpp and
      the functions of src/crypto over the objects of the library.
    - Threads: mutexes, flags, starts and joins of threads, the discipline that keeps them
      from deadlock, and what waits for ever. Shutdown: what every function of src/network
      and src/app that a thread runs locks, starts and joins, the destructors, and the
      signal handler of main.cpp.
    - DemoLog: src/include/app/DemoLog.hpp, and the terminal it writes to. NodeId:
      src/network/NodeId.cpp, with the standard's engine.
    - ChainManager: src/chain/ChainManager.cpp, every operation. ChainLedger: applying and
      refusing blocks, selecting transactions. ChainSafety: the invariant, the outcome of
      [submit_block] and [adopt_branch], work, the store. ChainProgress: the mining step of
      src/app/Orchestrator.cpp and that mined blocks are accepted. ChainReorg: the ledger
      after a reorganization. ChainSync: a branch downloaded with a locator is adopted.
      Restart: the constructor of src/app/Orchestrator.cpp, which rebuilds chain and ledger
      from the store, and the invariant of the chain manager from the constructor on. Recovery: histories of a node with any number of restarts.
    - Wire: src/network/Inventory.cpp, GetBlocks.cpp, PeerAddress.cpp and the version
      payload. Message: src/network/Socket.cpp, Message.cpp, Handshake.cpp. AddressBook:
      src/network/AddressBook.cpp. TcpSocket: src/network/TcpSocket.cpp, the descriptor
      table and its owners.
    - Node: src/network/Node.cpp, Peer.cpp and Heartbeat.cpp, every thread, handler and
      operation. NodeSafety: the invariant under all interleavings. NodePeers: duplicate
      connections, the heartbeat, and what a malformed key does. NodeSync: two nodes over a
      connection.
    - Rpc: src/app/RpcServer.cpp. Wallet: src/app/Wallet.cpp and WalletCli.cpp. Startup:
      src/network/Bootstrap.cpp and the command lines of src/app/main.cpp and
      wallet_main.cpp. Orchestrator: the rest of src/app/Orchestrator.cpp, and the invariant
      of the whole program. Main: [main] of src/app/main.cpp, from the command line to the
      exit status, alone and among the other threads.

    In each file a [Module] holds one component: its operations under the source's names,
    then its invariant, its lemmas, its properties, and a section of concrete values that
    instantiate the properties.

    ** How the code is represented

    - [std::vector<uint8_t>], [std::string] and [std::array<uint8_t, 32>] are lists of
      bytes; [hash_wf] is the array's length. Integers are [Z] with the wrap-around of
      their width written out ([u32], [u64]); [size_t] counters that index memory are [nat].
      Two counts have no width because memory or time keeps them from their limits: the [int]
      of the failed attempts to reach an address, and the end of the range of
      [blocks_after_locator], the sum of a height and 2000.
    - [reinterpret_cast] reads of integers are little-endian, as on the supported targets.
    - [std::unordered_map] is [gmap]; where the code depends on its iteration order, the
      order is a parameter (class [Buckets]). [std::multiset] is an ordered list with the
      library's insertion point.
    - Exceptions are values of [result]; a method that mutates its object is a function of
      type [ST], whose state survives a throw exactly as far as the mutations went.
    - Every public method of [ChainManager], and every method of [AddressBook], holds its
      lock for its whole body, so the interleavings of threads are sequences of calls;
      invariants are proved over [rtc] of a step relation on the calls. The time is an
      argument of the calls that read the clock.
    - The functions of the node, the RPC server and the orchestrator take several locks one
      after the other: each is a [prog], a sequence of sections that are atomic because they
      hold a mutex or access one atomic variable. [sched] interleaves any number of them.
      A loop that ends when the program stops has the number of its turns as an argument,
      and the theorems hold for every number. Peers are shared pointers into a heap.
    - Two views of threads: Prog interleaves critical sections and keeps what they compute;
      Threads looks at the locks themselves and at joins, and keeps nothing else, a
      condition on data being a choice. In Threads a loop over data may end at any turn, and
      a loop on a flag when the flag is false.
    - Calls into SQLite and OpenSSL are [calls], a program waiting for the library's answer;
      the theorems hold for every library whose answers the documentation allows.
    - What the kernel answers comes from lists in the state: to [recv] and [send] (Message),
      to connection attempts and [accept] (Node, Wallet), to the system calls of TcpSocket.
      A key file or bootstrap file is its contents. The steady and the system clock are
      fields that the environment moves.
    - The loops that are not structural use [iter_until] or fuel: [mine_block] has fuel
      [kMaxNonce + 1] and [mine_block_until] [61 * kMaxNonce], which is the loops'
      own bound (the theorems say that no turn is missing); [Fork.walk] and [Cm.tips_loop]
      have the fuel of [kMaxForkDepth], the bound the code tests itself.
    - Collisions: theorems that need distinct blocks to have distinct hashes take a set of
      byte strings on which the double hash has none (class [CollisionFree]) and speak of
      the blocks in that set; for a finite set this is decidable, and the witnesses
      check it by evaluation.

    ** What the theorems show

    - Formats (Crypto, Transaction, Block, Wire): each decoder accepts exactly the encodings
      of the values the format can carry. Messages arrive as sent over any segmentation of
      the stream (Message).
    - Money (Ledger, ChainLedger, ChainReorg): the exact effect of applying and reversing,
      conservation of the supply, replay protection, application of blocks that is undone when
      a block is refused (but for accounts left with an explicit 0, and unless a credit wraps
      around 2^64), the right ledger after a reorganization between branches with no common
      payment, and, as counterexamples, the overflow of [amount + fee] and the wrong ledger
      after a reorganization between branches that share one.
    - Pools (Mempool, OrphanPool, AddressBook): order, capacity, uniqueness, eviction; the
      orphan pool refines a bounded queue; no address is dialled twice at a time and failed
      ones back off.
    - Consensus (ProofOfWork, Retarget): the target test is the numeric one, both miners
      return the first solution and stop, issuance and timestamp rules, and retargeting, for
      every floating-point logarithm within 1/4000 of the true one.
    - Chain (Blockchain, ForkResolution, BlockLocator, ChainSafety, ChainProgress): the
      chain's invariant in every reachable state, what every outcome of [submit_block] means,
      how the work of the tip changes (it grows until it wraps), forks are built exactly when they exist, locators match at a
      common prefix, mined blocks are accepted, and what [adopt_branch] does not check.
    - Library objects (Sqlite, OpenSsl): whatever fails, every statement, connection and
      object is given back exactly once on every path, exceptions included, and no call is
      made that the library forbids; when the library does not fail on its own the code over
      the handles refines the operations on tables and the cryptographic functions.
    - Disk (Storage, ChainSafety, Restart, Recovery): saved chains reload, replacing a branch
      is atomic, the store follows the chain, a restart gives the same chain and ledger, a
      node that submits, switches and adopts valid blocks can be restarted at any time, and,
      as counterexamples, a chain that [adopt_branch] took and the restart refuses, a row whose
      parent is missing and the restart takes, and a payment of nothing that divides two nodes
      with the same chain.
    - Network (NodeSafety, NodePeers, NodeSync, TcpSocket): the node is consistent at every
      point of every interleaving, two nodes agree on which of two connections to keep,
      silent peers go, announced blocks are delivered, a node that is behind catches up, the
      connect thread does not dial without end (but goes on when the node is stopped),
      descriptors have one owner, and a transaction that ends the process.
    - Programs (Rpc, Wallet, Startup, Orchestrator): the whole program keeps the invariant,
      mining extends the chain, the key guards the RPC server except while it starts, a
      payment goes from the wallet into the pool, the key file and the bootstrap file are
      read back, the command line has exactly its documented grammar, and the exit status of
      the main thread tells what happened, whatever the other threads do (Main). Log messages
      and the prompt share the terminal without spoiling each other, as long as no command
      writes in the middle of a message (DemoLog).
    - Threads (Shutdown): no interleaving of the node's threads deadlocks as long as system
      calls return, and when [main] ends every thread has ended and was joined. A connection
      that stays silent, and a signal at the wrong moment, do hang the process.

    ** Assumptions

    Parameters with named laws: OpenSSL ([CryptoLaws], [SignatureLaws]), SQLite
    ([SqliteLaws]), the hash map's iteration order ([Buckets]), [inet_pton] ([Inet], no
    law). Each is instantiated once, in Demo, Storage, OrphanPool and AddressBook, so the
    laws can hold; so are the call-level interfaces of the two libraries, by [reference] in
    Sqlite and OpenSsl. [localtime_r] (DemoLog), [gmtime_r] (Orchestrator) and the random
    device (NodeId) are arguments.

    ** Not modelled

    Out-of-memory failures outside the two libraries, that of [reserve] for an announced
    peer list among them. Above the handles of SQLite (Storage and what uses it) a read does
    not fail. The implementation of [std::log2] (Retarget assumes only that it is within
    1/4000). Closing a descriptor while another thread waits on it is one atomic step; a signal that interrupts a system call is a retry (Message). Moving a heartbeat is not
    used by the program. Shutdown takes it that the loops over data end; that of the miner is
    shown to (ProofOfWork), and the inner loop of [connect_loop] to end unless five seconds
    pass (NodeSafety). Progress of synchronisation is proved for two nodes over a connection
    and not under interference of further peers; the schedules are not assumed to be fair,
    so what is live is stated as what can happen or as what a step brings about. *)

From stdpp Require Export base gmap sets list strings sorting fin_maps.
From coqutil Require Export Byte Word.LittleEndianList.
From Stdlib Require Export ZArith Lia.

#[global] Open Scope Z_scope.

(** ** Byte strings

    [std::vector<uint8_t>], [std::string] and [std::array<uint8_t, 32>] are all
    sequences of octets; the array's length is the invariant [hash_wf]. *)

Abbreviation byte := Init.Byte.byte.
Abbreviation bytes := (list Init.Byte.byte).
Abbreviation str := (list Init.Byte.byte).
Abbreviation HashBytes := (list Init.Byte.byte).

#[global] Instance byte_eq_decision : EqDecision byte := Byte.byte_eq_dec.

#[global] Program Instance byte_countable : Countable byte :=
  inj_countable Byte.to_N Byte.of_N _.
Next Obligation. intros b. apply Byte.of_to_N. Qed.

Definition hash_wf (h : HashBytes) : Prop := length h = 32%nat.

#[global] Instance hash_wf_dec h : Decision (hash_wf h).
Proof. unfold hash_wf. apply _. Defined.

(** A C++ string literal, as the bytes it denotes. *)
Definition lit (s : string) : str := String.list_byte_of_string s.

(** [std::string::c_str] read as a C string: up to the first null. *)
Fixpoint c_str (s : str) : str :=
  match s with
  | [] => []
  | c :: s => if bool_decide (c = Byte.x00) then [] else c :: c_str s
  end.

(** ** Fixed-width unsigned integers

    A [uintN_t] is a [Z] in [0, 2^N); arithmetic is written on [Z] and wrapped. *)

Definition wrap (w z : Z) : Z := z mod 2 ^ w.
Abbreviation u16 := (wrap 16).
Abbreviation u32 := (wrap 32).
Abbreviation u64 := (wrap 64).

Definition in_u (w z : Z) : Prop := 0 <= z < 2 ^ w.

#[global] Instance in_u_dec w z : Decision (in_u w z).
Proof. unfold in_u. apply _. Defined.

Definition UINT64_MAX : Z := 2 ^ 64 - 1.
Definition UINT32_MAX : Z := 2 ^ 32 - 1.

(** [v.size()] as a [size_t]. *)
Definition sz {A} (l : list A) : Z := Z.of_nat (length l).

Create HintDb forge discriminated.
Create Rewrite HintDb ledger.

Lemma wrap_small w z : in_u w z → wrap w z = z.
Proof. intros ?. by apply Z.mod_small. Qed.

Lemma wrap_range w z : 0 <= w → in_u w (wrap w z).
Proof. intros ?. apply Z.mod_pos_bound. lia. Qed.

Lemma wrap_wrap w z : 0 <= w → wrap w (wrap w z) = wrap w z.
Proof. intros ?. by apply wrap_small, wrap_range. Qed.

Lemma wrap_add_l w a b : 0 <= w → wrap w (wrap w a + b) = wrap w (a + b).
Proof. intros ?. unfold wrap. by rewrite Zplus_mod_idemp_l. Qed.

Lemma wrap_add_r w a b : 0 <= w → wrap w (a + wrap w b) = wrap w (a + b).
Proof. intros ?. unfold wrap. by rewrite Zplus_mod_idemp_r. Qed.

Lemma wrap_sub_l w a b : 0 <= w → wrap w (wrap w a - b) = wrap w (a - b).
Proof. intros ?. unfold wrap. by rewrite Zminus_mod_idemp_l. Qed.

Lemma u64_range z : in_u 64 (u64 z).
Proof. by apply wrap_range. Qed.

Lemma u32_range z : in_u 32 (u32 z).
Proof. by apply wrap_range. Qed.

#[export] Hint Resolve u64_range u32_range wrap_range : forge.

Lemma sz_nonneg {A} (l : list A) : 0 <= sz l.
Proof. unfold sz. lia. Qed.

Lemma sz_app {A} (l k : list A) : sz (l ++ k) = sz l + sz k.
Proof. unfold sz. rewrite length_app. lia. Qed.

#[export] Hint Resolve sz_nonneg : forge.

(** Arithmetic at a fixed width: unfold the width predicates and call [lia]. *)
Ltac solve_width :=
  unfold in_u, UINT64_MAX, UINT32_MAX, sz in *;
  change (2 ^ 64) with 18446744073709551616 in *;
  change (2 ^ 32) with 4294967296 in *;
  change (2 ^ 16) with 65536 in *;
  lia.

(** ** Little-endian integers

    [reinterpret_cast<const uint8_t *>(&x)] on the little-endian targets: the
    [k] bytes of [x], least significant first. *)

Abbreviation le := le_split.
Abbreviation of_le := le_combine.

#[global] Arguments le_split : simpl never.
#[global] Arguments le_combine : simpl never.
#[global] Arguments wrap : simpl never.

Lemma of_le_le k z : in_u (8 * Z.of_nat k) z → of_le (le k z) = z.
Proof.
  intros ?. rewrite le_combine_split.
  replace (Z.of_nat k * 8) with (8 * Z.of_nat k) by lia. by apply Z.mod_small.
Qed.

Lemma of_le_range bs : in_u (8 * Z.of_nat (length bs)) (of_le bs).
Proof. apply le_combine_bound. Qed.

Lemma le_inj k z1 z2 :
  in_u (8 * Z.of_nat k) z1 → in_u (8 * Z.of_nat k) z2 → le k z1 = le k z2 → z1 = z2.
Proof. intros H1 H2 E. rewrite <- (of_le_le k z1), E, of_le_le; done. Qed.

(** ** Exceptions

    C++ exceptions and the undefined behaviour of an out-of-contract library call
    (dereferencing the end of an empty container) are values. *)

Inductive exn :=
| OutOfRange
| RuntimeError
| LengthError
| InvalidArgument
| UndefinedBehaviour.

#[global] Instance exn_eq_decision : EqDecision exn.
Proof. solve_decision. Defined.

Inductive result (A : Type) :=
| Ok (a : A)
| Throw (e : exn).
Arguments Ok {A} a.
Arguments Throw {A} e.

#[global] Instance result_ret : MRet result := @Ok.
#[global] Instance result_bind : MBind result := λ A B f r,
  match r with Ok a => f a | Throw e => Throw e end.

Definition of_option {A} (e : exn) (o : option A) : result A :=
  match o with Some a => Ok a | None => Throw e end.

Definition is_ok {A} (r : result A) : bool :=
  match r with Ok _ => true | Throw _ => false end.

Lemma bind_Ok {A B} (r : result A) (f : A → result B) b :
  r ≫= f = Ok b ↔ ∃ a, r = Ok a ∧ f a = Ok b.
Proof.
  destruct r as [a|e]; simpl; split.
  - intros E. by exists a.
  - by intros (? & [= <-] & ?).
  - done.
  - by intros (? & [=] & ?).
Qed.

Lemma of_option_Ok {A} e (o : option A) a : of_option e o = Ok a ↔ o = Some a.
Proof. destruct o; simpl; naive_solver. Qed.

(** ** State with exceptions

    A member function that mutates its object: the state survives a throw, exactly
    as far as the mutations before it went. *)

Definition ST (S A : Type) : Type := S → result A * S.

#[global] Instance ST_ret {S} : MRet (ST S) := λ A a s, (Ok a, s).
#[global] Instance ST_bind {S} : MBind (ST S) := λ A B f m s,
  match m s with
  | (Ok a, s') => f a s'
  | (Throw e, s') => (Throw e, s')
  end.

Definition st_get {S} : ST S S := λ s, (Ok s, s).
Definition st_gets {S A} (f : S → A) : ST S A := λ s, (Ok (f s), s).
Definition st_modify {S} (f : S → S) : ST S unit := λ s, (Ok tt, f s).
Definition st_lift {S A} (r : result A) : ST S A := λ s, (r, s).

(** [try { m } catch (...) { h }]: the handler sees the state [m] left. *)
Definition st_catch {S A} (m : ST S A) (h : exn → ST S A) : ST S A := λ s,
  match m s with
  | (Ok a, s') => (Ok a, s')
  | (Throw e, s') => h e s'
  end.

(** Run a computation on a component [T] of the state. *)
Definition st_zoom {S T A} (get : S → T) (set : T → S → S) (m : ST T A) : ST S A :=
  λ s, let '(r, t) := m (get s) in (r, set t s).

Lemma ST_bind_Ok {S A B} (m : ST S A) (f : A → ST S B) s b s'' :
  (m ≫= f) s = (Ok b, s'') ↔ ∃ a s', m s = (Ok a, s') ∧ f a s' = (Ok b, s'').
Proof.
  unfold mbind, ST_bind. destruct (m s) as [[a|e] s']; simpl; split.
  - intros E. by exists a, s'.
  - by intros (? & ? & [= <- <-] & ?).
  - done.
  - by intros (? & ? & [=] & ?).
Qed.

Lemma ST_bind_eq {S A B} (m : ST S A) (f : A → ST S B) s a s' :
  m s = (Ok a, s') → (m ≫= f) s = f a s'.
Proof. intros E. unfold mbind, ST_bind. by rewrite E. Qed.

Lemma ST_run_eq {S A} (m : ST S A) s a : (m s).1 = Ok a → m s = (Ok a, (m s).2).
Proof. destruct (m s). simpl. by intros ->. Qed.

(** ** Bounded loops

    [iter_until step p s] runs [step] at most [p] times, stopping at the first
    [inr]. The fuel is binary, so a bound such as [2^32 - 1] costs nothing. *)

Fixpoint iter_until {S R} (step : S → S + R) (p : positive) (s : S) : S + R :=
  match p with
  | xH => step s
  | xO p' =>
      match iter_until step p' s with
      | inl s' => iter_until step p' s'
      | inr r => inr r
      end
  | xI p' =>
      match step s with
      | inl s0 =>
          match iter_until step p' s0 with
          | inl s' => iter_until step p' s'
          | inr r => inr r
          end
      | inr r => inr r
      end
  end.

Fixpoint iter_nat {S R} (step : S → S + R) (n : nat) (s : S) : S + R :=
  match n with
  | O => inl s
  | Datatypes.S n' =>
      match step s with
      | inl s' => iter_nat step n' s'
      | inr r => inr r
      end
  end.

Lemma iter_nat_add {S R} (step : S → S + R) n m s :
  iter_nat step (n + m) s =
  match iter_nat step n s with inl s' => iter_nat step m s' | inr r => inr r end.
Proof.
  revert s. induction n as [|n IH]; intros s; simpl; [done|].
  destruct (step s); [apply IH|done].
Qed.

(** Binary fuel is unary fuel. *)
Lemma iter_until_nat {S R} (step : S → S + R) p s :
  iter_until step p s = iter_nat step (Pos.to_nat p) s.
Proof.
  revert s. induction p as [p IH|p IH|]; intros s; cbn [iter_until].
  - rewrite Pos2Nat.inj_xI. cbn [iter_nat]. destruct (step s) as [s0|r]; [|done].
    replace (2 * Pos.to_nat p)%nat with (Pos.to_nat p + Pos.to_nat p)%nat by lia.
    rewrite iter_nat_add, <- IH. destruct (iter_until step p s0); [apply IH|done].
  - rewrite Pos2Nat.inj_xO.
    replace (2 * Pos.to_nat p)%nat with (Pos.to_nat p + Pos.to_nat p)%nat by lia.
    rewrite iter_nat_add, <- IH. destruct (iter_until step p s); [apply IH|done].
  - rewrite Pos2Nat.inj_1. cbn. by destruct (step s).
Qed.

(** Invariant rule for the loops. *)
Lemma iter_until_inv {S R} (step : S → S + R) (I : S → Prop) (Q : R → Prop) p s :
  I s →
  (∀ s s', I s → step s = inl s' → I s') →
  (∀ s r, I s → step s = inr r → Q r) →
  match iter_until step p s with inl s' => I s' | inr r => Q r end.
Proof.
  intros Hs Hl Hr. rewrite iter_until_nat. generalize (Pos.to_nat p). intros n.
  revert s Hs. induction n as [|n IH]; intros s Hs; simpl; [done|].
  destruct (step s) as [s'|r] eqn:E; [by eapply IH, Hl|by eapply Hr].
Qed.

(** A loop whose state at iteration [i] is [st i] and which stops at [i] when [out i]
    is [Some]: it returns the first such outcome, or runs out of fuel. *)
Lemma iter_nat_search {S R} (step : S → S + R) (st : Z → S) (out : Z → option R) n :
  (∀ i, 0 <= i < Z.of_nat n →
    step (st i) = match out i with Some r => inr r | None => inl (st (i + 1)) end) →
  (∃ i r, 0 <= i < Z.of_nat n ∧ out i = Some r ∧ (∀ j, 0 <= j < i → out j = None) ∧
          iter_nat step n (st 0) = inr r) ∨
  ((∀ j, 0 <= j < Z.of_nat n → out j = None) ∧ iter_nat step n (st 0) = inl (st (Z.of_nat n))).
Proof.
  induction n as [|n IH]; intros Hstep.
  { right. split; [lia|done]. }
  replace (Datatypes.S n) with (n + 1)%nat by lia. rewrite iter_nat_add.
  destruct IH as [(i & r & Hi & Ho & Hj & ->)|[Hnone ->]].
  - intros i Hi. apply Hstep. lia.
  - left. exists i, r. split_and!; [lia..|done|done|done].
  - simpl. rewrite Hstep by lia. destruct (out (Z.of_nat n)) as [r|] eqn:Eo.
    + left. exists (Z.of_nat n), r. split_and!; [lia..|done|done|done].
    + right. split; [|by replace (Z.of_nat (n + 1)) with (Z.of_nat n + 1) by lia].
      intros j Hj. destruct (decide (j = Z.of_nat n)) as [->|]; [done|]. apply Hnone. lia.
Qed.

Lemma iter_until_search {S R} (step : S → S + R) (st : Z → S) (out : Z → option R) p :
  (∀ i, 0 <= i < Zpos p →
    step (st i) = match out i with Some r => inr r | None => inl (st (i + 1)) end) →
  (∃ i r, 0 <= i < Zpos p ∧ out i = Some r ∧ (∀ j, 0 <= j < i → out j = None) ∧
          iter_until step p (st 0) = inr r) ∨
  ((∀ j, 0 <= j < Zpos p → out j = None) ∧ iter_until step p (st 0) = inl (st (Zpos p))).
Proof.
  rewrite iter_until_nat. rewrite <- (positive_nat_Z p). apply iter_nat_search.
Qed.

(** ** Lists *)

Lemma Forall_snoc {A} (P : A → Prop) l x : Forall P (l ++ [x]) ↔ Forall P l ∧ P x.
Proof. by rewrite Forall_app, Forall_singleton. Qed.

Lemma drop_app_exact {A} (l k : list A) : drop (length l) (l ++ k) = k.
Proof. by apply drop_app_length. Qed.

Lemma take_app_exact {A} (l k : list A) : take (length l) (l ++ k) = l.
Proof. by apply take_app_length. Qed.

(** A filter that every element passes. *)
Lemma filter_all {A} (P : A → Prop) `{∀ x, Decision (P x)} (l : list A) :
  (∀ x, x ∈ l → P x) → filter P l = l.
Proof.
  induction l as [|x l IH]; intros Hl; [done|].
  rewrite filter_cons_True by (apply Hl; left). f_equal. apply IH. intros y Hy. apply Hl. by right.
Qed.

(** Induction two elements at a time, for loops that step by two. *)
Lemma list_two_ind {A} (P : list A → Prop) :
  P [] → (∀ x, P [x]) → (∀ x y l, P l → P (x :: y :: l)) → ∀ l, P l.
Proof.
  intros H0 H1 H2. fix IH 1. intros [|x [|y l]]; [done|apply H1|]. apply H2, IH.
Qed.

(** Split on a boolean test and turn it into its arithmetic meaning. *)
Ltac case_bool :=
  match goal with
  | |- context [Z.ltb ?a ?b] => destruct (Z.ltb_spec a b)
  | |- context [Z.leb ?a ?b] => destruct (Z.leb_spec a b)
  | |- context [Z.eqb ?a ?b] => destruct (Z.eqb_spec a b)
  | |- context [Nat.ltb ?a ?b] => destruct (Nat.ltb_spec a b)
  | |- context [Nat.leb ?a ?b] => destruct (Nat.leb_spec a b)
  | |- context [Nat.eqb ?a ?b] => destruct (Nat.eqb_spec a b)
  | H : context [Z.ltb ?a ?b] |- _ => destruct (Z.ltb_spec a b)
  | H : context [Z.leb ?a ?b] |- _ => destruct (Z.leb_spec a b)
  | H : context [Z.eqb ?a ?b] |- _ => destruct (Z.eqb_spec a b)
  | H : context [Nat.ltb ?a ?b] |- _ => destruct (Nat.ltb_spec a b)
  | H : context [Nat.leb ?a ?b] |- _ => destruct (Nat.leb_spec a b)
  | H : context [Nat.eqb ?a ?b] |- _ => destruct (Nat.eqb_spec a b)
  end.
