(* ===== verification/Prog.v ===== *)
(** * Threads and critical sections

    The functions of the node that several threads run are sequences of critical sections:
    each takes one mutex, reads or writes the shared state, and releases it. A [prog] is
    such a sequence, an [Act] being one critical section. [run] executes a program alone;
    [sched] interleaves the sections of any number of threads with steps of the
    environment. [psafe] is the condition on a program under which an invariant of the
    shared state holds between any two sections, whatever the schedule. *)

From S2P Require Import Prelude.

Inductive prog (S A : Type) : Type :=
| Ret (a : A)
| Act {X : Type} (m : ST S X) (k : X → prog S A).
Arguments Ret {S A} a.
Arguments Act {S A X} m k.

#[global] Instance prog_ret {S} : MRet (prog S) := λ A a, Ret a.

Fixpoint prog_bind_go {S A B} (f : A → prog S B) (p : prog S A) : prog S B :=
  match p with
  | Ret a => f a
  | Act m k => Act m (λ x, prog_bind_go f (k x))
  end.
#[global] Instance prog_bind {S} : MBind (prog S) := λ A B f p, prog_bind_go f p.

(** One critical section. *)
Definition atomic {S A} (m : ST S A) : prog S A := Act m Ret.

Definition query {S A} (f : S → A) : prog S A := atomic (st_gets f).

(** [for (x : l) p x] *)
Fixpoint each {S A} (p : A → prog S unit) (l : list A) : prog S unit :=
  match l with
  | [] => mret tt
  | a :: l => p a;; each p l
  end.

(** Without interference. *)
Fixpoint run {S A} (p : prog S A) : ST S A :=
  match p with
  | Ret a => mret a
  | Act m k => x ← m; run (k x)
  end.

Lemma run_bind {S A B} (p : prog S A) (f : A → prog S B) s :
  run (p ≫= f) s = (run p ≫= λ a, run (f a)) s.
Proof.
  revert s. induction p as [a|X m k IH]; intros s; [done|].
  unfold mbind, prog_bind, ST_bind in *. cbn [prog_bind_go run].
  unfold mbind, ST_bind. destruct (m s) as [[x|e] s']; [apply IH|done].
Qed.

Lemma run_bind_Ok {S A B} (p : prog S A) (f : A → prog S B) s a s' :
  run p s = (Ok a, s') → run (p ≫= f) s = run (f a) s'.
Proof. intros E. rewrite run_bind. exact (ST_bind_eq (run p) (λ a, run (f a)) s a s' E). Qed.

Lemma run_bind_Throw {S A B} (p : prog S A) (f : A → prog S B) s e :
  (run p s).1 = Throw e → (run (p ≫= f) s).1 = Throw e.
Proof. rewrite run_bind. unfold mbind, ST_bind. destruct (run p s) as [[]]; simpl; congruence. Qed.

Lemma run_atomic {S A} (m : ST S A) s : run (atomic m) s = m s.
Proof. simpl. unfold mbind, ST_bind, mret, ST_ret. by destruct (m s) as [[]]. Qed.

Lemma run_query {S A} (f : S → A) s : run (query f) s = (Ok (f s), s).
Proof. done. Qed.

(** A program of a component [T] of the state. *)
Fixpoint zoom {S T A} (get : S → T) (set : T → S → S) (p : prog T A) : prog S A :=
  match p with
  | Ret a => Ret a
  | Act m k => Act (st_zoom get set m) (λ x, zoom get set (k x))
  end.

Lemma run_zoom {S T A} (get : S → T) (set : T → S → S) (p : prog T A) s :
  (∀ t s, get (set t s) = t) → (∀ t t' s, set t' (set t s) = set t' s) → (∀ s, set (get s) s = s) →
  run (zoom get set p) s = ((run p (get s)).1, set (run p (get s)).2 s).
Proof.
  intros Hg Hs Hgs. revert s. induction p as [a|X m k IH]; intros s; simpl.
  { unfold mret, ST_ret. simpl. by rewrite Hgs. }
  unfold mbind, ST_bind, st_zoom. destruct (m (get s)) as [[x|e] t]; [|done].
  rewrite IH, Hg, Hs. done.
Qed.

(** ** Schedules *)

(** The shared state and what each thread has left to do. *)
Abbreviation system S := (S * list (prog S unit))%type.

(** [env] moves the clock and the network; [spawn] are the programs a thread may start.
    An exception nobody catches ends the process. *)
Inductive sched {S} (env : S → S → Prop) (spawn : prog S unit → Prop) : system S → system S → Prop :=
| sched_env s s' ts : env s s' → sched env spawn (s, ts) (s', ts)
| sched_spawn s ts p : spawn p → sched env spawn (s, ts) (s, p :: ts)
| sched_act s ts i X (m : ST S X) k x s' :
    ts !! i = Some (Act m k) → m s = (Ok x, s') →
    sched env spawn (s, ts) (s', <[i := k x]> ts)
| sched_throw s ts i X (m : ST S X) k e s' :
    ts !! i = Some (Act m k) → m s = (Throw e, s') →
    sched env spawn (s, ts) (s', []).

(** Running one thread alone is a schedule. *)
Lemma run_sched {S} env spawn (p : prog S unit) s s' ts :
  run p s = (Ok tt, s') → rtc (sched env spawn) (s, p :: ts) (s', Ret tt :: ts).
Proof.
  revert s. induction p as [[]|X m k IH]; intros s; simpl.
  { intros [= <-]. apply rtc_refl. }
  unfold mbind, ST_bind. destruct (m s) as [[x|e] s1] eqn:Em; [|done]. intros Hr.
  eapply rtc_l; [|by apply (IH x)]. by apply (sched_act env spawn s (Act m k :: ts) 0 X m k x s1).
Qed.

(** One thread among others: [p] is run from the state [s] to its result, and before each
    of its sections, and after the last, the other threads [ts] go on for as long as they
    like. *)
Inductive executes {S A} (env : S → S → Prop) (spawn : prog S unit → Prop) :
    prog S A → system S → A → system S → Prop :=
| ex_ret a c c' : rtc (sched env spawn) c c' → executes env spawn (Ret a) c a c'
| ex_act X (m : ST S X) k c s ts x s' a c' :
    rtc (sched env spawn) c (s, ts) → m s = (Ok x, s') →
    executes env spawn (k x) (s', ts) a c' → executes env spawn (Act m k) c a c'.

Lemma run_executes {S A} env spawn (p : prog S A) s a s' ts :
  run p s = (Ok a, s') → executes env spawn p (s, ts) a (s', ts).
Proof.
  revert s. induction p as [b|X m k IH]; intros s; simpl.
  { intros [= <- <-]. by constructor. }
  unfold mbind, ST_bind. destruct (m s) as [[x|e] s1] eqn:Em; [|done]. intros Hr.
  eapply ex_act; [apply rtc_refl|exact Em|by apply IH].
Qed.

(** The results [p] can have when it is run among other threads, exceptions included. *)
Inductive ends {S A} (env : S → S → Prop) (spawn : prog S unit → Prop) : prog S A → system S → result A → Prop :=
| ends_ret a c : ends env spawn (Ret a) c (Ok a)
| ends_act X (m : ST S X) k c s ts x s' r :
    rtc (sched env spawn) c (s, ts) → m s = (Ok x, s') → ends env spawn (k x) (s', ts) r →
    ends env spawn (Act m k) c r
| ends_throw X (m : ST S X) k c s ts e s' :
    rtc (sched env spawn) c (s, ts) → m s = (Throw e, s') → ends env spawn (Act m k) c (Throw e).

Lemma run_ends {S A} env spawn (p : prog S A) s ts : ends env spawn p (s, ts) (run p s).1.
Proof.
  revert s. induction p as [a|X m k IH]; intros s; simpl; [constructor|].
  unfold mbind, ST_bind. destruct (m s) as [[x|e] s1] eqn:Em.
  - eapply ends_act; [apply rtc_refl|exact Em|apply IH].
  - eapply ends_throw; [apply rtc_refl|exact Em].
Qed.

(** The others change the state by [R] between two sections of [p], and keep [I]. Then each
    section returns or throws an exception in [E], and what [p] returns is in [Q]. *)
Fixpoint yields {S A} (I : S → Prop) (R : S → S → Prop) (Q : A → Prop) (E : exn → Prop) (p : prog S A) (s0 : S) : Prop :=
  match p with
  | Ret a => Q a
  | Act m k => ∀ s, R s0 s → I s →
      match m s with (Ok x, s') => yields I R Q E (k x) s' | (Throw e, _) => E e end
  end.

Section yields.
Context {S : Type} (I : S → Prop) (R : S → S → Prop) (E : exn → Prop).

Lemma yields_bind {A B} Q T (p : prog S A) (f : A → prog S B) s0 :
  yields I R Q E p s0 → (∀ a s, Q a → yields I R T E (f a) s) → yields I R T E (p ≫= f) s0.
Proof.
  intros Hp Hf. revert s0 Hp. induction p as [a|X m k IH]; intros s0 Hp; [by apply Hf|]. intros s Hr Hs.
  specialize (Hp s Hr Hs). destruct (m s) as [[x|e] s']; [by apply IH|done].
Qed.

Lemma yields_section {A} (m : ST S A) s0 : (∀ s, I s → is_ok (m s).1 = true) → yields I R (λ _, True) E (atomic m) s0.
Proof. intros Hm s _ Hs. specialize (Hm s Hs). by destruct (m s) as [[]]. Qed.

Lemma yields_each {A} (p : A → prog S unit) l s0 :
  (∀ a s, yields I R (λ _, True) E (p a) s) → yields I R (λ _, True) E (each p l) s0.
Proof.
  intros Hp. revert s0. induction l; intros s0; cbn [each]; [done|]. eapply yields_bind; [apply Hp|]. intros. apply IHl.
Qed.

Lemma yields_weaken {A} (I' : S → Prop) Q (p : prog S A) s0 :
  (∀ s, I' s → I s) → yields I R Q E p s0 → yields I' R Q E p s0.
Proof.
  intros HI. revert s0. induction p as [a|X m k IH]; intros s0 Hp; [done|]. intros s Hr Hs.
  specialize (Hp s Hr (HI s Hs)). destruct (m s) as [[x|e] s']; [by apply IH|done].
Qed.
End yields.

Lemma yields_zoom {S T A} (I : T → Prop) R (I' : S → Prop) (R' : S → S → Prop) Q E
    (get : S → T) (set : T → S → S) (p : prog T A) s0 :
  (∀ s, I' s → I (get s)) → (∀ s s', R' s s' → R (get s) (get s')) → (∀ t s, get (set t s) = t) →
  yields I R Q E p (get s0) → yields I' R' Q E (zoom get set p) s0.
Proof.
  intros HI HR Hg. revert s0. induction p as [a|X m k IH]; intros s0 Hp; [done|]. intros s Hr Hs.
  specialize (Hp (get s) (HR _ _ Hr) (HI s Hs)). unfold st_zoom. destruct (m (get s)) as [[x|e] t]; [|done].
  apply IH. by rewrite Hg.
Qed.

(** Rely and guarantee in one: [R] is a preorder every step of every thread respects. From
    every state later than [s0] that satisfies [I], each section of [p] restores [I] and
    moves along [R], and [Q] holds whenever [p] has returned. *)
Fixpoint psafe {S A} (I : S → Prop) (R : S → S → Prop) (p : prog S A) (Q : A → S → Prop) (s0 : S) : Prop :=
  match p with
  | Ret a => ∀ s, R s0 s → I s → Q a s
  | Act m k => ∀ s, R s0 s → I s →
      match m s with
      | (Ok x, s') => I s' ∧ R s s' ∧ psafe I R (k x) Q s'
      | (Throw _, s') => I s' ∧ R s s'
      end
  end.

Section psafe.
Context {S : Type} (I : S → Prop) (R : S → S → Prop) `{!PreOrder R}.

Lemma psafe_mono {A} (p : prog S A) Q s0 s :
  R s0 s → psafe I R p Q s0 → psafe I R p Q s.
Proof. intros Hr. destruct p; intros Hp s' Hr' Hs'; (apply Hp; [by transitivity s|done]). Qed.

(** The invariant and everything stable may be assumed of the state a program starts in. *)
Lemma psafe_start {A} (p : prog S A) Q s0 :
  (∀ s, R s0 s → I s → psafe I R p Q s) → psafe I R p Q s0.
Proof. intros Hp. destruct p; intros s Hr Hs; by apply (Hp s). Qed.

Lemma psafe_ret {A} (a : A) (Q : A → S → Prop) s0 :
  (∀ s, R s0 s → I s → Q a s) → psafe I R (mret a) Q s0.
Proof. done. Qed.

Lemma psafe_bind {A B} (p : prog S A) (f : A → prog S B) Q T s0 :
  psafe I R p Q s0 → (∀ a s, R s0 s → I s → Q a s → psafe I R (f a) T s) →
  psafe I R (p ≫= f) T s0.
Proof.
  revert s0. induction p as [a|X m k IH]; intros s0 Hp Hf.
  { apply psafe_start. intros s Hr Hs. by apply Hf, Hp. }
  intros s Hr Hs. specialize (Hp s Hr Hs). cbn in Hp |- *.
  destruct (m s) as [[x|e] s']; [|done]. destruct Hp as (Hs' & Hr' & Hk). split_and!; [done..|].
  apply IH; [done|]. intros a s'' Hr''. apply Hf. transitivity s; [done|]. by transitivity s'.
Qed.

Lemma psafe_true {A} (p : prog S A) Q s0 :
  psafe I R p Q s0 → psafe I R p (λ _ _, True) s0.
Proof.
  revert s0. induction p as [a|X m k IH]; intros s0 Hp; [done|].
  intros s Hr Hs. specialize (Hp s Hr Hs). cbn in Hp |- *.
  destruct (m s) as [[x|e] s']; [|done]. destruct Hp as (? & ? & ?). eauto.
Qed.

Lemma psafe_weaken {A} (p : prog S A) (Q T : A → S → Prop) s0 :
  psafe I R p Q s0 → (∀ a s, Q a s → T a s) → psafe I R p T s0.
Proof.
  intros Hp HQ. revert s0 Hp. induction p as [a|X m k IH]; intros s0 Hp s Hr Hs; [by apply HQ, Hp|].
  specialize (Hp s Hr Hs). destruct (m s) as [[x|e] s']; [|done]. destruct Hp as (? & ? & ?). eauto.
Qed.

(** What is stable and true at the start holds at the end. *)
Lemma psafe_frame {A} (p : prog S A) (Q : A → S → Prop) (P : S → Prop) s0 :
  (∀ s s', R s s' → P s → P s') → P s0 → psafe I R p Q s0 → psafe I R p (λ a s, Q a s ∧ P s) s0.
Proof.
  intros HP. revert s0. induction p as [a|X m k IH]; intros s0 H0 Hp s Hr Hs; [split; [by apply Hp|by eapply HP]|].
  specialize (Hp s Hr Hs). destruct (m s) as [[x|e] s']; [|done]. destruct Hp as (? & Hr' & ?).
  split_and!; [done..|]. apply IH; [|done]. eapply HP; [exact Hr'|]. by eapply HP.
Qed.

Lemma psafe_keep {A} (p : prog S A) (P : S → Prop) s0 :
  (∀ s s', R s s' → P s → P s') → P s0 → psafe I R p (λ _ _, True) s0 → psafe I R p (λ _, P) s0.
Proof.
  intros HP H0 Hp. eapply psafe_weaken; [by apply (psafe_frame p (λ _ _, True) P)|]. by intros a s [_ ?].
Qed.

Lemma psafe_atomic {A} (m : ST S A) (Q : A → S → Prop) s0 :
  (∀ s, R s0 s → I s → I (m s).2 ∧ R s (m s).2 ∧
    (∀ a s', (m s).1 = Ok a → R (m s).2 s' → I s' → Q a s')) →
  psafe I R (atomic m) Q s0.
Proof.
  intros Hm s Hr Hs. destruct (Hm s Hr Hs) as (Hs' & Hr' & HQ). cbn.
  destruct (m s) as [[a|e] s']; simpl in *; eauto.
Qed.

(** A section about whose result nothing is recorded. *)
Lemma psafe_section {A} (m : ST S A) s0 :
  (∀ s, R s0 s → I s → I (m s).2 ∧ R s (m s).2) → psafe I R (atomic m) (λ _ _, True) s0.
Proof. intros Hm. apply psafe_atomic. intros s Hr Hs. by destruct (Hm s Hr Hs). Qed.

Lemma psafe_query {A} (f : S → A) (Q : A → S → Prop) s0 :
  (∀ s s', R s0 s → I s → R s s' → I s' → Q (f s) s') → psafe I R (query f) Q s0.
Proof.
  intros Hf. apply psafe_atomic. intros s Hr Hs. split_and!; [done|done|].
  intros a s' [= <-] Hr' Hs'. by apply Hf.
Qed.

Lemma psafe_each {A} (p : A → prog S unit) l s0 :
  (∀ a s, a ∈ l → R s0 s → I s → psafe I R (p a) (λ _ _, True) s) →
  psafe I R (each p l) (λ _ _, True) s0.
Proof.
  revert s0. induction l as [|a l IH]; intros s0 Hp; [done|]. cbn [each].
  apply psafe_start. intros s Hr Hs.
  eapply psafe_bind; [apply Hp; [left|done|done]|]. intros _ s' Hr' Hs' _. apply IH.
  intros x s'' Hx Hr''. apply Hp; [by right|]. transitivity s; [done|]. by transitivity s'.
Qed.

(** An invariant that every environment step and every section restores holds at every
    point of every schedule, and what is stable stays. *)
Lemma interleaved_inv env spawn s ts s' ts' :
  (∀ s s', env s s' → I s → I s' ∧ R s s') →
  (∀ p s, spawn p → psafe I R p (λ _ _, True) s) →
  I s → Forall (λ p, psafe I R p (λ _ _, True) s) ts →
  rtc (sched env spawn) (s, ts) (s', ts') →
  I s' ∧ R s s' ∧ Forall (λ p, psafe I R p (λ _ _, True) s') ts'.
Proof.
  intros Henv Hspawn Hs Hts Hr.
  remember (s, ts) as c eqn:Ec. remember (s', ts') as c' eqn:Ec'.
  revert s ts Ec Hs Hts. induction Hr as [c|c1 c2 c3 Hstep _ IH]; intros s ts -> Hs Hts.
  { by simplify_eq. }
  specialize (IH Ec').
  assert (∀ s1 ts1, c2 = (s1, ts1) → I s1 → R s s1 →
    Forall (λ p, psafe I R p (λ _ _, True) s1) ts1 →
    I s' ∧ R s s' ∧ Forall (λ p, psafe I R p (λ _ _, True) s') ts') as Hgo.
  { intros s1 ts1 E Hs1 Hr1 Hts1. destruct (IH s1 ts1 E Hs1 Hts1) as (? & ? & ?). split_and!; [done| |done].
    by transitivity s1. }
  assert (∀ s1, R s s1 → Forall (λ p, psafe I R p (λ _ _, True) s1) ts) as Hlater.
  { intros s1 Hr1. eapply Forall_impl; [exact Hts|]. intros p. by apply psafe_mono. }
  clear IH Ec'. inversion Hstep as [s1 s2 ts1 He|s1 ts1 p Hp|s1 ts1 i X m k x s2 Hi Hm
    |s1 ts1 i X m k e s2 Hi Hm]; subst; (eapply Hgo; [reflexivity|..]).
  - by apply (Henv s).
  - by apply (Henv s).
  - by apply Hlater, (Henv s).
  - done.
  - done.
  - constructor; [by apply Hspawn|done].
  - pose proof (proj1 (Forall_lookup _ _) Hts i _ Hi s ltac:(done) Hs) as Hk. cbn in Hk. rewrite Hm in Hk. apply Hk.
  - pose proof (proj1 (Forall_lookup _ _) Hts i _ Hi s ltac:(done) Hs) as Hk. cbn in Hk. rewrite Hm in Hk. apply Hk.
  - pose proof (proj1 (Forall_lookup _ _) Hts i _ Hi s ltac:(done) Hs) as Hk. cbn in Hk. rewrite Hm in Hk.
    apply Forall_insert; [by apply Hlater, Hk|]. apply Hk.
  - pose proof (proj1 (Forall_lookup _ _) Hts i _ Hi s ltac:(done) Hs) as Hk. cbn in Hk. rewrite Hm in Hk. apply Hk.
  - pose proof (proj1 (Forall_lookup _ _) Hts i _ Hi s ltac:(done) Hs) as Hk. cbn in Hk. rewrite Hm in Hk. apply Hk.
  - constructor.
Qed.

(** So what [psafe] promises of a program holds when it has returned. *)
Lemma executes_post {A} env spawn (p : prog S A) Q s ts a s' ts' :
  (∀ s s', env s s' → I s → I s' ∧ R s s') →
  (∀ p s, spawn p → psafe I R p (λ _ _, True) s) →
  I s → Forall (λ p, psafe I R p (λ _ _, True) s) ts → psafe I R p Q s →
  executes env spawn p (s, ts) a (s', ts') → Q a s'.
Proof.
  intros Henv Hspawn Hs Hts Hp Hex. remember (s, ts) as c eqn:Ec. remember (s', ts') as c' eqn:Ec'.
  revert s ts Ec Hs Hts Hp. induction Hex as [a c c1 Hr|X m k c s1 ts1 x s2 a c1 Hr Em _ IH];
    intros s ts -> Hs Hts Hp; subst.
  - destruct (interleaved_inv env spawn s ts s' ts' Henv Hspawn Hs Hts Hr) as (Hs' & Hr' & _). by apply Hp.
  - destruct (interleaved_inv env spawn s ts s1 ts1 Henv Hspawn Hs Hts Hr) as (Hs1 & Hr1 & Hts1).
    specialize (Hp s1 Hr1 Hs1). rewrite Em in Hp. destruct Hp as (Hs2 & Hr2 & Hk).
    apply (IH eq_refl s2 ts1); [done|done| |done].
    eapply Forall_impl; [exact Hts1|]. intros q. by apply psafe_mono.
Qed.

(** And what it can end with, when the invariant keeps its sections from throwing. *)
Lemma ends_yields {A} env spawn (p : prog S A) Q E s ts r :
  (∀ s s', env s s' → I s → I s' ∧ R s s') →
  (∀ p s, spawn p → psafe I R p (λ _ _, True) s) →
  I s → Forall (λ p, psafe I R p (λ _ _, True) s) ts → psafe I R p (λ _ _, True) s → yields I R Q E p s →
  ends env spawn p (s, ts) r → match r with Ok a => Q a | Throw e => E e end.
Proof.
  intros Henv Hspawn Hs Hts Hp Hy Hend. remember (s, ts) as c eqn:Ec. revert s ts Ec Hs Hts Hp Hy.
  induction Hend as [a c|X m k c s1 ts1 x s2 r Hr Em _ IH|X m k c s1 ts1 e s2 Hr Em]; intros s ts -> Hs Hts Hp Hy; [done|..];
    destruct (interleaved_inv env spawn s ts s1 ts1 Henv Hspawn Hs Hts Hr) as (Hs1 & Hr1 & Hts1);
    specialize (Hp s1 Hr1 Hs1); specialize (Hy s1 Hr1 Hs1); rewrite Em in Hp, Hy; [|done].
  destruct Hp as (Hs2 & Hr2 & Hk). apply (IH s2 ts1 eq_refl); [done| |done|done].
  eapply Forall_impl; [exact Hts1|]. intros q. by apply psafe_mono.
Qed.

(** Alone, nothing changes between two sections. *)
Lemma run_yields {A} (p : prog S A) Q E s :
  I s → psafe I R p (λ _ _, True) s → yields I eq Q E p s →
  match (run p s).1 with Ok a => Q a | Throw e => E e end.
Proof.
  revert s. induction p as [a|X m k IH]; intros s Hs Hp Hy; [done|].
  specialize (Hp s ltac:(done) Hs). specialize (Hy s eq_refl Hs). simpl. unfold mbind, ST_bind.
  destruct (m s) as [[x|e] s']; [|done]. destruct Hp as (? & _ & ?). by apply IH.
Qed.
End psafe.

(** A program of a component, seen from the whole state. *)
Lemma psafe_zoom {S T A} (I : T → Prop) (R : T → T → Prop) (I' : S → Prop) (R' : S → S → Prop)
    (get : S → T) (set : T → S → S) (p : prog T A) s0 :
  (∀ s, I' s → I (get s)) → (∀ s s', R' s s' → R (get s) (get s')) → (∀ t s, get (set t s) = t) →
  (∀ t s, I' s → I t → R (get s) t → I' (set t s) ∧ R' s (set t s)) →
  psafe I R p (λ _ _, True) (get s0) → psafe I' R' (zoom get set p) (λ _ _, True) s0.
Proof.
  intros HI HR Hg Hset. revert s0. induction p as [a|X m k IH]; intros s0 Hp; [done|].
  intros s Hr Hs. specialize (Hp (get s) (HR _ _ Hr) (HI _ Hs)). cbn. unfold st_zoom.
  destruct (m (get s)) as [[x|e] t].
  - destruct Hp as (Hi & Hl & Hk). destruct (Hset t s Hs Hi Hl). split_and!; [done..|]. apply IH. by rewrite Hg.
  - destruct Hp as (Hi & Hl). by apply Hset.
Qed.
