(* ===== verification/Text.v ===== *)
(** * Words and numbers (src/app/ParseNumber.hpp and the standard library's text functions)

    The command interpreters read words from an [std::istringstream], print numbers with
    [std::to_string] and read them with [std::from_chars] or [std::stoi]. *)

From S2P Require Import Prelude.

(** [std::isspace] and [std::isdigit] in the C locale. *)
Definition isspace (c : byte) : bool :=
  let c := byte.unsigned c in (c =? 32) || ((9 <=? c) && (c <=? 13)).

Definition isdigit (c : byte) : bool :=
  let c := byte.unsigned c in (48 <=? c) && (c <=? 57).

Definition newline : byte := Byte.x0a.

Module Text.

(** ** Words

    A stream that is only read with [>>] into strings is the list of the words it has
    left. *)
Fixpoint words_from (word : str) (s : str) : list str :=
  match s with
  | [] => if bool_decide (word = []) then [] else [word]
  | c :: s =>
      if isspace c then (if bool_decide (word = []) then words_from [] s else word :: words_from [] s)
      else words_from (word ++ [c]) s
  end.

Definition words (s : str) : list str := words_from [] s.

(** [iss >> x]: when no word is left [x] keeps its value and the stream stays failed. *)
Definition read_word (old : str) (ws : list str) : str * list str :=
  match ws with
  | w :: ws => (w, ws)
  | [] => (old, [])
  end.

(** ** Numbers *)

Definition digit_value (c : byte) : Z := byte.unsigned c - 48.
Definition digit (d : Z) : byte := byte.of_Z (48 + d).

(** The digits of [n], most significant first, in front of [acc]; [fuel] bounds their
    number. *)
Fixpoint print_digits (fuel : nat) (n : Z) (acc : str) : str :=
  match fuel with
  | O => acc
  | S fuel =>
      let acc := digit (n mod 10) :: acc in
      if n <? 10 then acc else print_digits fuel (n / 10) acc
  end.

(** [std::to_string] *)
Definition to_string (n : Z) : str :=
  if n <? 0 then Byte.x2d :: print_digits (S (Z.to_nat (Z.log2 (- n)))) (- n) []
  else print_digits (S (Z.to_nat (Z.log2 n))) n [].

(** The longest prefix of digits. *)
Fixpoint digits_prefix (s : str) : str :=
  match s with
  | c :: s => if isdigit c then c :: digits_prefix s else []
  | [] => []
  end.

Definition digits_value (s : str) : Z := foldl (λ n c, n * 10 + digit_value c) 0 s.

Definition INT_MAX : Z := 2 ^ 31 - 1.
Definition INT_MIN : Z := - 2 ^ 31.

(** [std::from_chars] into an [int]: an optional minus sign and the digits that follow; the
    error code is set when there is no digit or the value is out of range. What comes
    behind the digits is not looked at. *)
Definition parse_number (str_number : str) : option Z :=
  let '(negative, rest) :=
    match str_number with
    | Byte.x2d :: rest => (true, rest)
    | _ => (false, str_number)
    end in
  let digits := digits_prefix rest in
  if bool_decide (digits = []) then None else
  let number := if negative then - digits_value digits else digits_value digits in
  if (number <? INT_MIN) || (INT_MAX <? number) then None else Some number.

(** [std::stoi] on a string of digits: throws [std::out_of_range]. *)
Definition stoi_digits (s : str) : result Z :=
  if INT_MAX <? digits_value s then Throw OutOfRange else Ok (digits_value s).

(** ** Facts *)

Definition is_word (w : str) : Prop := w ≠ [] ∧ Forall (λ c, isspace c = false) w.

#[global] Instance is_word_dec w : Decision (is_word w).
Proof. unfold is_word. apply _. Defined.

Lemma words_from_nospace word w s :
  Forall (λ c, isspace c = false) w → words_from word (w ++ s) = words_from (word ++ w) s.
Proof.
  intros Hw. revert word. induction Hw as [|c w Hc _ IH]; intros word; simpl.
  { by rewrite app_nil_r. }
  rewrite Hc, IH, <- app_assoc. done.
Qed.

(** A word followed by a space is read first. *)
Lemma words_cons w c s : is_word w → isspace c = true → words (w ++ c :: s) = w :: words s.
Proof.
  intros [Hne Hw] Hc. unfold words. rewrite words_from_nospace by done. simpl.
  rewrite Hc, bool_decide_false by (by destruct w). done.
Qed.

Lemma words_last w : is_word w → words w = [w].
Proof.
  intros [Hne Hw]. unfold words. rewrite <- (app_nil_r w) at 1.
  rewrite words_from_nospace by done. simpl. by rewrite bool_decide_false by (by destruct w).
Qed.

Lemma words_space c s : isspace c = true → words (c :: s) = words s.
Proof. intros Hc. unfold words. simpl. by rewrite Hc. Qed.

(** Whitespace separates. *)
Lemma words_from_app word a c b :
  isspace c = true → words_from word (a ++ c :: b) = words_from word a ++ words b.
Proof.
  intros Hc. revert word. induction a as [|x a IH]; intros word; cbn [app words_from].
  - rewrite Hc. by case_bool_decide.
  - destruct (isspace x); [|apply IH]. case_bool_decide; [apply IH|]. cbn [app]. f_equal. apply IH.
Qed.

Lemma words_app a c b : isspace c = true → words (a ++ c :: b) = words a ++ words b.
Proof. apply words_from_app. Qed.

Lemma words_nil : words [] = [].
Proof. done. Qed.

(** What is read is a word. *)
Lemma words_from_are_words word s :
  Forall (λ c, isspace c = false) word → Forall is_word (words_from word s).
Proof.
  revert word. induction s as [|c s IH]; intros word Hw; simpl.
  - case_bool_decide; [constructor|]. by repeat constructor.
  - destruct (isspace c) eqn:Hc.
    + case_bool_decide; [by apply IH|]. constructor; [done|]. by apply IH.
    + apply IH. apply Forall_app. split; [done|]. by constructor.
Qed.

Lemma words_are_words s : Forall is_word (words s).
Proof. apply words_from_are_words. constructor. Qed.

Lemma digit_unsigned d : 0 <= d < 10 → byte.unsigned (digit d) = 48 + d.
Proof.
  intros Hd. unfold digit. rewrite byte.unsigned_of_Z. unfold byte.wrap.
  rewrite Z.mod_small; [done|]. change (2 ^ 8) with 256. lia.
Qed.

Lemma digit_value_digit d : 0 <= d < 10 → digit_value (digit d) = d.
Proof. intros Hd. unfold digit_value. rewrite digit_unsigned by done. lia. Qed.

Lemma isdigit_digit d : 0 <= d < 10 → isdigit (digit d) = true.
Proof. intros Hd. unfold isdigit. rewrite digit_unsigned by done. lia. Qed.

Lemma isdigit_not_space c : isdigit c = true → isspace c = false.
Proof. unfold isdigit, isspace. lia. Qed.

Lemma foldl_digits_app acc a b :
  foldl (λ n c, n * 10 + digit_value c) acc (a ++ b) =
  foldl (λ n c, n * 10 + digit_value c) (foldl (λ n c, n * 10 + digit_value c) acc a) b.
Proof. apply foldl_app. Qed.

Lemma print_digits_acc fuel n acc : print_digits fuel n acc = print_digits fuel n [] ++ acc.
Proof.
  revert n acc. induction fuel as [|fuel IH]; intros n acc; simpl; [done|].
  case_bool; [done|]. rewrite IH, (IH _ [_]), <- app_assoc. done.
Qed.

Lemma print_digits_spec fuel n :
  0 <= n < 2 ^ Z.of_nat fuel → (0 < fuel)%nat →
  digits_value (print_digits fuel n []) = n ∧
  Forall (λ c, isdigit c = true) (print_digits fuel n []) ∧ print_digits fuel n [] ≠ [].
Proof.
  revert n. induction fuel as [|fuel IH]; intros n Hn Hf; [lia|]. cbn [print_digits].
  pose proof (Z.mod_pos_bound n 10 ltac:(lia)) as Hm.
  case_bool.
  - rewrite Z.mod_small by lia. unfold digits_value. simpl. rewrite digit_value_digit by lia.
    split_and!; [lia| |done]. constructor; [apply isdigit_digit; lia|constructor].
  - rewrite Nat2Z.inj_succ, Z.pow_succ_r in Hn by lia.
    assert (0 < fuel)%nat. { destruct fuel; [simpl in Hn; lia|lia]. }
    destruct (IH (n / 10)) as (Hv & Hd & Hne); [|done|].
    { split; [apply Z.div_pos; lia|]. apply Z.div_lt_upper_bound; lia. }
    rewrite print_digits_acc. split_and!.
    + unfold digits_value in *. rewrite foldl_digits_app, Hv. simpl.
      rewrite digit_value_digit by lia. pose proof (Z.div_mod n 10). lia.
    + apply Forall_app. split; [done|]. constructor; [by apply isdigit_digit|constructor].
    + by destruct (print_digits fuel (n / 10) []).
Qed.

Lemma log2_fuel n : 0 <= n → 0 <= n < 2 ^ Z.of_nat (S (Z.to_nat (Z.log2 n))).
Proof.
  intros Hn. rewrite Nat2Z.inj_succ, Z2Nat.id by apply Z.log2_nonneg.
  destruct (decide (n = 0)) as [->|]; [done|]. pose proof (Z.log2_spec n). lia.
Qed.

Lemma to_string_spec n : 0 <= n →
  digits_value (to_string n) = n ∧ Forall (λ c, isdigit c = true) (to_string n) ∧ to_string n ≠ [].
Proof.
  intros Hn. unfold to_string. case_bool; [lia|].
  apply print_digits_spec; [by apply log2_fuel|lia].
Qed.

Lemma digits_prefix_all s rest :
  Forall (λ c, isdigit c = true) s →
  match rest with c :: _ => isdigit c = false | [] => True end →
  digits_prefix (s ++ rest) = s.
Proof.
  intros Hs Hr. induction Hs as [|c s Hc _ IH]; simpl.
  - destruct rest as [|c rest]; [done|]. simpl. by rewrite Hr.
  - by rewrite Hc, IH.
Qed.

Lemma to_string_word n : 0 <= n → is_word (to_string n).
Proof.
  intros Hn. destruct (to_string_spec n Hn) as (_ & Hd & Hne). split; [done|].
  eapply Forall_impl; [done|]. apply isdigit_not_space.
Qed.

Lemma to_string_inj n m : 0 <= n → 0 <= m → to_string n = to_string m → n = m.
Proof.
  intros Hn Hm E. destruct (to_string_spec n Hn) as [<- _]. rewrite E. by apply to_string_spec.
Qed.

Lemma digit_not_minus c : isdigit c = true → c ≠ Byte.x2d.
Proof. by intros Hc ->. Qed.

Lemma no_sign s :
  match s with c :: _ => c ≠ Byte.x2d | [] => True end →
  match s with Byte.x2d :: rest => (true, rest) | _ => (false, s) end = (false, s).
Proof. destruct s as [|c s]; [done|]. intros Hc. by destruct c. Qed.

(** Numbers that fit an [int] are read back, whatever follows their digits. *)
Lemma parse_to_string n rest :
  0 <= n → match rest with c :: _ => isdigit c = false | [] => True end →
  parse_number (to_string n ++ rest) = if INT_MAX <? n then None else Some n.
Proof.
  intros Hn Hr. destruct (to_string_spec n Hn) as (Hv & Hd & Hne). unfold parse_number.
  rewrite no_sign.
  2: { destruct (to_string n) as [|c s]; [done|]. simpl. apply digit_not_minus.
       by apply Forall_cons in Hd as [? _]. }
  rewrite digits_prefix_all by done. rewrite bool_decide_false by done. rewrite Hv.
  rewrite (proj2 (Z.ltb_ge n INT_MIN)) by (unfold INT_MIN; lia). done.
Qed.

Definition fits_int (n : Z) : bool := (INT_MIN <=? n) && (n <=? INT_MAX).

Lemma to_string_negative n : n < 0 → to_string n = Byte.x2d :: to_string (- n).
Proof.
  intros Hn. unfold to_string. rewrite (proj2 (Z.ltb_lt _ _)), (proj2 (Z.ltb_ge _ _)) by lia. done.
Qed.

(** Exactly the numbers that fit an [int] are read back, negative ones too. *)
Lemma parse_to_string_int n : parse_number (to_string n) = if fits_int n then Some n else None.
Proof.
  unfold fits_int. destruct (decide (0 <= n)) as [Hn|Hn].
  - rewrite <- (app_nil_r (to_string n)), parse_to_string by done. unfold INT_MIN.
    destruct (INT_MAX <? n) eqn:E; [rewrite (proj2 (Z.leb_gt n INT_MAX)) by lia; by rewrite andb_false_r|].
    by rewrite !(proj2 (Z.leb_le _ _)) by lia.
  - rewrite to_string_negative by lia. destruct (to_string_spec (- n)) as (Hv & Hd & Hne); [lia|].
    unfold parse_number. rewrite <- (app_nil_r (to_string (- n))), digits_prefix_all by done.
    rewrite bool_decide_false, Hv, Z.opp_involutive by done.
    rewrite (proj2 (Z.ltb_ge INT_MAX n)), (proj2 (Z.leb_le n INT_MAX)) by (unfold INT_MAX; lia).
    rewrite orb_false_r, andb_true_r. destruct (n <? INT_MIN) eqn:E.
    + by rewrite (proj2 (Z.leb_gt _ _)) by lia.
    + by rewrite (proj2 (Z.leb_le _ _)) by lia.
Qed.

Lemma to_string_is_word n : is_word (to_string n).
Proof.
  destruct (decide (0 <= n)) as [Hn|Hn]; [by apply to_string_word|].
  rewrite to_string_negative by lia. destruct (to_string_word (- n)) as [_ Hw]; [lia|].
  split; [done|]. by constructor.
Qed.

Lemma digits_prefix_spec s :
  ∃ rest, s = digits_prefix s ++ rest ∧ Forall (λ c, isdigit c = true) (digits_prefix s) ∧
    match rest with c :: _ => isdigit c = false | [] => True end.
Proof.
  induction s as [|c s (rest & E & Hd & Hr)]; simpl; [by exists []|].
  destruct (isdigit c) eqn:Hc.
  - exists rest. simpl. rewrite <- E. split_and!; [done|by constructor|done].
  - by exists (c :: s).
Qed.

Lemma split_sign s :
  (∃ rest, s = Byte.x2d :: rest ∧
     match s with Byte.x2d :: rest => (true, rest) | _ => (false, s) end = (true, rest)) ∨
  match s with c :: _ => c ≠ Byte.x2d | [] => True end.
Proof.
  destruct s as [|c s]; [by right|].
  destruct (decide (c = Byte.x2d)) as [->|]; [left; by exists s|by right].
Qed.

(** What [parse_number] reads: it returns [n] exactly when the string is an optional minus
    sign, at least one digit, and anything that does not start with a digit, the number
    written there is [n], and [n] fits an [int]. In particular a port, amount or fee may be
    negative or followed by garbage. *)
Theorem parse_number_spec s n :
  parse_number s = Some n ↔
  ∃ (neg : bool) digits rest,
    s = (if neg then [Byte.x2d] else []) ++ digits ++ rest ∧
    digits ≠ [] ∧ Forall (λ c, isdigit c = true) digits ∧
    match rest with c :: _ => isdigit c = false | [] => True end ∧
    n = (if neg then - digits_value digits else digits_value digits) ∧
    INT_MIN <= n <= INT_MAX.
Proof.
  split.
  - unfold parse_number. intros H.
    destruct (split_sign s) as [(rest & E & Es)|Hs]; [rewrite Es in H|rewrite (no_sign s Hs) in H].
    + destruct (digits_prefix_spec rest) as (r & Er & Hd & Hr). revert H.
      case_bool_decide; [done|]. destruct (_ || _) eqn:Hb; [done|]. intros [= <-].
      exists true, (digits_prefix rest), r. split_and!; try done; [by rewrite E, <- Er|lia..].
    + destruct (digits_prefix_spec s) as (r & Er & Hd & Hr). revert H.
      case_bool_decide; [done|]. destruct (_ || _) eqn:Hb; [done|]. intros [= <-].
      exists false, (digits_prefix s), r. split_and!; try done; lia.
  - intros (neg & ds & rest & -> & Hne & Hd & Hr & -> & Hn). unfold parse_number.
    destruct neg; cbn [app].
    + rewrite digits_prefix_all, bool_decide_false by done.
      destruct (_ || _) eqn:Hb; [lia|done].
    + rewrite no_sign.
      2: { destruct ds as [|c ds]; [done|]. simpl. apply digit_not_minus.
           by apply Forall_cons in Hd as [? _]. }
      rewrite digits_prefix_all, bool_decide_false by done.
      destruct (_ || _) eqn:Hb; [lia|done].
Qed.
End Text.
