(* ===== verification/Codec.v ===== *)
(** * Bounds-checked readers

    Every [deserialize] of the code walks an [offset] over a payload with the same
    two steps: refuse when [payload.size() < offset + n], then read [n] bytes and
    advance. [parser] is that walk, with the offset explicit. [consumes] and
    [produces] are the two directions of a round trip; the wire formats are proved
    with their composition lemmas, and [Codec] is the interface the rest of the
    development uses. *)

From S2P Require Import Prelude.

Definition parser (A : Type) : Type := bytes → nat → option (A * nat).

#[global] Instance parser_ret : MRet parser := λ A a _ off, Some (a, off).
#[global] Instance parser_bind : MBind parser := λ A B f p payload off,
  match p payload off with
  | Some (a, off') => f a payload off'
  | None => None
  end.

(** [if (payload.size() < offset + sizeof(T)) return nullopt;
    x = *reinterpret_cast<const T *>(payload.data() + offset); offset += sizeof(T)] *)
Definition read_le (k : nat) : parser Z := λ payload off,
  if (length payload <? off + k)%nat then None
  else Some (of_le (take k (drop off payload)), (off + k)%nat).

(** [if (payload.size() < offset + n) return nullopt;] then copy [n] bytes. *)
Definition read_bytes (n : Z) : parser bytes := λ payload off,
  if sz payload <? Z.of_nat off + n then None
  else Some (take (Z.to_nat n) (drop off payload), (off + Z.to_nat n)%nat).

(** A copy of [n] bytes with no check of its own: the caller has compared sizes before. *)
Definition raw_bytes (n : nat) : parser bytes := λ payload off,
  Some (take n (drop off payload), (off + n)%nat).

(** A [uint32_t] length followed by that many bytes. *)
Definition read_lbytes : parser bytes := n ← read_le 4; read_bytes n.

(** [for (i = 0; i < count; i++)] reading one element per turn. *)
Fixpoint read_times {A} (p : parser A) (n : nat) : parser (list A) :=
  match n with
  | O => mret []
  | S n' => a ← p; l ← read_times p n'; mret (a :: l)
  end.

(** A nested [deserialize] that may refuse: [if (!x.has_value()) return nullopt]. *)
Definition read_opt {A} (o : option A) : parser A := λ _ off,
  match o with Some a => Some (a, off) | None => None end.

(** The walk from offset 0 that must end exactly at the end of the payload. *)
Definition run_exact {A} (p : parser A) (payload : bytes) : option A :=
  match p payload 0%nat with
  | Some (a, off) => if (off =? length payload)%nat then Some a else None
  | None => None
  end.

(** [put_lbytes b]: the length prefix the serializers write before [b]. *)
Definition put_lbytes (b : bytes) : bytes := le 4 (u32 (sz b)) ++ b.

(** ** Reading back what was written *)

Definition consumes {A} (p : parser A) (bs : bytes) (a : A) : Prop :=
  ∀ pre post, p (pre ++ bs ++ post) (length pre) = Some (a, length pre + length bs)%nat.

Lemma consumes_ret {A} (a : A) : consumes (mret a) [] a.
Proof. intros pre post. unfold mret, parser_ret. simpl. by rewrite Nat.add_0_r. Qed.

Lemma consumes_bind {A B} (p : parser A) (f : A → parser B) b1 b2 a b :
  consumes p b1 a → consumes (f a) b2 b → consumes (p ≫= f) (b1 ++ b2) b.
Proof.
  intros H1 H2 pre post. unfold mbind, parser_bind.
  rewrite <- (app_assoc b1), H1. specialize (H2 (pre ++ b1) post).
  rewrite <- app_assoc, length_app in H2. rewrite H2. f_equal. f_equal.
  rewrite length_app. lia.
Qed.

Lemma consumes_bind_nil {A B} (p : parser A) (f : A → parser B) b1 a b :
  consumes p b1 a → consumes (f a) [] b → consumes (p ≫= f) b1 b.
Proof. intros. rewrite <- (app_nil_r b1). by eapply consumes_bind. Qed.

Lemma run_exact_consumes {A} (p : parser A) bs a : consumes p bs a → run_exact p bs = Some a.
Proof.
  intros H. specialize (H [] []). rewrite app_nil_r in H. simpl in H.
  unfold run_exact. rewrite H. by rewrite Nat.eqb_refl.
Qed.

Lemma consumes_times {A} (p : parser A) (enc : A → bytes) l :
  Forall (λ a, consumes p (enc a) a) l →
  consumes (read_times p (length l)) (l ≫= enc) l.
Proof.
  induction 1 as [|a l Ha _ IH]; simpl; [apply consumes_ret|].
  eapply consumes_bind; [done|]. eapply consumes_bind_nil; [done|]. apply consumes_ret.
Qed.

Lemma consumes_le k z : in_u (8 * Z.of_nat k) z → consumes (read_le k) (le k z) z.
Proof.
  intros Hz pre post. unfold read_le.
  rewrite !length_app, length_le_split. case_bool; [lia|].
  rewrite drop_app_length, <- (length_le_split k z) at 1.
  by rewrite take_app_length, of_le_le.
Qed.

Lemma consumes_bytes bs : consumes (read_bytes (sz bs)) bs bs.
Proof.
  intros pre post. unfold read_bytes, sz. rewrite !length_app, !Nat2Z.id.
  case_bool; [lia|]. by rewrite drop_app_length, take_app_length.
Qed.

Lemma consumes_lbytes bs : in_u 32 (sz bs) → consumes read_lbytes (put_lbytes bs) bs.
Proof.
  intros H. unfold read_lbytes, put_lbytes. rewrite wrap_small by done.
  eapply consumes_bind; [by apply consumes_le|]. apply consumes_bytes.
Qed.

(** ** Writing back what was read *)

Definition produces {A} (p : parser A) (P : bytes → A → Prop) : Prop :=
  ∀ pre rest a off, p (pre ++ rest) (length pre) = Some (a, off) →
  ∃ bs post, rest = bs ++ post ∧ off = (length pre + length bs)%nat ∧ P bs a.

Lemma produces_ret {A} (a : A) (P : bytes → A → Prop) : P [] a → produces (mret a) P.
Proof.
  intros HP pre rest a' off [= <- <-]. exists [], rest. simpl. split_and!; [done|lia|done].
Qed.

Lemma produces_bind {A B} (p : parser A) (f : A → parser B) P (Q : bytes → B → Prop) :
  produces p P →
  (∀ b1 a, P b1 a → produces (f a) (λ b2 b, Q (b1 ++ b2) b)) →
  produces (p ≫= f) Q.
Proof.
  intros Hp Hf pre rest b off. unfold mbind, parser_bind.
  destruct (p _ _) as [[a off1]|] eqn:E; [|done]. intros E2.
  destruct (Hp _ _ _ _ E) as (b1 & post1 & -> & -> & HP).
  rewrite app_assoc, <- length_app in E2.
  destruct (Hf _ _ HP _ _ _ _ E2) as (b2 & post2 & -> & -> & HQ).
  exists (b1 ++ b2), post2. rewrite <- app_assoc, !length_app. split_and!; [done|lia|done].
Qed.

Lemma produces_weaken {A} (p : parser A) P Q :
  produces p P → (∀ bs a, P bs a → Q bs a) → produces p Q.
Proof.
  intros Hp HPQ pre rest a off E. destruct (Hp _ _ _ _ E) as (bs & post & ? & ? & ?).
  exists bs, post. eauto.
Qed.

Lemma run_exact_produces {A} (p : parser A) P payload a :
  produces p P → run_exact p payload = Some a → P payload a.
Proof.
  intros Hp. unfold run_exact. destruct (p payload 0%nat) as [[a' off]|] eqn:E; [|done].
  case_bool; [|done]. intros [= ->].
  destruct (Hp [] payload a off E) as (bs & post & -> & -> & HP). simpl in *.
  rewrite length_app in *. assert (post = []) as -> by (apply nil_length_inv; lia).
  by rewrite app_nil_r.
Qed.

Lemma produces_times {A} (p : parser A) (enc : A → bytes) (wf : A → Prop) n :
  produces p (λ bs a, bs = enc a ∧ wf a) →
  produces (read_times p n) (λ bs l, bs = l ≫= enc ∧ length l = n ∧ Forall wf l).
Proof.
  intros Hp. induction n as [|n IH]; simpl.
  { apply produces_ret. done. }
  eapply produces_bind; [done|]. intros b1 a [-> Ha].
  eapply produces_bind; [done|]. intros b2 l (-> & Hl & Hw).
  apply produces_ret. rewrite app_nil_r. simpl. auto.
Qed.

Lemma produces_le k :
  produces (read_le k) (λ bs z, bs = le k z ∧ in_u (8 * Z.of_nat k) z).
Proof.
  intros pre rest z off. unfold read_le. rewrite length_app. case_bool; [done|].
  rewrite drop_app_length. intros [= <- <-].
  exists (take k rest), (drop k rest). rewrite take_drop.
  assert (length (take k rest) = k) as Hk by (rewrite length_take; lia).
  split_and!; [done|lia| |].
  - by rewrite split_le_combine'.
  - rewrite <- Hk at 1. apply of_le_range.
Qed.

Lemma produces_bytes n : 0 <= n → produces (read_bytes n) (λ bs b, bs = b ∧ sz b = n).
Proof.
  intros Hn pre rest z off. unfold read_bytes, sz. rewrite length_app. case_bool; [done|].
  rewrite drop_app_length. intros [= <- <-].
  exists (take (Z.to_nat n) rest), (drop (Z.to_nat n) rest). rewrite take_drop.
  assert (length (take (Z.to_nat n) rest) = Z.to_nat n) as Hk by (rewrite length_take; lia).
  split_and!; [done|lia|done|lia].
Qed.

Lemma produces_lbytes :
  produces read_lbytes (λ bs b, bs = put_lbytes b ∧ in_u 32 (sz b)).
Proof.
  eapply produces_bind; [apply produces_le|]. intros b1 n [-> Hn].
  change (8 * Z.of_nat 4) with 32 in Hn.
  eapply produces_weaken; [apply produces_bytes; solve_width|].
  intros bs b [-> Hb]. unfold put_lbytes. rewrite Hb, wrap_small; done.
Qed.

Lemma consumes_opt {A} (o : option A) a : o = Some a → consumes (read_opt o) [] a.
Proof. intros -> pre post. simpl. by rewrite Nat.add_0_r. Qed.

Lemma produces_opt {A} (o : option A) (P : bytes → A → Prop) :
  (∀ a, o = Some a → P [] a) → produces (read_opt o) P.
Proof.
  intros HP pre rest a off. unfold read_opt. destruct o as [a'|]; [|done]. intros [= -> <-].
  exists [], rest. simpl. split_and!; [done|lia|auto].
Qed.

(** ** Fixed-size elements

    Where every element has the same width the code compares the payload's size once and
    then copies without checks. [agrees w p q] says the unchecked reader [p] is the
    checked [q] as long as [w] bytes are left. *)

Definition fixed_width {A} (w : nat) (p : parser A) : Prop :=
  ∀ payload off a off', p payload off = Some (a, off') → off' = (off + w)%nat.

Definition agrees {A} (w : nat) (p q : parser A) : Prop :=
  ∀ payload off, (off + w <= length payload)%nat → p payload off = q payload off.

Lemma fixed_width_bytes n : fixed_width n (read_bytes (Z.of_nat n)).
Proof. intros payload off a off'. unfold read_bytes. case_bool; [done|]. intros [= _ <-]. lia. Qed.

Lemma agrees_bytes n : agrees n (raw_bytes n) (read_bytes (Z.of_nat n)).
Proof.
  intros payload off H. unfold raw_bytes, read_bytes. case_bool; [solve_width|].
  by rewrite Nat2Z.id.
Qed.

Lemma fixed_width_times {A} w (p : parser A) n :
  fixed_width w p → fixed_width (n * w) (read_times p n).
Proof.
  intros Hp. induction n as [|n IH]; intros payload off l off'; simpl.
  { intros [= _ <-]. lia. }
  unfold mbind, parser_bind, mret, parser_ret.
  destruct (p payload off) as [[a o1]|] eqn:E1; [|done]. apply Hp in E1 as ->.
  destruct (read_times p n payload _) as [[l' o2]|] eqn:E2; [|done]. apply IH in E2 as ->.
  intros [= _ <-]. lia.
Qed.

Lemma agrees_times {A} w (p q : parser A) n :
  agrees w p q → fixed_width w q → agrees (n * w) (read_times p n) (read_times q n).
Proof.
  intros Hpq Hq. induction n as [|n IH]; intros payload off H; simpl; [done|].
  unfold mbind, parser_bind. rewrite Hpq by lia.
  destruct (q payload off) as [[a o1]|] eqn:E1; [|done]. apply Hq in E1 as ->.
  by rewrite IH by lia.
Qed.

Lemma length_read_times {A} (p : parser A) n payload off l off' :
  read_times p n payload off = Some (l, off') → length l = n.
Proof.
  revert off l. induction n as [|n IH]; intros off l; simpl.
  { by intros [= <- _]. }
  unfold mbind, parser_bind, mret, parser_ret.
  destruct (p payload off) as [[a o1]|]; [|done].
  destruct (read_times p n payload o1) as [[l' o2]|] eqn:E2; [|done].
  intros [= <- <-]. simpl. f_equal. by eapply IH.
Qed.

(** A count, one size comparison, and unchecked copies of [count] elements: the same as
    the bounds-checked walk. *)
Lemma counted_fixed_exact {A} (p q : parser A) w payload :
  agrees w p q → fixed_width w q →
  run_exact (count ← read_le 4; read_times q (Z.to_nat count)) payload =
  match read_le 4 payload 0%nat with
  | None => None
  | Some (count, offset) =>
      if negb (sz payload =? count * Z.of_nat w + 4) then None else
      match read_times p (Z.to_nat count) payload offset with
      | Some (l, _) => Some l
      | None => None
      end
  end.
Proof.
  intros Hpq Hq. unfold run_exact, mbind, parser_bind.
  destruct (read_le 4 payload 0%nat) as [[count off]|] eqn:E; [|done].
  unfold read_le in E. destruct (Nat.ltb_spec (length payload) (0 + 4)); [done|]. injection E as <- <-.
  set (count := of_le _). assert (0 <= count) by apply of_le_range.
  destruct (Z.eqb_spec (sz payload) (count * Z.of_nat w + 4)) as [Hs|Hs]; simpl.
  - rewrite (agrees_times w p q) by (unfold sz in Hs; auto; lia).
    destruct (read_times q _ payload _) as [[l o]|] eqn:E1; [|done].
    apply (fixed_width_times w) in E1 as ->; [|done].
    case_bool; [done|]. unfold sz in Hs. lia.
  - destruct (read_times q _ payload _) as [[l o]|] eqn:E1; [|done].
    apply (fixed_width_times w) in E1 as ->; [|done].
    case_bool; [|done]. unfold sz in Hs. lia.
Qed.

(** ** The interface

    A wire format: an encoder, a decoder and the values it can carry. *)
Class Codec (A : Type) := {
  encode : A → bytes;
  decode : bytes → option A;
  wire_wf : A → Prop;
  decode_encode a : wire_wf a → decode (encode a) = Some a;
  encode_decode p a : decode p = Some a → encode a = p ∧ wire_wf a
}.

(** A length-prefixed element decoded by its own codec. *)
Definition read_framed `{Codec A} : parser A := b ← read_lbytes; read_opt (decode b).

Definition framed_wf `{Codec A} (a : A) : Prop := wire_wf a ∧ in_u 32 (sz (encode a)).

Definition put_framed `{Codec A} (a : A) : bytes := put_lbytes (encode a).

Lemma consumes_framed `{Codec A} a : framed_wf a → consumes read_framed (put_framed a) a.
Proof.
  intros [Ha Hs]. eapply consumes_bind_nil; [by apply consumes_lbytes|].
  by apply consumes_opt, decode_encode.
Qed.

Lemma produces_framed `{Codec A} :
  produces read_framed (λ bs a, bs = put_framed a ∧ framed_wf a).
Proof.
  eapply produces_bind; [apply produces_lbytes|]. intros b1 b [-> Hb].
  apply produces_opt. intros a Ha. destruct (encode_decode _ _ Ha) as [<- Hw].
  by rewrite app_nil_r.
Qed.

(** ** Composition tactics *)

(** One reader step of a [consumes] goal: peel the next field off both sides. *)
Ltac consume_field :=
  first
    [ eapply consumes_bind;
      [first [apply consumes_lbytes | apply consumes_le | apply consumes_bytes]|]
    | eapply consumes_bind_nil;
      [first [apply consumes_lbytes | apply consumes_le | apply consumes_bytes]|] ].

(** One reader step of a [produces] goal. *)
Ltac produce_field :=
  eapply produces_bind;
  [first [apply produces_lbytes | apply produces_le]|];
  let b := fresh "b" in let x := fresh "x" in let H := fresh "H" in
  intros b x [-> H].

Section codec.
Context {A : Type} {C : Codec A}.

Lemma codec_exact p a : decode p = Some a ↔ p = encode a ∧ wire_wf a.
Proof.
  split.
  - by intros [<- ?]%encode_decode.
  - intros [-> ?]. by apply decode_encode.
Qed.

Lemma encode_inj a b : wire_wf a → wire_wf b → encode a = encode b → a = b.
Proof.
  intros Ha Hb E. apply decode_encode in Ha, Hb. rewrite E in Ha. congruence.
Qed.

Lemma decode_inj p q a : decode p = Some a → decode q = Some a → p = q.
Proof. by intros [<- _]%encode_decode [<- _]%encode_decode. Qed.
End codec.

(** From here on the two round-trip judgements are used through their lemmas. *)
#[global] Opaque consumes produces.
