(* ===== verification/Crypto.v ===== *)
(** * Cryptography (src/crypto)

    OpenSSL is a parameter: the class [Crypto] lists the primitives the code calls,
    [CryptoLaws] what it relies on. The code around them is modelled: the double
    hash, hex encoding, address derivation, and which inputs make [sign] and
    [verify] throw. The objects of OpenSSL, and its calls that fail for want of memory or
    entropy, are in OpenSsl.v, which proves that apart from such failures the calls compute
    what is said here. *)

From S2P Require Import Prelude.

Class Crypto := {
  (** [EVP_Digest*] with [EVP_sha256()] *)
  sha256 : bytes → HashBytes;
  (** [BIGNUM] and the points of secp256k1 *)
  bignum : Type;
  ec_point : Type;
  BN_bin2bn : bytes → bignum;
  BN_bn2bin : bignum → bytes;
  EC_POINT_mul : bignum → ec_point;
  EC_POINT_oct2point : bytes → option ec_point;
  EC_POINT_point2oct : ec_point → bytes;
  (** whether the key object accepts the scalar, and the scalar with its point *)
  EC_KEY_set_private_key : bignum → bool;
  EC_KEY_check_key : bignum → ec_point → bool;
  (** key generation, with the entropy it draws as an argument *)
  EVP_PKEY_keygen : Z → bignum * ec_point;
  EVP_DigestSign : bignum → bytes → bytes;
  EVP_DigestVerify : ec_point → bytes → bytes → bool
}.

(** A SHA-256 digest has 32 bytes. *)
Class CryptoLaws `{Crypto} := {
  sha256_length d : length (sha256 d) = 32%nat
}.

(** What the documentation of OpenSSL promises of keys: the binary encodings of scalars
    and points are read back, a generated key is a scalar with its multiple of the
    generator and passes the key check, and ECDSA is correct for checked keys. *)
Class SignatureLaws `{Crypto} := {
  bin2bn_bn2bin n : BN_bin2bn (BN_bn2bin n) = n;
  oct2point_point2oct p : EC_POINT_oct2point (EC_POINT_point2oct p) = Some p;
  keygen_checked e :
    let '(n, p) := EVP_PKEY_keygen e in
    p = EC_POINT_mul n ∧ EC_KEY_set_private_key n = true ∧ EC_KEY_check_key n p = true;
  ecdsa_correct n p m :
    EC_KEY_check_key n p = true → EVP_DigestVerify p m (EVP_DigestSign n m) = true
}.

Record KeyPair := { public_key : bytes; private_key : bytes }.

Section crypto.
Context `{Crypto}.

Definition double_sha_256 (data : bytes) : HashBytes :=
  let first := sha256 data in sha256 first.

(** [crypto::sign]: throws on a private key OpenSSL refuses. *)
Definition sign (message private_key : bytes) : result bytes :=
  let bn := BN_bin2bn private_key in
  if negb (EC_KEY_set_private_key bn) then Throw RuntimeError else
  let pub_point := EC_POINT_mul bn in
  if negb (EC_KEY_check_key bn pub_point) then Throw RuntimeError else
  Ok (EVP_DigestSign bn message).

(** [crypto::verify]: throws on a public key that is not the encoding of a point. *)
Definition verify (message signature public_key : bytes) : result bool :=
  match EC_POINT_oct2point public_key with
  | None => Throw RuntimeError
  | Some pub_point => Ok (EVP_DigestVerify pub_point message signature)
  end.

Definition generate_keypair (entropy : Z) : KeyPair :=
  let '(priv_bn, pub_point) := EVP_PKEY_keygen entropy in
  {| public_key := EC_POINT_point2oct pub_point; private_key := BN_bn2bin priv_bn |}.

(** What a generated key signs verifies under its public half. *)
Lemma generated_key_signs `{!SignatureLaws} entropy m :
  ∃ pt s, EC_POINT_oct2point (public_key (generate_keypair entropy)) = Some pt ∧
    sign m (private_key (generate_keypair entropy)) = Ok s ∧ EVP_DigestVerify pt m s = true.
Proof.
  unfold generate_keypair, sign. pose proof (keygen_checked entropy) as Hk.
  destruct (EVP_PKEY_keygen entropy) as [n p]. destruct Hk as (-> & Hs & Hc). simpl.
  rewrite bin2bn_bn2bin, Hs, Hc. exists (EC_POINT_mul n), (EVP_DigestSign n m).
  split_and!; [apply oct2point_point2oct|done|by apply ecdsa_correct].
Qed.
End crypto.

(** ** Hex *)

Definition hex_chars : str := lit "0123456789abcdef".

Definition hex_char (i : Z) : byte := nth (Z.to_nat i) hex_chars Byte.x00.

Fixpoint to_hex (data : bytes) : str :=
  match data with
  | [] => []
  | byte :: rest =>
      hex_char (Z.land (Z.shiftr (byte.unsigned byte) 4) 15) ::
      hex_char (Z.land (byte.unsigned byte) 15) :: to_hex rest
  end.

Definition hex_digit_value (c : byte) : option Z :=
  let c := byte.unsigned c in
  if (48 <=? c) && (c <=? 57) then Some (c - 48)
  else if (97 <=? c) && (c <=? 102) then Some (c - 97 + 10)
  else if (65 <=? c) && (c <=? 70) then Some (c - 65 + 10)
  else None.

Fixpoint from_hex_loop (hex : str) : option bytes :=
  match hex with
  | c1 :: c2 :: rest =>
      match hex_digit_value c1, hex_digit_value c2 with
      | Some high, Some low =>
          match from_hex_loop rest with
          | Some result => Some (byte.of_Z (Z.lor (Z.shiftl high 4) low) :: result)
          | None => None
          end
      | _, _ => None
      end
  | _ => Some []
  end.

Definition from_hex (hex : str) : option bytes :=
  if negb (Nat.even (length hex)) then None else from_hex_loop hex.

Definition derive_address `{Crypto} (public_key : bytes) : str :=
  to_hex (double_sha_256 public_key).

(** ** Facts *)

Lemma length_to_hex data : length (to_hex data) = (2 * length data)%nat.
Proof. induction data as [|b data IH]; simpl; [done|]. rewrite IH. lia. Qed.

(** Both digits of a byte read back as its two nibbles, for all 256 bytes. *)
Lemma hex_byte_roundtrip b :
  hex_digit_value (hex_char (Z.land (Z.shiftr (byte.unsigned b) 4) 15))
    = Some (byte.unsigned b / 16) ∧
  hex_digit_value (hex_char (Z.land (byte.unsigned b) 15)) = Some (byte.unsigned b mod 16) ∧
  byte.of_Z (Z.lor (Z.shiftl (byte.unsigned b / 16) 4) (byte.unsigned b mod 16)) = b.
Proof. destruct b; vm_compute; split_and!; reflexivity. Qed.

Lemma from_hex_loop_to_hex data : from_hex_loop (to_hex data) = Some data.
Proof.
  induction data as [|b data IH]; [done|]. cbn [to_hex from_hex_loop].
  destruct (hex_byte_roundtrip b) as (-> & -> & Hb). by rewrite IH, Hb.
Qed.

Lemma from_hex_to_hex data : from_hex (to_hex data) = Some data.
Proof.
  unfold from_hex. rewrite length_to_hex, Nat.even_mul. simpl. apply from_hex_loop_to_hex.
Qed.

Lemma to_hex_inj a b : to_hex a = to_hex b → a = b.
Proof.
  intros E. assert (Some a = Some b) as [= ->]; [|done].
  by rewrite <- (from_hex_to_hex a), E, from_hex_to_hex.
Qed.

(** Lower-casing of the digits [A..F], the only letters [from_hex] folds. *)
Definition hex_lower (c : byte) : byte :=
  if (65 <=? byte.unsigned c) && (byte.unsigned c <=? 70)
  then byte.of_Z (byte.unsigned c + 32) else c.

Definition is_hex_digit (c : byte) : bool := bool_decide (is_Some (hex_digit_value c)).

Lemma hex_digit_value_spec c v :
  hex_digit_value c = Some v → 0 <= v < 16 ∧ hex_char v = hex_lower c.
Proof. destruct c; vm_compute; intros [= <-]; repeat split; congruence. Qed.

Lemma nibbles_roundtrip h l :
  0 <= h < 16 → 0 <= l < 16 →
  let b := byte.unsigned (byte.of_Z (Z.lor (Z.shiftl h 4) l)) in
  Z.land (Z.shiftr b 4) 15 = h ∧ Z.land b 15 = l.
Proof.
  intros Hh Hl.
  assert (forallb (λ h, forallb (λ l,
    let b := byte.unsigned (byte.of_Z (Z.lor (Z.shiftl h 4) l)) in
    (Z.land (Z.shiftr b 4) 15 =? h) && (Z.land b 15 =? l)) (seqZ 0 16)) (seqZ 0 16) = true)
    as E by by vm_compute.
  rewrite forallb_forall in E. setoid_rewrite forallb_forall in E.
  assert (In h (seqZ 0 16) ∧ In l (seqZ 0 16)) as [Ih Il].
  { by rewrite <- !list_elem_of_In, !elem_of_seqZ. }
  specialize (E h Ih l Il). simpl in *. by apply andb_true_iff in E as [->%Z.eqb_eq ->%Z.eqb_eq].
Qed.

Lemma from_hex_loop_sound hex data :
  Nat.even (length hex) = true → from_hex_loop hex = Some data →
  to_hex data = hex_lower <$> hex.
Proof.
  revert data. induction hex as [|c|c1 c2 hex IH] using list_two_ind; intros data He E.
  - by injection E as <-.
  - done.
  - cbn [from_hex_loop] in E.
    destruct (hex_digit_value c1) as [h|] eqn:E1; [|done].
    destruct (hex_digit_value c2) as [l|] eqn:E2; [|done].
    destruct (from_hex_loop hex) as [r|]; [|done]. injection E as <-.
    apply hex_digit_value_spec in E1 as [Hh Eh], E2 as [Hl El].
    destruct (nibbles_roundtrip h l Hh Hl) as [Rh Rl].
    cbn [to_hex fmap list_fmap]. rewrite Rh, Rl, Eh, El, (IH r); done.
Qed.

Lemma from_hex_loop_total hex :
  forallb is_hex_digit hex = true → is_Some (from_hex_loop hex).
Proof.
  induction hex as [|c|c1 c2 hex IH] using list_two_ind; intros E; [by eexists..|].
  cbn [forallb] in E. apply andb_true_iff in E as [[? H1]%bool_decide_eq_true E].
  apply andb_true_iff in E as [[? H2]%bool_decide_eq_true E].
  destruct (IH E) as [r Hr]. cbn [from_hex_loop]. rewrite H1, H2, Hr. by eexists.
Qed.

Lemma from_hex_loop_digits hex data :
  Nat.even (length hex) = true → from_hex_loop hex = Some data →
  forallb is_hex_digit hex = true.
Proof.
  revert data. induction hex as [|c|c1 c2 hex IH] using list_two_ind; intros data He E; [done..|].
  cbn [from_hex_loop forallb] in *. unfold is_hex_digit at 1 2.
  destruct (hex_digit_value c1); [|done]. destruct (hex_digit_value c2); [|done].
  destruct (from_hex_loop hex); [|done]. rewrite (IH _ He eq_refl).
  by rewrite !bool_decide_eq_true_2 by by eexists.
Qed.

(** [from_hex] accepts exactly the strings of even length made
    of hex digits, and what it returns prints back as the input with its letters in
    lower case; in particular [from_hex] and [to_hex] are inverse on canonical hex. *)
Theorem from_hex_spec hex data :
  from_hex hex = Some data ↔
  Nat.even (length hex) = true ∧ forallb is_hex_digit hex = true ∧
  to_hex data = hex_lower <$> hex.
Proof.
  unfold from_hex. destruct (Nat.even (length hex)) eqn:He; simpl; [|naive_solver].
  split.
  - intros E. split_and!; [done|by eapply from_hex_loop_digits|by apply from_hex_loop_sound].
  - intros (_ & Hd & E). destruct (from_hex_loop_total hex Hd) as [r Hr].
    rewrite Hr. f_equal. apply to_hex_inj. rewrite E. by apply from_hex_loop_sound.
Qed.

Section address.
Context `{CryptoLaws}.

Lemma double_sha_256_length d : length (double_sha_256 d) = 32%nat.
Proof. apply sha256_length. Qed.

Lemma derive_address_length pk : length (derive_address pk) = 64%nat.
Proof. unfold derive_address. by rewrite length_to_hex, double_sha_256_length. Qed.
End address.

#[export] Hint Resolve double_sha_256_length : forge.
