(* ===== verification/Demo.v ===== *)
(** * A concrete instance of the parameters

    The theorems hold for every [Crypto] satisfying [CryptoLaws]. This instance, a
    polynomial digest and a keyed-digest signature, shows the laws can hold and lets
    the witnesses evaluate the model (each witness section declares it as an instance
    locally; the definitions and theorems never see it). It is not SHA-256 or ECDSA. *)

From S2P Require Import Prelude Crypto.

Definition demo_mask : Z := Eval vm_compute in 2 ^ 40 - 1.

Definition demo_digest (d : bytes) : HashBytes :=
  let s := foldl (λ acc b, Z.land (acc * 33 + byte.unsigned b + 1) demo_mask) 5381 d in
  le 16 s ++ le 16 (s * 1000003).

Definition demo_sign (priv m : bytes) : bytes := demo_digest (priv ++ m).

(** Uncompressed encodings start with the octet 4. *)
Definition demo_oct2point (pk : bytes) : option bytes :=
  match pk with Byte.x04 :: p => Some p | _ => None end.

Definition demo_crypto : Crypto := {|
  sha256 := demo_digest;
  bignum := bytes;
  ec_point := bytes;
  BN_bin2bn := λ b, b;
  BN_bn2bin := λ n, n;
  EC_POINT_mul := λ n, n;
  EC_POINT_oct2point := demo_oct2point;
  EC_POINT_point2oct := λ p, Byte.x04 :: p;
  EC_KEY_set_private_key := λ _, true;
  EC_KEY_check_key := λ n p, bool_decide (n = p);
  EVP_PKEY_keygen := λ e, (le 8 e, le 8 e);
  EVP_DigestSign := demo_sign;
  EVP_DigestVerify := λ pt m s, bool_decide (s = demo_sign pt m)
|}.

#[local] Existing Instance demo_crypto.

Lemma demo_crypto_laws : CryptoLaws.
Proof.
  split. intros d. unfold sha256, demo_crypto, demo_digest.
  by rewrite length_app, !length_le_split.
Qed.

Definition demo_key (name : string) : KeyPair :=
  {| private_key := lit name; public_key := Byte.x04 :: lit name |}.

Lemma demo_signature_laws : SignatureLaws.
Proof.
  split; [done|done| |].
  - intros e. split_and!; [done|done|]. by apply bool_decide_eq_true.
  - intros n p m ->%bool_decide_eq_true. by apply bool_decide_eq_true.
Qed.

Definition demo_address (name : string) : str := derive_address (public_key (demo_key name)).
