(* ===== verification/Transaction.v ===== *)
(** * Transactions (src/core/Transaction.cpp)

    The record, its two serializations, the bounds-checked [deserialize], the
    identifying hash, the partial [operator==] and [has_valid_signature]. *)

From S2P Require Import Prelude Codec Crypto Demo.

Definition kCoinbaseSender : str := lit "COINBASE".

Record Transaction := mkTransaction {
  sender_ : str;
  recipient_ : str;
  sender_public_key_ : bytes;
  amount_ : Z;
  signature_ : bytes;
  fee_ : Z;
  nonce_ : Z
}.

#[global] Instance Transaction_eq_decision : EqDecision Transaction.
Proof. solve_decision. Defined.

Module Tx.

(** The constructor: no signature yet. *)
Definition make (sender recipient : str) (amount : Z) (sender_public_key : bytes)
    (fee nonce : Z) : Transaction :=
  {| sender_ := sender; recipient_ := recipient;
     sender_public_key_ := sender_public_key; amount_ := amount; signature_ := [];
     fee_ := fee; nonce_ := nonce |}.

Definition with_signature (tx : Transaction) (s : bytes) : Transaction :=
  {| sender_ := sender_ tx; recipient_ := recipient_ tx;
     sender_public_key_ := sender_public_key_ tx; amount_ := amount_ tx;
     signature_ := s; fee_ := fee_ tx; nonce_ := nonce_ tx |}.

Definition is_coinbase (tx : Transaction) : bool := bool_decide (sender_ tx = kCoinbaseSender).

Definition serialize_for_signing (tx : Transaction) : bytes :=
  le 8 (amount_ tx) ++
  put_lbytes (sender_ tx) ++
  put_lbytes (recipient_ tx) ++
  put_lbytes (sender_public_key_ tx) ++
  le 8 (fee_ tx) ++
  le 8 (nonce_ tx).

Definition serialize (tx : Transaction) : bytes :=
  serialize_for_signing tx ++ put_lbytes (signature_ tx).

Definition parse : parser Transaction :=
  amount ← read_le 8;
  sender ← read_lbytes;
  recipient ← read_lbytes;
  sender_public_key ← read_lbytes;
  fee ← read_le 8;
  nonce ← read_le 8;
  signature ← read_lbytes;
  mret (with_signature (make sender recipient amount sender_public_key fee nonce) signature).

Definition deserialize (payload : bytes) : option Transaction := run_exact parse payload.

Definition compute_hash `{Crypto} (tx : Transaction) : HashBytes :=
  double_sha_256 (serialize_for_signing tx).

(** [operator==]: every field but the public key. *)
Definition eqb (a b : Transaction) : bool :=
  bool_decide (sender_ a = sender_ b) && bool_decide (recipient_ a = recipient_ b) &&
  (amount_ a =? amount_ b) && bool_decide (signature_ a = signature_ b) &&
  (fee_ a =? fee_ b) && (nonce_ a =? nonce_ b).

Definition has_valid_signature `{Crypto} (tx : Transaction) : result bool :=
  if is_coinbase tx then Ok false
  else if negb (bool_decide (derive_address (sender_public_key_ tx) = sender_ tx)) then Ok false
  else verify (serialize_for_signing tx) (signature_ tx) (sender_public_key_ tx).

(** ** Well-formedness: the C++ types' ranges, and lengths that fit their prefix *)
Definition wf (tx : Transaction) : Prop :=
  in_u 64 (amount_ tx) ∧ in_u 64 (fee_ tx) ∧ in_u 64 (nonce_ tx) ∧
  in_u 32 (sz (sender_ tx)) ∧ in_u 32 (sz (recipient_ tx)) ∧
  in_u 32 (sz (sender_public_key_ tx)) ∧ in_u 32 (sz (signature_ tx)).

#[global] Instance wf_dec tx : Decision (wf tx).
Proof. unfold wf. apply _. Defined.

(** ** Round trips *)

Lemma parse_consumes tx : wf tx → consumes parse (serialize tx) tx.
Proof.
  intros (?&?&?&?&?&?&?). unfold parse, serialize, serialize_for_signing.
  rewrite <- !app_assoc. do 7 (consume_field; [done|]). destruct tx; apply consumes_ret.
Qed.

Lemma parse_produces : produces parse (λ bs tx, bs = serialize tx ∧ wf tx).
Proof.
  unfold parse. do 7 produce_field. apply produces_ret. split.
  - unfold serialize, serialize_for_signing, with_signature, make.
    cbn [sender_ recipient_ sender_public_key_ amount_ signature_ fee_ nonce_]. by rewrite app_nil_r, <- !app_assoc.
  - by unfold wf.
Qed.

#[global] Program Instance codec : Codec Transaction :=
  {| encode := serialize; decode := deserialize; wire_wf := wf |}.
Next Obligation. intros tx ?. by apply run_exact_consumes, parse_consumes. Qed.
Next Obligation.
  intros p tx E. by destruct (run_exact_produces _ _ _ _ parse_produces E) as [-> ?].
Qed.

(** The signing serialization determines every signed field. *)
Lemma serialize_for_signing_inj a b :
  wf a → wf b → serialize_for_signing a = serialize_for_signing b →
  b = with_signature a (signature_ b).
Proof.
  intros Ha Hb E.
  assert (with_signature a [] = with_signature b []) as E'.
  { apply (encode_inj (A := Transaction)); [| |].
    - destruct Ha as (?&?&?&?&?&?&?). simpl. unfold wf; simpl. split_and!; try done.
    - destruct Hb as (?&?&?&?&?&?&?). simpl. unfold wf; simpl. split_and!; try done.
    - simpl. unfold serialize. f_equal. by destruct a, b. }
  destruct a, b. unfold with_signature in *. simpl in *. congruence.
Qed.

Lemma is_coinbase_spec tx : is_coinbase tx = true ↔ sender_ tx = kCoinbaseSender.
Proof. apply bool_decide_eq_true. Qed.

Lemma is_coinbase_false tx : is_coinbase tx = false ↔ sender_ tx ≠ kCoinbaseSender.
Proof. apply bool_decide_eq_false. Qed.

(** ** Signatures *)

Section signatures.
Context `{Crypto}.

(** The three early exits of [has_valid_signature] and its call to [verify]. *)
Lemma has_valid_signature_true tx :
  has_valid_signature tx = Ok true ↔
  sender_ tx ≠ kCoinbaseSender ∧ derive_address (sender_public_key_ tx) = sender_ tx ∧
  ∃ pt, EC_POINT_oct2point (sender_public_key_ tx) = Some pt ∧
        EVP_DigestVerify pt (serialize_for_signing tx) (signature_ tx) = true.
Proof.
  unfold has_valid_signature, is_coinbase, verify.
  repeat case_bool_decide; simpl; try (split; [done|naive_solver]).
  destruct (EC_POINT_oct2point _) as [pt|]; [|split; [done|naive_solver]].
  split; [intros [=]; eauto|intros (_ & _ & ? & [= ->] & ->); done].
Qed.

(** The identifier does not cover the signature. *)
Lemma compute_hash_with_signature tx s : compute_hash (with_signature tx s) = compute_hash tx.
Proof. done. Qed.

Lemma compute_hash_eq a b :
  serialize_for_signing a = serialize_for_signing b → compute_hash a = compute_hash b.
Proof. unfold compute_hash. by intros ->. Qed.
End signatures.

Section laws.
Context `{CryptoLaws}.

Lemma compute_hash_wf tx : hash_wf (compute_hash tx).
Proof. apply double_sha_256_length. Qed.

(** No key's address is the coinbase sender: 64 characters are not 8. *)
Lemma derive_address_not_coinbase pk : derive_address pk ≠ kCoinbaseSender.
Proof.
  intros E. pose proof (derive_address_length pk) as L. rewrite E in L. by vm_compute in L.
Qed.
End laws.

(** ** Properties *)

(** C23. The transaction wire format is exact: a payload decodes to [tx] if and only if
    [tx] is within the ranges the format can carry and the payload is its
    serialization. Decoding inverts encoding, and no two payloads decode to the same
    transaction: truncation, trailing bytes and bad length prefixes are all refused. *)
Theorem transaction_codec_exact p tx :
  deserialize p = Some tx ↔ wf tx ∧ serialize tx = p.
Proof.
  split.
  - intros E. by destruct (@encode_decode _ codec p tx E).
  - intros [Hw <-]. by apply (@decode_encode _ codec).
Qed.

Lemma generated_key_tx `{CryptoLaws} `{!SignatureLaws} entropy recipient amount fee nonce :
  let k := generate_keypair entropy in
  let tx := make (derive_address (public_key k)) recipient amount (public_key k) fee nonce in
  ∃ s, sign (serialize_for_signing tx) (private_key k) = Ok s ∧
       has_valid_signature (with_signature tx s) = Ok true ∧
       compute_hash (with_signature tx s) = compute_hash tx.
Proof.
  intros k tx.
  destruct (generated_key_signs entropy (serialize_for_signing tx)) as (pt & s & Hpt & Hs & Hv).
  exists s. split_and!; [done| |done].
  apply has_valid_signature_true. split_and!; [apply derive_address_not_coinbase|done|].
  by exists pt.
Qed.

(** A wallet's payment is valid: for every key pair [generate_keypair] produces,
    signing a transaction whose sender is the key's own address succeeds, the signed
    transaction passes [has_valid_signature], and signing does not change its
    identifier. *)
Theorem signed_transaction_valid `{CryptoLaws} `{!SignatureLaws} entropy recipient amount fee nonce :
  let k := generate_keypair entropy in
  let tx := make (derive_address (public_key k)) recipient amount (public_key k) fee nonce in
  ∃ s, sign (serialize_for_signing tx) (private_key k) = Ok s ∧
       has_valid_signature (with_signature tx s) = Ok true ∧
       compute_hash (with_signature tx s) = compute_hash tx.
Proof. apply generated_key_tx. Qed.

Lemma has_valid_signature_Throw `{CryptoLaws} tx e :
  has_valid_signature tx = Throw e ↔
  e = RuntimeError ∧ derive_address (sender_public_key_ tx) = sender_ tx ∧
  EC_POINT_oct2point (sender_public_key_ tx) = None.
Proof.
  unfold has_valid_signature, is_coinbase, verify. case_bool_decide as Hc.
  { split; [done|]. rewrite Hc. intros (_ & E & _). by apply derive_address_not_coinbase in E. }
  case_bool_decide; simpl; [|naive_solver]. case_match; naive_solver.
Qed.

(** A transaction that claims the key [pk] and nothing else. *)
Definition claiming `{Crypto} (pk : bytes) : Transaction := make (derive_address pk) [] 0 pk 0 0.

Lemma malformed_key_tx `{CryptoLaws} pk :
  EC_POINT_oct2point pk = None → in_u 32 (sz pk) →
  deserialize (serialize (claiming pk)) = Some (claiming pk) ∧
  has_valid_signature (claiming pk) = Throw RuntimeError.
Proof.
  intros Hpk Hsz. split; [|by apply has_valid_signature_Throw].
  apply (@decode_encode _ codec). simpl. unfold wf, sz; simpl.
  rewrite derive_address_length. split_and!; done.
Qed.

(** When [has_valid_signature] throws: exactly when the sender is the address of a
    public key that is not the encoding of a curve point. Any such byte string gives a
    well-formed transaction that passes the wire format and makes the check throw. *)
Theorem has_valid_signature_throws `{CryptoLaws} pk :
  (∀ tx e, has_valid_signature tx = Throw e ↔
     e = RuntimeError ∧ derive_address (sender_public_key_ tx) = sender_ tx ∧
     EC_POINT_oct2point (sender_public_key_ tx) = None) ∧
  (EC_POINT_oct2point pk = None → in_u 32 (sz pk) →
   ∃ tx, deserialize (serialize tx) = Some tx ∧ has_valid_signature tx = Throw RuntimeError).
Proof. split; [apply has_valid_signature_Throw|]. intros. eexists. by apply malformed_key_tx. Qed.
End Tx.

(** ** Concrete transactions, for the witnesses *)
Section demo.
#[local] Existing Instance demo_crypto.

(** A signed payment between two named accounts. *)
Definition demo_pay (from to : string) (amount fee nonce : Z) : Transaction :=
  let tx := Tx.make (demo_address from) (demo_address to) amount
              (public_key (demo_key from)) fee nonce in
  Tx.with_signature tx (demo_sign (private_key (demo_key from)) (Tx.serialize_for_signing tx)).

Definition demo_coinbase (to : string) (amount : Z) : Transaction :=
  Tx.make kCoinbaseSender (demo_address to) amount [] 0 0.

Lemma signed_transaction_valid_witness :
  let k := generate_keypair 7 in
  let tx := Tx.make (derive_address (public_key k)) (demo_address "bob") 5 (public_key k) 1 0 in
  ∃ s, sign (Tx.serialize_for_signing tx) (private_key k) = Ok s ∧
       Tx.has_valid_signature (Tx.with_signature tx s) = Ok true ∧
       Tx.compute_hash (Tx.with_signature tx s) = Tx.compute_hash tx.
Proof.
  apply (Tx.signed_transaction_valid (H0 := demo_crypto_laws)
           (H1 := demo_signature_laws) 7).
Defined.

Lemma has_valid_signature_throws_witness :
  ∃ tx, Tx.deserialize (Tx.serialize tx) = Some tx ∧
        Tx.has_valid_signature tx = Throw RuntimeError.
Proof.
  apply (Tx.has_valid_signature_throws (H0 := demo_crypto_laws) (lit "junk")); [done|].
  by vm_compute.
Defined.
End demo.
