(* ===== verification/Block.v ===== *)
(** * Blocks (src/core/Block.cpp)

    The block record, its constructor, wire format, hash and work. *)

From S2P Require Import Prelude Codec Crypto Transaction.

Record Block := mkBlock {
  version_ : Z;
  prev_hash_ : HashBytes;
  merkle_root_ : HashBytes;
  timestamp_ : Z;
  difficulty_ : Z;
  block_nonce_ : Z;
  cumulative_work_ : Z;
  transactions_ : list Transaction;
  hash_ : HashBytes
}.

#[global] Instance Block_eq_decision : EqDecision Block.
Proof. solve_decision. Defined.

(** What [Block::deserialize] has read when it reaches the end of the payload. *)
Record BlockFields := {
  f_version : Z;
  f_prev_hash : HashBytes;
  f_merkle_root : HashBytes;
  f_timestamp : Z;
  f_difficulty : Z;
  f_nonce : Z;
  f_transactions : list Transaction
}.

Module Blk.

Definition set_difficulty (d : Z) (b : Block) : Block :=
  mkBlock (version_ b) (prev_hash_ b) (merkle_root_ b) (timestamp_ b) d
    (block_nonce_ b) (cumulative_work_ b) (transactions_ b) (hash_ b).
Definition set_nonce (n : Z) (b : Block) : Block :=
  mkBlock (version_ b) (prev_hash_ b) (merkle_root_ b) (timestamp_ b) (difficulty_ b)
    n (cumulative_work_ b) (transactions_ b) (hash_ b).
Definition set_timestamp (t : Z) (b : Block) : Block :=
  mkBlock (version_ b) (prev_hash_ b) (merkle_root_ b) t (difficulty_ b)
    (block_nonce_ b) (cumulative_work_ b) (transactions_ b) (hash_ b).
Definition set_merkle_root (h : HashBytes) (b : Block) : Block :=
  mkBlock (version_ b) (prev_hash_ b) h (timestamp_ b) (difficulty_ b)
    (block_nonce_ b) (cumulative_work_ b) (transactions_ b) (hash_ b).
Definition set_cumulative_work (w : Z) (b : Block) : Block :=
  mkBlock (version_ b) (prev_hash_ b) (merkle_root_ b) (timestamp_ b) (difficulty_ b)
    (block_nonce_ b) w (transactions_ b) (hash_ b).
Definition set_hash (h : HashBytes) (b : Block) : Block :=
  mkBlock (version_ b) (prev_hash_ b) (merkle_root_ b) (timestamp_ b) (difficulty_ b)
    (block_nonce_ b) (cumulative_work_ b) (transactions_ b) h.

Definition put_transactions (txs : list Transaction) : bytes :=
  txs ≫= λ tx, put_lbytes (Tx.serialize tx).

Definition serialize (b : Block) : bytes :=
  le 4 (version_ b) ++
  prev_hash_ b ++
  merkle_root_ b ++
  le 8 (timestamp_ b) ++
  le 4 (difficulty_ b) ++
  le 4 (block_nonce_ b) ++
  le 4 (u32 (sz (transactions_ b))) ++
  put_transactions (transactions_ b).

Definition compute_hash `{Crypto} (b : Block) : HashBytes := double_sha_256 (serialize b).

(** The constructor: the "Merkle root" hashes the concatenated transactions. *)
Definition make `{Crypto} (version : Z) (prev_hash : HashBytes) (timestamp : Z)
    (transactions : list Transaction) : Block :=
  let tx_out := transactions ≫= Tx.serialize in
  let b := mkBlock version prev_hash (double_sha_256 tx_out) timestamp 0 0 0 transactions [] in
  set_hash (compute_hash b) b.

(** One turn of the transaction loop. *)
Definition parse_tx : parser Transaction :=
  tx_payload ← read_lbytes; read_opt (Tx.deserialize tx_payload).

Definition parse : parser BlockFields :=
  version ← read_le 4;
  prev_hash ← read_bytes 32;
  merkle_root ← read_bytes 32;
  timestamp ← read_le 8;
  difficulty ← read_le 4;
  nonce ← read_le 4;
  tx_count ← read_le 4;
  transactions ← read_times parse_tx (Z.to_nat tx_count);
  mret {| f_version := version; f_prev_hash := prev_hash; f_merkle_root := merkle_root;
          f_timestamp := timestamp; f_difficulty := difficulty; f_nonce := nonce;
          f_transactions := transactions |}.

(** The last lines of [deserialize]: the constructor runs, then the declared fields
    overwrite its defaults and the hash is recomputed. *)
Definition build `{Crypto} (f : BlockFields) : Block :=
  let block := make (f_version f) (f_prev_hash f) (f_timestamp f) (f_transactions f) in
  let block := set_difficulty (f_difficulty f) block in
  let block := set_nonce (f_nonce f) block in
  let block := set_merkle_root (f_merkle_root f) block in
  set_hash (compute_hash block) block.

Definition deserialize `{Crypto} (payload : bytes) : option Block :=
  match run_exact parse payload with
  | None => None
  | Some f => Some (build f)
  end.

Definition block_work (b : Block) : Z :=
  if 64 <=? difficulty_ b then UINT64_MAX else Z.shiftl 1 (difficulty_ b).

(** ** Well-formedness: the fields' C++ ranges, and counts that fit their prefix *)
Definition wf (b : Block) : Prop :=
  in_u 32 (version_ b) ∧ hash_wf (prev_hash_ b) ∧ hash_wf (merkle_root_ b) ∧
  in_u 64 (timestamp_ b) ∧ in_u 32 (difficulty_ b) ∧ in_u 32 (block_nonce_ b) ∧
  in_u 32 (sz (transactions_ b)) ∧ Forall framed_wf (transactions_ b).

(** What a block looks like on arrival: the hash is recomputed, the cumulative work
    is not transmitted. *)
Definition on_arrival `{Crypto} (b : Block) : Block :=
  set_hash (compute_hash b) (set_cumulative_work 0 b).

(** ** Round trips *)

Definition fields (b : Block) : BlockFields :=
  {| f_version := version_ b; f_prev_hash := prev_hash_ b; f_merkle_root := merkle_root_ b;
     f_timestamp := timestamp_ b; f_difficulty := difficulty_ b; f_nonce := block_nonce_ b;
     f_transactions := transactions_ b |}.

Lemma read_hash_consumes h : hash_wf h → consumes (read_bytes 32) h h.
Proof.
  intros Hh. replace 32 with (sz h) by (unfold sz; by rewrite Hh). apply consumes_bytes.
Qed.

Lemma read_hash_produces : produces (read_bytes 32) (λ bs h, bs = h ∧ hash_wf h).
Proof.
  eapply produces_weaken; [by apply produces_bytes|]. intros bs h [-> E]. split; [done|].
  unfold hash_wf. solve_width.
Qed.

Lemma parse_tx_framed : parse_tx = read_framed.
Proof. reflexivity. Qed.

Lemma put_transactions_framed txs : put_transactions txs = txs ≫= put_framed.
Proof. reflexivity. Qed.

Lemma block_parse_consumes b : wf b → consumes parse (serialize b) (fields b).
Proof.
  intros (?&?&?&?&?&?&Hn&?). unfold parse, serialize.
  consume_field; [done|].
  do 2 (eapply consumes_bind; [by apply read_hash_consumes|]).
  do 3 (consume_field; [done|]).
  consume_field; [apply wrap_range; done|].
  rewrite wrap_small by done. unfold sz. rewrite Nat2Z.id.
  apply consumes_bind_nil with (transactions_ b); [|apply consumes_ret].
  rewrite put_transactions_framed, parse_tx_framed. apply consumes_times.
  eapply Forall_impl; [eassumption|]. intros tx Htx. by apply consumes_framed.
Qed.

Lemma block_parse_produces :
  produces parse (λ bs f, ∀ b, fields b = f → bs = serialize b ∧ wf b).
Proof.
  unfold parse. produce_field.
  do 2 (eapply produces_bind; [apply read_hash_produces|]; intros ? ? [-> ?]).
  do 4 produce_field.
  eapply produces_bind.
  { rewrite parse_tx_framed. apply produces_times, produces_framed. }
  intros b7 txs (-> & Hl & Hw). apply produces_ret.
  intros b Hb. injection Hb as <- <- <- <- <- <- <-.
  assert (sz (transactions_ b) = x3) as Hsz by solve_width. split.
  - unfold serialize. rewrite app_nil_r, Hsz, wrap_small; done.
  - unfold wf. rewrite Hsz. done.
Qed.

(** The serialization determines every transmitted field. *)
Lemma serialize_inj a b : wf a → wf b → serialize a = serialize b → fields a = fields b.
Proof.
  intros Ha Hb E. pose proof (run_exact_consumes _ _ _ (block_parse_consumes a Ha)) as Pa.
  rewrite E, (run_exact_consumes _ _ _ (block_parse_consumes b Hb)) in Pa. congruence.
Qed.

Section hashing.
Context `{Crypto}.

Lemma build_fields b : build (fields b) = on_arrival b.
Proof. reflexivity. Qed.

Lemma deserialize_serialize b : wf b → deserialize (serialize b) = Some (on_arrival b).
Proof.
  intros Hb. unfold deserialize. by rewrite (run_exact_consumes _ _ _ (block_parse_consumes b Hb)).
Qed.

Lemma serialize_deserialize p b :
  deserialize p = Some b → serialize b = p ∧ wf b ∧ on_arrival b = b.
Proof.
  unfold deserialize. destruct (run_exact parse p) as [f|] eqn:E; [|done].
  pose proof (run_exact_produces _ _ _ _ block_parse_produces E) as Hf.
  intros [= <-]. by destruct (Hf (build f)) as [-> ?]; [destruct f|].
Qed.

(** The hash covers neither itself nor the cumulative work. *)
Lemma compute_hash_set_hash h b : compute_hash (set_hash h b) = compute_hash b.
Proof. done. Qed.

Lemma compute_hash_set_cumulative_work w b :
  compute_hash (set_cumulative_work w b) = compute_hash b.
Proof. done. Qed.
End hashing.

Lemma make_wf `{CryptoLaws} v p t txs :
  in_u 32 v → hash_wf p → in_u 64 t → in_u 32 (sz txs) → Forall framed_wf txs →
  wf (make v p t txs).
Proof. intros. unfold wf. simpl. split_and!; try done. apply double_sha_256_length. Qed.

Lemma block_hash_wf `{CryptoLaws} b : hash_wf (compute_hash b).
Proof. apply double_sha_256_length. Qed.

Lemma block_work_spec b :
  0 <= difficulty_ b →
  block_work b = if 64 <=? difficulty_ b then 2 ^ 64 - 1 else 2 ^ difficulty_ b.
Proof.
  intros ?. unfold block_work. case_bool; [done|]. by rewrite Z.shiftl_1_l.
Qed.

Lemma block_work_range b : 0 <= difficulty_ b → 1 <= block_work b <= UINT64_MAX.
Proof.
  intros ?. rewrite block_work_spec by done. unfold UINT64_MAX. case_bool; [lia|].
  split; [apply (Z.pow_le_mono_r 2 0); lia|].
  assert (2 ^ difficulty_ b <= 2 ^ 63) by (apply Z.pow_le_mono_r; lia). lia.
Qed.

(** ** Properties *)

(** C22. The block wire format is exact: a payload decodes to [b] if and only if it is
    the serialization of [b], every field is in range, the stored hash is the hash of the
    serialized fields and the cumulative work is still 0. A peer can therefore choose
    neither the hash nor the cumulative work of the block it sends. *)
Theorem block_codec_exact `{Crypto} p b :
  deserialize p = Some b ↔
  wf b ∧ serialize b = p ∧ hash_ b = compute_hash b ∧ cumulative_work_ b = 0.
Proof.
  split.
  - intros (E & Hw & Ha)%serialize_deserialize. split_and!; [done..| |]; by rewrite <- Ha.
  - intros (Hw & <- & Hh & Hc). rewrite deserialize_serialize by done. f_equal.
    unfold on_arrival. destruct b; unfold set_hash, set_cumulative_work; simpl in *.
    subst cumulative_work_0. by rewrite Hh at 2.
Qed.
End Blk.
