(* ===== verification/Ledger.v ===== *)
(** * The account ledger (src/core/Ledger.cpp)

    Balances and nonces in two hash maps; [apply_transaction] and
    [reverse_transaction] with the code's 64-bit arithmetic, which wraps. *)

From S2P Require Import Prelude Codec Crypto Transaction.

Record Ledger := mkLedger {
  balances_ : gmap str Z;
  nonces_ : gmap str Z
}.

Module Ldg.

Definition empty : Ledger := mkLedger ∅ ∅.

Definition set_balance (address : str) (amount : Z) (l : Ledger) : Ledger :=
  mkLedger (<[address := amount]> (balances_ l)) (nonces_ l).

Definition set_nonce (address : str) (nonce : Z) (l : Ledger) : Ledger :=
  mkLedger (balances_ l) (<[address := nonce]> (nonces_ l)).

Definition get_balance (address : str) (l : Ledger) : option Z := balances_ l !! address.

Definition contains (address : str) (l : Ledger) : bool :=
  bool_decide (is_Some (balances_ l !! address)).

(** [balances_[address]] read through [operator[]]: a missing key reads as 0. *)
Definition balance (address : str) (l : Ledger) : Z := default 0 (balances_ l !! address).

Definition next_nonce (address : str) (l : Ledger) : Z := default 0 (nonces_ l !! address).

Definition all_balances (l : Ledger) : list (str * Z) := map_to_list (balances_ l).

(** [balances_[tx.recipient_] += tx.amount_], shared by both branches. *)
Definition credit (tx : Transaction) (l : Ledger) : Ledger :=
  set_balance (recipient_ tx) (u64 (balance (recipient_ tx) l + amount_ tx)) l.

Definition debit (tx : Transaction) (l : Ledger) : Ledger :=
  set_nonce (sender_ tx) (u64 (nonce_ tx + 1))
    (set_balance (sender_ tx)
       (u64 (balance (sender_ tx) l - u64 (amount_ tx + fee_ tx))) l).

Definition apply_transaction (tx : Transaction) (l : Ledger) : bool * Ledger :=
  if negb (Tx.is_coinbase tx) then
    if negb (contains (sender_ tx) l) then (false, l)
    else if balance (sender_ tx) l <? u64 (amount_ tx + fee_ tx) then (false, l)
    else if negb (nonce_ tx =? next_nonce (sender_ tx) l) then (false, l)
    else (true, credit tx (debit tx l))
  else (true, credit tx l).

Definition undebit (tx : Transaction) (l : Ledger) : Ledger :=
  set_nonce (sender_ tx) (nonce_ tx)
    (set_balance (sender_ tx)
       (u64 (balance (sender_ tx) l + u64 (amount_ tx + fee_ tx))) l).

Definition uncredit (tx : Transaction) (l : Ledger) : Ledger :=
  set_balance (recipient_ tx) (u64 (balance (recipient_ tx) l - amount_ tx)) l.

Definition reverse_transaction (tx : Transaction) (l : Ledger) : bool * Ledger :=
  if negb (contains (recipient_ tx) l) then (false, l)
  else if balance (recipient_ tx) l <? amount_ tx then (false, l)
  else if negb (Tx.is_coinbase tx) then
    if negb (next_nonce (sender_ tx) l =? u64 (nonce_ tx + 1)) then (false, l)
    else (true, uncredit tx (undebit tx l))
  else (true, uncredit tx l).

(** ** Well-formedness and observation *)

Definition wf (l : Ledger) : Prop :=
  map_Forall (λ _ v, in_u 64 v) (balances_ l) ∧ map_Forall (λ _ v, in_u 64 v) (nonces_ l).

(** The money in circulation. *)
Definition supply (l : Ledger) : Z := map_fold (λ _ v acc, v + acc) 0 (balances_ l).

(** [l ⪯ l']: the same balances and nonces, [l'] possibly with accounts that hold an
    explicit 0 where [l] has no entry. It is what undoing a transaction restores. *)
Definition refines (l l' : Ledger) : Prop :=
  (∀ a, balance a l' = balance a l) ∧ (∀ a, next_nonce a l' = next_nonce a l) ∧
  (∀ a, is_Some (balances_ l !! a) → is_Some (balances_ l' !! a)).

#[global] Instance equiv_ledger : Equiv Ledger := λ l l',
  (∀ a, balance a l = balance a l') ∧ (∀ a, next_nonce a l = next_nonce a l').

(** The arithmetic of [tx] does not leave 64 bits. *)
Definition no_overflow (tx : Transaction) (l : Ledger) : Prop :=
  in_u 64 (amount_ tx + fee_ tx) ∧ in_u 64 (balance (recipient_ tx) l + amount_ tx).

(** Crediting the recipient, after the debit of a transfer, does not wrap around. *)
Definition fits (tx : Transaction) (l : Ledger) : Prop :=
  in_u 64 (balance (recipient_ tx) (if Tx.is_coinbase tx then l else debit tx l) + amount_ tx).

#[global] Instance fits_dec tx l : Decision (fits tx l).
Proof. unfold fits, in_u. apply _. Defined.

(** ** Lookup lemmas *)

Lemma balance_set_balance a b v l :
  balance a (set_balance b v l) = if decide (b = a) then v else balance a l.
Proof. unfold balance; simpl. rewrite lookup_insert. by case_decide. Qed.

Lemma balance_set_nonce a b v l : balance a (set_nonce b v l) = balance a l.
Proof. done. Qed.

Lemma next_nonce_set_balance a b v l : next_nonce a (set_balance b v l) = next_nonce a l.
Proof. done. Qed.

Lemma next_nonce_set_nonce a b v l :
  next_nonce a (set_nonce b v l) = if decide (b = a) then v else next_nonce a l.
Proof. unfold next_nonce; simpl. rewrite lookup_insert. by case_decide. Qed.

#[global] Hint Rewrite balance_set_balance balance_set_nonce next_nonce_set_balance
  next_nonce_set_nonce : ledger.

Lemma contains_spec a l : contains a l = true ↔ is_Some (balances_ l !! a).
Proof. apply bool_decide_eq_true. Qed.

Lemma is_Some_set_balance a b v l :
  is_Some (balances_ (set_balance b v l) !! a) ↔ a = b ∨ is_Some (balances_ l !! a).
Proof.
  simpl. rewrite lookup_insert. case_decide; subst; split; try (by eauto); naive_solver.
Qed.

Lemma wf_balance a l : wf l → in_u 64 (balance a l).
Proof.
  intros [Hb _]. unfold balance. destruct (balances_ l !! a) as [v|] eqn:E; simpl; [|done].
  by apply (Hb a v).
Qed.

Lemma wf_next_nonce a l : wf l → in_u 64 (next_nonce a l).
Proof.
  intros [_ Hn]. unfold next_nonce. destruct (nonces_ l !! a) as [v|] eqn:E; simpl; [|done].
  by apply (Hn a v).
Qed.

Lemma wf_set_balance a v l : wf l → in_u 64 v → wf (set_balance a v l).
Proof. intros [? ?] ?. split; simpl; [by apply map_Forall_insert_2|done]. Qed.

Lemma wf_set_nonce a v l : wf l → in_u 64 v → wf (set_nonce a v l).
Proof. intros [? ?] ?. split; simpl; [done|by apply map_Forall_insert_2]. Qed.

#[export] Hint Resolve wf_balance wf_next_nonce wf_set_balance wf_set_nonce : forge.

(** Unfold the primitive updates and rewrite every read through them. *)
Ltac ledger_simpl :=
  unfold credit, debit, uncredit, undebit in *; autorewrite with ledger in *.

(** ** The invariant *)

Lemma wf_empty : wf empty.
Proof. split; apply map_Forall_empty. Qed.

Lemma apply_transaction_wf tx l : Tx.wf tx → wf l → wf (apply_transaction tx l).2.
Proof.
  intros _ Hl. unfold apply_transaction, credit, debit. repeat case_match; simpl; auto 10 with forge.
Qed.

Lemma reverse_transaction_wf tx l : Tx.wf tx → wf l → wf (reverse_transaction tx l).2.
Proof.
  intros (? & ? & ? & _) Hl. unfold reverse_transaction, uncredit, undebit.
  repeat case_match; simpl; auto 10 with forge.
Qed.

(** ** Applying *)

(** When a transaction is accepted, and the state it leaves. *)
Lemma apply_transaction_true tx l l' :
  apply_transaction tx l = (true, l') ↔
  (sender_ tx = kCoinbaseSender ∧ l' = credit tx l) ∨
  (sender_ tx ≠ kCoinbaseSender ∧ is_Some (balances_ l !! sender_ tx) ∧
   u64 (amount_ tx + fee_ tx) <= balance (sender_ tx) l ∧
   nonce_ tx = next_nonce (sender_ tx) l ∧ l' = credit tx (debit tx l)).
Proof.
  unfold apply_transaction. rewrite <- contains_spec.
  destruct (Tx.is_coinbase tx) eqn:Ec; simpl.
  { apply Tx.is_coinbase_spec in Ec. split; [intros [= <-]; eauto|naive_solver]. }
  apply Tx.is_coinbase_false in Ec.
  destruct (contains _ _); simpl; [|split; [done|naive_solver]].
  case_bool; [split; [done|intros [[]|(?&?&?&?&?)]; [done|lia]]|].
  case_bool; simpl; [|split; [done|naive_solver]].
  split; [intros [= <-]; eauto 10|naive_solver].
Qed.

(** A refused transaction changes nothing. *)
Lemma apply_transaction_false tx l l' : apply_transaction tx l = (false, l') → l' = l.
Proof. unfold apply_transaction. repeat case_match; naive_solver. Qed.

Lemma reverse_transaction_true tx l l' :
  reverse_transaction tx l = (true, l') ↔
  is_Some (balances_ l !! recipient_ tx) ∧ amount_ tx <= balance (recipient_ tx) l ∧
  ((sender_ tx = kCoinbaseSender ∧ l' = uncredit tx l) ∨
   (sender_ tx ≠ kCoinbaseSender ∧ next_nonce (sender_ tx) l = u64 (nonce_ tx + 1) ∧
    l' = uncredit tx (undebit tx l))).
Proof.
  unfold reverse_transaction. rewrite <- contains_spec.
  destruct (contains _ _); simpl; [|split; [done|naive_solver]].
  case_bool; [split; [done|intros (_&?&_); lia]|].
  destruct (Tx.is_coinbase tx) eqn:Ec; simpl.
  { apply Tx.is_coinbase_spec in Ec. split; [intros [= <-]; eauto 10|naive_solver]. }
  apply Tx.is_coinbase_false in Ec.
  case_bool; simpl; [split; [intros [= <-]; eauto 10|naive_solver]|split; [done|naive_solver]].
Qed.

(** ** The refinement order *)

#[global] Instance refines_preorder : PreOrder refines.
Proof.
  split; [by intros l|]. intros l1 l2 l3 (B1&N1&D1) (B2&N2&D2).
  split_and!; intros a; [by rewrite B2, B1|by rewrite N2, N1|eauto].
Qed.

#[global] Instance equiv_equivalence : Equivalence (≡@{Ledger}).
Proof.
  split.
  - by intros l.
  - intros l l' [B N]. split; intros a; [by rewrite B|by rewrite N].
  - intros l1 l2 l3 [B1 N1] [B2 N2]. split; intros a; [by rewrite B1, B2|by rewrite N1, N2].
Qed.

Lemma refines_equiv l l' : refines l l' → l ≡ l'.
Proof. intros (B&N&_). split; intros a; [by rewrite B|by rewrite N]. Qed.

Lemma refines_set_balance a v l l' :
  refines l l' → refines (set_balance a v l) (set_balance a v l').
Proof.
  intros (B&N&D). split_and!; intros b.
  - autorewrite with ledger. by rewrite B.
  - apply N.
  - rewrite !is_Some_set_balance. naive_solver.
Qed.

Lemma refines_set_nonce a v l l' :
  refines l l' → refines (set_nonce a v l) (set_nonce a v l').
Proof.
  intros (B&N&D). split_and!; intros b.
  - apply B.
  - autorewrite with ledger. by rewrite N.
  - apply D.
Qed.

Lemma refines_credit tx l l' : refines l l' → refines (credit tx l) (credit tx l').
Proof. intros R. unfold credit. rewrite (proj1 R). by apply refines_set_balance. Qed.

Lemma refines_debit tx l l' : refines l l' → refines (debit tx l) (debit tx l').
Proof.
  intros R. unfold debit. rewrite (proj1 R). by apply refines_set_nonce, refines_set_balance.
Qed.

Lemma refines_uncredit tx l l' : refines l l' → refines (uncredit tx l) (uncredit tx l').
Proof. intros R. unfold uncredit. rewrite (proj1 R). by apply refines_set_balance. Qed.

Lemma refines_undebit tx l l' : refines l l' → refines (undebit tx l) (undebit tx l').
Proof.
  intros R. unfold undebit. rewrite (proj1 R). by apply refines_set_nonce, refines_set_balance.
Qed.

#[export] Hint Resolve refines_credit refines_debit refines_uncredit refines_undebit : forge.

(** What succeeds on a ledger succeeds on every refinement of it. *)
Lemma apply_refines tx l1 l2 l1' :
  refines l1 l2 → apply_transaction tx l1 = (true, l1') →
  ∃ l2', apply_transaction tx l2 = (true, l2') ∧ refines l1' l2'.
Proof.
  intros R. rewrite apply_transaction_true. intros [(Hc&->)|(Hc&Hd&Hb&Hn&->)].
  - exists (credit tx l2). rewrite apply_transaction_true. auto with forge.
  - exists (credit tx (debit tx l2)). rewrite apply_transaction_true.
    split; [right|auto with forge]. destruct R as (B&N&D). rewrite B, N. auto.
Qed.

(** The converse, for what moves money: an account emptied by undoing has none to spend. *)
Lemma apply_refines_back tx l1 l2 l2' :
  refines l1 l2 → Tx.is_coinbase tx = true ∨ 0 < u64 (amount_ tx + fee_ tx) →
  apply_transaction tx l2 = (true, l2') →
  ∃ l1', apply_transaction tx l1 = (true, l1') ∧ refines l1' l2'.
Proof.
  intros R Hm. rewrite apply_transaction_true. intros [(Hc&->)|(Hc&Hd&Hb&Hn&->)].
  - exists (credit tx l1). rewrite apply_transaction_true. auto with forge.
  - exists (credit tx (debit tx l1)). rewrite apply_transaction_true.
    split; [right|auto with forge]. destruct R as (B&N&D). rewrite B in Hb. rewrite N in Hn.
    destruct Hm as [?%Tx.is_coinbase_spec|Hm]; [done|]. split_and!; try done.
    unfold balance in Hb. destruct (balances_ l1 !! sender_ tx); [done|]. simpl in Hb. lia.
Qed.

Lemma reverse_refines tx l1 l2 l1' :
  refines l1 l2 → reverse_transaction tx l1 = (true, l1') →
  ∃ l2', reverse_transaction tx l2 = (true, l2') ∧ refines l1' l2'.
Proof.
  intros R. rewrite reverse_transaction_true. intros (Hd&Hb&[(Hc&->)|(Hc&Hn&->)]).
  - exists (uncredit tx l2). rewrite reverse_transaction_true.
    split; [|auto with forge]. destruct R as (B&N&D). rewrite B. auto.
  - exists (uncredit tx (undebit tx l2)). rewrite reverse_transaction_true.
    split; [|auto with forge]. destruct R as (B&N&D). rewrite B, N. auto 10.
Qed.

(** ** Undoing *)

Lemma undo_coinbase tx l :
  wf l → in_u 64 (balance (recipient_ tx) l + amount_ tx) →
  refines l (uncredit tx (credit tx l)).
Proof.
  intros Hl Hra. pose proof (wf_balance (recipient_ tx) l Hl) as Hr. ledger_simpl.
  rewrite decide_True, (wrap_small 64 (_ + amount_ tx)), Z.add_simpl_r, wrap_small by done.
  split_and!; intros a; autorewrite with ledger.
  - case_decide; by subst.
  - done.
  - rewrite !is_Some_set_balance. tauto.
Qed.

Lemma undo_transfer tx l :
  wf l → u64 (amount_ tx + fee_ tx) <= balance (sender_ tx) l → nonce_ tx = next_nonce (sender_ tx) l →
  in_u 64 (balance (recipient_ tx) (debit tx l) + amount_ tx) →
  refines l (uncredit tx (undebit tx (credit tx (debit tx l)))).
Proof.
  intros Hl Hb Hn Hra. pose proof (wf_balance (sender_ tx) l Hl) as Hs.
  pose proof (wf_balance (recipient_ tx) l Hl) as Hr. pose proof (u64_range (amount_ tx + fee_ tx)) as Hc.
  ledger_simpl. set (c := u64 (amount_ tx + fee_ tx)) in *.
  rewrite (wrap_small 64 (balance (sender_ tx) l - c)) in Hra |- * by solve_width.
  rewrite !(decide_True (P := sender_ tx = sender_ tx)) by done.
  split_and!; intros a; autorewrite with ledger.
  - destruct (decide (sender_ tx = recipient_ tx)) as [Hsr|Hsr].
    + rewrite <- Hsr in *. rewrite ?(decide_True (P := sender_ tx = sender_ tx)) by done.
      rewrite ?(decide_True (P := sender_ tx = sender_ tx)) in Hra by done.
      case_decide; [subst a|done]. rewrite (wrap_small 64 (_ - _ + amount_ tx)) by done.
      rewrite wrap_sub_l by done. replace (_ - c + amount_ tx + c - amount_ tx) with (balance (sender_ tx) l) by lia.
      by apply wrap_small.
    + rewrite (decide_False (P := recipient_ tx = sender_ tx)) by congruence.
      rewrite (decide_True (P := recipient_ tx = recipient_ tx)) by done.
      rewrite (wrap_small 64 (balance (recipient_ tx) l + _)) by done.
      rewrite Z.add_simpl_r, Z.sub_add, !wrap_small by done. repeat case_decide; by subst.
  - clear Hra. case_decide; by subst.
  - clear Hra. simpl. rewrite !lookup_insert. repeat case_decide; by eauto.
Qed.

Lemma credit_covers tx l :
  wf l → 0 <= amount_ tx → in_u 64 (balance (recipient_ tx) l + amount_ tx) →
  amount_ tx <= balance (recipient_ tx) (credit tx l).
Proof.
  intros Hl Ha Hra. pose proof (wf_balance (recipient_ tx) l Hl). ledger_simpl.
  rewrite decide_True, wrap_small by done. solve_width.
Qed.

Lemma is_Some_credit tx l : is_Some (balances_ (credit tx l) !! recipient_ tx).
Proof. apply is_Some_set_balance. by left. Qed.

Lemma debit_balance_le tx l a :
  wf l → in_u 64 (amount_ tx + fee_ tx) → amount_ tx + fee_ tx <= balance (sender_ tx) l →
  0 <= balance a (debit tx l) <= balance a l.
Proof.
  intros Hl Haf Hb. pose proof (wf_balance (sender_ tx) l Hl).
  pose proof (wf_balance a l Hl). ledger_simpl. case_decide; [subst a|solve_width].
  rewrite !wrap_small by (rewrite ?wrap_small; solve_width). solve_width.
Qed.

Lemma debit_wf tx l : wf l → wf (debit tx l).
Proof. unfold debit. auto with forge. Qed.

(** Reversing an accepted transaction succeeds and restores every balance and nonce. *)
Lemma reverse_apply tx l l' :
  Tx.wf tx → wf l → fits tx l → apply_transaction tx l = (true, l') →
  ∃ l'', reverse_transaction tx l' = (true, l'') ∧ refines l l''.
Proof.
  intros (Ha&_) Hl Hra Hap. unfold fits in Hra.
  apply apply_transaction_true in Hap as [(Hc&->)|(Hc&Hd&Hb&Hnn&->)].
  - rewrite (proj2 (Tx.is_coinbase_spec tx) Hc) in Hra.
    exists (uncredit tx (credit tx l)). rewrite reverse_transaction_true.
    split_and!; [apply is_Some_credit|apply credit_covers; done || solve_width|by left|].
    by apply undo_coinbase.
  - rewrite (proj2 (Tx.is_coinbase_false tx) Hc) in Hra.
    exists (uncredit tx (undebit tx (credit tx (debit tx l)))). rewrite reverse_transaction_true.
    split_and!; [apply is_Some_credit|apply credit_covers; [by apply debit_wf|solve_width..]| |].
    + right. split_and!; [done| |done]. ledger_simpl. by rewrite decide_True.
    + by apply undo_transfer.
Qed.

(** Within 64 bits nothing wraps. *)
Lemma no_overflow_fits tx l l' :
  Tx.wf tx → wf l → no_overflow tx l → apply_transaction tx l = (true, l') → fits tx l.
Proof.
  intros (Ha&_) Hl [Haf Hra] Hap. unfold fits.
  apply apply_transaction_true in Hap as [(Hc&_)|(Hc&_&Hb&_)].
  - by rewrite (proj2 (Tx.is_coinbase_spec tx) Hc).
  - rewrite (proj2 (Tx.is_coinbase_false tx) Hc). rewrite wrap_small in Hb by done.
    pose proof (debit_balance_le tx l (recipient_ tx) Hl Haf Hb). solve_width.
Qed.

(** What [refines] means for the entries of the ledger. *)
Lemma refines_entries l l' :
  refines l l' ↔ (∀ a, next_nonce a l' = next_nonce a l) ∧
    (∀ a, get_balance a l' = get_balance a l ∨ get_balance a l = None ∧ get_balance a l' = Some 0).
Proof.
  unfold refines, get_balance, balance. split.
  - intros (B&N&D). split; [done|]. intros a. specialize (B a). specialize (D a).
    destruct (balances_ l !! a) as [v|].
    + destruct D as [v' E]; [by eexists|]. left. rewrite E in B |- *. simpl in B. congruence.
    + destruct (balances_ l' !! a) as [v'|]; [|by left]. simpl in B. right. by rewrite B.
  - intros [N B]. split_and!; [|done|]; intros a; destruct (B a) as [->|[-> ->]]; done.
Qed.

(** Accounts are never removed. *)
Lemma is_Some_apply a tx l :
  is_Some (balances_ l !! a) → is_Some (balances_ (apply_transaction tx l).2 !! a).
Proof.
  intros Ha. unfold apply_transaction, credit, debit. repeat case_match; try done; cbn [snd];
    rewrite is_Some_set_balance; right; [|done]. apply is_Some_set_balance. by right.
Qed.

Lemma is_Some_reverse a tx l :
  is_Some (balances_ l !! a) → is_Some (balances_ (reverse_transaction tx l).2 !! a).
Proof.
  intros Ha. unfold reverse_transaction, uncredit, undebit. repeat case_match; try done; cbn [snd];
    rewrite is_Some_set_balance; right; [|done]. apply is_Some_set_balance. by right.
Qed.

(** ** Money supply *)

Lemma supply_insert_None (m : gmap str Z) a v :
  m !! a = None →
  map_fold (λ _ v acc, v + acc) 0 (<[a := v]> m) = v + map_fold (λ _ v acc, v + acc) 0 m.
Proof. intros E. apply map_fold_insert_L; [intros; lia|done]. Qed.

(** An account that holds 0 counts like one that is not there. *)
Lemma supply_ext (m m' : gmap str Z) :
  (∀ a, default 0 (m !! a) = default 0 (m' !! a)) →
  map_fold (λ _ v acc, v + acc) 0 m = map_fold (λ _ v acc, v + acc) 0 m'.
Proof.
  revert m'. induction m as [|a v m Ha IH] using map_ind; intros m' E.
  - induction m' as [|a v m' Ha IH] using map_ind; [done|]. rewrite supply_insert_None by done.
    pose proof (E a) as Ea. rewrite lookup_empty, lookup_insert_eq in Ea. simpl in Ea. subst v.
    rewrite <- IH; [done|]. intros b. rewrite (E b). destruct (decide (a = b)) as [<-|];
      [by rewrite lookup_insert_eq, Ha|by rewrite lookup_insert_ne].
  - rewrite supply_insert_None, (IH (delete a m')) by first
      [done | intros b; destruct (decide (a = b)) as [<-|];
              [by rewrite Ha, lookup_delete_eq|rewrite lookup_delete_ne by done; rewrite <- E;
               by rewrite lookup_insert_ne]].
    pose proof (E a) as Ea. rewrite lookup_insert_eq in Ea. simpl in Ea.
    destruct (m' !! a) as [w|] eqn:Em; simpl in Ea; subst v.
    + rewrite <- (insert_delete_id m' a w Em) at 2. by rewrite supply_insert_None by apply lookup_delete_eq.
    + by rewrite delete_id.
Qed.

Lemma supply_refines l l' : refines l l' → supply l' = supply l.
Proof. intros (B&_). unfold supply. apply supply_ext, B. Qed.

Lemma supply_set_balance a v l : supply (set_balance a v l) = supply l - balance a l + v.
Proof.
  unfold supply, balance; simpl. destruct (balances_ l !! a) as [w|] eqn:E; simpl.
  - rewrite <- (insert_delete_id _ _ _ E) at 2. rewrite <- insert_delete_eq.
    rewrite !supply_insert_None by apply lookup_delete_eq. lia.
  - rewrite supply_insert_None by done. lia.
Qed.

Lemma supply_set_nonce a v l : supply (set_nonce a v l) = supply l.
Proof. done. Qed.

Lemma map_sum_nonneg (m : gmap str Z) :
  map_Forall (λ _ v, in_u 64 v) m → 0 <= map_fold (λ _ v acc, v + acc) 0 m.
Proof.
  apply (map_Forall_ind _ (λ m, 0 <= map_fold (λ _ v acc, v + acc) 0 m)); [done|]. intros m' a v Hm Hv _ IH.
  rewrite supply_insert_None by done. solve_width.
Qed.

Lemma balance_le_supply a l : wf l → balance a l <= supply l.
Proof.
  intros [Hb _]. unfold balance, supply. destruct (balances_ l !! a) as [v|] eqn:E; simpl.
  - rewrite <- (insert_delete_id _ _ _ E), supply_insert_None by apply lookup_delete_eq.
    pose proof (map_sum_nonneg (delete a (balances_ l)) (map_Forall_delete _ _ _ Hb)). lia.
  - by apply map_sum_nonneg.
Qed.

Lemma supply_credit tx l :
  in_u 64 (balance (recipient_ tx) l + amount_ tx) → supply (credit tx l) = supply l + amount_ tx.
Proof. intros ?. unfold credit. rewrite supply_set_balance, wrap_small by done. lia. Qed.

Lemma supply_debit tx l :
  wf l → in_u 64 (amount_ tx + fee_ tx) → amount_ tx + fee_ tx <= balance (sender_ tx) l →
  supply (debit tx l) = supply l - (amount_ tx + fee_ tx).
Proof.
  intros Hl Haf Hb. pose proof (wf_balance (sender_ tx) l Hl). unfold debit.
  rewrite supply_set_nonce, supply_set_balance, !wrap_small by (rewrite ?wrap_small; solve_width).
  lia.
Qed.

(** With the whole supply below 2^64, a transfer cannot overflow its recipient. *)
Lemma transfer_no_overflow tx l :
  Tx.wf tx → wf l → supply l < 2 ^ 64 → in_u 64 (amount_ tx + fee_ tx) →
  amount_ tx + fee_ tx <= balance (sender_ tx) l →
  in_u 64 (balance (recipient_ tx) (debit tx l) + amount_ tx).
Proof.
  intros (Ha&Hf&_) Hl Hs Haf Hb.
  pose proof (balance_le_supply (recipient_ tx) _ (debit_wf tx l Hl)) as Hr.
  rewrite supply_debit in Hr by done.
  pose proof (debit_balance_le tx l (recipient_ tx) Hl Haf Hb). solve_width.
Qed.

(** ** Nonces *)

Lemma next_nonce_credit a tx l : next_nonce a (credit tx l) = next_nonce a l.
Proof. done. Qed.

Lemma next_nonce_debit a tx l :
  next_nonce a (debit tx l) = if decide (sender_ tx = a) then u64 (nonce_ tx + 1) else next_nonce a l.
Proof. unfold debit. by autorewrite with ledger. Qed.

(** One call moves a nonce by at most one, and never back. *)
Lemma apply_next_nonce a tx l :
  next_nonce a l < UINT64_MAX → 0 <= next_nonce a l →
  next_nonce a l <= next_nonce a (apply_transaction tx l).2 <= next_nonce a l + 1.
Proof.
  intros Hlt H0. destruct (apply_transaction tx l) as [[] l'] eqn:E; simpl.
  - apply apply_transaction_true in E as [(_&->)|(_&_&_&Hn&->)]; rewrite next_nonce_credit; [lia|].
    rewrite next_nonce_debit. case_decide as Ha; [subst a|lia].
    rewrite Hn, wrap_small; solve_width.
  - apply apply_transaction_false in E as ->. lia.
Qed.

(** A run of [apply_transaction] calls, whatever they return. *)
Definition apply_all (txs : list Transaction) (l : Ledger) : Ledger :=
  foldl (λ l tx, (apply_transaction tx l).2) l txs.

Lemma apply_all_next_nonce a txs l :
  0 <= next_nonce a l → next_nonce a l + sz txs <= UINT64_MAX →
  next_nonce a l <= next_nonce a (apply_all txs l) <= next_nonce a l + sz txs.
Proof.
  revert l. induction txs as [|tx txs IH]; intros l H0 Hb; unfold sz in *; simpl in *; [lia|].
  pose proof (apply_next_nonce a tx l ltac:(lia) H0).
  specialize (IH (apply_transaction tx l).2 ltac:(lia) ltac:(lia)). unfold apply_all in *; lia.
Qed.

(** ** Properties *)

(** What [apply_transaction] does on every path: it succeeds exactly when the
    transaction is a coinbase, or its sender has an account, can pay the wrapped sum
    [amount + fee] and shows its current nonce; success debits the sender, advances its
    nonce and credits the recipient; a refusal leaves the ledger as it was. *)
Theorem apply_transaction_spec tx l :
  match apply_transaction tx l with
  | (true, l') =>
      if Tx.is_coinbase tx then l' = credit tx l
      else is_Some (get_balance (sender_ tx) l) ∧
           u64 (amount_ tx + fee_ tx) <= balance (sender_ tx) l ∧
           nonce_ tx = next_nonce (sender_ tx) l ∧ l' = credit tx (debit tx l)
  | (false, l') =>
      l' = l ∧ Tx.is_coinbase tx = false ∧
      (get_balance (sender_ tx) l = None ∨
       balance (sender_ tx) l < u64 (amount_ tx + fee_ tx) ∨
       nonce_ tx ≠ next_nonce (sender_ tx) l)
  end.
Proof.
  unfold apply_transaction, contains, get_balance.
  destruct (Tx.is_coinbase tx); simpl; [done|]. case_bool_decide as Hd; simpl.
  - case_bool; [eauto|]. case_bool; simpl; eauto 10.
  - rewrite <- eq_None_not_Some in Hd. eauto.
Qed.

(** Reversing undoes applying: when the credit does not wrap around, reversing a
    transaction the ledger has just accepted succeeds and restores every balance and
    every nonce (an account that did not exist before is left with an explicit 0). *)
Theorem reverse_undoes_apply tx l l' :
  Tx.wf tx → wf l → fits tx l → apply_transaction tx l = (true, l') →
  ∃ l'', reverse_transaction tx l' = (true, l'') ∧ l ≡ l'' ∧
         ∀ a, is_Some (get_balance a l) → get_balance a l'' = get_balance a l.
Proof.
  intros Ht Hl Hno Hap. destruct (reverse_apply tx l l' Ht Hl Hno Hap) as (l'' & E & R).
  exists l''. split_and!; [done|by apply refines_equiv|].
  intros a [v Hv]. destruct R as (B & _ & D). specialize (B a). unfold get_balance, balance in *.
  destruct (D a) as [v' Hv']; [by eexists|]. rewrite Hv, Hv' in *. simpl in B. congruence.
Qed.

(** C8. Money is conserved: while the supply stays below 2^64 and the transaction's own
    sum does not overflow, an accepted transfer burns exactly its fee and an accepted
    coinbase mints exactly its amount, and no account but the sender's and the recipient's
    changes. A refused transaction leaves the ledger exactly as it was, whatever its size. *)
Theorem supply_conserved tx l l' :
  Tx.wf tx → wf l →
  (apply_transaction tx l = (false, l') → l' = l) ∧
  (apply_transaction tx l = (true, l') → in_u 64 (amount_ tx + fee_ tx) →
   supply l + (if Tx.is_coinbase tx then amount_ tx else 0) < 2 ^ 64 →
   supply l' = supply l + (if Tx.is_coinbase tx then amount_ tx else - fee_ tx) ∧
   ∀ a, a ≠ sender_ tx → a ≠ recipient_ tx →
     get_balance a l' = get_balance a l ∧ next_nonce a l' = next_nonce a l).
Proof.
  intros Ht Hl. split; [apply apply_transaction_false|]. intros E Haf Hs. split.
  - apply apply_transaction_true in E as [(Hc&->)|(Hc&_&Hb&_&->)].
    + apply Tx.is_coinbase_spec in Hc. rewrite Hc in *. apply supply_credit.
      pose proof (balance_le_supply (recipient_ tx) l Hl).
      pose proof (wf_balance (recipient_ tx) l Hl). destruct Ht as (?&_). solve_width.
    + apply Tx.is_coinbase_false in Hc. rewrite Hc in *. rewrite wrap_small in Hb by done.
      rewrite supply_credit by (apply transfer_no_overflow; done || lia).
      rewrite supply_debit by done. lia.
  - intros a Has Har. apply apply_transaction_true in E as [(_&->)|(_&_&_&_&->)];
      unfold get_balance, next_nonce, credit, debit; cbn; rewrite ?lookup_insert_ne by done; done.
Qed.

(** C25. Replay protection: once a transfer has been accepted it is refused for as long
    as its sender's 64-bit nonce has not wrapped, whatever transactions are applied in
    between. *)
Theorem replay_rejected tx l l1 txs :
  Tx.wf tx → sender_ tx ≠ kCoinbaseSender → apply_transaction tx l = (true, l1) →
  nonce_ tx + 1 + sz txs <= UINT64_MAX →
  apply_transaction tx (apply_all txs l1) = (false, apply_all txs l1).
Proof.
  intros (_&_&Hn&_) Hc Hap Hb.
  apply apply_transaction_true in Hap as [(?&_)|(_&_&_&_&->)]; [done|].
  set (l1 := credit tx (debit tx l)).
  assert (next_nonce (sender_ tx) l1 = nonce_ tx + 1) as E1.
  { subst l1. rewrite next_nonce_credit, next_nonce_debit, decide_True, wrap_small; solve_width || done. }
  pose proof (apply_all_next_nonce (sender_ tx) txs l1) as Hmono. rewrite E1 in Hmono.
  specialize (Hmono ltac:(solve_width) Hb).
  destruct (apply_transaction tx (apply_all txs l1)) as [[] l2] eqn:E.
  - apply apply_transaction_true in E as [(?&_)|(_&_&_&?&_)]; [done|lia].
  - by apply apply_transaction_false in E as ->.
Qed.

(** The funds check is made on the wrapped sum: a sender who owns 1 coin, in a
    ledger whose whole supply is 1, has a transfer of 2^64 - 1 coins with fee 1
    accepted, and the supply becomes 2^64. *)
Theorem overflowing_transfer_mints :
  ∃ tx l l', Tx.wf tx ∧ wf l ∧ Tx.is_coinbase tx = false ∧ supply l = 1 ∧
    balance (sender_ tx) l = 1 ∧
    apply_transaction tx l = (true, l') ∧ supply l' = 2 ^ 64.
Proof.
  exists (Tx.make (lit "mallory") (lit "sink") UINT64_MAX [] 1 0),
         (set_balance (lit "mallory") 1 empty).
  eexists. split_and!; [by apply (bool_decide_unpack _); vm_compute| |reflexivity..|
    vm_compute; reflexivity|vm_compute; reflexivity].
  apply wf_set_balance; [apply wf_empty|done].
Qed.

(** ** Witnesses *)

Definition alice_pays_bob : Transaction := Tx.make (lit "alice") (lit "bob") 30 [] 2 0.
Definition alice_has_100 : Ledger := set_balance (lit "alice") 100 empty.

Lemma reverse_undoes_apply_witness :
  ∃ l'', reverse_transaction alice_pays_bob (apply_transaction alice_pays_bob alice_has_100).2
         = (true, l'') ∧ alice_has_100 ≡ l'' ∧
         ∀ a, is_Some (get_balance a alice_has_100) →
              get_balance a l'' = get_balance a alice_has_100.
Proof.
  apply (reverse_undoes_apply alice_pays_bob alice_has_100).
  - by apply (bool_decide_unpack _); vm_compute.
  - apply wf_set_balance; [apply wf_empty|done].
  - by vm_compute.
  - reflexivity.
Defined.

Lemma supply_conserved_witness :
  supply (apply_transaction alice_pays_bob alice_has_100).2 =
    supply alice_has_100 + (if Tx.is_coinbase alice_pays_bob then amount_ alice_pays_bob else - fee_ alice_pays_bob).
Proof.
  destruct (supply_conserved alice_pays_bob alice_has_100 (apply_transaction alice_pays_bob alice_has_100).2)
    as [_ Haccepted].
  - by apply (bool_decide_unpack _); vm_compute.
  - apply wf_set_balance; [apply wf_empty|done].
  - destruct Haccepted as [Hsupply _]; [by vm_compute..|]. exact Hsupply.
Defined.

Lemma replay_rejected_witness :
  apply_transaction alice_pays_bob
    (apply_all [Tx.make (lit "alice") (lit "carol") 1 [] 0 1]
       (apply_transaction alice_pays_bob alice_has_100).2) =
  (false, apply_all [Tx.make (lit "alice") (lit "carol") 1 [] 0 1]
            (apply_transaction alice_pays_bob alice_has_100).2).
Proof.
  apply (replay_rejected alice_pays_bob alice_has_100).
  - by apply (bool_decide_unpack _); vm_compute.
  - by apply (bool_decide_unpack _); vm_compute.
  - reflexivity.
  - by vm_compute.
Defined.
End Ldg.
