(* ===== verification/Mempool.v ===== *)
(** * The mempool (src/core/Mempool.cpp)

    A [std::multiset] ordered by descending fee, as the list of its elements in
    iteration order; [insert] puts a transaction after those of equal fee, as the
    standard requires. *)

From S2P Require Import Prelude Codec Crypto Demo Transaction.

Record Mempool := mkMempool {
  pending_ : list Transaction;
  mp_max_size_ : nat
}.

Module Mp.

Definition make (max_size : nat) : Mempool := mkMempool [] max_size.

Definition set_pending (l : list Transaction) (m : Mempool) : Mempool :=
  mkMempool l (mp_max_size_ m).

(** [FeeDescendingComparator] *)
Definition fee_before (a b : Transaction) : bool := fee_ b <? fee_ a.

(** [pending_.insert(tx)]: at the upper bound of the equivalent elements. *)
Fixpoint multiset_insert (tx : Transaction) (l : list Transaction) : list Transaction :=
  match l with
  | [] => [tx]
  | y :: ys => if fee_before tx y then tx :: y :: ys else y :: multiset_insert tx ys
  end.

Section ops.
Context `{Crypto}.

Definition has_transaction (hash : HashBytes) (m : Mempool) : bool :=
  existsb (λ tx, bool_decide (Tx.compute_hash tx = hash)) (pending_ m).

Definition size (m : Mempool) : nat := length (pending_ m).
Definition is_empty (m : Mempool) : bool := (length (pending_ m) =? 0)%nat.

(** [std::prev(pending_.end())] erased; the cheapest is [*pending_.rbegin()], which
    does not exist in an empty pool. *)
Definition add_transaction (tx : Transaction) : ST Mempool bool :=
  ok ← st_lift (Tx.has_valid_signature tx);
  if negb ok then mret false else
  m ← st_get;
  if has_transaction (Tx.compute_hash tx) m then mret false else
  if (mp_max_size_ m <=? size m)%nat then
    cheapest_tx ← st_lift (of_option UndefinedBehaviour (last (pending_ m)));
    if fee_ cheapest_tx <? fee_ tx then
      st_modify (λ m, set_pending (removelast (pending_ m)) m);;
      st_modify (λ m, set_pending (multiset_insert tx (pending_ m)) m);;
      mret true
    else mret false
  else
    st_modify (λ m, set_pending (multiset_insert tx (pending_ m)) m);;
    mret true.

Fixpoint erase_first (hash : HashBytes) (l : list Transaction) : list Transaction :=
  match l with
  | [] => []
  | y :: ys => if bool_decide (hash = Tx.compute_hash y) then ys else y :: erase_first hash ys
  end.

Definition remove_transaction (tx : Transaction) (m : Mempool) : Mempool :=
  set_pending (erase_first (Tx.compute_hash tx) (pending_ m)) m.

Definition get_transactions_for_block (limit : nat) (m : Mempool) : list Transaction :=
  let count := (limit `min` size m)%nat in
  take count (pending_ m).

Definition find (hash : HashBytes) (m : Mempool) : option Transaction :=
  List.find (λ tx, bool_decide (Tx.compute_hash tx = hash)) (pending_ m).

(** ** The invariant *)

Definition fee_ge (a b : Transaction) : Prop := fee_ b <= fee_ a.

Record inv (m : Mempool) : Prop := {
  inv_sorted : StronglySorted fee_ge (pending_ m);
  inv_unique : NoDup (Tx.compute_hash <$> pending_ m);
  inv_bound : (size m <= mp_max_size_ m)%nat;
  inv_signed : Forall (λ tx, Tx.has_valid_signature tx = Ok true) (pending_ m)
}.
End ops.

(** ** Lists ordered by fee *)

Lemma multiset_insert_perm tx l : multiset_insert tx l ≡ₚ tx :: l.
Proof.
  induction l as [|y ys IH]; simpl; [done|]. destruct (fee_before tx y); [done|].
  rewrite IH. apply Permutation_swap.
Qed.

Lemma multiset_insert_sorted tx l :
  StronglySorted fee_ge l → StronglySorted fee_ge (multiset_insert tx l).
Proof.
  induction 1 as [|y ys Hs IH Hy]; simpl; [by repeat constructor|].
  unfold fee_before. case_bool.
  - constructor; [by constructor|]. constructor; [unfold fee_ge; lia|].
    eapply Forall_impl; [exact Hy|]. unfold fee_ge. intros; lia.
  - constructor; [done|]. rewrite multiset_insert_perm. constructor; [unfold fee_ge; lia|done].
Qed.

Lemma removelast_last (l : list Transaction) c :
  last l = Some c → l = removelast l ++ [c].
Proof.
  intros [l' ->]%last_Some. by rewrite removelast_last.
Qed.

Lemma sorted_app_inv l k :
  StronglySorted fee_ge (l ++ k) →
  StronglySorted fee_ge l ∧ StronglySorted fee_ge k ∧
  ∀ a b, a ∈ l → b ∈ k → fee_ b <= fee_ a.
Proof.
  induction l as [|x l IH]; simpl.
  { intros ?. split_and!; [constructor|done|]. intros ? ? []%elem_of_nil. }
  intros [Hs Hx]%StronglySorted_inv. destruct (IH Hs) as (H1 & H2 & H3).
  apply Forall_app in Hx as [Hx1 Hx2]. split_and!; [by constructor|done|].
  intros a b [->|Ha]%elem_of_cons Hb; [|by apply H3].
  rewrite Forall_forall in Hx2. by apply Hx2.
Qed.

Section facts.
Context `{Crypto}.

Lemma has_transaction_spec hash m :
  has_transaction hash m = true ↔ hash ∈ Tx.compute_hash <$> pending_ m.
Proof.
  unfold has_transaction. rewrite existsb_exists, list_elem_of_fmap.
  setoid_rewrite bool_decide_eq_true. setoid_rewrite <- list_elem_of_In. naive_solver.
Qed.

Lemma erase_first_sublist hash l : sublist (erase_first hash l) l.
Proof.
  induction l as [|y ys IH]; simpl; [done|]. case_bool_decide; by constructor.
Qed.

Lemma erase_first_gone hash l :
  NoDup (Tx.compute_hash <$> l) → hash ∉ Tx.compute_hash <$> erase_first hash l.
Proof.
  induction l as [|y ys IH]; simpl; [intros _ []%elem_of_nil|].
  intros [Hy Hys]%NoDup_cons. case_bool_decide as E; subst; [done|]. simpl.
  apply not_elem_of_cons. auto.
Qed.

Lemma sorted_sublist l k : sublist l k → StronglySorted fee_ge k → StronglySorted fee_ge l.
Proof.
  induction 1 as [|x l k Hs IH|x l k Hs IH]; [done| |].
  - intros [? Hx]%StronglySorted_inv. constructor; [auto|].
    rewrite Forall_forall in *. intros y Hy. by eapply Hx, elem_of_sublist.
  - intros [? _]%StronglySorted_inv. auto.
Qed.

(** A pool whose list is a sublist of a good one is good. *)
Lemma inv_sublist l m : inv m → sublist l (pending_ m) → inv (set_pending l m).
Proof.
  intros [Hs Hu Hb Hv] Hl. split; simpl.
  - by eapply sorted_sublist.
  - eapply sublist_NoDup; [exact Hu|by apply fmap_sublist].
  - unfold size in *. simpl. apply sublist_length in Hl. lia.
  - rewrite Forall_forall in *. intros y Hy. by eapply Hv, elem_of_sublist.
Qed.

Lemma inv_insert tx m :
  inv m → (size m < mp_max_size_ m)%nat → Tx.has_valid_signature tx = Ok true →
  has_transaction (Tx.compute_hash tx) m = false →
  inv (set_pending (multiset_insert tx (pending_ m)) m).
Proof.
  intros [Hs Hu Hb Hv] Hlt Hsig Hnew. split; simpl.
  - by apply multiset_insert_sorted.
  - rewrite multiset_insert_perm. simpl. constructor; [|done].
    rewrite <- has_transaction_spec. by rewrite Hnew.
  - unfold size in *. simpl. rewrite multiset_insert_perm. simpl. lia.
  - rewrite multiset_insert_perm. by constructor.
Qed.

Lemma removelast_sublist (l : list Transaction) : sublist (removelast l) l.
Proof.
  destruct (last l) as [c|] eqn:E.
  - rewrite (removelast_last l c E) at 2. by apply sublist_inserts_r.
  - by apply last_None in E as ->.
Qed.

Lemma length_removelast (l : list Transaction) : length (removelast l) = (length l - 1)%nat.
Proof.
  destruct (last l) as [c|] eqn:E.
  - rewrite (removelast_last l c E) at 2. rewrite length_app. simpl. lia.
  - by apply last_None in E as ->.
Qed.

(** ** What [add_transaction] does

    The state after the call, by cases. *)
Inductive add_result (tx : Transaction) (m : Mempool) : result bool * Mempool → Prop :=
| add_throws e :
    Tx.has_valid_signature tx = Throw e → add_result tx m (Throw e, m)
| add_unsigned :
    Tx.has_valid_signature tx = Ok false → add_result tx m (Ok false, m)
| add_known :
    Tx.has_valid_signature tx = Ok true → has_transaction (Tx.compute_hash tx) m = true →
    add_result tx m (Ok false, m)
| add_inserted :
    Tx.has_valid_signature tx = Ok true → has_transaction (Tx.compute_hash tx) m = false →
    (size m < mp_max_size_ m)%nat →
    add_result tx m (Ok true, set_pending (multiset_insert tx (pending_ m)) m)
| add_evicts cheapest :
    Tx.has_valid_signature tx = Ok true → has_transaction (Tx.compute_hash tx) m = false →
    (mp_max_size_ m <= size m)%nat → last (pending_ m) = Some cheapest →
    fee_ cheapest < fee_ tx →
    add_result tx m (Ok true, set_pending (multiset_insert tx (removelast (pending_ m))) m)
| add_too_cheap cheapest :
    Tx.has_valid_signature tx = Ok true → has_transaction (Tx.compute_hash tx) m = false →
    (mp_max_size_ m <= size m)%nat → last (pending_ m) = Some cheapest →
    fee_ tx <= fee_ cheapest → add_result tx m (Ok false, m)
| add_no_capacity :
    Tx.has_valid_signature tx = Ok true → has_transaction (Tx.compute_hash tx) m = false →
    mp_max_size_ m = 0%nat → pending_ m = [] → add_result tx m (Throw UndefinedBehaviour, m).

Lemma add_transaction_cases tx m : add_result tx m (add_transaction tx m).
Proof.
  unfold add_transaction, mbind, ST_bind, st_lift, mret, ST_ret, st_get, st_modify.
  destruct (Tx.has_valid_signature tx) as [[]|e] eqn:Hs; simpl; [|by constructor..].
  destruct (has_transaction (Tx.compute_hash tx) m) eqn:Hh; [by constructor|].
  case_bool; [|by constructor].
  destruct (last (pending_ m)) as [c|] eqn:Hl; simpl.
  - case_bool; simpl; [|by eapply add_too_cheap].
    by apply (add_evicts tx m c Hs Hh).
  - apply last_None in Hl. apply add_no_capacity; [done..| |done].
    unfold size in *. rewrite Hl in *. simpl in *. lia.
Qed.

Lemma add_transaction_inv tx m : inv m → inv (add_transaction tx m).2.
Proof.
  intros Hm. destruct (add_transaction_cases tx m) as
    [e ?|?|?|Hs Hn Hlt|c Hs Hn Hle Hl Hf|c ? ? ? ?|?]; simpl; try done.
  - by apply inv_insert.
  - assert (inv (set_pending (removelast (pending_ m)) m)) as Hm'
      by by apply inv_sublist, removelast_sublist.
    apply (inv_insert tx _ Hm'); [|done|].
    + pose proof (inv_bound _ Hm). unfold size in *. simpl. rewrite length_removelast.
      apply removelast_last in Hl. apply (f_equal length) in Hl.
      rewrite length_app in Hl. simpl in Hl. lia.
    + apply not_true_iff_false. rewrite has_transaction_spec. simpl. intros Hin.
      apply not_true_iff_false in Hn. apply Hn, has_transaction_spec.
      eapply elem_of_sublist; [done|]. apply fmap_sublist, removelast_sublist.
Qed.

Lemma remove_transaction_inv tx m : inv m → inv (remove_transaction tx m).
Proof. intros Hm. apply inv_sublist; [done|]. apply erase_first_sublist. Qed.

Lemma empty_pool_inv n : inv (make n).
Proof. split; simpl; [constructor|constructor|unfold size; simpl; lia|constructor]. Qed.

Lemma find_pending_spec hash m tx :
  find hash m = Some tx → tx ∈ pending_ m ∧ Tx.compute_hash tx = hash.
Proof.
  intros [Hin E]%find_some. by rewrite <- list_elem_of_In in Hin; apply bool_decide_eq_true in E.
Qed.

Lemma last_cheapest m c y :
  inv m → last (pending_ m) = Some c → y ∈ pending_ m → fee_ c <= fee_ y.
Proof.
  intros Hm Hl Hy. pose proof (inv_sorted _ Hm) as Hs.
  rewrite (removelast_last _ _ Hl) in Hs, Hy. apply sorted_app_inv in Hs as (_ & _ & Hs).
  apply elem_of_app in Hy as [Hy| ->%list_elem_of_singleton]; [|lia].
  apply Hs; [done|]. by apply list_elem_of_singleton.
Qed.

(** The operations that change a mempool, as a step relation. *)
Inductive step : Mempool → Mempool → Prop :=
| step_add tx m : step m (add_transaction tx m).2
| step_remove tx m : step m (remove_transaction tx m).

(** ** Properties *)

(** C26. Every mempool reachable from an empty one by adding and removing transactions,
    throwing calls included, is ordered by descending fee, holds no two transactions
    with the same hash, respects its capacity, and contains only transactions whose
    signature verifies. *)
Theorem mempool_invariant n m : rtc step (make n) m → inv m ∧ mp_max_size_ m = n.
Proof.
  intros Hr. remember (make n) as m0 eqn:E. assert (inv m0 ∧ mp_max_size_ m0 = n) as H0.
  { subst. split; [apply empty_pool_inv|done]. }
  clear E. induction Hr as [m|m1 m2 m3 Hs _ IH]; [done|]. apply IH. destruct H0 as [Hi Hn].
  destruct Hs as [tx m|tx m]; [|by split; [apply remove_transaction_inv|]].
  split; [by apply add_transaction_inv|]. destruct (add_transaction_cases tx m); by simpl.
Qed.

(** Eviction: adding to a full pool either leaves it alone, because no pending
    transaction pays less than the new one, or exchanges the new transaction for one
    that pays strictly less and than which nothing in the pool is cheaper. *)
Theorem full_pool_eviction tx m m' b :
  inv m → size m = mp_max_size_ m → (0 < mp_max_size_ m)%nat →
  Tx.has_valid_signature tx = Ok true → has_transaction (Tx.compute_hash tx) m = false →
  add_transaction tx m = (Ok b, m') →
  if b then
    ∃ evicted rest, pending_ m ≡ₚ evicted :: rest ∧ pending_ m' ≡ₚ tx :: rest ∧
      fee_ evicted < fee_ tx ∧ Forall (λ y, fee_ evicted <= fee_ y) (pending_ m)
  else m' = m ∧ Forall (λ y, fee_ tx <= fee_ y) (pending_ m).
Proof.
  intros Hm Hfull Hpos Hs Hn E. pose proof (add_transaction_cases tx m) as C. rewrite E in C.
  inversion C as [ |?|?|? ? Hlt|c ? ? ? Hl Hf|c ? ? ? Hl Hf| ]; subst; try congruence; [lia| |].
  - exists c, (removelast (pending_ m)). simpl. split_and!; [|apply multiset_insert_perm|done|].
    + rewrite (removelast_last _ _ Hl) at 1. by rewrite Permutation_app_comm.
    + apply Forall_forall. intros y Hy. by eapply last_cheapest.
  - split; [done|]. apply Forall_forall. intros y Hy.
    pose proof (last_cheapest m' c y Hm Hl Hy). lia.
Qed.

(** Block selection takes the best-paying transactions: [get_transactions_for_block]
    returns [min(limit, size)] of them, and nothing it leaves behind pays more than
    anything it takes. *)
Theorem selection_is_best m limit :
  inv m →
  let chosen := get_transactions_for_block limit m in
  length chosen = (limit `min` size m)%nat ∧
  ∃ rest, pending_ m = chosen ++ rest ∧ ∀ a b, a ∈ chosen → b ∈ rest → fee_ b <= fee_ a.
Proof.
  intros Hm chosen. unfold chosen, get_transactions_for_block. split.
  - rewrite length_take. unfold size. lia.
  - exists (drop (limit `min` size m)%nat (pending_ m)). rewrite take_drop. split; [done|].
    pose proof (inv_sorted _ Hm) as Hs.
    rewrite <- (take_drop (limit `min` size m)%nat (pending_ m)) in Hs.
    by apply sorted_app_inv in Hs as (_ & _ & Hs).
Qed.

(** A transaction just accepted is found under its hash, and a removed one is not:
    [has_transaction] and [find] agree with [add_transaction] and [remove_transaction]. *)
Theorem add_remove_lookup tx m :
  inv m →
  ((add_transaction tx m).1 = Ok true →
   has_transaction (Tx.compute_hash tx) (add_transaction tx m).2 = true) ∧
  has_transaction (Tx.compute_hash tx) (remove_transaction tx m) = false ∧
  (∀ h t, find h m = Some t → t ∈ pending_ m ∧ Tx.compute_hash t = h).
Proof.
  intros Hm. split_and!.
  - destruct (add_transaction_cases tx m); simpl; try done; intros _;
      apply has_transaction_spec; simpl; rewrite multiset_insert_perm; simpl; left.
  - apply not_true_iff_false. rewrite has_transaction_spec. simpl.
    apply erase_first_gone, inv_unique, Hm.
  - intros h t. apply find_pending_spec.
Qed.
End facts.

(** ** Witnesses *)

Section witnesses.
#[local] Existing Instance demo_crypto.

Definition demo_low : Transaction := demo_pay "alice" "bob" 5 1 0.
Definition demo_mid : Transaction := demo_pay "bob" "carol" 5 3 0.
Definition demo_high : Transaction := demo_pay "carol" "alice" 5 9 0.

(** A pool of capacity 2 that is full. *)
Definition demo_pool : Mempool := (add_transaction demo_mid (add_transaction demo_low (make 2)).2).2.

Lemma demo_pool_reachable : rtc step (make 2) demo_pool.
Proof. eapply rtc_l; [apply step_add|]. eapply rtc_l; [apply step_add|]. apply rtc_refl. Qed.

Lemma demo_pool_inv : inv demo_pool.
Proof. apply add_transaction_inv, add_transaction_inv, empty_pool_inv. Qed.

Lemma mempool_invariant_witness : inv demo_pool ∧ mp_max_size_ demo_pool = 2%nat.
Proof. apply mempool_invariant. exact demo_pool_reachable. Defined.

Lemma full_pool_eviction_witness :
  ∃ evicted rest, pending_ demo_pool ≡ₚ evicted :: rest ∧
    pending_ (add_transaction demo_high demo_pool).2 ≡ₚ demo_high :: rest ∧
    fee_ evicted < fee_ demo_high ∧ Forall (λ y, fee_ evicted <= fee_ y) (pending_ demo_pool).
Proof.
  apply (full_pool_eviction demo_high demo_pool (add_transaction demo_high demo_pool).2 true).
  - exact demo_pool_inv.
  - by vm_compute.
  - apply Nat.ltb_lt. by vm_compute.
  - by vm_compute.
  - by vm_compute.
  - by vm_compute.
Defined.

Lemma selection_is_best_witness :
  let chosen := get_transactions_for_block 1 demo_pool in
  length chosen = (1 `min` size demo_pool)%nat ∧
  ∃ rest, pending_ demo_pool = chosen ++ rest ∧ ∀ a b, a ∈ chosen → b ∈ rest → fee_ b <= fee_ a.
Proof. exact (selection_is_best demo_pool 1 demo_pool_inv). Defined.

Lemma add_remove_lookup_witness :
  ((add_transaction demo_high demo_pool).1 = Ok true →
   has_transaction (Tx.compute_hash demo_high) (add_transaction demo_high demo_pool).2 = true) ∧
  has_transaction (Tx.compute_hash demo_high) (remove_transaction demo_high demo_pool) = false ∧
  (∀ h t, find h demo_pool = Some t → t ∈ pending_ demo_pool ∧ Tx.compute_hash t = h).
Proof. apply (add_remove_lookup demo_high demo_pool). exact demo_pool_inv. Defined.
End witnesses.
End Mp.
