(* ===== verification/OrphanPool.v ===== *)
(** * The orphan pool (src/core/OrphanPool.cpp)

    Blocks waiting for their parent, in a hash map with a linked list of hashes for
    first-in-first-out eviction; each map entry keeps an iterator into the list. A
    list node is an identity with its hash, so that erasing through an iterator is
    what the code does. The iteration order of [std::unordered_map] is unspecified:
    it is the parameter [Buckets]. The module [Fifo] is the abstract specification
    the pool is proved to refine: a bounded queue of blocks keyed by hash. *)

From S2P Require Import Prelude Codec Crypto Transaction Block Demo.

Definition kDefaultMaxOrphans : nat := 1000.

(** [Entry::pos] is the identity of a list node. *)
Record Entry := mkEntry { e_block : Block; e_pos : nat }.

Record OrphanPool := mkOrphanPool {
  order_ : list (nat * HashBytes);
  orphan_pool_ : gmap HashBytes Entry;
  op_max_size_ : nat;
  next_node_ : nat  (** the identity of the next list node to be allocated *)
}.

(** [for (const auto &block : orphan_pool_)]: every entry once, in some order. *)
Class Buckets := {
  bucket_order : gmap HashBytes Entry → list (HashBytes * Entry);
  bucket_order_perm m : bucket_order m ≡ₚ map_to_list m
}.

(** ** Specification: a bounded first-in-first-out store *)
Module Fifo.

Abbreviation store := (list (HashBytes * Block)).

Definition lookup (h : HashBytes) (s : store) : option Block :=
  snd <$> List.find (λ kb, bool_decide (kb.1 = h)) s.

(** Replace in place, keeping the age. *)
Definition replace (b : Block) (s : store) : store :=
  (λ kb, if decide (kb.1 = hash_ b) then (kb.1, b) else kb) <$> s.

Definition insert (cap : nat) (b : Block) (s : store) : store :=
  if decide (hash_ b ∈ s.*1) then replace b s
  else (if decide (cap <= length s)%nat then drop 1 s else s) ++ [(hash_ b, b)].

Definition remove (h : HashBytes) (s : store) : store :=
  filter (λ kb, kb.1 ≠ h) s.
End Fifo.

Module Op.

Definition make (max_size : nat) : OrphanPool := mkOrphanPool [] ∅ max_size 0.

Definition has_orphan (hash : HashBytes) (p : OrphanPool) : bool :=
  bool_decide (is_Some (orphan_pool_ p !! hash)).

Definition find_orphan (hash : HashBytes) (p : OrphanPool) : option Block :=
  e_block <$> orphan_pool_ p !! hash.

Definition orphan_count (p : OrphanPool) : nat := size (orphan_pool_ p).

(** [order_.front()] found in the map and erased, then [order_.pop_front()];
    undefined on an empty list. *)
Definition evict_oldest : ST OrphanPool unit := λ p,
  match order_ p with
  | [] => (Throw UndefinedBehaviour, p)
  | (_, front) :: rest =>
      (Ok tt, mkOrphanPool rest (delete front (orphan_pool_ p)) (op_max_size_ p) (next_node_ p))
  end.

(** [order_.push_back(hash)] and [emplace(hash, Entry{block, prev(order_.end())})]. *)
Definition push_back (block : Block) (p : OrphanPool) : OrphanPool :=
  let node := next_node_ p in
  mkOrphanPool (order_ p ++ [(node, hash_ block)])
    (<[hash_ block := mkEntry block node]> (orphan_pool_ p)) (op_max_size_ p) (S node).

Definition add_orphan (block : Block) : ST OrphanPool unit :=
  p ← st_get;
  match orphan_pool_ p !! hash_ block with
  | Some e =>
      st_modify (λ p, mkOrphanPool (order_ p)
        (<[hash_ block := mkEntry block (e_pos e)]> (orphan_pool_ p))
        (op_max_size_ p) (next_node_ p))
  | None =>
      (if (op_max_size_ p <=? orphan_count p)%nat then evict_oldest else mret tt);;
      st_modify (push_back block)
  end.

Definition remove_orphan (hash : HashBytes) (p : OrphanPool) : OrphanPool :=
  match orphan_pool_ p !! hash with
  | None => p
  | Some it =>
      mkOrphanPool (filter (λ node, node.1 ≠ e_pos it) (order_ p))
        (delete hash (orphan_pool_ p)) (op_max_size_ p) (next_node_ p)
  end.

Definition find_orphan_by_prev_hash `{Buckets} (prev_hash : HashBytes) (p : OrphanPool)
    : option Block :=
  e_block ∘ snd <$>
    List.find (λ kv, bool_decide (prev_hash_ (e_block kv.2) = prev_hash))
      (bucket_order (orphan_pool_ p)).

Definition children_of `{Buckets} (hash : HashBytes) (p : OrphanPool) : list Block :=
  e_block ∘ snd <$>
    filter (λ kv, prev_hash_ (e_block kv.2) = hash) (bucket_order (orphan_pool_ p)).

(** ** The invariant tying the list to the map *)

Record inv (p : OrphanPool) : Prop := {
  inv_nodes : NoDup (order_ p).*1;
  inv_hashes : NoDup (order_ p).*2;
  inv_fresh : Forall (λ n, (n < next_node_ p)%nat) (order_ p).*1;
  inv_entry h e : orphan_pool_ p !! h = Some e → (e_pos e, h) ∈ order_ p ∧ hash_ (e_block e) = h;
  inv_order n h : (n, h) ∈ order_ p → ∃ e, orphan_pool_ p !! h = Some e ∧ e_pos e = n;
  inv_bound : (length (order_ p) <= op_max_size_ p)%nat
}.

(** The store a list of nodes and a map represent, oldest first. *)
Definition abs_list (m : gmap HashBytes Entry) (l : list (nat * HashBytes)) : Fifo.store :=
  omap (λ nh : nat * HashBytes, (λ e, (nh.2, e_block e)) <$> m !! nh.2) l.

Definition abs (p : OrphanPool) : Fifo.store := abs_list (orphan_pool_ p) (order_ p).

(** ** Facts *)

Lemma abs_list_cons m n h l :
  abs_list m ((n, h) :: l) =
  match m !! h with Some e => (h, e_block e) :: abs_list m l | None => abs_list m l end.
Proof. unfold abs_list. simpl. by destruct (m !! h). Qed.

Lemma abs_keys p : inv p → (abs p).*1 = (order_ p).*2.
Proof.
  intros Hp. pose proof (inv_order p Hp) as Ho. unfold abs.
  induction (order_ p) as [|[n h] l IH]; [done|]. rewrite abs_list_cons.
  destruct (Ho n h ltac:(left)) as (e & -> & _). simpl. f_equal. apply IH.
  intros n' h' Hin. apply Ho. by right.
Qed.

Lemma length_abs p : inv p → length (abs p) = length (order_ p).
Proof.
  intros Hp. pose proof (abs_keys p Hp) as E. apply (f_equal length) in E.
  by rewrite !length_fmap in E.
Qed.

Lemma order_keys p h : inv p → h ∈ (order_ p).*2 ↔ is_Some (orphan_pool_ p !! h).
Proof.
  intros Hp. split.
  - intros ([n h'] & -> & Hin)%list_elem_of_fmap. destruct (inv_order p Hp n h' Hin) as (e & E & _).
    simpl. by rewrite E.
  - intros [e E]. apply list_elem_of_fmap. exists (e_pos e, h). split; [done|].
    by apply (inv_entry p Hp).
Qed.

Lemma orphan_count_order p : inv p → orphan_count p = length (order_ p).
Proof.
  intros Hp. unfold orphan_count. rewrite <- (size_dom (D := gset HashBytes)), <- (length_fmap snd).
  rewrite <- (size_list_to_set (C := gset HashBytes)) by apply (inv_hashes p Hp).
  f_equal. apply set_eq. intros h. rewrite elem_of_dom, elem_of_list_to_set.
  symmetry. by apply order_keys.
Qed.

Lemma abs_list_app m l k : abs_list m (l ++ k) = abs_list m l ++ abs_list m k.
Proof. apply omap_app. Qed.

Lemma abs_list_ext m m' l :
  (∀ h, h ∈ l.*2 → m !! h = m' !! h) → abs_list m l = abs_list m' l.
Proof.
  intros Hm. induction l as [|[n h] l IH]; [done|]. rewrite !abs_list_cons.
  rewrite <- Hm by (simpl; left). rewrite IH; [done|]. intros h' Hh. apply Hm. by right.
Qed.

Lemma abs_list_replace m l b e :
  m !! hash_ b = Some e →
  abs_list (<[hash_ b := mkEntry b (e_pos e)]> m) l = Fifo.replace b (abs_list m l).
Proof.
  intros Hb. unfold Fifo.replace. induction l as [|[n h] l IH]; [done|].
  rewrite !abs_list_cons, IH. destruct (decide (h = hash_ b)) as [->|Hne].
  - rewrite lookup_insert_eq, Hb. simpl. by rewrite decide_True.
  - rewrite lookup_insert_ne by done. destruct (m !! h); simpl; [|done].
    by rewrite decide_False.
Qed.

Lemma abs_list_filter m l h :
  abs_list m (filter (λ nh, nh.2 ≠ h) l) = Fifo.remove h (abs_list m l).
Proof.
  unfold Fifo.remove. induction l as [|[n k] l IH]; [done|].
  rewrite filter_cons, abs_list_cons. cbn [snd]. destruct (decide (k = h)) as [->|Hne].
  - rewrite decide_False by (by intros []). rewrite IH. destruct (m !! h); [|done].
    rewrite filter_cons_False by (by intros []). done.
  - rewrite decide_True, abs_list_cons, IH by done. destruct (m !! k); [|done].
    by rewrite filter_cons_True.
Qed.

Lemma lookup_abs_list m l h :
  Fifo.lookup h (abs_list m l) = if decide (h ∈ l.*2) then e_block <$> m !! h else None.
Proof.
  unfold Fifo.lookup. induction l as [|[n k] l IH]; [done|]. rewrite abs_list_cons.
  destruct (decide (k = h)) as [->|Hne].
  - rewrite decide_True by (simpl; left).
    destruct (m !! h) as [e|] eqn:E; simpl; [by rewrite bool_decide_true|].
    rewrite IH. by case_decide.
  - rewrite (decide_ext _ (h ∈ l.*2)) by (simpl; rewrite elem_of_cons; naive_solver).
    destruct (m !! k); simpl; [rewrite bool_decide_false by done|]; apply IH.
Qed.

Lemma lookup_abs p h : inv p → Fifo.lookup h (abs p) = find_orphan h p.
Proof.
  intros Hp. unfold abs, find_orphan. rewrite lookup_abs_list. case_decide as Hd; [done|].
  rewrite order_keys, <- eq_None_not_Some in Hd by done. by rewrite Hd.
Qed.

(** In a good pool a node's identity and its hash select the same node. *)
Lemma filter_node_hash p h e :
  inv p → orphan_pool_ p !! h = Some e →
  filter (λ nh, nh.1 ≠ e_pos e) (order_ p) = filter (λ nh, nh.2 ≠ h) (order_ p).
Proof.
  intros Hp Hh. assert (∀ nh, nh ∈ order_ p → nh.1 ≠ e_pos e ↔ nh.2 ≠ h) as Hiff.
  { intros [n k] Hin. simpl. pose proof (inv_entry p Hp h e Hh) as [He _].
    split; intros Hne E; subst; apply Hne.
    - destruct (inv_order p Hp n h Hin) as (e' & E & <-). congruence.
    - pose proof (inv_nodes p Hp) as Hn. apply list_elem_of_lookup in Hin as [i Hi], He as [j Hj].
      assert (i = j) as ->; [|congruence].
      apply (NoDup_lookup (order_ p).*1 i j (e_pos e)); [done|..];
        rewrite list_lookup_fmap; [by rewrite Hi|by rewrite Hj]. }
  clear Hh Hp. induction (order_ p) as [|nh l IH]; [done|].
  rewrite !filter_cons, IH by (intros; apply Hiff; by right).
  erewrite decide_ext; [done|]. apply Hiff. left.
Qed.

(** ** Each mutation preserves the invariant and simulates the specification *)

Lemma empty_orphans_inv n : inv (make n).
Proof.
  split; simpl.
  - constructor.
  - constructor.
  - constructor.
  - intros h e E. by rewrite lookup_empty in E.
  - intros ? ? []%elem_of_nil.
  - lia.
Qed.

Lemma push_back_inv b p :
  inv p → orphan_pool_ p !! hash_ b = None → (length (order_ p) < op_max_size_ p)%nat →
  inv (push_back b p) ∧ abs (push_back b p) = abs p ++ [(hash_ b, b)].
Proof.
  intros Hp Hnew Hlt. pose proof (order_keys p (hash_ b) Hp) as Hk.
  assert (hash_ b ∉ (order_ p).*2) as Hnin by (rewrite Hk, Hnew; by intros []).
  pose proof (inv_fresh p Hp) as Hf. split; [split|]; simpl.
  - rewrite fmap_app. apply NoDup_app. split_and!; [apply (inv_nodes p Hp)| |apply NoDup_singleton].
    intros n Hn ->%list_elem_of_singleton. rewrite Forall_forall in Hf. specialize (Hf _ Hn).
    simpl in Hf. lia.
  - rewrite fmap_app. apply NoDup_app. split_and!; [apply (inv_hashes p Hp)| |apply NoDup_singleton].
    by intros h Hh ->%list_elem_of_singleton.
  - rewrite fmap_app, Forall_app. split; [|repeat constructor].
    eapply Forall_impl; [exact Hf|]. simpl. intros; lia.
  - intros h e E. rewrite lookup_insert in E. case_decide as Hh; [subst h|].
    + injection E as <-. simpl. split; [|done]. apply elem_of_app. right. left.
    + destruct (inv_entry p Hp h e E). split; [apply elem_of_app; by left|done].
  - intros n h [Hin|[= -> ->]%list_elem_of_singleton]%elem_of_app.
    + destruct (inv_order p Hp n h Hin) as (e & E & He). exists e. split; [|done].
      rewrite lookup_insert_ne; [done|]. intros <-. congruence.
    + exists (mkEntry b (next_node_ p)). by rewrite lookup_insert_eq.
  - rewrite length_app. simpl. lia.
  - unfold abs. simpl. rewrite abs_list_app. f_equal.
    + apply abs_list_ext. intros h Hh. apply lookup_insert_ne. by intros <-.
    + by rewrite abs_list_cons, lookup_insert_eq.
Qed.

Lemma evict_oldest_inv n f rest p :
  inv p → order_ p = (n, f) :: rest →
  let p' := mkOrphanPool rest (delete f (orphan_pool_ p)) (op_max_size_ p) (next_node_ p) in
  inv p' ∧ abs p' = drop 1 (abs p).
Proof.
  intros Hp E p'. pose proof Hp as [Hn Hh Hf He Ho Hb]. rewrite E in *. simpl in *.
  apply NoDup_cons in Hn as [Hn1 Hn2], Hh as [Hh1 Hh2]. apply Forall_cons in Hf as [_ Hf].
  assert (∀ h, h ∈ rest.*2 → delete f (orphan_pool_ p) !! h = orphan_pool_ p !! h) as Hd.
  { intros h Hin. apply lookup_delete_ne. by intros ->. }
  split; [split|]; simpl; try done.
  - intros h e [Hne Eh]%lookup_delete_Some. destruct (He h e Eh) as [[[= _ ->]|Hin]%elem_of_cons ?]; done.
  - intros n' h Hin. destruct (Ho n' h) as (e & Eh & Hpos); [by right|]. exists e.
    split; [|done]. rewrite Hd; [done|]. apply list_elem_of_fmap. by exists (n', h).
  - lia.
  - unfold abs. simpl. rewrite E, abs_list_cons.
    destruct (Ho n f ltac:(left)) as (e & -> & _). simpl. by apply abs_list_ext.
Qed.

Lemma replace_inv b e p :
  inv p → orphan_pool_ p !! hash_ b = Some e →
  let p' := mkOrphanPool (order_ p) (<[hash_ b := mkEntry b (e_pos e)]> (orphan_pool_ p))
              (op_max_size_ p) (next_node_ p) in
  inv p' ∧ abs p' = Fifo.replace b (abs p).
Proof.
  intros Hp E p'. split; [|by apply abs_list_replace].
  pose proof Hp as [Hn Hh Hf He Ho Hb]. split; simpl; try done.
  - intros h e'. rewrite lookup_insert. case_decide as Hd; [|apply He].
    subst h. intros [= <-]. simpl. by destruct (He _ _ E).
  - intros n h Hin. destruct (Ho n h Hin) as (e' & Eh & Hpos). rewrite lookup_insert.
    case_decide as Hd; [|eauto]. subst h. eexists. split; [done|]. simpl. congruence.
Qed.

Lemma remove_orphan_inv h p :
  inv p → inv (remove_orphan h p) ∧ abs (remove_orphan h p) = Fifo.remove h (abs p).
Proof.
  intros Hp. unfold remove_orphan. destruct (orphan_pool_ p !! h) as [e|] eqn:E.
  - rewrite (filter_node_hash p h e Hp E). pose proof Hp as [Hn Hh Hf He Ho Hb].
    assert (sublist (filter (λ nh, nh.2 ≠ h) (order_ p)) (order_ p)) as Hsub
      by apply sublist_filter.
    split; [split|]; simpl.
    + eapply sublist_NoDup; [exact Hn|by apply fmap_sublist].
    + eapply sublist_NoDup; [exact Hh|by apply fmap_sublist].
    + rewrite Forall_forall in *. intros n Hin. apply Hf.
      eapply elem_of_sublist; [exact Hin|by apply fmap_sublist].
    + intros k e' [Hne Ek]%lookup_delete_Some. destruct (He k e' Ek).
      split; [|done]. apply list_elem_of_filter. simpl. auto.
    + intros n k [Hne Hin]%list_elem_of_filter. simpl in Hne. destruct (Ho n k Hin) as (e' & Ek & ?).
      exists e'. by rewrite lookup_delete_ne by done.
    + apply sublist_length in Hsub. lia.
    + unfold abs. simpl. rewrite <- abs_list_filter. apply abs_list_ext.
      intros k ([n k'] & -> & [Hne _]%list_elem_of_filter)%list_elem_of_fmap.
      by apply lookup_delete_ne.
  - split; [done|]. unfold Fifo.remove. symmetry. apply filter_all.
    intros [k b] Hin. simpl. intros ->. assert (h ∈ (abs p).*1) as Hk.
    { apply list_elem_of_fmap. by exists (h, b). }
    rewrite abs_keys, order_keys, E in Hk by done. by destruct Hk.
Qed.

Lemma add_orphan_inv b p :
  inv p → (0 < op_max_size_ p)%nat →
  ∃ p', add_orphan b p = (Ok tt, p') ∧ inv p' ∧ op_max_size_ p' = op_max_size_ p ∧
        abs p' = Fifo.insert (op_max_size_ p) b (abs p).
Proof.
  intros Hp Hpos. unfold add_orphan, Fifo.insert, mbind, ST_bind, st_get, st_modify, mret, ST_ret.
  rewrite abs_keys, length_abs by done.
  destruct (orphan_pool_ p !! hash_ b) as [e|] eqn:E.
  - rewrite decide_True by (apply order_keys; [done|by rewrite E]).
    destruct (replace_inv b e p Hp E). by eexists.
  - rewrite decide_False by (rewrite order_keys, E by done; by intros []).
    rewrite orphan_count_order by done. pose proof (inv_bound p Hp) as Hb.
    case_bool.
    + rewrite decide_True by done. unfold evict_oldest.
      destruct (order_ p) as [|[n f] rest] eqn:Eo; [simpl in *; lia|].
      destruct (evict_oldest_inv n f rest p Hp Eo) as [Hp' Ea].
      destruct (push_back_inv b _ Hp') as [Hp2 Ea2]; simpl.
      * apply lookup_delete_None. by right.
      * simpl in *. lia.
      * eexists. split_and!; [done|exact Hp2|done|]. by rewrite Ea2, Ea.
    + rewrite decide_False by lia. destruct (push_back_inv b p Hp E ltac:(done)). by eexists.
Qed.

(** What a lookup finds after an insertion or a removal. *)
Lemma add_orphan_contents b p p' :
  add_orphan b p = (Ok tt, p') →
  find_orphan (hash_ b) p' = Some b ∧
  ∀ h x, find_orphan h p' = Some x → x = b ∨ find_orphan h p = Some x.
Proof.
  unfold add_orphan, mbind, ST_bind, st_get, st_modify, mret, ST_ret, find_orphan.
  assert (∀ (m : gmap HashBytes Entry) e, e_block e = b →
    e_block <$> <[hash_ b := e]> m !! hash_ b = Some b ∧
    ∀ h x, e_block <$> <[hash_ b := e]> m !! h = Some x → x = b ∨ e_block <$> m !! h = Some x) as Hins.
  { intros m e He. rewrite lookup_insert_eq. split; [by simpl; f_equal|]. intros h x.
    rewrite lookup_insert. case_decide; [simpl; naive_solver|eauto]. }
  destruct (orphan_pool_ p !! hash_ b) as [e|].
  { intros [= <-]. by apply Hins. }
  case_bool; unfold evict_oldest.
  - destruct (order_ p) as [|[n f] rest]; [done|]. intros [= <-]. simpl.
    destruct (Hins (delete f (orphan_pool_ p)) (mkEntry b (next_node_ p)) eq_refl) as [H1 H2].
    split; [done|]. intros h x [?|Hx]%H2; [by left|right].
    apply fmap_Some in Hx as (e & [_ He]%lookup_delete_Some & ->). by rewrite He.
  - intros [= <-]. by apply Hins.
Qed.

Lemma remove_orphan_contents h k p x :
  find_orphan k (remove_orphan h p) = Some x → find_orphan k p = Some x.
Proof.
  unfold remove_orphan, find_orphan. destruct (orphan_pool_ p !! h); [|done]. simpl.
  intros (e' & [_ He]%lookup_delete_Some & ->)%fmap_Some. by rewrite He.
Qed.

Lemma children_of_spec `{Buckets} h p b :
  b ∈ children_of h p ↔ ∃ k e, orphan_pool_ p !! k = Some e ∧ e_block e = b ∧ prev_hash_ b = h.
Proof.
  unfold children_of. rewrite list_elem_of_fmap. split.
  - intros ([k e] & -> & [Hh Hin]%list_elem_of_filter). simpl in *.
    rewrite bucket_order_perm, elem_of_map_to_list in Hin. eauto.
  - intros (k & e & E & <- & Hh). exists (k, e). split; [done|].
    apply list_elem_of_filter. split; [done|]. by rewrite bucket_order_perm, elem_of_map_to_list.
Qed.
Lemma children_of_NoDup `{Buckets} h p : inv p → NoDup (children_of h p).
Proof.
  intros Hp. unfold children_of. apply NoDup_fmap_2_strong.
  - intros [k1 e1] [k2 e2] [_ H1]%list_elem_of_filter [_ H2]%list_elem_of_filter E. simpl in *.
    rewrite bucket_order_perm, elem_of_map_to_list in H1, H2.
    destruct (inv_entry p Hp _ _ H1) as [_ E1], (inv_entry p Hp _ _ H2) as [_ E2]. congruence.
  - apply NoDup_filter. rewrite bucket_order_perm. apply NoDup_map_to_list.
Qed.

Lemma find_by_prev_head `{Buckets} h p :
  find_orphan_by_prev_hash h p = head (children_of h p).
Proof.
  unfold find_orphan_by_prev_hash, children_of.
  induction (bucket_order (orphan_pool_ p)) as [|[k e] l IH]; [done|].
  rewrite filter_cons. simpl. case_bool_decide; [by rewrite decide_True|].
  rewrite decide_False by done. exact IH.
Qed.

(** ** Histories *)

Inductive op := Add (b : Block) | Remove (h : HashBytes).

Definition run_op (o : op) : ST OrphanPool unit :=
  match o with Add b => add_orphan b | Remove h => st_modify (remove_orphan h) end.

Definition spec_op (cap : nat) (o : op) (s : Fifo.store) : Fifo.store :=
  match o with Add b => Fifo.insert cap b s | Remove h => Fifo.remove h s end.

Fixpoint run_ops (os : list op) : ST OrphanPool unit :=
  match os with [] => mret tt | o :: os => run_op o;; run_ops os end.

Definition spec_ops (cap : nat) (os : list op) (s : Fifo.store) : Fifo.store :=
  foldl (λ s o, spec_op cap o s) s os.

Lemma run_op_inv o p :
  inv p → (0 < op_max_size_ p)%nat →
  ∃ p', run_op o p = (Ok tt, p') ∧ inv p' ∧ op_max_size_ p' = op_max_size_ p ∧
        abs p' = spec_op (op_max_size_ p) o (abs p).
Proof.
  intros Hp Hpos. destruct o as [b|h]; simpl; [by apply add_orphan_inv|].
  destruct (remove_orphan_inv h p Hp). exists (remove_orphan h p). split_and!; try done.
  unfold remove_orphan. by case_match.
Qed.

Lemma run_ops_inv os p :
  inv p → (0 < op_max_size_ p)%nat →
  ∃ p', run_ops os p = (Ok tt, p') ∧ inv p' ∧ op_max_size_ p' = op_max_size_ p ∧
        abs p' = spec_ops (op_max_size_ p) os (abs p).
Proof.
  revert p. induction os as [|o os IH]; intros p Hp Hpos; [by exists p|].
  destruct (run_op_inv o p Hp Hpos) as (p1 & E1 & Hp1 & Hm & Ea).
  destruct (IH p1 Hp1 ltac:(lia)) as (p2 & E2 & Hp2 & Hm2 & Ea2). exists p2.
  split_and!; [|done|congruence|by rewrite Ea2, Hm, Ea].
  cbn [run_ops]. by rewrite (ST_bind_eq _ _ _ _ _ E1).
Qed.

(** ** Properties *)

(** C24. The pool refines a bounded first-in-first-out store keyed by hash: every
    history of [add_orphan] and [remove_orphan] on a fresh pool of capacity [n > 0]
    completes without touching an empty list, its linked list and hash map stay
    consistent, lookups and the count are those of the specification, and the pool
    never exceeds its capacity. *)
Theorem pool_refines_fifo n os :
  (0 < n)%nat →
  ∃ p, run_ops os (make n) = (Ok tt, p) ∧ inv p ∧
    let s := spec_ops n os [] in
    (∀ h, find_orphan h p = Fifo.lookup h s) ∧
    (∀ h, has_orphan h p = bool_decide (is_Some (Fifo.lookup h s))) ∧
    orphan_count p = length s ∧ (length s <= n)%nat.
Proof.
  intros Hn. destruct (run_ops_inv os (make n) (empty_orphans_inv n) Hn) as (p & E & Hp & Hm & Ea).
  exists p. assert (spec_ops n os [] = abs p) as Es by (by rewrite Ea).
  cbv zeta. rewrite Es. split_and!; [done|done|by intros; rewrite lookup_abs|..].
  - intros h. rewrite lookup_abs by done. unfold has_orphan, find_orphan.
    apply bool_decide_ext. by rewrite fmap_is_Some.
  - by rewrite orphan_count_order, length_abs.
  - rewrite length_abs by done. pose proof (inv_bound p Hp). rewrite Hm in *. done.
Qed.

(** Children of a block: [children_of] lists, each exactly once, the stored
    orphans whose parent is the given hash, and [find_orphan_by_prev_hash] finds one
    exactly when there is one, in whatever order the hash map iterates. *)
Theorem children_of_complete `{Buckets} n os p h :
  (0 < n)%nat → run_ops os (make n) = (Ok tt, p) →
  NoDup (children_of h p) ∧
  (∀ b, b ∈ children_of h p ↔ find_orphan (hash_ b) p = Some b ∧ prev_hash_ b = h) ∧
  (∀ b, find_orphan_by_prev_hash h p = Some b → b ∈ children_of h p) ∧
  (find_orphan_by_prev_hash h p = None ↔ children_of h p = []).
Proof.
  intros Hn E. destruct (run_ops_inv os (make n) (empty_orphans_inv n) Hn) as (p' & E' & Hp & _).
  rewrite E in E'. injection E' as <-. split_and!.
  - by apply children_of_NoDup.
  - intros b. rewrite children_of_spec. unfold find_orphan. split.
    + intros (k & e & Ek & <- & Hb). destruct (inv_entry p Hp k e Ek) as [_ Hk].
      by rewrite Hk, Ek.
    + intros [(e & Ee & ->)%fmap_Some Hb]. eauto.
  - intros b. rewrite find_by_prev_head. by intros ?%head_Some_elem_of.
  - rewrite find_by_prev_head. by rewrite head_None.
Qed.

(** ** Witnesses *)

Section witnesses.
#[local] Existing Instance demo_crypto.

Definition demo_buckets : Buckets :=
  {| bucket_order := map_to_list; bucket_order_perm m := Permutation_refl _ |}.

#[local] Existing Instance demo_buckets.

Definition orphan (prev nonce : Z) : Block :=
  Blk.make 1 (le 32 prev) nonce [].

Definition demo_history : list op :=
  [Add (orphan 1 1); Add (orphan 1 2); Add (orphan 2 3); Remove (hash_ (orphan 1 2));
   Add (orphan 1 4)].

Lemma pool_refines_fifo_witness :
  ∃ p, run_ops demo_history (make 2) = (Ok tt, p) ∧ inv p ∧
    let s := spec_ops 2 demo_history [] in
    (∀ h, find_orphan h p = Fifo.lookup h s) ∧
    (∀ h, has_orphan h p = bool_decide (is_Some (Fifo.lookup h s))) ∧
    orphan_count p = length s ∧ (length s <= 2)%nat.
Proof. apply (pool_refines_fifo 2 demo_history). lia. Defined.

Lemma children_of_complete_witness :
  let p := (run_ops demo_history (make 2)).2 in
  NoDup (children_of (le 32 1) p) ∧
  (∀ b, b ∈ children_of (le 32 1) p ↔
        find_orphan (hash_ b) p = Some b ∧ prev_hash_ b = le 32 1) ∧
  (∀ b, find_orphan_by_prev_hash (le 32 1) p = Some b → b ∈ children_of (le 32 1) p) ∧
  (find_orphan_by_prev_hash (le 32 1) p = None ↔ children_of (le 32 1) p = []).
Proof.
  apply (children_of_complete 2 demo_history); [lia|]. vm_compute. reflexivity.
Defined.
End witnesses.
End Op.
