(* ===== verification/ProofOfWork.v ===== *)
(** * Consensus rules (src/consensus/ProofOfWork.cpp)

    The proof-of-work test, both miners, difficulty retargeting, the coinbase rule,
    median time past and the timestamp rule. [block_at] is the accessor the code passes
    as a [std::function]; it may throw.

    [retarget] is the one place the program uses floating point. [std::log2] and
    [std::llround] are modelled by the exact base-2 logarithm of the quotient, rounded to
    nearest. The quotient is never exactly [2^(k + 1/2)], as the square root of 2 is
    irrational; Retarget shows that the rounding of the doubles does not change the result
    on either network. *)

From S2P Require Import Prelude Codec Crypto Demo Transaction Block.

Record ConsensusParams := mkConsensusParams {
  initial_difficulty : Z;
  min_difficulty : Z;
  target_block_time : Z;
  retarget_interval : nat;
  mtp_window : nat;
  max_future_drift : Z
}.

Definition kMainParams : ConsensusParams :=
  {| initial_difficulty := 18; min_difficulty := 18; target_block_time := 1;
     retarget_interval := 20; mtp_window := 11; max_future_drift := 120 |}.

Definition kTestParams : ConsensusParams :=
  {| initial_difficulty := 4; min_difficulty := 1; target_block_time := 10;
     retarget_interval := 20; mtp_window := 11; max_future_drift := 120 |}.

Definition mining_reward : Z := 50.
Definition kMaxNonce : Z := Eval vm_compute in UINT32_MAX.
Definition kCancelCheckInterval : Z := 65535.
Definition kMaxTimestampBumps : Z := 60.

Module Pow.

(** ** The target test *)

(** The loop over the bits of one byte: the running [result] and [found_one]. *)
Fixpoint scan_byte (turns : nat) (byte mask result : Z) : Z * bool :=
  match turns with
  | O => (result, false)
  | S turns =>
      if Z.land byte mask =? 0 then scan_byte turns byte (Z.shiftr mask 1) (u32 (result + 1))
      else (result, true)
  end.

Fixpoint scan_hash (hash : HashBytes) (result : Z) : Z :=
  match hash with
  | [] => result
  | b :: rest =>
      let '(result, found_one) := scan_byte 8 (byte.unsigned b) 128 result in
      if found_one then result else scan_hash rest result
  end.

Definition meets_target (hash : HashBytes) (difficulty : Z) : bool :=
  difficulty <=? scan_hash hash 0.

(** ** Mining *)

Section mining.
Context `{Crypto}.

Definition mine_step (block : Block) (difficulty : Z) (nonce : Z) : Z + result Block :=
  if nonce <? kMaxNonce then
    let block := Blk.set_nonce nonce block in
    let hash := Blk.compute_hash block in
    if meets_target hash difficulty then inr (Ok (Blk.set_hash hash block))
    else inl (u32 (nonce + 1))
  else inr (Throw RuntimeError).

(** Fuel 2^32: kMaxNonce attempts and the last evaluation of the loop's guard. *)
Definition mine_block (version : Z) (prev_hash : HashBytes) (timestamp difficulty : Z)
    (transactions : list Transaction) : result Block :=
  let block := Blk.set_difficulty difficulty (Blk.make version prev_hash timestamp transactions) in
  match iter_until (mine_step block difficulty) 4294967296 0 with
  | inr r => r
  | inl _ => Throw RuntimeError
  end.

Record MineState := { m_nonce : Z; m_timestamp_bumps : Z; m_block : Block }.

(** [should_stop], when the function object is not empty: the answer the callback gives
    when it is called at a given [timestamp_bumps] and [nonce]. *)
Definition mine_until_step (should_stop : option (Z → Z → bool)) (s : MineState)
    : MineState + option Block :=
  let nonce := m_nonce s in
  let stop := match should_stop with
              | Some f => (nonce mod kCancelCheckInterval =? 0) && f (m_timestamp_bumps s) nonce
              | None => false
              end in
  if stop then inr None else
  let block := Blk.set_nonce nonce (m_block s) in
  let hash := Blk.compute_hash block in
  if meets_target hash (difficulty_ block) then inr (Some (Blk.set_hash hash block)) else
  let nonce := u32 (nonce + 1) in
  if nonce =? kMaxNonce then
    if m_timestamp_bumps s =? kMaxTimestampBumps then inr None
    else inl {| m_nonce := 0; m_timestamp_bumps := u32 (m_timestamp_bumps s + 1);
                m_block := Blk.set_timestamp (u64 (timestamp_ block + 1)) block |}
  else inl {| m_nonce := nonce; m_timestamp_bumps := m_timestamp_bumps s; m_block := block |}.

(** Fuel 61 * kMaxNonce: every nonce below kMaxNonce, for the first timestamp and 60 bumps. *)
Definition mine_fuel : positive := Eval vm_compute in Z.to_pos (61 * kMaxNonce).

Definition mine_block_until (version : Z) (prev_hash : HashBytes) (timestamp difficulty : Z)
    (transactions : list Transaction) (should_stop : option (Z → Z → bool)) : option Block :=
  let block := Blk.set_difficulty difficulty (Blk.make version prev_hash timestamp transactions) in
  match iter_until (mine_until_step should_stop) mine_fuel
          {| m_nonce := 0; m_timestamp_bumps := 0; m_block := block |} with
  | inr r => r
  | inl _ => None
  end.
End mining.

(** ** Retargeting *)

(** [floor (log2 (x / y))] for positive [x] and [y]. *)
Definition log2_quot (x y : Z) : Z :=
  if y <=? x then Z.log2 (x / y) else - Z.log2_up ((y + x - 1) / x).

(** [llround (log2 (e / a))]: the largest [r] with [2 r <= log2 (2 e^2 / a^2)]. *)
Definition llround_log2 (e a : Z) : Z := log2_quot (2 * e ^ 2) (a ^ 2) / 2.

Definition kMaxStepBits : Z := 2.

(** The rounded logarithm clamped, and the difficulty moved by it. *)
Definition retarget_by (old_difficulty rounded_delta : Z) : Z :=
  let rounded_delta :=
    if kMaxStepBits <? rounded_delta then kMaxStepBits
    else if rounded_delta <? - kMaxStepBits then - kMaxStepBits else rounded_delta in
  if 0 <? rounded_delta then
    let new_difficulty := u64 (old_difficulty + rounded_delta) in
    if UINT32_MAX <? new_difficulty then UINT32_MAX else u32 new_difficulty
  else if rounded_delta <? 0 then
    let decrease := - rounded_delta in
    if old_difficulty <=? decrease then 0 else u32 (old_difficulty - u32 decrease)
  else old_difficulty.

Definition retarget (old_difficulty actual_time_seconds expected_time_seconds : Z) : Z :=
  let actual := if actual_time_seconds =? 0 then 1 else actual_time_seconds in
  if expected_time_seconds =? 0 then old_difficulty else
  retarget_by old_difficulty (llround_log2 expected_time_seconds actual).

Definition next_difficulty (height : nat) (params : ConsensusParams)
    (block_at : nat → result Block) : result Z :=
  let interval := retarget_interval params in
  if (interval <? 2)%nat || (height <=? interval)%nat then mret (initial_difficulty params) else
  parent ← block_at (height - 1)%nat;
  if negb (height mod interval =? 0)%nat then mret (difficulty_ parent) else
  first_block ← block_at (height - interval)%nat;
  let first := timestamp_ first_block in
  let last := timestamp_ parent in
  let actual := if first <? last then last - first else 0 in
  let expected := u64 (Z.of_nat (interval - 1) * target_block_time params) in
  mret (Z.max (retarget (difficulty_ parent) actual expected) (min_difficulty params)).

(** ** Coinbase *)

(** The first loop: the index of the only coinbase, or [None] when there are two. *)
Fixpoint find_coinbase (i : nat) (found : option nat) (txs : list Transaction)
    : option (option nat) :=
  match txs with
  | [] => Some found
  | tx :: txs =>
      if Tx.is_coinbase tx then
        match found with
        | Some _ => None
        | None => find_coinbase (S i) (Some i) txs
        end
      else find_coinbase (S i) found txs
  end.

(** The second loop: the fees of every transaction but [index]. *)
Fixpoint sum_fees (i index : nat) (fees_total : Z) (txs : list Transaction) : Z :=
  match txs with
  | [] => fees_total
  | tx :: txs =>
      if (i =? index)%nat then sum_fees (S i) index fees_total txs
      else sum_fees (S i) index (u64 (fees_total + fee_ tx)) txs
  end.

Definition validate_coinbase_amount (txs : list Transaction) : bool :=
  match find_coinbase 0 None txs with
  | None => false
  | Some None => true
  | Some (Some index) =>
      match txs !! index with
      | Some coinbase => amount_ coinbase <=? u64 (mining_reward + sum_fees 0 index 0 txs)
      | None => true (* unreachable: [index] came from the loop *)
      end
  end.

(** ** Time *)

Definition median_time_past (height window : nat) (block_at : nat → result Block) : result Z :=
  if (height =? 0)%nat || (window =? 0)%nat then mret 0 else
  let start := if (window <? height)%nat then (height - window)%nat else 0%nat in
  blocks ← mapM block_at (seq start (height - start));
  let timestamps := merge_sort Z.le (timestamp_ <$> blocks) in
  of_option UndefinedBehaviour (timestamps !! (length timestamps / 2)%nat).

Definition timestamp_is_valid (block : Block) (height : nat) (now : Z)
    (params : ConsensusParams) (block_at : nat → result Block) : result bool :=
  let timestamp := timestamp_ block in
  if (now <? timestamp) && (max_future_drift params <? timestamp - now) then mret false else
  mtp ← median_time_past height (mtp_window params) block_at;
  if timestamp <=? mtp then mret false else mret true.

(** ** The target test counts leading zero bits *)

(** The hash as a 256-bit big-endian number. *)
Definition be_value (h : HashBytes) : Z := foldl (λ acc b, acc * 256 + byte.unsigned b) 0 h.

(** Leading zero bits of a byte, and of a hash. *)
Definition clz8 (b : byte) : Z := 8 - (if byte.unsigned b =? 0 then 0 else Z.log2 (byte.unsigned b) + 1).

Fixpoint clz (h : HashBytes) : Z :=
  match h with
  | [] => 0
  | b :: rest => clz8 b + (if byte.unsigned b =? 0 then clz rest else 0)
  end.

(** The inner loop only adds to [result]. *)
Lemma scan_byte_add turns byte mask r :
  scan_byte turns byte mask (u32 r) =
  (u32 (r + (scan_byte turns byte mask 0).1), (scan_byte turns byte mask 0).2).
Proof.
  revert mask r. induction turns as [|n IH]; intros mask r; simpl.
  { by rewrite Z.add_0_r. }
  destruct (_ =? 0); simpl; [|by rewrite Z.add_0_r].
  rewrite wrap_add_l, IH, (IH _ 1) by done. simpl. rewrite wrap_add_r by done. do 2 f_equal. lia.
Qed.

Lemma scan_byte_spec b result :
  in_u 32 result →
  scan_byte 8 (byte.unsigned b) 128 result = (u32 (result + clz8 b), negb (byte.unsigned b =? 0)).
Proof.
  intros Hr. rewrite <- (wrap_small 32 result Hr) at 1. rewrite scan_byte_add.
  replace (scan_byte 8 (byte.unsigned b) 128 0) with (clz8 b, negb (byte.unsigned b =? 0)); [done|].
  by destruct b.
Qed.

Lemma clz8_range b : 0 <= clz8 b <= 8.
Proof. destruct b; vm_compute; split; congruence. Qed.

Lemma clz_range h : 0 <= clz h <= 8 * sz h.
Proof.
  unfold sz. induction h as [|b h IH]; simpl; [lia|].
  pose proof (clz8_range b). case_match; lia.
Qed.

Lemma scan_hash_spec h result : in_u 32 result → scan_hash h result = u32 (result + clz h).
Proof.
  revert result. induction h as [|b h IH]; intros r Hr; cbn [scan_hash clz].
  { by rewrite Z.add_0_r, wrap_small. }
  rewrite scan_byte_spec by done. destruct (byte.unsigned b =? 0); cbn [negb].
  - rewrite IH by apply u32_range. rewrite wrap_add_l by done. f_equal. lia.
  - f_equal. lia.
Qed.

Lemma foldl_be acc h :
  foldl (λ acc b, acc * 256 + byte.unsigned b) acc h = acc * 2 ^ (8 * sz h) + be_value h.
Proof.
  revert acc. unfold be_value. induction h as [|b h IH]; intros acc.
  { unfold sz. simpl. lia. }
  cbn [foldl]. rewrite IH, (IH (0 * 256 + byte.unsigned b)).
  replace (2 ^ (8 * sz (b :: h))) with (256 * 2 ^ (8 * sz h)); [ring|].
  unfold sz. change 256 with (2 ^ 8). rewrite <- Z.pow_add_r by lia. f_equal. simpl length. lia.
Qed.

Lemma be_value_cons b h :
  be_value (b :: h) = byte.unsigned b * 2 ^ (8 * sz h) + be_value h.
Proof. unfold be_value at 1. cbn [foldl]. by rewrite foldl_be, Z.mul_0_l, Z.add_0_l. Qed.

Lemma sz_cons {A} (x : A) l : sz (x :: l) = sz l + 1.
Proof. unfold sz. simpl. lia. Qed.

Lemma clz8_bounds b :
  byte.unsigned b <> 0 → 2 ^ (7 - clz8 b) <= byte.unsigned b < 2 ^ (8 - clz8 b).
Proof. destruct b; vm_compute; intros Hb; try (by exfalso; apply Hb); split; congruence. Qed.

Lemma pow2_split x y : 0 <= x → 0 <= y → 2 ^ (x + y) = 2 ^ x * 2 ^ y.
Proof. intros. by rewrite Z.pow_add_r. Qed.

(** The value lies between the powers of two its leading zeros give. *)
Lemma be_value_bounds h :
  0 <= be_value h < 2 ^ (8 * sz h - clz h) ∧
  (clz h < 8 * sz h → 2 ^ (8 * sz h - clz h - 1) <= be_value h).
Proof.
  induction h as [|b h [[IH0 IH1] IH2]].
  { unfold be_value. simpl. change (sz []) with 0. simpl. lia. }
  rewrite be_value_cons, sz_cons. cbn [clz]. pose proof (clz_range h).
  pose proof (sz_nonneg h). pose proof (clz8_range b).
  destruct (Z.eqb_spec (byte.unsigned b) 0) as [E|E].
  - assert (clz8 b = 8) as -> by (unfold clz8; by rewrite E).
    rewrite E, Z.mul_0_l, Z.add_0_l. replace (8 * (sz h + 1) - (8 + clz h)) with (8 * sz h - clz h) by lia.
    split; [done|]. intros ?. apply IH2. lia.
  - destruct (clz8_bounds b E) as [L U]. rewrite Z.add_0_r.
    assert (2 ^ (8 * sz h - clz h) <= 2 ^ (8 * sz h)) by (apply Z.pow_le_mono_r; lia).
    assert (clz8 b <= 7) by (destruct (decide (clz8 b = 8)) as [E8|]; [rewrite E8 in U; pose proof (byte.unsigned_range b); simpl in U; lia|lia]).
    replace (8 * (sz h + 1) - clz8 b) with (8 - clz8 b + 8 * sz h) by lia.
    split; [split; [nia|]|intros _].
    + rewrite pow2_split by lia. nia.
    + replace (8 - clz8 b + 8 * sz h - 1) with (7 - clz8 b + 8 * sz h) by lia.
      rewrite pow2_split by lia. nia.
Qed.

Lemma clz_le_iff h d :
  0 <= d → d <= clz h ↔ d <= 8 * sz h ∧ be_value h < 2 ^ (8 * sz h - d).
Proof.
  intros Hd. pose proof (clz_range h). destruct (be_value_bounds h) as [[B0 B1] B2]. split.
  - intros Hle. split; [lia|]. eapply Z.lt_le_trans; [exact B1|]. apply Z.pow_le_mono_r; lia.
  - intros [Hd' Hb]. destruct (Z.le_gt_cases d (clz h)); [done|].
    assert (2 ^ (8 * sz h - d) <= 2 ^ (8 * sz h - clz h - 1)) by (apply Z.pow_le_mono_r; lia).
    specialize (B2 ltac:(lia)). lia.
Qed.

Lemma meets_target_clz h d : hash_wf h → meets_target h d = (d <=? clz h).
Proof.
  intros Hh. unfold meets_target. rewrite scan_hash_spec by done. rewrite Z.add_0_l.
  pose proof (clz_range h). unfold hash_wf, sz in *. rewrite Hh in *.
  rewrite wrap_small by solve_width. done.
Qed.

Lemma meets_target_mono h d d' : d' <= d → meets_target h d = true → meets_target h d' = true.
Proof. unfold meets_target. rewrite !Z.leb_le. lia. Qed.

(** ** The miners search in order *)

Section miners.
Context `{Crypto}.

(** What the miners hash at a given timestamp bump and nonce. *)
Definition attempt (version : Z) (prev_hash : HashBytes) (timestamp difficulty : Z)
    (transactions : list Transaction) (bumps nonce : Z) : Block :=
  Blk.set_nonce nonce (Blk.set_timestamp (u64 (timestamp + bumps))
    (Blk.set_difficulty difficulty (Blk.make version prev_hash timestamp transactions))).

Definition solved (b : Block) : bool := meets_target (Blk.compute_hash b) (difficulty_ b).

Definition seal (b : Block) : Block := Blk.set_hash (Blk.compute_hash b) b.

Lemma seal_hash b : hash_ (seal b) = Blk.compute_hash (seal b).
Proof. done. Qed.

Lemma attempt_0 v p t d txs n :
  in_u 64 t →
  attempt v p t d txs 0 n = Blk.set_nonce n (Blk.set_difficulty d (Blk.make v p t txs)).
Proof. intros ?. unfold attempt. by rewrite Z.add_0_r, wrap_small. Qed.

Lemma mine_step_search v p t d txs i :
  in_u 64 t → 0 <= i < 4294967296 →
  mine_step (Blk.set_difficulty d (Blk.make v p t txs)) d i =
  match (if i <? kMaxNonce then
           if solved (attempt v p t d txs 0 i) then Some (Ok (seal (attempt v p t d txs 0 i)))
           else None
         else Some (Throw RuntimeError)) with
  | Some r => inr r
  | None => inl (i + 1)
  end.
Proof.
  intros Ht Hi. unfold mine_step, solved, seal. rewrite attempt_0 by done.
  case_bool; [|done]. cbn [difficulty_ Blk.set_nonce Blk.set_difficulty].
  case_match; [done|]. rewrite wrap_small; [done|]. unfold kMaxNonce in *. solve_width.
Qed.

(** The state of the second miner before its [i]-th attempt. *)
Definition mine_state v p t d txs (i : Z) : MineState :=
  {| m_nonce := i mod kMaxNonce; m_timestamp_bumps := i / kMaxNonce;
     m_block := attempt v p t d txs (i / kMaxNonce) (if i =? 0 then 0 else (i - 1) mod kMaxNonce) |}.

Definition mine_outcome (should_stop : option (Z → Z → bool)) v p t d txs (i : Z)
    : option (option Block) :=
  let bumps := i / kMaxNonce in
  let nonce := i mod kMaxNonce in
  if match should_stop with
     | Some f => (nonce mod kCancelCheckInterval =? 0) && f bumps nonce
     | None => false
     end then Some None
  else if solved (attempt v p t d txs bumps nonce) then Some (Some (seal (attempt v p t d txs bumps nonce)))
  else if i =? 61 * kMaxNonce - 1 then Some None else None.

Lemma set_nonce_attempt v p t d txs b m n :
  Blk.set_nonce n (attempt v p t d txs b m) = attempt v p t d txs b n.
Proof. done. Qed.

Lemma bump_attempt v p t d txs b n :
  Blk.set_timestamp (u64 (timestamp_ (attempt v p t d txs b n) + 1)) (attempt v p t d txs b n) =
  attempt v p t d txs (b + 1) n.
Proof.
  unfold attempt. simpl. rewrite wrap_add_l by done. by rewrite Z.add_assoc.
Qed.

Lemma mine_until_step_search stop v p t d txs i :
  0 <= i < 61 * kMaxNonce →
  mine_until_step stop (mine_state v p t d txs i) =
  match mine_outcome stop v p t d txs i with
  | Some r => inr r
  | None => inl (mine_state v p t d txs (i + 1))
  end.
Proof.
  intros Hi. unfold mine_until_step, mine_outcome, mine_state.
  cbn [m_nonce m_timestamp_bumps m_block]. rewrite set_nonce_attempt.
  destruct (match stop with Some _ => _ | None => _ end); [done|].
  unfold solved, seal. destruct (meets_target _ _); [done|].
  assert (0 <= i mod kMaxNonce < kMaxNonce) by (apply Z.mod_pos_bound; done).
  rewrite (wrap_small 32) by (unfold kMaxNonce in *; solve_width).
  rewrite (proj2 (Z.eqb_neq (i + 1) 0)), Z.add_simpl_r by lia.
  destruct (Z.eqb_spec (i mod kMaxNonce + 1) kMaxNonce) as [E|E].
  - destruct (Z.eqb_spec (i / kMaxNonce) kMaxTimestampBumps) as [E2|E2].
    + rewrite (proj2 (Z.eqb_eq i (61 * kMaxNonce - 1))); [done|].
      unfold kMaxNonce, kMaxTimestampBumps in *. Z.div_mod_to_equations; lia.
    + rewrite (proj2 (Z.eqb_neq i (61 * kMaxNonce - 1)))
        by (unfold kMaxNonce, kMaxTimestampBumps in *; Z.div_mod_to_equations; lia).
      rewrite bump_attempt, wrap_small
        by (unfold kMaxNonce in *; Z.div_mod_to_equations; solve_width).
      assert ((i + 1) / kMaxNonce = i / kMaxNonce + 1) as ->
        by (unfold kMaxNonce in *; Z.div_mod_to_equations; lia).
      assert ((i + 1) mod kMaxNonce = 0) as ->
        by (unfold kMaxNonce in *; Z.div_mod_to_equations; lia). done.
  - rewrite (proj2 (Z.eqb_neq i (61 * kMaxNonce - 1)))
      by (unfold kMaxNonce in *; Z.div_mod_to_equations; lia).
    assert ((i + 1) / kMaxNonce = i / kMaxNonce) as ->
      by (unfold kMaxNonce in *; Z.div_mod_to_equations; lia).
    assert ((i + 1) mod kMaxNonce = i mod kMaxNonce + 1) as ->
      by (unfold kMaxNonce in *; Z.div_mod_to_equations; lia). done.
Qed.

(** The plain miner returns the sealed block of the first nonce below 2^32 - 1 whose
    hash meets the difficulty, and throws exactly when no such nonce exists. *)
Theorem mine_block_first_solution v p t d txs :
  in_u 64 t →
  match mine_block v p t d txs with
  | Ok b => ∃ nonce, 0 <= nonce < kMaxNonce ∧ b = seal (attempt v p t d txs 0 nonce) ∧
      meets_target (hash_ b) d = true ∧ hash_ b = Blk.compute_hash b ∧
      ∀ n, 0 <= n < nonce → solved (attempt v p t d txs 0 n) = false
  | Throw e => e = RuntimeError ∧
      ∀ n, 0 <= n < kMaxNonce → solved (attempt v p t d txs 0 n) = false
  end.
Proof.
  intros Ht. unfold mine_block.
  destruct (iter_until_search _ id _ 4294967296 (λ i Hi, mine_step_search v p t d txs i Ht Hi))
    as [(i & r & Hi & Ho & Hj & E)|[Hj _]].
  - unfold id in E. rewrite E. clear E.
    assert (∀ j, 0 <= j < i → j < kMaxNonce → solved (attempt v p t d txs 0 j) = false) as Hfail.
    { intros j Hji Hjk. specialize (Hj j Hji). simpl in Hj.
      rewrite (proj2 (Z.ltb_lt _ _) Hjk) in Hj. by case_match. }
    destruct (Z.ltb_spec i kMaxNonce).
    + destruct (solved _) eqn:Es; [|done]. injection Ho as <-. exists i.
      split_and!; [lia..|done|exact Es|done|]. intros n Hn. apply Hfail; lia.
    + injection Ho as <-. split; [done|]. intros n Hn. apply Hfail; lia.
  - specialize (Hj kMaxNonce ltac:(done)). done.
Qed.

(** The callback is asked at the nonces that are multiples of the interval. *)
Definition asks_stop (stop : option (Z → Z → bool)) (bumps nonce : Z) : bool :=
  match stop with Some f => (nonce mod kCancelCheckInterval =? 0) && f bumps nonce | None => false end.

(** An attempt comes before another: an earlier timestamp, or the same and a smaller nonce. *)
Definition before (b n bumps nonce : Z) : Prop := 0 <= b < bumps ∨ b = bumps ∧ n < nonce.

Lemma mine_block_until_spec v p t d txs stop :
  in_u 64 t →
  match mine_block_until v p t d txs stop with
  | Some b => ∃ bumps nonce, 0 <= bumps <= kMaxTimestampBumps ∧ 0 <= nonce < kMaxNonce ∧
      b = seal (attempt v p t d txs bumps nonce) ∧
      meets_target (hash_ b) d = true ∧ hash_ b = Blk.compute_hash b ∧
      (∀ b' n, 0 <= n < kMaxNonce → before b' n bumps nonce →
        solved (attempt v p t d txs b' n) = false ∧ asks_stop stop b' n = false) ∧
      asks_stop stop bumps nonce = false
  | None =>
      (∃ bumps nonce, 0 <= bumps <= kMaxTimestampBumps ∧ 0 <= nonce < kMaxNonce ∧ asks_stop stop bumps nonce = true ∧
        ∀ b' n, 0 <= n < kMaxNonce → before b' n bumps nonce →
          solved (attempt v p t d txs b' n) = false ∧ asks_stop stop b' n = false) ∨
      ∀ bumps n, 0 <= bumps <= kMaxTimestampBumps → 0 <= n < kMaxNonce →
        solved (attempt v p t d txs bumps n) = false ∧ asks_stop stop bumps n = false
  end.
Proof.
  intros Ht. unfold mine_block_until.
  replace {| m_nonce := 0; m_timestamp_bumps := 0;
             m_block := Blk.set_difficulty d (Blk.make v p t txs) |}
    with (mine_state v p t d txs 0) by (unfold mine_state; cbn [Z.eqb]; by rewrite attempt_0).
  assert (∀ b n i, 0 <= n < kMaxNonce → 0 <= b → b * kMaxNonce + n < i →
            (∀ j, 0 <= j < i → mine_outcome stop v p t d txs j = None) →
            solved (attempt v p t d txs b n) = false ∧ asks_stop stop b n = false) as Hfail.
  { intros b n i Hn Hb Hlt Hall. specialize (Hall (b * kMaxNonce + n) ltac:(nia)).
    unfold mine_outcome in Hall.
    replace ((b * kMaxNonce + n) / kMaxNonce) with b in Hall
      by (unfold kMaxNonce in *; Z.div_mod_to_equations; lia).
    replace ((b * kMaxNonce + n) mod kMaxNonce) with n in Hall
      by (unfold kMaxNonce in *; Z.div_mod_to_equations; lia).
    unfold asks_stop. repeat case_match; done. }
  destruct (iter_until_search _ _ _ mine_fuel (λ i Hi, mine_until_step_search stop v p t d txs i Hi))
    as [(i & r & Hi & Ho & Hj & ->)|[Hj _]].
  - change (Z.pos mine_fuel) with (61 * kMaxNonce) in Hi.
    assert (0 <= i / kMaxNonce <= kMaxTimestampBumps ∧ 0 <= i mod kMaxNonce < kMaxNonce ∧
            i = i / kMaxNonce * kMaxNonce + i mod kMaxNonce) as (Hq & Hm & Heq)
      by (unfold kMaxNonce, kMaxTimestampBumps in *; Z.div_mod_to_equations; lia).
    assert (∀ b' n, 0 <= n < kMaxNonce → before b' n (i / kMaxNonce) (i mod kMaxNonce) →
      solved (attempt v p t d txs b' n) = false ∧ asks_stop stop b' n = false) as Hbefore.
    { intros b' n Hn Hor. unfold before in Hor. apply (Hfail b' n i); [done|nia|nia|done]. }
    unfold mine_outcome in Ho. destruct (match stop with Some _ => _ | None => _ end) eqn:Es.
    + injection Ho as <-. left. exists (i / kMaxNonce), (i mod kMaxNonce). split_and!; [lia..|exact Es|done].
    + destruct (solved (attempt _ _ _ _ _ _ _)) eqn:Ev.
      * injection Ho as <-. exists (i / kMaxNonce), (i mod kMaxNonce).
        split_and!; [lia..|done|exact Ev|done|done|exact Es].
      * destruct (Z.eqb_spec i (61 * kMaxNonce - 1)) as [El|]; [|done]. injection Ho as <-.
        right. intros b n Hb Hn. destruct (decide (b * kMaxNonce + n = i)) as [E|E].
        -- assert (b = i / kMaxNonce ∧ n = i mod kMaxNonce) as [-> ->]; [|by split].
           unfold kMaxNonce in *. Z.div_mod_to_equations; lia.
        -- apply (Hfail b n i); [done|lia|unfold kMaxNonce, kMaxTimestampBumps in *; lia|done].
  - specialize (Hj (61 * kMaxNonce - 1) ltac:(done)). unfold mine_outcome in Hj.
    rewrite Z.eqb_refl in Hj. repeat case_match; done.
Qed.

(** C30. The cancellable miner always stops. It searches 61 timestamps, each with every nonce
    below 2^32 - 1, and asks the callback before every attempt whose nonce is a multiple of
    65535. A block it returns is the first solution in that order, and the callback had not
    asked it to stop up to there. It returns nothing only if the callback asked it to stop at
    one of those attempts, the first at which it did, and no attempt before that meets the
    difficulty, or if no attempt at all does. *)
Theorem mine_block_until_first_solution v p t d txs stop :
  in_u 64 t →
  match mine_block_until v p t d txs stop with
  | Some b => ∃ bumps nonce, 0 <= bumps <= kMaxTimestampBumps ∧ 0 <= nonce < kMaxNonce ∧
      b = seal (attempt v p t d txs bumps nonce) ∧
      meets_target (hash_ b) d = true ∧ hash_ b = Blk.compute_hash b ∧
      (∀ b' n, 0 <= n < kMaxNonce → before b' n bumps nonce →
        solved (attempt v p t d txs b' n) = false ∧ asks_stop stop b' n = false) ∧
      asks_stop stop bumps nonce = false
  | None =>
      (∃ bumps nonce, 0 <= bumps <= kMaxTimestampBumps ∧ 0 <= nonce < kMaxNonce ∧ asks_stop stop bumps nonce = true ∧
        ∀ b' n, 0 <= n < kMaxNonce → before b' n bumps nonce →
          solved (attempt v p t d txs b' n) = false ∧ asks_stop stop b' n = false) ∨
      ∀ bumps n, 0 <= bumps <= kMaxTimestampBumps → 0 <= n < kMaxNonce →
        solved (attempt v p t d txs bumps n) = false ∧ asks_stop stop bumps n = false
  end.
Proof. apply mine_block_until_spec. Qed.
End miners.

(** ** Retargeting *)

Lemma log2_quot_ge x y k :
  0 < x → 0 < y →
  k <= log2_quot x y ↔ if 0 <=? k then y * 2 ^ k <= x else y <= x * 2 ^ (- k).
Proof.
  intros Hx Hy. unfold log2_quot. destruct (Z.leb_spec y x) as [Hyx|Hyx].
  - assert (1 <= x / y) by (apply Z.div_le_lower_bound; lia). case_bool.
    + rewrite <- Z.log2_le_pow2 by lia. split; intros E.
      * pose proof (Z.mul_div_le x y Hy). nia.
      * apply Z.div_le_lower_bound; lia.
    + assert (1 <= 2 ^ (- k)) by (apply (Z.pow_le_mono_r 2 0); lia).
      pose proof (Z.log2_nonneg (x / y)). split; intros; [nia|lia].
  - set (c := (y + x - 1) / x). assert (2 <= c) by (apply Z.div_le_lower_bound; lia).
    assert (0 < Z.log2_up c) by (apply Z.log2_up_pos; lia). case_bool.
    + assert (1 <= 2 ^ k) by (apply (Z.pow_le_mono_r 2 0); lia). split; intros; [lia|nia].
    + assert (k <= - Z.log2_up c ↔ Z.log2_up c <= - k) as -> by lia.
      rewrite <- Z.log2_up_le_pow2 by lia. unfold c. split; intros E.
      * pose proof (Z.mod_pos_bound (y + x - 1) x Hx).
        pose proof (Z.div_mod (y + x - 1) x ltac:(lia)). nia.
      * apply Z.lt_succ_r, Z.div_lt_upper_bound; lia.
Qed.

Lemma llround_log2_ge e a r :
  0 < e → 0 < a →
  r <= llround_log2 e a ↔
  if 0 <=? r then a ^ 2 * 2 ^ (2 * r) <= 2 * e ^ 2 else a ^ 2 <= 2 * e ^ 2 * 2 ^ (- (2 * r)).
Proof.
  intros He Ha. unfold llround_log2.
  assert (∀ x, r <= x / 2 ↔ 2 * r <= x) as -> by (intros; Z.div_mod_to_equations; lia).
  rewrite log2_quot_ge by nia. by replace (0 <=? 2 * r) with (0 <=? r) by (repeat case_bool; lia).
Qed.

(** The step [retarget] takes, from the ratio of the squared times. *)
Definition retarget_delta (actual expected : Z) : Z :=
  if 8 * actual ^ 2 <=? expected ^ 2 then 2
  else if 2 * actual ^ 2 <=? expected ^ 2 then 1
  else if actual ^ 2 <=? 2 * expected ^ 2 then 0
  else if actual ^ 2 <=? 8 * expected ^ 2 then -1
  else -2.

Lemma clamped_delta e a :
  0 < e → 0 < a →
  (if kMaxStepBits <? llround_log2 e a then kMaxStepBits
   else if llround_log2 e a <? - kMaxStepBits then - kMaxStepBits else llround_log2 e a) =
  retarget_delta a e.
Proof.
  intros He Ha. pose proof (llround_log2_ge e a 2 He Ha) as H2.
  pose proof (llround_log2_ge e a 1 He Ha) as H1. pose proof (llround_log2_ge e a 0 He Ha) as H0.
  pose proof (llround_log2_ge e a (-1) He Ha) as Hm1. simpl in H2, H1, H0, Hm1.
  change (Z.pow_pos 2 4) with 16 in H2. change (Z.pow_pos 2 2) with 4 in H1, Hm1.
  unfold retarget_delta, kMaxStepBits. repeat case_bool; lia.
Qed.

Lemma retarget_eq old actual expected :
  in_u 32 old → 0 <= actual → 0 < expected →
  retarget old actual expected =
  Z.max 0 (Z.min UINT32_MAX (old + retarget_delta (Z.max 1 actual) expected)).
Proof.
  intros Hold Ha He. unfold retarget, retarget_by. rewrite (proj2 (Z.eqb_neq expected 0)) by lia.
  replace (if actual =? 0 then 1 else actual) with (Z.max 1 actual) by (case_bool; lia).
  rewrite clamped_delta by lia.
  assert (-2 <= retarget_delta (Z.max 1 actual) expected <= 2) as Hd
    by (unfold retarget_delta; repeat case_match; lia).
  generalize dependent (retarget_delta (Z.max 1 actual) expected). intros dl Hd.
  case_bool.
  - rewrite wrap_small by solve_width. case_bool; [solve_width|]. rewrite wrap_small; solve_width.
  - case_bool; [|solve_width]. case_bool; [solve_width|].
    rewrite (wrap_small 32 (- dl)), wrap_small; solve_width.
Qed.

Lemma retarget_bounds old actual expected :
  in_u 32 old → 0 <= actual → 0 <= expected →
  old - 2 <= retarget old actual expected <= old + 2 ∧ in_u 32 (retarget old actual expected).
Proof.
  intros Hold Ha He. destruct (decide (expected = 0)) as [->|].
  { unfold retarget. simpl. solve_width. }
  rewrite retarget_eq by solve_width.
  assert (-2 <= retarget_delta (Z.max 1 actual) expected <= 2)
    by (unfold retarget_delta; repeat case_match; lia). solve_width.
Qed.

(** ** Coinbase *)

Definition total_fees (txs : list Transaction) : Z := foldr (λ tx acc, fee_ tx + acc) 0 txs.

Definition total_minted (txs : list Transaction) : Z :=
  foldr (λ tx acc, (if Tx.is_coinbase tx then amount_ tx else 0) + acc) 0 txs.

Lemma total_fees_app a b : total_fees (a ++ b) = total_fees a + total_fees b.
Proof. unfold total_fees. induction a; simpl; lia. Qed.

Lemma total_minted_app a b : total_minted (a ++ b) = total_minted a + total_minted b.
Proof. unfold total_minted. induction a; simpl; lia. Qed.

Definition no_coinbase (txs : list Transaction) : Prop :=
  Forall (λ tx, Tx.is_coinbase tx = false) txs.

Lemma total_minted_none txs : no_coinbase txs → total_minted txs = 0.
Proof. unfold total_minted. induction 1 as [|tx txs E _ IH]; [done|]. simpl. rewrite E, IH. lia. Qed.

Lemma total_fees_nonneg txs : Forall Tx.wf txs → 0 <= total_fees txs.
Proof. induction 1 as [|tx txs (_&?&_) _ IH]; simpl; [done|]. unfold total_fees in *. solve_width. Qed.

Lemma find_coinbase_found i k txs :
  find_coinbase i (Some k) txs = (if existsb Tx.is_coinbase txs then None else Some (Some k)).
Proof.
  revert i. induction txs as [|tx txs IH]; intros i; simpl; [done|].
  destruct (Tx.is_coinbase tx); simpl; [done|apply IH].
Qed.

(** What the first loop finds: nothing, one coinbase at [index], or a second one. *)
Lemma find_coinbase_spec i txs :
  match find_coinbase i None txs with
  | Some None => no_coinbase txs
  | Some (Some index) => ∃ pre cb post, txs = pre ++ cb :: post ∧ index = (i + length pre)%nat ∧
      no_coinbase pre ∧ Tx.is_coinbase cb = true ∧ no_coinbase post
  | None => ∃ pre cb mid cb' post, txs = pre ++ cb :: mid ++ cb' :: post ∧
      Tx.is_coinbase cb = true ∧ Tx.is_coinbase cb' = true
  end.
Proof.
  revert i. induction txs as [|tx txs IH]; intros i; [constructor|]. cbn [find_coinbase].
  destruct (Tx.is_coinbase tx) eqn:E.
  - rewrite find_coinbase_found. destruct (existsb _ txs) eqn:Ef.
    + apply existsb_exists in Ef as (x & Hx & Hc). apply list_elem_of_In in Hx.
      apply list_elem_of_split in Hx as (l1 & l2 & ->). by exists [], tx, l1, x, l2.
    + exists [], tx, txs. split_and!; [done|simpl; lia|constructor|done|].
      apply Forall_forall. intros x Hx. apply not_true_iff_false. intros Hc.
      apply not_true_iff_false in Ef. apply Ef, existsb_exists. exists x.
      by rewrite <- list_elem_of_In.
  - specialize (IH (S i)). destruct (find_coinbase (S i) None txs) as [[index|]|].
    + destruct IH as (pre & cb & post & -> & -> & ? & ? & ?).
      exists (tx :: pre), cb, post. split_and!; [done|simpl; lia|by constructor|done|done].
    + by constructor.
    + destruct IH as (pre & cb & mid & cb' & post & -> & ? & ?). by exists (tx :: pre), cb, mid, cb', post.
Qed.

Lemma existsb_no_coinbase txs : no_coinbase txs → existsb Tx.is_coinbase txs = false.
Proof. induction 1 as [|tx txs E _ IH]; simpl; [done|]. by rewrite E. Qed.

Lemma find_coinbase_split i pre cb post :
  no_coinbase pre → Tx.is_coinbase cb = true → no_coinbase post →
  find_coinbase i None (pre ++ cb :: post) = Some (Some (i + length pre)%nat).
Proof.
  intros Hpre Hcb Hpost. revert i. induction Hpre as [|tx pre E _ IH]; intros i; simpl.
  - by rewrite Hcb, find_coinbase_found, existsb_no_coinbase, Nat.add_0_r.
  - by rewrite E, IH, Nat.add_succ_r.
Qed.

Lemma find_coinbase_none i txs : no_coinbase txs → find_coinbase i None txs = Some None.
Proof. intros Hn. revert i. induction Hn as [|tx txs E _ IH]; intros i; simpl; [done|]. by rewrite E. Qed.

Lemma sum_fees_skip i index acc txs :
  (index < i)%nat → in_u 64 acc → sum_fees i index acc txs = u64 (acc + total_fees txs).
Proof.
  revert i acc. induction txs as [|tx txs IH]; intros i acc Hi Ha; simpl.
  { by rewrite Z.add_0_r, wrap_small. }
  case_bool; [lia|]. rewrite IH by (lia || apply u64_range). rewrite wrap_add_l by done.
  f_equal. unfold total_fees. lia.
Qed.

Lemma sum_fees_split i acc pre cb post :
  in_u 64 acc →
  sum_fees i (i + length pre) acc (pre ++ cb :: post) = u64 (acc + total_fees (pre ++ post)).
Proof.
  revert i acc. induction pre as [|tx pre IH]; intros i acc Ha; simpl.
  - rewrite Nat.add_0_r, Nat.eqb_refl. by apply sum_fees_skip; [lia|].
  - case_bool; [lia|]. replace (i + S (length pre))%nat with (S i + length pre)%nat by lia.
    rewrite IH by apply u64_range. rewrite wrap_add_l by done. f_equal. unfold total_fees. lia.
Qed.

Lemma coinbase_check pre cb post :
  let txs := pre ++ cb :: post in
  find_coinbase 0 None txs = Some (Some (length pre)) →
  validate_coinbase_amount txs = (amount_ cb <=? u64 (mining_reward + total_fees (pre ++ post))).
Proof.
  intros txs E. unfold validate_coinbase_amount. rewrite E. subst txs.
  rewrite list_lookup_middle by done.
  replace (sum_fees 0 (length pre) 0 _) with (u64 (0 + total_fees (pre ++ post)))
    by (symmetry; by apply (sum_fees_split 0)).
  by rewrite wrap_add_r.
Qed.

(** ** Time *)

Lemma merge_sort_Sorted (l : list Z) : Sorted Z.le (merge_sort Z.le l).
Proof. apply Sorted_merge_sort; apply _. Qed.

Lemma StronglySorted_lookup_le (l : list Z) i j x y :
  StronglySorted Z.le l → l !! i = Some x → l !! j = Some y → (i <= j)%nat → x <= y.
Proof.
  intros Hs. revert i j. induction Hs as [|z l Hs IH Hall]; intros i j Hi Hj Hij; [done|].
  destruct i as [|i], j as [|j]; simpl in *; simplify_eq; [lia| |lia|eapply IH; eauto; lia].
  rewrite Forall_forall in Hall. apply Hall. by eapply list_elem_of_lookup_2.
Qed.

(** In a sorted list the elements up to position [k] are at most the [k]-th. *)
Lemma sorted_count_le (l : list Z) k m :
  StronglySorted Z.le l → l !! k = Some m →
  (k < length (filter (λ t, (t <= m)%Z) l))%nat ∧
  (length l - k <= length (filter (λ t, (m <= t)%Z) l))%nat.
Proof.
  intros Hs Hk. pose proof (lookup_lt_Some _ _ _ Hk) as Hlt.
  split.
  - rewrite <- (take_drop (S k) l), filter_app, length_app, (filter_all _ (take (S k) l)).
    + rewrite length_take. lia.
    + intros x (i & Hi)%list_elem_of_lookup. apply lookup_take_Some in Hi as [Hi ?].
      eapply StronglySorted_lookup_le; eauto. lia.
  - rewrite <- (take_drop k l) at 2. rewrite filter_app, length_app, (filter_all _ (drop k l)).
    + rewrite length_drop. lia.
    + intros x (i & Hi)%list_elem_of_lookup. rewrite lookup_drop in Hi.
      eapply StronglySorted_lookup_le; eauto. lia.
Qed.

(** Blocks no later than [m] are among those strictly before any [t > m]. *)
Lemma count_lt (blocks : list Block) m t :
  m < t →
  (length (filter (λ x, (x <= m)%Z) (timestamp_ <$> blocks)) <=
   length (filter (λ b, (timestamp_ b < t)%Z) blocks))%nat.
Proof.
  intros Hlt. induction blocks as [|b blocks IH]; [done|].
  rewrite fmap_cons, !filter_cons. repeat case_decide; simpl; lia.
Qed.

Lemma mapM_result_length {A B} (f : A → result B) l k :
  mapM f l = Ok k → length k = length l.
Proof.
  revert k. induction l as [|x l IH]; intros k; simpl; [by intros [= <-]|].
  intros (y & _ & (ys & E & [= <-])%bind_Ok)%bind_Ok. simpl. f_equal. by apply IH.
Qed.

Lemma mapM_result_elem {A B} (f : A → result B) l k y :
  mapM f l = Ok k → y ∈ k → ∃ x, x ∈ l ∧ f x = Ok y.
Proof.
  revert k. induction l as [|x l IH]; intros k; simpl; [by intros [= <-] ?%elem_of_nil|].
  intros (z & Ez & (zs & E & [= <-])%bind_Ok)%bind_Ok [->|Hy]%elem_of_cons.
  - exists x. split; [left|done].
  - destruct (IH zs E Hy) as (x' & ? & ?). exists x'. split; [by right|done].
Qed.

(** The median is 0 or one of the chain's timestamps. *)
Lemma median_time_past_elem height window block_at m :
  median_time_past height window block_at = Ok m →
  m = 0 ∨ ∃ i b, block_at i = Ok b ∧ m = timestamp_ b.
Proof.
  unfold median_time_past. destruct (_ || _); [intros [= <-]; by left|].
  intros (blocks & E & Hm%of_option_Ok)%bind_Ok. right. apply list_elem_of_lookup_2 in Hm.
  rewrite merge_sort_Permutation in Hm. apply list_elem_of_fmap in Hm as (b & -> & Hb).
  destruct (mapM_result_elem _ _ _ _ E Hb) as (i & _ & Hi). eauto.
Qed.

Lemma mapM_ext_elem {A B} (f g : A → result B) l :
  (∀ x, x ∈ l → f x = g x) → mapM f l = mapM g l.
Proof.
  induction l as [|x l IH]; intros Hfg; simpl; [done|]. rewrite (Hfg x) by left.
  destruct (g x); simpl; [|done]. rewrite IH; [done|]. intros y Hy. apply Hfg. by right.
Qed.

(** The rules at a height look only at the blocks below it. *)
Lemma median_time_past_ext height window f g :
  (∀ i, (i < height)%nat → f i = g i) →
  median_time_past height window f = median_time_past height window g.
Proof.
  intros Hfg. unfold median_time_past. case_match; [done|].
  rewrite (mapM_ext_elem f g); [done|]. intros i Hi%elem_of_seq. apply Hfg.
  destruct (Nat.ltb_spec window height); lia.
Qed.

Lemma timestamp_is_valid_ext block height now params f g :
  (∀ i, (i < height)%nat → f i = g i) →
  timestamp_is_valid block height now params f = timestamp_is_valid block height now params g.
Proof.
  intros Hfg. unfold timestamp_is_valid. case_match; [done|]. by rewrite (median_time_past_ext _ _ f g).
Qed.

Lemma next_difficulty_ext height params f g :
  (∀ i, (i < height)%nat → f i = g i) →
  next_difficulty height params f = next_difficulty height params g.
Proof.
  intros Hfg. unfold next_difficulty. destruct (Nat.ltb_spec (retarget_interval params) 2); [done|].
  destruct (Nat.leb_spec height (retarget_interval params)); [done|]. cbn [orb].
  rewrite (Hfg (height - 1)%nat), (Hfg (height - retarget_interval params)%nat) by lia. done.
Qed.

(** The window of timestamps the median is taken over. *)
Definition mtp_blocks (height window : nat) (block_at : nat → result Block) : result (list Block) :=
  mapM block_at (seq (height - window) (height - (height - window))).

Lemma median_time_past_median height window block_at blocks :
  (0 < height)%nat → (0 < window)%nat → mtp_blocks height window block_at = Ok blocks →
  ∃ m, median_time_past height window block_at = Ok m ∧ m ∈ timestamp_ <$> blocks ∧
    let ts := timestamp_ <$> blocks in
    (length ts / 2 < length (filter (λ t, (t <= m)%Z) ts))%nat ∧
    (length ts - length ts / 2 <= length (filter (λ t, (m <= t)%Z) ts))%nat.
Proof.
  intros Hh Hw E. unfold median_time_past, mtp_blocks in *.
  rewrite (proj2 (Nat.eqb_neq height 0)), (proj2 (Nat.eqb_neq window 0)) by lia. cbn [orb].
  replace (if (window <? height)%nat then (height - window)%nat else 0%nat)
    with (height - window)%nat by (case_bool; lia).
  rewrite E. cbn [mbind result_bind].
  pose proof (merge_sort_Permutation Z.le (timestamp_ <$> blocks)) as Hp.
  pose proof (merge_sort_Sorted (timestamp_ <$> blocks)) as Hs.
  apply (Sorted_StronglySorted _) in Hs.
  pose proof (Permutation_length Hp) as Hl. rewrite length_fmap in Hl.
  apply mapM_result_length in E. rewrite length_seq in E.
  destruct (lookup_lt_is_Some_2 (merge_sort Z.le (timestamp_ <$> blocks))
    (length (merge_sort Z.le (timestamp_ <$> blocks)) / 2)) as [m Hm].
  { apply Nat.div_lt; lia. }
  exists m. rewrite Hm. split; [done|]. cbv zeta. split.
  - rewrite <- Hp. by eapply list_elem_of_lookup_2.
  - destruct (sorted_count_le _ _ _ Hs Hm) as [H1 H2]. rewrite Hp in H1, H2. done.
Qed.

(** ** Properties *)

(** C27. The bit-by-bit test is the numeric target: a 32-byte hash meets difficulty [d]
    exactly when [d <= 256] and the hash, read as a 256-bit big-endian integer, is below
    [2^(256 - d)]. *)
Theorem meets_target_numeric h d :
  hash_wf h → 0 <= d →
  meets_target h d = true ↔ d <= 256 ∧ be_value h < 2 ^ (256 - d).
Proof.
  intros Hh Hd. rewrite meets_target_clz, Z.leb_le, clz_le_iff by done.
  unfold hash_wf, sz in *. by rewrite Hh.
Qed.

(** Retargeting moves the difficulty by the nearest whole number of bits to
    [log2 (expected / actual)], at most two either way, saturating at 0 and 2^32 - 1; a
    zero elapsed time counts as one second and a zero expected time changes nothing. *)
Theorem retarget_spec old actual expected :
  in_u 32 old → in_u 64 actual → in_u 64 expected →
  retarget old actual expected =
  if expected =? 0 then old
  else Z.max 0 (Z.min UINT32_MAX (old + retarget_delta (Z.max 1 actual) expected)).
Proof.
  intros Ho Ha He. case_bool; [by subst|].
  apply retarget_eq; [done|solve_width..].
Qed.

(** The difficulty schedule: past the first interval the difficulty is the parent's
    except at multiples of the interval, where it moves by at most two bits and never
    falls below the network minimum. *)
Theorem next_difficulty_schedule height params block_at d :
  (2 <= retarget_interval params)%nat → (retarget_interval params < height)%nat →
  (∀ i b, block_at i = Ok b → in_u 32 (difficulty_ b) ∧ in_u 64 (timestamp_ b)) →
  next_difficulty height params block_at = Ok d →
  ∃ parent, block_at (height - 1)%nat = Ok parent ∧
    if (height mod retarget_interval params =? 0)%nat
    then min_difficulty params <= d ∧
         Z.max (min_difficulty params) (difficulty_ parent - 2) <= d <=
         Z.max (min_difficulty params) (difficulty_ parent + 2)
    else d = difficulty_ parent.
Proof.
  intros Hi Hh Hat. unfold next_difficulty.
  rewrite (proj2 (Nat.ltb_ge _ _) Hi), (proj2 (Nat.leb_gt _ _) Hh). cbn [orb].
  intros (parent & Hp & E)%bind_Ok. exists parent. split; [done|].
  destruct (_ mod _ =? 0)%nat; cbn [negb] in E; [|by injection E as <-].
  apply bind_Ok in E as (first & Hf & [= <-]).
  destruct (Hat _ _ Hp) as [Hd Ht], (Hat _ _ Hf) as [_ Hft].
  pose proof (u64_range (Z.of_nat (retarget_interval params - 1) * target_block_time params)).
  edestruct (retarget_bounds (difficulty_ parent)
    (if timestamp_ first <? timestamp_ parent then timestamp_ parent - timestamp_ first else 0)) as [Hb _];
    [done|case_bool; solve_width|eapply proj1; exact H|]. lia.
Qed.

(** C29. The coinbase rule bounds issuance: an accepted list has at most one coinbase,
    which mints at most the reward plus the fees of the other transactions, as exact
    integers (the 64-bit sum can only wrap downwards); conversely a list with at most
    one coinbase within that bound is accepted when the sum fits 64 bits. *)
Theorem coinbase_rule txs :
  Forall Tx.wf txs →
  (validate_coinbase_amount txs = true →
   no_coinbase txs ∨
   ∃ pre cb post, txs = pre ++ cb :: post ∧ no_coinbase pre ∧ Tx.is_coinbase cb = true ∧
     no_coinbase post ∧ total_minted txs <= mining_reward + total_fees (pre ++ post)) ∧
  (no_coinbase txs → validate_coinbase_amount txs = true) ∧
  (∀ pre cb post, txs = pre ++ cb :: post →
     no_coinbase pre → Tx.is_coinbase cb = true → no_coinbase post →
     amount_ cb <= mining_reward + total_fees (pre ++ post) < 2 ^ 64 →
     validate_coinbase_amount txs = true).
Proof.
  intros Hw. split_and!.
  - intros Hv. pose proof (find_coinbase_spec 0 txs) as Hf.
    unfold validate_coinbase_amount in Hv.
    destruct (find_coinbase 0 None txs) as [[index|]|] eqn:E; [|by left|done].
    right. destruct Hf as (pre & cb & post & -> & -> & Hpre & Hcb & Hpost).
    exists pre, cb, post. split_and!; [done..|].
    pose proof (coinbase_check pre cb post E) as Hc. unfold validate_coinbase_amount in Hc.
    rewrite E, Hv in Hc. symmetry in Hc. apply Z.leb_le in Hc.
    rewrite total_minted_app, total_minted_none by done. cbn [total_minted foldr].
    rewrite Hcb. change (foldr _ 0 post) with (total_minted post). rewrite total_minted_none by done.
    apply Forall_app in Hw as [Hw1 Hw2]. apply Forall_cons in Hw2 as [_ Hw2].
    assert (0 <= total_fees (pre ++ post)) by (apply total_fees_nonneg, Forall_app; done).
    assert (u64 (mining_reward + total_fees (pre ++ post)) <= mining_reward + total_fees (pre ++ post))
      by (apply Z.mod_le; unfold mining_reward; lia). lia.
  - intros Hn. unfold validate_coinbase_amount. by rewrite find_coinbase_none.
  - intros pre cb post -> Hpre Hcb Hpost Hb. rewrite coinbase_check by by apply find_coinbase_split.
    apply Forall_app in Hw as [Hw1 Hw2]. apply Forall_cons in Hw2 as [_ Hw2].
    assert (0 <= total_fees (pre ++ post)) by (apply total_fees_nonneg, Forall_app; done).
    apply Z.leb_le. rewrite wrap_small; [lia|]. unfold mining_reward in *. solve_width.
Qed.

(** The timestamp rule: a block is accepted exactly when it is at most the allowed
    drift in the future and strictly later than the median time past; it is then strictly
    later than more than half of the blocks in the window. *)
Theorem timestamp_rule block height now params block_at blocks :
  (0 < height)%nat → (0 < mtp_window params)%nat →
  mtp_blocks height (mtp_window params) block_at = Ok blocks →
  ∃ m, median_time_past height (mtp_window params) block_at = Ok m ∧ m ∈ timestamp_ <$> blocks ∧
    ∃ v, timestamp_is_valid block height now params block_at = Ok v ∧
    (v = true ↔ (timestamp_ block <= now ∨ timestamp_ block <= now + max_future_drift params) ∧
                 m < timestamp_ block) ∧
    (v = true → (length blocks / 2 < length (filter (λ b, (timestamp_ b < timestamp_ block)%Z) blocks))%nat).
Proof.
  intros Hh Hw E. destruct (median_time_past_median _ _ _ _ Hh Hw E) as (m & Em & Hin & Hc & _).
  exists m. split_and!; [done..|]. unfold timestamp_is_valid. rewrite Em, length_fmap in *.
  cbn [mbind result_bind].
  assert (m < timestamp_ block → (length blocks / 2 <
    length (filter (λ b, (timestamp_ b < timestamp_ block)%Z) blocks))%nat) as Hcount.
  { intros Hlt. pose proof (count_lt blocks m (timestamp_ block) Hlt). lia. }
  destruct (Z.ltb_spec now (timestamp_ block)), (Z.ltb_spec (max_future_drift params) (timestamp_ block - now));
    cbn [andb]; try destruct (Z.leb_spec (timestamp_ block) m); eexists; (split; [done|]);
    (split; [|try done; intros; apply Hcount; lia]);
    (split; [try done; lia|intros [? ?]; try lia; done]).
Qed.

(** ** Witnesses *)
Section witnesses.
#[local] Existing Instance demo_crypto.

(** A chain whose blocks are ten seconds apart, all of difficulty 18. *)
Definition demo_block_at (i : nat) : result Block :=
  Ok (Blk.set_difficulty 18 (Blk.make 1 (le 32 0) (10 * Z.of_nat i) [])).

Definition demo_prev : HashBytes := le 32 0.

Lemma mine_block_first_solution_witness :
  match mine_block 1 demo_prev 1000 2 [] with
  | Ok b => ∃ nonce, 0 <= nonce < kMaxNonce ∧ b = seal (attempt 1 demo_prev 1000 2 [] 0 nonce) ∧
      meets_target (hash_ b) 2 = true ∧ hash_ b = Blk.compute_hash b ∧
      ∀ n, 0 <= n < nonce → solved (attempt 1 demo_prev 1000 2 [] 0 n) = false
  | Throw e => e = RuntimeError ∧
      ∀ n, 0 <= n < kMaxNonce → solved (attempt 1 demo_prev 1000 2 [] 0 n) = false
  end.
Proof. apply (mine_block_first_solution 1 demo_prev 1000 2 []). by vm_compute. Defined.

Lemma mine_block_until_first_solution_witness :
  let stop := Some (λ bumps nonce, 65535 <=? nonce) in
  match mine_block_until 1 demo_prev 1000 2 [] stop with
  | Some b => ∃ bumps nonce, 0 <= bumps <= kMaxTimestampBumps ∧ 0 <= nonce < kMaxNonce ∧
      b = seal (attempt 1 demo_prev 1000 2 [] bumps nonce) ∧
      meets_target (hash_ b) 2 = true ∧ hash_ b = Blk.compute_hash b ∧
      (∀ b' n, 0 <= n < kMaxNonce → before b' n bumps nonce →
        solved (attempt 1 demo_prev 1000 2 [] b' n) = false ∧ asks_stop stop b' n = false) ∧
      asks_stop stop bumps nonce = false
  | None =>
      (∃ bumps nonce, 0 <= bumps <= kMaxTimestampBumps ∧ 0 <= nonce < kMaxNonce ∧ asks_stop stop bumps nonce = true ∧
        ∀ b' n, 0 <= n < kMaxNonce → before b' n bumps nonce →
          solved (attempt 1 demo_prev 1000 2 [] b' n) = false ∧ asks_stop stop b' n = false) ∨
      ∀ bumps n, 0 <= bumps <= kMaxTimestampBumps → 0 <= n < kMaxNonce →
        solved (attempt 1 demo_prev 1000 2 [] bumps n) = false ∧ asks_stop stop bumps n = false
  end.
Proof. intros stop. apply (mine_block_until_first_solution 1 demo_prev 1000 2 [] stop). by vm_compute. Defined.

Lemma meets_target_numeric_witness :
  meets_target (Byte.x00 :: Byte.x0f :: replicate 30 Byte.xff) 12 = true ↔
  12 <= 256 ∧ be_value (Byte.x00 :: Byte.x0f :: replicate 30 Byte.xff) < 2 ^ (256 - 12).
Proof. apply (meets_target_numeric _ 12); [by vm_compute|lia]. Defined.

Lemma retarget_spec_witness :
  retarget 18 95 19 =
  if 19 =? 0 then 18
  else Z.max 0 (Z.min UINT32_MAX (18 + retarget_delta (Z.max 1 95) 19)).
Proof. apply (retarget_spec 18 95 19); by vm_compute. Defined.

Lemma next_difficulty_schedule_witness :
  ∃ parent, demo_block_at 39 = Ok parent ∧
    if (40 mod retarget_interval kMainParams =? 0)%nat
    then min_difficulty kMainParams <= 18 ∧
         Z.max (min_difficulty kMainParams) (difficulty_ parent - 2) <= 18 <=
         Z.max (min_difficulty kMainParams) (difficulty_ parent + 2)
    else 18 = difficulty_ parent.
Proof.
  apply (next_difficulty_schedule 40 kMainParams
    (λ i, if (i <? 1000)%nat then demo_block_at i else Throw OutOfRange) 18); simpl; [lia..| |reflexivity].
  intros i b. case_bool; [|done]. intros [= <-]. simpl. split; solve_width.
Defined.

Definition demo_txs : list Transaction := [demo_coinbase "miner" 53; demo_pay "alice" "bob" 5 3 0].

Lemma coinbase_rule_witness :
  no_coinbase demo_txs ∨
   ∃ pre cb post, demo_txs = pre ++ cb :: post ∧ no_coinbase pre ∧ Tx.is_coinbase cb = true ∧
     no_coinbase post ∧ total_minted demo_txs <= mining_reward + total_fees (pre ++ post).
Proof.
  apply (coinbase_rule demo_txs); [|by vm_compute].
  repeat constructor; by vm_compute.
Defined.

Lemma timestamp_rule_witness :
  let blocks := match mtp_blocks 3 11 demo_block_at with Ok l => l | Throw _ => [] end in
  let block := Blk.make 1 demo_prev 25 [] in
  ∃ m, median_time_past 3 11 demo_block_at = Ok m ∧ m ∈ timestamp_ <$> blocks ∧
    ∃ v, timestamp_is_valid block 3 0 kMainParams demo_block_at = Ok v ∧
    (v = true ↔ (timestamp_ block <= 0 ∨ timestamp_ block <= 0 + max_future_drift kMainParams) ∧
                 m < timestamp_ block) ∧
    (v = true → (length blocks / 2 < length (filter (λ b, (timestamp_ b < timestamp_ block)%Z) blocks))%nat).
Proof.
  apply (timestamp_rule (Blk.make 1 demo_prev 25 []) 3 0 kMainParams demo_block_at);
    [simpl; lia|simpl; lia|reflexivity].
Defined.
End witnesses.
End Pow.

(** From here on the miners are used through their specifications. *)
#[global] Opaque Pow.mine_block Pow.mine_block_until.
