(* ===== verification/Retarget.v ===== *)
(** * The logarithm of a retarget (src/consensus/ProofOfWork.cpp)

    [retarget] divides two doubles and rounds the [std::log2] of the quotient to the nearest
    integer. The model takes the exact logarithm. Here the double is an argument: a rational
    [num / den] that is only known to be within 1/4000 of the logarithm. For the periods of
    the two networks no elapsed time comes that close to where the rounding changes, so the
    outcome is that of the exact logarithm. *)

From S2P Require Import Prelude Codec Crypto Transaction Block ProofOfWork.

Module Rt.

(** [std::llround]: to the nearest integer, halfway cases away from zero. *)
Definition llround (num den : Z) : Z :=
  if 0 <=? num then (2 * num + den) / (2 * den) else - ((- 2 * num + den) / (2 * den)).

(** [x / y <= 2 ^ k], for any sign of [k]. *)
Definition below_pow2 (x y k : Z) : Prop := x * 2 ^ Z.max 0 (- k) <= y * 2 ^ Z.max 0 k.

(** [num / den] is within 1/4000 of the base-2 logarithm of [e / a]. *)
Definition near_log2 (e a num den : Z) : Prop :=
  below_pow2 (e ^ (4000 * den)) (a ^ (4000 * den)) (4000 * num + den) ∧
  below_pow2 (a ^ (4000 * den)) (e ^ (4000 * den)) (den - 4000 * num).

(** The period a network expects for an interval. *)
Definition expected_time (params : ConsensusParams) : Z :=
  u64 (Z.of_nat (retarget_interval params - 1) * target_block_time params).

(** ** Where the rounding changes

    The logarithm of [e / a] reaches [h / 2] when [2 ^ h * a ^ 2 <= e ^ 2]; both sides with
    their powers of two, for any sign of [h]. *)
Definition low (h a : Z) : Z := 2 ^ Z.max 0 h * a ^ 2.
Definition high (h e : Z) : Z := 2 ^ Z.max 0 (- h) * e ^ 2.

(** The two sides differ by a thousandth at least. *)
Definition apart (h e a : Z) : Prop :=
  if low h a <=? high h e then low h a <= 1000 * (high h e - low h a)
  else high h e <= 1000 * (low h a - high h e).

(** Bernoulli's inequality for [(r / l) ^ n]. *)
Lemma bernoulli n l r : 0 <= n → 0 < l <= r → l ^ n * (l + n * (r - l)) <= l * r ^ n.
Proof.
  intros Hn Hl. revert n Hn. apply natlike_ind.
  { rewrite !Z.pow_0_r. lia. }
  intros m Hm IH. rewrite !Z.pow_succ_r by done. assert (0 < l ^ m) by (apply Z.pow_pos_nonneg; lia).
  transitivity (r * (l ^ m * (l + m * (r - l)))).
  - replace (r * (l ^ m * (l + m * (r - l))))
      with (l * l ^ m * (l + Z.succ m * (r - l)) + l ^ m * (m * ((r - l) * (r - l)))) by (unfold Z.succ; ring).
    assert (0 <= l ^ m * (m * ((r - l) * (r - l)))); [|lia]. repeat apply Z.mul_nonneg_nonneg; lia.
  - transitivity (r * (l * r ^ m)); [|lia]. apply Z.mul_le_mono_nonneg_l; lia.
Qed.

Definition pow1000 (x : Z) : Z := x ^ 1000.

Lemma pow1000_pos x : 0 < x → 0 < pow1000 x.
Proof. intros Hx. by apply Z.pow_pos_nonneg. Qed.

Lemma pow1000_mul x d : 0 <= d → x ^ (1000 * d) = pow1000 x ^ d.
Proof. intros Hd. by apply Z.pow_mul_r. Qed.

(** A thousandth more is twice as much at the power 1000. *)
Lemma apart_pow1000 l r : 0 < l → l <= 1000 * (r - l) → 2 * pow1000 l <= pow1000 r.
Proof.
  intros Hl Hd. assert (pow1000 l * (l + 1000 * (r - l)) <= l * pow1000 r) as Hb by (apply bernoulli; lia).
  pose proof (pow1000_pos l Hl). generalize dependent (pow1000 r). generalize dependent (pow1000 l).
  intros x Hx y Hb. assert (x * (2 * l) <= x * (l + 1000 * (r - l))) by (apply Z.mul_le_mono_nonneg_l; lia). nia.
Qed.

Lemma pow2_le_inv x y : 0 <= x → 0 <= y → 2 ^ x <= 2 ^ y → x <= y.
Proof. intros Hx Hy E. by apply (Z.pow_le_mono_r_iff 2). Qed.

(** Two bounds on the same quotient compare their exponents. *)
Lemma exponents_le x y k m1 m2 :
  0 < y → 0 <= m1 → 0 <= m2 → below_pow2 x y k → y * 2 ^ m1 <= x * 2 ^ m2 → m1 - m2 <= k.
Proof.
  intros Hy H1 H2 Hb Hle. unfold below_pow2 in Hb.
  assert (2 ^ (m1 + Z.max 0 (- k)) <= 2 ^ (m2 + Z.max 0 k)) as Hp.
  { rewrite !Z.pow_add_r by lia. apply (Z.mul_le_mono_pos_l _ _ y); [done|].
    assert (0 < 2 ^ m2) by (apply Z.pow_pos_nonneg; lia).
    assert (0 < 2 ^ Z.max 0 (- k)) by (apply Z.pow_pos_nonneg; lia). nia. }
  apply pow2_le_inv in Hp; lia.
Qed.

Lemma apart_pow l r d :
  0 < l → 0 < d → l <= 1000 * (r - l) → 2 ^ (2 * d) * l ^ (2000 * d) <= r ^ (2000 * d).
Proof.
  intros Hl Hd Hg. replace (2000 * d) with (1000 * (2 * d)) by lia. rewrite !pow1000_mul by lia.
  rewrite <- Z.pow_mul_l. apply Z.pow_le_mono_l. pose proof (pow1000_pos l Hl).
  pose proof (apart_pow1000 l r Hl Hg). lia.
Qed.

Lemma pow_split m x d : 0 <= m → 0 < d → (2 ^ m * x ^ 2) ^ (2000 * d) = x ^ (4000 * d) * 2 ^ (2000 * (d * m)).
Proof.
  intros Hm Hd. rewrite Z.pow_mul_l, <- !Z.pow_mul_r by lia.
  replace (2 * (2000 * d)) with (4000 * d) by lia. replace (m * (2000 * d)) with (2000 * (d * m)) by lia. lia.
Qed.

Lemma max_signs h d : d * Z.max 0 h - d * Z.max 0 (- h) = h * d.
Proof. rewrite <- Z.mul_sub_distr_l. replace (Z.max 0 h - Z.max 0 (- h)) with h by lia. lia. Qed.

Section near.
Context (e a num den : Z).
Hypothesis He : 0 < e.
Hypothesis Ha : 0 < a.
Hypothesis Hden : 0 < den.
Hypothesis Hnear : near_log2 e a num den.

Lemma near_above h : low h a <= 1000 * (high h e - low h a) → h * den < 2 * num.
Proof.
  intros Hg. unfold low, high in Hg. destruct Hnear as [Hup _].
  apply (apart_pow _ _ den) in Hg; [|apply Z.mul_pos_pos; apply Z.pow_pos_nonneg; lia|done].
  rewrite !pow_split in Hg by lia.
  assert (2 * den + 2000 * (den * Z.max 0 h) - 2000 * (den * Z.max 0 (- h)) <= 4000 * num + den) as Hle.
  { eapply exponents_le; [|nia|nia|exact Hup|]; [apply Z.pow_pos_nonneg; lia|].
    rewrite Z.pow_add_r by nia. etransitivity; [|exact Hg]. apply Z.eq_le_incl. ring. }
  pose proof (max_signs h den). lia.
Qed.

Lemma near_below h : high h e <= 1000 * (low h a - high h e) → 2 * num < h * den.
Proof.
  intros Hg. unfold low, high in Hg. destruct Hnear as [_ Hlo].
  apply (apart_pow _ _ den) in Hg; [|apply Z.mul_pos_pos; apply Z.pow_pos_nonneg; lia|done].
  rewrite !pow_split in Hg by lia.
  assert (2 * den + 2000 * (den * Z.max 0 (- h)) - 2000 * (den * Z.max 0 h) <= den - 4000 * num) as Hle.
  { eapply exponents_le; [|nia|nia|exact Hlo|]; [apply Z.pow_pos_nonneg; lia|].
    rewrite Z.pow_add_r by nia. etransitivity; [|exact Hg]. apply Z.eq_le_incl. ring. }
  pose proof (max_signs h den). lia.
Qed.

Lemma near_side h : apart h e a → if low h a <=? high h e then h * den < 2 * num else 2 * num < h * den.
Proof. unfold apart. case_match; [apply near_above|apply near_below]. Qed.
End near.

(** Which elapsed times are apart: up to [r] on one side, above on the other. *)
Lemma apart_root h e r a :
  0 < a → 0 <= r →
  low h r <= 1000 * (high h e - low h r) → high h e <= 1000 * (low h (r + 1) - high h e) → apart h e a.
Proof.
  intros Ha Hr Hlo Hhi. assert (0 < 2 ^ Z.max 0 h) as Hp by (apply Z.pow_pos_nonneg; lia).
  assert (∀ x y, 0 <= x <= y → 0 <= low h x <= low h y) as Hmono.
  { intros x y Hxy. unfold low. pose proof (Z.pow_le_mono_l x y 2 Hxy). pose proof (Z.pow_nonneg x 2 ltac:(lia)). nia. }
  assert (0 <= high h e) by (unfold high; pose proof (Z.pow_nonneg 2 (Z.max 0 (- h)) ltac:(lia)); nia).
  unfold apart. destruct (Z.le_gt_cases a r) as [Hle|Hgt].
  - specialize (Hmono a r ltac:(lia)). case_bool; lia.
  - specialize (Hmono (r + 1) a ltac:(lia)). case_bool; lia.
Qed.

Lemma llround_spec num den :
  0 < den → (2 * llround num den - 1) * den <= 2 * num <= (2 * llround num den + 1) * den.
Proof.
  intros Hd. unfold llround. case_bool.
  - pose proof (Z.div_mod (2 * num + den) (2 * den) ltac:(lia)).
    pose proof (Z.mod_pos_bound (2 * num + den) (2 * den) ltac:(lia)). nia.
  - pose proof (Z.div_mod (- 2 * num + den) (2 * den) ltac:(lia)).
    pose proof (Z.mod_pos_bound (- 2 * num + den) (2 * den) ltac:(lia)). nia.
Qed.

(** Rounding a value on the right side of the four half-integers. *)
Lemma near_delta e a num den :
  0 < e → 0 < a → 0 < den → near_log2 e a num den →
  (∀ h, h ∈ [3; 1; -1; -3] → apart h e a) →
  Z.max (-2) (Z.min 2 (llround num den)) = Pow.retarget_delta a e.
Proof.
  intros He Ha Hd Hn Hap. pose proof (llround_spec num den Hd) as Hr.
  assert (∀ h, h ∈ [3; 1; -1; -3] → if low h a <=? high h e then h < 2 * llround num den + 1 else 2 * llround num den - 1 < h)
    as Hside.
  { intros h Hh. pose proof (near_side e a num den He Ha Hd Hn h (Hap h Hh)) as Hs. case_match; nia. }
  pose proof (Hside 3 ltac:(set_solver)) as S3. pose proof (Hside 1 ltac:(set_solver)) as S1.
  pose proof (Hside (-1) ltac:(set_solver)) as Sm1. pose proof (Hside (-3) ltac:(set_solver)) as Sm3.
  clear Hside Hap Hn Hr. unfold low, high, Pow.retarget_delta in *. generalize dependent (a ^ 2). generalize dependent (e ^ 2).
  intros x y S3 S1 Sm1 Sm3. change (2 ^ Z.max 0 3) with 8 in S3. change (2 ^ Z.max 0 1) with 2 in S1.
  change (2 ^ Z.max 0 (- (3))) with 1 in S3. change (2 ^ Z.max 0 (- (1))) with 1 in S1.
  change (2 ^ Z.max 0 (-1)) with 1 in Sm1. change (2 ^ Z.max 0 (-3)) with 1 in Sm3.
  change (2 ^ Z.max 0 (- -1)) with 2 in Sm1. change (2 ^ Z.max 0 (- -3)) with 8 in Sm3.
  repeat case_bool; lia.
Qed.

Lemma networks_apart params h a :
  params = kMainParams ∨ params = kTestParams → h ∈ [3; 1; -1; -3] → 0 < a → apart h (expected_time params) a.
Proof.
  intros Hp Hh Ha. rewrite !elem_of_cons in Hh.
  destruct Hp as [->| ->]; destruct Hh as [->|[->|[->|[->|[]%elem_of_nil]]]];
    [apply (apart_root _ _ 6)|apply (apart_root _ _ 13)|apply (apart_root _ _ 26)|apply (apart_root _ _ 53)
    |apply (apart_root _ _ 67)|apply (apart_root _ _ 134)|apply (apart_root _ _ 268)|apply (apart_root _ _ 537)];
    first [exact Ha | apply Z.leb_le; vm_compute; reflexivity].
Qed.

(** C28. Retargeting moves the difficulty by the nearest whole number of bits to
    [log2 (expected / actual)], at most two either way, saturating at 0 and 2^32 - 1, and the
    floating-point logarithm does no harm: on both networks, for every elapsed time and every
    difficulty, if the double that [std::log2] returns for the quotient of the expected and
    the elapsed time is within 1/4000 of the true logarithm, then rounding it with
    [std::llround] gives that same difficulty. A zero elapsed time counts as one second. *)
Theorem retarget_tolerates_rounding params old actual num den :
  params = kMainParams ∨ params = kTestParams → in_u 32 old → in_u 64 actual → 0 < den →
  near_log2 (expected_time params) (Z.max 1 actual) num den →
  Pow.retarget_by old (llround num den) = Pow.retarget old actual (expected_time params) ∧
  Pow.retarget old actual (expected_time params) =
    Z.max 0 (Z.min UINT32_MAX (old + Pow.retarget_delta (Z.max 1 actual) (expected_time params))).
Proof.
  intros Hp Hold Hact Hden Hn. assert (0 < expected_time params) as He by by destruct Hp as [->| ->].
  split; [|apply Pow.retarget_eq; [done|unfold in_u in Hact; lia|done]].
  pose proof (near_delta (expected_time params) (Z.max 1 actual) num den He ltac:(lia) Hden Hn
    (λ h Hh, networks_apart params h (Z.max 1 actual) Hp Hh ltac:(lia))) as Hd.
  pose proof (Pow.clamped_delta (expected_time params) (Z.max 1 actual) He ltac:(lia)) as Hc.
  unfold Pow.retarget. rewrite (proj2 (Z.eqb_neq (expected_time params) 0)) by lia.
  replace (if actual =? 0 then 1 else actual) with (Z.max 1 actual) by (unfold in_u in Hact; case_bool; lia).
  unfold Pow.retarget_by. rewrite Hc, <- Hd.
  replace (if Pow.kMaxStepBits <? llround num den then _ else _) with (Z.max (-2) (Z.min 2 (llround num den)));
    [done|]. unfold Pow.kMaxStepBits. repeat case_bool; lia.
Qed.

(** Half the expected time: the logarithm is 1. *)
Lemma half_near : near_log2 190 (Z.max 1 95) 1 1.
Proof.
  change 190 with (95 * 2). change (Z.max 1 95) with 95. split; unfold below_pow2; rewrite Z.pow_mul_l.
  - rewrite <- Z.mul_assoc, <- Z.pow_add_r by lia.
    apply Z.mul_le_mono_nonneg_l; [by apply Z.pow_nonneg|]. apply Z.pow_le_mono_r; lia.
  - rewrite <- Z.mul_assoc, <- Z.pow_add_r by lia.
    apply Z.mul_le_mono_nonneg_l; [by apply Z.pow_nonneg|]. apply Z.pow_le_mono_r; lia.
Qed.

Lemma retarget_tolerates_rounding_witness :
  Pow.retarget_by 18 (llround 1 1) = Pow.retarget 18 95 (expected_time kTestParams) ∧
  Pow.retarget 18 95 (expected_time kTestParams) =
    Z.max 0 (Z.min UINT32_MAX (18 + Pow.retarget_delta (Z.max 1 95) (expected_time kTestParams))).
Proof.
  apply (retarget_tolerates_rounding kTestParams 18 95 1 1); [by right|done|done|done|]. exact half_near.
Defined.
End Rt.
