(* ===== verification/Blockchain.v ===== *)
(** * The active chain (src/core/Blockchain.cpp)

    The blocks by height and the index from hash to height, with the operations that
    extend the chain, look it up, classify a new block and swap its tail for a fork. *)

From S2P Require Import Prelude Codec Crypto Demo Transaction Block.

Inductive BlockValidation := Valid | Invalid | ForkCandidate.

#[global] Instance BlockValidation_eq_decision : EqDecision BlockValidation.
Proof. solve_decision. Defined.

Record ForkChain := mkForkChain { fork_blocks : list Block; common_ancestor : Block }.

Record Blockchain := mkBlockchain {
  blocks_ : list Block;
  height_by_hash_ : gmap HashBytes nat
}.

Module Bc.

Definition genesis `{Crypto} : Block :=
  let genesis := Blk.make 1 (replicate 32 Byte.x00) 0 [] in
  Blk.set_hash (Blk.compute_hash genesis) genesis.

Definition make `{Crypto} : Blockchain :=
  mkBlockchain [genesis] {[ hash_ genesis := 0%nat ]}.

Definition size (c : Blockchain) : nat := length (blocks_ c).

(** The work of the last block; 0 on an empty chain. *)
Definition tip_work (l : list Block) : Z :=
  match last l with Some b => cumulative_work_ b | None => 0 end.

Definition add_block (block : Block) (c : Blockchain) : Blockchain :=
  let current_cumulative_work := u64 (Blk.block_work block + tip_work (blocks_ c)) in
  let block := Blk.set_cumulative_work current_cumulative_work block in
  mkBlockchain (blocks_ c ++ [block]) (<[hash_ block := length (blocks_ c)]> (height_by_hash_ c)).

Definition has_block (hash : HashBytes) (c : Blockchain) : bool :=
  bool_decide (is_Some (height_by_hash_ c !! hash)).

Definition find_height (hash : HashBytes) (c : Blockchain) : option nat :=
  if negb (has_block hash c) then None else height_by_hash_ c !! hash.

(** [blocks_[*index]] is unchecked in the code; an index is always in range on the chains
    of [inv] (lemma [find_spec]). *)
Definition find (hash : HashBytes) (c : Blockchain) : option Block :=
  match find_height hash c with
  | None => None
  | Some index => blocks_ c !! index
  end.

Definition at_ (height : nat) (c : Blockchain) : result Block :=
  of_option OutOfRange (blocks_ c !! height).

(** [blocks_.back()]: undefined on an empty vector. *)
Definition latest (c : Blockchain) : result Block :=
  of_option UndefinedBehaviour (last (blocks_ c)).

Definition empty (c : Blockchain) : bool := (size c =? 0)%nat.

(** One comparison of the loop: a block against its predecessor. *)
Definition link_ok `{Crypto} (prev_block current_block : Block) : bool :=
  bool_decide (Blk.compute_hash current_block = hash_ current_block) &&
  bool_decide (hash_ prev_block = prev_hash_ current_block).

Fixpoint links_ok `{Crypto} (prev_block : Block) (l : list Block) : bool :=
  match l with
  | [] => true
  | b :: l => if link_ok prev_block b then links_ok b l else false
  end.

Definition is_valid `{Crypto} (c : Blockchain) : bool :=
  match blocks_ c with [] => true | b :: l => links_ok b l end.

(** The loop that refuses a coinbase anywhere but first. *)
Definition coinbase_misplaced (txs : list Transaction) : bool :=
  existsb Tx.is_coinbase (drop 1 txs).

Definition classify_new_block `{Crypto} (block : Block) (c : Blockchain) : result BlockValidation :=
  if negb (bool_decide (hash_ block = Blk.compute_hash block)) then mret Invalid else
  if coinbase_misplaced (transactions_ block) then mret Invalid else
  tip ← latest c;
  if negb (bool_decide (prev_hash_ block = hash_ tip)) then mret ForkCandidate else
  mret Valid.

(** [blocks_.erase(begin() + height + 1, end())] and the erasures from the index. *)
Definition truncate (height : nat) (c : Blockchain) : list Block * Blockchain :=
  let discarded := drop (height + 1) (blocks_ c) in
  (discarded,
   mkBlockchain (take (height + 1) (blocks_ c))
     (foldl (λ m b, delete (hash_ b) m) (height_by_hash_ c) discarded)).

Definition reorganize_to (fork : ForkChain) (c : Blockchain) : option (list Block) * Blockchain :=
  match find_height (hash_ (common_ancestor fork)) c with
  | None => (None, c)
  | Some height =>
      let '(discarded, c) := truncate height c in
      (Some discarded, foldl (λ c b, add_block b c) c (fork_blocks fork))
  end.

(** ** Invariants *)

Section invariant.
Context `{Crypto}.

(** The index is exactly the heights of the blocks, which have distinct hashes. *)
Definition index_ok (c : Blockchain) : Prop :=
  NoDup (hash_ <$> blocks_ c) ∧
  ∀ h i, height_by_hash_ c !! h = Some i ↔ (hash_ <$> blocks_ c) !! i = Some h.

(** Each block's work is its own plus its predecessor's, in 64 bits. *)
Fixpoint works_ok (prev : Z) (l : list Block) : Prop :=
  match l with
  | [] => True
  | b :: l => cumulative_work_ b = u64 (Blk.block_work b + prev) ∧ works_ok (cumulative_work_ b) l
  end.

(** The chain grows from the genesis block. *)
Definition rooted (c : Blockchain) : Prop :=
  ∃ l, blocks_ c = genesis :: l ∧ works_ok 0 l.

Definition inv (c : Blockchain) : Prop := index_ok c ∧ rooted c ∧ is_valid c = true.

(** Blocks in a row, the first on top of [prev]. *)
Definition linked (prev : Block) (l : list Block) : Prop := links_ok prev l = true.

(** ** Facts *)

Lemma find_height_eq h c : find_height h c = height_by_hash_ c !! h.
Proof.
  unfold find_height, has_block. case_bool_decide as Hd; [done|].
  rewrite <- eq_None_not_Some in Hd. by rewrite Hd.
Qed.

Lemma has_block_spec h c : index_ok c → has_block h c = true ↔ h ∈ hash_ <$> blocks_ c.
Proof.
  intros [_ Hi]. unfold has_block. rewrite bool_decide_eq_true, list_elem_of_lookup.
  unfold is_Some. by setoid_rewrite Hi.
Qed.

Lemma find_spec h c b :
  index_ok c → find h c = Some b ↔ b ∈ blocks_ c ∧ hash_ b = h.
Proof.
  intros [Hn Hi]. unfold find. rewrite find_height_eq. split.
  - destruct (height_by_hash_ c !! h) as [i|] eqn:E; [|done]. intros Hb.
    apply Hi in E. rewrite list_lookup_fmap, Hb in E. injection E as E.
    split; [by eapply list_elem_of_lookup_2|done].
  - intros [[i Hb]%list_elem_of_lookup <-].
    assert (height_by_hash_ c !! hash_ b = Some i) as ->; [|done].
    apply Hi. by rewrite list_lookup_fmap, Hb.
Qed.

Lemma links_ok_app prev l k :
  links_ok prev (l ++ k) = links_ok prev l && links_ok (default prev (last l)) k.
Proof.
  revert prev. induction l as [|b l IH]; intros prev; [done|].
  cbn [links_ok app]. destruct (link_ok prev b); [|done]. rewrite IH. f_equal.
  rewrite last_cons. by destruct (last l).
Qed.

Lemma tip_work_snoc l b : tip_work (l ++ [b]) = cumulative_work_ b.
Proof. unfold tip_work. by rewrite last_snoc. Qed.

Lemma works_ok_app prev l k :
  works_ok prev (l ++ k) ↔ works_ok prev l ∧ works_ok (match last l with Some b => cumulative_work_ b | None => prev end) k.
Proof.
  revert prev. induction l as [|b l IH]; intros prev; simpl; [tauto|].
  rewrite IH, last_cons. destruct (last l); tauto.
Qed.

Lemma link_ok_spec prev b :
  link_ok prev b = true ↔ hash_ b = Blk.compute_hash b ∧ prev_hash_ b = hash_ prev.
Proof.
  unfold link_ok. rewrite andb_true_iff, !bool_decide_eq_true. naive_solver.
Qed.

Lemma links_ok_set_work prev b w l :
  links_ok prev (Blk.set_cumulative_work w b :: l) = links_ok prev (b :: l).
Proof.
  cbn [links_ok]. change (link_ok prev (Blk.set_cumulative_work w b)) with (link_ok prev b).
  destruct (link_ok prev b); [|done]. by destruct l.
Qed.

(** *** Adding *)

Lemma add_block_index b c :
  index_ok c → has_block (hash_ b) c = false → index_ok (add_block b c).
Proof.
  intros Hc Hnew. assert (hash_ b ∉ hash_ <$> blocks_ c) as Hnin.
  { intros Hin%has_block_spec; [congruence|done]. }
  destruct Hc as [Hn Hi]. split; simpl.
  - rewrite fmap_app. apply NoDup_app. split_and!; [done| |apply NoDup_singleton].
    by intros h Hh ->%list_elem_of_singleton.
  - intros h i. rewrite fmap_app. simpl. rewrite lookup_insert. case_decide as Hd.
    + subst h. split.
      * intros [= <-]. apply list_lookup_middle. by rewrite length_fmap.
      * intros [Hl|[Hlen Hl]]%lookup_app_Some; [by apply list_elem_of_lookup_2 in Hl|].
        rewrite length_fmap in *. apply list_lookup_singleton_Some in Hl as [Hz _].
        f_equal. lia.
    + rewrite Hi. split; [by apply lookup_app_l_Some|].
      intros [Hl|[Hlen Hl]]%lookup_app_Some; [done|].
      by apply list_lookup_singleton_Some in Hl as [_ <-].
Qed.

Lemma rooted_latest c : rooted c → ∃ tip, latest c = Ok tip ∧ last (blocks_ c) = Some tip.
Proof.
  intros (l & E & _). unfold latest. rewrite E, last_cons.
  destruct (last l); by eexists.
Qed.

Lemma add_block_rooted b c : rooted c → rooted (add_block b c).
Proof.
  intros (l & E & Hw). eexists (l ++ [_]). unfold add_block. simpl. rewrite E. split; [done|].
  apply works_ok_app. split; [done|]. unfold tip_work. rewrite last_cons. simpl.
  destruct (last l); done.
Qed.

Lemma is_valid_snoc b l c tip :
  blocks_ c = l ++ [b] → last l = Some tip →
  is_valid c = true ↔ is_valid (mkBlockchain l ∅) = true ∧ link_ok tip b = true.
Proof.
  intros E Hl. unfold is_valid. rewrite E. simpl. destruct l as [|g l]; [done|]. simpl.
  rewrite links_ok_app, andb_true_iff. rewrite last_cons in Hl.
  assert (default g (last l) = tip) as -> by (destruct (last l); simplify_eq; done).
  cbn [links_ok]. by destruct (link_ok tip b).
Qed.

Lemma is_valid_blocks c c' : blocks_ c = blocks_ c' → is_valid c = is_valid c'.
Proof. unfold is_valid. by intros ->. Qed.

Lemma add_block_inv b c tip :
  inv c → latest c = Ok tip → has_block (hash_ b) c = false → link_ok tip b = true →
  inv (add_block b c).
Proof.
  intros (Hi & Hr & Hv) Ht Hnew Hl. split_and!;
    [by apply add_block_index|by apply add_block_rooted|].
  unfold latest in Ht. apply of_option_Ok in Ht.
  eapply is_valid_snoc; [done|exact Ht|]. split; [|done].
  rewrite <- Hv. by apply is_valid_blocks.
Qed.

Lemma make_inv : inv make.
Proof.
  split_and!; [split|by exists []|done].
  - apply NoDup_singleton.
  - intros h i. simpl. rewrite lookup_singleton_Some, list_lookup_singleton_Some. naive_solver.
Qed.

(** *** Adding a run of blocks *)

Definition add_all (l : list Block) (c : Blockchain) : Blockchain :=
  foldl (λ c b, add_block b c) c l.

(** The blocks as [add_block] stores them on top of work [w]. *)
Fixpoint with_works (w : Z) (l : list Block) : list Block :=
  match l with
  | [] => []
  | b :: l =>
      let w' := u64 (Blk.block_work b + w) in
      Blk.set_cumulative_work w' b :: with_works w' l
  end.

(** The total work of the run, as [fork_work] sums it. *)
Definition sum_work (w : Z) (l : list Block) : Z :=
  foldl (λ w b, u64 (w + Blk.block_work b)) w l.

Lemma add_all_blocks l c :
  blocks_ (add_all l c) = blocks_ c ++ with_works (tip_work (blocks_ c)) l.
Proof.
  revert c. induction l as [|b l IH]; intros c; [by rewrite app_nil_r|].
  change (add_all (b :: l) c) with (add_all l (add_block b c)). rewrite IH. simpl.
  by rewrite tip_work_snoc, <- app_assoc.
Qed.

Lemma with_works_hashes w l : hash_ <$> with_works w l = hash_ <$> l.
Proof. revert w. induction l as [|b l IH]; intros w; simpl; [done|]. by rewrite IH. Qed.

Lemma length_with_works w l : length (with_works w l) = length l.
Proof. by rewrite <- (length_fmap hash_), with_works_hashes, length_fmap. Qed.

Lemma tip_work_with_works w k l :
  tip_work k = w → tip_work (k ++ with_works w l) = sum_work w l.
Proof.
  revert w k. induction l as [|b l IH]; intros w k Hk; simpl; [by rewrite app_nil_r|].
  rewrite cons_middle, app_assoc. rewrite (IH _ (k ++ [_])) by by rewrite tip_work_snoc.
  unfold sum_work. simpl. f_equal. f_equal. lia.
Qed.

Lemma add_block_has h b c :
  has_block h (add_block b c) = bool_decide (h = hash_ b) || has_block h c.
Proof.
  unfold has_block, add_block. simpl. rewrite lookup_insert. repeat case_decide; subst;
    repeat case_bool_decide; simpl in *; try done; naive_solver.
Qed.

Lemma add_block_latest b c :
  latest (add_block b c) =
  Ok (Blk.set_cumulative_work (u64 (Blk.block_work b + tip_work (blocks_ c))) b).
Proof. unfold latest, add_block. simpl. by rewrite last_snoc. Qed.

Lemma add_all_inv l c tip :
  inv c → latest c = Ok tip → links_ok tip l = true → NoDup (hash_ <$> l) →
  Forall (λ b, has_block (hash_ b) c = false) l → inv (add_all l c).
Proof.
  revert c tip. induction l as [|b l IH]; intros c tip Hc Ht Hl Hn Hf; [done|].
  cbn [links_ok] in Hl. destruct (link_ok tip b) eqn:Eb; [|done].
  apply NoDup_cons in Hn as [Hnin Hn]. apply Forall_cons in Hf as [Hb Hf].
  eapply (IH (add_block b c)); [by eapply add_block_inv|apply add_block_latest| |done|].
  - by destruct l.
  - rewrite Forall_forall in *. intros x Hx. rewrite add_block_has, Hf, orb_false_r by done.
    apply bool_decide_eq_false. intros E. apply Hnin. rewrite <- E. by apply list_elem_of_fmap_2.
Qed.

(** *** Truncating *)

Lemma foldl_delete_lookup (l : list Block) (m : gmap HashBytes nat) h :
  foldl (λ m b, delete (hash_ b) m) m l !! h = if decide (h ∈ hash_ <$> l) then None else m !! h.
Proof.
  revert m. induction l as [|b l IH]; intros m; [done|]. simpl foldl.
  rewrite fmap_cons, IH. destruct (decide (h ∈ hash_ <$> l)) as [Hin|Hin].
  - by rewrite decide_True by (right; done).
  - destruct (decide (h = hash_ b)) as [->|Hne].
    + by rewrite decide_True, lookup_delete_eq by left.
    + rewrite decide_False by (by intros [?|?]%elem_of_cons). by rewrite lookup_delete_ne.
Qed.

Lemma truncate_index k c : index_ok c → index_ok (truncate k c).2.
Proof.
  intros [Hn Hi]. unfold truncate. simpl. rewrite <- (take_drop (k + 1) (blocks_ c)), fmap_app in Hn, Hi.
  apply NoDup_app in Hn as (Hn1 & Hdisj & Hn2). split; [done|]. intros h i. simpl.
  rewrite foldl_delete_lookup. case_decide as Hd.
  - split; [done|]. intros Hl. exfalso. eapply Hdisj; [by eapply list_elem_of_lookup_2|done].
  - rewrite Hi, lookup_app_Some. split; [|by left].
    intros [?|[_ Hl]]; [done|]. by apply list_elem_of_lookup_2 in Hl.
Qed.

Lemma links_ok_take prev l n : links_ok prev l = true → links_ok prev (take n l) = true.
Proof.
  revert prev n. induction l as [|b l IH]; intros prev [|n] Hl; [done..|].
  cbn [links_ok take] in *. destruct (link_ok prev b); [|done]. by apply IH.
Qed.

Lemma works_ok_take w l n : works_ok w l → works_ok w (take n l).
Proof.
  revert w n. induction l as [|b l IH]; intros w [|n] Hl; [done..|].
  destruct Hl. split; [done|]. by apply IH.
Qed.

Lemma truncate_inv k c : inv c → inv (truncate k c).2.
Proof.
  intros (Hi & (l & E & Hw) & Hv). split_and!; [by apply truncate_index| |].
  - exists (take k l). unfold truncate. simpl. rewrite E, Nat.add_1_r. split; [done|].
    by apply works_ok_take.
  - unfold is_valid, truncate in *. simpl. rewrite E, Nat.add_1_r in *. simpl.
    by apply links_ok_take.
Qed.

Lemma last_take {A} (l : list A) k x : l !! k = Some x → last (take (k + 1) l) = Some x.
Proof.
  intros Hk. rewrite Nat.add_1_r, (take_S_r _ _ x) by done. apply last_snoc.
Qed.

Lemma truncate_latest k c b : blocks_ c !! k = Some b → latest (truncate k c).2 = Ok b.
Proof. intros Hk. unfold latest, truncate. simpl. by rewrite (last_take _ _ _ Hk). Qed.

(** *** Reorganizing *)

(** The blocks of a fork extend the chain at [ancestor], and none of them is already
    below the fork point. *)
Definition fork_ok (fork : ForkChain) (c : Blockchain) : Prop :=
  find (hash_ (common_ancestor fork)) c = Some (common_ancestor fork) ∧
  links_ok (common_ancestor fork) (fork_blocks fork) = true ∧
  NoDup (hash_ <$> fork_blocks fork) ∧
  ∀ k, blocks_ c !! k = Some (common_ancestor fork) →
    Forall (λ b, hash_ b ∉ hash_ <$> take (k + 1) (blocks_ c)) (fork_blocks fork).

Lemma reorganize_eq fork c k :
  index_ok c → blocks_ c !! k = Some (common_ancestor fork) →
  reorganize_to fork c =
  (Some (drop (k + 1) (blocks_ c)), add_all (fork_blocks fork) (truncate k c).2).
Proof.
  intros [_ Hi] Hk. unfold reorganize_to. rewrite find_height_eq.
  assert (height_by_hash_ c !! hash_ (common_ancestor fork) = Some k) as ->; [|done].
  apply Hi. by rewrite list_lookup_fmap, Hk.
Qed.

Lemma reorganize_none fork c :
  find_height (hash_ (common_ancestor fork)) c = None → reorganize_to fork c = (None, c).
Proof. unfold reorganize_to. by intros ->. Qed.

Lemma reorganize_inv fork c k :
  inv c → fork_ok fork c → blocks_ c !! k = Some (common_ancestor fork) →
  inv (reorganize_to fork c).2.
Proof.
  intros Hc (Hf & Hl & Hn & Hnew) Hk. rewrite (reorganize_eq _ _ k) by (done || apply Hc). simpl.
  pose proof (truncate_inv k c Hc) as Ht.
  eapply add_all_inv; [done|by apply truncate_latest|done|done|].
  specialize (Hnew k Hk). eapply Forall_impl; [exact Hnew|]. simpl. intros b Hb.
  apply not_true_iff_false. rewrite has_block_spec by apply Ht. done.
Qed.

Lemma reorganize_blocks fork c k :
  index_ok c → blocks_ c !! k = Some (common_ancestor fork) →
  blocks_ (reorganize_to fork c).2 =
  take (k + 1) (blocks_ c) ++ with_works (cumulative_work_ (common_ancestor fork)) (fork_blocks fork).
Proof.
  intros Hi Hk. rewrite (reorganize_eq _ _ k) by done. simpl. rewrite add_all_blocks. simpl.
  unfold tip_work. by rewrite (last_take _ _ _ Hk).
Qed.

Lemma reorganize_tip_work fork c k :
  index_ok c → blocks_ c !! k = Some (common_ancestor fork) →
  tip_work (blocks_ (reorganize_to fork c).2) =
  sum_work (cumulative_work_ (common_ancestor fork)) (fork_blocks fork).
Proof.
  intros Hi Hk. rewrite (reorganize_blocks _ _ k) by done. apply tip_work_with_works.
  unfold tip_work. by rewrite (last_take _ _ _ Hk).
Qed.

(** ** Classification *)

Lemma classify_Valid b c :
  classify_new_block b c = Ok Valid ↔
  hash_ b = Blk.compute_hash b ∧ coinbase_misplaced (transactions_ b) = false ∧
  ∃ tip, latest c = Ok tip ∧ prev_hash_ b = hash_ tip.
Proof.
  unfold classify_new_block. case_bool_decide; simpl; [|split; [done|naive_solver]].
  destruct (coinbase_misplaced _); [split; [done|naive_solver]|].
  destruct (latest c) as [tip|e]; simpl; [|split; [done|naive_solver]].
  case_bool_decide; simpl; (split; [try done; eauto|]); [done|naive_solver].
Qed.

Lemma classify_ForkCandidate b c :
  classify_new_block b c = Ok ForkCandidate ↔
  hash_ b = Blk.compute_hash b ∧ coinbase_misplaced (transactions_ b) = false ∧
  ∃ tip, latest c = Ok tip ∧ prev_hash_ b ≠ hash_ tip.
Proof.
  unfold classify_new_block. case_bool_decide; simpl; [|split; [done|naive_solver]].
  destruct (coinbase_misplaced _); [split; [done|naive_solver]|].
  destruct (latest c) as [tip|e]; simpl; [|split; [done|naive_solver]].
  case_bool_decide; simpl; (split; [try done; eauto|]); [naive_solver|done].
Qed.

(** ** Properties *)

(** Extending the chain: when a block classified [Valid] is not already in the
    chain, appending it keeps the chain indexed, linked and its work accumulated; the
    block is then found under its hash at the old height of the chain, and every block
    found before is found unchanged at the same height. *)
Theorem valid_block_extends b c :
  inv c → classify_new_block b c = Ok Valid → has_block (hash_ b) c = false →
  let c' := add_block b c in
  inv c' ∧ size c' = S (size c) ∧ find_height (hash_ b) c' = Some (size c) ∧
  (∃ w, find (hash_ b) c' = Some (Blk.set_cumulative_work w b)) ∧
  (∀ h b', find h c = Some b' → find h c' = Some b' ∧ find_height h c' = find_height h c).
Proof.
  intros Hc (Hh & _ & tip & Ht & Hp)%classify_Valid Hnew c'.
  assert (inv c') as Hc' by (eapply add_block_inv; [done..|by apply link_ok_spec]).
  split_and!; [done|unfold size, c'; simpl; rewrite length_app; simpl; lia| |..].
  - rewrite find_height_eq. apply lookup_insert_eq.
  - eexists. apply find_spec; [apply Hc'|]. split; [|done]. apply elem_of_app. right. left.
  - intros h b' [Hin <-]%find_spec; [|apply Hc]. split.
    + apply find_spec; [apply Hc'|]. split; [|done]. apply elem_of_app. by left.
    + rewrite !find_height_eq. unfold c'. simpl. rewrite lookup_insert_ne; [done|].
      intros E. apply not_true_iff_false in Hnew. apply Hnew. rewrite E.
      apply has_block_spec; [apply Hc|]. by apply list_elem_of_fmap_2.
Qed.

(** Reorganizing: switching to a fork whose blocks are linked onto an ancestor in
    the chain returns exactly the blocks above the ancestor, leaves the blocks up to it
    followed by the fork's blocks with their accumulated work, and keeps the chain's
    invariant (index, links and work); an unknown ancestor changes nothing. *)
Theorem reorganize_correct fork c :
  inv c →
  (find_height (hash_ (common_ancestor fork)) c = None → reorganize_to fork c = (None, c)) ∧
  (fork_ok fork c → ∃ k c',
    blocks_ c !! k = Some (common_ancestor fork) ∧
    reorganize_to fork c = (Some (drop (k + 1) (blocks_ c)), c') ∧ inv c' ∧
    blocks_ c' = take (k + 1) (blocks_ c) ++
                 with_works (cumulative_work_ (common_ancestor fork)) (fork_blocks fork) ∧
    tip_work (blocks_ c') = sum_work (cumulative_work_ (common_ancestor fork)) (fork_blocks fork)).
Proof.
  intros Hc. split; [apply reorganize_none|]. intros Hf. pose proof Hf as (Ha & _).
  apply find_spec in Ha as [[k Hk]%list_elem_of_lookup _]; [|apply Hc].
  exists k, (reorganize_to fork c).2. split_and!; [done| |by eapply reorganize_inv| |].
  - rewrite (reorganize_eq _ _ k) by (done || apply Hc). done.
  - apply reorganize_blocks; [apply Hc|done].
  - apply (reorganize_tip_work _ _ k); [apply Hc|done].
Qed.
End invariant.

(** ** Witnesses *)
Section witnesses.
#[local] Existing Instance demo_crypto.

Definition demo_child (parent : Block) (t : Z) : Block := Blk.make 1 (hash_ parent) t [].

Definition demo_a : Block := demo_child genesis 10.
Definition demo_b : Block := demo_child genesis 20.
Definition demo_b2 : Block := demo_child demo_b 30.

Definition demo_chain : Blockchain := add_block demo_a make.

Lemma demo_chain_inv : inv demo_chain.
Proof. eapply add_block_inv; [apply make_inv|reflexivity|by vm_compute..]. Qed.

Lemma valid_block_extends_witness :
  let c' := add_block demo_a make in
  inv c' ∧ size c' = S (size make) ∧ find_height (hash_ demo_a) c' = Some (size make) ∧
  (∃ w, find (hash_ demo_a) c' = Some (Blk.set_cumulative_work w demo_a)) ∧
  (∀ h b', find h make = Some b' → find h c' = Some b' ∧ find_height h c' = find_height h make).
Proof. apply (valid_block_extends demo_a make); [apply make_inv|by vm_compute..]. Defined.

Lemma reorganize_correct_witness :
  ∃ k c',
    blocks_ demo_chain !! k = Some genesis ∧
    reorganize_to (mkForkChain [demo_b; demo_b2] genesis) demo_chain =
      (Some (drop (k + 1) (blocks_ demo_chain)), c') ∧ inv c' ∧
    blocks_ c' = take (k + 1) (blocks_ demo_chain) ++ with_works 0 [demo_b; demo_b2] ∧
    tip_work (blocks_ c') = sum_work 0 [demo_b; demo_b2].
Proof.
  apply (reorganize_correct (mkForkChain [demo_b; demo_b2] genesis) demo_chain demo_chain_inv).
  split_and!; [by vm_compute|by vm_compute|apply (bool_decide_unpack _); by vm_compute|].
  intros [|[|k]] E; [|by vm_compute in E..].
  apply (bool_decide_unpack _). by vm_compute.
Defined.
End witnesses.
End Bc.
