(* ===== verification/ForkResolution.v ===== *)
(** * Fork resolution (src/core/ForkResolution.cpp)

    Walking back from a tip through the orphan pool to the chain, and weighing the
    branch found. [path] is the declarative reading of the walk.

    SHA-256 is not injective, so the facts that need distinct blocks to have distinct
    hashes are stated for a set [U] of byte strings in which the hash has no collision
    and no preimage of the all-zero hash ([CollisionFree]); [known U b] says that the
    block [b] is well formed, carries its own hash and is in that set. *)

From S2P Require Import Prelude Codec Crypto Demo Transaction Block OrphanPool Blockchain.

Definition kMaxForkDepth : nat := 100.

Definition zero_hash : HashBytes := replicate 32 Byte.x00.

Class CollisionFree `{Crypto} (U : bytes → Prop) := {
  cf_inj s s' : U s → U s' → double_sha_256 s = double_sha_256 s' → s = s';
  cf_zero s : U s → double_sha_256 s ≠ zero_hash;
  cf_genesis : U (Blk.serialize Bc.genesis)
}.

Module Fork.

(** The loop, with [turns] of [kMaxForkDepth - depth] left. *)
Fixpoint walk (turns : nat) (chain : Blockchain) (pool : OrphanPool)
    (fork_chain : list Block) (current_hash : HashBytes) : option ForkChain :=
  match turns with
  | O => None
  | S turns =>
      match Bc.find current_hash chain with
      | Some found_in_chain => Some (mkForkChain (reverse fork_chain) found_in_chain)
      | None =>
          match Op.find_orphan current_hash pool with
          | None => None
          | Some found_in_pool =>
              walk turns chain pool (fork_chain ++ [found_in_pool]) (prev_hash_ found_in_pool)
          end
      end
  end.

Definition build_fork_chain (chain : Blockchain) (pool : OrphanPool) (tip : Block)
    : option ForkChain :=
  walk kMaxForkDepth chain pool [tip] (prev_hash_ tip).

Definition fork_work (fork : ForkChain) : Z :=
  foldl (λ w b, u64 (w + Blk.block_work b)) (cumulative_work_ (common_ancestor fork))
    (fork_blocks fork).

Definition is_fork_heavier (chain : Blockchain) (fork : ForkChain) : result bool :=
  let fork_total_work := fork_work fork in
  latest ← Bc.latest chain;
  let chain_work := cumulative_work_ latest in
  mret (chain_work <? fork_total_work).

(** ** The walk *)

(** Orphans from [h] back to the chain, newest first. *)
Inductive path (c : Blockchain) (p : OrphanPool) : HashBytes → list Block → Block → Prop :=
| path_chain h a : Bc.find h c = Some a → path c p h [] a
| path_orphan h b l a :
    Bc.find h c = None → Op.find_orphan h p = Some b → path c p (prev_hash_ b) l a →
    path c p h (b :: l) a.

Lemma path_det c p h l a l' a' : path c p h l a → path c p h l' a' → l = l' ∧ a = a'.
Proof.
  intros H1. revert l' a'.
  induction H1 as [h a E|h b l a E Eb _ IH]; intros l' a'; inversion 1; subst; simplify_eq; [done|].
  destruct (IH l0 a'); [done|]. by subst.
Qed.

Lemma walk_spec turns c p acc h bs a :
  walk turns c p acc h = Some (mkForkChain bs a) ↔
  ∃ l, path c p h l a ∧ (length l < turns)%nat ∧ bs = reverse (acc ++ l).
Proof.
  revert acc h. induction turns as [|n IH]; intros acc h; simpl.
  { split; [done|]. intros (l & _ & ? & _). lia. }
  destruct (Bc.find h c) as [a'|] eqn:Ec.
  - split.
    + intros [= <- <-]. exists []. rewrite app_nil_r. split_and!; [by constructor|simpl; lia|done].
    + intros (l & Hp & _ & ->). inversion Hp; simplify_eq. by rewrite app_nil_r.
  - destruct (Op.find_orphan h p) as [b|] eqn:Eo.
    + rewrite IH. split.
      * intros (l & Hp & Hl & ->). exists (b :: l). rewrite <- app_assoc.
        split_and!; [by constructor|simpl; lia|done].
      * intros (l & Hp & Hl & ->). inversion Hp; simplify_eq. simpl in Hl. eexists.
        split_and!; [done|lia|by rewrite <- app_assoc].
    + split; [done|]. intros (l & Hp & _). inversion Hp; simplify_eq.
Qed.

Lemma path_elem c p h l a : path c p h l a → Forall (λ b, ∃ k, Op.find_orphan k p = Some b) l.
Proof. induction 1; constructor; eauto. Qed.

Lemma path_end c p h l a : path c p h l a → ∃ k, Bc.find k c = Some a.
Proof. induction 1; eauto. Qed.

Section sound.
Context (c : Blockchain) (p : OrphanPool) (Hp : Op.inv p).

Lemma find_orphan_hash h b : Op.find_orphan h p = Some b → hash_ b = h.
Proof.
  unfold Op.find_orphan. intros (e & E & ->)%fmap_Some. by apply (Op.inv_entry p Hp).
Qed.

Lemma path_suffix h l1 b l2 a :
  path c p h (l1 ++ b :: l2) a → path c p (hash_ b) (b :: l2) a.
Proof.
  revert h. induction l1 as [|x l1 IH]; intros h Hpath;
    inversion Hpath as [|? ? ? ? _ Ho Hrest]; subst.
  - by rewrite (find_orphan_hash _ _ Ho).
  - by eapply IH.
Qed.

Lemma path_not_in_chain h l a : path c p h l a → Forall (λ b, Bc.find (hash_ b) c = None) l.
Proof.
  induction 1 as [|h b l a Ec Eo _ IH]; constructor; [|done]. by rewrite (find_orphan_hash _ _ Eo).
Qed.

(** A walk that reaches the chain never visits a hash twice. *)
Lemma path_NoDup h l a : path c p h l a → NoDup (hash_ <$> l).
Proof.
  intros Hpath. apply NoDup_alt. intros i j x Hi Hj.
  rewrite list_lookup_fmap in Hi, Hj.
  apply fmap_Some in Hi as (b1 & Hi & ->), Hj as (b2 & Hj & E).
  pose proof (take_drop_middle l i b1 Hi) as E1. pose proof (take_drop_middle l j b2 Hj) as E2.
  pose proof Hpath as P1. pose proof Hpath as P2. rewrite <- E1 in P1. rewrite <- E2 in P2.
  apply path_suffix in P1, P2. rewrite E in P1. destruct (path_det _ _ _ _ _ _ _ P1 P2) as [El _].
  apply (f_equal length) in El. simpl in El. rewrite !length_drop in El.
  apply lookup_lt_Some in Hi, Hj. lia.
Qed.

(** Each block of the walk sits on the next; the oldest sits on the ancestor. *)
Lemma path_links `{Crypto} tip l a :
  Bc.index_ok c → path c p (prev_hash_ tip) l a →
  Forall (λ b, hash_ b = Blk.compute_hash b) (tip :: l) →
  Bc.links_ok a (reverse (tip :: l)) = true.
Proof.
  intros Hc. revert tip. induction l as [|b l IH]; intros tip Hpath Hh; apply Forall_cons in Hh as [Ht Hl];
    rewrite reverse_cons, Bc.links_ok_app; apply andb_true_iff;
    inversion Hpath as [? ? Ha|? ? ? ? _ Ho Hrest]; subst.
  - split; [done|]. simpl. apply Bc.find_spec in Ha as [_ E]; [|done].
    by rewrite (proj2 (Bc.link_ok_spec a tip)).
  - split; [by apply IH|]. rewrite reverse_cons, last_snoc. simpl.
    rewrite (proj2 (Bc.link_ok_spec b tip)); [done|]. by rewrite (find_orphan_hash _ _ Ho).
Qed.
End sound.

(** ** Blocks without collisions *)

Section known.
Context `{CryptoLaws} (U : bytes → Prop) {CF : CollisionFree U}.

Definition known (b : Block) : Prop :=
  Blk.wf b ∧ U (Blk.serialize b) ∧ hash_ b = Blk.compute_hash b.

Lemma known_fields a b : known a → known b → hash_ a = hash_ b → Blk.fields a = Blk.fields b.
Proof.
  intros (Wa & Ua & Ha) (Wb & Ub & Hb) E. apply Blk.serialize_inj; [done..|].
  apply cf_inj; [done..|]. unfold Blk.compute_hash in *. congruence.
Qed.

Lemma known_prev a b : known a → known b → hash_ a = hash_ b → prev_hash_ a = prev_hash_ b.
Proof. intros Ha Hb E. pose proof (known_fields a b Ha Hb E). unfold Blk.fields in *. congruence. Qed.

Lemma known_nonzero b : known b → hash_ b ≠ zero_hash.
Proof. intros (_ & Hu & ->). by apply cf_zero. Qed.

Lemma known_set_work w b : known b → known (Blk.set_cumulative_work w b).
Proof. done. Qed.

Lemma known_genesis : known Bc.genesis.
Proof.
  split_and!; [|apply cf_genesis|done]. by apply (Blk.make_wf 1 zero_hash 0 []).
Qed.

Lemma genesis_prev : prev_hash_ Bc.genesis = zero_hash.
Proof. done. Qed.

(** In a valid chain the predecessor of a block is the block below it. *)
Lemma links_ok_prev prev l i b :
  Bc.links_ok prev l = true → l !! i = Some b →
  ∃ b', (prev :: l) !! i = Some b' ∧ prev_hash_ b = hash_ b'.
Proof.
  revert prev i. induction l as [|x l IH]; intros prev i Hl Hi; [done|].
  cbn [Bc.links_ok] in Hl. destruct (Bc.link_ok prev x) eqn:E; [|done].
  destruct i as [|i]; simpl in *.
  - injection Hi as ->. apply Bc.link_ok_spec in E as [_ ?]. eauto.
  - by apply IH.
Qed.

Lemma chain_prev c i b :
  Bc.inv c → blocks_ c !! S i = Some b →
  ∃ b', blocks_ c !! i = Some b' ∧ prev_hash_ b = hash_ b'.
Proof.
  intros (_ & (l & E & _) & Hv) Hi. unfold Bc.is_valid in Hv. rewrite E in *.
  by eapply links_ok_prev.
Qed.

(** A known block whose hash is in the chain has the chain block's parent, or is genesis. *)
Lemma known_in_chain c b j h :
  Bc.inv c → Forall known (blocks_ c) → known b → (hash_ <$> blocks_ c) !! j = Some h → hash_ b = h →
  match j with
  | O => prev_hash_ b = zero_hash
  | S i => ∃ b', blocks_ c !! i = Some b' ∧ prev_hash_ b = hash_ b'
  end.
Proof.
  intros Hc Hk Hb Hj <-. rewrite list_lookup_fmap in Hj. apply fmap_Some in Hj as (x & Hx & E).
  assert (known x) as Hkx by (rewrite Forall_forall in Hk; by eapply Hk, list_elem_of_lookup_2).
  rewrite (known_prev _ _ Hb Hkx E). destruct j as [|i].
  - destruct Hc as (_ & (l & El & _) & _). rewrite El in Hx. simpl in Hx. injection Hx as <-. done.
  - by apply chain_prev.
Qed.

(** No known block on top of the tip is already in the chain. *)
Lemma child_of_tip_fresh c tip b :
  Bc.inv c → Forall known (blocks_ c) → known b → Bc.latest c = Ok tip →
  prev_hash_ b = hash_ tip → Bc.has_block (hash_ b) c = false.
Proof.
  intros Hc Hk Hb Ht Hp. apply not_true_iff_false. rewrite Bc.has_block_spec by apply Hc.
  intros [j Hj]%list_elem_of_lookup. pose proof (known_in_chain c b j _ Hc Hk Hb Hj eq_refl) as E.
  apply of_option_Ok in Ht.
  assert (known tip) as Hkt.
  { rewrite Forall_forall in Hk. apply Hk. by apply last_Some_elem_of. }
  destruct j as [|i].
  - rewrite Hp in E. by apply known_nonzero in Hkt.
  - destruct E as (b' & Hi & E). rewrite Hp in E.
    rewrite last_lookup in Ht. pose proof Hc as ((Hn & _) & _).
    assert (i = pred (length (blocks_ c))) as ->.
    { eapply (NoDup_lookup (hash_ <$> blocks_ c)); [done|..]; rewrite list_lookup_fmap.
      - by rewrite Hi.
      - rewrite Ht. simpl. by rewrite E. }
    apply lookup_lt_Some in Hj. rewrite length_fmap in Hj. lia.
Qed.

(** A tip whose walk reaches the ancestor at height [k] is not at or below [k] itself. *)
Lemma tip_above_ancestor c p tip l a k :
  Bc.inv c → Forall known (blocks_ c) → Op.inv p →
  (∀ h b, Op.find_orphan h p = Some b → known b) → known tip →
  path c p (prev_hash_ tip) l a → blocks_ c !! k = Some a →
  hash_ tip ∉ hash_ <$> take (k + 1) (blocks_ c).
Proof.
  intros Hc Hk Hp Ho Ht Hpath Hka [j Hj]%list_elem_of_lookup.
  rewrite fmap_take in Hj. apply lookup_take_Some in Hj as [Hj Hjk].
  pose proof (known_in_chain c tip j _ Hc Hk Ht Hj eq_refl) as E. destruct j as [|i].
  - rewrite E in Hpath. inversion Hpath as [? ? Hz|? ? ? ? _ Hz _]; subst.
    + apply Bc.find_spec in Hz as [Hin Hz]; [|apply Hc]. rewrite Forall_forall in Hk.
      by apply (known_nonzero a); [apply Hk|].
    + eapply known_nonzero; [by eapply Ho|]. by apply (find_orphan_hash p Hp).
  - destruct E as (b' & Hi & E).
    assert (Bc.find (prev_hash_ tip) c = Some b') as Hf.
    { apply Bc.find_spec; [apply Hc|]. split; [by eapply list_elem_of_lookup_2|done]. }
    inversion Hpath as [? ? Hz|? ? ? ? Hz]; subst; [|congruence]. simplify_eq.
    pose proof Hc as ((Hn & _) & _).
    assert (i = k); [|lia].
    eapply (NoDup_lookup (hash_ <$> blocks_ c)); [done|..]; rewrite list_lookup_fmap; [by rewrite Hi|by rewrite Hka].
Qed.

Lemma build_fork_ok c p tip fork :
  Bc.inv c → Forall known (blocks_ c) → Op.inv p →
  (∀ h b, Op.find_orphan h p = Some b → known b) → known tip →
  Op.find_orphan (hash_ tip) p = Some tip →
  build_fork_chain c p tip = Some fork →
  Bc.fork_ok fork c ∧ Forall known (fork_blocks fork) ∧ last (fork_blocks fork) = Some tip ∧
  (length (fork_blocks fork) <= kMaxForkDepth)%nat.
Proof.
  intros Hc Hk Hp Ho Ht Hin. destruct fork as [bs a]. unfold build_fork_chain.
  intros (l & Hpath & Hlen & ->)%walk_spec. change ([tip] ++ l) with (tip :: l).
  assert (Forall known (tip :: l)) as Hkl.
  { constructor; [done|]. eapply Forall_impl; [by eapply path_elem|]. intros b [h Hb]. eauto. }
  pose proof (path_not_in_chain c p Hp _ _ _ Hpath) as Hnc.
  unfold Bc.fork_ok. cbn [fork_blocks common_ancestor]. split_and!.
  - destruct (path_end _ _ _ _ _ Hpath) as [k Hka]. apply Bc.find_spec in Hka; [|apply Hc].
    apply Bc.find_spec; [apply Hc|]. naive_solver.
  - eapply path_links; [done|apply Hc|done|]. eapply Forall_impl; [exact Hkl|]. by intros b (_ & _ & ?).
  - rewrite reverse_Permutation. cbn [fmap list_fmap].
    destruct (Bc.find (hash_ tip) c) eqn:Ec.
    + constructor; [|by eapply path_NoDup]. intros (x & E & Hb)%list_elem_of_fmap.
      rewrite Forall_forall in Hnc. specialize (Hnc x Hb). simpl in Hnc. congruence.
    + eapply (path_NoDup c p Hp (hash_ tip) (tip :: l)). by constructor.
  - intros k Hka. apply Forall_reverse. constructor.
    + by eapply tip_above_ancestor.
    + rewrite Forall_forall in *. intros b Hb Hbad. specialize (Hnc b Hb). simpl in Hnc.
      apply list_elem_of_fmap in Hbad as (x & E & Hx).
      assert (Bc.find (hash_ b) c = Some x) as Hf; [|congruence].
      apply Bc.find_spec; [apply Hc|]. split; [|done].
      eapply elem_of_sublist; [exact Hx|apply sublist_take].
  - by apply Forall_reverse.
  - rewrite reverse_cons. apply last_snoc.
  - rewrite length_reverse. simpl. lia.
Qed.

(** ** Properties *)

(** Forks that are built can be adopted: for a tip held in the orphan pool, the
    branch [build_fork_chain] returns ends in that tip, has at most [kMaxForkDepth]
    blocks, starts on a block of the chain, is linked by hash, repeats no hash (a cycle
    of orphans is never returned), and does not overlap the chain below its ancestor:
    everything [reorganize_to] needs to keep the chain's invariant. *)
Theorem build_fork_chain_sound c p tip fork :
  Bc.inv c → Forall known (blocks_ c) → Op.inv p →
  (∀ h b, Op.find_orphan h p = Some b → known b) →
  Op.find_orphan (hash_ tip) p = Some tip →
  build_fork_chain c p tip = Some fork →
  Bc.fork_ok fork c ∧ last (fork_blocks fork) = Some tip ∧
  (length (fork_blocks fork) <= kMaxForkDepth)%nat ∧
  Bc.inv (Bc.reorganize_to fork c).2.
Proof.
  intros Hc Hk Hp Ho Hin Hb.
  destruct (build_fork_ok c p tip fork Hc Hk Hp Ho (Ho _ _ Hin) Hin Hb) as (Hf & _ & ? & ?).
  split_and!; [done..|]. pose proof Hf as (Ha & _).
  apply Bc.find_spec in Ha as [[k Hka]%list_elem_of_lookup _]; [|apply Hc].
  by eapply Bc.reorganize_inv.
Qed.
End known.

(** [build_fork_chain] is complete: it returns a branch exactly when fewer than
    [kMaxForkDepth] orphans lead from the tip's parent to a block of the chain, and the
    branch is those orphans, oldest first, followed by the tip. *)
Theorem build_fork_chain_complete c p tip fork :
  build_fork_chain c p tip = Some fork ↔
  ∃ l a, path c p (prev_hash_ tip) l a ∧ (length l < kMaxForkDepth)%nat ∧
         fork = mkForkChain (reverse l ++ [tip]) a.
Proof.
  destruct fork as [bs a]. unfold build_fork_chain. rewrite walk_spec. split.
  - intros (l & ? & ? & ->). exists l, a. split_and!; [done..|]. f_equal. apply reverse_cons.
  - intros (l & a' & ? & ? & [= -> ->]). exists l. split_and!; [done..|]. symmetry. apply reverse_cons.
Qed.

(** The weight test compares what it should: [is_fork_heavier] answers whether the
    cumulative work of the chain's tip would be greater after switching to the fork. *)
Theorem heavier_means_more_work `{Crypto} c fork :
  Bc.inv c → Bc.fork_ok fork c →
  is_fork_heavier c fork =
  Ok (Bc.tip_work (blocks_ c) <? Bc.tip_work (blocks_ (Bc.reorganize_to fork c).2)).
Proof.
  intros Hc (Ha & _). apply Bc.find_spec in Ha as [[k Hka]%list_elem_of_lookup _]; [|apply Hc].
  rewrite (Bc.reorganize_tip_work _ _ k) by (done || apply Hc).
  unfold is_fork_heavier, Bc.tip_work.
  destruct (Bc.rooted_latest c) as (t & -> & ->); [apply Hc|]. done.
Qed.

(** ** Finite sets of blocks without collisions

    For a concrete list of blocks, [CollisionFree] and [known] are decided by evaluation. *)
Section universe.
Context `{Crypto}.

Definition universe_of (bs : list Block) (s : bytes) : Prop := s ∈ Blk.serialize <$> bs.

Definition no_collisions (bs : list Block) : bool :=
  bool_decide (Forall (λ s, double_sha_256 s ≠ zero_hash ∧
    Forall (λ s', double_sha_256 s = double_sha_256 s' → s = s') (Blk.serialize <$> bs))
    (Blk.serialize <$> bs)).

Lemma universe_of_cf bs : no_collisions bs = true → Bc.genesis ∈ bs → CollisionFree (universe_of bs).
Proof.
  intros HF%bool_decide_eq_true Hg. rewrite Forall_forall in HF. split.
  - intros s s' Hs Hs'. destruct (HF s Hs) as [_ HF']. rewrite Forall_forall in HF'. by apply HF'.
  - intros s Hs. by apply HF.
  - by apply list_elem_of_fmap_2.
Qed.

Definition known_check (b : Block) : bool :=
  bool_decide ((in_u 32 (version_ b) ∧ hash_wf (prev_hash_ b) ∧ hash_wf (merkle_root_ b) ∧
    in_u 64 (timestamp_ b) ∧ in_u 32 (difficulty_ b) ∧ in_u 32 (block_nonce_ b) ∧
    in_u 32 (sz (transactions_ b)) ∧
    Forall (λ tx, Tx.wf tx ∧ in_u 32 (sz (Tx.serialize tx))) (transactions_ b)) ∧
    hash_ b = Blk.compute_hash b).

Lemma universe_of_known bs b :
  forallb known_check bs = true → b ∈ bs → known (universe_of bs) b.
Proof.
  intros HF Hb. rewrite forallb_forall in HF. specialize (HF b).
  rewrite <- list_elem_of_In in HF. specialize (HF Hb). apply bool_decide_eq_true in HF as [Hw Hh].
  split_and!; [exact Hw| |done]. by apply list_elem_of_fmap_2.
Qed.
End universe.

(** ** Witnesses *)
Section witnesses.
#[local] Existing Instance demo_crypto.
#[local] Existing Instance demo_crypto_laws.

Definition demo_orphans : OrphanPool :=
  (Op.run_ops [Op.Add Bc.demo_b; Op.Add Bc.demo_b2] (Op.make 10)).2.

Definition demo_blocks : list Block := [Bc.genesis; Bc.demo_a; Bc.demo_b; Bc.demo_b2].

Definition demo_universe : bytes → Prop := universe_of demo_blocks.

#[local] Instance demo_collision_free : CollisionFree demo_universe.
Proof. apply universe_of_cf; [by vm_compute..|left]. Qed.

Lemma demo_known b : b ∈ demo_blocks → known demo_universe b.
Proof. apply universe_of_known. by vm_compute. Qed.

Definition demo_fork : ForkChain := mkForkChain [Bc.demo_b; Bc.demo_b2] Bc.genesis.

Lemma demo_orphans_inv : Op.inv demo_orphans.
Proof.
  destruct (Op.run_ops_inv [Op.Add Bc.demo_b; Op.Add Bc.demo_b2] (Op.make 10) (Op.empty_orphans_inv 10) ltac:(simpl; lia))
    as (p & E & Hp & _). unfold demo_orphans. by rewrite E.
Qed.

Lemma build_fork_chain_sound_witness :
  Bc.fork_ok demo_fork Bc.demo_chain ∧ last (fork_blocks demo_fork) = Some Bc.demo_b2 ∧
  (length (fork_blocks demo_fork) <= kMaxForkDepth)%nat ∧
  Bc.inv (Bc.reorganize_to demo_fork Bc.demo_chain).2.
Proof.
  apply (build_fork_chain_sound demo_universe Bc.demo_chain demo_orphans Bc.demo_b2).
  - apply Bc.demo_chain_inv.
  - apply Forall_cons_2; [apply demo_known; by left|]. apply Forall_singleton.
    apply (known_set_work demo_universe _ Bc.demo_a), demo_known. right. by left.
  - apply demo_orphans_inv.
  - intros h b (e & E & ->)%fmap_Some. apply elem_of_map_to_list in E.
    assert (Forall (λ he, e_block he.2 ∈ demo_blocks)
      (map_to_list (orphan_pool_ demo_orphans))) as HF
      by (apply (bool_decide_unpack _); by vm_compute).
    rewrite Forall_forall in HF. apply demo_known, (HF _ E).
  - by vm_compute.
  - by vm_compute.
Defined.

Lemma heavier_means_more_work_witness :
  is_fork_heavier Bc.demo_chain demo_fork =
  Ok (Bc.tip_work (blocks_ Bc.demo_chain) <?
      Bc.tip_work (blocks_ (Bc.reorganize_to demo_fork Bc.demo_chain).2)).
Proof.
  apply (heavier_means_more_work Bc.demo_chain demo_fork); [apply Bc.demo_chain_inv|].
  split_and!; [by vm_compute|by vm_compute|apply (bool_decide_unpack _); by vm_compute|].
  intros [|[|k]] E; [|by vm_compute in E..]. apply (bool_decide_unpack _). by vm_compute.
Defined.
End witnesses.
End Fork.
