(* ===== verification/BlockLocator.v ===== *)
(** * Block locators (src/core/BlockLocator.cpp)

    The sparse list of hashes a node sends to find where its chain leaves a peer's, and
    the search for the first of them the peer knows. The loop's fuel is the chain's size:
    the height falls by at least one per turn (lemma [locator_loop_heights]). The step
    never exceeds twice the height, so its 64-bit doubling cannot wrap on a chain of
    fewer than 2^63 blocks. *)

From S2P Require Import Prelude Codec Crypto Demo Transaction Block OrphanPool Blockchain.
From S2P Require Import ForkResolution.

Module Loc.

Fixpoint locator_loop (fuel : nat) (chain : Blockchain) (hashes : list HashBytes)
    (step height : nat) : result (list HashBytes) :=
  match fuel with
  | O => mret hashes
  | S fuel =>
      if (0 <? height)%nat then
        block ← Bc.at_ height chain;
        let hashes := hashes ++ [hash_ block] in
        let step := if (10 <=? length hashes)%nat then (step * 2)%nat else step in
        if (height <? step)%nat then mret hashes
        else locator_loop fuel chain hashes step (height - step)
      else mret hashes
  end.

Definition build_locator (chain : Blockchain) : result (list HashBytes) :=
  if (Bc.size chain =? 0)%nat then mret [] else
  let height := (Bc.size chain - 1)%nat in
  hashes ← locator_loop (Bc.size chain) chain [] 1 height;
  genesis ← Bc.at_ 0 chain;
  mret (hashes ++ [hash_ genesis]).

Fixpoint find_locator_match (chain : Blockchain) (locator : list HashBytes) : option nat :=
  match locator with
  | [] => None
  | hash :: locator =>
      match Bc.find_height hash chain with
      | Some index => Some index
      | None => find_locator_match chain locator
      end
  end.

(** ** The heights a locator samples *)

Fixpoint locator_heights (fuel count step height : nat) : list nat :=
  match fuel with
  | O => []
  | S fuel =>
      if (0 <? height)%nat then
        let step := if (10 <=? S count)%nat then (step * 2)%nat else step in
        height :: (if (height <? step)%nat then []
                   else locator_heights fuel (S count) step (height - step))
      else []
  end.

(** The heights, newest first, genesis last. *)
Definition sampled (n : nat) : list nat := locator_heights n 0 1 (n - 1) ++ [0%nat].

Lemma locator_loop_heights fuel c hashes step height :
  (height < Bc.size c)%nat → (0 < step)%nat →
  locator_loop fuel c hashes step height =
  Ok (hashes ++ omap (λ i, (hash_ <$> blocks_ c) !! i) (locator_heights fuel (length hashes) step height)).
Proof.
  revert hashes step height. induction fuel as [|fuel IH]; intros hashes step height Hh Hs.
  { simpl. by rewrite app_nil_r. }
  cbn [locator_loop locator_heights]. case_bool; [|simpl; by rewrite app_nil_r].
  destruct (lookup_lt_is_Some_2 (blocks_ c) height Hh) as [b Hb].
  unfold Bc.at_. rewrite Hb. cbn [of_option mbind result_bind].
  rewrite length_app, Nat.add_comm. cbn [length Nat.add omap list_omap].
  rewrite list_lookup_fmap, Hb. cbn [fmap option_fmap option_map].
  destruct (Nat.ltb_spec height (if (10 <=? S (length hashes))%nat then step * 2 else step)%nat); [done|].
  rewrite IH; [|lia|case_match; lia].
  rewrite length_app, Nat.add_comm, <- app_assoc. done.
Qed.

(** Strictly decreasing, within the chain. *)
Lemma locator_heights_sorted fuel count step height :
  (0 < step)%nat →
  StronglySorted (λ i j, (j < i)%nat) (locator_heights fuel count step height) ∧
  Forall (λ i, (0 < i <= height)%nat) (locator_heights fuel count step height).
Proof.
  revert count step height. induction fuel as [|fuel IH]; intros count step height Hs.
  { by repeat constructor. }
  cbn [locator_heights]. case_bool; [|by repeat constructor].
  set (step' := if (10 <=? S count)%nat then (step * 2)%nat else step).
  assert (0 < step')%nat by (unfold step'; case_match; lia).
  destruct (Nat.ltb_spec height step'); [by repeat constructor; lia|].
  destruct (IH (S count) step' (height - step')%nat) as [IH1 IH2]; [done|]. split.
  - constructor; [done|]. eapply Forall_impl; [exact IH2|]. simpl. lia.
  - constructor; [lia|]. eapply Forall_impl; [exact IH2|]. simpl. lia.
Qed.

(** Once ten hashes are out the stride doubles, so the rest is logarithmic. *)
Lemma locator_heights_log fuel count step height :
  (9 <= count)%nat → (0 < step)%nat → (0 < height)%nat →
  (length (locator_heights fuel count step height) <= 1 + Nat.log2 (height / step))%nat.
Proof.
  revert count step height. induction fuel as [|fuel IH]; intros count step height Hc Hs Hh; [simpl; lia|].
  cbn [locator_heights]. rewrite (proj2 (Nat.ltb_lt 0 height)) by done.
  rewrite (proj2 (Nat.leb_le 10 (S count))) by lia. cbn [length].
  destruct (Nat.ltb_spec height (step * 2)); [simpl; lia|].
  assert (2 <= height / step)%nat as Hq by (apply Nat.div_le_lower_bound; lia).
  assert (1 <= Nat.log2 (height / step))%nat by (apply (Nat.log2_le_mono 2); done).
  destruct (decide (height - step * 2 = 0)%nat) as [E|E].
  { rewrite E. destruct fuel; simpl; lia. }
  specialize (IH (S count) (step * 2)%nat (height - step * 2)%nat ltac:(lia) ltac:(lia) ltac:(lia)).
  assert (2 * ((height - step * 2) / (step * 2)) <= height / step)%nat as Hle.
  { apply Nat.div_le_lower_bound; [lia|].
    pose proof (Nat.Div0.mul_div_le (height - step * 2) (step * 2)). lia. }
  destruct (decide ((height - step * 2) / (step * 2) = 0)%nat) as [E0|E0].
  { rewrite E0 in IH. change (Nat.log2 0) with 0%nat in IH. lia. }
  pose proof (Nat.log2_le_mono _ _ Hle). rewrite Nat.log2_double in * by lia. lia.
Qed.

Lemma locator_heights_length fuel count step height k :
  (count + k = 9)%nat → (0 < step)%nat → (0 < height)%nat →
  (length (locator_heights fuel count step height) <= k + 1 + Nat.log2 (height / step))%nat.
Proof.
  revert fuel count height. induction k as [|k IH]; intros fuel count height Hk Hs Hh.
  { apply locator_heights_log; lia. }
  destruct fuel as [|fuel]; [simpl; lia|]. cbn [locator_heights].
  rewrite (proj2 (Nat.ltb_lt 0 height)) by done. rewrite (proj2 (Nat.leb_gt 10 (S count))) by lia.
  cbn [length]. destruct (Nat.ltb_spec height step); [simpl; lia|].
  destruct (decide (height - step = 0)%nat) as [->|]; [destruct fuel; simpl; lia|].
  specialize (IH fuel (S count) (height - step)%nat ltac:(lia) Hs ltac:(lia)).
  assert ((height - step) / step <= height / step)%nat as Hle by (apply Nat.Div0.div_le_mono; lia).
  pose proof (Nat.log2_le_mono _ _ Hle). lia.
Qed.

Lemma sampled_bounds n :
  (0 < n)%nat →
  head (sampled n) = Some (n - 1)%nat ∧ last (sampled n) = Some 0%nat ∧
  StronglySorted (λ i j, (j < i)%nat) (sampled n) ∧
  (length (sampled n) <= 11 + Nat.log2 n)%nat.
Proof.
  intros Hn. unfold sampled. destruct (locator_heights_sorted n 0 1 (n - 1)) as [Hs Hf]; [lia|].
  split_and!.
  - destruct n as [|n]; [lia|]. cbn [locator_heights]. case_bool; [done|].
    simpl. f_equal. lia.
  - apply last_snoc.
  - clear - Hs Hf. induction Hs as [|x l Hs IH Hx]; [by repeat constructor|].
    apply Forall_cons in Hf as [Hx0 Hf]. simpl. constructor; [by apply IH|].
    apply Forall_app. split; [done|]. constructor; [lia|done].
  - rewrite length_app. simpl. destruct (decide (n = 1)%nat) as [->|]; [simpl; lia|].
    pose proof (locator_heights_length n 0 1 (n - 1) 9 ltac:(lia) ltac:(lia) ltac:(lia)) as Hl.
    rewrite Nat.div_1_r in Hl. pose proof (Nat.log2_le_mono (n - 1) n ltac:(lia)). lia.
Qed.

Lemma build_locator_eq c :
  (0 < Bc.size c)%nat →
  build_locator c = Ok (omap (λ i, (hash_ <$> blocks_ c) !! i) (sampled (Bc.size c))).
Proof.
  intros Hn. unfold build_locator, sampled. rewrite (proj2 (Nat.eqb_neq _ 0)) by lia.
  rewrite locator_loop_heights by lia. cbn [mbind result_bind].
  destruct (lookup_lt_is_Some_2 (blocks_ c) 0) as [g Hg]; [done|].
  unfold Bc.at_. rewrite Hg. cbn [of_option mbind result_bind app length].
  rewrite omap_app. cbn [omap list_omap]. by rewrite list_lookup_fmap, Hg.
Qed.

(** ** Matching *)

Lemma find_locator_match_spec c locator i :
  find_locator_match c locator = Some i ↔
  ∃ l1 h l2, locator = l1 ++ h :: l2 ∧ Forall (λ h, Bc.find_height h c = None) l1 ∧
             Bc.find_height h c = Some i.
Proof.
  induction locator as [|h locator IH]; simpl.
  { split; [done|]. by intros ([|] & ? & ? & ? & _). }
  destruct (Bc.find_height h c) as [j|] eqn:E.
  - split.
    + intros [= ->]. by exists [], h, locator.
    + intros ([|x l1] & h' & l2 & [= -> ->] & Hl & Hh); [congruence|].
      apply Forall_cons in Hl as [? _]. congruence.
  - rewrite IH. split.
    + intros (l1 & h' & l2 & -> & Hl & Hh). exists (h :: l1), h', l2. split_and!; [done|by constructor|done].
    + intros ([|x l1] & h' & l2 & [= -> ->] & Hl & Hh); [congruence|].
      apply Forall_cons in Hl as [_ Hl]. by exists l1, h', l2.
Qed.

(** Over decreasing heights, the first match is the highest one. *)
Lemma first_match l (f : nat → option HashBytes) b :
  StronglySorted (λ i j, (j < i)%nat) l →
  (∃ i h, i ∈ l ∧ f i = Some h ∧ Bc.has_block h b = true) →
  ∃ i j h, f i = Some h ∧ Bc.find_height h b = Some j ∧
    find_locator_match b (omap f l) = Some j ∧
    ∀ k h', k ∈ l → f k = Some h' → Bc.has_block h' b = true → (k <= i)%nat.
Proof.
  induction 1 as [|x l _ IH Hx]; intros (i & h & Hi & Ei & Hh); [by apply elem_of_nil in Hi|].
  assert (∀ h, Bc.has_block h b = true ↔ is_Some (Bc.find_height h b)) as Hhas.
  { intros h'. rewrite Bc.find_height_eq. apply bool_decide_eq_true. }
  destruct (f x) as [hx|] eqn:Ex; [destruct (Bc.find_height hx b) as [j|] eqn:Ej|].
  - exists x, j, hx. cbn [omap list_omap]. rewrite Ex. cbn [find_locator_match]. rewrite Ej.
    split_and!; [done..|]. intros k h' [->|Hk]%elem_of_cons _ _; [lia|].
    rewrite Forall_forall in Hx. specialize (Hx k Hk). simpl in Hx. lia.
  - destruct IH as (i' & j & h' & E1 & E2 & E3 & Hbest).
    { exists i, h. apply elem_of_cons in Hi as [->|Hi]; [|done].
      rewrite Hhas in Hh. destruct Hh. congruence. }
    exists i', j, h'. cbn [omap list_omap]. rewrite Ex. cbn [find_locator_match]. rewrite Ej.
    split_and!; [done..|]. intros k h'' [->|Hk]%elem_of_cons Ek Hhk; [|by eapply Hbest].
    rewrite Hhas in Hhk. destruct Hhk. congruence.
  - destruct IH as (i' & j & h' & E1 & E2 & E3 & Hbest).
    { exists i, h. apply elem_of_cons in Hi as [->|Hi]; [congruence|done]. }
    exists i', j, h'. cbn [omap list_omap]. rewrite Ex.
    split_and!; [done..|]. intros k h'' [->|Hk]%elem_of_cons Ek Hhk; [congruence|by eapply Hbest].
Qed.

Section sync.
Context `{CryptoLaws} (U : bytes → Prop) {CF : CollisionFree U}.

(** Two valid chains that share one hash share the whole prefix below it. *)
Lemma common_prefix a b i j h :
  Bc.inv a → Bc.inv b → Forall (Fork.known U) (blocks_ a) → Forall (Fork.known U) (blocks_ b) →
  (hash_ <$> blocks_ a) !! i = Some h → (hash_ <$> blocks_ b) !! j = Some h →
  i = j ∧ take (i + 1) (hash_ <$> blocks_ a) = take (i + 1) (hash_ <$> blocks_ b).
Proof.
  intros Ha Hb Ka Kb. revert j h. induction i as [|i IH]; intros j h Hi Hj.
  - pose proof Ha as (_ & (la & Ea & _) & _). pose proof Hb as ((Hn & _) & (lb & Eb & _) & _).
    assert (j = 0%nat) as ->.
    { eapply (NoDup_lookup (hash_ <$> blocks_ b)); [done|exact Hj|].
      rewrite Ea in Hi. simpl in Hi. injection Hi as <-. by rewrite Eb. }
    split; [done|]. by rewrite Ea, Eb.
  - rewrite list_lookup_fmap in Hi. pose proof Hi as (x & Hx & ->)%fmap_Some.
    destruct (Fork.chain_prev a i x Ha Hx) as (a' & Ha' & Ep).
    assert (Fork.known U x) as Kx by (rewrite Forall_forall in Ka; by eapply Ka, list_elem_of_lookup_2).
    assert (Fork.known U a') as Ka' by (rewrite Forall_forall in Ka; by eapply Ka, list_elem_of_lookup_2).
    pose proof (Fork.known_in_chain U b x j _ Hb Kb Kx Hj eq_refl) as E. destruct j as [|j].
    { rewrite Ep in E. by apply Fork.known_nonzero in Ka'. }
    destruct E as (b' & Hb' & E). rewrite Ep in E.
    destruct (IH j (hash_ a')) as [-> Et].
    { by rewrite list_lookup_fmap, Ha'. }
    { rewrite list_lookup_fmap, Hb'. simpl. by rewrite E. }
    split; [done|]. rewrite !Nat.add_1_r in *.
    rewrite (take_S_r (hash_ <$> blocks_ a) (S j) (hash_ x)) by by rewrite list_lookup_fmap, Hx.
    rewrite (take_S_r (hash_ <$> blocks_ b) (S j) (hash_ x)) by done. by rewrite Et.
Qed.

(** ** Properties *)

(** Shape of a locator: it samples the chain at strictly decreasing heights from the
    tip to genesis, and has at most [11 + log2 n] entries for a chain of [n] blocks. *)
Theorem locator_shape c :
  (0 < Bc.size c)%nat →
  ∃ heights, build_locator c = Ok (omap (λ i, (hash_ <$> blocks_ c) !! i) heights) ∧
    head heights = Some (Bc.size c - 1)%nat ∧ last heights = Some 0%nat ∧
    StronglySorted (λ i j, (j < i)%nat) heights ∧
    (length heights <= 11 + Nat.log2 (Bc.size c))%nat.
Proof.
  intros Hn. exists (sampled (Bc.size c)). split; [by apply build_locator_eq|]. by apply sampled_bounds.
Qed.

(** Synchronising by locator: for any two valid chains, the responder always matches
    the requester's locator, at a height up to which the two chains are identical, and no
    sampled height above the match is common to both. *)
Theorem locator_match_common_prefix a b :
  Bc.inv a → Bc.inv b → Forall (Fork.known U) (blocks_ a) → Forall (Fork.known U) (blocks_ b) →
  ∃ locator i, build_locator a = Ok locator ∧ find_locator_match b locator = Some i ∧
    take (i + 1) (hash_ <$> blocks_ a) = take (i + 1) (hash_ <$> blocks_ b) ∧
    ∀ j h, j ∈ sampled (Bc.size a) → (hash_ <$> blocks_ a) !! j = Some h →
           Bc.has_block h b = true → (j <= i)%nat.
Proof.
  intros Ha Hb Ka Kb. assert (0 < Bc.size a)%nat as Hn.
  { destruct Ha as (_ & (l & E & _) & _). unfold Bc.size. rewrite E. simpl. lia. }
  destruct (first_match (sampled (Bc.size a)) (λ i, (hash_ <$> blocks_ a) !! i) b)
    as (i & j & h & Ei & Ej & Hm & Hbest).
  { by apply sampled_bounds. }
  { destruct (sampled_bounds _ Hn) as (_ & Hlast & _). apply last_Some_elem_of in Hlast.
    pose proof Ha as (_ & (la & Ea & _) & _). pose proof Hb as (Hib & (lb & Eb & _) & _).
    exists 0%nat, (hash_ Bc.genesis). split_and!; [done|by rewrite Ea|].
    apply Bc.has_block_spec; [done|]. rewrite Eb. left. }
  destruct (common_prefix a b i j h Ha Hb Ka Kb Ei) as [-> Hpre].
  { apply Hb. by rewrite <- Bc.find_height_eq. }
  eexists _, j. split_and!; [by apply build_locator_eq|done..].
Qed.
End sync.

(** ** Witnesses *)
Section witnesses.
#[local] Existing Instance demo_crypto.
#[local] Existing Instance demo_crypto_laws.

Definition other_chain : Blockchain := Bc.add_all [Bc.demo_b; Bc.demo_b2] Bc.make.

Lemma locator_shape_witness :
  ∃ heights, build_locator other_chain = Ok (omap (λ i, (hash_ <$> blocks_ other_chain) !! i) heights) ∧
    head heights = Some (Bc.size other_chain - 1)%nat ∧ last heights = Some 0%nat ∧
    StronglySorted (λ i j, (j < i)%nat) heights ∧
    (length heights <= 11 + Nat.log2 (Bc.size other_chain))%nat.
Proof. apply (locator_shape other_chain). apply (bool_decide_unpack _). by vm_compute. Defined.

Lemma other_chain_inv : Bc.inv other_chain.
Proof.
  eapply Bc.add_all_inv; [apply Bc.make_inv|reflexivity|by vm_compute|..];
    apply (bool_decide_unpack _); by vm_compute.
Qed.

Lemma locator_match_common_prefix_witness :
  ∃ locator i, build_locator Bc.demo_chain = Ok locator ∧
    find_locator_match other_chain locator = Some i ∧
    take (i + 1) (hash_ <$> blocks_ Bc.demo_chain) = take (i + 1) (hash_ <$> blocks_ other_chain) ∧
    ∀ j h, j ∈ sampled (Bc.size Bc.demo_chain) → (hash_ <$> blocks_ Bc.demo_chain) !! j = Some h →
           Bc.has_block h other_chain = true → (j <= i)%nat.
Proof.
  apply (locator_match_common_prefix Fork.demo_universe (CF := Fork.demo_collision_free)).
  - apply Bc.demo_chain_inv.
  - apply other_chain_inv.
  - apply Forall_cons_2; [apply Fork.demo_known; by left|]. apply Forall_singleton.
    apply (Fork.known_set_work Fork.demo_universe _ Bc.demo_a), Fork.demo_known. right. by left.
  - apply Forall_cons_2; [apply Fork.demo_known; by left|]. apply Forall_cons_2; [|apply Forall_singleton].
    + apply (Fork.known_set_work Fork.demo_universe _ Bc.demo_b), Fork.demo_known.
      do 2 right. by left.
    + apply (Fork.known_set_work Fork.demo_universe _ Bc.demo_b2), Fork.demo_known.
      do 3 right. by left.
Defined.
End witnesses.
End Loc.
