(* ===== verification/Storage.v ===== *)
(** * Persistent storage (src/storage/Storage.cpp)

    SQLite is a parameter. [sql_stmt] and [sql_query] are the SQL texts the code prepares,
    with their bound arguments; [Sqlite] is the library executing them and [SqliteLaws]
    the documented behaviour the code relies on: the effect of each statement on the two
    tables, that a failed statement has no effect or rolls the open transaction back,
    and that [ROLLBACK] undoes to [BEGIN]. A read does not fail here. The handles under the
    operations, the [int] that sizes are passed as, and the failures of every call are in
    Sqlite.v, which proves that the code over the handles does what is said here as long as
    nothing fails but opening, preparing and writing.

    [BlockStore] is the contract the chain manager uses; [Storage] implements it. *)

From S2P Require Import Prelude Codec Crypto Demo Transaction Block.

(** [static_cast<int64_t>] *)
Definition i64 (z : Z) : Z := let m := u64 z in if m <? 2 ^ 63 then m else m - 2 ^ 64.

Lemma u64_i64 z : in_u 64 z → u64 (i64 z) = z.
Proof.
  intros Hz. unfold i64. rewrite (wrap_small 64 z) by done. case_bool; [by apply wrap_small|].
  unfold wrap. rewrite <- (Z.mod_add _ 1) by done. by rewrite Z.mul_1_l, Z.sub_add, Z.mod_small.
Qed.

Lemma i64_small z : 0 <= z < 2 ^ 63 → i64 z = z.
Proof.
  intros Hz. change (2 ^ 63) with 9223372036854775808 in Hz. unfold i64.
  rewrite wrap_small by solve_width. change (2 ^ 63) with 9223372036854775808.
  case_bool; lia.
Qed.

(** ** SQLite *)

Inductive sql_stmt :=
| CREATE_blocks
| CREATE_balances
| INSERT_block (height : Z) (hash serialized : bytes)
| DELETE_blocks_from (height : Z)
| INSERT_balance (address : str) (amount : Z)
| BEGIN
| COMMIT
| ROLLBACK.

Inductive sql_query :=
| SELECT_block (height : Z)
| COUNT_blocks
| SELECT_balance (address : str)
| SELECT_balances.

Inductive sql_value := SqlInt (z : Z) | SqlBlob (b : bytes) | SqlText (s : str).

(** The texts the source prepares, where [?] stands for the arguments. *)
Definition sql_text (s : sql_stmt) : str := lit
  match s with
  | CREATE_blocks => "CREATE TABLE IF NOT EXISTS blocks (height INTEGER PRIMARY KEY, hash BLOB NOT NULL UNIQUE, serialized BLOB NOT NULL)"
  | CREATE_balances => "CREATE TABLE IF NOT EXISTS balances (address TEXT PRIMARY KEY, amount INTEGER NOT NULL)"
  | INSERT_block _ _ _ => "INSERT OR REPLACE INTO blocks (height, hash, serialized) VALUES (?, ?, ?)"
  | DELETE_blocks_from _ => "DELETE FROM blocks WHERE height >= ?"
  | INSERT_balance _ _ => "INSERT OR REPLACE INTO balances (address, amount) VALUES (?, ?)"
  | BEGIN => "BEGIN"
  | COMMIT => "COMMIT"
  | ROLLBACK => "ROLLBACK"
  end.

Definition query_text (q : sql_query) : str := lit
  match q with
  | SELECT_block _ => "SELECT serialized FROM blocks WHERE height = ?"
  | COUNT_blocks => "SELECT COUNT(*) FROM blocks"
  | SELECT_balance _ => "SELECT amount FROM balances WHERE address = ?"
  | SELECT_balances => "SELECT address, amount FROM balances"
  end.

(** [prepare]: the text compiles; [exec]: the statement is stepped, [true] for
    [SQLITE_DONE]; [rows]: the rows successive steps of a query return. *)
Class Sqlite := {
  db : Type;
  sql_prepare : str → db → bool;
  sql_exec : sql_stmt → db → bool * db;
  sql_rows : sql_query → db → list (list sql_value)
}.

(** The rows of the two tables, and whether the tables exist. *)
Record Tables := mkTables {
  t_blocks : gmap Z (HashBytes * bytes);
  t_balances : gmap str Z;
  t_has_blocks : bool;
  t_has_balances : bool
}.

(** The effect of a statement that completes. [INSERT OR REPLACE] first removes every
    row that would violate a uniqueness constraint: the height's and the hash's. *)
Definition sql_effect (s : sql_stmt) (t : Tables) : Tables :=
  match s with
  | CREATE_blocks => mkTables (t_blocks t) (t_balances t) true (t_has_balances t)
  | CREATE_balances => mkTables (t_blocks t) (t_balances t) (t_has_blocks t) true
  | INSERT_block height hash serialized =>
      mkTables (<[height := (hash, serialized)]> (filter (λ kv, kv.2.1 ≠ hash) (t_blocks t)))
        (t_balances t) (t_has_blocks t) (t_has_balances t)
  | DELETE_blocks_from height =>
      mkTables (filter (λ kv, kv.1 < height) (t_blocks t)) (t_balances t) (t_has_blocks t) (t_has_balances t)
  | INSERT_balance address amount =>
      mkTables (t_blocks t) (<[address := amount]> (t_balances t)) (t_has_blocks t) (t_has_balances t)
  | BEGIN | COMMIT | ROLLBACK => t
  end.

(** A statement compiles when its table exists. *)
Definition stmt_compiles (s : sql_stmt) (t : Tables) : bool :=
  match s with
  | INSERT_block _ _ _ | DELETE_blocks_from _ => t_has_blocks t
  | INSERT_balance _ _ => t_has_balances t
  | CREATE_blocks | CREATE_balances | BEGIN | COMMIT | ROLLBACK => true
  end.

Definition query_compiles (q : sql_query) (t : Tables) : bool :=
  match q with
  | SELECT_block _ | COUNT_blocks => t_has_blocks t
  | SELECT_balance _ | SELECT_balances => t_has_balances t
  end.

Definition sql_answer (q : sql_query) (t : Tables) : list (list sql_value) :=
  match q with
  | SELECT_block height =>
      match t_blocks t !! height with Some (_, serialized) => [[SqlBlob serialized]] | None => [] end
  | COUNT_blocks => [[SqlInt (Z.of_nat (size (t_blocks t)))]]
  | SELECT_balance address =>
      match t_balances t !! address with Some amount => [[SqlInt amount]] | None => [] end
  | SELECT_balances => (λ kv, [SqlText kv.1; SqlInt kv.2]) <$> map_to_list (t_balances t)
  end.

Class SqliteLaws `{Sqlite} := {
  view : db → Tables;  (** what this connection sees *)
  txn : db → option Tables;  (** inside a transaction: the tables at its [BEGIN] *)
  law_prepare s d : stmt_compiles s (view d) = true → sql_prepare (sql_text s) d = true;
  law_prepare_query q d : query_compiles q (view d) = true → sql_prepare (query_text q) d = true;
  law_write s d d' :
    s ≠ BEGIN → s ≠ COMMIT → s ≠ ROLLBACK → sql_exec s d = (true, d') →
    view d' = sql_effect s (view d) ∧ txn d' = txn d;
  law_begin d d' : sql_exec BEGIN d = (true, d') →
    txn d = None ∧ view d' = view d ∧ txn d' = Some (view d);
  law_commit d d' : sql_exec COMMIT d = (true, d') → view d' = view d ∧ txn d' = None;
  law_rollback d t : txn d = Some t →
    ∃ d', sql_exec ROLLBACK d = (true, d') ∧ view d' = t ∧ txn d' = None;
  law_failure s d d' : sql_exec s d = (false, d') →
    (view d' = view d ∧ txn d' = txn d) ∨
    (∃ t, txn d = Some t ∧ view d' = t ∧ txn d' = None);
  law_rollback_idle d d' : txn d = None → sql_exec ROLLBACK d = (true, d') → view d' = view d ∧ txn d' = None;
  law_query q d : sql_rows q d ≡ₚ sql_answer q (view d)
}.

(** ** The contract the chain manager relies on

    [mirrors s l]: the store holds exactly the blocks [l], by height, and no transaction
    is open. *)
Class BlockStore := {
  store : Type;
  bs_save_block : Block → nat → ST store unit;
  bs_replace_blocks_from : nat → list Block → ST store unit;
  bs_load_block : nat → ST store (option Block);
  bs_block_count : ST store Z
}.

Class BlockStoreLaws `{Crypto, BlockStore} := {
  mirrors : store → list Block → Prop;
  bsl_save s l b s' :
    mirrors s l → NoDup (hash_ <$> l ++ [b]) → sz l < 2 ^ 63 →
    bs_save_block b (length l) s = (Ok tt, s') → mirrors s' (l ++ [b]);
  bsl_replace s l k new s' :
    mirrors s l → (k <= length l)%nat → NoDup (hash_ <$> take k l ++ new) →
    sz l < 2 ^ 63 → Z.of_nat k + sz new < 2 ^ 63 →
    bs_replace_blocks_from k new s = (Ok tt, s') → mirrors s' (take k l ++ new);
  bsl_load s l i b :
    mirrors s l → sz l < 2 ^ 63 → l !! i = Some b → Blk.wf b →
    bs_load_block i s = (Ok (Some (Blk.on_arrival b)), s);
  bsl_count s l : mirrors s l → sz l < 2 ^ 63 → bs_block_count s = (Ok (sz l), s);
  bsl_works s l l' : Blk.fields <$> l = Blk.fields <$> l' → hash_ <$> l = hash_ <$> l' →
    mirrors s l → mirrors s l'
}.

Module Sto.

Section storage.
Context `{Sqlite}.

Definition sql_step (s : sql_stmt) : ST db bool := λ d, let '(ok, d') := sql_exec s d in (Ok ok, d').

(** Prepare, throw unless [is_valid()]; bind and step, throw unless [SQLITE_DONE]. *)
Definition run_stmt (s : sql_stmt) : ST db unit :=
  d ← st_get;
  if negb (sql_prepare (sql_text s) d) then st_lift (Throw RuntimeError) else
  ok ← sql_step s;
  if negb ok then st_lift (Throw RuntimeError) else mret tt.

Definition run_query (q : sql_query) : ST db (list (list sql_value)) :=
  d ← st_get;
  if negb (sql_prepare (query_text q) d) then st_lift (Throw RuntimeError) else
  mret (sql_rows q d).

Definition create_schema : ST db unit :=
  run_stmt CREATE_blocks;; run_stmt CREATE_balances.

Definition save_block (block : Block) (height : nat) : ST db unit :=
  run_stmt (INSERT_block (i64 (Z.of_nat height)) (hash_ block) (Blk.serialize block)).

(** The first [step()]; anything but a row with the blob is [std::nullopt]. *)
Definition load_block `{Crypto} (height : nat) : ST db (option Block) :=
  rows ← run_query (SELECT_block (i64 (Z.of_nat height)));
  match rows with
  | (SqlBlob raw :: _) :: _ => mret (Blk.deserialize raw)
  | _ => mret None
  end.

Definition block_count : ST db Z :=
  rows ← run_query COUNT_blocks;
  match rows with
  | (SqlInt n :: _) :: _ => mret (u64 n)
  | _ => st_lift (Throw RuntimeError)
  end.

Definition delete_blocks_from (height : nat) : ST db unit :=
  run_stmt (DELETE_blocks_from (i64 (Z.of_nat height))).

Fixpoint save_blocks (height : nat) (blocks : list Block) : ST db unit :=
  match blocks with
  | [] => mret tt
  | b :: blocks => save_block b height;; save_blocks (S height) blocks
  end.

(** The handler: the result of [ROLLBACK] is ignored. *)
Definition rollback (d : db) : db :=
  if sql_prepare (sql_text ROLLBACK) d then (sql_exec ROLLBACK d).2 else d.

Definition replace_blocks_from (height : nat) (blocks : list Block) : ST db unit :=
  run_stmt BEGIN;;
  st_catch (delete_blocks_from height;; save_blocks height blocks)
    (λ e, st_modify rollback;; st_lift (Throw e));;
  run_stmt COMMIT.

Definition save_balance (address : str) (amount : Z) : ST db unit :=
  run_stmt (INSERT_balance (c_str address) (i64 amount)).

Definition load_balance (address : str) : ST db (option Z) :=
  rows ← run_query (SELECT_balance (c_str address));
  match rows with
  | (SqlInt amount :: _) :: _ => mret (Some (u64 amount))
  | _ => mret None
  end.

Definition load_all_balances : ST db (list (str * Z)) :=
  rows ← run_query SELECT_balances;
  mret (omap (λ row, match row with
                     | SqlText address :: SqlInt amount :: _ => Some (c_str address, u64 amount)
                     | _ => None
                     end) rows).
End storage.

(** ** What reaches the disk *)

Section laws.
Context `{SqliteLaws}.

(** The committed tables: those another connection, or a restart, would see. *)
Definition durable (d : db) : Tables := default (view d) (txn d).

(** Rows for [blocks] from [height] up, as [save_blocks] writes them. *)
Fixpoint rows_saved (height : nat) (blocks : list Block) (t : Tables) : Tables :=
  match blocks with
  | [] => t
  | b :: blocks =>
      rows_saved (S height) blocks
        (sql_effect (INSERT_block (i64 (Z.of_nat height)) (hash_ b) (Blk.serialize b)) t)
  end.

Definition plain (s : sql_stmt) : Prop := s ≠ BEGIN ∧ s ≠ COMMIT ∧ s ≠ ROLLBACK.

(** A data statement takes effect or throws; a throw leaves the tables alone or has
    rolled the transaction back. *)
Lemma run_stmt_plain s d :
  plain s →
  match run_stmt s d with
  | (Ok _, d') => view d' = sql_effect s (view d) ∧ txn d' = txn d
  | (Throw _, d') => (view d' = view d ∧ txn d' = txn d) ∨
                     (∃ t, txn d = Some t ∧ view d' = t ∧ txn d' = None)
  end.
Proof.
  intros (? & ? & ?). unfold run_stmt, mbind, ST_bind, st_get, sql_step.
  destruct (sql_prepare (sql_text s) d); simpl; [|by left].
  destruct (sql_exec s d) as [[] d'] eqn:E; simpl; [by apply law_write|by eapply law_failure].
Qed.

Lemma durable_keep d d' : view d' = view d → txn d' = txn d → durable d' = durable d.
Proof. unfold durable. by intros -> ->. Qed.

(** Inside a transaction the saved rows are visible but not durable. *)
Lemma save_blocks_txn blocks height d t :
  txn d = Some t →
  match save_blocks height blocks d with
  | (Ok _, d') => view d' = rows_saved height blocks (view d) ∧ txn d' = Some t
  | (Throw _, d') => durable d' = t
  end.
Proof.
  revert height d. induction blocks as [|b blocks IH]; intros height d Ht; [done|].
  cbn [save_blocks rows_saved]. unfold mbind, ST_bind at 1. unfold save_block.
  pose proof (run_stmt_plain (INSERT_block (i64 (Z.of_nat height)) (hash_ b) (Blk.serialize b)) d
    ltac:(done)) as Hr.
  destruct (run_stmt _ d) as [[[]|e] d1].
  - destruct Hr as [Hv Htx]. rewrite Ht in Htx. specialize (IH (S height) d1 Htx). by rewrite Hv in IH.
  - unfold durable. destruct Hr as [[-> ->]|(t' & Et & -> & ->)]; rewrite Ht in *; simpl in *; congruence.
Qed.

Lemma replace_body height blocks d t :
  txn d = Some t →
  match (delete_blocks_from height;; save_blocks height blocks) d with
  | (Ok _, d') =>
      view d' = rows_saved height blocks (sql_effect (DELETE_blocks_from (i64 (Z.of_nat height))) (view d)) ∧
      txn d' = Some t
  | (Throw _, d') => durable d' = t
  end.
Proof.
  intros Ht. unfold mbind, ST_bind at 1. unfold delete_blocks_from.
  pose proof (run_stmt_plain (DELETE_blocks_from (i64 (Z.of_nat height))) d ltac:(done)) as Hr.
  destruct (run_stmt _ d) as [[[]|e] d1].
  - destruct Hr as [Hv Htx]. rewrite Ht in Htx. rewrite <- Hv. by apply save_blocks_txn.
  - unfold durable. destruct Hr as [[-> ->]|(t' & Et & -> & ->)]; rewrite Ht in *; simpl in *; congruence.
Qed.

Lemma rollback_durable d : durable (rollback d) = durable d.
Proof.
  unfold rollback. rewrite law_prepare by done. destruct (txn d) as [t|] eqn:E.
  - destruct (law_rollback d t E) as (d' & -> & Hv & Ht). unfold durable. simpl. by rewrite Ht, Hv, E.
  - destruct (sql_exec ROLLBACK d) as [[] d'] eqn:Er; simpl.
    + destruct (law_rollback_idle d d' E Er). unfold durable. by rewrite H1, H2, E.
    + destruct (law_failure _ _ _ Er) as [[Hv Ht]|(t & Ht & _)]; [by apply durable_keep|congruence].
Qed.

Lemma rollback_closes d : txn (rollback d) = None.
Proof.
  unfold rollback. rewrite law_prepare by done. destruct (txn d) as [t|] eqn:E.
  - by destruct (law_rollback d t E) as (d' & -> & _ & Ht).
  - destruct (sql_exec ROLLBACK d) as [[] d'] eqn:Er; simpl; [by destruct (law_rollback_idle d d' E Er)|].
    destruct (law_failure _ _ _ Er) as [[_ ->]|(t & Ht & _)]; [done|congruence].
Qed.

Lemma failure_durable s d d' : sql_exec s d = (false, d') → durable d' = durable d.
Proof.
  intros [[Hv Ht]|(t & Ht & Hv & Ht')]%law_failure; [by apply durable_keep|].
  unfold durable. by rewrite Ht, Ht', Hv.
Qed.

Lemma run_stmt_begin d :
  match run_stmt BEGIN d with
  | (Ok _, d') => txn d = None ∧ view d' = view d ∧ txn d' = Some (view d)
  | (Throw _, d') => durable d' = durable d
  end.
Proof.
  unfold run_stmt, mbind, ST_bind, st_get, sql_step. rewrite law_prepare by done. cbn [negb].
  destruct (sql_exec BEGIN d) as [[] d'] eqn:E; cbn; [by apply law_begin|by eapply failure_durable].
Qed.

Lemma run_stmt_commit d :
  match run_stmt COMMIT d with
  | (Ok _, d') => view d' = view d ∧ txn d' = None
  | (Throw _, d') => durable d' = durable d
  end.
Proof.
  unfold run_stmt, mbind, ST_bind, st_get, sql_step. rewrite law_prepare by done. cbn [negb].
  destruct (sql_exec COMMIT d) as [[] d'] eqn:E; cbn; [by apply law_commit|by eapply failure_durable].
Qed.

Lemma replace_blocks_from_spec height blocks d :
  match replace_blocks_from height blocks d with
  | (Ok _, d') =>
      txn d = None ∧ txn d' = None ∧
      view d' = rows_saved height blocks (sql_effect (DELETE_blocks_from (i64 (Z.of_nat height))) (view d))
  | (Throw _, d') => durable d' = durable d
  end.
Proof.
  unfold replace_blocks_from.
  pose proof (run_stmt_begin d) as Hb. destruct (run_stmt BEGIN d) as [[[]|e] d1] eqn:Eb.
  - rewrite (ST_bind_eq _ _ _ _ _ Eb). destruct Hb as (Ht & Hv & Ht1).
    pose proof (replace_body height blocks d1 (view d) Ht1) as Hr. rewrite Hv in Hr.
    unfold mbind at 1, ST_bind at 1, st_catch.
    destruct ((delete_blocks_from height;; save_blocks height blocks) d1) as [[[]|e] d2].
    + destruct Hr as [Hv2 Ht2]. pose proof (run_stmt_commit d2) as Hc.
      destruct (run_stmt COMMIT d2) as [[[]|e] d3].
      * destruct Hc as [Hv3 Ht3]. by rewrite Hv3.
      * rewrite Hc. unfold durable. by rewrite Ht2, Ht.
    + unfold mbind, ST_bind, st_modify, st_lift. cbv beta iota.
      rewrite rollback_durable, Hr. unfold durable. by rewrite Ht.
  - unfold mbind, ST_bind. by rewrite Eb.
Qed.

(** The rows are written, up to the [COMMIT]. *)
Definition writes_rows (height : nat) (blocks : list Block) (d : db) : Prop :=
  is_ok ((run_stmt BEGIN;; delete_blocks_from height;; save_blocks height blocks) d).1 = true.

(** A call that throws before the [COMMIT] leaves no transaction open. *)
Lemma replace_blocks_from_closed height blocks d e d' :
  replace_blocks_from height blocks d = (Throw e, d') → txn d = None → txn d' = None ∨ writes_rows height blocks d.
Proof.
  unfold replace_blocks_from, writes_rows. intros E Ht. unfold mbind at 1, ST_bind at 1 in E. unfold mbind at 1, ST_bind at 1.
  destruct (run_stmt BEGIN d) as [[[]|e1] d1] eqn:Eb.
  - unfold mbind at 1, ST_bind at 1, st_catch in E.
    destruct ((delete_blocks_from height;; save_blocks height blocks) d1) as [[[]|e2] d2] eqn:Er; [by right|].
    left. unfold mbind, ST_bind, st_modify, st_lift in E. injection E as _ <-. apply rollback_closes.
  - left. injection E as _ <-. revert Eb. unfold run_stmt, mbind, ST_bind, st_get, sql_step. rewrite law_prepare by done. cbn [negb].
    destruct (sql_exec BEGIN d) as [[] d2] eqn:Eb; cbn; [done|]. intros [= _ <-].
    destruct (law_failure _ _ _ Eb) as [[_ ->]|(t & Hs & _)]; [done|congruence].
Qed.

(** ** The tables as a mirror of a chain *)

Definition block_row (b : Block) : HashBytes * bytes := (hash_ b, Blk.serialize b).

Definition table_mirrors (t : Tables) (l : list Block) : Prop :=
  ∀ z, t_blocks t !! z = if 0 <=? z then block_row <$> l !! Z.to_nat z else None.

Definition db_mirrors (d : db) (l : list Block) : Prop :=
  txn d = None ∧ t_has_blocks (view d) = true ∧ table_mirrors (view d) l.

(** Rows come and go, tables stay. *)
Lemma sql_effect_schema s t : t_has_blocks t = true → t_has_blocks (sql_effect s t) = true.
Proof. by destruct s. Qed.

Lemma rows_saved_schema height blocks t : t_has_blocks t = true → t_has_blocks (rows_saved height blocks t) = true.
Proof. revert height t. induction blocks as [|b blocks IH]; intros height t Ht; [done|]. by apply IH. Qed.

Lemma filter_fresh_hash t l b :
  table_mirrors t l → hash_ b ∉ hash_ <$> l → filter (λ kv, kv.2.1 ≠ hash_ b) (t_blocks t) = t_blocks t.
Proof.
  intros Ht Hb. apply map_filter_id. intros z [h ser] Hz E. simpl in E. subst h.
  rewrite Ht in Hz. case_bool; [|done]. apply fmap_Some in Hz as (x & Hx & [= E _]).
  apply Hb. rewrite E. apply list_elem_of_fmap_2. by eapply list_elem_of_lookup_2.
Qed.

Lemma insert_mirrors t l b :
  table_mirrors t l → hash_ b ∉ hash_ <$> l → sz l < 2 ^ 63 →
  table_mirrors (sql_effect (INSERT_block (i64 (sz l)) (hash_ b) (Blk.serialize b)) t) (l ++ [b]).
Proof.
  intros Ht Hb Hsz z. simpl. rewrite (filter_fresh_hash t l) by done.
  rewrite i64_small by (split; [apply sz_nonneg|done]).
  destruct (decide (z = sz l)) as [->|Hne].
  - rewrite lookup_insert_eq. pose proof (sz_nonneg l). case_bool; [|lia].
    unfold sz. by rewrite Nat2Z.id, list_lookup_middle.
  - rewrite lookup_insert_ne by done. rewrite Ht. case_bool; [|done]. f_equal. unfold sz in Hne.
    destruct (decide (Z.to_nat z < length l)%nat).
    + by rewrite lookup_app_l.
    + rewrite !lookup_ge_None_2; [done|..]; rewrite ?length_app; simpl; lia.
Qed.

Lemma delete_mirrors t l k :
  table_mirrors t l → (k <= length l)%nat → sz l < 2 ^ 63 →
  table_mirrors (sql_effect (DELETE_blocks_from (i64 (Z.of_nat k))) t) (take k l).
Proof.
  intros Ht Hk Hsz z. simpl. rewrite i64_small by (unfold sz in *; lia).
  destruct (decide (z < Z.of_nat k)).
  - rewrite map_lookup_filter, Ht. case_bool; [|done].
    rewrite lookup_take_lt by lia.
    destruct (l !! Z.to_nat z); simpl; [|done]. by rewrite option_guard_True.
  - rewrite (proj2 (map_lookup_filter_None _ _ _)); [|right; intros; simpl; lia].
    case_bool; [|done]. by rewrite lookup_take_ge by lia.
Qed.

Lemma rows_saved_mirrors t l new :
  table_mirrors t l → NoDup (hash_ <$> l ++ new) → sz l + sz new < 2 ^ 63 →
  table_mirrors (rows_saved (length l) new t) (l ++ new).
Proof.
  revert t l. induction new as [|b new IH]; intros t l Ht Hn Hsz; [by rewrite app_nil_r|].
  assert (sz (b :: new) = sz new + 1) as Hs by (unfold sz; simpl; lia).
  pose proof (sz_nonneg new). rewrite cons_middle, app_assoc in Hn |- *. cbn [rows_saved].
  assert (S (length l) = length (l ++ [b])) as -> by (rewrite length_app; simpl; lia).
  apply IH; [|done|rewrite sz_app, Hs in *; change (sz [b]) with 1; lia].
  apply insert_mirrors; [done| |lia].
  rewrite !fmap_app in Hn. apply NoDup_app in Hn as (Hn & _ & _).
  apply NoDup_app in Hn as (_ & Hn & _). intros Hin. apply (Hn _ Hin). left.
Qed.

Lemma mirrors_size t l : table_mirrors t l → size (t_blocks t) = length l.
Proof.
  intros Ht. rewrite <- (size_dom (D := gset Z)).
  assert (dom (t_blocks t) = list_to_set (Z.of_nat <$> seq 0 (length l)) :> gset Z) as ->.
  { apply set_eq. intros z. rewrite elem_of_dom, Ht, elem_of_list_to_set, list_elem_of_fmap.
    case_bool.
    - rewrite fmap_is_Some, lookup_lt_is_Some. split.
      + intros Hlt. exists (Z.to_nat z). rewrite elem_of_seq. lia.
      + intros (n & -> & Hn%elem_of_seq). lia.
    - split; [by intros [? ?]|]. intros (n & -> & _). lia. }
  rewrite size_list_to_set.
  - by rewrite length_fmap, length_seq.
  - apply (NoDup_fmap_2 Z.of_nat), NoDup_seq.
Qed.

Lemma run_query_eq q d : query_compiles q (view d) = true → run_query q d = (Ok (sql_rows q d), d).
Proof. intros Hq. unfold run_query, mbind, ST_bind, st_get. by rewrite law_prepare_query. Qed.

Lemma query_one q d r : sql_answer q (view d) = [r] → sql_rows q d = [r].
Proof. intros E. pose proof (law_query q d) as Hp. rewrite E in Hp. by apply Permutation_singleton_r. Qed.

Lemma save_block_mirrors d l b d' :
  db_mirrors d l → NoDup (hash_ <$> l ++ [b]) → sz l < 2 ^ 63 →
  save_block b (length l) d = (Ok tt, d') → db_mirrors d' (l ++ [b]).
Proof.
  intros (Ht & Hc & Hv) Hn Hsz E. unfold save_block in E.
  pose proof (run_stmt_plain (INSERT_block (i64 (sz l)) (hash_ b) (Blk.serialize b)) d ltac:(done)) as Hr.
  unfold sz in Hr. rewrite E in Hr. destruct Hr as [Hv' Ht']. split_and!; [congruence|by rewrite Hv'|]. rewrite Hv'.
  apply insert_mirrors; [done| |done]. rewrite fmap_app in Hn. apply NoDup_app in Hn as (_ & Hn & _).
  intros Hin. apply (Hn _ Hin). left.
Qed.

Lemma replace_mirrors d l k new d' :
  db_mirrors d l → (k <= length l)%nat → NoDup (hash_ <$> take k l ++ new) →
  sz l < 2 ^ 63 → Z.of_nat k + sz new < 2 ^ 63 →
  replace_blocks_from k new d = (Ok tt, d') → db_mirrors d' (take k l ++ new).
Proof.
  intros (Ht & Hc & Hv) Hk Hn Hsz Hsz2 E. pose proof (replace_blocks_from_spec k new d) as Hr.
  rewrite E in Hr. destruct Hr as (_ & Ht' & Hv'). split_and!; [done|rewrite Hv'; by apply rows_saved_schema|]. rewrite Hv'.
  pose proof (delete_mirrors _ _ _ Hv Hk Hsz) as Hd.
  assert (length (take k l) = k) as Hl by (rewrite length_take; lia). rewrite <- Hl at 1.
  apply rows_saved_mirrors; [done|done|]. unfold sz in *. lia.
Qed.

Lemma load_block_mirrors `{Crypto} d l i b :
  db_mirrors d l → sz l < 2 ^ 63 → l !! i = Some b → Blk.wf b →
  load_block i d = (Ok (Some (Blk.on_arrival b)), d).
Proof.
  intros (Ht & Hc & Hv) Hsz Hi Hb. unfold load_block.
  rewrite (ST_bind_eq _ _ _ _ _ (run_query_eq (SELECT_block (i64 (Z.of_nat i))) d Hc)).
  pose proof (lookup_lt_Some _ _ _ Hi). unfold sz in Hsz.
  rewrite (query_one _ d [SqlBlob (Blk.serialize b)]).
  - by rewrite Blk.deserialize_serialize.
  - simpl. rewrite Hv, i64_small by lia. case_bool; [|lia]. by rewrite Nat2Z.id, Hi.
Qed.

Lemma block_count_mirrors d l :
  db_mirrors d l → sz l < 2 ^ 63 → block_count d = (Ok (sz l), d).
Proof.
  intros (Ht & Hc & Hv) Hsz. unfold block_count. rewrite (ST_bind_eq _ _ _ _ _ (run_query_eq COUNT_blocks d Hc)).
  rewrite (query_one _ d [SqlInt (sz l)]).
  - unfold mret, ST_ret. rewrite wrap_small; [done|]. pose proof (sz_nonneg l). unfold in_u. lia.
  - simpl. by rewrite (mirrors_size _ l).
Qed.

Lemma save_blocks_mirrors new d l d' :
  db_mirrors d l → NoDup (hash_ <$> l ++ new) → sz l + sz new < 2 ^ 63 →
  save_blocks (length l) new d = (Ok tt, d') → db_mirrors d' (l ++ new).
Proof.
  revert d l. induction new as [|b new IH]; intros d l Hd Hn Hsz E.
  { cbn in E. injection E as <-. by rewrite app_nil_r. }
  assert (sz (b :: new) = sz new + 1) as Hs by (unfold sz; simpl; lia). pose proof (sz_nonneg new).
  cbn [save_blocks] in E. apply ST_bind_Ok in E as ([] & d1 & E1 & E2).
  rewrite cons_middle, app_assoc in Hn |- *.
  assert (S (length l) = length (l ++ [b])) as El by (rewrite length_app; simpl; lia). rewrite El in E2.
  eapply IH; [|done|rewrite sz_app, Hs in *; change (sz [b]) with 1; lia|done].
  eapply save_block_mirrors; [done| |lia|done].
  rewrite fmap_app in Hn. by apply NoDup_app in Hn as (Hn & _ & _).
Qed.

(** ** Properties *)

(** A saved chain reloads: blocks with distinct hashes saved at consecutive heights
    of an empty store are counted exactly and load back, at every height, as the block
    with its hash recomputed and no cumulative work. *)
Theorem saved_chain_reloads `{Crypto} l d d' :
  db_mirrors d [] → NoDup (hash_ <$> l) → Forall Blk.wf l → sz l < 2 ^ 63 →
  save_blocks 0 l d = (Ok tt, d') →
  block_count d' = (Ok (sz l), d') ∧
  ∀ i b, l !! i = Some b → load_block i d' = (Ok (Some (Blk.on_arrival b)), d').
Proof.
  intros Hd Hn Hw Hsz E.
  assert (db_mirrors d' l) as Hm by (eapply (save_blocks_mirrors l d []); done).
  split; [by apply block_count_mirrors|]. intros i b Hi. eapply load_block_mirrors; [done..|].
  rewrite Forall_forall in Hw. by eapply Hw, list_elem_of_lookup_2.
Qed.

(** C17. Replacing a branch on disk is atomic: [replace_blocks_from] either completes, and
    the committed tables hold the retained rows and the new ones, or throws, and the
    committed tables are exactly what they were before, wherever the failure happened
    (opening the transaction, deleting, inserting any block, committing). When it throws
    before the [COMMIT] and no transaction was open, none is left open; a [COMMIT] that fails
    may leave one. *)
Theorem replace_blocks_atomic height blocks d :
  match replace_blocks_from height blocks d with
  | (Ok _, d') => durable d' = rows_saved height blocks
      (sql_effect (DELETE_blocks_from (i64 (Z.of_nat height))) (durable d))
  | (Throw _, d') => durable d' = durable d ∧
      (txn d = None → txn d' = None ∨ writes_rows height blocks d)
  end.
Proof.
  pose proof (replace_blocks_from_spec height blocks d) as Hr.
  destruct (replace_blocks_from height blocks d) as [[[]|e] d'] eqn:E.
  - destruct Hr as (Ht & Ht' & Hv). unfold durable. by rewrite Ht, Ht'.
  - split; [done|]. by eapply replace_blocks_from_closed.
Qed.

(** Balances survive storage: a 64-bit balance saved through the signed SQL integer
    is loaded back unchanged, and saving it leaves the other addresses' rows alone. *)
Theorem balance_roundtrip address amount d d' :
  t_has_balances (view d) = true → in_u 64 amount → save_balance address amount d = (Ok tt, d') →
  load_balance address d' = (Ok (Some amount), d') ∧
  ∀ a, c_str a ≠ c_str address → (load_balance a d').1 = (load_balance a d).1.
Proof.
  intros Hc Ha E. unfold save_balance in E.
  pose proof (run_stmt_plain (INSERT_balance (c_str address) (i64 amount)) d ltac:(done)) as Hr.
  rewrite E in Hr. destruct Hr as [Hv _].
  assert (t_has_balances (view d') = true) as Hc' by by rewrite Hv.
  split.
  - unfold load_balance. rewrite (ST_bind_eq _ _ _ _ _ (run_query_eq (SELECT_balance (c_str address)) d' Hc')).
    rewrite (query_one _ d' [SqlInt (i64 amount)]).
    + by rewrite u64_i64.
    + rewrite Hv. simpl. by rewrite lookup_insert_eq.
  - intros a Hne. unfold load_balance. set (q := SELECT_balance (c_str a)).
    rewrite (ST_bind_eq _ _ _ _ _ (run_query_eq q d' Hc')), (ST_bind_eq _ _ _ _ _ (run_query_eq q d Hc)). subst q.
    assert (sql_answer (SELECT_balance (c_str a)) (view d') = sql_answer (SELECT_balance (c_str a)) (view d)) as Ea.
    { rewrite Hv. simpl. by rewrite lookup_insert_ne. }
    pose proof (law_query (SELECT_balance (c_str a)) d') as P'. rewrite Ea in P'.
    pose proof (law_query (SELECT_balance (c_str a)) d) as P. simpl in P, P'.
    destruct (t_balances (view d) !! c_str a).
    + apply Permutation_singleton_r in P, P'. by rewrite P, P'.
    + apply Permutation_nil_r in P, P'. by rewrite P, P'.
Qed.
End laws.

(** ** The implementation of the contract *)

#[global] Instance storage_block_store `{Crypto, Sqlite} : BlockStore := {|
  store := db;
  bs_save_block := save_block;
  bs_replace_blocks_from := replace_blocks_from;
  bs_load_block := load_block;
  bs_block_count := block_count
|}.

Lemma fields_serialize a b : Blk.fields a = Blk.fields b → Blk.serialize a = Blk.serialize b.
Proof. destruct a, b. unfold Blk.fields, Blk.serialize. simpl. by intros [= -> -> -> -> -> -> ->]. Qed.

Lemma table_mirrors_works t l l' :
  Blk.fields <$> l = Blk.fields <$> l' → hash_ <$> l = hash_ <$> l' →
  table_mirrors t l → table_mirrors t l'.
Proof.
  intros Hf Hh Ht z. rewrite Ht. case_bool; [|done].
  assert ((Blk.fields <$> l) !! Z.to_nat z = (Blk.fields <$> l') !! Z.to_nat z) as Ef by by rewrite Hf.
  assert ((hash_ <$> l) !! Z.to_nat z = (hash_ <$> l') !! Z.to_nat z) as Eh by by rewrite Hh.
  rewrite !list_lookup_fmap in Ef. rewrite !list_lookup_fmap in Eh.
  destruct (l !! Z.to_nat z), (l' !! Z.to_nat z); simpl in *; try done.
  unfold block_row. injection Eh as ->. f_equal. f_equal. apply fields_serialize. congruence.
Qed.

#[global] Program Instance storage_block_store_laws `{Crypto, SqliteLaws} : BlockStoreLaws := {|
  mirrors := db_mirrors
|}.
Next Obligation. intros. by eapply save_block_mirrors. Qed.
Next Obligation. intros. by eapply replace_mirrors. Qed.
Next Obligation. intros. by eapply load_block_mirrors. Qed.
Next Obligation. intros. by apply block_count_mirrors. Qed.
Next Obligation. intros * Hf Hh (Ht & Hc & Hv). split_and!; [done..|by eapply table_mirrors_works]. Qed.
End Sto.

(** ** A concrete database, for the witnesses

    Every statement completes, except [BEGIN] inside a transaction and [COMMIT] or
    [ROLLBACK] outside one. *)
Record DemoDb := { demo_view : Tables; demo_txn : option Tables }.

Definition demo_exec (s : sql_stmt) (d : DemoDb) : bool * DemoDb :=
  match s, demo_txn d with
  | BEGIN, None => (true, {| demo_view := demo_view d; demo_txn := Some (demo_view d) |})
  | BEGIN, Some _ => (false, d)
  | COMMIT, Some _ => (true, {| demo_view := demo_view d; demo_txn := None |})
  | ROLLBACK, Some t => (true, {| demo_view := t; demo_txn := None |})
  | COMMIT, None | ROLLBACK, None => (false, d)
  | _, _ => (true, {| demo_view := sql_effect s (demo_view d); demo_txn := demo_txn d |})
  end.

Definition demo_sqlite : Sqlite := {|
  db := DemoDb;
  sql_prepare := λ _ _, true;
  sql_exec := demo_exec;
  sql_rows := λ q d, sql_answer q (demo_view d)
|}.

Definition demo_empty_db : @db demo_sqlite := {| demo_view := mkTables ∅ ∅ true true; demo_txn := None |}.

#[local] Existing Instance demo_sqlite.

#[refine] Definition demo_sqlite_laws : SqliteLaws := {|
  view := demo_view; txn := demo_txn
|}.
Proof.
  - done.
  - done.
  - intros s [v t] d' ? ? ?. by destruct s, t; intros [= <-].
  - intros [v [t|]] d'; [done|]. by intros [= <-].
  - intros [v [t|]] d'; [|done]. by intros [= <-].
  - intros [v [t'|]] t; [|done]. intros [= ->]. by eexists.
  - intros s [v [t|]] d'; destruct s; intros [= <-]; eauto.
  - intros [v [t|]] d'; [done|]. done.
  - intros q d. done.
Defined.

Section witnesses.
#[local] Existing Instance demo_crypto.
#[local] Existing Instance demo_crypto_laws.
#[local] Existing Instance demo_sqlite_laws.

Definition demo_blocks : list Block :=
  [Blk.make 1 (le 32 0) 0 []; Blk.make 1 (le 32 1) 10 [demo_coinbase "miner" 50]].

Lemma demo_blocks_wf : Forall Blk.wf demo_blocks.
Proof.
  repeat (apply Forall_cons_2; [apply Blk.make_wf; try done|]); try done.
  apply Forall_singleton. split; [apply (bool_decide_unpack _)|]; by vm_compute.
Qed.

Lemma demo_empty_mirrors : Sto.db_mirrors demo_empty_db [].
Proof. split_and!; [done..|]. intros z. simpl. rewrite lookup_empty. by case_bool. Qed.

Lemma saved_chain_reloads_witness :
  let d' := (Sto.save_blocks 0 demo_blocks demo_empty_db).2 in
  Sto.block_count d' = (Ok (sz demo_blocks), d') ∧
  ∀ i b, demo_blocks !! i = Some b → Sto.load_block i d' = (Ok (Some (Blk.on_arrival b)), d').
Proof.
  apply (Sto.saved_chain_reloads demo_blocks demo_empty_db).
  - apply demo_empty_mirrors.
  - apply (bool_decide_unpack _). by vm_compute.
  - apply demo_blocks_wf.
  - by vm_compute.
  - reflexivity.
Defined.

Lemma replace_blocks_atomic_witness :
  let d := (Sto.save_blocks 0 demo_blocks demo_empty_db).2 in
  match Sto.replace_blocks_from 1 [Blk.make 1 (le 32 1) 20 []] d with
  | (Ok _, d') => Sto.durable d' = Sto.rows_saved 1 [Blk.make 1 (le 32 1) 20 []]
      (sql_effect (DELETE_blocks_from (i64 (Z.of_nat 1))) (Sto.durable d))
  | (Throw _, d') => Sto.durable d' = Sto.durable d ∧
      (txn d = None → txn d' = None ∨ Sto.writes_rows 1 [Blk.make 1 (le 32 1) 20 []] d)
  end.
Proof.
  apply (Sto.replace_blocks_atomic 1 [Blk.make 1 (le 32 1) 20 []]
           (Sto.save_blocks 0 demo_blocks demo_empty_db).2).
Defined.

Lemma balance_roundtrip_witness :
  let d' := (Sto.save_balance (lit "alice") UINT64_MAX demo_empty_db).2 in
  Sto.load_balance (lit "alice") d' = (Ok (Some UINT64_MAX), d') ∧
  ∀ a, c_str a ≠ c_str (lit "alice") →
       (Sto.load_balance a d').1 = (Sto.load_balance a demo_empty_db).1.
Proof.
  apply (Sto.balance_roundtrip (lit "alice") UINT64_MAX demo_empty_db); [reflexivity|by vm_compute|reflexivity].
Defined.
End witnesses.
