(* ===== verification/Calls.v ===== *)
(** * Programs that call a C library

    The wrappers of src/storage and the functions of src/crypto own handles of a C library:
    pointers they get from one call and must give back to another. A [calls] program is the
    sequence of its calls, each with a continuation for every answer, and ends by returning
    or throwing. [finally] is what a destructor adds to a scope. [spec] is what the library
    documents: the calls that are permitted in a state of the library and the answers that
    are possible. [wp] holds when a program, from a given state, makes permitted calls only,
    whatever the library answers, and ends as stated. *)

From S2P Require Import Prelude.

Inductive calls (C : Type) (R : C → Type) (A : Type) : Type :=
| Finish (r : result A)
| Call (c : C) (k : R c → calls C R A).
Arguments Finish {C R A} r.
Arguments Call {C R A} c k.

Section programs.
Context {C : Type} {R : C → Type}.

#[global] Instance calls_ret : MRet (calls C R) := λ A a, Finish (Ok a).

Fixpoint calls_bind_go {A B} (f : A → calls C R B) (p : calls C R A) : calls C R B :=
  match p with
  | Finish (Ok a) => f a
  | Finish (Throw e) => Finish (Throw e)
  | Call c k => Call c (λ x, calls_bind_go f (k x))
  end.
#[global] Instance calls_bind : MBind (calls C R) := λ A B f p, calls_bind_go f p.

(** One call. *)
Definition invoke (c : C) : calls C R (R c) := Call c mret.

Definition throw {A} (e : exn) : calls C R A := Finish (Throw e).

(** The rest of a scope, then the destructor [d] of a variable, on both ways out. *)
Fixpoint finally {A} (p : calls C R A) (d : calls C R unit) : calls C R A :=
  match p with
  | Finish r => calls_bind_go (λ _, Finish r) d
  | Call c k => Call c (λ x, finally (k x) d)
  end.

(** [try { p } catch (...) { h; throw; }] *)
Fixpoint on_throw {A} (p : calls C R A) (h : calls C R unit) : calls C R A :=
  match p with
  | Finish (Ok a) => Finish (Ok a)
  | Finish (Throw e) => calls_bind_go (λ _, throw e) h
  | Call c k => Call c (λ x, on_throw (k x) h)
  end.

(** Run against a library: a function of its state. *)
Fixpoint perform {L A} (api : ∀ c, L → R c * L) (p : calls C R A) : ST L A := λ l,
  match p with
  | Finish r => (r, l)
  | Call c k => let '(x, l) := api c l in perform api (k x) l
  end.
End programs.

(** ** What a library documents *)

(** [allowed t c]: the call [c] may be made when the library is in state [t].
    [answers t c x t']: it may answer [x] and go to [t']. *)
Record spec (C : Type) (R : C → Type) (T : Type) := mkSpec {
  allowed : T → C → Prop;
  answers : T → ∀ c, R c → T → Prop
}.
Arguments mkSpec {C R T} _ _.
Arguments allowed {C R T} _ _ _.
Arguments answers {C R T} _ _ _ _ _.

Section wp.
Context {C : Type} {R : C → Type} {T : Type} (S : spec C R T).

Fixpoint wp {A} (p : calls C R A) (Q : result A → T → Prop) (t : T) : Prop :=
  match p with
  | Finish r => Q r t
  | Call c k => allowed S t c ∧ ∀ x t', answers S t c x t' → wp (k x) Q t'
  end.

Lemma wp_mono {A} (p : calls C R A) (Q Q' : result A → T → Prop) t :
  (∀ r t', Q r t' → Q' r t') → wp p Q t → wp p Q' t.
Proof.
  intros HQ. revert t. induction p as [r|c k IH]; intros t Hp; [by apply HQ|].
  destruct Hp as [Ha Hk]. split; [done|]. intros x t' Hx. by apply IH, Hk.
Qed.

(** What a program does next when the part before it has ended. *)
Definition then_wp {A B} (f : A → calls C R B) (Q : result B → T → Prop) (r : result A) (t : T) : Prop :=
  match r with Ok a => wp (f a) Q t | Throw e => Q (Throw e) t end.

Lemma wp_bind {A B} (p : calls C R A) (f : A → calls C R B) Q t :
  wp p (then_wp f Q) t → wp (p ≫= f) Q t.
Proof.
  revert t. induction p as [[a|e]|c k IH]; intros t Hp; [done|done|].
  destruct Hp as [Ha Hk]. split; [done|]. intros x t' Hx. by apply IH, Hk.
Qed.

Lemma wp_invoke {B} c (f : R c → calls C R B) Q t :
  allowed S t c → (∀ x t', answers S t c x t' → wp (f x) Q t') → wp (invoke c ≫= f) Q t.
Proof. done. Qed.

(** Destructors and handlers do not throw. *)
Definition ends (Q : T → Prop) (r : result unit) (t : T) : Prop := r = Ok tt ∧ Q t.

Lemma wp_then_finish {A} (d : calls C R unit) (r : result A) Q t :
  wp d (ends (Q r)) t → wp (calls_bind_go (λ _, Finish r) d) Q t.
Proof.
  intros Hd. apply (wp_bind d (λ _, Finish r)). eapply wp_mono; [|exact Hd].
  by intros r' t' [-> HQ].
Qed.

Lemma wp_finally {A} (p : calls C R A) d Q t :
  wp p (λ r t', wp d (ends (Q r)) t') t → wp (finally p d) Q t.
Proof.
  revert t. induction p as [r|c k IH]; intros t Hp; [by apply wp_then_finish|].
  destruct Hp as [Ha Hk]. split; [done|]. intros x t' Hx. by apply IH, Hk.
Qed.

Lemma wp_on_throw {A} (p : calls C R A) h Q t :
  wp p (λ r t', match r with Ok _ => Q r t' | Throw _ => wp h (ends (Q r)) t' end) t →
  wp (on_throw p h) Q t.
Proof.
  revert t. induction p as [[a|e]|c k IH]; intros t Hp; [done|by apply (wp_then_finish h (Throw e))|].
  destruct Hp as [Ha Hk]. split; [done|]. intros x t' Hx. by apply IH, Hk.
Qed.

(** Against any library that behaves as documented a program ends, as stated. *)
Lemma wp_perform {L A} (api : ∀ c, L → R c * L) (view : L → T) (p : calls C R A) Q l :
  (∀ c l, allowed S (view l) c → answers S (view l) c (api c l).1 (view (api c l).2)) →
  wp p Q (view l) → Q (perform api p l).1 (view (perform api p l).2).
Proof.
  intros Hapi. revert l. induction p as [r|c k IH]; intros l Hp; [done|].
  destruct Hp as [Ha Hk]. cbn. specialize (Hapi c l Ha). destruct (api c l) as [x l']. by apply IH, Hk.
Qed.
End wp.
