(* ===== verification/Sqlite.v ===== *)
(** * Handles of the database library (src/storage/SqliteConnection.cpp,
    SqliteStatement.cpp, and Storage.cpp over them)

    Storage.v gives the operations of the storage as effects on the tables. Here they are as
    the source writes them: a connection handle, a statement handle per SQL text, arguments
    bound by index, steps, columns, and the destructors that give the handles back.
    [documented] is the interface of SQLite as its manual describes it, over the class
    [Sqlite]: when a handle may be used, and what each call answers; [fallible] adds the ways
    in which calls may fail. Whatever fails the operations leak nothing and use no handle
    wrongly; when nothing fails but opening, compiling and writing they refine those of
    Storage.v. *)

From S2P Require Import Prelude Codec Crypto Demo Transaction Block Storage Calls.

(** A pointer to a handle; [None] is null. *)
Abbreviation ptr := (option nat).

Definition SQLITE_OK : Z := 0.
Definition SQLITE_MISUSE : Z := 21.
Definition SQLITE_ROW : Z := 100.
Definition SQLITE_DONE : Z := 101.
(** The longest string or blob, by default. *)
Definition SQLITE_MAX_LENGTH : Z := 1000000000.

Inductive sqlite_call :=
| sqlite3_open (path : str)
| sqlite3_close (db : nat)
| sqlite3_prepare_v2 (db : ptr) (sql : str)
| sqlite3_finalize (stmt : nat)
| sqlite3_bind_int64 (stmt : ptr) (index value : Z)
| sqlite3_bind_blob (stmt : ptr) (index : Z) (data : bytes) (n : Z)
| sqlite3_bind_text (stmt : ptr) (index : Z) (text : str)
| sqlite3_step (stmt : ptr)
| sqlite3_column_int64 (stmt : ptr) (index : nat)
| sqlite3_column_bytes (stmt : ptr) (index : nat)
| sqlite3_column_blob (stmt : ptr) (index : nat)
| sqlite3_column_text (stmt : ptr) (index : nat).

(** What a call returns: a result code, with the pointer it stores; an integer; or the octets
    behind the pointer it returns, [None] for null. *)
Definition sqlite_answer (c : sqlite_call) : Type :=
  match c with
  | sqlite3_open _ | sqlite3_prepare_v2 _ _ => Z * ptr
  | sqlite3_column_blob _ _ | sqlite3_column_text _ _ => option bytes
  | _ => Z
  end.

Abbreviation sql_prog := (calls sqlite_call sqlite_answer).

Module Sq.

(** ** SqliteConnection *)

Definition is_valid (p : ptr) : bool := match p with Some _ => true | None => false end.

(** [close]: the member afterwards. *)
Definition connection_close (db_ : ptr) : sql_prog ptr :=
  match db_ with
  | None => mret None
  | Some db => _ ← invoke (sqlite3_close db); mret None
  end.

Definition connection (path : str) : sql_prog ptr :=
  '(res, db_) ← invoke (sqlite3_open path);
  if negb (res =? SQLITE_OK) then connection_close db_ else mret db_.

(** Moving leaves null behind: the members of [this] and of [other]. *)
Definition connection_move (other : ptr) : ptr * ptr := (other, None).

Definition connection_assign (same : bool) (this other : ptr) : sql_prog (ptr * ptr) :=
  if same then mret (this, other) else
  _ ← connection_close this; mret (other, None).

Definition connection_destroy (db_ : ptr) : sql_prog unit := _ ← connection_close db_; mret tt.

(** ** SqliteStatement *)

Definition close (stmt_ : ptr) : sql_prog ptr :=
  match stmt_ with
  | None => mret None
  | Some stmt => _ ← invoke (sqlite3_finalize stmt); mret None
  end.

Definition statement (connection : ptr) (sql : str) : sql_prog ptr :=
  '(res, stmt_) ← invoke (sqlite3_prepare_v2 connection sql);
  if negb (res =? SQLITE_OK) then close stmt_ else mret stmt_.

Definition move (other : ptr) : ptr * ptr := (other, None).

Definition assign (same : bool) (this other : ptr) : sql_prog (ptr * ptr) :=
  if same then mret (this, other) else
  _ ← close this; mret (other, None).

Definition destroy (stmt_ : ptr) : sql_prog unit := _ ← close stmt_; mret tt.

Definition bind_int_64 (stmt_ : ptr) (index value : Z) : sql_prog unit :=
  _ ← invoke (sqlite3_bind_int64 stmt_ index value); mret tt.

(** [static_cast<int>]: the low 32 bits, as a signed number. *)
Definition as_int (z : Z) : Z := let m := u32 z in if m <? 2 ^ 31 then m else m - 2 ^ 32.

Definition bind_blob (stmt_ : ptr) (index : Z) (data : bytes) (size : Z) : sql_prog unit :=
  _ ← invoke (sqlite3_bind_blob stmt_ index data (as_int size)); mret tt.

Definition bind_text (stmt_ : ptr) (index : Z) (value : str) : sql_prog unit :=
  _ ← invoke (sqlite3_bind_text stmt_ index (c_str value)); mret tt.

Definition step (stmt_ : ptr) : sql_prog Z := invoke (sqlite3_step stmt_).

Definition column_int64 (stmt_ : ptr) (index : nat) : sql_prog Z := invoke (sqlite3_column_int64 stmt_ index).

(** [std::vector<uint8_t>{bytes, bytes + size}]: reading beyond the octets is undefined. *)
Definition column_blob (stmt_ : ptr) (index : nat) : sql_prog bytes :=
  size ← invoke (sqlite3_column_bytes stmt_ index);
  data ← invoke (sqlite3_column_blob stmt_ index);
  let octets := default [] data in
  if sz octets <? size then throw UndefinedBehaviour else mret (take (Z.to_nat size) octets).

Definition column_text (stmt_ : ptr) (index : nat) : sql_prog str :=
  text ← invoke (sqlite3_column_text stmt_ index);
  match text with
  | None => mret []
  | Some text => mret (c_str text)
  end.

(** ** Storage *)

(** [SqliteStatement stmt(connection_, sql); body] up to the end of the scope. *)
Definition with_statement {A} (connection_ : ptr) (sql : str) (body : ptr → sql_prog A) : sql_prog A :=
  stmt ← statement connection_ sql; finally (body stmt) (destroy stmt).

(** Throw unless the statement is valid and a step of it ends with [SQLITE_DONE]. *)
Definition step_or_throw (stmt : ptr) : sql_prog unit :=
  if negb (is_valid stmt) then throw RuntimeError else
  rc ← step stmt;
  if negb (rc =? SQLITE_DONE) then throw RuntimeError else mret tt.

Definition create_schema (connection_ : ptr) : sql_prog unit :=
  with_statement connection_ (sql_text CREATE_blocks) (λ blocks_statement,
    step_or_throw blocks_statement;;
    with_statement connection_ (sql_text CREATE_balances) step_or_throw).

(** The constructor: its result is the member [connection_]. When the body throws, the
    member is destroyed. *)
Definition storage (path : str) : sql_prog ptr :=
  connection_ ← connection path;
  on_throw
    (if negb (is_valid connection_) then throw RuntimeError else
     create_schema connection_;; mret connection_)
    (connection_destroy connection_).

Definition save_block (connection_ : ptr) (block : Block) (height : nat) : sql_prog unit :=
  with_statement connection_ (sql_text (INSERT_block 0 [] [])) (λ stmt,
    if negb (is_valid stmt) then throw RuntimeError else
    bind_int_64 stmt 1 (i64 (Z.of_nat height));;
    bind_blob stmt 2 (hash_ block) (sz (hash_ block));;
    let serialized := Blk.serialize block in
    bind_blob stmt 3 serialized (sz serialized);;
    rc ← step stmt;
    if negb (rc =? SQLITE_DONE) then throw RuntimeError else mret tt).

Definition load_block `{Crypto} (connection_ : ptr) (height : nat) : sql_prog (option Block) :=
  with_statement connection_ (query_text (SELECT_block 0)) (λ stmt,
    if negb (is_valid stmt) then throw RuntimeError else
    bind_int_64 stmt 1 (i64 (Z.of_nat height));;
    rc ← step stmt;
    if negb (rc =? SQLITE_ROW) then mret None else
    raw ← column_blob stmt 0;
    mret (Blk.deserialize raw)).

Definition block_count (connection_ : ptr) : sql_prog Z :=
  with_statement connection_ (query_text COUNT_blocks) (λ stmt,
    if negb (is_valid stmt) then throw RuntimeError else
    rc ← step stmt;
    if negb (rc =? SQLITE_ROW) then throw RuntimeError else
    n ← column_int64 stmt 0;
    mret (u64 n)).

Definition delete_blocks_from (connection_ : ptr) (height : nat) : sql_prog unit :=
  with_statement connection_ (sql_text (DELETE_blocks_from 0)) (λ stmt,
    if negb (is_valid stmt) then throw RuntimeError else
    bind_int_64 stmt 1 (i64 (Z.of_nat height));;
    rc ← step stmt;
    if negb (rc =? SQLITE_DONE) then throw RuntimeError else mret tt).

Fixpoint save_blocks (connection_ : ptr) (height : nat) (blocks : list Block) : sql_prog unit :=
  match blocks with
  | [] => mret tt
  | b :: blocks => save_block connection_ b height;; save_blocks connection_ (S height) blocks
  end.

Definition replace_blocks_from (connection_ : ptr) (height : nat) (blocks : list Block) : sql_prog unit :=
  with_statement connection_ (sql_text BEGIN) (λ begin,
    step_or_throw begin;;
    on_throw (delete_blocks_from connection_ height;; save_blocks connection_ height blocks)
      (with_statement connection_ (sql_text ROLLBACK) (λ rollback, _ ← step rollback; mret tt));;
    with_statement connection_ (sql_text COMMIT) step_or_throw).

Definition save_balance (connection_ : ptr) (address : str) (amount : Z) : sql_prog unit :=
  with_statement connection_ (sql_text (INSERT_balance [] 0)) (λ stmt,
    if negb (is_valid stmt) then throw RuntimeError else
    bind_text stmt 1 address;;
    bind_int_64 stmt 2 (i64 amount);;
    rc ← step stmt;
    if negb (rc =? SQLITE_DONE) then throw RuntimeError else mret tt).

Definition load_balance (connection_ : ptr) (address : str) : sql_prog (option Z) :=
  with_statement connection_ (query_text (SELECT_balance [])) (λ stmt,
    if negb (is_valid stmt) then throw RuntimeError else
    bind_text stmt 1 address;;
    rc ← step stmt;
    if negb (rc =? SQLITE_ROW) then mret None else
    n ← column_int64 stmt 0;
    mret (Some (u64 n))).

(** [while (stmt.step() == SQLITE_ROW)], with [turns] to go. *)
Fixpoint balances_loop (turns : nat) (stmt : ptr) (balances : list (str * Z)) : sql_prog (list (str * Z)) :=
  match turns with
  | O => mret balances
  | S turns =>
      rc ← step stmt;
      if negb (rc =? SQLITE_ROW) then mret balances else
      address ← column_text stmt 0;
      amount ← column_int64 stmt 1;
      balances_loop turns stmt (balances ++ [(address, u64 amount)])
  end.

Definition load_all_balances (turns : nat) (connection_ : ptr) : sql_prog (list (str * Z)) :=
  with_statement connection_ (query_text SELECT_balances) (λ stmt,
    if negb (is_valid stmt) then throw RuntimeError else balances_loop turns stmt []).
End Sq.

(** ** The library, as documented *)

(** A statement: its connection, its text, the arguments bound so far, and how far it was
    stepped: the current row with those to come. *)
Inductive cursor := Fresh | OnRow (row : list sql_value) (rest : list (list sql_value)) | Finished.

Record Stmt := mkStmt { st_db : nat; st_sql : str; st_args : gmap Z sql_value; st_cursor : cursor }.

Record Library `{Sqlite} := mkLibrary {
  v_db : db;
  v_conns : gset nat;
  v_stmts : gmap nat Stmt
}.

Module SqLib.

(** The arguments of the statements and queries, by index. *)
Definition stmt_args (s : sql_stmt) : gmap Z sql_value :=
  match s with
  | INSERT_block height hash serialized => <[3 := SqlBlob serialized]> (<[2 := SqlBlob hash]> (<[1 := SqlInt height]> ∅))
  | DELETE_blocks_from height => <[1 := SqlInt height]> ∅
  | INSERT_balance address amount => <[2 := SqlInt amount]> (<[1 := SqlText address]> ∅)
  | _ => ∅
  end.

Definition query_args (q : sql_query) : gmap Z sql_value :=
  match q with
  | SELECT_block height => <[1 := SqlInt height]> ∅
  | SELECT_balance address => <[1 := SqlText address]> ∅
  | _ => ∅
  end.

(** The statement or query a text with arguments stands for. *)
Definition understand (sql : str) (args : gmap Z sql_value) : option (sql_stmt + sql_query) :=
  if bool_decide (sql = sql_text CREATE_blocks) then Some (inl CREATE_blocks)
  else if bool_decide (sql = sql_text CREATE_balances) then Some (inl CREATE_balances)
  else if bool_decide (sql = sql_text (INSERT_block 0 [] [])) then
    match args !! 1, args !! 2, args !! 3 with
    | Some (SqlInt height), Some (SqlBlob hash), Some (SqlBlob serialized) =>
        Some (inl (INSERT_block height hash serialized))
    | _, _, _ => None
    end
  else if bool_decide (sql = sql_text (DELETE_blocks_from 0)) then
    match args !! 1 with Some (SqlInt height) => Some (inl (DELETE_blocks_from height)) | _ => None end
  else if bool_decide (sql = sql_text (INSERT_balance [] 0)) then
    match args !! 1, args !! 2 with
    | Some (SqlText address), Some (SqlInt amount) => Some (inl (INSERT_balance address amount))
    | _, _ => None
    end
  else if bool_decide (sql = sql_text BEGIN) then Some (inl BEGIN)
  else if bool_decide (sql = sql_text COMMIT) then Some (inl COMMIT)
  else if bool_decide (sql = sql_text ROLLBACK) then Some (inl ROLLBACK)
  else if bool_decide (sql = query_text (SELECT_block 0)) then
    match args !! 1 with Some (SqlInt height) => Some (inr (SELECT_block height)) | _ => None end
  else if bool_decide (sql = query_text COUNT_blocks) then Some (inr COUNT_blocks)
  else if bool_decide (sql = query_text (SELECT_balance [])) then
    match args !! 1 with Some (SqlText address) => Some (inr (SELECT_balance address)) | _ => None end
  else if bool_decide (sql = query_text SELECT_balances) then Some (inr SELECT_balances)
  else None.

Lemma understand_stmt s : understand (sql_text s) (stmt_args s) = Some (inl s).
Proof. destruct s; vm_compute; reflexivity. Qed.

Lemma understand_query q : understand (query_text q) (query_args q) = Some (inr q).
Proof. destruct q; vm_compute; reflexivity. Qed.

Section library.
Context `{Sqlite}.

Definition set_db (d : db) (t : Library) : Library := mkLibrary _ d (v_conns t) (v_stmts t).
Definition set_stmt (p : nat) (st : Stmt) (t : Library) : Library :=
  mkLibrary _ (v_db t) (v_conns t) (<[p := st]> (v_stmts t)).
Definition drop_stmt (p : nat) (t : Library) : Library := mkLibrary _ (v_db t) (v_conns t) (delete p (v_stmts t)).
Definition set_conns (c : gset nat) (t : Library) : Library := mkLibrary _ (v_db t) c (v_stmts t).

Definition at_cursor (c : cursor) (st : Stmt) : Stmt := mkStmt (st_db st) (st_sql st) (st_args st) c.
Definition with_arg (i : Z) (v : sql_value) (st : Stmt) : Stmt :=
  mkStmt (st_db st) (st_sql st) (<[i := v]> (st_args st)) (st_cursor st).

(** A live statement that satisfies [P]. *)
Definition live (t : Library) (stmt : ptr) (P : Stmt → Prop) : Prop :=
  ∃ p st, stmt = Some p ∧ v_stmts t !! p = Some st ∧ P st.

Definition on_row (index : nat) (st : Stmt) : Prop :=
  ∃ row rest, st_cursor st = OnRow row rest ∧ is_Some (row !! index).

(** A connection is closed after its statements; a statement is made on an open connection,
    bound before it is stepped, and read while it has a row. *)
Definition may (t : Library) (c : sqlite_call) : Prop :=
  match c with
  | sqlite3_open _ => True
  | sqlite3_close h => h ∈ v_conns t ∧ ∀ p st, v_stmts t !! p = Some st → st_db st ≠ h
  | sqlite3_prepare_v2 h _ => ∃ db, h = Some db ∧ db ∈ v_conns t
  | sqlite3_finalize p => is_Some (v_stmts t !! p)
  | sqlite3_bind_int64 s _ _ => live t s (λ st, st_cursor st = Fresh)
  | sqlite3_bind_blob s _ data n => live t s (λ st, st_cursor st = Fresh) ∧ n = sz data ∧ n <= SQLITE_MAX_LENGTH
  | sqlite3_bind_text s _ text => live t s (λ st, st_cursor st = Fresh) ∧ sz text <= SQLITE_MAX_LENGTH
  | sqlite3_step s => s = None ∨ live t s (λ st, st_cursor st ≠ Finished)
  | sqlite3_column_int64 s i | sqlite3_column_bytes s i | sqlite3_column_blob s i | sqlite3_column_text s i =>
      live t s (on_row i)
  end.

(** The next row of those to come, or the end. *)
Definition next_row (rows : list (list sql_value)) : Z * cursor :=
  match rows with
  | [] => (SQLITE_DONE, Finished)
  | row :: rest => (SQLITE_ROW, OnRow row rest)
  end.

Definition neither (rc : Z) : Prop := rc ≠ SQLITE_ROW ∧ rc ≠ SQLITE_DONE.

(** A step of a live statement: the code, where the statement is then, and the database. *)
Definition steps (t : Library) (st : Stmt) (rc : Z) (c : cursor) (d : db) : Prop :=
  match st_cursor st with
  | Fresh =>
      match understand (st_sql st) (st_args st) with
      | Some (inl s) =>
          c = Finished ∧ d = (sql_exec s (v_db t)).2 ∧
          (if (sql_exec s (v_db t)).1 then rc = SQLITE_DONE else neither rc)
      | Some (inr q) => (rc, c) = next_row (sql_rows q (v_db t)) ∧ d = v_db t
      | None => c = Finished ∧ d = v_db t ∧ neither rc
      end
  | OnRow _ rest => (rc, c) = next_row rest ∧ d = v_db t
  | Finished => False
  end.

(** The value of a column of the current row. *)
Definition column (t : Library) (s : ptr) (i : nat) : option sql_value :=
  p ← s; st ← v_stmts t !! p;
  match st_cursor st with OnRow row _ => row !! i | _ => None end.

Definition says (t : Library) (c : sqlite_call) : sqlite_answer c → Library → Prop :=
  match c return sqlite_answer c → Library → Prop with
  | sqlite3_open _ => λ x t',
      (x.1 ≠ SQLITE_OK ∧ x.2 = None ∧ t' = t) ∨
      (∃ h, x.2 = Some h ∧ (h ∉ v_conns t) ∧ (∀ p st, v_stmts t !! p = Some st → st_db st ≠ h) ∧
        t' = set_conns ({[h]} ∪ v_conns t) t)
  | sqlite3_close h => λ _ t', t' = set_conns (v_conns t ∖ {[h]}) t
  | sqlite3_prepare_v2 h sql => λ x t',
      if sql_prepare sql (v_db t) then
        ∃ p, x = (SQLITE_OK, Some p) ∧ v_stmts t !! p = None ∧
          t' = set_stmt p (mkStmt (default 0%nat h) sql ∅ Fresh) t
      else x.1 ≠ SQLITE_OK ∧ x.2 = None ∧ t' = t
  | sqlite3_finalize p => λ _ t', t' = drop_stmt p t
  | sqlite3_bind_int64 s i v => λ x t',
      ∃ p st, s = Some p ∧ v_stmts t !! p = Some st ∧ t' = set_stmt p (with_arg i (SqlInt v) st) t
  | sqlite3_bind_blob s i data n => λ x t',
      ∃ p st, s = Some p ∧ v_stmts t !! p = Some st ∧ t' = set_stmt p (with_arg i (SqlBlob data) st) t
  | sqlite3_bind_text s i text => λ x t',
      ∃ p st, s = Some p ∧ v_stmts t !! p = Some st ∧ t' = set_stmt p (with_arg i (SqlText text) st) t
  | sqlite3_step s => λ rc t',
      match s with
      | None => rc = SQLITE_MISUSE ∧ t' = t
      | Some p => ∃ st c d, v_stmts t !! p = Some st ∧ steps t st rc c d ∧
          t' = set_db d (set_stmt p (at_cursor c st) t)
      end
  | sqlite3_column_int64 s i => λ x t',
      t' = t ∧ match column t s i with Some (SqlInt z) => x = z | _ => True end
  | sqlite3_column_bytes s i => λ x t',
      t' = t ∧ match column t s i with Some (SqlBlob b) => x = sz b | _ => True end
  | sqlite3_column_blob s i => λ x t',
      t' = t ∧ match column t s i with
               | Some (SqlBlob b) => x = (if bool_decide (b = []) then None else Some b)
               | _ => True
               end
  | sqlite3_column_text s i => λ x t',
      t' = t ∧ match column t s i with Some (SqlText s) => x = Some s | _ => True end
  end.

Definition documented : spec sqlite_call sqlite_answer Library := mkSpec may says.
End library.

(** ** Rules for the wrappers *)

Section rules.
Context `{Sqlite}.
Implicit Types t : Library.

#[local] Abbreviation wpd := (wp documented).

Lemma drop_set p st d t : v_stmts t !! p = None → drop_stmt p (set_db d (set_stmt p st t)) = set_db d t.
Proof. intros Hp. unfold drop_stmt, set_db, set_stmt. cbn. by rewrite delete_insert_id. Qed.

Lemma set_set p st st' t : set_stmt p st' (set_stmt p st t) = set_stmt p st' t.
Proof. unfold set_stmt. cbn. by rewrite insert_insert_eq. Qed.

Lemma set_lookup p st t : v_stmts (set_stmt p st t) !! p = Some st.
Proof. apply lookup_insert_eq. Qed.

(** The end of the scope of a statement: it is finalized, and nothing else changes. *)
Lemma wp_with_statement {A} c sql (body : ptr → sql_prog A) Q t :
  c ∈ v_conns t →
  (∀ p, sql_prepare sql (v_db t) = true → v_stmts t !! p = None →
    wpd (body (Some p)) (λ r t', is_Some (v_stmts t' !! p) ∧ Q r (drop_stmt p t'))
      (set_stmt p (mkStmt c sql ∅ Fresh) t)) →
  (sql_prepare sql (v_db t) = false → wpd (body None) Q t) →
  wpd (Sq.with_statement (Some c) sql body) Q t.
Proof.
  intros Hc Hyes Hno. unfold Sq.with_statement. apply wp_bind. unfold Sq.statement. apply wp_invoke.
  { by exists c. }
  intros [res stmt] t' Hx. cbn in Hx. destruct (sql_prepare sql (v_db t)).
  - destruct Hx as (p & [= -> ->] & Hp & ->). cbn. apply wp_finally.
    eapply wp_mono; [|by apply Hyes]. intros r t' [Hl HQ]. split; [exact Hl|]. intros ? ? ->. by split.
  - destruct Hx as (Hr & Hs & ->). cbn in Hr, Hs. subst stmt.
    cbn -[Z.eqb SQLITE_OK]. rewrite (proj2 (Z.eqb_neq _ _) Hr). cbn. apply wp_finally.
    eapply wp_mono; [|by apply Hno]. intros r t' HQ. by split.
Qed.

Lemma wp_bind_arg {A} p st t v (b : sql_prog unit) (f : unit → sql_prog A) Q c i :
  b = (_ ← invoke c; mret tt) → may (set_stmt p st t) c →
  (∀ x t', says (set_stmt p st t) c x t' → t' = set_stmt p (with_arg i v st) (set_stmt p st t)) →
  wpd (f tt) Q (set_stmt p (with_arg i v st) t) → wpd (b ≫= f) Q (set_stmt p st t).
Proof.
  intros -> Hm Hs Hf. apply wp_bind. apply wp_invoke; [done|]. intros x t' Hx. cbn.
  rewrite (Hs x t' Hx), set_set. exact Hf.
Qed.

Lemma live_set p st t (P : Stmt → Prop) : P st → live (set_stmt p st t) (Some p) P.
Proof. intros HP. exists p, st. split_and!; [done|apply set_lookup|done]. Qed.

(** What a bind call says of a statement that is there. *)
Lemma bound_set p st t v i t' :
  (∃ p' st', Some p = Some p' ∧ v_stmts (set_stmt p st t) !! p' = Some st' ∧
    t' = set_stmt p' (with_arg i v st') (set_stmt p st t)) →
  t' = set_stmt p (with_arg i v st) (set_stmt p st t).
Proof. intros (p' & st' & [= <-] & Hst & ->). rewrite set_lookup in Hst. by injection Hst as <-. Qed.

Lemma wp_bind_int_64 {A} p st t i v (f : unit → sql_prog A) Q :
  st_cursor st = Fresh → wpd (f tt) Q (set_stmt p (with_arg i (SqlInt v) st) t) →
  wpd (Sq.bind_int_64 (Some p) i v ≫= f) Q (set_stmt p st t).
Proof.
  intros Hc. eapply wp_bind_arg; [reflexivity|by apply live_set|]. intros x t'. apply bound_set.
Qed.

Lemma wp_bind_text {A} p st t i v (f : unit → sql_prog A) Q :
  st_cursor st = Fresh → sz (c_str v) <= SQLITE_MAX_LENGTH →
  wpd (f tt) Q (set_stmt p (with_arg i (SqlText (c_str v)) st) t) →
  wpd (Sq.bind_text (Some p) i v ≫= f) Q (set_stmt p st t).
Proof.
  intros Hc Hv. eapply wp_bind_arg; [reflexivity|split; [by apply live_set|done]|]. intros x t'. apply bound_set.
Qed.

Lemma as_int_small z : 0 <= z <= SQLITE_MAX_LENGTH → Sq.as_int z = z.
Proof.
  unfold SQLITE_MAX_LENGTH. intros Hz. unfold Sq.as_int. rewrite wrap_small by solve_width.
  change (2 ^ 31) with 2147483648. case_bool; lia.
Qed.

Lemma wp_bind_blob {A} p st t i v (f : unit → sql_prog A) Q :
  st_cursor st = Fresh → sz v <= SQLITE_MAX_LENGTH →
  wpd (f tt) Q (set_stmt p (with_arg i (SqlBlob v) st) t) →
  wpd (Sq.bind_blob (Some p) i v (sz v) ≫= f) Q (set_stmt p st t).
Proof.
  intros Hc Hv. pose proof (sz_nonneg v). assert (Sq.as_int (sz v) = sz v) as E by (apply as_int_small; lia).
  eapply wp_bind_arg; [reflexivity|split; [by apply live_set|split; [done|lia]]|].
  intros x t'. apply bound_set.
Qed.

Lemma wp_step {A} p st t (f : Z → sql_prog A) Q :
  st_cursor st ≠ Finished →
  (∀ rc c d, steps (set_stmt p st t) st rc c d → wpd (f rc) Q (set_db d (set_stmt p (at_cursor c st) t))) →
  wpd (Sq.step (Some p) ≫= f) Q (set_stmt p st t).
Proof.
  intros Hc Hf. apply wp_invoke; [right; by apply live_set|].
  intros rc t' (st' & c & d & Hst & Hs & ->). rewrite set_lookup in Hst. injection Hst as <-.
  rewrite set_set. by apply Hf.
Qed.

(** ** The operations refine those of Storage.v *)

(** From any state with the connection open, [op] makes permitted calls only, ends with the
    result and the database of [m], and with the handles it started with. *)
Definition refines {A} (op : ptr → sql_prog A) (m : ST db A) : Prop :=
  ∀ c t, c ∈ v_conns t →
  wpd (op (Some c)) (λ r t', r = (m (v_db t)).1 ∧ t' = set_db (m (v_db t)).2 t) t.

Lemma refines_bind {A B} op (m : ST db A) (f : A → ptr → sql_prog B) (g : A → ST db B) :
  refines op m → (∀ a, refines (f a) (g a)) → refines (λ c, a ← op c; f a c) (m ≫= g).
Proof.
  intros Hop Hf c t Hc. apply wp_bind. eapply wp_mono; [|by apply Hop]. intros r t' [-> ->].
  unfold mbind, ST_bind. destruct (m (v_db t)) as [[a|e] d]; cbn; [|done]. by apply (Hf a c (set_db d t)).
Qed.

Lemma refines_catch {A} op (m : ST db A) h g :
  refines op m → refines h (st_modify g) →
  refines (λ c, on_throw (op c) (h c)) (st_catch m (λ e, st_modify g;; st_lift (Throw e))).
Proof.
  intros Hop Hh c t Hc. apply wp_on_throw. eapply wp_mono; [|by apply Hop]. intros r t' [-> ->].
  unfold st_catch. destruct (m (v_db t)) as [[a|e] d]; cbn; [done|].
  eapply wp_mono; [|by apply (Hh c (set_db d t))]. intros r' t'' [-> ->]. done.
Qed.

(** Stepping a statement whose arguments are all bound, up to the end of its scope. *)
Lemma wp_execute s p c t :
  sql_prepare (sql_text s) (v_db t) = true → v_stmts t !! p = None →
  wpd (rc ← Sq.step (Some p); if negb (rc =? SQLITE_DONE) then throw RuntimeError else mret tt)
    (λ r t', is_Some (v_stmts t' !! p) ∧
      r = (Sto.run_stmt s (v_db t)).1 ∧ drop_stmt p t' = set_db (Sto.run_stmt s (v_db t)).2 t)
    (set_stmt p (mkStmt c (sql_text s) (stmt_args s) Fresh) t).
Proof.
  intros Hprep Hp. apply wp_step; [done|]. intros rc cu d Hs. unfold steps in Hs. cbn [st_cursor st_sql st_args] in Hs.
  rewrite understand_stmt in Hs. destruct Hs as (-> & -> & Hrc).
  unfold Sto.run_stmt, mbind, ST_bind, st_get, Sto.sql_step. rewrite Hprep. cbn [negb].
  change (v_db (set_stmt p _ t)) with (v_db t) in *.
  destruct (sql_exec s (v_db t)) as [[] d']; cbn [fst snd] in *.
  - subst rc. cbn. split; [by rewrite lookup_insert_eq|]. split; [done|by apply drop_set].
  - destruct Hrc as [_ Hrc]. rewrite (proj2 (Z.eqb_neq _ _) Hrc). cbn.
    split; [by rewrite lookup_insert_eq|]. split; [done|by apply drop_set].
Qed.

(** A statement that could not be prepared. *)
Lemma run_stmt_unprepared s d :
  sql_prepare (sql_text s) d = false → Sto.run_stmt s d = (Throw RuntimeError, d).
Proof. intros E. unfold Sto.run_stmt, mbind, ST_bind, st_get. by rewrite E. Qed.

Lemma run_query_unprepared q d :
  sql_prepare (query_text q) d = false → Sto.run_query q d = (Throw RuntimeError, d).
Proof. intros E. unfold Sto.run_query, mbind, ST_bind, st_get. by rewrite E. Qed.

Lemma set_db_same t : set_db (v_db t) t = t.
Proof. by destruct t. Qed.

(** The scope of a statement that is prepared, possibly bound, and stepped once. *)
Lemma refines_statement s (body : ptr → sql_prog unit) :
  (∀ p c t, sql_prepare (sql_text s) (v_db t) = true → v_stmts t !! p = None →
    wpd (body (Some p)) (λ r t', is_Some (v_stmts t' !! p) ∧
      r = (Sto.run_stmt s (v_db t)).1 ∧ drop_stmt p t' = set_db (Sto.run_stmt s (v_db t)).2 t)
    (set_stmt p (mkStmt c (sql_text s) ∅ Fresh) t)) →
  body None = throw RuntimeError →
  refines (λ c, Sq.with_statement c (sql_text s) body) (Sto.run_stmt s).
Proof.
  intros Hbody Hnone c t Hc. apply wp_with_statement; [done|intros p; by apply Hbody|].
  intros E. rewrite Hnone, (run_stmt_unprepared _ _ E). cbn. by rewrite set_db_same.
Qed.

Lemma refines_step s : stmt_args s = ∅ → refines (λ c, Sq.with_statement c (sql_text s) Sq.step_or_throw) (Sto.run_stmt s).
Proof.
  intros Hs. apply refines_statement; [|done]. intros p c t Hprep Hp. unfold Sq.step_or_throw. cbn [Sq.is_valid negb].
  rewrite <- Hs. by apply wp_execute.
Qed.

Lemma refines_save_block b h :
  sz (hash_ b) <= SQLITE_MAX_LENGTH → sz (Blk.serialize b) <= SQLITE_MAX_LENGTH →
  refines (λ c, Sq.save_block c b h) (Sto.save_block b h).
Proof.
  intros Hh Hs. apply (refines_statement (INSERT_block (i64 (Z.of_nat h)) (hash_ b) (Blk.serialize b))); [|done].
  intros p c t Hprep Hp. cbn [Sq.is_valid negb].
  apply wp_bind_int_64; [done|]. apply wp_bind_blob; [done..|]. apply wp_bind_blob; [done..|]. by apply wp_execute.
Qed.

Lemma refines_delete h : refines (λ c, Sq.delete_blocks_from c h) (Sto.delete_blocks_from h).
Proof.
  apply (refines_statement (DELETE_blocks_from (i64 (Z.of_nat h)))); [|done].
  intros p c t Hprep Hp. cbn [Sq.is_valid negb]. apply wp_bind_int_64; [done|]. by apply wp_execute.
Qed.

Lemma refines_save_balance a n :
  sz (c_str a) <= SQLITE_MAX_LENGTH → refines (λ c, Sq.save_balance c a n) (Sto.save_balance a n).
Proof.
  intros Ha. apply (refines_statement (INSERT_balance (c_str a) (i64 n))); [|done].
  intros p c t Hprep Hp. cbn [Sq.is_valid negb].
  apply wp_bind_text; [done..|]. apply wp_bind_int_64; [done|]. by apply wp_execute.
Qed.

(** The blocks a store can take: no row exceeds the limit of the library. *)
Definition storable (b : Block) : Prop :=
  sz (hash_ b) <= SQLITE_MAX_LENGTH ∧ sz (Blk.serialize b) <= SQLITE_MAX_LENGTH.

Lemma refines_save_blocks l h :
  Forall storable l → refines (λ c, Sq.save_blocks c h l) (Sto.save_blocks h l).
Proof.
  revert h. induction l as [|b l IH]; intros h Hl.
  { intros c t Hc. cbn. by rewrite set_db_same. }
  apply Forall_cons in Hl as [[? ?] Hl]. apply (refines_bind _ (Sto.save_block b h) (λ _ c, Sq.save_blocks c (S h) l)).
  - by apply refines_save_block.
  - intros _. by apply IH.
Qed.

(** A statement that stays in its scope while other operations run. *)
Lemma refines_scope {A} s (m : ST db A) (rest : ptr → sql_prog A) :
  stmt_args s = ∅ → refines rest m →
  refines (λ c, Sq.with_statement c (sql_text s) (λ stmt, Sq.step_or_throw stmt;; rest c)) (Sto.run_stmt s;; m).
Proof.
  intros Hs Hm c t Hc. apply wp_with_statement; [done| |].
  2: { intros E. unfold mbind, ST_bind. rewrite (run_stmt_unprepared _ _ E). cbn. by rewrite set_db_same. }
  intros p Hprep Hp. apply wp_bind. unfold Sq.step_or_throw. cbn [Sq.is_valid negb].
  rewrite <- Hs. eapply wp_mono; [|by apply wp_execute]. intros r t1 (Hl & -> & Hd).
  unfold mbind, ST_bind. destruct (Sto.run_stmt s (v_db t)) as [[[]|e] d]; cbn [then_wp fst snd] in *; [|done].
  assert (v_db t1 = d) as Ed by exact (f_equal v_db Hd).
  eapply wp_mono; [|apply (Hm c t1)]; [|by rewrite (f_equal v_conns Hd : v_conns t1 = _)].
  rewrite Ed. intros r t' [-> ->]. split; [done|]. split; [done|].
  exact (f_equal (set_db _) Hd).
Qed.

Lemma refines_schema : refines Sq.create_schema Sto.create_schema.
Proof.
  apply (refines_scope CREATE_blocks (Sto.run_stmt CREATE_balances)
    (λ c, Sq.with_statement c (sql_text CREATE_balances) Sq.step_or_throw)); [done|by apply refines_step].
Qed.

Lemma refines_rollback :
  refines (λ c, Sq.with_statement c (sql_text ROLLBACK) (λ rollback, _ ← Sq.step rollback; mret tt))
    (st_modify Sto.rollback).
Proof.
  intros c t Hc. apply wp_with_statement; [done| |].
  - intros p Hprep Hp. apply wp_step; [done|]. intros rc cu d Hs. cbn in Hs. destruct Hs as (-> & -> & _).
    cbn. rewrite lookup_insert_eq. split; [done|]. split; [done|]. rewrite drop_set by done.
    unfold Sto.rollback. by rewrite Hprep.
  - intros E. split; [by left|]. intros rc t' [_ ->]. cbn. unfold Sto.rollback. rewrite E. by rewrite set_db_same.
Qed.

Lemma refines_replace h l :
  Forall storable l → refines (λ c, Sq.replace_blocks_from c h l) (Sto.replace_blocks_from h l).
Proof.
  intros Hl. apply refines_scope; [done|].
  apply (refines_bind _ _ (λ _ c, Sq.with_statement c (sql_text COMMIT) Sq.step_or_throw)); [|intros; by apply refines_step].
  apply refines_catch; [|apply refines_rollback].
  apply (refines_bind _ _ (λ _ c, Sq.save_blocks c h l)); [apply refines_delete|intros; by apply refines_save_blocks].
Qed.

(** ** Queries *)

Lemma wp_query {A} q p c t (f : Z → sql_prog A) Q :
  (∀ rc cu, (rc, cu) = next_row (sql_rows q (v_db t)) →
    wpd (f rc) Q (set_stmt p (mkStmt c (query_text q) (query_args q) cu) t)) →
  wpd (Sq.step (Some p) ≫= f) Q (set_stmt p (mkStmt c (query_text q) (query_args q) Fresh) t).
Proof.
  intros Hf. apply wp_step; [done|]. intros rc cu d Hs. unfold steps in Hs. cbn [st_cursor st_sql st_args] in Hs.
  rewrite understand_query in Hs. destruct Hs as [E ->]. exact (Hf rc cu E).
Qed.

Lemma column_set p st t row rest i v :
  st_cursor st = OnRow row rest → row !! i = Some v → column (set_stmt p st t) (Some p) i = Some v.
Proof. intros Hc Hi. unfold column. cbn -[set_stmt]. rewrite set_lookup. cbn. by rewrite Hc. Qed.

Lemma on_row_set p st t row rest i v :
  st_cursor st = OnRow row rest → row !! i = Some v → live (set_stmt p st t) (Some p) (on_row i).
Proof. intros Hc Hi. apply live_set. exists row, rest. by split; [|eexists]. Qed.

Lemma wp_column_int64 {A} p st t row rest i z (f : Z → sql_prog A) Q :
  st_cursor st = OnRow row rest → row !! i = Some (SqlInt z) →
  wpd (f z) Q (set_stmt p st t) → wpd (Sq.column_int64 (Some p) i ≫= f) Q (set_stmt p st t).
Proof.
  intros Hc Hi Hf. apply wp_invoke; [by eapply on_row_set|]. intros x t' [-> Hx].
  rewrite (column_set _ _ _ _ _ _ _ Hc Hi) in Hx. by subst x.
Qed.

Lemma wp_column_text {A} p st t row rest i s (f : str → sql_prog A) Q :
  st_cursor st = OnRow row rest → row !! i = Some (SqlText s) →
  wpd (f (c_str s)) Q (set_stmt p st t) → wpd (Sq.column_text (Some p) i ≫= f) Q (set_stmt p st t).
Proof.
  intros Hc Hi Hf. apply wp_bind, wp_invoke; [by eapply on_row_set|]. intros x t' [-> Hx].
  rewrite (column_set _ _ _ _ _ _ _ Hc Hi) in Hx. by subst x.
Qed.

Lemma wp_column_blob {A} p st t row rest i b (f : bytes → sql_prog A) Q :
  st_cursor st = OnRow row rest → row !! i = Some (SqlBlob b) →
  wpd (f b) Q (set_stmt p st t) → wpd (Sq.column_blob (Some p) i ≫= f) Q (set_stmt p st t).
Proof.
  intros Hc Hi Hf. apply wp_bind, wp_invoke; [by eapply on_row_set|]. intros n t' [-> Hn].
  rewrite (column_set _ _ _ _ _ _ _ Hc Hi) in Hn. subst n.
  split; [by eapply on_row_set|]. intros x t' [-> Hx]. rewrite (column_set _ _ _ _ _ _ _ Hc Hi) in Hx.
  assert (default [] x = b) as E by (subst x; by case_bool_decide).
  cbn -[Z.ltb sz]. rewrite E, Z.ltb_irrefl. cbn. unfold sz. by rewrite Nat2Z.id, firstn_all.
Qed.

(** The scope of a query. *)
Lemma refines_query {A} q (body : ptr → sql_prog A) (m : list (list sql_value) → ST db A) :
  (∀ p c t, v_stmts t !! p = None →
    wpd (body (Some p)) (λ r t', is_Some (v_stmts t' !! p) ∧
      r = (m (sql_rows q (v_db t)) (v_db t)).1 ∧ drop_stmt p t' = set_db (m (sql_rows q (v_db t)) (v_db t)).2 t)
    (set_stmt p (mkStmt c (query_text q) ∅ Fresh) t)) →
  body None = throw RuntimeError →
  refines (λ c, Sq.with_statement c (query_text q) body) (Sto.run_query q ≫= m).
Proof.
  intros Hbody Hnone c t Hc. apply wp_with_statement; [done| |].
  - intros p Hprep Hp. rewrite (ST_bind_eq (Sto.run_query q) m (v_db t) (sql_rows q (v_db t)) (v_db t)).
    + by apply Hbody.
    + unfold Sto.run_query, mbind, ST_bind, st_get. by rewrite Hprep.
  - intros E. rewrite Hnone. unfold mbind, ST_bind. rewrite (run_query_unprepared _ _ E). cbn. by rewrite set_db_same.
Qed.

(** The end of the scope of a statement that read only. *)
Lemma read_only p st t : v_stmts t !! p = None →
  is_Some (v_stmts (set_stmt p st t) !! p) ∧ drop_stmt p (set_stmt p st t) = set_db (v_db t) t.
Proof. intros Hp. rewrite set_lookup. split; [done|]. by rewrite <- (drop_set p st (v_db t) t Hp). Qed.
End rules.

Section queries.
Context `{SqliteLaws}.

Lemma single_row q d : (length (sql_answer q (view d)) <= 1)%nat → sql_rows q d = sql_answer q (view d).
Proof.
  intros Hl. pose proof (law_query q d) as Hp. destruct (sql_answer q (view d)) as [|r [|]]; cbn in Hl; [| |lia].
  - by apply Permutation_nil_r in Hp.
  - by apply Permutation_singleton_r in Hp.
Qed.

Lemma refines_load_block `{Crypto} h : refines (λ c, Sq.load_block c h) (Sto.load_block h).
Proof.
  apply (refines_query (SELECT_block (i64 (Z.of_nat h)))); [|done]. intros p c t Hp. cbn [Sq.is_valid negb].
  apply wp_bind_int_64; [done|]. apply wp_query. intros rc cu E.
  rewrite single_row in E |- * by (cbn; destruct (t_blocks _ !! _) as [[]|]; cbn; lia). cbn in E |- *.
  destruct (t_blocks (view (v_db t)) !! i64 (Z.of_nat h)) as [[hash ser]|]; injection E as -> ->.
  - eapply wp_column_blob; [done..|]. split; [by apply read_only|]. split; [done|by apply read_only].
  - split; [by apply read_only|]. split; [done|by apply read_only].
Qed.

Lemma refines_block_count : refines Sq.block_count Sto.block_count.
Proof.
  apply (refines_query COUNT_blocks); [|done]. intros p c t Hp. cbn [Sq.is_valid negb].
  apply wp_query. intros rc cu E. rewrite single_row in E |- * by (cbn; lia). cbn in E |- *. injection E as -> ->.
  eapply wp_column_int64; [done..|]. split; [by apply read_only|]. split; [done|by apply read_only].
Qed.

Lemma refines_load_balance a :
  sz (c_str a) <= SQLITE_MAX_LENGTH → refines (λ c, Sq.load_balance c a) (Sto.load_balance a).
Proof.
  intros Ha. apply (refines_query (SELECT_balance (c_str a))); [|done]. intros p c t Hp. cbn [Sq.is_valid negb].
  apply wp_bind_text; [done..|]. apply wp_query. intros rc cu E.
  rewrite single_row in E |- * by (cbn; destruct (t_balances _ !! _); cbn; lia). cbn in E |- *.
  destruct (t_balances (view (v_db t)) !! c_str a) as [n|]; injection E as -> ->.
  - eapply wp_column_int64; [done..|]. split; [by apply read_only|]. split; [done|by apply read_only].
  - split; [by apply read_only|]. split; [done|by apply read_only].
Qed.

(** The rows a statement has not returned yet. *)
Definition pending (st : Stmt) (d : db) (rows : list (list sql_value)) : Prop :=
  match st_cursor st with
  | Fresh => st_sql st = query_text SELECT_balances ∧ st_args st = ∅ ∧ rows = sql_rows SELECT_balances d
  | OnRow _ rest => rows = rest
  | Finished => False
  end.

Definition balance_row (row : list sql_value) : option (str * Z) :=
  match row with
  | SqlText address :: SqlInt amount :: _ => Some (c_str address, u64 amount)
  | _ => None
  end.

Lemma wp_step_pending {A} p st t rows (f : Z → sql_prog A) Q :
  pending st (v_db t) rows →
  (∀ rc cu, (rc, cu) = next_row rows → wp documented (f rc) Q (set_stmt p (at_cursor cu st) t)) →
  wp documented (Sq.step (Some p) ≫= f) Q (set_stmt p st t).
Proof.
  intros Hp Hf. apply wp_step. { intros E. unfold pending in Hp. by rewrite E in Hp. }
  intros rc cu d Hs. unfold pending, steps in *. destruct (st_cursor st); [| |done].
  - destruct Hp as (E1 & E2 & ->). rewrite E1, E2 in Hs. change ∅ with (query_args SELECT_balances) in Hs. rewrite understand_query in Hs.
    destruct Hs as [E ->]. exact (Hf rc cu E).
  - subst rows. destruct Hs as [E ->]. exact (Hf rc cu E).
Qed.

Lemma wp_balances_loop turns p st t rows acc :
  (length rows < turns)%nat → pending st (v_db t) rows →
  Forall (λ row, ∃ a n, row = [SqlText a; SqlInt n]) rows →
  wp documented (Sq.balances_loop turns (Some p) acc)
    (λ r t', r = Ok (acc ++ omap balance_row rows) ∧ ∃ st', t' = set_stmt p st' t) (set_stmt p st t).
Proof.
  revert st rows acc. induction turns as [|turns IH]; intros st rows acc Hl Hp Hr; [lia|].
  eapply wp_step_pending; [exact Hp|]. intros rc cu E. destruct rows as [|row rows]; injection E as -> ->.
  { cbn. rewrite app_nil_r. split; [done|by eexists]. }
  apply Forall_cons in Hr as [(a & n & ->) Hr]. cbn [length] in Hl. cbn [negb Z.eqb SQLITE_ROW].
  eapply wp_column_text; [done..|]. eapply wp_column_int64; [done..|].
  cbn [omap list_omap balance_row]. eapply wp_mono; [|apply (IH _ rows); [lia|done|done]].
  intros r t' [-> Hst]. rewrite <- app_assoc. by split.
Qed.

Lemma balance_rows d : Forall (λ row, ∃ a n, row = [SqlText a; SqlInt n]) (sql_rows SELECT_balances d).
Proof.
  rewrite law_query. apply Forall_fmap, Forall_true. intros [a n]. by exists a, n.
Qed.

(** More turns than there are rows. *)
Lemma refines_load_all_balances turns c t :
  c ∈ v_conns t → (length (sql_rows SELECT_balances (v_db t)) < turns)%nat →
  wp documented (Sq.load_all_balances turns (Some c))
    (λ r t', r = (Sto.load_all_balances (v_db t)).1 ∧ t' = t) t.
Proof.
  intros Hc Hl. apply wp_with_statement; [done| |].
  - intros p Hprep Hp. cbn [Sq.is_valid negb].
    eapply wp_mono; [|by apply wp_balances_loop; [exact Hl| |apply balance_rows]].
    intros r t' [-> [st ->]]. destruct (read_only p st t Hp) as [Hs ->]. split; [done|]. rewrite set_db_same.
    split; [|done]. unfold Sto.load_all_balances, Sto.run_query, mbind, ST_bind, st_get. by rewrite Hprep.
  - intros E. cbn. split; [|done]. unfold Sto.load_all_balances, mbind, ST_bind. by rewrite (run_query_unprepared _ _ E).
Qed.
End queries.

(** ** Lifetime *)

Section lifetime.
Context `{Sqlite}.

(** The handles of [t] are those of [t0]. *)
Definition same_handles (t0 t : Library) : Prop := v_conns t = v_conns t0 ∧ v_stmts t = v_stmts t0.

(** No statement of the connection is left. *)
Definition idle (c : nat) (t : Library) : Prop := ∀ p st, v_stmts t !! p = Some st → st_db st ≠ c.

(** What the constructor of [Storage] leaves: an open connection to a database with both
    tables; or, when it throws, what was there before. *)
Definition opened (t : Library) (r : result ptr) (t' : Library) : Prop :=
  match r with
  | Ok connection_ => ∃ c, connection_ = Some c ∧ (c ∉ v_conns t) ∧ v_conns t' = {[c]} ∪ v_conns t ∧
      v_stmts t' = v_stmts t ∧ idle c t' ∧ Sto.create_schema (v_db t) = (Ok tt, v_db t')
  | Throw e => e = RuntimeError ∧ same_handles t t' ∧
      (v_db t' = v_db t ∨ v_db t' = (Sto.create_schema (v_db t)).2)
  end.

Lemma wp_close_connection c t Q :
  c ∈ v_conns t → idle c t → Q (set_conns (v_conns t ∖ {[c]}) t) →
  wp documented (Sq.connection_destroy (Some c)) (ends Q) t.
Proof. intros Hc Hi HQ. split; [by split|]. intros x t' ->. by split. Qed.

Lemma create_schema_throws d e d' : Sto.create_schema d = (Throw e, d') → e = RuntimeError.
Proof.
  assert (∀ s d e d', Sto.run_stmt s d = (Throw e, d') → e = RuntimeError) as Hr.
  { clear. intros s d e d'. unfold Sto.run_stmt, mbind, ST_bind, mret, ST_ret, st_get, st_lift, Sto.sql_step.
    destruct (sql_prepare _ d); cbn; [|congruence]. destruct (sql_exec s d) as [[] d1]; cbn; congruence. }
  unfold Sto.create_schema, mbind, ST_bind. destruct (Sto.run_stmt CREATE_blocks d) as [[[]|e'] d1] eqn:E; [by apply Hr|].
  intros [= <- <-]. by eapply Hr.
Qed.

(** The body of the constructor, once the connection is open. *)
Lemma wp_constructor_body c t :
  c ∉ v_conns t → idle c t →
  wp documented (on_throw (Sq.create_schema (Some c);; mret (Some c)) (Sq.connection_destroy (Some c)))
    (opened t) (set_conns ({[c]} ∪ v_conns t) t).
Proof.
  intros Hc Hi. set (t1 := set_conns ({[c]} ∪ v_conns t) t).
  assert (c ∈ v_conns t1) as Hc1 by (cbn; set_solver).
  apply wp_on_throw, wp_bind. eapply wp_mono; [|exact (refines_schema c t1 Hc1)]. intros r t2 [-> ->].
  change (v_db t1) with (v_db t). destruct (Sto.create_schema (v_db t)) as [[[]|e] d] eqn:Es; cbn [then_wp fst snd].
  - exists c. split_and!; done.
  - apply wp_close_connection; [done|exact Hi|].
    rewrite (create_schema_throws _ _ _ Es). split_and!; [done|split; [cbn; set_solver|done]|right; by rewrite Es].
Qed.

Lemma opens_and_closes path t : wp documented (Sq.storage path) (opened t) t.
Proof.
  apply wp_bind, wp_bind. split; [done|]. intros [res h] t1 Hx.
  destruct Hx as [(Hres & Hh & ->)|(c & Hh & Hc & Hi & ->)]; cbn [fst snd] in *; subst h;
    cbn [then_wp wp mret calls_ret].
  { rewrite (proj2 (Z.eqb_neq _ _) Hres). cbn. split_and!; [done|done|by left]. }
  destruct (res =? SQLITE_OK); cbn [negb].
  - by apply wp_constructor_body.
  - split; [split; [cbn; set_solver|exact Hi]|]. intros x t' ->. cbn.
    split_and!; [done|split; [cbn; set_solver|done]|by left].
Qed.
End lifetime.

(** Once the tables exist they hold what they held. *)
Lemma create_schema_keeps `{SqliteLaws} d d' :
  Sto.create_schema d = (Ok tt, d') →
  view d' = mkTables (t_blocks (view d)) (t_balances (view d)) true true ∧ txn d' = txn d.
Proof.
  unfold Sto.create_schema. intros ([] & d1 & E1 & E2)%ST_bind_Ok.
  pose proof (Sto.run_stmt_plain CREATE_blocks d ltac:(done)) as H1. rewrite E1 in H1. destruct H1 as [V1 T1].
  pose proof (Sto.run_stmt_plain CREATE_balances d1 ltac:(done)) as H2. rewrite E2 in H2. destruct H2 as [V2 T2].
  rewrite V2, V1, T2. done.
Qed.

(** ** Failures

    The manual allows a library that runs out of memory, or whose file is locked or cannot be
    read, to refuse more than [says]: a text is not prepared; an argument is not bound, and
    stays NULL; a step ends with an error; a column that has to be converted reads as NULL.
    With an argument missing a query has no rows, since nothing equals NULL, but a statement
    may still write, and what it writes is not said. *)

Section failures.
Context `{Sqlite}.

Definition is_query (sql : str) : bool :=
  bool_decide (sql ∈ [query_text (SELECT_block 0); query_text COUNT_blocks; query_text (SELECT_balance []);
    query_text SELECT_balances]).

(** A step that does not give a row: it reports the end only if an argument is missing. *)
Definition step_fails (t : Library) (st : Stmt) (rc : Z) (c : cursor) (d : db) : Prop :=
  c = Finished ∧ rc ≠ SQLITE_ROW ∧ (is_query (st_sql st) = true → d = v_db t) ∧
  (rc = SQLITE_DONE → understand (st_sql st) (st_args st) = None).

Definition fails (t : Library) (c : sqlite_call) : sqlite_answer c → Library → Prop :=
  match c return sqlite_answer c → Library → Prop with
  | sqlite3_prepare_v2 _ _ => λ x t', x.1 ≠ SQLITE_OK ∧ x.2 = None ∧ t' = t
  | sqlite3_bind_int64 _ _ _ | sqlite3_bind_blob _ _ _ _ | sqlite3_bind_text _ _ _ => λ x t', x ≠ SQLITE_OK ∧ t' = t
  | sqlite3_step s => λ rc t',
      ∃ p st c d, s = Some p ∧ v_stmts t !! p = Some st ∧ step_fails t st rc c d ∧
        t' = set_db d (set_stmt p (at_cursor c st) t)
  | sqlite3_column_bytes _ _ => λ x t', x = 0 ∧ t' = t
  | sqlite3_column_blob _ _ | sqlite3_column_text _ _ => λ x t', x = None ∧ t' = t
  | sqlite3_open _ | sqlite3_close _ | sqlite3_finalize _ | sqlite3_column_int64 _ _ => λ _ _, False
  end.

Definition fallible : spec sqlite_call sqlite_answer Library :=
  mkSpec may (λ t c x t', says t c x t' ∨ fails t c x t').

#[local] Abbreviation wpf := (wp fallible).

(** What is left of a state: the database may be another one. *)
Definition but_db (t t' : Library) : Prop := t' = set_db (v_db t') t.

(** What a scope with the statement [p] leaves. *)
Definition with_stmt (p : nat) (t t' : Library) : Prop := ∃ d st, t' = set_db d (set_stmt p st t).

Lemma drop_with_stmt p t t' : v_stmts t !! p = None → with_stmt p t t' → is_Some (v_stmts t' !! p) ∧ but_db t (drop_stmt p t').
Proof. intros Hp (d & st & ->). rewrite drop_set by done. split; [|done]. cbn. by rewrite lookup_insert_eq. Qed.

Lemma wpf_with_statement {A} c sql (body : ptr → sql_prog A) Q t :
  c ∈ v_conns t →
  (∀ p, v_stmts t !! p = None → sql_prepare sql (v_db t) = true →
    wpf (body (Some p)) (λ r t', is_Some (v_stmts t' !! p) ∧ Q r (drop_stmt p t'))
      (set_stmt p (mkStmt c sql ∅ Fresh) t)) →
  wpf (body None) Q t →
  wpf (Sq.with_statement (Some c) sql body) Q t.
Proof.
  intros Hc Hyes Hno. unfold Sq.with_statement. apply wp_bind. unfold Sq.statement. apply wp_invoke.
  { by exists c. }
  intros [res stmt] t' Hx. cbn in Hx.
  assert ((sql_prepare sql (v_db t) = true ∧ ∃ p, (res, stmt) = (SQLITE_OK, Some p) ∧ v_stmts t !! p = None ∧
    t' = set_stmt p (mkStmt c sql ∅ Fresh) t) ∨ (res ≠ SQLITE_OK ∧ stmt = None ∧ t' = t)) as [(Hprep & Hx')|Hx'].
  { destruct Hx as [Hx|Hx]; [|by right]. destruct (sql_prepare sql (v_db t)); [by left|by right]. }
  - destruct Hx' as (p & [= -> ->] & Hp & ->). cbn. apply wp_finally.
    eapply wp_mono; [|by apply Hyes]. intros r t' [Hl HQ]. split; [exact Hl|]. intros ? ? [->|[]]. by split.
  - destruct Hx' as (Hr & -> & ->).
    cbn -[Z.eqb SQLITE_OK]. rewrite (proj2 (Z.eqb_neq _ _) Hr). cbn. apply wp_finally.
    eapply wp_mono; [|exact Hno]. intros r t' HQ. by split.
Qed.

(** After a bind the argument is bound or not. *)
Lemma wpf_bind_arg {A} p st t v (b : sql_prog unit) (f : unit → sql_prog A) Q c i :
  b = (_ ← invoke c; mret tt) → may (set_stmt p st t) c →
  (∀ x t', says (set_stmt p st t) c x t' → t' = set_stmt p (with_arg i v st) (set_stmt p st t)) →
  (∀ x t', fails (set_stmt p st t) c x t' → t' = set_stmt p st t) →
  wpf (f tt) Q (set_stmt p (with_arg i v st) t) → wpf (f tt) Q (set_stmt p st t) → wpf (b ≫= f) Q (set_stmt p st t).
Proof.
  intros -> Hm Hs Hn Hf Hf'. apply wp_bind. apply wp_invoke; [done|]. intros x t' [Hx|Hx]; cbn.
  - rewrite (Hs x t' Hx), set_set. exact Hf.
  - by rewrite (Hn x t' Hx).
Qed.

Lemma wpf_bind_int_64 {A} p st t i v (f : unit → sql_prog A) Q :
  st_cursor st = Fresh →
  wpf (f tt) Q (set_stmt p (with_arg i (SqlInt v) st) t) → wpf (f tt) Q (set_stmt p st t) →
  wpf (Sq.bind_int_64 (Some p) i v ≫= f) Q (set_stmt p st t).
Proof.
  intros Hc. eapply wpf_bind_arg; [reflexivity|by apply live_set| |by intros x t' [_ ->]]. intros x t'. apply bound_set.
Qed.

Lemma wpf_bind_text {A} p st t i v (f : unit → sql_prog A) Q :
  st_cursor st = Fresh → sz (c_str v) <= SQLITE_MAX_LENGTH →
  wpf (f tt) Q (set_stmt p (with_arg i (SqlText (c_str v)) st) t) → wpf (f tt) Q (set_stmt p st t) →
  wpf (Sq.bind_text (Some p) i v ≫= f) Q (set_stmt p st t).
Proof.
  intros Hc Hv. eapply wpf_bind_arg; [reflexivity|split; [by apply live_set|done]| |by intros x t' [_ ->]].
  intros x t'. apply bound_set.
Qed.

Lemma wpf_bind_blob {A} p st t i v (f : unit → sql_prog A) Q :
  st_cursor st = Fresh → sz v <= SQLITE_MAX_LENGTH →
  wpf (f tt) Q (set_stmt p (with_arg i (SqlBlob v) st) t) → wpf (f tt) Q (set_stmt p st t) →
  wpf (Sq.bind_blob (Some p) i v (sz v) ≫= f) Q (set_stmt p st t).
Proof.
  intros Hc Hv. pose proof (sz_nonneg v). assert (Sq.as_int (sz v) = sz v) as E by (apply as_int_small; lia).
  eapply wpf_bind_arg; [reflexivity|split; [by apply live_set|split; [done|lia]]| |by intros x t' [_ ->]].
  intros x t'. apply bound_set.
Qed.

Lemma wpf_step {A} p st t (f : Z → sql_prog A) Q :
  st_cursor st ≠ Finished →
  (∀ rc c d, steps (set_stmt p st t) st rc c d ∨ step_fails (set_stmt p st t) st rc c d →
    wpf (f rc) Q (set_db d (set_stmt p (at_cursor c st) t))) →
  wpf (Sq.step (Some p) ≫= f) Q (set_stmt p st t).
Proof.
  intros Hc Hf. apply wp_invoke; [right; by apply live_set|].
  intros rc t' [(st' & c & d & Hst & Hs & ->)|(p' & st' & c & d & [= <-] & Hst & Hs & ->)];
    rewrite set_lookup in Hst; injection Hst as <-; rewrite set_set; apply Hf; [by left|by right].
Qed.

(** *** Writing *)

Definition or_error {A} (r : result A) : Prop := match r with Ok _ => True | Throw e => e = RuntimeError end.

(** Whatever fails, [op] makes permitted calls only, ends normally or with the exception of
    the storage, and leaves the handles it found. *)
Definition survives {A} (op : ptr → sql_prog A) : Prop :=
  ∀ c t, c ∈ v_conns t → wpf (op (Some c)) (λ r t', or_error r ∧ but_db t t') t.

Lemma but_db_trans t1 t2 t3 : but_db t1 t2 → but_db t2 t3 → but_db t1 t3.
Proof. intros -> ->. done. Qed.

Lemma but_db_conns t t' : but_db t t' → v_conns t' = v_conns t.
Proof. by intros ->. Qed.

Lemma survives_bind {A B} (op : ptr → sql_prog A) (f : A → ptr → sql_prog B) :
  survives op → (∀ a, survives (f a)) → survives (λ c, a ← op c; f a c).
Proof.
  intros Hop Hf c t Hc. apply wp_bind. eapply wp_mono; [|by apply Hop]. intros [a|e] t' [He Ht]; cbn; [|done].
  eapply wp_mono; [|apply (Hf a c t'); by rewrite (but_db_conns _ _ Ht)]. intros r t'' [? ?]. split; [done|by eapply but_db_trans].
Qed.

Lemma survives_catch {A} (op : ptr → sql_prog A) h :
  survives op → (∀ c t, c ∈ v_conns t → wpf (h (Some c)) (ends (but_db t)) t) → survives (λ c, on_throw (op c) (h c)).
Proof.
  intros Hop Hh c t Hc. apply wp_on_throw. eapply wp_mono; [|by apply Hop]. intros [a|e] t' [He Ht]; cbn; [done|].
  eapply wp_mono; [|apply (Hh c t'); by rewrite (but_db_conns _ _ Ht)]. intros r t'' [-> ?].
  split; [done|]. split; [done|by eapply but_db_trans].
Qed.

Lemma wpf_execute p st t :
  st_cursor st = Fresh →
  wpf (rc ← Sq.step (Some p); if negb (rc =? SQLITE_DONE) then throw RuntimeError else mret tt)
    (λ r t', or_error r ∧ with_stmt p t t') (set_stmt p st t).
Proof.
  intros Hc. apply wpf_step; [by rewrite Hc|]. intros rc cu d _. destruct (negb _); (split; [done|by eexists _, _]).
Qed.

Lemma survives_statement {A} sql (body : ptr → sql_prog A) :
  (∀ p c t, wpf (body (Some p)) (λ r t', or_error r ∧ with_stmt p t t') (set_stmt p (mkStmt c sql ∅ Fresh) t)) →
  body None = throw RuntimeError → survives (λ c, Sq.with_statement c sql body).
Proof.
  intros Hbody Hnone c t Hc. apply wpf_with_statement; [done| |].
  - intros p Hp _. eapply wp_mono; [|apply Hbody]. intros r t' [He Hw]. destruct (drop_with_stmt p t t' Hp Hw). done.
  - rewrite Hnone. cbn. split; [done|]. unfold but_db. by rewrite set_db_same.
Qed.

Lemma survives_step sql : survives (λ c, Sq.with_statement c sql Sq.step_or_throw).
Proof. apply survives_statement; [|done]. intros p c t. by apply wpf_execute. Qed.

(** A statement that stays in its scope while other operations run. *)
Lemma survives_scope {A} sql (rest : ptr → sql_prog A) :
  survives rest → survives (λ c, Sq.with_statement c sql (λ stmt, Sq.step_or_throw stmt;; rest c)).
Proof.
  intros Hr c t Hc. apply wpf_with_statement; [done| |].
  - intros p Hp _. apply wp_bind. eapply wp_mono; [|by apply wpf_execute]. intros [[]|e] t1 [He Hw]; cbn.
    + pose proof Hw as (d & st & ->). eapply wp_mono; [|by apply (Hr c)]. intros r t' [? ->]. destruct (drop_with_stmt p t (set_db (v_db t') (set_db d (set_stmt p st t))) Hp).
      { by eexists _, _. }
      done.
    + destruct (drop_with_stmt p t t1 Hp Hw). done.
  - cbn. split; [done|]. unfold but_db. by rewrite set_db_same.
Qed.

Lemma survives_save_block b h : storable b → survives (λ c, Sq.save_block c b h).
Proof.
  intros [Hh Hs]. apply survives_statement; [|done]. intros p c t. cbn [Sq.is_valid negb].
  apply wpf_bind_int_64; [done|..]; (apply wpf_bind_blob; [done|done|..]);
    (apply wpf_bind_blob; [done|done|..]); by apply wpf_execute.
Qed.

Lemma survives_delete h : survives (λ c, Sq.delete_blocks_from c h).
Proof.
  apply survives_statement; [|done]. intros p c t. cbn [Sq.is_valid negb].
  apply wpf_bind_int_64; [done|..]; by apply wpf_execute.
Qed.

Lemma survives_save_balance a n : sz (c_str a) <= SQLITE_MAX_LENGTH → survives (λ c, Sq.save_balance c a n).
Proof.
  intros Ha. apply survives_statement; [|done]. intros p c t. cbn [Sq.is_valid negb].
  apply wpf_bind_text; [done|done|..]; (apply wpf_bind_int_64; [done|..]); by apply wpf_execute.
Qed.

Lemma survives_save_blocks l h : Forall storable l → survives (λ c, Sq.save_blocks c h l).
Proof.
  revert h. induction l as [|b l IH]; intros h Hl.
  { intros c t Hc. cbn. split; [done|]. unfold but_db. by rewrite set_db_same. }
  apply Forall_cons in Hl as [? Hl]. apply (survives_bind _ (λ _ c, Sq.save_blocks c (S h) l)).
  - by apply survives_save_block.
  - intros _. by apply IH.
Qed.

Lemma rollback_ends c t : c ∈ v_conns t →
  wpf (Sq.with_statement (Some c) (sql_text ROLLBACK) (λ rollback, _ ← Sq.step rollback; mret tt)) (ends (but_db t)) t.
Proof.
  intros Hc. apply wpf_with_statement; [done| |].
  - intros p Hp _. apply wpf_step; [done|]. intros rc cu d _. cbn -[set_stmt set_db].
    destruct (drop_with_stmt p t (set_db d (set_stmt p (at_cursor cu (mkStmt c (sql_text ROLLBACK) ∅ Fresh)) t)) Hp); [by eexists _, _|].
    done.
  - split; [by left|]. intros rc t' [[_ ->]|(p & st & cu & d & E & _)]; [|done]. split; [done|]. unfold but_db. by rewrite set_db_same.
Qed.

Lemma survives_replace h l : Forall storable l → survives (λ c, Sq.replace_blocks_from c h l).
Proof.
  intros Hl. apply survives_scope.
  apply (survives_bind _ (λ _ c, Sq.with_statement c (sql_text COMMIT) Sq.step_or_throw)); [|intros; apply survives_step].
  apply survives_catch; [|apply rollback_ends].
  apply (survives_bind _ (λ _ c, Sq.save_blocks c h l)); [apply survives_delete|intros; by apply survives_save_blocks].
Qed.

Lemma survives_schema : survives Sq.create_schema.
Proof.
  apply (survives_scope _ (λ c, Sq.with_statement c (sql_text CREATE_balances) Sq.step_or_throw)), survives_step.
Qed.
End failures.

(** *** Reading, and the lifetime of a connection *)

Section failing_reads.
Context `{SqliteLaws}.

#[local] Abbreviation wpf := (wp fallible).

(** Whatever fails, [op] makes permitted calls only, its result is one of [P], and nothing has
    changed, neither handles nor database. *)
Definition reads {A} (op : ptr → sql_prog A) (P : db → result A → Prop) : Prop :=
  ∀ c t, c ∈ v_conns t → wpf (op (Some c)) (λ r t', P (v_db t) r ∧ t' = t) t.

(** A result of a read that is not the true one: the error of the storage, or "no row". *)
Lemma reads_query {A} sql (body : ptr → sql_prog A) P :
  (∀ p c t, sql_prepare sql (v_db t) = true →
    wpf (body (Some p)) (λ r t', P (v_db t) r ∧ ∃ st, t' = set_stmt p st t) (set_stmt p (mkStmt c sql ∅ Fresh) t)) →
  body None = throw RuntimeError → (∀ d, P d (Throw RuntimeError)) → reads (λ c, Sq.with_statement c sql body) P.
Proof.
  intros Hbody Hnone HP c t Hc. apply wpf_with_statement; [done| |by rewrite Hnone].
  intros p Hp Hprep. eapply wp_mono; [|by apply Hbody]. intros r t' [Hr [st ->]].
  destruct (read_only p st t Hp) as [Hs ->]. by rewrite set_db_same.
Qed.

(** The step of a query whose arguments are bound gives its first row, or none. *)
Lemma wpf_query {A} q p c t (f : Z → sql_prog A) Q :
  (∀ rc cu, (rc, cu) = next_row (sql_rows q (v_db t)) ∨ rc ≠ SQLITE_ROW →
    wpf (f rc) Q (set_stmt p (mkStmt c (query_text q) (query_args q) cu) t)) →
  wpf (Sq.step (Some p) ≫= f) Q (set_stmt p (mkStmt c (query_text q) (query_args q) Fresh) t).
Proof.
  intros Hf. apply wpf_step; [done|]. intros rc cu d [Hs|(-> & Hrc & Hd & _)].
  - unfold steps in Hs. cbn [st_cursor st_sql st_args] in Hs. rewrite understand_query in Hs. destruct Hs as [E ->].
    by apply (Hf rc cu); left.
  - rewrite Hd by (destruct q; by vm_compute). by apply (Hf rc Finished); right.
Qed.

(** With an argument missing there is none. *)
Lemma wpf_query_unbound {A} sql p c t (f : Z → sql_prog A) Q :
  is_query sql = true → understand sql ∅ = None →
  (∀ rc cu, rc ≠ SQLITE_ROW → wpf (f rc) Q (set_stmt p (mkStmt c sql ∅ cu) t)) →
  wpf (Sq.step (Some p) ≫= f) Q (set_stmt p (mkStmt c sql ∅ Fresh) t).
Proof.
  intros Hq Hu Hf. apply wpf_step; [done|]. intros rc cu d [Hs|(-> & Hrc & Hd & _)].
  - unfold steps in Hs. cbn [st_cursor st_sql st_args] in Hs. rewrite Hu in Hs. destruct Hs as (-> & -> & Hn & _).
    by apply (Hf rc Finished).
  - rewrite Hd by done. by apply (Hf rc Finished).
Qed.

Lemma wpf_column_int64 {A} p st t row rest i z (f : Z → sql_prog A) Q :
  st_cursor st = OnRow row rest → row !! i = Some (SqlInt z) →
  wpf (f z) Q (set_stmt p st t) → wpf (Sq.column_int64 (Some p) i ≫= f) Q (set_stmt p st t).
Proof.
  intros Hc Hi Hf. apply wp_invoke; [by eapply on_row_set|]. intros x t' [[-> Hx]|[]].
  rewrite (column_set _ _ _ _ _ _ _ Hc Hi) in Hx. by subst x.
Qed.

Lemma wpf_column_text {A} p st t row rest i s (f : str → sql_prog A) Q :
  st_cursor st = OnRow row rest → row !! i = Some (SqlText s) →
  (∀ s, wpf (f s) Q (set_stmt p st t)) → wpf (Sq.column_text (Some p) i ≫= f) Q (set_stmt p st t).
Proof.
  intros Hc Hi Hf. apply wp_bind, wp_invoke; [by eapply on_row_set|]. intros x t' [[-> _]|[_ ->]]; destruct x; apply Hf.
Qed.

(** A blob that reads as NULL after its size was read is read out of bounds. *)
Lemma wpf_column_blob {A} p st t row rest i b (f : bytes → sql_prog A) Q :
  st_cursor st = OnRow row rest → row !! i = Some (SqlBlob b) →
  wpf (f b) Q (set_stmt p st t) → wpf (f []) Q (set_stmt p st t) → Q (Throw UndefinedBehaviour) (set_stmt p st t) →
  wpf (Sq.column_blob (Some p) i ≫= f) Q (set_stmt p st t).
Proof.
  intros Hc Hi Hf Hf0 HQ. apply wp_bind, wp_invoke; [by eapply on_row_set|]. intros n t' Hn.
  assert (t' = set_stmt p st t ∧ (n = sz b ∨ n = 0)) as [-> Hn'].
  { destruct Hn as [[-> Hn]|[-> ->]]; [|by auto]. rewrite (column_set _ _ _ _ _ _ _ Hc Hi) in Hn. by auto. }
  split; [by eapply on_row_set|]. intros x t' Hx.
  assert (t' = set_stmt p st t ∧ (default [] x = b ∨ default [] x = [])) as [-> Hx'].
  { destruct Hx as [[-> Hx]|[-> ->]]; [|by auto]. rewrite (column_set _ _ _ _ _ _ _ Hc Hi) in Hx. split; [done|left].
    subst x. by case_bool_decide. }
  pose proof (sz_nonneg b). cbn -[Z.ltb sz take]. destruct Hn' as [->| ->].
  - destruct Hx' as [->| ->].
    + rewrite Z.ltb_irrefl. cbn. unfold sz. by rewrite Nat2Z.id, firstn_all.
    + destruct (Z.ltb_spec (sz (@nil Byte.byte)) (sz b)) as [|Hle]; [done|]. by rewrite take_nil.
  - pose proof (sz_nonneg (default [] x)). rewrite (proj2 (Z.ltb_ge _ _)) by done. done.
Qed.

(** The rows of a prepared query. *)
Lemma query_result {A} q (m : list (list sql_value) → ST db A) d :
  sql_prepare (query_text q) d = true → (length (sql_answer q (view d)) <= 1)%nat →
  (Sto.run_query q ≫= m) d = m (sql_answer q (view d)) d.
Proof.
  intros Hprep Hl. rewrite <- single_row by done. apply ST_bind_eq. unfold Sto.run_query, mbind, ST_bind, st_get. by rewrite Hprep.
Qed.

Lemma reads_load_block `{Crypto} h :
  reads (λ c, Sq.load_block c h) (λ d r,
    r = (Sto.load_block h d).1 ∨ r = Ok None ∨ r = Throw RuntimeError ∨ r = Throw UndefinedBehaviour).
Proof.
  apply reads_query; [|done|by eauto]. intros p c t Hprep. cbn [Sq.is_valid negb]. apply wpf_bind_int_64; [done|..].
  - apply (wpf_query (SELECT_block (i64 (Z.of_nat h)))). intros rc cu [E|Hrc].
    + unfold Sto.load_block. rewrite query_result; [|done|cbn; destruct (t_blocks _ !! _) as [[]|]; cbn; lia].
      rewrite single_row in E by (cbn; destruct (t_blocks _ !! _) as [[]|]; cbn; lia). cbn in E |- *.
      destruct (t_blocks (view (v_db t)) !! i64 (Z.of_nat h)) as [[hash ser]|]; injection E as -> ->.
      * eapply wpf_column_blob; [done..| | |]; cbn; eauto 6.
      * cbn. eauto 6.
    + rewrite (proj2 (Z.eqb_neq _ _) Hrc). cbn. eauto 6.
  - apply wpf_query_unbound; [by vm_compute..|]. intros rc cu Hrc. rewrite (proj2 (Z.eqb_neq _ _) Hrc). cbn. eauto 6.
Qed.

Lemma reads_block_count :
  reads Sq.block_count (λ d r, r = (Sto.block_count d).1 ∨ r = Throw RuntimeError).
Proof.
  apply reads_query; [|done|by eauto]. intros p c t Hprep. cbn [Sq.is_valid negb].
  apply (wpf_query COUNT_blocks). intros rc cu [E|Hrc].
  - unfold Sto.block_count. rewrite query_result; [|done|cbn; lia]. rewrite single_row in E by (cbn; lia). cbn in E |- *. injection E as -> ->.
    eapply wpf_column_int64; [done..|]. cbn. eauto.
  - rewrite (proj2 (Z.eqb_neq _ _) Hrc). cbn. eauto.
Qed.

Lemma reads_load_balance a :
  sz (c_str a) <= SQLITE_MAX_LENGTH →
  reads (λ c, Sq.load_balance c a) (λ d r, r = (Sto.load_balance a d).1 ∨ r = Ok None ∨ r = Throw RuntimeError).
Proof.
  intros Ha. apply reads_query; [|done|by eauto]. intros p c t Hprep. cbn [Sq.is_valid negb]. apply wpf_bind_text; [done|done|..].
  - apply (wpf_query (SELECT_balance (c_str a))). intros rc cu [E|Hrc].
    + unfold Sto.load_balance. rewrite query_result; [|done|cbn; destruct (t_balances _ !! _); cbn; lia].
      rewrite single_row in E by (cbn; destruct (t_balances _ !! _); cbn; lia). cbn in E |- *.
      destruct (t_balances (view (v_db t)) !! c_str a) as [n|]; injection E as -> ->; [eapply wpf_column_int64; [done..|]|]; cbn; eauto 6.
    + rewrite (proj2 (Z.eqb_neq _ _) Hrc). cbn. eauto 6.
  - apply wpf_query_unbound; [by vm_compute..|]. intros rc cu Hrc. rewrite (proj2 (Z.eqb_neq _ _) Hrc). cbn. eauto 6.
Qed.

Lemma wpf_step_pending {A} p st t rows (f : Z → sql_prog A) Q :
  pending st (v_db t) rows → st_sql st = query_text SELECT_balances →
  (∀ rc cu, (rc, cu) = next_row rows ∨ rc ≠ SQLITE_ROW → wpf (f rc) Q (set_stmt p (at_cursor cu st) t)) →
  wpf (Sq.step (Some p) ≫= f) Q (set_stmt p st t).
Proof.
  intros Hp Hq Hf. apply wpf_step. { intros E. unfold pending in Hp. by rewrite E in Hp. }
  intros rc cu d [Hs|(-> & Hrc & Hd & _)].
  - unfold pending, steps in *. destruct (st_cursor st); [| |done].
    + destruct Hp as (E1 & E2 & ->). rewrite E1, E2 in Hs. change ∅ with (query_args SELECT_balances) in Hs. rewrite understand_query in Hs.
      destruct Hs as [E ->]. by apply (Hf rc cu); left.
    + subst rows. destruct Hs as [E ->]. by apply (Hf rc cu); left.
  - rewrite Hd by (rewrite Hq; by vm_compute). by apply (Hf rc Finished); right.
Qed.

(** A step that fails ends the loop: the balances read so far are returned. *)
Lemma wpf_balances_loop turns p st t rows acc :
  (length rows < turns)%nat → pending st (v_db t) rows → st_sql st = query_text SELECT_balances →
  Forall (λ row, ∃ a n, row = [SqlText a; SqlInt n]) rows →
  wpf (Sq.balances_loop turns (Some p) acc)
    (λ r t', (∃ l, r = Ok (acc ++ l) ∧ l.*2 `prefix_of` (omap balance_row rows).*2) ∧ ∃ st', t' = set_stmt p st' t) (set_stmt p st t).
Proof.
  revert st rows acc. induction turns as [|turns IH]; intros st rows acc Hl Hp Hq Hr; [lia|].
  assert (∀ rc cu, rc ≠ SQLITE_ROW → wpf (if negb (rc =? SQLITE_ROW) then mret acc else
    address ← Sq.column_text (Some p) 0; amount ← Sq.column_int64 (Some p) 1;
    Sq.balances_loop turns (Some p) (acc ++ [(address, u64 amount)]))
    (λ r t', (∃ l, r = Ok (acc ++ l) ∧ l.*2 `prefix_of` (omap balance_row rows).*2) ∧ ∃ st', t' = set_stmt p st' t)
    (set_stmt p (at_cursor cu st) t)) as Hend.
  { intros rc cu Hrc. rewrite (proj2 (Z.eqb_neq _ _) Hrc). cbn. split; [|by eexists]. exists []. rewrite app_nil_r.
    split; [done|apply prefix_nil]. }
  eapply wpf_step_pending; [exact Hp|done|]. intros rc cu [E|Hrc]; [|by apply Hend].
  destruct rows as [|row rows]; injection E as -> ->; [by apply Hend|].
  apply Forall_cons in Hr as [(a & n & ->) Hr]. cbn [length] in Hl. cbn [negb Z.eqb SQLITE_ROW]. clear Hend.
  eapply wpf_column_text; [done..|]. intros s. eapply wpf_column_int64; [done..|].
  cbn [omap list_omap balance_row]. eapply wp_mono; [|apply (IH _ rows); [lia|done|done|done]].
  intros r t' [(l & -> & Hpre) Hst]. split; [|done]. exists ((s, u64 n) :: l). rewrite <- app_assoc. split; [done|].
  cbn. by apply prefix_cons.
Qed.

Lemma reads_load_all_balances turns c t :
  c ∈ v_conns t → (length (sql_rows SELECT_balances (v_db t)) < turns)%nat →
  wpf (Sq.load_all_balances turns (Some c))
    (λ r t', (r = Throw RuntimeError ∨ ∃ l l', r = Ok l ∧ (Sto.load_all_balances (v_db t)).1 = Ok l' ∧ l.*2 `prefix_of` l'.*2) ∧ t' = t) t.
Proof.
  intros Hc Hl. apply wpf_with_statement; [done| |by cbn; eauto]. intros p Hp Hprep. cbn [Sq.is_valid negb].
  eapply wp_mono; [|by apply wpf_balances_loop; [exact Hl| | |apply balance_rows]].
  intros r t' [(l & -> & Hpre) [st ->]]. destruct (read_only p st t Hp) as [Hs ->]. split; [done|]. rewrite set_db_same.
  split; [|done]. right. exists l. eexists. split; [done|]. split; [|exact Hpre].
  unfold Sto.load_all_balances, Sto.run_query, mbind, ST_bind, st_get. by rewrite Hprep.
Qed.

(** What the constructor of [Storage] leaves, whatever fails. *)
Definition acquired (t : Library) (r : result ptr) (t' : Library) : Prop :=
  match r with
  | Ok connection_ => ∃ c, connection_ = Some c ∧ (c ∉ v_conns t) ∧ v_conns t' = {[c]} ∪ v_conns t ∧
      v_stmts t' = v_stmts t ∧ idle c t'
  | Throw e => e = RuntimeError ∧ same_handles t t'
  end.

Lemma wpf_close_connection c t Q :
  c ∈ v_conns t → idle c t → Q (set_conns (v_conns t ∖ {[c]}) t) →
  wpf (Sq.connection_destroy (Some c)) (ends Q) t.
Proof. intros Hc Hi HQ. split; [by split|]. intros x t' [->|[]]. by split. Qed.

Lemma acquires path t : wpf (Sq.storage path) (acquired t) t.
Proof.
  apply wp_bind, wp_bind. split; [done|]. intros [res h] t1 [Hx|[]].
  destruct Hx as [(Hres & Hh & ->)|(c & Hh & Hc & Hi & ->)]; cbn [fst snd] in *; subst h;
    cbn [then_wp wp mret calls_ret].
  { rewrite (proj2 (Z.eqb_neq _ _) Hres). cbn. split_and!; [done|done]. }
  set (t1 := set_conns ({[c]} ∪ v_conns t) t). assert (c ∈ v_conns t1) as Hc1 by (cbn; set_solver).
  destruct (res =? SQLITE_OK); cbn [negb].
  - apply wp_on_throw, wp_bind. eapply wp_mono; [|by apply survives_schema]. intros [[]|e] t2 [He ->].
    + exists c. split_and!; done.
    + apply wpf_close_connection; [done|exact Hi|]. split; [exact He|]. split; [cbn; set_solver|done].
  - split; [by split|]. intros x t' [->|[]]. cbn. split; [done|]. split; [cbn; set_solver|done].
Qed.
End failing_reads.

(** ** A library that behaves as documented *)

Section reference.
Context `{Sqlite}.

Definition unused (X : gset nat) : nat := S (foldr Nat.max 0%nat (elements X)).

Lemma unused_fresh X n : n ∈ X → (n < unused X)%nat.
Proof.
  rewrite <- elem_of_elements. unfold unused. induction (elements X) as [|m l IH]; [by rewrite elem_of_nil|].
  cbn. rewrite elem_of_cons. intros [->|Hn%IH]; lia.
Qed.

Definition owners (m : gmap nat Stmt) : gset nat := map_to_set (λ _ st, st_db st) m.

Definition new_conn (t : Library) : nat := unused (v_conns t ∪ owners (v_stmts t)).
Definition new_stmt (t : Library) : nat := unused (dom (v_stmts t)).

(** A step: the code, the cursor and the database. *)
Definition do_step (t : Library) (st : Stmt) : Z * cursor * db :=
  match st_cursor st with
  | Fresh =>
      match understand (st_sql st) (st_args st) with
      | Some (inl s) =>
          let '(ok, d) := sql_exec s (v_db t) in ((if ok then SQLITE_DONE else 1), Finished, d)
      | Some (inr q) => (next_row (sql_rows q (v_db t)), v_db t)
      | None => (1, Finished, v_db t)
      end
  | OnRow _ rest => (next_row rest, v_db t)
  | Finished => (SQLITE_MISUSE, Finished, v_db t)
  end.

Definition do_bind (t : Library) (s : ptr) (i : Z) (v : sql_value) : Z * Library :=
  match s with
  | Some p => match v_stmts t !! p with
              | Some st => (SQLITE_OK, set_stmt p (with_arg i v st) t)
              | None => (SQLITE_MISUSE, t)
              end
  | None => (SQLITE_MISUSE, t)
  end.

Definition reference (c : sqlite_call) : Library → sqlite_answer c * Library :=
  match c return Library → sqlite_answer c * Library with
  | sqlite3_open _ => λ t, let h := new_conn t in ((SQLITE_OK, Some h), set_conns ({[h]} ∪ v_conns t) t)
  | sqlite3_close h => λ t, (SQLITE_OK, set_conns (v_conns t ∖ {[h]}) t)
  | sqlite3_prepare_v2 h sql => λ t,
      if sql_prepare sql (v_db t) then
        let p := new_stmt t in ((SQLITE_OK, Some p), set_stmt p (mkStmt (default 0%nat h) sql ∅ Fresh) t)
      else ((1, None), t)
  | sqlite3_finalize p => λ t, (SQLITE_OK, drop_stmt p t)
  | sqlite3_bind_int64 s i v => λ t, do_bind t s i (SqlInt v)
  | sqlite3_bind_blob s i data n => λ t, do_bind t s i (SqlBlob data)
  | sqlite3_bind_text s i text => λ t, do_bind t s i (SqlText text)
  | sqlite3_step s => λ t,
      match s with
      | None => (SQLITE_MISUSE, t)
      | Some p =>
          match v_stmts t !! p with
          | None => (SQLITE_MISUSE, t)
          | Some st => let '(rc, c, d) := do_step t st in (rc, set_db d (set_stmt p (at_cursor c st) t))
          end
      end
  | sqlite3_column_int64 s i => λ t, (match column t s i with Some (SqlInt z) => z | _ => 0 end, t)
  | sqlite3_column_bytes s i => λ t, (match column t s i with Some (SqlBlob b) => sz b | _ => 0 end, t)
  | sqlite3_column_blob s i => λ t,
      (match column t s i with
       | Some (SqlBlob b) => if bool_decide (b = []) then None else Some b
       | _ => None
       end, t)
  | sqlite3_column_text s i => λ t, (match column t s i with Some (SqlText s) => Some s | _ => None end, t)
  end.

Lemma do_step_steps t st :
  st_cursor st ≠ Finished → steps t st (do_step t st).1.1 (do_step t st).1.2 (do_step t st).2.
Proof.
  intros Hc. unfold do_step, steps. destruct (st_cursor st) as [|row rest|]; [| |done].
  - destruct (understand _ _) as [[s|q]|]; cbn.
    + by destruct (sql_exec s (v_db t)) as [[] d].
    + by destruct (next_row _).
    + done.
  - cbn. by destruct (next_row rest).
Qed.

Lemma do_bind_binds t s i v (P : Stmt → Prop) :
  live t s P → ∃ p st, s = Some p ∧ v_stmts t !! p = Some st ∧ (do_bind t s i v).2 = set_stmt p (with_arg i v st) t.
Proof. intros (p & st & -> & Hst & _). exists p, st. cbn. by rewrite Hst. Qed.

Lemma reference_documented c t : may t c → says t c (reference c t).1 (reference c t).2.
Proof.
  intros Hm. destruct c as [path|h|h sql|p|s i v|s i d n|s i x|s|s i|s i|s i|s i]; cbn [reference says fst snd].
  - right. exists (new_conn t). unfold new_conn. split_and!; [done| | |done].
    + intros Hc. pose proof (unused_fresh (v_conns t ∪ owners (v_stmts t)) _ (elem_of_union_l _ _ _ Hc)). lia.
    + intros p st Hst E. assert (st_db st ∈ v_conns t ∪ owners (v_stmts t)) as Hin.
      { apply elem_of_union_r. unfold owners. apply elem_of_map_to_set. by exists p, st. }
      apply unused_fresh in Hin. lia.
  - done.
  - destruct (sql_prepare sql (v_db t)); cbn [fst snd]; [|done]. exists (new_stmt t). split_and!; [done| |done].
    apply not_elem_of_dom. intros Hin%unused_fresh. unfold new_stmt in Hin. lia.
  - done.
  - by eapply do_bind_binds.
  - destruct Hm as [Hm _]. by eapply do_bind_binds.
  - destruct Hm as [Hm _]. by eapply do_bind_binds.
  - destruct Hm as [->|(p & st & -> & Hst & Hc)]; [done|]. cbn. rewrite Hst.
    pose proof (do_step_steps t st Hc) as Hs. destruct (do_step t st) as [[rc c] d]. by exists st, c, d.
  - split; [done|]. by destruct (column t s i) as [[]|].
  - split; [done|]. by destruct (column t s i) as [[]|].
  - split; [done|]. by destruct (column t s i) as [[]|].
  - split; [done|]. by destruct (column t s i) as [[]|].
Qed.

(** One with no memory left for arguments ([SQLITE_NOMEM] is 7). *)
Definition forgetful (c : sqlite_call) : Library → sqlite_answer c * Library :=
  match c return Library → sqlite_answer c * Library with
  | sqlite3_bind_int64 _ _ _ | sqlite3_bind_blob _ _ _ _ | sqlite3_bind_text _ _ _ => λ t, (7, t)
  | c => reference c
  end.

Lemma forgetful_documented c t :
  may t c → says t c (forgetful c t).1 (forgetful c t).2 ∨ fails t c (forgetful c t).1 (forgetful c t).2.
Proof. intros Hm. destruct c; try (left; by apply reference_documented); by right. Qed.
End reference.

(** ** The storage over the library *)

Section storage.
Context `{Crypto, SqliteLaws} {L : Type}.
Context (api : ∀ c, L → sqlite_answer c * L) (lib : L → Library).

(** [op] makes permitted calls only and, run against [api], leaves the handles it started with
    and a result and a database of [Q]. *)
Definition contained {A} (l : L) (op : sql_prog A) (Q : result A → db → Prop) : Prop :=
  wp fallible op (λ _ _, True) (lib l) ∧
  Q (perform api op l).1 (v_db (lib (perform api op l).2)) ∧ but_db (lib l) (lib (perform api op l).2).

(** Run against [api], [op] ends with the result and the database of [m] and with the handles
    it started with. *)
Definition runs {A} (l : L) (op : sql_prog A) (m : ST db A) : Prop :=
  (perform api op l).1 = (m (v_db (lib l))).1 ∧ lib (perform api op l).2 = set_db (m (v_db (lib l))).2 (lib l).

(** [api] answers as the manual says, failing now and then. *)
Hypothesis api_documented :
  ∀ c l, may (lib l) c → says (lib l) c (api c l).1 (lib (api c l).2) ∨ fails (lib l) c (api c l).1 (lib (api c l).2).

(** It only fails where [says] has it fail: to open, to compile, and to write. *)
Definition undisturbed : Prop := ∀ c l, may (lib l) c → says (lib l) c (api c l).1 (lib (api c l).2).

Lemma wpf_runs {A} (op : sql_prog A) Q l :
  wp fallible op Q (lib l) →
  wp fallible op (λ _ _, True) (lib l) ∧ Q (perform api op l).1 (lib (perform api op l).2).
Proof. intros Hw. split; [by eapply wp_mono|]. by apply (wp_perform fallible api lib op Q l). Qed.

Lemma survives_contained {A} (op : ptr → sql_prog A) l c :
  survives op → c ∈ v_conns (lib l) → contained l (op (Some c)) (λ r _, or_error r).
Proof. intros Hop Hc. destruct (wpf_runs _ _ _ (Hop c (lib l) Hc)) as (? & ? & ?). done. Qed.

Lemma reads_contained {A} (op : ptr → sql_prog A) P l c :
  reads op P → c ∈ v_conns (lib l) → contained l (op (Some c)) (λ r d, P (v_db (lib l)) r ∧ d = v_db (lib l)).
Proof.
  intros Hop Hc. destruct (wpf_runs _ _ _ (Hop c (lib l) Hc)) as (? & ? & E). split; [done|]. rewrite E.
  split_and!; [done..|]. unfold but_db. by rewrite set_db_same.
Qed.

Lemma refines_runs {A} (op : ptr → sql_prog A) m l c :
  undisturbed → refines op m → c ∈ v_conns (lib l) → runs l (op (Some c)) m.
Proof.
  intros Hu Hop Hc. exact (wp_perform documented api lib (op (Some c)) _ l Hu (Hop c (lib l) Hc)).
Qed.

(** Whatever fails. *)
Definition storage_contained (l : L) (c : nat) : Prop :=
  (∀ path, wp fallible (Sq.storage path) (λ _ _, True) (lib l) ∧
    acquired (lib l) (perform api (Sq.storage path) l).1 (lib (perform api (Sq.storage path) l).2)) ∧
  (∀ b h, storable b → contained l (Sq.save_block (Some c) b h) (λ r _, or_error r)) ∧
  (∀ h, contained l (Sq.delete_blocks_from (Some c) h) (λ r _, or_error r)) ∧
  (∀ h bs, Forall storable bs → contained l (Sq.replace_blocks_from (Some c) h bs) (λ r _, or_error r)) ∧
  (∀ a n, sz (c_str a) <= SQLITE_MAX_LENGTH → contained l (Sq.save_balance (Some c) a n) (λ r _, or_error r)) ∧
  (∀ h, contained l (Sq.load_block (Some c) h) (λ r d, d = v_db (lib l) ∧
    (r = (Sto.load_block h d).1 ∨ r = Ok None ∨ r = Throw RuntimeError ∨ r = Throw UndefinedBehaviour))) ∧
  contained l (Sq.block_count (Some c)) (λ r d, d = v_db (lib l) ∧ (r = (Sto.block_count d).1 ∨ r = Throw RuntimeError)) ∧
  (∀ a, sz (c_str a) <= SQLITE_MAX_LENGTH → contained l (Sq.load_balance (Some c) a) (λ r d, d = v_db (lib l) ∧
    (r = (Sto.load_balance a d).1 ∨ r = Ok None ∨ r = Throw RuntimeError))) ∧
  (∀ turns, (length (sql_rows SELECT_balances (v_db (lib l))) < turns)%nat →
    contained l (Sq.load_all_balances turns (Some c)) (λ r d, d = v_db (lib l) ∧
      (r = Throw RuntimeError ∨
       ∃ bs bs', r = Ok bs ∧ (Sto.load_all_balances d).1 = Ok bs' ∧ bs.*2 `prefix_of` bs'.*2))) ∧
  wp fallible (Sq.connection_destroy (Some c)) (λ _ _, True) (lib l) ∧
  lib (perform api (Sq.connection_destroy (Some c)) l).2 = set_conns (v_conns (lib l) ∖ {[c]}) (lib l).

(** When nothing disturbs it. *)
Definition storage_refines (l : L) (c : nat) : Prop :=
  (∀ path, opened (lib l) (perform api (Sq.storage path) l).1 (lib (perform api (Sq.storage path) l).2)) ∧
  (∀ b h, storable b → runs l (Sq.save_block (Some c) b h) (Sto.save_block b h)) ∧
  (∀ h, runs l (Sq.load_block (Some c) h) (Sto.load_block h)) ∧
  runs l (Sq.block_count (Some c)) Sto.block_count ∧
  (∀ h, runs l (Sq.delete_blocks_from (Some c) h) (Sto.delete_blocks_from h)) ∧
  (∀ h bs, Forall storable bs → runs l (Sq.replace_blocks_from (Some c) h bs) (Sto.replace_blocks_from h bs)) ∧
  (∀ a n, sz (c_str a) <= SQLITE_MAX_LENGTH → runs l (Sq.save_balance (Some c) a n) (Sto.save_balance a n)) ∧
  (∀ a, sz (c_str a) <= SQLITE_MAX_LENGTH → runs l (Sq.load_balance (Some c) a) (Sto.load_balance a)) ∧
  (∀ turns, (length (sql_rows SELECT_balances (v_db (lib l))) < turns)%nat →
    (perform api (Sq.load_all_balances turns (Some c)) l).1 = (Sto.load_all_balances (v_db (lib l))).1 ∧
    lib (perform api (Sq.load_all_balances turns (Some c)) l).2 = lib l).

Lemma contains l c : c ∈ v_conns (lib l) → idle c (lib l) → storage_contained l c.
Proof.
  intros Hc Hi.
  assert (∀ A (op : ptr → sql_prog A) P, reads op P → contained l (op (Some c)) (λ r d, d = v_db (lib l) ∧ P d r)) as Hread.
  { intros A op P Hr. destruct (reads_contained op P l c Hr Hc) as (? & (? & E) & ?). unfold contained. by rewrite E in *. }
  unfold storage_contained. split_and!.
  - intros path. exact (wpf_runs _ _ _ (acquires path (lib l))).
  - intros b h ?. apply (survives_contained (λ c, Sq.save_block c b h)); [by apply survives_save_block|done].
  - intros h. apply (survives_contained (λ c, Sq.delete_blocks_from c h)); [apply survives_delete|done].
  - intros h bs ?. apply (survives_contained (λ c, Sq.replace_blocks_from c h bs)); [by apply survives_replace|done].
  - intros a n ?. apply (survives_contained (λ c, Sq.save_balance c a n)); [by apply survives_save_balance|done].
  - intros h. exact (Hread _ _ _ (reads_load_block h)).
  - exact (Hread _ _ _ reads_block_count).
  - intros a Ha. exact (Hread _ _ _ (reads_load_balance a Ha)).
  - intros turns Ht. destruct (wpf_runs _ _ _ (reads_load_all_balances turns c (lib l) Hc Ht)) as (? & Hr & E).
    split; [done|]. rewrite E. split_and!; [done..|]. unfold but_db. by rewrite set_db_same.
  - eapply wp_mono; [|by apply (wpf_close_connection c (lib l) (λ _, True))]. done.
  - assert (wp fallible (Sq.connection_destroy (Some c))
      (ends (λ t, t = set_conns (v_conns (lib l) ∖ {[c]}) (lib l))) (lib l)) as Hw by by apply wpf_close_connection.
    apply (wpf_runs _ _ _ Hw).
Qed.

End storage.
End SqLib.

(** ** Witness *)

Section witnesses.
#[local] Existing Instance demo_crypto.
#[local] Existing Instance demo_sqlite.
#[local] Existing Instance demo_sqlite_laws.

Definition fresh_db : DemoDb := {| demo_view := mkTables ∅ ∅ false false; demo_txn := None |}.
Definition lib_0 : Library := mkLibrary demo_sqlite fresh_db ∅ ∅.
Definition lib_1 : Library := (perform SqLib.reference (Sq.storage (lit "chain.db")) lib_0).2.
Definition lib_2 : Library := (perform SqLib.reference (Sq.save_blocks (Some 1%nat) 0 demo_blocks) lib_1).2.


(** A block that is there reads as "no row" when the library could not bind its height: the
    storage looks neither at the results of the bind calls nor at why a query has no row. *)
Theorem failed_read_is_no_row :
  (∀ c t, SqLib.may t c → SqLib.says t c (SqLib.forgetful c t).1 (SqLib.forgetful c t).2 ∨
    SqLib.fails t c (SqLib.forgetful c t).1 (SqLib.forgetful c t).2) ∧
  (perform SqLib.forgetful (Sq.load_block (Some 1%nat) 1) lib_2).1 = Ok None ∧
  (Sto.load_block 1 (v_db lib_2)).1 = Ok (Blk.on_arrival <$> (demo_blocks !! 1%nat)).
Proof. split; [apply SqLib.forgetful_documented|]. split; by vm_compute. Qed.
End witnesses.
