(* ===== verification/OpenSsl.v ===== *)
(** * Handles of the cryptographic library (src/include/crypto/OpenSSLTypes.hpp, and
    Hash.cpp, Keys.cpp, Signature.cpp of src/crypto over them)

    Crypto.v gives hashing, signing, verification and key generation as functions of the
    primitives of OpenSSL. Here they are as the source writes them: objects made by one call
    and freed by the deleter of a [unique_ptr], every result tested or not as in the source.
    [documented] is the interface of OpenSSL over the class [Crypto], with a proposition
    [flaky] that says whether calls may fail for want of memory or entropy. *)

From S2P Require Import Prelude Crypto Demo Calls Sqlite.

(** An EC_KEY: its private scalar and its public point, as far as they are set. *)
Record ec_key `{Crypto} := mkEcKey { priv : option bignum; pub : option ec_point }.

(** What a message digest context was initialised for. *)
Inductive md_state `{Crypto} := Idle | Hashing (data : bytes) | Signing (k : ec_key) | Verifying (k : ec_key).

(** The objects behind the handles. *)
Inductive ssl_object `{Crypto} :=
| MdCtx (m : md_state)
| PkeyCtx (keygen curve : bool)
| Pkey (k : option ec_key)
| EcKey (k : ec_key)
| Bn (n : bignum)
| Point (p : option ec_point).

(** A group, private scalar or public point got with a [get0] function belongs to its key,
    and is named by it. [NULL] buffers are sizes to be computed. *)
Inductive ssl_call :=
| call_MD_CTX_new
| call_MD_CTX_free (ctx : nat)
| call_DigestInit (ctx : nat)
| call_DigestUpdate (ctx : nat) (data : bytes)
| call_DigestFinal (ctx : nat)
| call_PKEY_CTX_new_id
| call_PKEY_CTX_free (ctx : nat)
| call_keygen_init (ctx : nat)
| call_set_curve (ctx : nat)
| call_keygen (ctx : nat)
| call_PKEY_new
| call_PKEY_free (pkey : nat)
| call_get1_EC_KEY (pkey : nat)
| call_set1_EC_KEY (pkey key : nat)
| call_EC_KEY_new
| call_EC_KEY_free (key : nat)
| call_set_private_key (key bn : nat)
| call_set_public_key (key point : nat)
| call_check_key (key : nat)
| call_get0_group (key : nat)
| call_BN_bin2bn (data : bytes) (n : Z)
| call_BN_free (bn : nat)
| call_BN_num_bytes (priv_of : nat)
| call_BN_bn2bin (priv_of : nat) (room : nat)
| call_POINT_new (group_of : nat)
| call_POINT_free (point : nat)
| call_POINT_mul (group_of point bn : nat)
| call_oct2point (group_of point : nat) (data : bytes)
| call_point2oct (pub_of : nat) (room : option nat)
| call_DigestSignInit (ctx pkey : nat)
| call_DigestSign_size (ctx : nat) (message : bytes)
| call_DigestSign (ctx : nat) (room : nat) (message : bytes)
| call_DigestVerifyInit (ctx pkey : nat)
| call_DigestVerify (ctx : nat) (signature message : bytes).

(** A pointer, a result, or a result with what was written: a pointer, a length, octets. *)
Definition ssl_answer (c : ssl_call) : Type :=
  match c with
  | call_MD_CTX_new | call_PKEY_CTX_new_id | call_PKEY_new | call_get1_EC_KEY _ | call_EC_KEY_new
  | call_BN_bin2bn _ _ | call_POINT_new _ => ptr
  | call_keygen _ => Z * ptr
  | call_DigestSign_size _ _ => Z * nat
  | call_DigestFinal _ | call_DigestSign _ _ _ | call_point2oct _ _ => Z * bytes
  | call_BN_num_bytes _ => nat
  | call_BN_bn2bin _ _ => bytes
  | call_get0_group _ => bool
  | call_MD_CTX_free _ | call_PKEY_CTX_free _ | call_PKEY_free _ | call_EC_KEY_free _ | call_BN_free _
  | call_POINT_free _ => unit
  | _ => Z
  end.

Abbreviation ssl_prog := (calls ssl_call ssl_answer).

Module Ssl.

(** ** OpenSSLTypes.hpp *)

(** The deleters, by the type of the object. *)
Inductive deleter := EVPMDCTXDeleter | EVPPKeyCtxDeleter | EVPPKeyDeleter | ECKeyDeleter | BNDeleter | ECPointDeleter.

Definition free (d : deleter) (p : nat) : ssl_prog unit :=
  match d with
  | EVPMDCTXDeleter => invoke (call_MD_CTX_free p)
  | EVPPKeyCtxDeleter => invoke (call_PKEY_CTX_free p)
  | EVPPKeyDeleter => invoke (call_PKEY_free p)
  | ECKeyDeleter => invoke (call_EC_KEY_free p)
  | BNDeleter => invoke (call_BN_free p)
  | ECPointDeleter => invoke (call_POINT_free p)
  end.

(** [unique_ptr<T, d> h(p); if (!h) throw ...; body] to the end of the scope. A null pointer is
    not deleted. *)
Definition unique {A} (d : deleter) (p : ptr) (body : nat → ssl_prog A) : ssl_prog A :=
  match p with
  | None => throw RuntimeError
  | Some h => finally (body h) (free d h)
  end.

(** [if (f(...) != 1) throw ...] *)
Definition check (c : ssl_prog Z) : ssl_prog unit :=
  r ← c; if negb (r =? 1) then throw RuntimeError else mret tt.

(** ** Hash.cpp *)

Definition sha256 (data : bytes) : ssl_prog HashBytes :=
  ctx ← (invoke call_MD_CTX_new : ssl_prog ptr);
  unique EVPMDCTXDeleter ctx (λ ctx,
    check (invoke (call_DigestInit ctx));;
    check (invoke (call_DigestUpdate ctx data));;
    '(r, hash) ← (invoke (call_DigestFinal ctx) : ssl_prog (Z * bytes));
    if negb (r =? 1) then throw RuntimeError else mret hash).

(** ** Keys.cpp *)

(** A vector of [n] zeros into which a call wrote [data]. *)
Definition written (n : nat) (data : bytes) : bytes := data ++ drop (length data) (replicate n Byte.x00).

(** The part that reads the key: the results of [EC_POINT_point2oct] are not tested. *)
Definition key_bytes (key : nat) : ssl_prog KeyPair :=
  priv_len ← (invoke (call_BN_num_bytes key) : ssl_prog nat);
  private_key ← (invoke (call_BN_bn2bin key priv_len) : ssl_prog bytes);
  '(pub_len, _) ← (invoke (call_point2oct key None) : ssl_prog (Z * bytes));
  '(_, public_key) ← (invoke (call_point2oct key (Some (Z.to_nat pub_len))) : ssl_prog (Z * bytes));
  mret {| public_key := written (Z.to_nat pub_len) public_key; private_key := private_key |}.

Definition generate_keypair : ssl_prog KeyPair :=
  ctx ← (invoke call_PKEY_CTX_new_id : ssl_prog ptr);
  unique EVPPKeyCtxDeleter ctx (λ ctx,
    check (invoke (call_keygen_init ctx));;
    check (invoke (call_set_curve ctx));;
    '(r, raw_pkey) ← (invoke (call_keygen ctx) : ssl_prog (Z * ptr));
    if negb (r =? 1) then throw RuntimeError else
    unique EVPPKeyDeleter raw_pkey (λ pkey,
      ec_key ← (invoke (call_get1_EC_KEY pkey) : ssl_prog ptr);
      unique ECKeyDeleter ec_key key_bytes)).

(** ** Signature.cpp *)

(** From a key object to an initialised context, which both functions end with. *)
Definition with_context {A} (key : nat) (start : nat → nat → ssl_prog Z) (body : nat → ssl_prog A) : ssl_prog A :=
  pkey ← (invoke call_PKEY_new : ssl_prog ptr);
  unique EVPPKeyDeleter pkey (λ pkey,
    check (invoke (call_set1_EC_KEY pkey key));;
    ctx ← (invoke call_MD_CTX_new : ssl_prog ptr);
    unique EVPMDCTXDeleter ctx (λ ctx, check (start ctx pkey);; body ctx)).

Definition sign (message private_key : bytes) : ssl_prog bytes :=
  ec_key ← (invoke call_EC_KEY_new : ssl_prog ptr);
  unique ECKeyDeleter ec_key (λ ec_key,
    bn ← (invoke (call_BN_bin2bn private_key (Sq.as_int (sz private_key))) : ssl_prog ptr);
    unique BNDeleter bn (λ bn,
      check (invoke (call_set_private_key ec_key bn));;
      group ← (invoke (call_get0_group ec_key) : ssl_prog bool);
      if negb group then throw RuntimeError else
      pub_point ← (invoke (call_POINT_new ec_key) : ssl_prog ptr);
      unique ECPointDeleter pub_point (λ pub_point,
        check (invoke (call_POINT_mul ec_key pub_point bn));;
        check (invoke (call_set_public_key ec_key pub_point));;
        check (invoke (call_check_key ec_key));;
        with_context ec_key (λ ctx pkey, invoke (call_DigestSignInit ctx pkey)) (λ ctx,
          '(r, signature_length) ← (invoke (call_DigestSign_size ctx message) : ssl_prog (Z * nat));
          if negb (r =? 1) then throw RuntimeError else
          '(r, signature) ← (invoke (call_DigestSign ctx signature_length message) : ssl_prog (Z * bytes));
          if negb (r =? 1) then throw RuntimeError else mret signature)))).

Definition verify (message signature public_key : bytes) : ssl_prog bool :=
  ec_key ← (invoke call_EC_KEY_new : ssl_prog ptr);
  unique ECKeyDeleter ec_key (λ ec_key,
    group ← (invoke (call_get0_group ec_key) : ssl_prog bool);
    if negb group then throw RuntimeError else
    pub_point ← (invoke (call_POINT_new ec_key) : ssl_prog ptr);
    unique ECPointDeleter pub_point (λ pub_point,
      check (invoke (call_oct2point ec_key pub_point public_key));;
      check (invoke (call_set_public_key ec_key pub_point));;
      with_context ec_key (λ ctx pkey, invoke (call_DigestVerifyInit ctx pkey)) (λ ctx,
        r ← (invoke (call_DigestVerify ctx signature message) : ssl_prog Z);
        mret (r =? 1)))).
End Ssl.

(** ** The library, as documented *)

(** The live objects, and the entropy the next key is drawn from. *)
Record SslState `{Crypto} := mkSslState { heap : gmap nat ssl_object; entropy : Z }.

Module SslLib.
Section library.
Context `{Crypto} (flaky : Prop).

Definition put (p : nat) (o : ssl_object) (t : SslState) : SslState := mkSslState _ (<[p := o]> (heap t)) (entropy t).
Definition remove (p : nat) (t : SslState) : SslState := mkSslState _ (delete p (heap t)) (entropy t).

Definition at_key (t : SslState) (key : nat) (P : ec_key → Prop) : Prop := ∃ k, heap t !! key = Some (EcKey k) ∧ P k.
Definition at_ctx (t : SslState) (ctx : nat) (P : md_state → Prop) : Prop := ∃ m, heap t !! ctx = Some (MdCtx m) ∧ P m.
Definition at_pkey (t : SslState) (p : nat) (P : option ec_key → Prop) : Prop := ∃ k, heap t !! p = Some (Pkey k) ∧ P k.
Definition any {A} (_ : A) : Prop := True.

Definition is_point (t : SslState) (p : nat) : Prop := ∃ x, heap t !! p = Some (Point x).
Definition is_bn (t : SslState) (p : nat) : Prop := ∃ n, heap t !! p = Some (Bn n).

(** Every handle is live and of the type of the parameter; contexts are initialised for what
    they are used for; keys have the parts that are read; buffers have room. *)
Definition may (t : SslState) (c : ssl_call) : Prop :=
  match c with
  | call_MD_CTX_new | call_PKEY_CTX_new_id | call_PKEY_new | call_EC_KEY_new => True
  | call_MD_CTX_free ctx => at_ctx t ctx any
  | call_DigestInit ctx => at_ctx t ctx (λ m, m = Idle)
  | call_DigestUpdate ctx _ | call_DigestFinal ctx => at_ctx t ctx (λ m, ∃ d, m = Hashing d)
  | call_PKEY_CTX_free ctx | call_keygen_init ctx => ∃ a b, heap t !! ctx = Some (PkeyCtx a b)
  | call_set_curve ctx => ∃ b, heap t !! ctx = Some (PkeyCtx true b)
  | call_keygen ctx => heap t !! ctx = Some (PkeyCtx true true)
  | call_PKEY_free p => at_pkey t p any
  | call_get1_EC_KEY p => at_pkey t p is_Some
  | call_set1_EC_KEY p key => at_pkey t p any ∧ at_key t key any
  | call_EC_KEY_free key | call_get0_group key | call_POINT_new key | call_check_key key => at_key t key any
  | call_set_private_key key bn => at_key t key any ∧ is_bn t bn
  | call_set_public_key key p => at_key t key any ∧ ∃ x, heap t !! p = Some (Point (Some x))
  | call_BN_bin2bn data n => n = sz data
  | call_BN_free bn => is_bn t bn
  | call_BN_num_bytes key => at_key t key (λ k, is_Some (priv k))
  | call_BN_bn2bin key room => at_key t key (λ k, ∃ n, priv k = Some n ∧ (length (BN_bn2bin n) <= room)%nat)
  | call_POINT_free p => is_point t p
  | call_POINT_mul key p bn => at_key t key any ∧ is_point t p ∧ is_bn t bn
  | call_oct2point key p _ => at_key t key any ∧ is_point t p
  | call_point2oct key _ => at_key t key (λ k, is_Some (pub k))
  | call_DigestSignInit ctx p => at_ctx t ctx (λ m, m = Idle) ∧ at_pkey t p is_Some
  | call_DigestSign_size ctx _ => at_ctx t ctx (λ m, ∃ k, m = Signing k ∧ is_Some (priv k))
  | call_DigestSign ctx room message =>
      at_ctx t ctx (λ m, ∃ k n, m = Signing k ∧ priv k = Some n ∧ (length (EVP_DigestSign n message) <= room)%nat)
  | call_DigestVerifyInit ctx p => at_ctx t ctx (λ m, m = Idle) ∧ at_pkey t p is_Some
  | call_DigestVerify ctx _ _ => at_ctx t ctx (λ m, ∃ k, m = Verifying k ∧ is_Some (pub k))
  end.

(** A new object, or null when the library is out of memory. *)
Definition makes (t : SslState) (o : ssl_object) (x : ptr) (t' : SslState) : Prop :=
  (flaky ∧ x = None ∧ t' = t) ∨ (∃ p, heap t !! p = None ∧ x = Some p ∧ t' = put p o t).

(** 1 and the new state, or another number and the old one. *)
Definition tries (ok : Prop) (t t1 : SslState) (r : Z) (t' : SslState) : Prop :=
  ((flaky ∨ ¬ ok) ∧ r ≠ 1 ∧ t' = t) ∨ (ok ∧ r = 1 ∧ t' = t1).

Definition key_at (t : SslState) (key : nat) : ec_key :=
  match heap t !! key with Some (EcKey k) => k | Some (Pkey (Some k)) => k | _ => mkEcKey _ None None end.
Definition bn_at (t : SslState) (p : nat) : option bignum := match heap t !! p with Some (Bn n) => Some n | _ => None end.
Definition point_at (t : SslState) (p : nat) : option ec_point :=
  match heap t !! p with Some (Point x) => x | _ => None end.
Definition md_at (t : SslState) (ctx : nat) : md_state := match heap t !! ctx with Some (MdCtx m) => m | _ => Idle end.

(** Predicates of the primitives on parts that may be missing. *)
Definition both {A B} (f : A → B → bool) (a : option A) (b : option B) : Prop :=
  ∃ x y, a = Some x ∧ b = Some y ∧ f x y = true.

Definition says (t : SslState) (c : ssl_call) : ssl_answer c → SslState → Prop :=
  match c return ssl_answer c → SslState → Prop with
  | call_MD_CTX_new => makes t (MdCtx Idle)
  | call_PKEY_CTX_new_id => makes t (PkeyCtx false false)
  | call_PKEY_new => makes t (Pkey None)
  | call_EC_KEY_new => makes t (EcKey (mkEcKey _ None None))
  | call_get1_EC_KEY p => makes t (EcKey (key_at t p))
  | call_BN_bin2bn data _ => makes t (Bn (BN_bin2bn data))
  | call_POINT_new _ => makes t (Point None)
  | call_MD_CTX_free p | call_PKEY_CTX_free p | call_PKEY_free p | call_EC_KEY_free p | call_BN_free p
  | call_POINT_free p => λ _ t', t' = remove p t
  | call_DigestInit ctx => tries True t (put ctx (MdCtx (Hashing [])) t)
  | call_DigestUpdate ctx data =>
      tries True t (put ctx (MdCtx (Hashing (match md_at t ctx with Hashing d => d ++ data | _ => data end))) t)
  | call_DigestFinal ctx => λ x t',
      (flaky ∧ x.1 ≠ 1 ∧ t' = t) ∨
      (∃ d, md_at t ctx = Hashing d ∧ x = (1, Crypto.sha256 d) ∧ t' = put ctx (MdCtx Idle) t)
  | call_keygen_init ctx => tries True t (put ctx (PkeyCtx true false) t)
  | call_set_curve ctx => tries True t (put ctx (PkeyCtx true true) t)
  | call_keygen ctx => λ x t',
      (flaky ∧ x.1 ≠ 1 ∧ x.2 = None ∧ t' = t) ∨
      (∃ p, heap t !! p = None ∧ x = (1, Some p) ∧
        t' = put p (Pkey (Some (let '(n, q) := EVP_PKEY_keygen (entropy t) in mkEcKey _ (Some n) (Some q)))) t)
  | call_set1_EC_KEY p key => tries True t (put p (Pkey (Some (key_at t key))) t)
  | call_set_private_key key bn =>
      tries (∃ n, bn_at t bn = Some n ∧ EC_KEY_set_private_key n = true) t
        (put key (EcKey (mkEcKey _ (bn_at t bn) (pub (key_at t key)))) t)
  | call_set_public_key key p => tries True t (put key (EcKey (mkEcKey _ (priv (key_at t key)) (point_at t p))) t)
  | call_check_key key => tries (both EC_KEY_check_key (priv (key_at t key)) (pub (key_at t key))) t t
  | call_get0_group _ => λ x t', t' = t ∧ (x = true ∨ flaky)
  | call_BN_num_bytes key => λ x t', t' = t ∧ ∃ n, priv (key_at t key) = Some n ∧ x = length (BN_bn2bin n)
  | call_BN_bn2bin key _ => λ x t', t' = t ∧ ∃ n, priv (key_at t key) = Some n ∧ x = BN_bn2bin n
  | call_POINT_mul _ p bn => tries True t (put p (Point (EC_POINT_mul <$> bn_at t bn)) t)
  | call_oct2point _ p data => tries (is_Some (EC_POINT_oct2point data)) t (put p (Point (EC_POINT_oct2point data)) t)
  | call_point2oct key room => λ x t', t' = t ∧
      ((flaky ∧ x = (0, [])) ∨
       ∃ q, pub (key_at t key) = Some q ∧ x.1 = sz (EC_POINT_point2oct q) ∧
         (∀ n, room = Some n → (length (EC_POINT_point2oct q) <= n)%nat → x.2 = EC_POINT_point2oct q))
  | call_DigestSignInit ctx p => tries True t (put ctx (MdCtx (Signing (key_at t p))) t)
  | call_DigestSign_size ctx message => λ x t', t' = t ∧
      ((flaky ∧ x.1 ≠ 1) ∨
       (x.1 = 1 ∧ ∀ k n, md_at t ctx = Signing k → priv k = Some n → (length (EVP_DigestSign n message) <= x.2)%nat))
  | call_DigestSign ctx _ message => λ x t', t' = t ∧
      ((flaky ∧ x.1 ≠ 1) ∨
       (x.1 = 1 ∧ ∀ k n, md_at t ctx = Signing k → priv k = Some n → x.2 = EVP_DigestSign n message))
  | call_DigestVerifyInit ctx p => tries True t (put ctx (MdCtx (Verifying (key_at t p))) t)
  | call_DigestVerify ctx signature message => λ x t', t' = t ∧
      ((flaky ∧ x ≠ 1) ∨
       ∀ k q, md_at t ctx = Verifying k → pub k = Some q → (x = 1 ↔ EVP_DigestVerify q message signature = true))
  end.

Definition documented : spec ssl_call ssl_answer SslState := mkSpec may says.

(** ** Rules *)

Definition freeable (d : Ssl.deleter) (p : nat) (t : SslState) : Prop :=
  match d with
  | Ssl.EVPMDCTXDeleter => at_ctx t p any
  | Ssl.EVPPKeyCtxDeleter => ∃ a b, heap t !! p = Some (PkeyCtx a b)
  | Ssl.EVPPKeyDeleter => at_pkey t p any
  | Ssl.ECKeyDeleter => at_key t p any
  | Ssl.BNDeleter => is_bn t p
  | Ssl.ECPointDeleter => is_point t p
  end.

(** The scope of a new object: it is freed at the end, whichever way the scope is left. *)
Lemma wp_scope {A} d p (body : nat → ssl_prog A) Q t :
  wp documented (body p) (λ r t', freeable d p t' ∧ Q r (remove p t')) t →
  wp documented (Ssl.unique d (Some p) body) Q t.
Proof.
  intros Hb. apply wp_finally. eapply wp_mono; [|exact Hb]. intros r t' [Hf HQ].
  destruct d; (split; [exact Hf|]; intros [] t'' ->; by split).
Qed.

Lemma wp_unique {A} d (x : ptr) o (body : nat → ssl_prog A) Q t t' :
  makes t o x t' →
  (flaky → Q (Throw RuntimeError) t) →
  (∀ p, heap t !! p = None →
    wp documented (body p) (λ r t'', freeable d p t'' ∧ Q r (remove p t'')) (put p o t)) →
  wp documented (Ssl.unique d x body) Q t'.
Proof.
  intros [(Hf & -> & ->)|(p & Hp & -> & ->)] Hno Hyes; [by apply Hno|]. by apply wp_scope, Hyes.
Qed.

(** A result that is tested. *)
Lemma wp_tested {A} (x : Z) ok t t1 t' (rest : ssl_prog A) Q :
  tries ok t t1 x t' → (flaky ∨ ¬ ok → Q (Throw RuntimeError) t) → (ok → wp documented rest Q t1) →
  wp documented (if negb (x =? 1) then throw RuntimeError else rest) Q t'.
Proof.
  intros [(Hf & Hr & ->)|(Hok & -> & ->)] Hno Hyes; [|by apply Hyes].
  rewrite (proj2 (Z.eqb_neq _ _) Hr). by apply Hno.
Qed.

(** Nothing was allocated or freed for good. *)
Lemma remove_put p o t : heap t !! p = None → remove p (put p o t) = t.
Proof. intros Hp. unfold remove, put. destruct t. cbn in *. by rewrite delete_insert_id. Qed.

Lemma put_put p o o' t : put p o' (put p o t) = put p o' t.
Proof. unfold put. cbn. by rewrite insert_insert_eq. Qed.

Lemma put_comm p q o o' t : p ≠ q → put p o (put q o' t) = put q o' (put p o t).
Proof. intros Hn. unfold put. cbn. by rewrite insert_insert_ne. Qed.

Lemma heap_put p o t : heap (put p o t) !! p = Some o.
Proof. apply lookup_insert_eq. Qed.

Lemma heap_put_ne p q o t : q ≠ p → heap (put q o t) !! p = heap t !! p.
Proof. apply lookup_insert_ne. Qed.

Lemma fresh_put p q o t : heap (put q o t) !! p = None → q ≠ p ∧ p ≠ q ∧ heap t !! p = None.
Proof. unfold put. cbn. rewrite lookup_insert_None. intros [? ?]. done. Qed.

Lemma key_put p k t : key_at (put p (EcKey k) t) p = k.
Proof. unfold key_at. by rewrite heap_put. Qed.
End library.

(** Lookups in a state made of [put]s on distinct handles. *)
Ltac look :=
  repeat match goal with
  | |- context [heap (put ?p ?o ?t) !! ?p] => rewrite (heap_put p o t)
  | |- context [heap (put ?q ?o ?t) !! ?p] => rewrite (heap_put_ne p q o t) by done
  end.

(** The distinctness a fresh handle brings. *)
Ltac fresh_handle H :=
  repeat (let H1 := fresh "Hne" in let H2 := fresh "Hne" in apply fresh_put in H as (H1 & H2 & H)).

(** Permission for a call on handles that are there. *)
Ltac permitted :=
  cbn [allowed documented may];
  repeat match goal with
  | |- _ ∧ _ => split
  | |- at_key _ _ _ => eexists
  | |- at_ctx _ _ _ => eexists
  | |- at_pkey _ _ _ => eexists
  | |- is_bn _ _ => eexists
  | |- is_point _ _ => eexists
  | |- any _ => exact I
  | |- _ !! _ = _ => look; reflexivity
  | |- ∃ _, _ => eexists
  | |- is_Some _ => eexists
  | |- _ => reflexivity
  end.

(** Leave the scopes one after the other. *)
Ltac unwind :=
  repeat (split; [cbn [freeable]; solve [permitted]|]; rewrite remove_put by (look; done)).

Lemma as_int_id z : 0 <= z < 2 ^ 31 → Sq.as_int z = z.
Proof.
  intros Hz. unfold Sq.as_int. change (2 ^ 31) with 2147483648 in *. rewrite wrap_small by solve_width. case_bool; lia.
Qed.

Section functions.
Context `{Crypto} (flaky : Prop).

#[local] Abbreviation wpd := (wp (documented flaky)).

(** The next call, and the test of its result; a failure leaves all scopes. *)
Ltac next := apply wp_bind; split; [solve [permitted]|].
Ltac tested :=
  let x := fresh "x" in let t1 := fresh "t" in let Hx := fresh "Hx" in
  next; intros x t1 Hx; eapply wp_tested; [exact Hx|intros [?|[]]; [unwind; auto|done]|intros _; clear x t1 Hx].

(** What a function may do when the library fails it. *)
Definition outcome {A} (r0 : result A) (t : SslState) (r : result A) (t' : SslState) : Prop :=
  t' = t ∧ (r = r0 ∨ flaky ∧ r = Throw RuntimeError).

Ltac created Hx := eapply wp_unique; [exact Hx|unfold outcome; intros ?; unwind; auto|].
Ltac at_put := unfold key_at, bn_at, point_at, md_at; look; cbn [then_wp wp mret calls_ret priv pub fmap option_fmap option_map].

Lemma sha256_wp data t : wpd (Ssl.sha256 data) (outcome (Ok (Crypto.sha256 data)) t) t.
Proof.
  unfold outcome. apply wp_invoke; [done|]. intros x t' Hx. created Hx. clear x t' Hx. intros p Hp.
  tested. rewrite put_put. cbn [then_wp wp mret calls_ret].
  tested. rewrite put_put. at_put. cbn [app].
  split; [permitted|]. intros [r hash] t1 [(Hf & Hr & ->)|(d & Ed & [= -> ->] & ->)].
  - cbn -[Z.eqb freeable remove put] in Hr |- *. rewrite (proj2 (Z.eqb_neq _ _) Hr). unwind. auto.
  - rewrite put_put. unfold md_at in Ed. rewrite heap_put in Ed. injection Ed as <-. unwind. auto.
Qed.

(** A key in a context, for signing or verifying. *)
Lemma with_context_wp {A} key k (init : md_state) call (body : nat → ssl_prog A) Q t :
  heap t !! key = Some (EcKey k) →
  (∀ ctx pkey t, at_ctx t ctx (λ m, m = Idle) → at_pkey t pkey (λ k', k' = Some k) →
    wpd (call ctx pkey) (λ r t', ∃ z, r = Ok z ∧ tries flaky True t (put ctx (MdCtx init) t) z t') t) →
  (flaky → Q (Throw RuntimeError) t) →
  (∀ ctx pkey, heap t !! pkey = None → heap t !! ctx = None → pkey ≠ ctx → ctx ≠ pkey →
    wpd (body ctx) (λ r t', t' = put ctx (MdCtx init) (put pkey (Pkey (Some k)) t) ∧ Q r t)
      (put ctx (MdCtx init) (put pkey (Pkey (Some k)) t))) →
  wpd (Ssl.with_context key call body) Q t.
Proof.
  intros Hk Hcall Hno Hbody. apply wp_invoke; [done|]. intros x t' Hx.
  eapply wp_unique; [exact Hx|intros ?; unwind; auto|]. clear x t' Hx. intros pkey Hp.
  assert (pkey ≠ key) as Hpk by (intros ->; congruence).
  apply wp_bind. split; [split; [permitted|]; exists k; by look|]. intros x t1 Hx.
  eapply wp_tested; [exact Hx|intros [?|[]]; [unwind; auto|done]|]. intros _. clear x t1 Hx. rewrite put_put. at_put.
  rewrite Hk. split; [done|]. intros x t1 Hx.
  eapply wp_unique; [exact Hx|intros ?; unwind; auto|]. clear x t1 Hx. intros ctx Hc. fresh_handle Hc.
  apply wp_bind, wp_bind. eapply wp_mono; [|apply Hcall; [by permitted|exists (Some k); by look]].
  intros r t1 (z & -> & Hz). cbn [then_wp].
  eapply wp_tested; [exact Hz|intros [?|[]]; [unwind; auto|done]|]. intros _. rewrite put_put. at_put.
  eapply wp_mono; [|by apply Hbody]. intros r t2 [-> HQ]. unwind. done.
Qed.

(** The test of a result whose success depends on the arguments. *)
Ltac decided Hok :=
  let x := fresh "x" in let t1 := fresh "t" in let Hx := fresh "Hx" in
  next; intros x t1 Hx; eapply wp_tested; [exact Hx|intros Hok; unwind|intros Hok; clear x t1 Hx].

Lemma put_under p q o o1 o2 t : p ≠ q → put p o (put q o2 (put p o1 t)) = put q o2 (put p o t).
Proof. intros Hn. by rewrite put_comm, put_put. Qed.

Lemma put_under2 p q r o o1 o2 o3 t :
  p ≠ q → p ≠ r → put p o (put r o3 (put q o2 (put p o1 t))) = put r o3 (put q o2 (put p o t)).
Proof. intros Hq Hr. by rewrite put_comm, put_under. Qed.

Lemma sign_wp message private_key t :
  sz private_key < 2 ^ 31 → wpd (Ssl.sign message private_key) (outcome (Crypto.sign message private_key) t) t.
Proof.
  intros Hsz. unfold outcome. apply wp_invoke; [done|]. intros x t' Hx. created Hx. clear x t' Hx. intros key Hkey.
  split. { unfold allowed. cbn. apply as_int_id. split; [apply sz_nonneg|done]. }
  intros x t' Hx. created Hx. clear x t' Hx. intros bn Hbn. fresh_handle Hbn.
  decided Hok.
  { unfold Crypto.sign. destruct Hok as [?|Hok]; [auto|]. destruct (EC_KEY_set_private_key _) eqn:E; [|auto].
    destruct Hok. unfold bn_at. look. eauto. }
  assert (EC_KEY_set_private_key (BN_bin2bn private_key) = true) as Hset.
  { destruct Hok as (n & En & Hn). unfold bn_at in En. rewrite heap_put in En. by injection En as ->. }
  clear Hok. rewrite put_under by done. at_put.
  split; [permitted|]. intros group t1 [-> Hg]. destruct group; cbn [negb]; [|destruct Hg; [done|]; unwind; auto].
  clear Hg. split; [permitted|]. intros x t' Hx. created Hx. clear x t' Hx. intros point Hpt. fresh_handle Hpt.
  tested. rewrite put_put. at_put.
  tested. rewrite put_under2 by done. at_put.
  set (k := mkEcKey _ (Some (BN_bin2bn private_key)) (Some (EC_POINT_mul (BN_bin2bn private_key)))).
  decided Hok.
  { unfold Crypto.sign. rewrite Hset. cbn [negb]. destruct Hok as [?|Hok]; [auto|].
    destruct (EC_KEY_check_key _ _) eqn:E; [|auto]. destruct Hok. unfold key_at. look. cbn. by eexists _, _. }
  assert (EC_KEY_check_key (BN_bin2bn private_key) (EC_POINT_mul (BN_bin2bn private_key)) = true) as Hchk.
  { destruct Hok as (n & q & En & Eq & Hn). unfold key_at in En, Eq. revert En Eq. look. cbn. by intros [= ->] [= ->]. }
  clear Hok. cbn [then_wp wp mret calls_ret].
  eapply (with_context_wp key k (Signing k)); [by look| |intros ?; unwind; auto|].
  { intros ctx pkey t1 [m [Hm ->]] [o [Ho ->]]. split; [split; [by eexists|eexists; split; [exact Ho|by eexists]]|].
    intros x t' Hx. exists x. split; [done|]. revert Hx. cbn. unfold key_at. by rewrite Ho. }
  intros ctx pkey Hpkey Hctx Hn1 Hn2. fresh_handle Hpkey. fresh_handle Hctx.
  split; [permitted|]. intros [r n] t' [-> [[Hf Hr]|[Hr Hlen]]]; cbn -[Z.eqb freeable remove put] in *.
  { rewrite (proj2 (Z.eqb_neq _ _) Hr). split; [done|]. unwind. auto. }
  subst r. specialize (Hlen k (BN_bin2bn private_key)). revert Hlen. unfold md_at. look. intros Hlen.
  split; [permitted; by apply Hlen|]. intros [r sig] t' [-> [[Hf Hr]|[Hr Hsig]]]; cbn -[Z.eqb freeable remove put] in *.
  { rewrite (proj2 (Z.eqb_neq _ _) Hr). split; [done|]. unwind. auto. }
  subst r. specialize (Hsig k (BN_bin2bn private_key)). revert Hsig. unfold md_at. look. intros Hsig.
  split; [done|]. unwind. split; [done|left]. unfold Crypto.sign. rewrite Hset, Hchk. cbn. by rewrite Hsig.
Qed.

(** A failure of the last call is taken for an invalid signature. *)
Lemma verify_wp message signature public_key t :
  wpd (Ssl.verify message signature public_key)
    (λ r t', t' = t ∧ (r = Crypto.verify message signature public_key ∨
                       flaky ∧ (r = Throw RuntimeError ∨ r = Ok false))) t.
Proof.
  apply wp_invoke; [done|]. intros x t' Hx. created Hx. clear x t' Hx. intros key Hkey.
  split; [permitted|]. intros group t1 [-> Hg]. destruct group; cbn [negb]; [|destruct Hg; [done|]; unwind; auto].
  clear Hg. split; [permitted|]. intros x t' Hx. created Hx. clear x t' Hx. intros point Hpt. fresh_handle Hpt.
  decided Hok.
  { unfold Crypto.verify. destruct Hok as [?|Hok]; [auto|]. destruct (EC_POINT_oct2point public_key); [|auto].
    destruct Hok. by eexists. }
  destruct Hok as [q Hq]. rewrite put_put, Hq. cbn [then_wp wp mret calls_ret].
  tested. rewrite put_under by done. at_put. set (k := mkEcKey _ None (Some q)).
  eapply (with_context_wp key k (Verifying k)); [by look| |intros ?; unwind; auto|].
  { intros ctx pkey t1 [m [Hm ->]] [o [Ho ->]]. split; [split; [by eexists|eexists; split; [exact Ho|by eexists]]|].
    intros x t' Hx. exists x. split; [done|]. revert Hx. cbn. unfold key_at. by rewrite Ho. }
  intros ctx pkey Hpkey Hctx Hn1 Hn2. fresh_handle Hpkey. fresh_handle Hctx.
  split; [permitted|]. intros r t' [-> Hr]. cbn -[Z.eqb freeable remove put]. split; [done|]. unwind. split; [done|].
  destruct Hr as [[Hf Hr]|Hr]; [right; by rewrite (proj2 (Z.eqb_neq _ _) Hr); auto|]. left.
  unfold Crypto.verify. rewrite Hq. f_equal. specialize (Hr k q). revert Hr. unfold md_at. look. intros Hr.
  apply Bool.eq_true_iff_eq. rewrite Z.eqb_eq. by apply Hr.
Qed.

(** The encodings that are read from a key with both parts. *)
Lemma key_bytes_wp key n q t :
  heap t !! key = Some (EcKey (mkEcKey _ (Some n) (Some q))) →
  wpd (Ssl.key_bytes key)
    (λ r t', t' = t ∧ ∃ pk, r = Ok {| public_key := pk; private_key := BN_bn2bin n |} ∧
      (pk = EC_POINT_point2oct q ∨ flaky)) t.
Proof.
  intros Hk.
  assert (key_at t key = mkEcKey _ (Some n) (Some q)) as Ek by (unfold key_at; by rewrite Hk).
  split; [eexists; split; [exact Hk|by eexists]|]. intros len t1 [-> (m & Em & ->)]. rewrite Ek in Em. injection Em as <-.
  split; [eexists; split; [exact Hk|by exists n]|]. intros data t1 [-> (m & Em & ->)]. rewrite Ek in Em. injection Em as <-.
  split; [eexists; split; [exact Hk|by eexists]|]. intros [len junk] t1 [-> Hlen].
  split; [eexists; split; [exact Hk|by eexists]|]. intros [len2 data] t1 [-> Hdata]. cbn.
  split; [done|]. eexists. split; [done|].
  destruct Hlen as [[Hf _]|(q1 & E1 & Hlen & _)]; [by right|].
  destruct Hdata as [[Hf _]|(q2 & E2 & _ & Hdata)]; [by right|]. left.
  rewrite Ek in E1, E2. injection E1 as <-. injection E2 as <-. cbn in Hlen, Hdata. subst len.
  unfold sz in *. rewrite Nat2Z.id in *. rewrite (Hdata _ eq_refl) by lia. unfold Ssl.written.
  rewrite drop_ge by (rewrite length_replicate; lia). apply app_nil_r.
Qed.

Lemma generate_keypair_wp t :
  wpd Ssl.generate_keypair
    (λ r t', t' = t ∧ (r = Ok (Crypto.generate_keypair (entropy t)) ∨
      flaky ∧ (r = Throw RuntimeError ∨
        ∃ pk, r = Ok {| public_key := pk; private_key := private_key (Crypto.generate_keypair (entropy t)) |}))) t.
Proof.
  apply wp_invoke; [done|]. intros x t' Hx. created Hx. clear x t' Hx. intros ctx Hctx.
  tested. rewrite put_put. cbn [then_wp wp mret calls_ret].
  tested. rewrite put_put. cbn [then_wp wp mret calls_ret].
  split; [permitted|]. unfold Crypto.generate_keypair.
  intros [r x] t1 [(Hf & Hr & Hp & ->)|(pkey & Hp & [= -> ->] & ->)].
  { cbn -[Z.eqb freeable remove put] in Hr |- *. rewrite (proj2 (Z.eqb_neq _ _) Hr). unwind. auto. }
  cbn -[freeable remove put Ssl.unique]. change (entropy (put ctx _ t)) with (entropy t).
  fresh_handle Hp. destruct (EVP_PKEY_keygen (entropy t)) as [n q].
  apply wp_scope. split; [permitted|]. intros x t1 Hx. revert Hx. cbn [answers documented says]. unfold key_at. look. intros Hx.
  created Hx. intros key Hkey. fresh_handle Hkey.
  eapply wp_mono; [|apply (key_bytes_wp key n q); by look]. intros r t2 [-> (pk & -> & Hpk)]. unwind.
  split; [done|]. cbn. destruct Hpk as [->|Hf]; [by left|]. right. eauto.
Qed.
End functions.

(** ** A library that behaves as documented *)

Section reference.
Context `{Crypto}.

Definition alloc (o : ssl_object) (t : SslState) : ptr * SslState :=
  let p := SqLib.unused (dom (heap t)) in (Some p, put p o t).

Definition grant (ok : bool) (t1 t : SslState) : Z * SslState := if ok then (1, t1) else (0, t).

Definition reference (c : ssl_call) : SslState → ssl_answer c * SslState :=
  match c return SslState → ssl_answer c * SslState with
  | call_MD_CTX_new => alloc (MdCtx Idle)
  | call_PKEY_CTX_new_id => alloc (PkeyCtx false false)
  | call_PKEY_new => alloc (Pkey None)
  | call_EC_KEY_new => alloc (EcKey (mkEcKey _ None None))
  | call_get1_EC_KEY p => λ t, alloc (EcKey (key_at t p)) t
  | call_BN_bin2bn data _ => alloc (Bn (BN_bin2bn data))
  | call_POINT_new _ => alloc (Point None)
  | call_MD_CTX_free p | call_PKEY_CTX_free p | call_PKEY_free p | call_EC_KEY_free p | call_BN_free p
  | call_POINT_free p => λ t, (tt, remove p t)
  | call_DigestInit ctx => λ t, (1, put ctx (MdCtx (Hashing [])) t)
  | call_DigestUpdate ctx data => λ t,
      (1, put ctx (MdCtx (Hashing (match md_at t ctx with Hashing d => d ++ data | _ => data end))) t)
  | call_DigestFinal ctx => λ t,
      ((1, match md_at t ctx with Hashing d => Crypto.sha256 d | _ => [] end), put ctx (MdCtx Idle) t)
  | call_keygen_init ctx => λ t, (1, put ctx (PkeyCtx true false) t)
  | call_set_curve ctx => λ t, (1, put ctx (PkeyCtx true true) t)
  | call_keygen ctx => λ t,
      let '(p, t') := alloc (Pkey (Some (let '(n, q) := EVP_PKEY_keygen (entropy t) in mkEcKey _ (Some n) (Some q)))) t in
      ((1, p), t')
  | call_set1_EC_KEY p key => λ t, (1, put p (Pkey (Some (key_at t key))) t)
  | call_set_private_key key bn => λ t,
      grant (match bn_at t bn with Some n => EC_KEY_set_private_key n | None => false end)
        (put key (EcKey (mkEcKey _ (bn_at t bn) (pub (key_at t key)))) t) t
  | call_set_public_key key p => λ t, (1, put key (EcKey (mkEcKey _ (priv (key_at t key)) (point_at t p))) t)
  | call_check_key key => λ t,
      grant (match priv (key_at t key), pub (key_at t key) with
             | Some n, Some q => EC_KEY_check_key n q
             | _, _ => false
             end) t t
  | call_get0_group _ => λ t, (true, t)
  | call_BN_num_bytes key => λ t, (match priv (key_at t key) with Some n => length (BN_bn2bin n) | None => 0%nat end, t)
  | call_BN_bn2bin key _ => λ t, (match priv (key_at t key) with Some n => BN_bn2bin n | None => [] end, t)
  | call_POINT_mul _ p bn => λ t, (1, put p (Point (EC_POINT_mul <$> bn_at t bn)) t)
  | call_oct2point _ p data => λ t,
      grant (bool_decide (is_Some (EC_POINT_oct2point data))) (put p (Point (EC_POINT_oct2point data)) t) t
  | call_point2oct key _ => λ t,
      (match pub (key_at t key) with Some q => (sz (EC_POINT_point2oct q), EC_POINT_point2oct q) | None => (0, []) end, t)
  | call_DigestSignInit ctx p => λ t, (1, put ctx (MdCtx (Signing (key_at t p))) t)
  | call_DigestSign_size ctx message => λ t,
      ((1, match md_at t ctx with
           | Signing k => match priv k with Some n => length (EVP_DigestSign n message) | None => 0%nat end
           | _ => 0%nat
           end), t)
  | call_DigestSign ctx _ message => λ t,
      ((1, match md_at t ctx with
           | Signing k => match priv k with Some n => EVP_DigestSign n message | None => [] end
           | _ => []
           end), t)
  | call_DigestVerifyInit ctx p => λ t, (1, put ctx (MdCtx (Verifying (key_at t p))) t)
  | call_DigestVerify ctx signature message => λ t,
      (match md_at t ctx with
       | Verifying k => match pub k with Some q => if EVP_DigestVerify q message signature then 1 else 0 | None => 0 end
       | _ => 0
       end, t)
  end.

Lemma alloc_makes flaky o t : makes flaky t o (alloc o t).1 (alloc o t).2.
Proof.
  right. eexists. split; [|by split]. apply not_elem_of_dom. intros Hin%SqLib.unused_fresh. lia.
Qed.

Lemma grant_tries flaky ok (P : Prop) t1 t :
  (ok = true ↔ P) → tries flaky P t t1 (grant ok t1 t).1 (grant ok t1 t).2.
Proof.
  intros HP. destruct ok; [right; split; [by apply HP|done]|left]. split; [right; by rewrite <- HP|done].
Qed.

Lemma ssl_reference_documented flaky c t : may t c → says flaky t c (reference c t).1 (reference c t).2.
Proof.
  intros Hm. destruct c; cbn [reference says]; cbn [fst snd];
    try done; try apply alloc_makes; try (right; by split_and!).
  - right. destruct Hm as (m & Hc & d & ->). exists d. unfold md_at. by rewrite Hc.
  - right. destruct (alloc_makes False (Pkey (Some (let '(n, q) := EVP_PKEY_keygen (entropy t) in
      mkEcKey _ (Some n) (Some q)))) t) as [([] & _)|(p & Hp & E & Et)].
    exists p. unfold alloc in *. cbn in *. injection E as E. by rewrite E in *.
  - apply grant_tries. destruct (bn_at t bn) as [n|]; split.
    + by exists n.
    + by intros (m & [= <-] & Hm').
    + done.
    + by intros (m & [=] & _).
  - apply grant_tries. unfold both. destruct (priv _) as [n|], (pub _) as [q|]; naive_solver.
  - split; [done|by left].
  - destruct Hm as (k & Hk & n & Hn). split; [done|]. exists n. unfold key_at. by rewrite Hk, Hn.
  - destruct Hm as (k & Hk & n & Hn & _). split; [done|]. exists n. unfold key_at. by rewrite Hk, Hn.
  - apply grant_tries. by rewrite bool_decide_eq_true.
  - destruct Hm as (k & Hk & q & Hq). split; [done|]. right. exists q. unfold key_at. by rewrite Hk, Hq.
  - split; [done|]. right. split; [done|]. intros k n -> ->. lia.
  - split; [done|]. right. split; [done|]. by intros k n -> ->.
  - split; [done|]. right. intros k q -> ->. by destruct (EVP_DigestVerify _ _ _).
Qed.
End reference.

Section crypto.
Context `{Crypto} (flaky : Prop) {L : Type} (api : ∀ c, L → ssl_answer c * L) (lib : L → SslState).

(** Run against [api], [op] makes permitted calls only, leaves the objects of the library as
    they were, and ends in a way that satisfies [Q]. *)
Definition balanced {A} (l : L) (op : ssl_prog A) (Q : result A → Prop) : Prop :=
  wp (documented flaky) op (λ _ _, True) (lib l) ∧ lib (perform api op l).2 = lib l ∧ Q (perform api op l).1.

Hypothesis api_documented : ∀ c l, may (lib l) c → says flaky (lib l) c (api c l).1 (lib (api c l).2).

Lemma wp_balanced {A} (op : ssl_prog A) (Q : result A → Prop) l :
  wp (documented flaky) op (λ r t', t' = lib l ∧ Q r) (lib l) → balanced l op Q.
Proof.
  intros Hw. split; [by eapply wp_mono|]. exact (wp_perform (documented flaky) api lib op _ l api_documented Hw).
Qed.

(** C19. The functions of src/crypto give back every OpenSSL object. Against every library
    that behaves as documented, whether or not its calls may fail for want of memory or
    entropy ([flaky]), hashing, signing, verifying and key generation use live objects of
    the right type only, free each exactly once on every path, exceptions included, and
    return what Crypto.v says; when a call failed on its own they throw, except that
    [verify] may answer that the signature is invalid and [generate_keypair] may return a
    wrong public key, because the results of [EVP_DigestVerify] below zero and of
    [EC_POINT_point2oct] are not told apart. *)
Theorem crypto_objects_freed l :
  (∀ data, balanced l (Ssl.sha256 data) (λ r,
    r = Ok (Crypto.sha256 data) ∨ flaky ∧ r = Throw RuntimeError)) ∧
  (∀ m k, sz k < 2 ^ 31 → balanced l (Ssl.sign m k) (λ r,
    r = Crypto.sign m k ∨ flaky ∧ r = Throw RuntimeError)) ∧
  (∀ m s k, balanced l (Ssl.verify m s k) (λ r,
    r = Crypto.verify m s k ∨ flaky ∧ (r = Throw RuntimeError ∨ r = Ok false))) ∧
  balanced l Ssl.generate_keypair (λ r,
    let k := Crypto.generate_keypair (entropy (lib l)) in
    r = Ok k ∨ flaky ∧ (r = Throw RuntimeError ∨ ∃ pk, r = Ok {| public_key := pk; private_key := private_key k |})).
Proof.
  split_and!.
  - intros data. apply wp_balanced, sha256_wp.
  - intros m k Hk. by apply wp_balanced, sign_wp.
  - intros m s k. apply wp_balanced, verify_wp.
  - apply wp_balanced, generate_keypair_wp.
Qed.
End crypto.
End SslLib.

(** ** Witness *)
Section witnesses.
#[local] Existing Instance demo_crypto.

Definition ssl_0 : SslState := mkSslState demo_crypto {[7%nat := Bn (lit "other")]} 42.

Lemma crypto_objects_freed_witness :
  (∀ m k, sz k < 2 ^ 31 → SslLib.balanced False SslLib.reference (λ t, t) ssl_0 (Ssl.sign m k) (λ r,
    r = Crypto.sign m k ∨ False ∧ r = Throw RuntimeError)) ∧
  (perform SslLib.reference (Ssl.sign (lit "message") (lit "alice")) ssl_0).1 =
    Ok (demo_sign (lit "alice") (lit "message")) ∧
  dom (heap (perform SslLib.reference (Ssl.sign (lit "message") (lit "alice")) ssl_0).2) = {[7%nat]} ∧
  (perform SslLib.reference (Ssl.verify (lit "m") (lit "s") (lit "not a point")) ssl_0).1 = Throw RuntimeError.
Proof.
  split; [|split; [by vm_compute|split; [apply (bool_decide_eq_true_1 _); by vm_compute|by vm_compute]]].
  apply (SslLib.crypto_objects_freed False SslLib.reference (λ t, t) (SslLib.ssl_reference_documented False) ssl_0).
Defined.
End witnesses.
