(* ===== verification/Threads.v ===== *)
(** * Threads, mutexes and joins

    Prog.v interleaves critical sections that are atomic because they hold a mutex. This file
    looks inside: the code of a thread is reduced to what it can wait for, that is the
    mutexes it locks, the threads it joins, the system calls it makes, and to the flags its
    loops test; what depends on data is a choice. [do_step] runs one step of one thread, so
    schedules can be executed. [disciplined] is a condition on the main thread's code: locks
    are nested by rank, the flag of a thread is cleared before it is joined, every thread
    is joined, and workers are made only under [peers_mutex] after a look at
    [node_stopping]. Every step keeps the invariant [inv] that follows from it. The main
    results are [can_finish], that such a system can always run to its end, from whatever
    state a schedule has led to, and [nothing_left], that no thread outlives the main one.
    The last section is about threads that wait for ever. *)

From S2P Require Import Prelude.

(** The mutexes of the program. *)
Inductive mutex :=
| state_mutex | chain_mutex | orphan_mutex
| peers_mutex | shutdown_mutex | sync_mutex | book_mutex | log_mutex | api_key_mutex
| write_mutex (peer : nat).

(** The atomic flags: [running_] of the orchestrator, of the RPC server and of the node,
    [stopping_] of the node, the flag of the signal handler, and whether the process was
    ended with [std::_Exit]. *)
Inductive flag := orchestrator_running | rpc_running | node_running | node_stopping | shutting_down | exited.

(** The calls a thread may wait in. *)
Inductive syscall :=
| sys_timer | sys_accept | sys_connect | sys_mine | sys_getline
| sys_handshake | sys_recv_peer | sys_send_peer | sys_recv_client | sys_send_client.

Inductive tid := Main | Mining | RpcAccept | NodeAccept | Cleaner | Ping | Connect | Worker (n : nat).

#[global] Instance mutex_eq : EqDecision mutex. Proof. solve_decision. Defined.
#[global] Instance flag_eq : EqDecision flag. Proof. solve_decision. Defined.
#[global] Instance syscall_eq : EqDecision syscall. Proof. solve_decision. Defined.
#[global] Instance tid_eq : EqDecision tid. Proof. solve_decision. Defined.

#[global] Instance flag_countable : Countable flag.
Proof.
  refine (inj_countable' (λ f, match f with
    | orchestrator_running => 0 | rpc_running => 1 | node_running => 2
    | node_stopping => 3 | shutting_down => 4 | exited => 5 end%nat)
    (λ n, match n with 0 => orchestrator_running | 1 => rpc_running | 2 => node_running
    | 3 => node_stopping | 4 => shutting_down | _ => exited end%nat) _).
  by intros [].
Defined.

#[global] Instance mutex_countable : Countable mutex.
Proof.
  refine (inj_countable' (λ m, match m with
    | state_mutex => inl 0 | chain_mutex => inl 1 | orphan_mutex => inl 2 | peers_mutex => inl 3
    | shutdown_mutex => inl 4 | sync_mutex => inl 5 | book_mutex => inl 6 | log_mutex => inl 7
    | api_key_mutex => inl 8 | write_mutex p => inr p end%nat)
    (λ n, match n with inl 0 => state_mutex | inl 1 => chain_mutex | inl 2 => orphan_mutex
    | inl 3 => peers_mutex | inl 4 => shutdown_mutex | inl 5 => sync_mutex | inl 6 => book_mutex
    | inl 7 => log_mutex | inl _ => api_key_mutex | inr p => write_mutex p end%nat) _).
  by intros [].
Defined.

#[global] Instance tid_countable : Countable tid.
Proof.
  refine (inj_countable' (λ t, match t with
    | Main => inl 0 | Mining => inl 1 | RpcAccept => inl 2 | NodeAccept => inl 3 | Cleaner => inl 4
    | Ping => inl 5 | Connect => inl 6 | Worker n => inr n end%nat)
    (λ n, match n with inl 0 => Main | inl 1 => Mining | inl 2 => RpcAccept | inl 3 => NodeAccept
    | inl 4 => Cleaner | inl 5 => Ping | inl _ => Connect | inr n => Worker n end%nat) _).
  by intros [].
Defined.

(** ** Code *)

Inductive cmd :=
| Skip
| Sys (s : syscall)
| Lock (m : mutex) (c : cmd)  (** [lock_guard] and its scope *)
| Seq (a b : cmd)
| Either (a b : cmd)  (** a branch on data *)
| Many (c : cmd)  (** a loop over data *)
| While (early : bool) (f : flag) (c : cmd)  (** [while (f && ...)]; [early]: other conditions end it too *)
| If (f : flag) (a b : cmd)
| LockPeer (c : cmd)  (** the write mutex of some peer and the scope of its [lock_guard] *)
| SetFlag (f : flag) (b : bool)
| Start (t : tid) (c : cmd)  (** make the thread [t] *)
| Spawn (c : cmd)  (** make a worker and put its handle in the shared list *)
| TakeOne  (** move a handle from the shared list to the local one *)
| TakeAll
| JoinTaken  (** join and drop the handles of the local list *)
| JoinIf (t : tid).  (** [if (t.joinable()) t.join()] *)

(** What a thread has left to do: a command, or the end of the scope of a lock. *)
Inductive item := Cmd (c : cmd) | Release (m : mutex).

Record thread := mkThread { code : list item; taken : list tid }.

Record sys := mkSys {
  flags : gset flag;  (** those that are true *)
  held : gmap mutex tid;
  workers : list tid;
  threads : gmap tid thread
}.

Definition finished (t : tid) (s : sys) : bool :=
  match threads s !! t with Some th => bool_decide (code th = []) | None => true end.

Module Th.

Definition set_thread (t : tid) (th : thread) (s : sys) : sys :=
  mkSys (flags s) (held s) (workers s) (<[t := th]> (threads s)).

(** [t] goes on with [k]. *)
Definition goto (t : tid) (th : thread) (k : list item) (s : sys) : sys := set_thread t (mkThread k (taken th)) s.

Section machine.
(** The system calls that never return. *)
Context (stuck : syscall → bool).

Definition lock_step (t : tid) (th : thread) (m : mutex) (c : cmd) (k : list item) (s : sys) : option sys :=
  match held s !! m with
  | Some _ => None
  | None =>
      let s' := goto t th (Cmd c :: Release m :: k) s in
      Some (mkSys (flags s') (<[m := t]> (held s')) (workers s') (threads s'))
  end.

(** One step of the command [c] of thread [t] with [k] to follow; [n] resolves the choice. *)
Definition step_cmd (t : tid) (n : nat) (th : thread) (c : cmd) (k : list item) (s : sys) : option sys :=
  match c with
  | Skip => Some (goto t th k s)
  | Sys x => if stuck x then None else Some (goto t th k s)
  | Lock m c => lock_step t th m c k s
  | LockPeer c => lock_step t th (write_mutex n) c k s
  | Seq a b => Some (goto t th (Cmd a :: Cmd b :: k) s)
  | Either a b => Some (goto t th (Cmd (if (n =? 0)%nat then a else b) :: k) s)
  | Many c => Some (goto t th (if (n =? 0)%nat then k else Cmd c :: Cmd (Many c) :: k) s)
  | While early f c =>
      if bool_decide (f ∈ flags s) then
        if (n =? 0)%nat then Some (goto t th (Cmd c :: Cmd (While early f c) :: k) s)
        else if early then Some (goto t th k s) else None
      else Some (goto t th k s)
  | If f a b => Some (goto t th (Cmd (if bool_decide (f ∈ flags s) then a else b) :: k) s)
  | SetFlag f b =>
      let s' := goto t th k s in
      Some (mkSys (if b then {[f]} ∪ flags s' else flags s' ∖ {[f]}) (held s') (workers s') (threads s'))
  | Start t' c =>
      match threads s !! t' with
      | Some _ => None
      | None => Some (set_thread t' (mkThread [Cmd c] []) (goto t th k s))
      end
  | Spawn c =>
      match threads s !! Worker n with
      | Some _ => None
      | None =>
          let s' := set_thread (Worker n) (mkThread [Cmd c] []) (goto t th k s) in
          Some (mkSys (flags s') (held s') (workers s' ++ [Worker n]) (threads s'))
      end
  | TakeOne =>
      match workers s !! n with
      | None => Some (goto t th k s)
      | Some w =>
          let s' := set_thread t (mkThread k (w :: taken th)) s in
          Some (mkSys (flags s') (held s') (delete n (workers s')) (threads s'))
      end
  | TakeAll =>
      let s' := set_thread t (mkThread k (workers s ++ taken th)) s in
      Some (mkSys (flags s') (held s') [] (threads s'))
  | JoinTaken =>
      match taken th with
      | [] => Some (goto t th k s)
      | w :: ws => if finished w s then Some (set_thread t (mkThread (Cmd JoinTaken :: k) ws) s) else None
      end
  | JoinIf t' => if finished t' s then Some (goto t th k s) else None
  end.

Definition do_step (t : tid) (n : nat) (s : sys) : option sys :=
  th ← threads s !! t;
  match code th with
  | [] => None
  | Release m :: k =>
      let s' := goto t th k s in
      Some (mkSys (flags s') (delete m (held s')) (workers s') (threads s'))
  | Cmd c :: k => step_cmd t n th c k s
  end.

Definition step (s s' : sys) : Prop := ∃ t n, do_step t n s = Some s'.

(** A schedule: which thread steps, and how its choice goes. *)
Fixpoint execute (l : list (tid * nat)) (s : sys) : option sys :=
  match l with
  | [] => Some s
  | (t, n) :: l => s' ← do_step t n s; execute l s'
  end.

Lemma execute_steps l s s' : execute l s = Some s' → rtc step s s'.
Proof.
  revert s. induction l as [|[t n] l IH]; intros s E; [injection E as <-; apply rtc_refl|].
  cbn in E. destruct (do_step t n s) as [s1|] eqn:E1; [|done]. eapply rtc_l; [by exists t, n|by apply IH].
Qed.
End machine.

(** ** The discipline *)

(** Locks are nested by rank; those of the last rank are never held together. *)
Definition rank (m : mutex) : nat :=
  match m with state_mutex => 0 | chain_mutex => 1 | orphan_mutex => 2 | _ => 3 end.

(** The flag that ends a thread, and whether it joins others. *)
Definition flag_of (t : tid) : flag :=
  match t with Mining => orchestrator_running | RpcAccept => rpc_running | _ => node_running end.
Definition joins (t : tid) : bool := match t with Main | Cleaner => true | _ => false end.

Definition above (r : option nat) (n : nat) : Prop := match r with Some r => (r < n)%nat | None => True end.

(** Whether a thread may hold handles it took and has not joined, after a command. *)
Fixpoint after (c : cmd) (d : bool) : bool :=
  match c with
  | TakeOne | TakeAll => true
  | JoinTaken => false
  | Lock _ c | LockPeer c => after c d
  | Seq a b => after b (after a d)
  | Either a b | If _ a b => after a d || after b d
  | Many c | While _ _ c => d || after c d
  | _ => d
  end.

(** The code of a thread other than the main one, under a lock of rank [r]: loops test a flag
    of [fs], loops and joins are outside locks, flags are only read, and a worker is made
    under [peers_mutex] ([h]) after a look at [node_stopping] ([g]). *)
Fixpoint good (fs : flag → Prop) (js : bool) (r : option nat) (h g : bool) (c : cmd) : Prop :=
  match c with
  | Skip | Sys _ => True
  | Lock m c => above r (rank m) ∧ good fs js (Some (rank m)) (h || bool_decide (m = peers_mutex)) g c
  | LockPeer c => above r 3 ∧ good fs js (Some 3%nat) h g c
  | Seq a b | Either a b => good fs js r h g a ∧ good fs js r h g b
  | If f a b => good fs js r h g a ∧ good fs js r h (g || h && bool_decide (f = node_stopping)) b
  | Many c => good fs js r h g c
  | While _ f c => r = None ∧ fs f ∧ good fs js r h g c
  | Spawn c => g = true ∧ after c false = false ∧ good (eq node_running) false None false false c
  | TakeOne => js = true
  | JoinTaken => js = true ∧ r = None
  | TakeAll | SetFlag _ _ | Start _ _ | JoinIf _ => False
  end.

(** A whole thread of this kind. *)
Definition fine (t : tid) (c : cmd) : Prop :=
  after c false = false ∧ good (eq (flag_of t)) (joins t) None false false c.

Definition fixed (t : tid) : Prop := match t with Main | Worker _ => False | _ => True end.

(** What the main thread knows: flags that are false, threads that were not started, those
    that may be running, whether [node_stopping] was set, and whether the list of workers
    was emptied after that. *)
Record facts := mkFacts { off : gset flag; unstarted : gset tid; live : gset tid; stopped : bool; closed : bool }.

Definition know (f : flag) (b : bool) (F : facts) : facts :=
  mkFacts (if b then off F ∖ {[f]} else {[f]} ∪ off F) (unstarted F) (live F)
    (if bool_decide (f = node_stopping) then b else stopped F)
    (if bool_decide (f = node_stopping) then b && closed F else closed F).
Definition learn (f : flag) (F : facts) : facts :=
  mkFacts ({[f]} ∪ off F) (unstarted F) (live F) (stopped F) (closed F).
Definition started (t : tid) (F : facts) : facts :=
  mkFacts (off F) (unstarted F ∖ {[t]}) ({[t]} ∪ live F) (stopped F) (closed F).
Definition joined (t : tid) (F : facts) : facts :=
  mkFacts (off F) (unstarted F) (live F ∖ {[t]}) (stopped F) (closed F).
Definition emptied (F : facts) : facts := mkFacts (off F) (unstarted F) (live F) (stopped F) (stopped F).

(** The code of the main thread, when it knows [F]: a thread is started once and joined after
    its flag is cleared, [node_stopping] is set under [peers_mutex]; [Q] holds of what is
    known at the end. *)
Fixpoint drives (c : cmd) (r : option nat) (h : bool) (F : facts) (Q : facts → Prop) : Prop :=
  match c with
  | Skip | Sys _ | TakeOne => Q F
  | TakeAll => Q (emptied F)
  | Lock m c => above r (rank m) ∧ drives c (Some (rank m)) (h || bool_decide (m = peers_mutex)) F Q
  | LockPeer c => above r 3 ∧ drives c (Some 3%nat) h F Q
  | Seq a b => drives a r h F (λ F', drives b r h F' Q)
  | Either a b => drives a r h F Q ∧ drives b r h F Q
  | If f a b => drives a r h F Q ∧ drives b r h (learn f F) Q
  | Many c => good (λ _, False) false r h (bool_decide (node_stopping ∈ off F)) c ∧ Q F
  | While _ _ _ => False
  | SetFlag f b => (f = node_stopping → b = true → h = true) ∧ Q (know f b F)
  | Start t c => fixed t ∧ t ∈ unstarted F ∧ fine t c ∧ Q (started t F)
  | Spawn c => node_stopping ∈ off F ∧ fine (Worker 0) c ∧ Q F
  | JoinTaken => r = None ∧ node_running ∈ off F ∧ Q F
  | JoinIf t => r = None ∧ fixed t ∧ flag_of t ∈ off F ∧ Q (joined t F)
  end.

(** The rank of the innermost lock held, the locks held, and whether [peers_mutex] is. *)
Fixpoint top (k : list item) : option nat :=
  match k with
  | [] => None
  | Cmd _ :: k => top k
  | Release m :: _ => Some (rank m)
  end.

Fixpoint locks (k : list item) : list mutex :=
  match k with
  | [] => []
  | Cmd _ :: k => locks k
  | Release m :: k => m :: locks k
  end.

Definition guards (k : list item) : bool := bool_decide (peers_mutex ∈ locks k).

(** [open]: the flag [node_stopping] is false. *)
Fixpoint good_code (fs : flag → Prop) (js open : bool) (k : list item) : Prop :=
  match k with
  | [] => True
  | Cmd c :: k => good fs js (top k) (guards k) (guards k && open) c ∧ good_code fs js open k
  | Release m :: k => above (top k) (rank m) ∧ good_code fs js open k
  end.

(** At its end the main thread has joined what it started, and the list of workers is empty
    for good. *)
Fixpoint drives_code (k : list item) (F : facts) : Prop :=
  match k with
  | [] => live F = ∅ ∧ closed F = true
  | Cmd c :: k => drives c (top k) (guards k) F (drives_code k)
  | Release m :: k => above (top k) (rank m) ∧ drives_code k F
  end.

Fixpoint after_code (k : list item) (d : bool) : bool :=
  match k with
  | [] => d
  | Cmd c :: k => after_code k (after c d)
  | Release _ :: k => after_code k d
  end.

Record true_of (F : facts) (s : sys) : Prop := {
  true_off : off F ## flags s;
  true_unstarted : unstarted F ## dom (threads s);
  true_fixed t : t ∈ unstarted F → fixed t;
  true_live t : fixed t → finished t s = false → t ∈ live F;
  true_stopped : stopped F = true → node_stopping ∈ flags s;
  true_closed : closed F = true → node_stopping ∈ flags s ∧ workers s = []
}.

Definition is_open (s : sys) : bool := bool_decide (node_stopping ∉ flags s).

(** What [t] has left to do fits its part. *)
Definition fits (t : tid) (k : list item) (s : sys) : Prop :=
  match t with
  | Main => ∃ F, true_of F s ∧ drives_code k F
  | _ => good_code (eq (flag_of t)) (joins t) (is_open s) k
  end.

Definition is_worker (w : tid) : Prop := match w with Worker _ => True | _ => False end.

(** The handles a thread took are joined before it ends, and only some threads take them. *)
Definition tidy (t : tid) (th : thread) : Prop :=
  after_code (code th) (bool_decide (taken th ≠ [])) = false ∧ (taken th ≠ [] → joins t = true).

Record inv (s : sys) : Prop := {
  inv_main : is_Some (threads s !! Main);
  inv_fits t th : threads s !! t = Some th → fits t (code th) s;
  inv_held m t : held s !! m = Some t ↔ ∃ th, threads s !! t = Some th ∧ m ∈ locks (code th);
  inv_taken t th w : threads s !! t = Some th → w ∈ taken th → is_worker w ∧ is_Some (threads s !! w);
  inv_workers w : w ∈ workers s → is_worker w ∧ is_Some (threads s !! w);
  inv_tidy t th : threads s !! t = Some th → tidy t th;
  inv_owned w : is_worker w → finished w s = false →
    w ∈ workers s ∨ ∃ t th, threads s !! t = Some th ∧ w ∈ taken th
}.

(** ** The discipline is kept by a step of the thread *)

Lemma after_mono c d d' : (d' = true → d = true) → after c d' = true → after c d = true.
Proof.
  revert d d'. induction c; intros d d' Hd; cbn; eauto; try (rewrite !orb_true_iff; naive_solver).
Qed.

Lemma after_code_mono k d d' : (d' = true → d = true) → after_code k d' = true → after_code k d = true.
Proof.
  revert d d'. induction k as [|[c|m] k IH]; intros d d' Hd; cbn; auto; [|by apply IH]. apply IH. by apply after_mono.
Qed.

Lemma after_code_less k d d' : (d' = true → d = true) → after_code k d = false → after_code k d' = false.
Proof. intros Hd. rewrite <- !not_true_iff_false. intros Hn Ht. apply Hn. by eapply after_code_mono. Qed.

(** The constructors, in their order. *)
Ltac cmd_induction c :=
  induction c as [|x|m c IH|a IHa b IHb|a IHa b IHb|c IH|e f c IH|f a IHa b IHb|c IH|f v|t' c IH|c IH| | | |t'].

Lemma good_mono fs js r h g g' c : (g = true → g' = true) → good fs js r h g c → good fs js r h g' c.
Proof.
  revert fs js r h g g'. cmd_induction c; intros fs js r h g g' Hg; cbn; try done.
  - intros [? ?]. eauto.
  - intros [? ?]. eauto.
  - intros [? ?]. eauto.
  - eauto.
  - intros (? & ? & ?). eauto.
  - intros [Ha Hb]. split; [by eapply IHa|]. eapply IHb; [|exact Hb]. destruct g; cbn; [rewrite Hg|destruct g']; done.
  - intros [? ?]. eauto.
  - intros (? & ? & ?). auto.
Qed.

Lemma good_code_open fs js o o' k :
  (peers_mutex ∈ locks k → o = true → o' = true) → good_code fs js o k → good_code fs js o' k.
Proof.
  induction k as [|[c|m] k IH]; intros Ho; cbn; [done| |].
  - intros [Hc Hk]. split; [|by apply IH]. eapply good_mono, Hc. rewrite !andb_true_iff. unfold guards.
    rewrite bool_decide_eq_true. naive_solver.
  - intros [Hr Hk]. split; [done|]. apply IH; [|done]. intros Hin. apply Ho. by right.
Qed.

(** Knowing of more flags that they are false. *)
Definition up (Q : facts → Prop) : Prop := ∀ F f, Q F → Q (learn f F).

Lemma learn_know f f' b F : know f' b (learn f F) = know f' b F ∨ know f' b (learn f F) = learn f (know f' b F).
Proof.
  unfold know, learn. destruct F as [a u l st cl]. cbn. destruct b; [|right; f_equal; set_solver].
  destruct (decide (f = f')) as [->|Hne]; [left|right]; f_equal; set_solver.
Qed.

Lemma drives_up c r h Q : up Q → up (λ F, drives c r h F Q).
Proof.
  revert r h Q. cmd_induction c; intros r0 h0 Q HQ F f0; cbn in *; try (by apply HQ).
  - intros [? ?]. split; [done|by apply IH].
  - apply (IHa r0 h0 _ (IHb r0 h0 Q HQ)).
  - intros [? ?]. split; [by apply IHa|by apply IHb].
  - intros (Hg & Hq). split; [|by apply HQ]. eapply good_mono, Hg. rewrite !bool_decide_eq_true. set_solver.
  - done.
  - intros [Ha Hb]. split; [by apply IHa|]. assert (learn f (learn f0 F) = learn f0 (learn f F)) as ->; [|by apply IHb].
    unfold learn. cbn. f_equal. set_solver.
  - intros [? ?]. split; [done|by apply IH].
  - intros [Hh Hq]. split; [done|]. destruct (learn_know f0 f v F) as [->| ->]; [done|by apply HQ].
  - intros (Hf & Hu & Hc & Hq). do 3 (split; [done|]). by apply (HQ _ f0) in Hq.
  - intros (Hn & Hc & Hq). split; [set_solver|]. split; [done|by apply HQ].
  - apply (HQ (emptied F) f0).
  - intros (Hr & Hn & Hq). split; [done|]. split; [set_solver|by apply HQ].
  - intros (Hr & Hf & Hn & Hq). do 2 (split; [done|]). split; [set_solver|]. by apply (HQ _ f0) in Hq.
Qed.

Lemma drives_code_up k : up (drives_code k).
Proof. induction k as [|[c|m] k IH]; intros F f; cbn; [done|by apply drives_up|]. intros [Hr Hk]. split; [done|by apply IH]. Qed.

Lemma inert_drives c r h g F (Q : facts → Prop) :
  good (λ _, False) false r h g c → (g = true → node_stopping ∈ off F) → up Q → Q F → drives c r h F Q.
Proof.
  revert r h g F Q. cmd_induction c; intros r0 h0 g0 F Q Hg Hn Hu HQ; cbn in *; try done.
  - split; [apply Hg|]. eapply IH; [apply Hg|done..].
  - destruct Hg as [Ha Hb]. eapply IHa; eauto. by apply drives_up.
  - destruct Hg as [Ha Hb]. eauto.
  - split; [|done]. eapply good_mono, Hg. by rewrite bool_decide_eq_true.
  - destruct Hg as (_ & [] & _).
  - destruct Hg as [Ha Hb]. split; [by eapply IHa|]. eapply IHb; [exact Hb| |done|by apply Hu].
    rewrite orb_true_iff, andb_true_iff, bool_decide_eq_true. cbn. set_solver.
  - split; [apply Hg|]. eapply IH; [apply Hg|done..].
  - destruct Hg as (Hg & Hc). split; [by apply Hn|]. split; [exact Hc|done].
  - by destruct Hg.
Qed.

(** A proof about the main thread's code, and one about the others'. *)
Ltac by_part H :=
  match type of H with
  | fits ?t _ _ => destruct t; cbn [fits] in H |- *;
      [let F := fresh "F" in let HF := fresh "HF" in destruct H as (F & HF & H); exists F; split; [exact HF|]|..];
      cbn [drives_code good_code drives good top locks] in H |- *
  end.

Lemma fits_control t c k s :
  fits t (Cmd c :: k) s →
  match c with
  | Skip | Sys _ | Many _ | TakeOne | JoinTaken | Spawn _ | While _ _ _ => fits t k s
  | _ => True
  end.
Proof. destruct c; intros Hf; try done; by_part Hf; naive_solver. Qed.

Lemma drives_mono c r h F (Q Q' : facts → Prop) : (∀ F, Q F → Q' F) → drives c r h F Q → drives c r h F Q'.
Proof.
  intros HQ. revert r h F Q Q' HQ. cmd_induction c; intros r0 h0 F Q Q' HQ; cbn; auto; try (intros; naive_solver).
Qed.

Lemma fits_seq t a b k s : fits t (Cmd (Seq a b) :: k) s → fits t (Cmd a :: Cmd b :: k) s.
Proof. intros Hf. by_part Hf; naive_solver. Qed.

Lemma fits_either t a b k s (x : bool) : fits t (Cmd (Either a b) :: k) s → fits t (Cmd (if x then a else b) :: k) s.
Proof. intros Hf. by_part Hf; destruct x; naive_solver. Qed.

Lemma true_learn f F s : f ∉ flags s → true_of F s → true_of (learn f F) s.
Proof. intros Hf HF. split; cbn; [pose proof (true_off F s HF); set_solver|apply HF..]. Qed.

(** The branch of an [If] fits with what the test has shown. *)
Lemma good_if fs js r h o f a b s :
  o = is_open s → good fs js r h (h && o) (If f a b) →
  good fs js r h (h && o) (if bool_decide (f ∈ flags s) then a else b).
Proof.
  intros -> [Ha Hb]. destruct (decide (f ∈ flags s)) as [Ef|Ef].
  { by rewrite bool_decide_eq_true_2. }
  rewrite bool_decide_eq_false_2 by done. eapply good_mono, Hb.
  rewrite !orb_true_iff, !andb_true_iff, bool_decide_eq_true. unfold is_open. rewrite bool_decide_eq_true.
  intros [?|[? ->]]; done.
Qed.

Lemma fits_if t f a b k s : fits t (Cmd (If f a b) :: k) s → fits t (Cmd (if bool_decide (f ∈ flags s) then a else b) :: k) s.
Proof.
  intros Hf. destruct t; cbn in Hf |- *; [|destruct Hf as [Hc Hk]; split; [by apply (good_if _ _ _ _ _ f a b)|done]..].
  destruct Hf as (F & HF & Ha & Hb). case_bool_decide; [by exists F|]. exists (learn f F). split; [by apply true_learn|done].
Qed.

Lemma fits_many t c k s : fits t (Cmd (Many c) :: k) s → fits t (Cmd c :: Cmd (Many c) :: k) s.
Proof.
  intros Hf. by_part Hf; [|naive_solver..]. destruct Hf as [Hg Hk]. eapply inert_drives; [exact Hg|by rewrite bool_decide_eq_true| |done].
  apply (drives_up (Many c)), drives_code_up.
Qed.

Lemma fits_while t e f c k s :
  fits t (Cmd (While e f c) :: k) s → fits t (Cmd c :: Cmd (While e f c) :: k) s ∧ f = flag_of t ∧ t ≠ Main.
Proof. destruct t; cbn; naive_solver. Qed.

(** Under one more lock. *)
Lemma guards_release m k : guards (Release m :: k) = guards k || bool_decide (m = peers_mutex).
Proof. unfold guards. cbn. apply eq_true_iff_eq. rewrite orb_true_iff, !bool_decide_eq_true, elem_of_cons. naive_solver. Qed.

Lemma fits_under t m h c k s :
  h = guards k || bool_decide (m = peers_mutex) →
  match t with
  | Main => ∃ F, true_of F s ∧ above (top k) (rank m) ∧ drives c (Some (rank m)) h F (drives_code k)
  | _ => above (top k) (rank m) ∧ good (eq (flag_of t)) (joins t) (Some (rank m)) h (guards k && is_open s) c ∧
         good_code (eq (flag_of t)) (joins t) (is_open s) k
  end → fits t (Cmd c :: Release m :: k) s.
Proof.
  intros Hh Hf. destruct t; cbn [fits drives_code good_code top] in *; rewrite guards_release, <- Hh;
    [|destruct Hf as (Ha & Hc & Hk); split; [|done]; eapply good_mono, Hc;
      rewrite Hh, !andb_true_iff, orb_true_iff; naive_solver..].
  destruct Hf as (F & HF & Ha & Hd). exists F. split; [done|]. eapply drives_mono, Hd. done.
Qed.

Lemma fits_lock t m c k s : fits t (Cmd (Lock m c) :: k) s → fits t (Cmd c :: Release m :: k) s.
Proof. intros Hf. eapply fits_under; [done|]. destruct t; cbn in Hf; naive_solver. Qed.

Lemma fits_lock_peer t n c k s : fits t (Cmd (LockPeer c) :: k) s → fits t (Cmd c :: Release (write_mutex n) :: k) s.
Proof. intros Hf. eapply fits_under; [by rewrite orb_false_r|]. destruct t; cbn in Hf; naive_solver. Qed.

Lemma fits_release t m k s : fits t (Release m :: k) s → above (top k) (rank m) ∧ fits t k s.
Proof. destruct t; cbn; naive_solver. Qed.

(** ** The invariant *)

(** What the other threads see of a step: flags stay, threads are only added when they are
    workers, and workers only while [node_stopping] is false. *)
Record calm (s s' : sys) : Prop := {
  calm_flags : flags s' = flags s;
  calm_dom t : fixed t → t ∈ dom (threads s') → t ∈ dom (threads s);
  calm_finished t : fixed t → finished t s' = false → finished t s = false;
  calm_workers : node_stopping ∈ flags s → workers s = [] → workers s' = []
}.

Lemma true_calm F s s' : calm s s' → true_of F s → true_of F s'.
Proof.
  intros [Hf Hd Hfin Hw] HF. split; rewrite ?Hf; try apply HF.
  - intros t Ht Hin. pose proof (true_fixed F s HF t Ht) as Hfx. by apply (true_unstarted F s HF t), Hd.
  - intros t Ht Hn. apply (true_live F s HF); auto.
  - intros Hc. destruct (true_closed F s HF Hc). auto.
Qed.

Lemma fits_calm t k s s' : calm s s' → fits t k s → fits t k s'.
Proof.
  intros Hc. destruct t; cbn [fits]; try (unfold is_open; by rewrite (calm_flags s s' Hc)).
  intros (F & HF & Hk). exists F. split; [by eapply true_calm|done].
Qed.

(** The threads there are. *)
Definition known (s : sys) (w : tid) : Prop := is_worker w ∧ is_Some (threads s !! w).

Lemma finished_insert t th s t' :
  finished t' (set_thread t th s) = if bool_decide (t = t') then bool_decide (code th = []) else finished t' s.
Proof.
  unfold finished. cbn. case_bool_decide as E; [subst; by rewrite lookup_insert_eq|by rewrite lookup_insert_ne].
Qed.

(** [t], which was not at its end, goes on with [k] and the handles [tk]. *)
Lemma inv_update s t th k tk fl h ws :
  let s' := mkSys fl h ws (<[t := mkThread k tk]> (threads s)) in
  inv s → threads s !! t = Some th → code th ≠ [] →
  fits t k s' → (∀ t' th', t' ≠ t → threads s !! t' = Some th' → fits t' (code th') s') →
  (∀ m t', h !! m = Some t' ↔ if bool_decide (t' = t) then m ∈ locks k else held s !! m = Some t') →
  tidy t (mkThread k tk) →
  (∀ w, w ∈ tk → known s w) → (∀ w, w ∈ ws → known s w) →
  (∀ w, w ∈ workers s ∨ w ∈ taken th → finished w s = false → w ∈ ws ∨ w ∈ tk) →
  inv s'.
Proof.
  intros s' Hs Ht Hne Hk Ho Hh Htd Htk Hws Hown.
  assert (∀ w, known s w → is_worker w ∧ is_Some (threads s' !! w)) as Hkn.
  { intros w [Hw Hd]. split; [done|]. cbn. destruct (decide (t = w)) as [->|]; simplify_map_eq; [by eexists|done]. }
  split; cbn.
  - destruct (decide (t = Main)) as [->|]; simplify_map_eq; [by eexists|apply Hs].
  - intros t' th' Ht'. destruct (decide (t = t')) as [<-|Hn]; simplify_map_eq; [done|]. by apply Ho.
  - intros m t'. rewrite Hh. case_bool_decide as E.
    + subst t'. simplify_map_eq. split; [intros Hm; by exists (mkThread k tk)|]. by intros (? & [= <-] & ?).
    + rewrite lookup_insert_ne by done. apply Hs.
  - intros t' th' w Ht' Hw. apply Hkn. destruct (decide (t = t')) as [<-|Hn]; simplify_map_eq; [by apply Htk|].
    by apply (inv_taken s Hs t' th').
  - intros w Hw. by apply Hkn, Hws.
  - intros t' th' Ht'. destruct (decide (t = t')) as [<-|Hn]; simplify_map_eq; [done|by apply Hs].
  - intros w Hw Hf. assert (finished w s = false) as Hfs.
    { unfold finished in Hf |- *. cbn in Hf. destruct (decide (t = w)) as [<-|Hn]; simplify_map_eq; [|done].
      by apply bool_decide_eq_false_2. }
    assert (w ∈ ws ∨ w ∈ tk → w ∈ ws ∨ ∃ t' th', <[t:=mkThread k tk]> (threads s) !! t' = Some th' ∧ w ∈ taken th') as Hor.
    { intros [?|?]; [by left|right]. exists t, (mkThread k tk). by rewrite lookup_insert_eq. }
    destruct (inv_owned s Hs w Hw Hfs) as [Hin|(t' & th' & Ht' & Hin)]; [by apply Hor, Hown; [left|]|].
    destruct (decide (t = t')) as [<-|Hn]; simplify_eq; [by apply Hor, Hown; [right|]|].
    right. exists t', th'. by rewrite lookup_insert_ne.
Qed.

(** A step of [t] that keeps the flags, and the list of workers or takes from it. *)
Lemma calm_update s t th k tk h ws :
  threads s !! t = Some th → code th ≠ [] → (∀ w, w ∈ ws → w ∈ workers s) →
  calm s (mkSys (flags s) h ws (<[t := mkThread k tk]> (threads s))).
Proof.
  intros Ht Hne Hws. split; cbn; [done|..].
  - intros t' _. rewrite dom_insert_lookup_L by done. done.
  - intros t' _. unfold finished. cbn. destruct (decide (t = t')) as [<-|Hn]; simplify_map_eq; [|done].
    intros _. by apply bool_decide_eq_false_2.
  - intros _ E. destruct ws as [|w ws]; [done|]. specialize (Hws w (list_elem_of_here _ _)). rewrite E in Hws. by apply not_elem_of_nil in Hws.
Qed.

(** The locks of the others do not change. *)
Lemma held_same s t th k :
  inv s → threads s !! t = Some th → locks k = locks (code th) →
  ∀ m t', held s !! m = Some t' ↔ if bool_decide (t' = t) then m ∈ locks k else held s !! m = Some t'.
Proof.
  intros Hs Ht Hl m t'. case_bool_decide as E; [|done]. subst t'. rewrite (inv_held s Hs), Hl.
  split; [by intros (th' & Ht' & Hm); simplify_eq|]. intros Hm. by exists th.
Qed.

Lemma inv_calm s t th k tk h ws :
  inv s → threads s !! t = Some th → code th ≠ [] → fits t k s →
  (∀ m t', h !! m = Some t' ↔ if bool_decide (t' = t) then m ∈ locks k else held s !! m = Some t') →
  tidy t (mkThread k tk) →
  (∀ w, w ∈ tk → w ∈ workers s ∨ w ∈ taken th) → (∀ w, w ∈ ws → w ∈ workers s) →
  (∀ w, w ∈ workers s ∨ w ∈ taken th → finished w s = false → w ∈ ws ∨ w ∈ tk) →
  inv (mkSys (flags s) h ws (<[t := mkThread k tk]> (threads s))).
Proof.
  intros Hs Ht Hne Hk Hh Htd Htk Hws Hown. pose proof (calm_update s t th k tk h ws Ht Hne Hws) as Hc.
  eapply inv_update; [done..|by eapply fits_calm| |done|done| |intros w Hw; by apply Hs, Hws|done].
  - intros t' th' _ Ht'. eapply fits_calm; [done|]. by apply Hs.
  - intros w [Hw|Hw]%Htk; [by apply Hs|by apply (inv_taken s Hs t th)].
Qed.

Lemma tidy_goto t th k :
  tidy t th → after_code k (bool_decide (taken th ≠ [])) = false → tidy t (mkThread k (taken th)).
Proof. intros [_ Hj] Ha. by split. Qed.

Lemma inv_goto s t th k :
  inv s → threads s !! t = Some th → code th ≠ [] → fits t k s → locks k = locks (code th) →
  after_code k (bool_decide (taken th ≠ [])) = false → inv (goto t th k s).
Proof.
  intros Hs Ht Hne Hk Hl Ha. eapply inv_calm; [done..|by eapply held_same| |by right|done|by intros w [?|?]; auto].
  apply tidy_goto; [by apply Hs|done].
Qed.

(** A new thread. *)
Lemma inv_add s t c ws :
  let s' := mkSys (flags s) (held s) ws (<[t := mkThread [Cmd c] []]> (threads s)) in
  inv s → threads s !! t = None → t ≠ Main → fine t c →
  (∀ t' th, threads s !! t' = Some th → fits t' (code th) s') →
  (∀ w, w ∈ ws ↔ w ∈ workers s ∨ w = t ∧ is_worker t) →
  inv s'.
Proof.
  intros s' Hs Ht Hm [Ha Hc] Hfits Hws.
  assert (∀ w, known s w → is_worker w ∧ is_Some (threads s' !! w)) as Hkn.
  { intros w [Hw Hd]. split; [done|]. cbn. rewrite lookup_insert_ne; [done|]. intros ->. rewrite Ht in Hd. by destruct Hd. }
  split; cbn.
  - rewrite lookup_insert_ne by done. apply Hs.
  - intros t' th'. destruct (decide (t = t')) as [<-|Hne]; simplify_map_eq; [|apply Hfits].
    intros [= <-]. destruct t; cbn; done.
  - intros m t'. rewrite (inv_held s Hs). destruct (decide (t = t')) as [<-|Hne]; simplify_map_eq; [|done].
    split; [naive_solver|]. intros (? & [= <-] & Hin). by apply not_elem_of_nil in Hin.
  - intros t' th' w Ht' Hw. apply Hkn. destruct (decide (t = t')) as [<-|Hne]; simplify_map_eq.
    + by apply not_elem_of_nil in Hw.
    + by apply (inv_taken s Hs t' th').
  - intros w [Hw|[-> Hw]]%Hws; [by apply Hkn, Hs|]. split; [done|]. rewrite lookup_insert_eq. by eexists.
  - intros t' th' Ht'. destruct (decide (t = t')) as [<-|Hne]; simplify_map_eq; [by split|by apply Hs].
  - intros w Hw Hf. destruct (decide (t = w)) as [<-|Hne]; [left; apply Hws; by right|].
    assert (finished w s = false) as Hfs by (unfold finished in Hf |- *; cbn in Hf; by rewrite lookup_insert_ne in Hf).
    destruct (inv_owned s Hs w Hw Hfs) as [Hin|(t' & th' & Ht' & Hin)]; [left; apply Hws; by left|].
    right. exists t', th'. rewrite lookup_insert_ne; [done|]. intros ->. simplify_eq.
Qed.
(** Locks are held in the order of their ranks. *)
Fixpoint ordered (k : list item) : Prop :=
  match k with
  | [] => True
  | Cmd _ :: k => ordered k
  | Release m :: k => above (top k) (rank m) ∧ ordered k
  end.

Lemma drives_some c r h F (Q : facts → Prop) : drives c r h F Q → ∃ F', Q F'.
Proof.
  revert r h F Q. cmd_induction c; intros r0 h0 F Q Hd; cbn in *; try naive_solver.
  apply IHa in Hd as [F' Hd]. by apply IHb in Hd.
Qed.

Lemma fits_ordered t k s : fits t k s → ordered k.
Proof.
  assert (∀ fs js o, good_code fs js o k → ordered k) as Hg.
  { intros fs js o. induction k as [|[c|m] k IH]; cbn; naive_solver. }
  destruct t; cbn; eauto. intros (F & _ & Hd). clear Hg. revert F Hd.
  induction k as [|[c|m] k IH]; intros F Hd; cbn in *; [done| |naive_solver].
  apply drives_some in Hd as [F' Hd]. by eapply IH.
Qed.

Lemma ordered_rank k m : ordered k → m ∈ locks k → ∃ r, top k = Some r ∧ (rank m <= r)%nat.
Proof.
  induction k as [|[c|m'] k IH]; cbn; [by intros _ ?%not_elem_of_nil|done|].
  intros [Ha Ho] [->|Hm]%elem_of_cons; [by eauto|]. destruct (IH Ho Hm) as (r & Er & Hr). rewrite Er in Ha.
  exists (rank m'). cbn in Ha. split; [done|lia].
Qed.

(** A lock of higher rank is not held. *)
Lemma ordered_above k m : ordered k → above (top k) (rank m) → m ∉ locks k.
Proof. intros Ho Ha Hm. destruct (ordered_rank k m Ho Hm) as (r & Er & Hr). rewrite Er in Ha. cbn in Ha. lia. Qed.

Section preservation.
Context (stuck : syscall → bool).

(** Taking a lock, and giving it back. *)
Lemma held_lock s t th m k :
  inv s → threads s !! t = Some th → locks k = locks (code th) → held s !! m = None →
  ∀ m' t', <[m := t]> (held s) !! m' = Some t' ↔
    if bool_decide (t' = t) then m' ∈ m :: locks k else held s !! m' = Some t'.
Proof.
  intros Hs Ht Hl Hm m' t'. rewrite lookup_insert_Some. pose proof (inv_held s Hs m' t') as Hh.
  case_bool_decide as Et; [subst t'|naive_solver]. rewrite elem_of_cons, Hl. split.
  - intros [[-> _]|[_ Hx]]; [by left|]. apply Hh in Hx as (th' & ? & ?). simplify_eq. by right.
  - intros [->|Hin]; [by left|]. destruct (decide (m = m')) as [->|]; [by left|]. right. split; [done|].
    apply Hh. by exists th.
Qed.

Lemma held_release s t th m k :
  inv s → threads s !! t = Some th → code th = Release m :: k → m ∉ locks k →
  ∀ m' t', delete m (held s) !! m' = Some t' ↔
    if bool_decide (t' = t) then m' ∈ locks k else held s !! m' = Some t'.
Proof.
  intros Hs Ht Hc Hm m' t'. rewrite lookup_delete_Some. pose proof (inv_held s Hs m' t') as Hh.
  assert (held s !! m = Some t) as Hmt. { apply (inv_held s Hs). exists th. rewrite Hc. split; [done|left]. }
  case_bool_decide as Et; [subst t'|naive_solver]. rewrite Hh. split.
  - intros (Hne & th' & ? & Hin). simplify_eq. rewrite Hc in Hin. cbn in Hin. by apply elem_of_cons in Hin as [->|].
  - intros Hin. split; [by intros ->|]. exists th. rewrite Hc. split; [done|by right].
Qed.


(** ** Every step keeps the invariant *)

Lemma fits_spawn t n c k s : fits t (Cmd (Spawn c) :: k) s → fine (Worker n) c ∧ node_stopping ∉ flags s.
Proof.
  destruct t; cbn.
  { intros (F & HF & Hn & Hc & _). split; [exact Hc|]. pose proof (true_off F s HF). set_solver. }
  all: intros ((Hg & Hc & Hw) & _); split; [by split|]; apply andb_true_iff in Hg as [_ Hg]; by apply bool_decide_eq_true in Hg.
Qed.

Lemma calm_spawn s n c ws h :
  node_stopping ∉ flags s → calm s (mkSys (flags s) h ws (<[Worker n := mkThread [Cmd c] []]> (threads s))).
Proof.
  intros Hn. split; cbn; [done| | |done].
  - intros t' Hfx. rewrite dom_insert_L. intros [->%elem_of_singleton|]%elem_of_union; done.
  - intros t' Hfx. unfold finished. cbn. rewrite lookup_insert_ne; [done|by intros <-].
Qed.

(** The main thread starts [t']. *)
Lemma true_started t' F s s' :
  t' ∈ unstarted F → flags s' = flags s → workers s' = workers s → dom (threads s') ⊆ {[t']} ∪ dom (threads s) →
  (∀ t, t ≠ t' → finished t s' = false → finished t s = false ∨ ¬ fixed t) → true_of F s → true_of (started t' F) s'.
Proof.
  intros Hin Hf Hw Hd Hfin HF. pose proof (true_unstarted F s HF). split; cbn; rewrite ?Hf, ?Hw; try apply HF.
  - set_solver.
  - intros t Ht. apply (true_fixed F s HF). set_solver.
  - intros t Ht Hn. destruct (decide (t = t')) as [->|Hne]; [set_solver|]. apply elem_of_union_r.
    destruct (Hfin t Hne Hn); [by apply (true_live F s HF)|done].
Qed.

Lemma inv_start s th t' c k :
  inv s → threads s !! Main = Some th → code th = Cmd (Start t' c) :: k → threads s !! t' = None →
  inv (set_thread t' (mkThread [Cmd c] []) (goto Main th k s)).
Proof.
  intros Hs Ht Hc Hn. pose proof (inv_fits s Hs Main th Ht) as Hf. rewrite Hc in Hf.
  destruct Hf as (F & HF & Hfx & Hu & Hfine & Hk). assert (Main ≠ t') as Hne by by destruct t'.
  assert (inv (goto Main th k s)) as Hs1.
  { apply inv_goto; [done..|by rewrite Hc| |by rewrite Hc|].
    - exists (started t' F). split; [|done]. eapply (true_started t' F s); [done..|set_solver|intros t _ ?; by left|done].
    - pose proof (inv_tidy s Hs Main th Ht) as [Htd _]. by rewrite Hc in Htd. }
  apply (inv_add (goto Main th k s) t' c); [done|by cbn; rewrite lookup_insert_ne|done|done| |].
  - intros t1 th1 Ht1. destruct (decide (t1 = Main)) as [->|Hm].
    + cbn in Ht1. rewrite lookup_insert_eq in Ht1. injection Ht1 as <-. exists (started t' F). split; [|done].
      eapply (true_started t' F s); [done..| | |done]; cbn.
      * rewrite !dom_insert_L. assert (Main ∈ dom (threads s)) by (apply elem_of_dom; by eexists). set_solver.
      * intros t2 Hne2. unfold finished. cbn. rewrite lookup_insert_ne by done.
        destruct (decide (Main = t2)) as [<-|]; [by right; intros []|]. rewrite lookup_insert_ne by done. by left.
    + pose proof (inv_fits _ Hs1 t1 th1 Ht1) as Hf1. by destruct t1.
  - cbn. intros w. split; [by left|]. intros [?|[-> Hw]]; [done|]. by destruct t'.
Qed.

(** The main thread sets a flag. *)
Lemma true_know (f : flag) (b : bool) F (s s' : sys) :
  flags s' = (if b then {[f]} ∪ flags s else flags s ∖ {[f]}) → dom (threads s') = dom (threads s) → workers s' = workers s →
  (∀ t, fixed t → finished t s' = finished t s) → true_of F s → true_of (know f b F) s'.
Proof.
  intros Hf Hd Hw Hfin HF. pose proof (true_off F s HF). pose proof (true_stopped F s HF). pose proof (true_closed F s HF).
  split; cbn; rewrite ?Hd, ?Hw, ?Hf; try apply HF.
  - destruct b; set_solver.
  - intros t Ht. rewrite Hfin by done. by apply HF.
  - case_bool_decide; destruct b; set_solver.
  - case_bool_decide; destruct b; cbn; intros Hc; try done; destruct (H1 Hc); set_solver.
Qed.

Lemma inv_set s th (f : flag) (b : bool) k :
  inv s → threads s !! Main = Some th → code th = Cmd (SetFlag f b) :: k →
  inv (mkSys (if b then {[f]} ∪ flags s else flags s ∖ {[f]}) (held s) (workers s) (<[Main := mkThread k (taken th)]> (threads s))).
Proof.
  intros Hs Ht Hc. pose proof (inv_fits s Hs Main th Ht) as Hf. rewrite Hc in Hf. destruct Hf as (F & HF & Hh & Hk).
  eapply inv_update; [done..|by rewrite Hc| | |by eapply held_same; [done..|rewrite Hc]| | |apply Hs|by intros w [?|?]; auto].
  - exists (know f b F). split; [|done]. eapply true_know; [done|cbn; by apply dom_insert_lookup_L|done| |done].
    intros t Hfx. unfold finished. cbn. rewrite lookup_insert_ne; [done|by intros <-].
  - intros t' th' Hne Ht'. pose proof (inv_fits s Hs t' th' Ht') as Hf'.
    assert (peers_mutex ∈ locks (code th') → is_open s = true →
      is_open (mkSys (if b then {[f]} ∪ flags s else flags s ∖ {[f]}) (held s) (workers s) (<[Main := mkThread k (taken th)]> (threads s))) = true) as Ho.
    { unfold is_open. cbn. rewrite !bool_decide_eq_true. intros Hin Hno. destruct b; [|set_solver].
      destruct (decide (f = node_stopping)) as [->|]; [exfalso|set_solver]. specialize (Hh eq_refl eq_refl).
      unfold guards in Hh. apply bool_decide_eq_true in Hh.
      assert (held s !! peers_mutex = Some Main) as H1 by (apply Hs; exists th; by rewrite Hc).
      assert (held s !! peers_mutex = Some t') as H2 by (apply Hs; by exists th'). congruence. }
    destruct t'; [done|..]; cbn [fits] in *; by eapply good_code_open.
  - apply tidy_goto; [by apply Hs|]. pose proof (inv_tidy s Hs Main th Ht) as [Htd _]. by rewrite Hc in Htd.
  - intros w. by apply (inv_taken s Hs Main th).
Qed.

Lemma inv_take_all s th k :
  inv s → threads s !! Main = Some th → code th = Cmd TakeAll :: k →
  inv (mkSys (flags s) (held s) [] (<[Main := mkThread k (workers s ++ taken th)]> (threads s))).
Proof.
  intros Hs Ht Hc. pose proof (inv_fits s Hs Main th Ht) as Hf. rewrite Hc in Hf. destruct Hf as (F & HF & Hk).
  pose proof (inv_tidy s Hs Main th Ht) as [Htd _]. rewrite Hc in Htd. cbn in Htd.
  assert (calm s (mkSys (flags s) (held s) [] (<[Main := mkThread k (workers s ++ taken th)]> (threads s)))) as Hcalm.
  { eapply calm_update; [done|by rewrite Hc|by intros w ?%not_elem_of_nil]. }
  eapply inv_update; [done..|by rewrite Hc| | |by eapply held_same; [done..|rewrite Hc]| | | |].
  - exists (emptied F). split; [|done]. destruct (true_calm F _ _ Hcalm HF). split; cbn; auto.
  - intros t' th' _ Ht'. eapply fits_calm; [done|]. by apply Hs.
  - split; [|done]. eapply after_code_less, Htd. done.
  - intros w [Hw|Hw]%elem_of_app; [by apply Hs|by apply (inv_taken s Hs Main th)].
  - by intros w ?%not_elem_of_nil.
  - intros w Hw _. right. by apply elem_of_app.
Qed.

Lemma fits_joined t t' k s : finished t' s = true → fits t (Cmd (JoinIf t') :: k) s → fits t k s.
Proof.
  intros Hfin Hf. destruct t; cbn in *; try (by destruct Hf as [[] _]). destruct Hf as (F & HF & _ & _ & _ & Hk).
  exists (joined t' F). split; [|done]. split; cbn; try apply HF. intros t Ht Hn. apply elem_of_difference.
  split; [by apply HF|]. intros ->%elem_of_singleton. congruence.
Qed.

Lemma fits_takes t c k s : c = TakeOne ∨ c = JoinTaken → fits t (Cmd c :: k) s → t ≠ Main → joins t = true.
Proof. intros [->| ->] Hf Hm; destruct t; cbn in Hf; naive_solver. Qed.

Lemma inv_lock s t th m c c' k s' :
  inv s → threads s !! t = Some th → code th = Cmd c' :: k → (∀ d, after c' d = after c d) →
  fits t (Cmd c :: Release m :: k) s → lock_step t th m c k s = Some s' → inv s'.
Proof.
  intros Hs Ht Hc Ha Hf E. unfold lock_step in E. destruct (held s !! m) eqn:Hm; [done|]. injection E as <-.
  pose proof (inv_tidy s Hs t th Ht) as Htd.
  eapply inv_calm; [done..|by rewrite Hc|done| | |by right|done|by intros w [?|?]; auto].
  - eapply held_lock; [done..|by rewrite Hc|done].
  - apply tidy_goto; [done|]. destruct Htd as [Htd _]. rewrite Hc in Htd. cbn in Htd |- *. by rewrite <- Ha.
Qed.

Lemma delete_elem_of {A} (l : list A) n (x w : A) : l !! n = Some x → w ∈ l ↔ w = x ∨ w ∈ delete n l.
Proof. intros Hn. rewrite delete_take_drop, <- (take_drop_middle _ _ _ Hn) at 1. set_solver. Qed.

(** Once more round a loop. *)
Lemma again c d : (after c d || after c (after c d) = true → d || after c d = true).
Proof. destruct d; [done|]. cbn. destruct (after c false) eqn:E; [done|]. by rewrite E. Qed.

(** A worker is made. *)
Lemma inv_spawn s n c :
  inv s → threads s !! Worker n = None → fine (Worker n) c → node_stopping ∉ flags s →
  inv (mkSys (flags s) (held s) (workers s ++ [Worker n]) (<[Worker n := mkThread [Cmd c] []]> (threads s))).
Proof.
  intros Hs Hn Hfine Hopen. apply inv_add; [done..| |].
  - intros t1 th1 Ht1. eapply fits_calm; [|by apply Hs]. by apply calm_spawn.
  - intros w. rewrite elem_of_app, list_elem_of_singleton. cbn. naive_solver.
Qed.

(** A handle is taken from the list. *)
Lemma inv_take_one s t n th w k :
  inv s → threads s !! t = Some th → code th = Cmd TakeOne :: k → workers s !! n = Some w →
  inv (mkSys (flags s) (held s) (delete n (workers s)) (<[t := mkThread k (w :: taken th)]> (threads s))).
Proof.
  intros Hs Ht Hc Hn. pose proof (inv_fits s Hs t th Ht) as Hf. rewrite Hc in Hf. pose proof (fits_control t TakeOne k s Hf) as Hk.
  pose proof (inv_tidy s Hs t th Ht) as [Htd _]. rewrite Hc in Htd. cbn in Htd.
  eapply inv_calm; [done..|by rewrite Hc|done|by eapply held_same; [done..|rewrite Hc]| | | |].
  - split; [by eapply after_code_less, Htd|]. intros _. destruct (decide (t = Main)) as [->|]; [done|].
    apply (fits_takes t TakeOne k s); auto.
  - intros w' [->|Hw']%elem_of_cons; [left; by eapply list_elem_of_lookup_2|by right].
  - intros w' Hw'. rewrite (delete_elem_of _ n w) by done. by right.
  - intros w' Hw' _. rewrite (delete_elem_of _ n w) in Hw' by done. rewrite elem_of_cons. naive_solver.
Qed.

Lemma step_cmd_inv s t n th c k s' :
  inv s → threads s !! t = Some th → code th = Cmd c :: k → step_cmd stuck t n th c k s = Some s' → inv s'.
Proof.
  intros Hs Ht Hc E. pose proof (inv_fits s Hs t th Ht) as Hf. rewrite Hc in Hf.
  assert (locks k = locks (code th)) as Hl by by rewrite Hc.
  assert (code th ≠ []) as Hne by by rewrite Hc.
  pose proof (inv_tidy s Hs t th Ht) as [Htd Hj]. rewrite Hc in Htd. cbn in Htd.
  pose proof (fits_control t c k s Hf) as Hk.
  destruct c as [|x|m c|a b|a b|c|e f c|f a b|c|f b|t' c|c| | | |t']; cbn [step_cmd] in E; cbn [after] in Htd.
  - injection E as <-. by apply inv_goto.
  - destruct (stuck x); [done|]. injection E as <-. by apply inv_goto.
  - eapply inv_lock, E; [done..|by apply fits_lock].
  - injection E as <-. by apply inv_goto; [..|apply fits_seq| |].
  - injection E as <-. apply inv_goto; [done..|by apply fits_either|done|]. cbn [after_code]. eapply after_code_less, Htd.
    destruct (n =? 0)%nat; rewrite orb_true_iff; auto.
  - injection E as <-. destruct (n =? 0)%nat; (apply inv_goto; [done|done|done| |done|]).
    + done.
    + by eapply after_code_less, Htd; intros ->.
    + by apply fits_many.
    + cbn [after_code after]. eapply after_code_less, Htd. apply again.
  - assert (inv (goto t th k s)) as Hend.
    { apply inv_goto; [done..|]. by eapply after_code_less, Htd; intros ->. }
    destruct (bool_decide _); [destruct (n =? 0)%nat; [|destruct e; [|done]]|]; injection E as <-; [|done..].
    apply fits_while in Hf as [Hf _]. apply inv_goto; [done..|]. cbn [after_code after]. eapply after_code_less, Htd. apply again.
  - injection E as <-. apply inv_goto; [done..|by apply fits_if|done|]. cbn [after_code]. eapply after_code_less, Htd.
    destruct (bool_decide (f ∈ flags s)); rewrite orb_true_iff; auto.
  - eapply inv_lock, E; [done..|by apply fits_lock_peer].
  - injection E as <-. assert (t = Main) as -> by (destruct t; cbn in Hf; naive_solver). by apply inv_set.
  - destruct (threads s !! t') eqn:Ht'; [done|]. injection E as <-.
    assert (t = Main) as -> by (destruct t; cbn in Hf; naive_solver). by apply inv_start.
  - destruct (threads s !! Worker n) eqn:Ht'; [done|]. injection E as <-.
    destruct (fits_spawn t n c k s Hf) as [Hfine Hopen]. apply (inv_spawn (goto t th k s)); [by apply inv_goto| |done..].
    cbn. by rewrite lookup_insert_ne by congruence.
  - destruct (workers s !! n) as [w|] eqn:Hn; injection E as <-.
    + by apply inv_take_one.
    + apply inv_goto; try done. by eapply after_code_less, Htd.
  - injection E as <-. assert (t = Main) as -> by (destruct t; cbn in Hf; naive_solver). by apply inv_take_all.
  - destruct (taken th) as [|w ws] eqn:Hw; [injection E as <-; apply inv_goto; try done; by rewrite Hw|].
    destruct (finished w s) eqn:Hfin; [|done]. injection E as <-. eapply inv_calm; [done..|by eapply held_same| | |done|].
    + split; [done|]. intros _. by apply Hj.
    + intros w' Hw'. rewrite Hw. right. by right.
    + rewrite Hw. intros w' [Hw'|[->|Hw']%elem_of_cons] Hn; auto; congruence.
  - destruct (finished t' s) eqn:Hfin; [|done]. injection E as <-. apply inv_goto; [done..|by eapply fits_joined|done|done].
Qed.

Lemma thread_step_inv s s' : step stuck s s' → inv s → inv s'.
Proof.
  intros (t & n & E) Hs. unfold do_step in E. destruct (threads s !! t) as [th|] eqn:Ht; [|done]. cbn in E.
  destruct (code th) as [|[c|m] k] eqn:Hc; [done|by eapply step_cmd_inv|]. injection E as <-.
  pose proof (inv_fits s Hs t th Ht) as Hf. rewrite Hc in Hf. pose proof (fits_ordered _ _ _ Hf) as [Ha Ho].
  pose proof (inv_tidy s Hs t th Ht) as Htd. apply fits_release in Hf as [_ Hf].
  eapply inv_calm; [done..|by rewrite Hc|done| | |by right|done|by intros w [?|?]; auto].
  - eapply held_release; [done..|by apply ordered_above].
  - apply tidy_goto; [done|]. destruct Htd as [Htd _]. by rewrite Hc in Htd.
Qed.

Lemma thread_steps_inv s s' : rtc (step stuck) s s' → inv s → inv s'.
Proof. induction 1; eauto using thread_step_inv. Qed.
End preservation.

(** The beginning: the main thread alone, every flag false. *)
Definition init (c : cmd) : sys := mkSys ∅ ∅ [] {[Main := mkThread [Cmd c] []]}.

Definition at_first : facts :=
  mkFacts {[orchestrator_running; rpc_running; node_running; node_stopping; shutting_down; exited]}
    {[Mining; RpcAccept; NodeAccept; Cleaner; Ping; Connect]} ∅ false false.

(** The main thread's program keeps to the discipline from the beginning to the end. *)
Definition disciplined (c : cmd) : Prop :=
  after c false = false ∧ drives c None false at_first (λ F, live F = ∅ ∧ closed F = true).

Lemma inv_init c : disciplined c → inv (init c).
Proof.
  intros [Ha Hd]. unfold init.
  assert (∀ t th, ({[Main := mkThread [Cmd c] []]} : gmap tid thread) !! t = Some th → t = Main ∧ th = mkThread [Cmd c] []) as Hone.
  { intros t th [-> <-]%lookup_singleton_Some. done. }
  split; cbn.
  - by rewrite lookup_singleton_eq.
  - intros t th [-> ->]%Hone. exists at_first. split; [|exact Hd]. split; cbn [at_first off unstarted live stopped closed init flags threads]; try done.
    + set_solver.
    + intros t Ht. by destruct t; [set_solver| | | | | | |set_solver].
    + intros t Hfx. unfold finished. cbn. rewrite lookup_singleton_ne; [done|by intros <-].
  - intros m t. rewrite lookup_empty. split; [done|]. intros (th & [-> ->]%Hone & Hin). by apply not_elem_of_nil in Hin.
  - intros t th w [-> ->]%Hone Hw. by apply not_elem_of_nil in Hw.
  - intros w Hw. by apply not_elem_of_nil in Hw.
  - intros t th [-> ->]%Hone. by split.
  - intros w Hw. unfold finished. cbn. rewrite lookup_singleton_ne; [done|by intros <-].
Qed.

(** ** Running a thread *)

Section running.
(** Every call returns. *)
Context (stuck : syscall → bool) (Hstuck : ∀ x, stuck x = false).

#[local] Abbreviation steps := (rtc (step stuck)).

(** No lock above rank [r] is held. *)
Definition avail (r : option nat) (s : sys) : Prop := ∀ m, above r (rank m) → held s !! m = None.

(** Outside locks, a thread other than the main one runs when its flag was cleared. *)
Definition ready (t : tid) (r : option nat) (s : sys) : Prop := r = None → t ≠ Main → flag_of t ∉ flags s.

(** The other threads did nothing, except for those joined, which ran to their end. *)
Definition keeps (t : tid) (s s' : sys) : Prop :=
  ∀ t' th, t' ≠ t → threads s !! t' = Some th →
    ∃ th', threads s' !! t' = Some th' ∧ (th' = th ∨ (is_worker t' ∨ t = Main) ∧ code th' = []).

(** [t] can go on alone until [k] is left. *)
Definition reaches (t : tid) (k : list item) (s : sys) : Prop :=
  ∃ s' th', steps s s' ∧ threads s' !! t = Some th' ∧ code th' = k ∧ held s' = held s ∧
    (t ≠ Main → flags s' = flags s) ∧ keeps t s s'.

Lemma keeps_refl t s : keeps t s s.
Proof. intros t' th _ Ht. exists th. auto. Qed.

Lemma keeps_trans t s1 s2 s3 : keeps t s1 s2 → keeps t s2 s3 → keeps t s1 s3.
Proof.
  intros H1 H2 t' th Hne Ht. destruct (H1 t' th Hne Ht) as (th1 & Ht1 & Hc1).
  destruct (H2 t' th1 Hne Ht1) as (th2 & Ht2 & Hc2). exists th2. split; [done|].
  destruct Hc2 as [->|?]; [done|by right].
Qed.

(** The state the thread reaches with [k1] left leads on to [k2]. *)
Lemma reaches_trans t k1 k2 s :
  reaches t k1 s →
  (∀ s' th', steps s s' → threads s' !! t = Some th' → code th' = k1 → held s' = held s →
     (t ≠ Main → flags s' = flags s) → reaches t k2 s') →
  reaches t k2 s.
Proof.
  intros (s1 & th1 & Hs1 & Ht1 & Hc1 & Hh1 & Hf1 & Hk1) Hn.
  destruct (Hn s1 th1 Hs1 Ht1 Hc1 Hh1 Hf1) as (s2 & th2 & Hs2 & Ht2 & Hc2 & Hh2 & Hf2 & Hk2).
  exists s2, th2. split; [by etrans|]. split; [done|]. split; [done|]. split; [congruence|].
  split; [intros Hm; rewrite Hf2, Hf1; done|by eapply keeps_trans].
Qed.

(** One step that keeps the locks. *)
Lemma reaches_step t n th c k k' s s' th' :
  threads s !! t = Some th → code th = Cmd c :: k → step_cmd stuck t n th c k s = Some s' →
  threads s' !! t = Some th' → code th' = k' → held s' = held s → (t ≠ Main → flags s' = flags s) →
  (∀ t' th0, t' ≠ t → threads s !! t' = Some th0 → threads s' !! t' = Some th0) →
  reaches t k' s.
Proof.
  intros Ht Hc E Ht' Hk Hh Hf Ho. exists s', th'. split.
  { apply rtc_once. exists t, n. unfold do_step. rewrite Ht. cbn. by rewrite Hc. }
  do 4 (split; [done|]). intros t1 th1 Hne H1. exists th1. split; [by apply Ho|by left].
Qed.

Lemma reaches_goto t n th c k k' s :
  threads s !! t = Some th → code th = Cmd c :: k → step_cmd stuck t n th c k s = Some (goto t th k' s) →
  reaches t k' s.
Proof.
  intros Ht Hc E. eapply reaches_step; [done..| | | | |]; cbn; [apply lookup_insert_eq|done..|].
  intros t' th0 Hne H. by rewrite lookup_insert_ne.
Qed.

Lemma avail_held r s s' : held s' = held s → avail r s → avail r s'.
Proof. intros E Ha m. rewrite E. apply Ha. Qed.

Lemma avail_none s : avail None s ↔ held s = ∅.
Proof. split; [|intros E m _; rewrite E; apply lookup_empty]. intros Ha. apply map_eq. intros m. rewrite lookup_empty. by apply Ha. Qed.

Lemma ready_same t r s s' : (t ≠ Main → flags s' = flags s) → ready t r s → ready t r s'.
Proof. intros E Hr Hn Hm. rewrite E by done. by apply Hr. Qed.

(** How [t] gets past a join. *)
Definition can_join (t : tid) : Prop :=
  ∀ c s th k, (c = JoinTaken ∨ ∃ t', c = JoinIf t') → inv s → threads s !! t = Some th → code th = Cmd c :: k →
    held s = ∅ → ready t None s → reaches t k s.

Lemma fresh_worker (s : sys) : ∃ n, threads s !! Worker n = None.
Proof.
  set (X := set_omap (λ t, match t with Worker n => Some n | _ => None end) (dom (threads s)) : gset nat).
  exists (fresh X). apply not_elem_of_dom. intros Hin. apply (is_fresh X), elem_of_set_omap. by eexists.
Qed.

Lemma fits_top_none t c k s :
  fits t (Cmd c :: k) s → (c = JoinTaken ∨ ∃ t', c = JoinIf t') ∨ (∃ e f b, c = While e f b) → top k = None.
Proof. intros Hf Hc. destruct t; cbn in Hf; destruct Hc as [[->|[t' ->]]|(e & f & b & ->)]; cbn in Hf; naive_solver. Qed.

(** A lock, the code under it and its release. *)
Lemma reaches_lock t n th c' m c k s :
  inv s → threads s !! t = Some th → code th = Cmd c' :: k → held s !! m = None →
  step_cmd stuck t n th c' k s = lock_step t th m c k s →
  (∀ s' th', inv s' → threads s' !! t = Some th' → code th' = Cmd c :: Release m :: k →
     held s' = <[m := t]> (held s) → flags s' = flags s → reaches t (Release m :: k) s') →
  reaches t k s.
Proof.
  intros Hs Ht Hc Hm E Hbody. unfold lock_step in E. rewrite Hm in E.
  set (s1 := mkSys (flags s) (<[m := t]> (held s)) (workers s) (<[t := mkThread (Cmd c :: Release m :: k) (taken th)]> (threads s))).
  assert (step stuck s s1) as H1. { exists t, n. unfold do_step. rewrite Ht. cbn. by rewrite Hc. }
  destruct (Hbody s1 (mkThread (Cmd c :: Release m :: k) (taken th)))
    as (s2 & th2 & Hs2 & Ht2 & Hc2 & Hh2 & Hf2 & Hk2); cbn; [by eapply thread_step_inv|apply lookup_insert_eq|done..|].
  exists (mkSys (flags s2) (delete m (held s2)) (workers s2) (<[t := mkThread k (taken th2)]> (threads s2))), (mkThread k (taken th2)).
  split.
  { eapply rtc_l; [exact H1|]. eapply rtc_r; [exact Hs2|]. exists t, 0%nat. unfold do_step. rewrite Ht2. cbn. by rewrite Hc2. }
  cbn. split; [apply lookup_insert_eq|]. split; [done|]. split; [rewrite Hh2; by apply delete_insert_id|]. split; [done|].
  intros t' th' Hne Ht'. destruct (Hk2 t' th' Hne) as (th'' & E' & Hx); [by cbn; rewrite lookup_insert_ne|].
  exists th''. cbn. by rewrite lookup_insert_ne.
Qed.

Lemma avail_lock r m t s s' : avail r s → above r (rank m) → held s' = <[m := t]> (held s) → avail (Some (rank m)) s'.
Proof.
  intros Ha Hm E m' Hm'. cbn in Hm'. rewrite E, lookup_insert_ne by (intros ->; lia). apply Ha.
  destruct r; cbn in *; [lia|done].
Qed.

Ltac by_goto n := eapply (reaches_goto _ n); [done..|cbn].

(** A thread gets through a command: loops over data end at once, and those that test a flag
    find it cleared. *)
Lemma drive c t s th k :
  can_join t → inv s → threads s !! t = Some th → code th = Cmd c :: k → avail (top k) s → ready t (top k) s → reaches t k s.
Proof.
  intros HJ. revert s th k.
  induction c as [|x|m c IH|a IHa b IHb|a IHa b IHb|c _|e f c _|f a IHa b IHb|c IH|f b|t' c _|c _| | | |t'];
    intros s th k Hs Ht Hc Hav Hr; pose proof (inv_fits s Hs t th Ht) as Hf; rewrite Hc in Hf.
  - by by_goto 0%nat.
  - by_goto 0%nat. by rewrite Hstuck.
  - assert (above (top k) (rank m)) as Hm by (apply fits_lock, fits_ordered in Hf; apply Hf).
    eapply (reaches_lock t 0%nat); [done..|by apply Hav|done|]. intros s' th' Hs' Ht' Hc' Hh' Hf'.
    eapply IH; [done..|by eapply avail_lock|done].
  - eapply reaches_trans; [by by_goto 0%nat|]. intros s1 th1 H1 Ht1 Hc1 Hh1 Hf1. apply (thread_steps_inv stuck) in H1; [|done].
    eapply reaches_trans; [eapply IHa; [done..|by eapply avail_held|by eapply ready_same]|].
    intros s2 th2 H2 Ht2 Hc2 Hh2 Hf2. apply (thread_steps_inv stuck) in H2; [|done].
    eapply IHb; [done..|by eapply avail_held, avail_held|by do 2 (eapply ready_same; [done|])].
  - eapply reaches_trans; [by by_goto 0%nat|]. intros s1 th1 H1 Ht1 Hc1 Hh1 Hf1. apply (thread_steps_inv stuck) in H1; [|done].
    eapply IHa; [done..|by eapply avail_held|by eapply ready_same].
  - by by_goto 0%nat.
  - by_goto 0%nat. pose proof (fits_while _ _ _ _ _ _ Hf) as (_ & -> & Hm).
    pose proof (fits_top_none _ _ _ _ Hf) as Hn. rewrite bool_decide_eq_false_2; [done|]. apply Hr; [|done].
    apply Hn. right. by repeat eexists.
  - eapply reaches_trans; [by by_goto 0%nat|]. intros s1 th1 H1 Ht1 Hc1 Hh1 Hf1. apply (thread_steps_inv stuck) in H1; [|done].
    case_bool_decide; [eapply IHa|eapply IHb]; try done; solve [by eapply avail_held|by eapply ready_same].
  - assert (above (top k) 3) as Hm by (apply (fits_lock_peer t 0), fits_ordered in Hf; apply Hf).
    eapply (reaches_lock t 0%nat _ _ (write_mutex 0)); [done..|by apply Hav|done|]. intros s' th' Hs' Ht' Hc' Hh' Hf'.
    eapply IH; [done..|by eapply avail_lock|done].
  - assert (t = Main) as -> by (destruct t; cbn in Hf; naive_solver). eapply (reaches_step _ 0%nat); [done|done|done|apply lookup_insert_eq|done|done|done|]; cbn.
    intros t' th0 Hne H. by rewrite lookup_insert_ne.
  - assert (t = Main) as -> by (destruct t; cbn in Hf; naive_solver). destruct Hf as (F & HF & _ & Hn & _).
    apply (true_unstarted F s HF), not_elem_of_dom in Hn.
    assert (Main ≠ t') as Hne by (intros <-; simplify_eq).
    eapply (reaches_step _ 0%nat); [done|done|cbn; by rewrite Hn|cbn; rewrite lookup_insert_ne by done; apply lookup_insert_eq|done|done|done|cbn].
    intros t1 th1 Hne1 H1. rewrite !lookup_insert_ne by congruence. done.
  - destruct (fresh_worker s) as [n Hn]. assert (t ≠ Worker n) as Hne by (intros ->; simplify_eq).
    eapply (reaches_step _ n); [done|done|cbn; by rewrite Hn|cbn; rewrite lookup_insert_ne by done; apply lookup_insert_eq|done|done|done|cbn].
    intros t1 th1 Hne1 H1. rewrite !lookup_insert_ne by congruence. done.
  - by_goto (length (workers s)). by rewrite (proj2 (lookup_ge_None _ _)).
  - eapply (reaches_step _ 0%nat); [done|done|done|apply lookup_insert_eq|done|done|done|]; cbn.
    intros t1 th1 Hne1 H1. by rewrite lookup_insert_ne.
  - assert (top k = None) as Hn by (eapply fits_top_none; eauto). rewrite Hn in *. apply avail_none in Hav.
    by apply (HJ JoinTaken s th k); [left|..].
  - assert (top k = None) as Hn by (eapply fits_top_none; eauto). rewrite Hn in *. apply avail_none in Hav.
    by apply (HJ (JoinIf t') s th k); [right; eexists|..].
Qed.

Lemma locks_free s t th : inv s → held s = ∅ → threads s !! t = Some th → locks (code th) = [].
Proof.
  intros Hs He Ht. destruct (locks (code th)) as [|m l] eqn:E; [done|].
  assert (held s !! m = Some t) as Hm; [|by rewrite He, lookup_empty in Hm].
  apply (inv_held s Hs). exists th. rewrite E. split; [done|left].
Qed.

Lemma locks_top k : locks k = [] → top k = None.
Proof. induction k as [|[c|m] k IH]; cbn; auto; done. Qed.

(** With no lock held, a thread whose flag is cleared runs to its end. *)
Lemma finish t s th :
  can_join t → inv s → held s = ∅ → ready t None s → threads s !! t = Some th → reaches t [] s.
Proof.
  intros HJ. remember (code th) as k eqn:Ek. revert s th Ek. induction k as [|[c|m] k IH]; intros s th Ek Hs He Hr Ht.
  - exists s, th. repeat split; [apply rtc_refl|done..|apply keeps_refl].
  - pose proof (locks_free s t th Hs He Ht) as Hl. rewrite <- Ek in Hl. cbn in Hl. apply locks_top in Hl.
    eapply (reaches_trans t k); [eapply drive; eauto; rewrite Hl; [by apply avail_none|done]|].
    intros s' th' H1 Ht' Hc' Hh' Hf'. eapply IH; eauto; [by eapply thread_steps_inv|congruence|by eapply ready_same].
  - pose proof (locks_free s t th Hs He Ht) as Hl. by rewrite <- Ek in Hl.
Qed.

Lemma worker_joins w : is_worker w → can_join w.
Proof.
  intros Hw c s th k Hc Hs Ht Hk. exfalso. pose proof (inv_fits s Hs w th Ht) as Hf. rewrite Hk in Hf.
  destruct w; cbn in Hf; try done. destruct Hc as [->|[t' ->]]; cbn in Hf; naive_solver.
Qed.

(** A thread runs to its end while [t] waits for it. *)
Lemma finish_for s t th w :
  can_join w → inv s → held s = ∅ → w ≠ Main → flag_of w ∉ flags s → is_Some (threads s !! w) →
  threads s !! t = Some th → t ≠ w → ¬ is_worker t → is_worker w ∨ t = Main →
  ∃ s', steps s s' ∧ finished w s' = true ∧ held s' = held s ∧ flags s' = flags s ∧ threads s' !! t = Some th ∧ keeps t s s'.
Proof.
  intros HJ Hs He Hm Hf [thw Hw] Ht Hne Hnw Hor.
  destruct (finish w s thw) as (s' & th' & H1 & Hw' & Hc & Hh & Hfl & Hk); [done|done|done|by intros _ _|done|].
  exists s'. split; [done|]. split; [unfold finished; rewrite Hw', Hc; by apply bool_decide_eq_true_2|].
  split; [done|]. split; [by apply Hfl|]. split; [destruct (Hk t th Hne Ht) as (? & E & [->|[[?|?] _]]); done|].
  intros t' th0 Hne' Ht'. destruct (decide (t' = w)) as [->|Hnew]; [exists th'; auto|].
  destruct (Hk t' th0 Hnew Ht') as (th1 & E & [->|[[?|?] ?]]); [exists th0; auto|exists th1; auto|done].
Qed.

(** [t] steps past a join in the state reached. *)
Lemma reaches_after t th n c k k' tk s s1 :
  steps s s1 → threads s1 !! t = Some th → held s1 = held s → flags s1 = flags s → keeps t s s1 →
  code th = Cmd c :: k → step_cmd stuck t n th c k s1 = Some (set_thread t (mkThread k' tk) s1) →
  (∀ s', steps s s' → threads s' !! t = Some (mkThread k' tk) → held s' = held s → flags s' = flags s → reaches t k s') →
  reaches t k s.
Proof.
  intros H1 Ht Hh Hf Hk Hc E Hn. set (s2 := set_thread t (mkThread k' tk) s1).
  assert (steps s s2) as H2. { eapply rtc_r; [exact H1|]. exists t, n. unfold do_step. rewrite Ht. cbn. by rewrite Hc. }
  destruct (Hn s2) as (s3 & th3 & H3 & Ht3 & Hc3 & Hh3 & Hf3 & Hk3); [done|apply lookup_insert_eq|done..|].
  exists s3, th3. split; [by etrans|]. do 2 (split; [done|]). split; [by rewrite Hh3|].
  split; [intros Hm; by rewrite Hf3|]. eapply keeps_trans; [exact Hk|]. eapply keeps_trans, Hk3.
  intros t' th' Hne Ht'. exists th'. cbn. rewrite lookup_insert_ne by done. auto.
Qed.

Lemma join_taken t s th k :
  inv s → held s = ∅ → node_running ∉ flags s → ¬ is_worker t →
  threads s !! t = Some th → code th = Cmd JoinTaken :: k → reaches t k s.
Proof.
  intros Hs He Hn Hw. remember (taken th) as l eqn:El. revert s th El Hs He Hn.
  induction l as [|w l IH]; intros s th El Hs He Hn Ht Hc.
  - by_goto 0%nat. by rewrite <- El.
  - destruct (inv_taken s Hs t th w) as [Hww Hin]; [done|rewrite <- El; left|].
    destruct (finish_for s t th w) as (s1 & H1 & Hfin & Hh1 & Hf1 & Ht1 & Hk1); try done;
      [by apply worker_joins|by destruct w|by destruct w|by intros ->|by left|].
    eapply (reaches_after t th 0%nat); [done..|cbn; by rewrite <- El, Hfin|]. intros s2 H2 Ht2 Hh2 Hf2.
    eapply IH; [|by eapply thread_steps_inv|congruence|by rewrite Hf2|exact Ht2|done]. done.
Qed.

Lemma cleaner_joins t : fixed t → can_join t.
Proof.
  intros Ht c s th k Hc Hs Hth Hk He Hr. pose proof (inv_fits s Hs t th Hth) as Hf. rewrite Hk in Hf.
  destruct Hc as [->|[t' ->]]; [|destruct t; cbn in Hf; naive_solver].
  eapply join_taken; [done..| | |exact Hth|done]; destruct t; cbn in *; try naive_solver. by apply Hr.
Qed.

Lemma main_joins : can_join Main.
Proof.
  intros c s th k Hc Hs Hth Hk He _. pose proof (inv_fits s Hs Main th Hth) as Hf. rewrite Hk in Hf.
  destruct Hf as (F & HF & Hd). apply true_off in HF. destruct Hc as [->|[t' ->]]; cbn in Hd.
  - eapply join_taken; [done|done|set_solver|auto|exact Hth|done].
  - destruct Hd as (_ & Hfx & Hfl & _). assert (t' ≠ Main ∧ ¬ is_worker t') as [Hm Hw] by (destruct t'; cbn in *; split; auto; done).
    destruct (threads s !! t') as [th'|] eqn:Ht'; [|by_goto 0%nat; unfold finished; by rewrite Ht'].
    destruct (finish_for s Main th t') as (s1 & H1 & Hfin & Hh1 & Hf1 & Ht1 & Hk1);
      [by apply cleaner_joins|done..|set_solver|by eexists|done|done|by intros []|by right|].
    eapply (reaches_after Main th 0%nat); [done..|cbn; by rewrite Hfin|]. intros s2 H2 Ht2 Hh2 Hf2.
    exists s2, (mkThread k (taken th)). repeat split; [apply rtc_refl|done..|apply keeps_refl].
Qed.

Lemma any_joins t : can_join t.
Proof. destruct t; [apply main_joins|by apply cleaner_joins..|by apply worker_joins]. Qed.

(** ** Giving back the locks *)

(** A thread in a critical section leaves it, when no lock above its own is held. *)
Lemma leave_section t s th r :
  inv s → threads s !! t = Some th → top (code th) = Some r → avail (Some r) s →
  ∃ s' m, steps s s' ∧ held s !! m = Some t ∧ held s' = delete m (held s).
Proof.
  remember (code th) as k eqn:Ek. revert s th Ek. induction k as [|[c|m] k IH]; intros s th Ek Hs Ht Htop Ha; cbn in Htop; [done| |].
  - destruct (drive c t s th k) as (s1 & th1 & H1 & Ht1 & Hc1 & Hh1 & _); try done; [by apply any_joins|by rewrite Htop|by rewrite Htop|].
    destruct (IH s1 th1) as (s2 & m & H2 & Hm & Hh2); try done; [by eapply thread_steps_inv|by eapply avail_held|].
    exists s2, m. split; [by etrans|]. by rewrite Hh2, <- Hh1.
  - exists (mkSys (flags s) (delete m (held s)) (workers s) (<[t := mkThread k (taken th)]> (threads s))), m.
    split; [|split; [|done]].
    + apply rtc_once. exists t, 0%nat. unfold do_step. rewrite Ht. cbn. by rewrite <- Ek.
    + apply (inv_held s Hs). exists th. rewrite <- Ek. split; [done|left].
Qed.

(** The lock of highest rank. *)
Lemma highest_lock (h : gmap mutex tid) : h ≠ ∅ → ∃ m t, h !! m = Some t ∧ ∀ m', (rank m < rank m')%nat → h !! m' = None.
Proof.
  induction h as [|m t h Hm IH] using map_ind; [done|]. intros _.
  destruct (decide (h = ∅)) as [->|Hne].
  - exists m, t. split; [apply lookup_insert_eq|]. intros m' Hr. rewrite lookup_insert_ne; [apply lookup_empty|intros ->; lia].
  - destruct (IH Hne) as (m1 & t1 & H1 & Hmax). destruct (decide (rank m1 < rank m)%nat).
    + exists m, t. split; [apply lookup_insert_eq|]. intros m' Hr. rewrite lookup_insert_ne by (intros ->; lia). apply Hmax. lia.
    + exists m1, t1. split; [rewrite lookup_insert_ne by congruence; done|]. intros m' Hr.
      rewrite lookup_insert_ne by (intros ->; lia). by apply Hmax.
Qed.

Lemma release_all s : inv s → ∃ s', steps s s' ∧ held s' = ∅.
Proof.
  remember (size (held s)) as n eqn:En. revert s En. induction (lt_wf n) as [n _ IH]. intros s -> Hs.
  destruct (decide (held s = ∅)) as [He|Hne]; [exists s; split; [apply rtc_refl|done]|].
  destruct (highest_lock _ Hne) as (m & t & Hm & Hmax). pose proof Hm as Hl. apply (inv_held s Hs) in Hl as (th & Ht & Hin).
  destruct (ordered_rank (code th) m) as (r & Hr & Hle); [eapply fits_ordered; by apply Hs|done|].
  destruct (leave_section t s th r) as (s1 & m1 & H1 & Hm1 & Hh1); [done..| |].
  { intros m' Hm'. apply Hmax. cbn in Hm'. lia. }
  destruct (IH (size (held s1))) with (s := s1) as (s2 & H2 & He2); [|done|by eapply thread_steps_inv|exists s2; split; [by etrans|done]].
  rewrite Hh1, map_size_delete_Some by by eexists. 
  assert (size (held s) ≠ 0%nat) by (intros E; by apply map_size_empty_inv in E). lia.
Qed.

(** From any state of a disciplined system the main thread can come to its end: no thread
    ever waits for a lock or a join that cannot come. *)
Theorem can_finish s : inv s → ∃ s', steps s s' ∧ finished Main s' = true.
Proof.
  intros Hs. destruct (release_all s Hs) as (s1 & H1 & He). assert (inv s1) as Hs1 by by eapply thread_steps_inv.
  destruct (inv_main s1 Hs1) as [th Ht]. destruct (finish Main s1 th) as (s2 & th2 & H2 & Ht2 & Hc2 & _); try done; [apply main_joins|by intros _ []|].
  exists s2. split; [by etrans|]. unfold finished. rewrite Ht2, Hc2. by apply bool_decide_eq_true_2.
Qed.
End running.

(** ** The end *)

(** When the main thread has come to its end so has every thread, and every worker was joined. *)
Lemma nothing_left s : inv s → finished Main s = true → workers s = [] ∧ ∀ t, finished t s = true.
Proof.
  intros Hs Hm. destruct (inv_main s Hs) as [thm Htm]. pose proof (inv_fits s Hs Main thm Htm) as Hf.
  unfold finished in Hm. rewrite Htm in Hm. apply bool_decide_eq_true in Hm. rewrite Hm in Hf.
  destruct Hf as (F & HF & Hlive & Hclosed). destruct (true_closed F s HF Hclosed) as [_ Hw]. split; [done|].
  assert (∀ t, fixed t → finished t s = true) as Hfix.
  { intros t Ht. destruct (finished t s) eqn:E; [done|]. pose proof (true_live F s HF t Ht E). set_solver. }
  assert (∀ t th, threads s !! t = Some th → code th = [] → taken th = []) as Hnil.
  { intros t th Ht Hc. destruct (inv_tidy s Hs t th Ht) as [Ha _]. rewrite Hc in Ha. cbn in Ha.
    apply bool_decide_eq_false in Ha. by destruct (taken th); [|exfalso; apply Ha]. }
  assert (∀ t th, threads s !! t = Some th → taken th = []) as Htaken.
  { intros t th Ht. destruct (decide (taken th = [])) as [|Hne]; [done|]. apply (Hnil t th Ht).
    pose proof (proj2 (inv_tidy s Hs t th Ht) Hne) as Hj. destruct t; cbn in Hj; try done; [by simplify_eq|].
    specialize (Hfix Cleaner I). unfold finished in Hfix. rewrite Ht in Hfix. by apply bool_decide_eq_true in Hfix. }
  intros t. destruct t as [| | | | | | |n]; try by apply Hfix.
  - unfold finished. rewrite Htm. by apply bool_decide_eq_true_2.
  - destruct (finished (Worker n) s) eqn:E; [done|]. destruct (inv_owned s Hs (Worker n) I E) as [Hin|(t' & th' & Ht' & Hin)].
    + rewrite Hw in Hin. by apply not_elem_of_nil in Hin.
    + rewrite (Htaken t' th' Ht') in Hin. by apply not_elem_of_nil in Hin.
Qed.

(** ** Waiting for ever *)

(** Every way through a command meets one that [p] holds of. *)
Fixpoint must (p : cmd → bool) (c : cmd) : bool :=
  p c ||
  match c with
  | Lock _ c | LockPeer c => must p c
  | Seq a b => must p a || must p b
  | Either a b | If _ a b => must p a && must p b
  | _ => false
  end.

Definition must_item (p : cmd → bool) (i : item) : bool := match i with Cmd c => must p c | Release _ => false end.

Section waiting.
Context (stuck : syscall → bool).

(** A step of a thread leaves the others alone. *)
Lemma others_stay s s' t n t' th' :
  do_step stuck t n s = Some s' → t' ≠ t → threads s !! t' = Some th' → threads s' !! t' = Some th'.
Proof.
  intros E Hne Ht'. unfold do_step in E. destruct (threads s !! t) as [th|] eqn:Ht; [|done]. cbn in E.
  destruct (code th) as [|[c|m] k]; [done| |injection E as <-; cbn; by rewrite lookup_insert_ne].
  destruct c; cbn in E; unfold lock_step in E; repeat case_match; simplify_eq; cbn; rewrite ?lookup_insert_ne by congruence; done.
Qed.

(** A thread in a call that never returns stays there. *)
Definition sits (t : tid) (s : sys) : Prop :=
  ∃ th x k, threads s !! t = Some th ∧ code th = Cmd (Sys x) :: k ∧ stuck x = true.

Lemma sits_step t s s' : step stuck s s' → sits t s → sits t s'.
Proof.
  intros (t' & n & E) (th & x & k & Ht & Hc & Hx). exists th, x, k. split; [|done].
  destruct (decide (t = t')) as [<-|Hne]; [|by eapply others_stay]. unfold do_step in E. rewrite Ht in E. cbn in E.
  rewrite Hc in E. cbn in E. by rewrite Hx in E.
Qed.

Lemma sits_steps t s s' : rtc (step stuck) s s' → sits t s → sits t s'.
Proof. induction 1; eauto using sits_step. Qed.

Lemma sits_unfinished t s : sits t s → finished t s = false.
Proof. intros (th & x & k & Ht & Hc & _). unfold finished. rewrite Ht, Hc. by apply bool_decide_eq_false_2. Qed.

(** [t] has to pass a command that [p] holds of, before it gives back the lock [om] and before
    it comes to [k0]. *)
Definition pending (p : cmd → bool) (om : option mutex) (k0 : list item) (t : tid) (s : sys) : Prop :=
  ∃ th k1, threads s !! t = Some th ∧ code th = k1 ++ k0 ∧ existsb (must_item p) k1 = true ∧
    (∀ m, om = Some m → m ∉ locks k1).

Lemma pending_unfinished p om k0 t s : pending p om k0 t s → finished t s = false.
Proof.
  intros (th & k1 & Ht & Hc & He & _). unfold finished. rewrite Ht, Hc. apply bool_decide_eq_false_2. by destruct k1.
Qed.

Lemma pending_goto p om t tk k1 k0 s' :
  threads s' !! t = Some (mkThread (k1 ++ k0) tk) → existsb (must_item p) k1 = true →
  (∀ m, om = Some m → m ∉ locks k1) → pending p om k0 t s'.
Proof. intros Ht He Hm. by exists (mkThread (k1 ++ k0) tk), k1. Qed.

(** A step of [t] itself, when it cannot take the commands of [p] nor the lock. *)
Lemma pending_self p om t n th c k1 k0 s s' :
  threads s !! t = Some th → code th = Cmd c :: k1 ++ k0 → existsb (must_item p) (Cmd c :: k1) = true →
  (∀ m, om = Some m → m ∉ locks k1) → (∀ m, om = Some m → is_Some (held s !! m)) →
  p c = false → step_cmd stuck t n th c (k1 ++ k0) s = Some s' → pending p om k0 t s'.
Proof.
  intros Ht Hc He Hm Hh Hp E. cbn [existsb must_item] in He.
  assert (∀ m c', lock_step t th m c' (k1 ++ k0) s = Some s' → must p c' || existsb (must_item p) k1 = true → pending p om k0 t s') as Hlock.
  { intros m c' E' He'. unfold lock_step in E'. destruct (held s !! m) eqn:Hm'; [done|]. injection E' as <-.
    apply (pending_goto p om t (taken th) (Cmd c' :: Release m :: k1) k0); cbn; [apply lookup_insert_eq|done|].
    intros m' ->. specialize (Hh m' eq_refl). rewrite not_elem_of_cons. split; [intros ->; rewrite Hm' in Hh; by destruct Hh|by apply Hm]. }
  assert (∀ k tk s1, threads s1 !! t = Some (mkThread (k ++ k0) tk) → existsb (must_item p) k = true → locks k = locks k1 →
    pending p om k0 t s1) as Hgo.
  { intros k tk s1 Ht1 Hk Hl. apply (pending_goto p om t tk k k0); [done..|by rewrite Hl]. }
  destruct c as [|x|m c|a b|a b|c|e f c|f a b|c|f b|t' c|c| | | |t']; cbn [must] in He; rewrite Hp in He; cbn in He, E;
    try (by eapply Hlock).
  - injection E as <-. eapply (Hgo k1); [apply lookup_insert_eq|done..].
  - destruct (stuck x); [done|]. injection E as <-. eapply (Hgo k1); [apply lookup_insert_eq|done..].
  - injection E as <-. eapply (Hgo (Cmd a :: Cmd b :: k1)); [apply lookup_insert_eq| |done]. cbn. by rewrite orb_assoc.
  - injection E as <-. eapply (Hgo (Cmd (if (n =? 0)%nat then a else b) :: k1)); [apply lookup_insert_eq| |done]. cbn.
    apply orb_true_iff in He as [[Ha Hb]%andb_true_iff|He]; [|rewrite He; apply orb_true_r].
    destruct (n =? 0)%nat; [by rewrite Ha|by rewrite Hb].
  - injection E as <-. destruct (n =? 0)%nat; [eapply (Hgo k1)|eapply (Hgo (Cmd c :: Cmd (Many c) :: k1))];
      [apply lookup_insert_eq|done|done|apply lookup_insert_eq| |done]. cbn. rewrite He. by rewrite !orb_true_r.
  - destruct (bool_decide (f ∈ flags s)); [destruct (n =? 0)%nat; [|destruct e; [|done]]|]; injection E as <-;
      [eapply (Hgo (Cmd c :: Cmd (While e f c) :: k1))|eapply (Hgo k1)..]; try apply lookup_insert_eq; try done.
    cbn. rewrite He. by rewrite !orb_true_r.
  - injection E as <-. eapply (Hgo (Cmd (if bool_decide (f ∈ flags s) then a else b) :: k1)); [apply lookup_insert_eq| |done]. cbn.
    apply orb_true_iff in He as [[Ha Hb]%andb_true_iff|He]; [|rewrite He; apply orb_true_r].
    case_bool_decide; [by rewrite Ha|by rewrite Hb].
  - injection E as <-. eapply (Hgo k1); [apply lookup_insert_eq|done..].
  - destruct (threads s !! t') eqn:Ht'; [done|]. injection E as <-. eapply (Hgo k1); [|done..]. cbn.
    rewrite lookup_insert_ne by congruence. apply lookup_insert_eq.
  - destruct (threads s !! Worker n) eqn:Ht'; [done|]. injection E as <-. eapply (Hgo k1); [|done..]. cbn.
    rewrite lookup_insert_ne by congruence. apply lookup_insert_eq.
  - destruct (workers s !! n); injection E as <-; (eapply (Hgo k1); [apply lookup_insert_eq|done..]).
  - injection E as <-. eapply (Hgo k1); [apply lookup_insert_eq|done..].
  - destruct (taken th); [injection E as <-; eapply (Hgo k1); [apply lookup_insert_eq|done..]|].
    destruct (finished _ s); [|done]. injection E as <-. eapply (Hgo (Cmd JoinTaken :: k1)); [apply lookup_insert_eq| |done].
    cbn. rewrite He. by rewrite orb_true_r.
  - destruct (finished t' s); [|done]. injection E as <-. eapply (Hgo k1); [apply lookup_insert_eq|done..].
Qed.

Lemma pending_step p om k0 t s s' :
  (∀ n th c k, threads s !! t = Some th → code th = Cmd c :: k → p c = true → step_cmd stuck t n th c k s = None) →
  (∀ m, om = Some m → is_Some (held s !! m)) →
  step stuck s s' → pending p om k0 t s → pending p om k0 t s'.
Proof.
  intros Hp Hh (t' & n & E) (th & k1 & Ht & Hc & He & Hm).
  destruct (decide (t = t')) as [<-|Hne]; [|exists th, k1; split; [by eapply others_stay|done]].
  unfold do_step in E. rewrite Ht in E. cbn in E. destruct k1 as [|i k1]; [done|]. rewrite Hc in E. cbn [app] in E, Hc.
  destruct i as [c|m].
  - destruct (p c) eqn:Epc; [by rewrite (Hp n th c (k1 ++ k0)) in E|]. by eapply pending_self.
  - injection E as <-. apply (pending_goto p om t (taken th) k1 k0); cbn; [apply lookup_insert_eq|done|].
    intros m' E'. specialize (Hm m' E'). cbn in Hm. by apply not_elem_of_cons in Hm as [_ ?].
Qed.

Definition joins_thread (t : tid) (c : cmd) : bool := match c with JoinIf t' => bool_decide (t' = t) | _ => false end.
Definition locks_mutex (m : mutex) (c : cmd) : bool := match c with Lock m' _ => bool_decide (m' = m) | _ => false end.

(** A thread that has to join itself never gets past that. *)
Lemma waits_for_itself k0 t s s' :
  rtc (step stuck) s s' → pending (joins_thread t) None k0 t s → pending (joins_thread t) None k0 t s'.
Proof.
  induction 1 as [s|s s1 s2 H1 H2 IH]; intros Hp; [done|].
  apply IH. eapply pending_step; [|done|exact H1|exact Hp].
  intros n th c k Ht Hc Hj. destruct c; try done. cbn in Hj. apply bool_decide_eq_true in Hj as ->. cbn.
  pose proof (pending_unfinished _ _ _ _ _ Hp) as Hf. by rewrite Hf.
Qed.

(** A lock stays with its holder until the holder releases it. *)
Lemma held_stays s s' t n th m t0 :
  do_step stuck t n s = Some s' → threads s !! t = Some th → held s !! m = Some t0 → head (code th) ≠ Some (Release m) →
  held s' !! m = Some t0.
Proof.
  intros E Ht Hm Hh. unfold do_step in E. rewrite Ht in E. cbn in E. destruct (code th) as [|[c|m'] k]; [done| |].
  - destruct c; cbn in E; unfold lock_step in E; repeat case_match; simplify_eq; cbn; rewrite ?lookup_insert_ne by congruence; done.
  - injection E as <-. cbn. rewrite lookup_delete_ne; [done|]. intros ->. by apply Hh.
Qed.

(** A thread that does not have a lock, which is held, does not get it. *)
Lemma lock_not_gained s s' t n th m t1 th1 :
  do_step stuck t n s = Some s' → threads s !! t = Some th → is_Some (held s !! m) → threads s' !! t1 = Some th1 →
  (∀ th0, threads s !! t1 = Some th0 → m ∉ locks (code th0)) → m ∉ locks (code th1).
Proof.
  intros E Ht [t0 Hm] Ht1 Hno. destruct (decide (t1 = t)) as [->|Hne].
  - specialize (Hno th Ht). unfold do_step in E. rewrite Ht in E. cbn in E. destruct (code th) as [|[c|m'] k] eqn:Hc; [done| |].
    + cbn in Hno. destruct c; cbn in E; unfold lock_step in E; repeat case_match; simplify_eq; cbn in Ht1;
        rewrite ?lookup_insert_eq in Ht1; rewrite ?lookup_insert_ne, ?lookup_insert_eq in Ht1 by congruence; simplify_eq; cbn; try done;
        (rewrite not_elem_of_cons; split; [congruence|done]).
    + injection E as <-. cbn in Ht1, Hno. rewrite lookup_insert_eq in Ht1. injection Ht1 as <-. cbn. by apply not_elem_of_cons in Hno as [_ ?].
  - destruct (threads s !! t1) as [th0|] eqn:Ht0.
    + rewrite (others_stay _ _ _ _ _ _ E Hne Ht0) in Ht1. injection Ht1 as <-. by apply Hno.
    + unfold do_step in E. rewrite Ht in E. cbn in E. destruct (code th) as [|[c|m'] k] eqn:Hc; [done| |];
        [destruct c; cbn in E; unfold lock_step in E; repeat case_match; simplify_eq; cbn in Ht1|injection E as <-; cbn in Ht1];
        rewrite ?lookup_insert_Some in Ht1; repeat (destruct_or?; destruct_and?); simplify_eq; apply not_elem_of_nil.
Qed.

(** Nor does a thread that has to take a lock it holds. *)
Lemma waits_for_lock k0 t m s s' :
  rtc (step stuck) s s' → held s !! m = Some t →
  (∀ t' th', t' ≠ t → threads s !! t' = Some th' → m ∉ locks (code th')) →
  pending (locks_mutex m) (Some m) k0 t s → pending (locks_mutex m) (Some m) k0 t s'.
Proof.
  induction 1 as [s|s s1 s2 H1 H2 IH]; intros Hm Ho Hp; [done|]. pose proof H1 as (t' & n & E).
  destruct (threads s !! t') as [th'|] eqn:Ht'; [|by unfold do_step in E; rewrite Ht' in E].
  assert (head (code th') ≠ Some (Release m)) as Hhd.
  { intros Eh. destruct (decide (t' = t)) as [->|Hne].
    - destruct Hp as (th & k1 & Ht & Hc & He & Hk). simplify_eq. rewrite Hc in Eh. destruct k1 as [|i k1]; [done|].
      cbn in Eh. injection Eh as ->. apply (Hk m eq_refl). left.
    - apply (Ho t' th' Hne Ht'). destruct (code th') as [|i k]; [done|]. injection Eh as ->. left. }
  apply IH.
  - by eapply held_stays.
  - intros t1 th1 Hne Ht1. eapply lock_not_gained; [exact E|done|by eexists|done|]. intros th0 Ht0. by apply (Ho t1).
  - eapply pending_step; [|intros m' [= <-]; by eexists|exact H1|exact Hp].
    intros k th c k' Ht Hc Hj. destruct c; try done. cbn in Hj. apply bool_decide_eq_true in Hj as ->. cbn. unfold lock_step. by rewrite Hm.
Qed.
End waiting.
End Th.
