(* ===== verification/Shutdown.v ===== *)
(** * Locks, threads and shutdown of the node

    What the functions of Node.cpp, RpcServer.cpp, Orchestrator.cpp and main.cpp lock, start,
    join and wait for, in the language of Threads.v: one definition per function, with its
    locks in their scopes and its calls in their order. What a function computes is in the
    other files; here a condition on data is a choice ([Either]), a loop over data a [Many].
    An early return is the end of its branch; where the code after an inner scope depends on
    what happened in it, the choice is repeated.

    The main thread's whole life is [main]: the constructor, [start], the command loop and
    the destructors. [main_disciplined] shows that it keeps the discipline of Threads.v, from
    which follow that the process can always shut down when its calls return, and that it
    leaves no thread behind. Two scenarios show what the code does not survive: a client that
    stays silent, and a signal at the wrong moment. *)

From S2P Require Import Prelude Threads.

Module Sd.
Declare Scope cmd_scope.
Delimit Scope cmd_scope with cmd.
Notation "a ;> b" := (Seq a b) (at level 63, right associativity, only parsing) : cmd_scope.
Notation "a <|> b" := (Either a b) (at level 64, right associativity, only parsing) : cmd_scope.
#[local] Open Scope cmd_scope.

(** ** The chain manager, the address book, the log *)

(** The functions of the chain manager that only hold [chain_mutex_]. *)
Definition chain_op : cmd := Lock chain_mutex Skip.
Definition handle_fork_candidate : cmd := Lock orphan_mutex Skip.
Definition chain_submit_block : cmd := Skip <|> Lock chain_mutex (Skip <|> handle_fork_candidate).
Definition find_block : cmd := Lock chain_mutex Skip;> (Skip <|> Lock orphan_mutex Skip).
Definition book_op : cmd := Lock book_mutex Skip.
Definition log : cmd := Lock log_mutex Skip.

(** ** The node *)

Definition send_msg : cmd := LockPeer (Sys sys_send_peer).
(** Collect peers from the list. *)
Definition scan_peers : cmd := Lock peers_mutex Skip.
Definition broadcast_inv : cmd := scan_peers;> Many send_msg.
Definition handle_inv : cmd := Many (chain_op <|> Skip);> (Skip <|> send_msg).
Definition handle_getdata : cmd := Many ((find_block;> (Skip <|> send_msg)) <|> (chain_op;> (Skip <|> send_msg))).
Definition handle_block : cmd :=
  Lock sync_mutex Skip;>
  (Skip <|> (chain_submit_block;> (Many broadcast_inv <|> send_msg <|> Skip))).
Definition handle_tx : cmd := Skip <|> (chain_op;> (Skip <|> broadcast_inv)).
Definition handle_getblocks : cmd := Skip <|> (chain_op;> Many send_msg).
Definition handle_ping : cmd := send_msg.
Definition handle_pong : cmd := Skip.
Definition handle_peers : cmd := Many book_op.

Definition peer_loop : cmd :=
  While true node_running
    (Sys sys_recv_peer;>
     (handle_inv <|> handle_getdata <|> handle_block <|> handle_tx <|> handle_getblocks <|>
      handle_ping <|> handle_pong <|> handle_peers <|> Skip)).

Definition start_sync_state : cmd := Lock sync_mutex Skip.
Definition reset_sync_state : cmd := Lock sync_mutex Skip.
Definition send_peer_list : cmd := book_op;> (Skip <|> send_msg).
Definition gossip_peers : cmd := scan_peers;> Many send_peer_list.
(** [start_sync_state], the request for blocks and [reset_sync_state] when it fails. *)
Definition ask_for_blocks : cmd := start_sync_state;> (Skip <|> (chain_op;> send_msg;> (Skip <|> reset_sync_state))).
Definition request_sync : cmd := chain_op;> scan_peers;> (Skip <|> ask_for_blocks).
(** The wait gives the lock back and takes it again. *)
Definition wait_or_stop : cmd := Lock shutdown_mutex Skip;> Sys sys_timer;> Lock shutdown_mutex Skip.
Definition finish_sync_if_due : cmd := Lock sync_mutex Skip;> (Skip <|> (chain_op;> (Skip <|> (chain_op;> log)))).

Definition register_new_peer : cmd :=
  Skip <|>
  (chain_op;> Sys sys_handshake;>
   (Skip <|>
    (Lock peers_mutex (If node_stopping Skip (Skip <|> Spawn peer_loop));>
     (Skip <|> log <|>
      ((book_op;> (book_op <|> log <|> Skip));> send_peer_list;> (Skip <|> ask_for_blocks)))))).
Definition accept_one_peer : cmd := Sys sys_accept;> (Skip <|> register_new_peer).
Definition connect_to_peer : cmd :=
  Skip <|> (scan_peers;> (Skip <|> (book_op;> Sys sys_connect;> register_new_peer))).

Definition accept_loop : cmd := While false node_running accept_one_peer.
Definition cleaner_loop : cmd :=
  While false node_running (Lock peers_mutex (Many TakeOne);> JoinTaken;> finish_sync_if_due;> wait_or_stop).
Definition ping_loop : cmd :=
  While false node_running
    (scan_peers;> Many send_msg;> (Skip <|> request_sync);> (Skip <|> gossip_peers);> wait_or_stop).
Definition connect_loop : cmd :=
  While false node_running
    (scan_peers;>
     Many (book_op;>
           (Skip <|> (scan_peers;>
             ((Sys sys_connect;> book_op) <|>
              (Sys sys_connect;> (Skip <|> register_new_peer);> book_op;> (Skip <|> log)))));> scan_peers);>
     wait_or_stop).

(** [ok]: what follows when the node could start. *)
Definition node_start (ok : cmd) : cmd :=
  Skip <|>
  (SetFlag node_running true;> SetFlag node_stopping false;>
   Start NodeAccept accept_loop;> Start Cleaner cleaner_loop;> Start Ping ping_loop;> Start Connect connect_loop;> ok).

Definition node_stop : cmd :=
  Lock shutdown_mutex (SetFlag node_running false);>
  Lock peers_mutex (SetFlag node_stopping true;> TakeAll);>
  JoinTaken.

Definition node_destroy : cmd :=
  node_stop;> JoinIf Connect;> JoinIf NodeAccept;> JoinIf Cleaner;> JoinIf Ping.

Definition submit_block : cmd := chain_submit_block;> Many broadcast_inv.
Definition submit_transaction : cmd := chain_op;> (Skip <|> broadcast_inv).

(** ** The RPC server *)

Definition api_key_required : cmd := Lock api_key_mutex Skip.
Definition check_api_key : cmd := Lock api_key_mutex Skip.
Definition set_api_key : cmd := Lock api_key_mutex Skip.
Definition handle_command : cmd :=
  api_key_required;> (Skip <|> check_api_key);>
  (Skip <|> chain_op <|> submit_transaction <|> scan_peers).
Definition handle_connection : cmd :=
  Sys sys_recv_client;> Many (Sys sys_recv_client);>
  (Sys sys_send_client <|> (handle_command;> Sys sys_send_client)).
Definition rpc_accept_loop : cmd := While false rpc_running (Sys sys_accept;> (Skip <|> handle_connection)).
Definition rpc_stop : cmd := SetFlag rpc_running false;> JoinIf RpcAccept.
(** [failed], [ok]: what follows. *)
Definition rpc_start (failed ok : cmd) : cmd :=
  failed <|> (SetFlag rpc_running true;> Start RpcAccept rpc_accept_loop;> ok).

(** ** The orchestrator *)

Definition mining_loop : cmd :=
  While false orchestrator_running
    (Lock state_mutex chain_op;> Sys sys_mine;>
     (Skip <|> (submit_block;> chain_op;> (log <|> (log;> Sys sys_timer))))).

(** One command; a command that only prints is [Skip]. *)
Definition command : cmd :=
  log;> Sys sys_getline;>
  (Skip  (* help, an unknown command, a usage message *)
   <|> Lock state_mutex chain_op  (* balance, height *)
   <|> scan_peers  (* peers *)
   <|> chain_op  (* status, mempool, ledger *)
   <|> book_op  (* addrbook *)
   <|> (chain_op;> (Skip <|> chain_op))  (* block *)
   <|> Lock state_mutex Skip  (* set reward-address *)
   <|> set_api_key  (* set secret-key *)
   <|> connect_to_peer  (* connect *)).
Definition run_command_loop : cmd := Many command;> log;> Sys sys_getline.

Definition orchestrator_start (ok : cmd) : cmd :=
  node_start
    (SetFlag orchestrator_running true;>
     (Start Mining mining_loop <|> Skip);>
     (Skip <|> rpc_start (log;> rpc_stop) (set_api_key <|> Skip));>
     Many book_op;> (log <|> Skip);> ok).

(** Without a server, [rpc_stop] finds its flag false and no thread. *)
Definition orchestrator_stop : cmd :=
  SetFlag orchestrator_running false;> JoinIf Mining;> rpc_stop;> node_stop.

(** [~Orchestrator] and then the members: the RPC server and the node. *)
Definition orchestrator_destroy : cmd := orchestrator_stop;> rpc_stop;> node_destroy.

(** ** The program *)

(** The constructor restores the chain. *)
Definition main : cmd := Many chain_op;> orchestrator_start run_command_loop;> orchestrator_destroy.

(** The rest of the signal handler, once it has set its flag: [stop] and [std::_Exit]. *)
Definition handle_sigint : list item := [Cmd orchestrator_stop; Cmd (SetFlag exited true)].

(** The signal is handled on thread [t]: the handler sees whether it runs already and, if not,
    sets its flag and goes on, on top of what the thread was doing. *)
Definition interrupt (t : tid) (s : sys) : sys :=
  match threads s !! t with
  | Some th =>
      if bool_decide (shutting_down ∈ flags s) then s
      else mkSys ({[shutting_down]} ∪ flags s) (held s) (workers s)
             (<[t := mkThread (handle_sigint ++ code th) (taken th)]> (threads s))
  | None => s
  end.

(** ** The discipline *)

(** A fact about sets and flags that computes. *)
Ltac by_compute := apply (bool_decide_unpack _); vm_compute; exact I.

Lemma main_disciplined : Th.disciplined main.
Proof.
  split; [done|]. cbn. repeat split; try done; try (cbn; lia); by_compute.
Qed.

(** The states of the process, when the calls [stuck] do not return. *)
Definition reachable (stuck : syscall → bool) : sys → Prop := rtc (Th.step stuck) (Th.init main).

Lemma reachable_inv stuck s : reachable stuck s → Th.inv s.
Proof. intros Hr. eapply Th.thread_steps_inv; [exact Hr|]. apply Th.inv_init, main_disciplined. Qed.

Definition returns : syscall → bool := λ _, false.

(** C14. Whatever the threads have done, the process can come to its end as long as its calls
    return: no order of locks, starts and joins leads into a deadlock. *)
Theorem shutdown_can_complete s :
  reachable returns s → ∃ s', rtc (Th.step returns) s s' ∧ finished Main s' = true.
Proof. intros Hr. apply Th.can_finish; [done|by eapply reachable_inv]. Qed.

(** C15. When the process ends, every thread that was ever started has come to its end, and the
    handle of every peer's thread was joined: none of them is left to use the objects
    that are gone, and none was dropped while joinable. *)
Theorem shutdown_joins_everything stuck s :
  reachable stuck s → finished Main s = true → workers s = [] ∧ ∀ t, finished t s = true.
Proof. intros Hr. apply Th.nothing_left. by eapply reachable_inv. Qed.

(** C39. A thread in a call that does not return keeps the process from ending: neither the
    destructors nor [quit] come to their end. [read_exact] reads again after a timeout, so a
    connection that stays open and silent is such a call. *)
Theorem silent_connection_blocks_shutdown stuck s t s' :
  reachable stuck s → Th.sits stuck t s → rtc (Th.step stuck) s s' → finished Main s' = false.
Proof.
  intros Hr Ht Hs. apply not_true_iff_false. intros Hf.
  destruct (Th.nothing_left s') as [_ Hall]; [eapply reachable_inv; unfold reachable in *; by etrans|done|].
  specialize (Hall t). rewrite (Th.sits_unfinished stuck t s') in Hall; [done|by eapply Th.sits_steps].
Qed.

Lemma interrupt_pending p om t th s :
  threads s !! t = Some th → shutting_down ∉ flags s → Th.must p orchestrator_stop = true →
  Th.pending p om (Cmd (SetFlag exited true) :: code th) t (interrupt t s).
Proof.
  intros Ht Hf Hm. unfold interrupt. rewrite Ht, bool_decide_eq_false_2 by done.
  exists (mkThread (handle_sigint ++ code th) (taken th)), [Cmd orchestrator_stop]. cbn [threads].
  split; [apply lookup_insert_eq|]. split; [done|]. split; [cbn [existsb Th.must_item]; by rewrite Hm|].
  intros m _. apply not_elem_of_nil.
Qed.

(** Ctrl+C may hang the node: when the handler runs on a thread that holds a lock [stop]
    takes, or on one that [stop] joins, it never gets past [stop] to [std::_Exit]. *)
Theorem sigint_deadlocks s t th s' :
  reachable returns s → shutting_down ∉ flags s → threads s !! t = Some th →
  held s !! peers_mutex = Some t ∨ held s !! shutdown_mutex = Some t ∨ t = Mining ∨ t = RpcAccept →
  rtc (Th.step returns) (interrupt t s) s' →
  ∃ th' k, threads s' !! t = Some th' ∧ k ≠ [] ∧ code th' = k ++ Cmd (SetFlag exited true) :: code th.
Proof.
  intros Hr Hf Ht Hc Hs.
  assert (∀ p om, Th.pending p om (Cmd (SetFlag exited true) :: code th) t s' → ∃ th' k, threads s' !! t = Some th' ∧ k ≠ [] ∧
    code th' = k ++ Cmd (SetFlag exited true) :: code th) as Hend.
  { intros p om (th' & k & ? & ? & He & _). exists th', k. by destruct k. }
  assert (∀ m, Th.must (Th.locks_mutex m) orchestrator_stop = true → held s !! m = Some t →
    Th.pending (Th.locks_mutex m) (Some m) (Cmd (SetFlag exited true) :: code th) t s') as Hlock.
  { intros m Hm Hh. eapply Th.waits_for_lock; [exact Hs| | |by apply interrupt_pending].
    - unfold interrupt. by rewrite Ht, bool_decide_eq_false_2.
    - intros t' th' Hne Ht' Hin. assert (threads s !! t' = Some th') as H1.
      { unfold interrupt in Ht'. rewrite Ht, bool_decide_eq_false_2 in Ht' by done. cbn in Ht'. by rewrite lookup_insert_ne in Ht'. }
      assert (held s !! m = Some t') by (apply (Th.inv_held s); [by eapply reachable_inv|by exists th']). congruence. }
  destruct Hc as [Hh|[Hh|[->| ->]]]; eapply Hend; [by apply Hlock, Hh|by apply Hlock, Hh|..];
    (eapply Th.waits_for_itself; [exact Hs|by apply interrupt_pending]).
Qed.

(** ** Schedules *)

Definition after_steps (stuck : syscall → bool) (l : list (tid * nat)) : sys :=
  default (Th.init main) (Th.execute stuck l (Th.init main)).

Lemma reachable_after stuck l : bool_decide (is_Some (Th.execute stuck l (Th.init main))) = true → reachable stuck (after_steps stuck l).
Proof.
  intros [s Hs]%bool_decide_eq_true. unfold after_steps, reachable. rewrite Hs. by apply (Th.execute_steps stuck l).
Qed.

(** The main thread starts the node, without mining and with the RPC server, and goes on to
    its command loop. *)
Definition main_steps (l : list nat) : list (tid * nat) := map (pair Main) l.
Definition boot : list (tid * nat) :=
  main_steps ([0; 0; 0; 1] ++ replicate 14 0 ++ [0; 1; 0] ++ [0; 1; 1; 0; 0; 0; 0; 1; 0] ++ [0; 0; 0; 1; 0])%nat.

(** The server accepts a connection and reads from it. *)
Definition client_connects : list (tid * nat) := map (pair RpcAccept) [0; 0; 0; 1; 0]%nat.

(** A peer connects, and gets its thread. *)
Definition peer_connects : list (tid * nat) :=
  map (pair NodeAccept) [0; 0; 0; 1; 1; 0; 0; 0; 0; 0; 0; 1; 0; 0; 0; 1; 0; 0; 0; 0]%nat.

(** The user asks for the peers; the main thread is looking at the list. *)
Definition asks_for_peers : list (tid * nat) := main_steps [0; 1; 0; 0; 0; 0; 0; 0; 1; 1; 0; 0]%nat.

(** The user quits, and all threads come to their ends. *)
Definition quits : list (tid * nat) :=
  main_steps (replicate 15 0)%nat ++ [(RpcAccept, 0)]%nat ++ main_steps (replicate 11 0)%nat ++ [(Worker 0, 0)]%nat ++
  main_steps (replicate 19 0)%nat ++ [(NodeAccept, 0); (Cleaner, 0); (Ping, 0); (Connect, 0)]%nat ++ main_steps (replicate 6 0)%nat.

Definition no_answer (x : syscall) : bool := bool_decide (x = sys_recv_client).
End Sd.

(** A peer is connected and the main thread holds [peers_mutex_]. *)
Lemma shutdown_can_complete_witness :
  let s := Sd.after_steps Sd.returns (Sd.boot ++ Sd.peer_connects ++ Sd.asks_for_peers) in
  held s !! peers_mutex = Some Main ∧ workers s = [Worker 0] ∧ ∃ s', rtc (Th.step Sd.returns) s s' ∧ finished Main s' = true.
Proof.
  split; [vm_compute; reflexivity|]. split; [vm_compute; reflexivity|].
  apply Sd.shutdown_can_complete, Sd.reachable_after. vm_compute. reflexivity.
Defined.

(** A node with a peer and an RPC server, after [quit]. *)
Lemma shutdown_joins_everything_witness :
  let s := Sd.after_steps Sd.returns (Sd.boot ++ Sd.peer_connects ++ Sd.quits) in
  is_Some (threads s !! Worker 0) ∧ workers s = [] ∧ ∀ t, finished t s = true.
Proof.
  split; [vm_compute; by eexists|].
  apply (Sd.shutdown_joins_everything Sd.returns); [apply Sd.reachable_after; vm_compute; reflexivity|vm_compute; reflexivity].
Defined.

(** A client of the RPC server connects and says nothing. *)
Lemma silent_connection_blocks_shutdown_witness :
  let s := Sd.after_steps Sd.no_answer (Sd.boot ++ Sd.client_connects) in
  Th.sits Sd.no_answer RpcAccept s ∧ ∀ s', rtc (Th.step Sd.no_answer) s s' → finished Main s' = false.
Proof.
  intros s. assert (Th.sits Sd.no_answer RpcAccept s) as Hsit.
  { eexists _, sys_recv_client, _. split; [vm_compute; reflexivity|]. split; [reflexivity|]. vm_compute. reflexivity. }
  split; [exact Hsit|]. intros s' Hs. eapply Sd.silent_connection_blocks_shutdown; [|exact Hsit|exact Hs].
  apply Sd.reachable_after. vm_compute. reflexivity.
Defined.

(** Ctrl+C while the main thread looks at the peers. *)
Lemma sigint_deadlocks_witness :
  let s := Sd.after_steps Sd.returns (Sd.boot ++ Sd.asks_for_peers) in
  ∃ th, threads s !! Main = Some th ∧
    ∀ s', rtc (Th.step Sd.returns) (Sd.interrupt Main s) s' →
      ∃ th' k, threads s' !! Main = Some th' ∧ k ≠ [] ∧ code th' = k ++ Cmd (SetFlag exited true) :: code th.
Proof.
  eexists. split; [vm_compute; reflexivity|]. intros s' Hs.
  eapply (Sd.sigint_deadlocks (Sd.after_steps Sd.returns (Sd.boot ++ Sd.asks_for_peers)) Main); [| | | |exact Hs].
  - apply Sd.reachable_after. vm_compute. reflexivity.
  - apply (bool_decide_unpack _). vm_compute. exact I.
  - vm_compute. reflexivity.
  - left. vm_compute. reflexivity.
Defined.
