(* ===== verification/DemoLog.v ===== *)
(** * The log and the prompt (src/include/app/DemoLog.hpp)

    [log] writes a line with the time of day, the node's name and a category, over the
    prompt when there is one, and writes the prompt again below it. [Log] is the object,
    [Term] a terminal that understands what is sent to it, and [log_refines_screen] says what
    the two show together, in terms of lines. [log] and [prompt] hold the mutex of the object;
    the commands write to [std::cout] without it, so their output may come between any two
    pieces, and a call of [log] may be interrupted by it ([interrupted_log]). *)

From S2P Require Import Prelude Text.

(** ** The object *)

(** The fields of [std::tm] that [%H:%M:%S] prints. *)
Record tm := mkTm { tm_hour : Z; tm_min : Z; tm_sec : Z }.

Record DemoLog := mkDemoLog {
  node_name_ : str;
  last_prompt_ : str;
  prompt_visible_ : bool
}.

Module Log.

(** A number printed with [std::setfill('0')] and [std::setw(w)], or by [%H]. *)
Definition padded (w : nat) (n : Z) : str :=
  let digits := Text.to_string n in replicate (w - length digits) (Text.digit 0) ++ digits.

Definition put_time (t : tm) : str :=
  padded 2 (tm_hour t) ++ lit ":" ++ padded 2 (tm_min t) ++ lit ":" ++ padded 2 (tm_sec t).

Definition erase_line : str := [Byte.x0d; Byte.x1b] ++ lit "[K".

Definition make (node_name : str) : DemoLog := mkDemoLog node_name [] false.

Section log.
(** [localtime_r]: the time zone is the system's. *)
Context (localtime : Z → tm).

(** [now] counts nanoseconds, as the system clock does. *)
Definition line (self : DemoLog) (now : Z) (category message : str) : str :=
  let ms := Z.rem (Z.quot now 1000000) 1000 in
  let t := Z.quot now 1000000000 in
  lit "[" ++ put_time (localtime t) ++ lit "." ++ padded 3 ms ++ lit "] [" ++
  node_name_ self ++ lit "] [" ++ category ++ lit "] " ++ message.

Definition log (self : DemoLog) (now : Z) (category message : str) : str :=
  (if prompt_visible_ self then erase_line else []) ++
  line self now category message ++ [newline] ++
  (if prompt_visible_ self then last_prompt_ self else []).

Definition log_info (self : DemoLog) (now : Z) (message : str) : str := log self now (lit "INFO") message.

Definition prompt (self : DemoLog) (text : str) : DemoLog * str := (mkDemoLog (node_name_ self) text true, text).

(** ** A terminal

    It has finished lines, the line of the cursor and the cursor's column; [esc] is the
    escape sequence it is reading. Lines are as wide as they need. *)
Record Term := mkTerm { finished_lines : list str; current : str; column : nat; esc : option str }.

Definition blank : Term := mkTerm [] [] 0 None.

Definition put_char (t : Term) (c : byte) : Term :=
  mkTerm (finished_lines t) (take (column t) (current t) ++ [c] ++ drop (S (column t)) (current t)) (S (column t)) None.

(** [ESC [ K] erases from the cursor to the end of the line; others are not used. *)
Definition feed (t : Term) (c : byte) : Term :=
  match esc t with
  | Some [] => mkTerm (finished_lines t) (current t) (column t) (if bool_decide (c = Byte.x5b) then Some [c] else None)
  | Some _ =>
      mkTerm (finished_lines t) (if bool_decide (c = Byte.x4b) then take (column t) (current t) else current t) (column t) None
  | None =>
      if bool_decide (c = newline) then mkTerm (finished_lines t ++ [current t]) [] 0 None
      else if bool_decide (c = Byte.x0d) then mkTerm (finished_lines t) (current t) 0 None
      else if bool_decide (c = Byte.x1b) then mkTerm (finished_lines t) (current t) (column t) (Some [])
      else put_char t c
  end.

Definition show (t : Term) (s : str) : Term := foldl feed t s.

(** ** What happens at the console *)

Inductive event :=
| Prompt (text : str)  (** the command loop asks *)
| Logged (now : Z) (category message : str)  (** a call of [log], not interrupted *)
| Typed (text : str)  (** the terminal echoes what is typed *)
| Printed (text : str)  (** a command prints a piece of a line *)
| Ended.  (** a line ends: the user's or a command's *)

(** The object and the screen. *)
Definition on_event (s : DemoLog * Term) (e : event) : DemoLog * Term :=
  let '(self, t) := s in
  match e with
  | Prompt text => let '(self, out) := prompt self text in (self, show t out)
  | Logged now category message => (self, show t (log self now category message))
  | Typed text | Printed text => (self, show t text)
  | Ended => (self, show t [newline])
  end.

Definition console (self : DemoLog) (es : list event) : DemoLog * Term := foldl on_event (self, blank) es.

(** ** The screen in terms of lines *)

Record screen := mkScreen { above : list str; input : str; asked : option str }.

(** A log line takes the place of the line being edited, which starts again with the prompt;
    everything else goes to the end of that line. *)
Definition on_screen (self : DemoLog) (s : screen) (e : event) : screen :=
  match e with
  | Prompt text => mkScreen (above s) (input s ++ text) (Some text)
  | Logged now category message =>
      let l := line self now category message in
      match asked s with
      | Some text => mkScreen (above s ++ [l]) text (asked s)
      | None => mkScreen (above s ++ [input s ++ l]) [] None
      end
  | Typed text | Printed text => mkScreen (above s) (input s ++ text) (asked s)
  | Ended => mkScreen (above s ++ [input s]) [] (asked s)
  end.

(** Text without control characters. *)
Definition plain (c : byte) : bool := negb (bool_decide (c = newline ∨ c = Byte.x0d ∨ c = Byte.x1b)).
Definition plain_text (s : str) : bool := forallb plain s.

Definition plain_event (e : event) : bool :=
  match e with
  | Prompt text | Typed text | Printed text => plain_text text
  | Logged _ category message => plain_text category && plain_text message
  | Ended => true
  end.

(** ** Lemmas *)

Lemma show_app t a b : show t (a ++ b) = show (show t a) b.
Proof. apply foldl_app. Qed.

Lemma show_plain ls cur s :
  plain_text s = true → show (mkTerm ls cur (length cur) None) s = mkTerm ls (cur ++ s) (length (cur ++ s)) None.
Proof.
  revert cur. induction s as [|c s IH]; intros cur Hs; [by rewrite app_nil_r|]. cbn in Hs. apply andb_true_iff in Hs as [Hc Hs].
  unfold plain in Hc. apply negb_true_iff, bool_decide_eq_false in Hc. cbn [show foldl feed esc].
  rewrite !bool_decide_eq_false_2 by naive_solver. unfold put_char. cbn [finished_lines current column].
  rewrite take_ge by lia. rewrite drop_ge by lia. cbn [app].
  replace (S (length cur)) with (length (cur ++ [c])) by (rewrite length_app; cbn; lia).
  fold (show (mkTerm ls (cur ++ [c]) (length (cur ++ [c])) None) s). rewrite IH by done. by rewrite <- !app_assoc.
Qed.

Lemma show_newline ls cur n : show (mkTerm ls cur n None) [newline] = mkTerm (ls ++ [cur]) [] 0 None.
Proof. done. Qed.

Lemma show_erase ls cur n : show (mkTerm ls cur n None) erase_line = mkTerm ls [] 0 None.
Proof. done. Qed.

Lemma plain_app a b : plain_text (a ++ b) = plain_text a && plain_text b.
Proof. apply forallb_app. Qed.

Lemma plain_digit_list l : Forall (λ c, isdigit c = true) l → plain_text l = true.
Proof.
  intros Hl. apply forallb_forall. intros c Hc. rewrite Forall_forall in Hl. specialize (Hl c). rewrite list_elem_of_In in Hl.
  specialize (Hl Hc). unfold plain. apply negb_true_iff, bool_decide_eq_false. by intros [->|[->| ->]].
Qed.

Lemma plain_number n : plain_text (Text.to_string n) = true.
Proof.
  destruct (decide (0 <= n)); [by apply plain_digit_list, Text.to_string_spec|]. rewrite Text.to_string_negative by lia.
  cbn. apply plain_digit_list, Text.to_string_spec. lia.
Qed.

Lemma plain_padded w n : plain_text (padded w n) = true.
Proof.
  unfold padded. rewrite plain_app, plain_number, andb_true_r. apply plain_digit_list, Forall_replicate. done.
Qed.

Lemma plain_line self now category message :
  plain_text (node_name_ self) = true → plain_text category = true → plain_text message = true →
  plain_text (line self now category message) = true.
Proof. intros Hn Hc Hm. unfold line, put_time. rewrite !plain_app, !plain_padded, Hn, Hc, Hm. done. Qed.

(** A call of [log] after a prompt: whatever stands in the line of the cursor, it gives way to the
    message, and the prompt comes back below. *)
Lemma show_log self now category message t :
  prompt_visible_ self = true → esc t = None → plain_text (line self now category message) = true →
  plain_text (last_prompt_ self) = true →
  show t (log self now category message) =
  mkTerm (finished_lines t ++ [line self now category message]) (last_prompt_ self) (length (last_prompt_ self)) None.
Proof.
  intros Hv He Hl Hp. unfold log. rewrite Hv. destruct t as [ls cur col e]. cbn in He. subst e.
  rewrite !show_app, show_erase. change (mkTerm ls [] 0 None) with (mkTerm ls [] (length (@nil byte)) None).
  rewrite show_plain by done. rewrite show_newline. by apply (show_plain _ []).
Qed.

(** *** The format of a line *)

Definition reads_back (w : nat) (n : Z) : bool :=
  bool_decide (length (padded w n) = w ∧ Text.parse_number (padded w n) = Some n).

Lemma padded_two n : 0 <= n < 100 → length (padded 2 n) = 2%nat ∧ Text.parse_number (padded 2 n) = Some n.
Proof.
  intros Hn. assert (forallb (λ k, reads_back 2 (Z.of_nat k)) (seq 0 100) = true) as Hall by by vm_compute.
  rewrite forallb_forall in Hall. specialize (Hall (Z.to_nat n)). rewrite Z2Nat.id in Hall by lia.
  apply (bool_decide_eq_true_1 _), Hall, in_seq. lia.
Qed.

Lemma padded_three n : 0 <= n < 1000 → length (padded 3 n) = 3%nat ∧ Text.parse_number (padded 3 n) = Some n.
Proof.
  intros Hn. assert (forallb (λ k, reads_back 3 (Z.of_nat k)) (seq 0 1000) = true) as Hall by by vm_compute.
  rewrite forallb_forall in Hall. specialize (Hall (Z.to_nat n)). rewrite Z2Nat.id in Hall by lia.
  apply (bool_decide_eq_true_1 _), Hall, in_seq. lia.
Qed.

(** The fields of the time of day have their ranges, a leap second included. *)
Definition time_of_day (t : tm) : Prop := 0 <= tm_hour t < 24 ∧ 0 <= tm_min t < 60 ∧ 0 <= tm_sec t <= 60.

(** The time stands in twelve characters and can be read back. *)
Definition stamped (now : Z) (rest l : str) : Prop :=
  ∃ h m s ms, l = lit "[" ++ h ++ lit ":" ++ m ++ lit ":" ++ s ++ lit "." ++ ms ++ lit "] " ++ rest ∧
    length h = 2%nat ∧ length m = 2%nat ∧ length s = 2%nat ∧ length ms = 3%nat ∧
    (Text.parse_number h, Text.parse_number m, Text.parse_number s) =
      (Some (tm_hour (localtime (now / 1000000000))), Some (tm_min (localtime (now / 1000000000))),
       Some (tm_sec (localtime (now / 1000000000)))) ∧
    Text.parse_number ms = Some ((now / 1000000) mod 1000).

Lemma line_stamped self now category message :
  0 <= now → time_of_day (localtime (now / 1000000000)) →
  stamped now (lit "[" ++ node_name_ self ++ lit "] [" ++ category ++ lit "] " ++ message) (line self now category message).
Proof.
  intros Hn (Hh & Hm & Hs). unfold line, put_time.
  rewrite Z.quot_div_nonneg, Z.quot_div_nonneg, Z.rem_mod_nonneg by (try apply Z.div_pos; lia).
  destruct (padded_two (tm_hour (localtime (now / 1000000000)))) as [L1 P1]; [lia|].
  destruct (padded_two (tm_min (localtime (now / 1000000000)))) as [L2 P2]; [lia|].
  destruct (padded_two (tm_sec (localtime (now / 1000000000)))) as [L3 P3]; [lia|].
  destruct (padded_three ((now / 1000000) mod 1000)) as [L4 P4]; [by apply Z.mod_pos_bound|].
  eexists _, _, _, _. split_and!; [|exact L1|exact L2|exact L3|exact L4| |exact P4].
  - rewrite <- !app_assoc. done.
  - by rewrite P1, P2, P3.
Qed.

(** The object and the terminal show a screen. *)
Definition shows (name : str) (s : DemoLog * Term) (v : screen) : Prop :=
  node_name_ s.1 = name ∧
  asked v = (if prompt_visible_ s.1 then Some (last_prompt_ s.1) else None) ∧
  s.2 = mkTerm (above v) (input v) (length (input v)) None ∧ plain_text (default [] (asked v)) = true.

Lemma line_name self self' now category message :
  node_name_ self = node_name_ self' → line self now category message = line self' now category message.
Proof. intros E. unfold line. by rewrite E. Qed.

Lemma shows_event name s v e :
  plain_text name = true → plain_event e = true → shows name s v → shows name (on_event s e) (on_screen (make name) v e).
Proof.
  intros Hname He (Hn & Ha & Ht & Hp). destruct s as [self t]. cbn in Hn, Ha, Ht. subst t.
  destruct e as [text|now cat msg|text|text|]; cbn [on_event on_screen plain_event] in *.
  - split; [done|]. split; [done|]. split; [by apply show_plain|done].
  - apply andb_true_iff in He as [Hc Hm]. rewrite (line_name (make name) self) by done.
    assert (plain_text (line self now cat msg) = true) as Hl by (apply plain_line; [by rewrite Hn|done..]).
    destruct (prompt_visible_ self) eqn:Hv; rewrite Ha; (split; [done|]); cbn [fst snd asked]; rewrite Hv;
      (split; [done|]); (split; [|by rewrite Ha in Hp]).
    + rewrite Ha in Hp. by rewrite show_log.
    + unfold log. rewrite Hv, app_nil_l, !show_app, show_plain by done. done.
  - split; [done|]. split; [done|]. split; [by apply show_plain|done].
  - split; [done|]. split; [done|]. split; [by apply show_plain|done].
  - split; [done|]. split; [done|]. split; done.
Qed.

Definition screen_after (name : str) (es : list event) : screen := foldl (on_screen (make name)) (mkScreen [] [] None) es.

Lemma shows_events name es s v :
  plain_text name = true → forallb plain_event es = true → shows name s v →
  shows name (foldl on_event s es) (foldl (on_screen (make name)) v es).
Proof.
  intros Hname. revert s v. induction es as [|e es IH]; intros s v He Hs; [done|]. cbn in He |- *.
  apply andb_true_iff in He as [He Hes]. apply IH; [done|by apply shows_event].
Qed.

(** The lines that were logged. *)
Definition logged (name : str) (es : list event) : list str :=
  omap (λ e, match e with Logged now c m => Some (line (make name) now c m) | _ => None end) es.

(** Nothing is typed or printed before there is a prompt. *)
Fixpoint after_prompt (es : list event) : bool :=
  match es with
  | [] => true
  | Prompt _ :: _ => true
  | (Typed _ | Printed _) :: _ => false
  | _ :: es => after_prompt es
  end.

Lemma logged_above name es v :
  is_Some (asked v) ∨ input v = [] ∧ after_prompt es = true →
  ∃ k, above (foldl (on_screen (make name)) v es) = above v ++ k ∧ logged name es `sublist_of` k.
Proof.
  revert v. induction es as [|e es IH]; intros v Hv; [exists []; by rewrite app_nil_r|]. cbn [foldl].
  destruct (IH (on_screen (make name) v e)) as (k & Hk & Hs).
  { destruct e; cbn in *; try (destruct (asked v)); naive_solver. }
  rewrite Hk. unfold logged. cbn [omap list_omap].
  destruct e as [text|now cat msg|text|text|]; cbn [on_screen above]; try (exists k; done).
  - destruct (asked v) as [p|] eqn:Ha; [|destruct Hv as [[? ?]|[Hi _]]; [done|]; rewrite Hi]; cbn [above app]; rewrite <- app_assoc;
      (eexists; split; [reflexivity|]); cbn; by apply sublist_skip.
  - rewrite <- app_assoc. eexists. split; [reflexivity|]. by apply sublist_cons.
Qed.

(** C35. What the log does to a terminal. Names, messages and prompts are free of control
    characters, lines are as long as they need, and a call of [log] is not itself interrupted
    by the output of a command, which does not take its mutex. Then (1) a call after a prompt
    replaces whatever stands in the line of the cursor, be it the prompt, half a command or a
    piece of a command's output, by its message on a line of its own and writes the prompt
    below it; (2) a whole session, in which calls come between any two pieces of typing and of
    output, shows the screen of the description in terms of lines, and if nothing was typed or
    printed before the first prompt every message stands on a line of its own, whole and in
    order; (3) a message begins with the time of day in twelve characters that read back as the
    fields of the clock, then the name of the node and the category. *)
Theorem log_refines_screen name es :
  plain_text name = true → forallb plain_event es = true →
  (∀ self now c m t, node_name_ self = name → prompt_visible_ self = true → plain_text (last_prompt_ self) = true →
    plain_text c = true → plain_text m = true → esc t = None →
    show t (log self now c m) =
    mkTerm (finished_lines t ++ [line self now c m]) (last_prompt_ self) (length (last_prompt_ self)) None) ∧
  (let v := screen_after name es in
   (console (make name) es).2 = mkTerm (above v) (input v) (length (input v)) None ∧
   (after_prompt es = true → logged name es `sublist_of` above v)) ∧
  (∀ self now c m, node_name_ self = name → 0 <= now → time_of_day (localtime (now / 1000000000)) →
    stamped now (lit "[" ++ name ++ lit "] [" ++ c ++ lit "] " ++ m) (line self now c m)).
Proof.
  intros Hn He. split_and!.
  - intros self now c m t Hname Hv Hp Hc Hm Ht. apply show_log; [done|done| |done]. apply plain_line; [by rewrite Hname|done..].
  - intros v. split; [by apply (shows_events name es _ (mkScreen [] [] None))|]. intros Ht. destruct (logged_above name es (mkScreen [] [] None)) as (k & Hk & Hs); [by right|]. unfold v, screen_after. by rewrite Hk.
  - intros self now c m <-. apply line_stamped.
Qed.
End log.

(** ** An example *)

(** A zone without offset. *)
Definition utc (t : Z) : tm := mkTm (t / 3600 mod 24) (t / 60 mod 60) (t mod 60).
Definition at_noon : Z := 43205 * 1000000000 + 7000000.
Definition session : list event :=
  [Logged at_noon (lit "PEER") (lit "bootstrapping"); Prompt (lit ">>> "); Typed (lit "hei");
   Logged at_noon (lit "MINE") (lit "block ACCEPTED"); Typed (lit "ght"); Ended; Printed (lit "2"); Ended; Prompt (lit ">>> ")].

Example session_lines :
  (console utc (make (lit "NODE")) session).2 =
  mkTerm [lit "[12:00:05.007] [NODE] [PEER] bootstrapping"; lit "[12:00:05.007] [NODE] [MINE] block ACCEPTED"; lit ">>> ght"; lit "2"]
    (lit ">>> ") 4 None.
Proof. vm_compute. reflexivity. Qed.

(** A message that comes while a command runs brings the old prompt back, and what the command
    prints next stands behind it. *)
Example stale_prompt :
  finished_lines (console utc (make (lit "NODE"))
    [Prompt (lit ">>> "); Typed (lit "connect a 1"); Ended; Logged at_noon (lit "PEER") (lit "x"); Printed (lit "connected to a:1"); Ended]).2 =
  [lit ">>> connect a 1"; lit "[12:00:05.007] [NODE] [PEER] x"; lit ">>> connected to a:1"].
Proof. vm_compute. reflexivity. Qed.

(** A call of [log] whose bytes are written in two pieces with output of a command between
    them: the message is not on a line of its own. *)
Example interrupted_log :
  let self := (prompt (make (lit "NODE")) (lit ">>> ")).1 in
  let out := log utc self at_noon (lit "MINE") (lit "block ACCEPTED") in
  finished_lines (show blank (take 34 out ++ lit "2" ++ [newline] ++ drop 34 out)) =
  [lit "[12:00:05.007] [NODE] [MINE] b2"; lit "lock ACCEPTED"].
Proof. vm_compute. reflexivity. Qed.
End Log.

Lemma log_refines_screen_witness :
  Log.logged Log.utc (lit "NODE") Log.session `sublist_of` Log.above (Log.screen_after Log.utc (lit "NODE") Log.session).
Proof. apply (Log.log_refines_screen Log.utc (lit "NODE") Log.session); vm_compute; reflexivity. Defined.
