(* ===== verification/NodeId.v ===== *)
(** * The node's identity (src/network/NodeId.cpp)

    [generate_node_id] draws one number from [std::mt19937_64], seeded with one word of
    [std::random_device]. The engine is the standard's: a window of 312 words, the twist,
    and the tempering of the output. *)

From S2P Require Import Prelude.

Module Mt.
Definition state_size : nat := 312.
Definition shift_size : nat := 156.
Definition initialization_multiplier : Z := 6364136223846793005.
Definition xor_mask : Z := 0xB5026F5AA96619E9.

(** The words of the state, the oldest first. *)
Fixpoint seed_words (count : nat) (i x : Z) : list Z :=
  match count with
  | O => []
  | S count => x :: seed_words count (i + 1) (u64 (initialization_multiplier * Z.lxor x (Z.shiftr x 62) + (i + 1)))
  end.

(** The constructor. *)
Definition seed (value : Z) : list Z := seed_words state_size 0 (u64 value).

(** The upper 33 bits of one word and the lower 31 of the next. *)
Definition joined (a b : Z) : Z := Z.lor (Z.land a 0xFFFFFFFF80000000) (Z.land b 0x7FFFFFFF).
Definition twist (y : Z) : Z := Z.lxor (Z.shiftr y 1) (if Z.odd y then xor_mask else 0).

Definition next_word (x : list Z) : Z :=
  Z.lxor (nth shift_size x 0) (twist (joined (nth 0 x 0) (nth 1 x 0))).
Definition advance (x : list Z) : list Z := tail x ++ [next_word x].

Definition temper (z : Z) : Z :=
  let z := Z.lxor z (Z.land (Z.shiftr z 29) 0x5555555555555555) in
  let z := Z.lxor z (u64 (Z.land (Z.shiftl z 17) 0x71D67FFFEDA60000)) in
  let z := Z.lxor z (u64 (Z.land (Z.shiftl z 37) 0xFFF7EEE000000000)) in
  Z.lxor z (Z.shiftr z 43).

(** [operator()] *)
Definition draw (x : list Z) : Z * list Z := let x := advance x in (temper (List.last x 0), x).

(** The standard's own test: the 10000th number of the default engine. *)
Fixpoint nth_draw (n : nat) (x : list Z) : Z :=
  match n with
  | O => (draw x).1
  | S n => nth_draw n (draw x).2
  end.

Example first_number : nth_draw 0 (seed 5489) = 14514284786278117030.
Proof. vm_compute. reflexivity. Qed.

Example number_10000 : nth_draw (Z.to_nat 9999) (seed 5489) = 9981545732273789042.
Proof. vm_compute. reflexivity. Qed.
End Mt.

Module Nid.
(** [std::uniform_int_distribution<uint64_t>] over the whole range takes the engine's number
    as it is. *)
Definition uniform_u64 (x : list Z) : Z * list Z := Mt.draw x.

(** [rd]: the word the random device returns. *)
Definition generate_node_id (rd : Z) : Z := (uniform_u64 (Mt.seed (u32 rd))).1.

(** ** Range *)

Lemma in_u_bits z : in_u 64 z ↔ 0 <= z ∧ ∀ l, 64 <= l → Z.testbit z l = false.
Proof.
  split; intros [Hz Hb]; (split; [done|]); [by apply Z.bounded_iff_bits_nonneg|by apply (Z.bounded_iff_bits_nonneg 64)].
Qed.

Lemma in_u_lxor a b : in_u 64 a → in_u 64 b → in_u 64 (Z.lxor a b).
Proof.
  rewrite !in_u_bits. intros [Ha Ba] [Hb Bb]. split; [apply Z.lxor_nonneg; lia|]. intros l Hl. by rewrite Z.lxor_spec, Ba, Bb.
Qed.

Lemma in_u_land_l a b : in_u 64 a → 0 <= b → in_u 64 (Z.land a b).
Proof. rewrite !in_u_bits. intros [Ha Ba] Hb. split; [apply Z.land_nonneg; by left|]. intros l Hl. by rewrite Z.land_spec, Ba. Qed.

Lemma in_u_shiftr a n : in_u 64 a → 0 <= n → in_u 64 (Z.shiftr a n).
Proof.
  rewrite !in_u_bits. intros [Ha Ba] Hn. split; [by apply Z.shiftr_nonneg|]. intros l Hl. rewrite Z.shiftr_spec by lia. apply Ba. lia.
Qed.

Lemma temper_range z : in_u 64 z → in_u 64 (Mt.temper z).
Proof.
  intros Hz. unfold Mt.temper. cbv zeta.
  repeat first [assumption | apply in_u_lxor | apply in_u_land_l | apply in_u_shiftr | apply u64_range | lia].
Qed.

Lemma seed_words_range count i x : in_u 64 x → Forall (in_u 64) (Mt.seed_words count i x).
Proof. revert i x. induction count as [|count IH]; intros i x Hx; cbn; constructor; [done|]. apply IH, u64_range. Qed.

Lemma nth_range x n : Forall (in_u 64) x → in_u 64 (nth n x 0).
Proof. intros Hx. revert n. induction Hx; intros [|n]; cbn; try done; try (split; lia); auto. Qed.

Lemma next_word_range x : Forall (in_u 64) x → in_u 64 (Mt.next_word x).
Proof.
  intros Hx. unfold Mt.next_word. apply in_u_lxor; [by apply nth_range|]. unfold Mt.twist. apply in_u_lxor.
  - apply in_u_shiftr; [|lia]. unfold Mt.joined. pose proof (nth_range x 0 Hx) as H0. pose proof (nth_range x 1 Hx) as H1.
    rewrite in_u_bits in *. destruct H0 as [Ha Ba], H1 as [Hb Bb]. split.
    + apply Z.lor_nonneg. split; apply Z.land_nonneg; by left.
    + intros l Hl. by rewrite Z.lor_spec, !Z.land_spec, Ba, Bb.
  - unfold Mt.xor_mask. destruct (Z.odd _); split; lia.
Qed.

(** The id is a 64-bit number. *)
Lemma generate_node_id_range rd : in_u 64 (generate_node_id rd).
Proof.
  unfold generate_node_id, uniform_u64, Mt.draw. cbn [fst]. apply temper_range. unfold Mt.advance. rewrite List.last_last.
  apply next_word_range, seed_words_range, u64_range.
Qed.

(** ** The number of identities *)

Lemma all_seeds : ∃ seeds : list Z, sz seeds = 2 ^ 32 ∧ ∀ rd, u32 rd ∈ seeds.
Proof.
  exists (seqZ 0 (2 ^ 32)). unfold sz. rewrite length_seqZ. split; [lia|]. intros rd. apply elem_of_seqZ.
  pose proof (u32_range rd) as [? ?]. lia.
Qed.

(** The 64 bits of the id hold only the 32 of the seed: among more than [2^32] nodes two have
    the same id, and each takes the other for itself. *)
Lemma node_ids_repeat (rds : list Z) : 2 ^ 32 < sz rds → ¬ NoDup (map generate_node_id rds).
Proof.
  intros Hl Hnd. destruct all_seeds as (seeds & Hsz & Hseeds).
  assert (∀ id, id ∈ map generate_node_id rds → id ∈ map (λ s, (uniform_u64 (Mt.seed s)).1) seeds) as Hsub.
  { intros id (rd & -> & _)%list_elem_of_fmap. apply list_elem_of_fmap. by exists (u32 rd). }
  apply NoDup_submseteq in Hsub; [|done]. apply submseteq_length in Hsub. rewrite !length_map in Hsub. unfold sz in *. lia.
Qed.
End Nid.
