(* ===== verification/ChainManager.v ===== *)
(** * The chain manager (src/chain/ChainManager.cpp)

    The component that owns the chain, the ledger, the mempool, the orphan pool and the
    optional store, and decides what happens to a submitted block. Each public operation
    holds [chain_mutex_] for its whole body, so it is one step of the state; an exception
    leaves the state as far as the mutations before it went. [now] is the reading of
    [clock_()] an operation makes (none makes two). The store is the interface
    [BlockStore], the iteration order of the orphan map the interface [Buckets]. *)

From S2P Require Import Prelude Codec Crypto Demo Transaction Block Ledger Mempool OrphanPool.
From S2P Require Import ProofOfWork Blockchain ForkResolution BlockLocator Storage.

Inductive Status := Rejected | Accepted | Reorged | NeedParent.

#[global] Instance Status_eq_decision : EqDecision Status.
Proof. solve_decision. Defined.

Record BlockOutcome := mkBlockOutcome {
  status : Status;
  to_broadcast : list HashBytes;
  missing_parent : option HashBytes
}.

Record BlockTemplate := mkBlockTemplate {
  tmpl_prev_hash : HashBytes;
  tmpl_height : nat;
  tmpl_timestamp : Z;
  tmpl_difficulty : Z;
  tmpl_tip_version : Z;
  tmpl_transactions : list Transaction
}.

Record ChainManager `{BlockStore} := mkChainManager {
  blockchain_ : Blockchain;
  mempool_ : Mempool;
  cm_orphan_pool_ : OrphanPool;
  ledger_ : Ledger;
  storage_ : option store;
  params_ : ConsensusParams;
  tip_version_ : Z
}.

Module Cm.

(** The default [BlockOutcome]. *)
Definition rejected : BlockOutcome := mkBlockOutcome Rejected [] None.

Section manager.
Context `{Crypto, Buckets, BlockStore}.

(** ** Access to the components *)

Definition set_blockchain (c : Blockchain) (s : ChainManager) : ChainManager :=
  mkChainManager _ c (mempool_ s) (cm_orphan_pool_ s) (ledger_ s) (storage_ s) (params_ s) (tip_version_ s).
Definition set_mempool (m : Mempool) (s : ChainManager) : ChainManager :=
  mkChainManager _ (blockchain_ s) m (cm_orphan_pool_ s) (ledger_ s) (storage_ s) (params_ s) (tip_version_ s).
Definition set_orphan_pool (p : OrphanPool) (s : ChainManager) : ChainManager :=
  mkChainManager _ (blockchain_ s) (mempool_ s) p (ledger_ s) (storage_ s) (params_ s) (tip_version_ s).
Definition set_ledger (l : Ledger) (s : ChainManager) : ChainManager :=
  mkChainManager _ (blockchain_ s) (mempool_ s) (cm_orphan_pool_ s) l (storage_ s) (params_ s) (tip_version_ s).
Definition set_storage (st : option store) (s : ChainManager) : ChainManager :=
  mkChainManager _ (blockchain_ s) (mempool_ s) (cm_orphan_pool_ s) (ledger_ s) st (params_ s) (tip_version_ s).

Definition on_mempool {A} (m : ST Mempool A) : ST ChainManager A := st_zoom mempool_ set_mempool m.
Definition on_orphans {A} (m : ST OrphanPool A) : ST ChainManager A :=
  st_zoom cm_orphan_pool_ set_orphan_pool m.
Definition on_ledger {A} (m : ST Ledger A) : ST ChainManager A := st_zoom ledger_ set_ledger m.

(** [if (storage_) storage_->m]. *)
Definition on_storage (m : ST store unit) : ST ChainManager unit := λ s,
  match storage_ s with
  | None => (Ok tt, s)
  | Some st => let '(r, st') := m st in (r, set_storage (Some st') s)
  end.

(** [tip_version_.store(tip_version_.load() + 1)] *)
Definition bump_tip_version : ST ChainManager unit := st_modify (λ s,
  mkChainManager _ (blockchain_ s) (mempool_ s) (cm_orphan_pool_ s) (ledger_ s) (storage_ s) (params_ s)
    (u64 (tip_version_ s + 1))).

(** [block_at_callback_] *)
Definition block_at_callback (c : Blockchain) : nat → result Block := λ index, Bc.at_ index c.

(** ** Applying a block to the ledger *)

(** The handler of a refused transaction: reverse the ones before it, last first. *)
Definition reverse_all (applied : list Transaction) (l : Ledger) : Ledger :=
  foldr (λ tx l, (Ldg.reverse_transaction tx l).2) l applied.

(** The loop, with the transactions before the current one in [applied]. *)
Fixpoint apply_loop (applied txs : list Transaction) : ST Ledger bool :=
  match txs with
  | [] => mret true
  | tx :: txs =>
      ok ← (if Tx.is_coinbase tx then mret true else st_lift (Tx.has_valid_signature tx));
      accepted ← (if (ok : bool) then (λ l, let '(r, l') := Ldg.apply_transaction tx l in (Ok r, l')) : ST Ledger bool
                  else mret false);
      if (accepted : bool) then apply_loop (applied ++ [tx]) txs
      else st_modify (reverse_all applied);; mret false
  end.

Definition apply_block_to_ledger (block : Block) : ST ChainManager bool :=
  on_ledger (apply_loop [] (transactions_ block)).

(** ** Fork handling *)

(** The loop of [find_fork_tips]: the stack is a list with its top first. *)
Fixpoint tips_loop (turns : nat) (pool : OrphanPool) (stack tips : list Block) : list Block :=
  match turns, stack with
  | O, _ => tips ++ stack
  | _, [] => tips
  | S turns, block :: stack =>
      match Op.children_of (hash_ block) pool with
      | [] => tips_loop turns pool stack (tips ++ [block])
      | children => tips_loop turns pool (reverse children ++ stack) tips
      end
  end.

Definition find_fork_tips (start : Block) (s : ChainManager) : list Block :=
  tips_loop kMaxForkDepth (cm_orphan_pool_ s) [start] [].

(** [fork_block_at]: the chain below [base], the fork from [base] up. *)
Definition fork_block_at (base : nat) (fork : ForkChain) (c : Blockchain) (index : nat) : result Block :=
  if (index <? base)%nat then Bc.at_ index c
  else of_option OutOfRange (fork_blocks fork !! (index - base)%nat).

(** The loop from block [i] of the fork. *)
Fixpoint prefix_loop (base i : nat) (fork : ForkChain) (now : Z) (params : ConsensusParams)
    (c : Blockchain) (rest : list Block) : result nat :=
  match rest with
  | [] => mret i
  | block :: rest =>
      valid ← Pow.timestamp_is_valid block (base + i) now params (fork_block_at base fork c);
      if negb valid then mret i else
      expected ← Pow.next_difficulty (base + i) params (fork_block_at base fork c);
      if negb (difficulty_ block =? expected) then mret i else
      prefix_loop base (S i) fork now params c rest
  end.

Definition valid_prefix_length (fork : ForkChain) (now : Z) (s : ChainManager) : result nat :=
  match Bc.find_height (hash_ (common_ancestor fork)) (blockchain_ s) with
  | None => mret 0%nat
  | Some height =>
      prefix_loop (height + 1) 0 fork now (params_ s) (blockchain_ s) (fork_blocks fork)
  end.

(** The first loops of [try_reorg]: signatures are checked, identifiers collected;
    [None] when a signature is wrong. *)
Fixpoint collect_txs (txs : list Transaction) (acc : gset HashBytes * list Transaction)
    : result (option (gset HashBytes * list Transaction)) :=
  match txs with
  | [] => mret (Some acc)
  | tx :: txs =>
      if Tx.is_coinbase tx then collect_txs txs (acc.1, acc.2 ++ [tx]) else
      ok ← Tx.has_valid_signature tx;
      if negb ok then mret None else
      collect_txs txs ({[Tx.compute_hash tx]} ∪ acc.1, acc.2 ++ [tx])
  end.

Fixpoint collect_branch (blocks : list Block) (acc : gset HashBytes * list Transaction)
    : result (option (gset HashBytes * list Transaction)) :=
  match blocks with
  | [] => mret (Some acc)
  | b :: blocks =>
      r ← collect_txs (transactions_ b) acc;
      match r with
      | None => mret None
      | Some acc => collect_branch blocks acc
      end
  end.

(** Identifiers of the discarded transactions, coinbases left out. *)
Definition discarded_hashes (discarded : list Block) : gset HashBytes :=
  list_to_set (Tx.compute_hash <$> filter (λ tx, Tx.is_coinbase tx = false) (discarded ≫= transactions_)).

(** One discarded transaction: unless the new branch has it too, it is reversed and put
    back in the mempool. *)
Definition undo_tx (new_branch_hashes : gset HashBytes) (tx : Transaction) : ST ChainManager unit :=
  if bool_decide (Tx.compute_hash tx ∈ new_branch_hashes) then mret tt else
  st_modify (λ s, set_ledger (Ldg.reverse_transaction tx (ledger_ s)).2 s);;
  if Tx.is_coinbase tx then mret tt else
  on_mempool (Mp.add_transaction tx);; mret tt.

Fixpoint for_each {S A} (f : A → ST S unit) (l : list A) : ST S unit :=
  match l with
  | [] => mret tt
  | a :: l => f a;; for_each f l
  end.

(** One transaction of the new branch: applied unless it was also in the old one. *)
Definition redo_tx (discarded : gset HashBytes) (tx : Transaction) : ST ChainManager unit :=
  if bool_decide (Tx.compute_hash tx ∈ discarded) then mret tt else
  st_modify (λ s, set_ledger (Ldg.apply_transaction tx (ledger_ s)).2 s).

(** The ledger and mempool part of a reorganization. *)
Definition replay (new_branch_hashes : gset HashBytes) (new_branch_txs : list Transaction)
    (discarded : list Block) : ST ChainManager unit :=
  for_each (undo_tx new_branch_hashes) (reverse (discarded ≫= transactions_));;
  for_each (redo_tx (discarded_hashes discarded)) new_branch_txs.

Definition try_reorg (fork_chain : ForkChain) : ST ChainManager (option (list HashBytes)) :=
  s ← st_get;
  heavier ← st_lift (Fork.is_fork_heavier (blockchain_ s) fork_chain);
  if negb heavier then mret None else
  let new_hashes := hash_ <$> fork_blocks fork_chain in
  collected ← st_lift (collect_branch (fork_blocks fork_chain) (∅, []));
  match collected with
  | None => mret None
  | Some (new_branch_hashes, new_branch_txs) =>
      match Bc.reorganize_to fork_chain (blockchain_ s) with
      | (None, _) => mret None
      | (Some discarded, c') =>
          st_modify (set_blockchain c');;
          bump_tip_version;;
          replay new_branch_hashes new_branch_txs discarded;;
          (let fork_point := (Bc.size c' - length new_hashes)%nat in
           on_storage (bs_replace_blocks_from fork_point (drop fork_point (blocks_ c'))));;
          mret (Some new_hashes)
      end
  end.

(** One tip: the branch it heads, cut to its valid prefix, if it beats the best so far. *)
Definition consider_tip (now : Z) (s : ChainManager) (best : option (ForkChain * Z)) (tip : Block)
    : result (option (ForkChain * Z)) :=
  match Fork.build_fork_chain (blockchain_ s) (cm_orphan_pool_ s) tip with
  | None => mret best
  | Some fork =>
      prefix ← valid_prefix_length fork now s;
      if (prefix =? 0)%nat then mret best else
      let fork := mkForkChain (take prefix (fork_blocks fork)) (common_ancestor fork) in
      let work := Fork.fork_work fork in
      match best with
      | Some (_, best_work) => mret (if best_work <? work then Some (fork, work) else best)
      | None => mret (Some (fork, work))
      end
  end.

Fixpoint best_fork (now : Z) (s : ChainManager) (best : option (ForkChain * Z)) (tips : list Block)
    : result (option (ForkChain * Z)) :=
  match tips with
  | [] => mret best
  | tip :: tips => best ← consider_tip now s best tip; best_fork now s best tips
  end.

Definition handle_fork_candidate (block : Block) (now : Z) : ST ChainManager BlockOutcome :=
  on_orphans (Op.add_orphan block);;
  s ← st_get;
  match Fork.build_fork_chain (blockchain_ s) (cm_orphan_pool_ s) block with
  | None => mret (mkBlockOutcome NeedParent [] (Some (prev_hash_ block)))
  | Some _ =>
      best ← st_lift (best_fork now s None (find_fork_tips block s));
      match best with
      | None => mret rejected
      | Some (fork, _) =>
          reorg_hashes ← try_reorg fork;
          match reorg_hashes with
          | None => mret rejected
          | Some hashes =>
              for_each (λ hash, on_orphans (st_modify (Op.remove_orphan hash))) hashes;;
              mret (mkBlockOutcome Reorged hashes None)
          end
      end
  end.

(** ** Operations *)

(** The constructor's effect on the members. *)
Definition make (mempool_max_size : nat) (params : ConsensusParams) (st : option store) : ChainManager :=
  mkChainManager _ Bc.make (Mp.make mempool_max_size) (Op.make kDefaultMaxOrphans) Ldg.empty st params 0.

(** The constructor's body: genesis is written to an empty store. *)
Definition init : ST ChainManager unit :=
  s ← st_get;
  genesis ← st_lift (of_option UndefinedBehaviour (blocks_ (blockchain_ s) !! 0%nat));
  on_storage (count ← bs_block_count;
              if count =? 0 then bs_save_block genesis 0 else mret tt).

Definition submit_block (block : Block) (now : Z) : ST ChainManager BlockOutcome :=
  if negb (Pow.meets_target (hash_ block) (difficulty_ block)) then mret rejected else
  if negb (Pow.validate_coinbase_amount (transactions_ block)) then mret rejected else
  s ← st_get;
  block_status ← st_lift (Bc.classify_new_block block (blockchain_ s));
  match block_status with
  | Valid =>
      let callback := block_at_callback (blockchain_ s) in
      valid ← st_lift (Pow.timestamp_is_valid block (Bc.size (blockchain_ s)) now (params_ s) callback);
      if negb valid then mret rejected else
      expected ← st_lift (Pow.next_difficulty (Bc.size (blockchain_ s)) (params_ s) callback);
      if negb (difficulty_ block =? expected) then mret rejected else
      applied ← apply_block_to_ledger block;
      if (applied : bool) then
        st_modify (λ s, set_mempool (foldl (λ m tx, Mp.remove_transaction tx m) (mempool_ s)
                                       (transactions_ block)) s);;
        st_modify (λ s, set_blockchain (Bc.add_block block (blockchain_ s)) s);;
        bump_tip_version;;
        s ← st_get;
        on_storage (bs_save_block block (Bc.size (blockchain_ s) - 1));;
        mret (mkBlockOutcome Accepted [hash_ block] None)
      else mret rejected
  | ForkCandidate => handle_fork_candidate block now
  | Invalid => mret rejected
  end.

Definition submit_transaction (tx : Transaction) : ST ChainManager bool :=
  on_mempool (Mp.add_transaction tx).

Definition set_balance (address : str) (amount : Z) : ST ChainManager unit :=
  st_modify (λ s, set_ledger (Ldg.set_balance address amount (ledger_ s)) s).

Definition restore_block (block : Block) : ST ChainManager bool :=
  applied ← apply_block_to_ledger block;
  if negb applied then mret false else
  st_modify (λ s, set_blockchain (Bc.add_block block (blockchain_ s)) s);;
  bump_tip_version;;
  mret true.

(** The leading blocks already in the chain are skipped. *)
Fixpoint skip_known (c : Blockchain) (blocks : list Block) : list Block :=
  match blocks with
  | [] => []
  | b :: rest => if Bc.has_block (hash_ b) c then skip_known c rest else blocks
  end.

(** [blocks[i].prev_hash_ == blocks[i - 1].hash_] for every later block. *)
Fixpoint branch_linked (prev : Block) (blocks : list Block) : bool :=
  match blocks with
  | [] => true
  | b :: rest => bool_decide (prev_hash_ b = hash_ prev) && branch_linked b rest
  end.

Definition adopt_branch (blocks : list Block) (now : Z) : ST ChainManager bool :=
  s ← st_get;
  match skip_known (blockchain_ s) blocks with
  | [] => mret false
  | first :: rest =>
      match Bc.find_height (prev_hash_ first) (blockchain_ s) with
      | None => mret false
      | Some height =>
          if negb (branch_linked first rest) then mret false else
          ancestor ← st_lift (Bc.at_ height (blockchain_ s));
          let fork := mkForkChain (first :: rest) ancestor in
          prefix ← st_lift (valid_prefix_length fork now s);
          if (prefix =? 0)%nat then mret false else
          let fork := mkForkChain (take prefix (fork_blocks fork)) ancestor in
          reorged ← try_reorg fork;
          mret (bool_decide (is_Some reorged))
      end
  end.

(** ** Queries *)

Definition chain_height (s : ChainManager) : nat := Bc.size (blockchain_ s).

Definition latest_hash (s : ChainManager) : result HashBytes :=
  latest ← Bc.latest (blockchain_ s); mret (hash_ latest).

Definition has_block (hash : HashBytes) (s : ChainManager) : bool := Bc.has_block hash (blockchain_ s).

(** The chain and the orphan pool are read under separate locks: [s] is the state at the
    first, [s'] at the second. *)
Definition find_block (hash : HashBytes) (s s' : ChainManager) : option Block :=
  match Bc.find hash (blockchain_ s) with
  | Some block => Some block
  | None => Op.find_orphan hash (cm_orphan_pool_ s')
  end.

(** Blocks [from] to [end_], shared by the two range queries. *)
Definition blocks_range (from end_ : nat) (c : Blockchain) : list Block :=
  take (end_ - from) (drop from (blocks_ c)).

Definition blocks_from (from limit : nat) (s : ChainManager) : list Block :=
  if (Bc.size (blockchain_ s) <=? from)%nat then [] else
  blocks_range from (Bc.size (blockchain_ s) `min` (from + limit)) (blockchain_ s).

Definition has_transaction (hash : HashBytes) (s : ChainManager) : bool :=
  Mp.has_transaction hash (mempool_ s).

Definition find_transaction (hash : HashBytes) (s : ChainManager) : option Transaction :=
  Mp.find hash (mempool_ s).

(** The loop of [select_transactions] over a simulated ledger. *)
Fixpoint select_loop (simulated : Ledger) (candidates : list Transaction) : list Transaction :=
  match candidates with
  | [] => []
  | tx :: candidates =>
      match Ldg.apply_transaction tx simulated with
      | (true, simulated) => tx :: select_loop simulated candidates
      | (false, simulated) => select_loop simulated candidates
      end
  end.

Definition select_transactions (limit : nat) (s : ChainManager) : list Transaction :=
  select_loop (ledger_ s) (Mp.get_transactions_for_block limit (mempool_ s)).

Definition transactions_for_block (limit : nat) (s : ChainManager) : list Transaction :=
  select_transactions limit s.

Definition mempool_snapshot (s : ChainManager) : list Transaction :=
  Mp.get_transactions_for_block (Mp.size (mempool_ s)) (mempool_ s).

Definition get_balance (address : str) (s : ChainManager) : option Z := Ldg.get_balance address (ledger_ s).

Definition block_at (index : nat) (s : ChainManager) : result Block := Bc.at_ index (blockchain_ s).

Definition all_balances (s : ChainManager) : list (str * Z) := Ldg.all_balances (ledger_ s).

Definition next_block_difficulty (s : ChainManager) : result Z :=
  Pow.next_difficulty (Bc.size (blockchain_ s)) (params_ s) (block_at_callback (blockchain_ s)).

Definition block_template (max_txs : nat) (now : Z) (s : ChainManager) : result BlockTemplate :=
  latest ← Bc.latest (blockchain_ s);
  let height := Bc.size (blockchain_ s) in
  let callback := block_at_callback (blockchain_ s) in
  difficulty ← Pow.next_difficulty height (params_ s) callback;
  mtp ← Pow.median_time_past height (mtp_window (params_ s)) callback;
  mret (mkBlockTemplate (hash_ latest) height (Z.max now (u64 (mtp + 1))) difficulty
          (tip_version_ s) (select_transactions max_txs s)).

Definition next_nonce (address : str) (s : ChainManager) : Z := Ldg.next_nonce address (ledger_ s).

Definition locator (s : ChainManager) : result (list HashBytes) := Loc.build_locator (blockchain_ s).

Definition blocks_after_locator (loc : list HashBytes) (limit : nat) (s : ChainManager) : list Block :=
  match Loc.find_locator_match (blockchain_ s) loc with
  | None => []
  | Some match_ =>
      let from := (match_ + 1)%nat in
      let size := Bc.size (blockchain_ s) in
      if (size <=? from)%nat then [] else
      blocks_range from (size `min` (from + limit)) (blockchain_ s)
  end.

Definition tip_version (s : ChainManager) : Z := tip_version_ s.
End manager.
End Cm.
