(* ===== verification/ChainLedger.v ===== *)
(** * Applying blocks: atomicity and selection (ChainManager.cpp, the ledger side)

    [apply_block_to_ledger] either applies every transaction of a block or rolls the
    ledger back; [select_transactions] picks candidates that apply in sequence.
    [accepted_run] is the declarative reading of a successful application. *)

From S2P Require Import Prelude Codec Crypto Demo Transaction Block Ledger Mempool OrphanPool.
From S2P Require Import ProofOfWork Blockchain ForkResolution BlockLocator Storage.
From S2P Require Import ChainManager.

Module Cl.

(** Transactions applied one after the other, each accepted. *)
Inductive accepted_run : list Transaction → Ledger → Ledger → Prop :=
| run_nil l : accepted_run [] l l
| run_cons tx txs l l1 l2 :
    Ldg.apply_transaction tx l = (true, l1) → accepted_run txs l1 l2 →
    accepted_run (tx :: txs) l l2.

(** Signed by its sender, or a coinbase. *)
Definition authorized `{Crypto} (tx : Transaction) : Prop :=
  Tx.is_coinbase tx = true ∨ Tx.has_valid_signature tx = Ok true.

(** All the money there can be while [txs] are applied to [l] stays below 2^63, and no
    transaction's own sum wraps. *)
Definition bounded (txs : list Transaction) (l : Ledger) : Prop :=
  Ldg.supply l + Pow.total_minted txs < 2 ^ 63 ∧
  Forall (λ tx, Tx.wf tx ∧ in_u 64 (amount_ tx + fee_ tx)) txs.

Lemma accepted_run_det txs l l1 l2 : accepted_run txs l l1 → accepted_run txs l l2 → l1 = l2.
Proof.
  intros R. revert l2. induction R as [|tx txs l la lb E _ IH]; intros l2 R2;
    inversion R2 as [|? ? ? lc ? E2 R3]; subst; [done|].
  rewrite E in E2. injection E2 as <-. by apply IH.
Qed.

Lemma accepted_run_snoc txs tx l l1 l2 :
  accepted_run txs l l1 → Ldg.apply_transaction tx l1 = (true, l2) → accepted_run (txs ++ [tx]) l l2.
Proof.
  intros R E. induction R; simpl; econstructor; [done|constructor|done|by apply IHR].
Qed.

Lemma accepted_run_app txs txs' l l1 l2 :
  accepted_run txs l l1 → accepted_run txs' l1 l2 → accepted_run (txs ++ txs') l l2.
Proof. intros R R'. induction R; simpl; [done|]. econstructor; [done|by apply IHR]. Qed.

Lemma accepted_run_wf txs l l' :
  Forall Tx.wf txs → Ldg.wf l → accepted_run txs l l' → Ldg.wf l'.
Proof.
  intros Hw Hl R. induction R as [|tx txs l l1 l2 E _ IH]; [done|].
  apply Forall_cons in Hw as [Hw1 Hw2]. apply IH; [done|].
  pose proof (Ldg.apply_transaction_wf tx l Hw1 Hl) as Hl1. by rewrite E in Hl1.
Qed.

Lemma total_minted_cons tx txs :
  Pow.total_minted (tx :: txs) = (if Tx.is_coinbase tx then amount_ tx else 0) + Pow.total_minted txs.
Proof. done. Qed.

Lemma total_minted_nonneg txs : Forall Tx.wf txs → 0 <= Pow.total_minted txs.
Proof.
  induction 1 as [|tx txs (Ha & _) _ IH]; [done|]. rewrite total_minted_cons.
  case_match; solve_width.
Qed.

(** Within the bound an accepted transaction overflows nothing. *)
Lemma bounded_no_overflow tx txs l l1 :
  Ldg.wf l → bounded (tx :: txs) l → Ldg.apply_transaction tx l = (true, l1) →
  Ldg.no_overflow tx l.
Proof.
  intros Hl [Hs [[(Ha & Hf & _) Haf] Hws]%Forall_cons] E. split; [done|].
  assert (0 <= Pow.total_minted txs) as Hm.
  { apply total_minted_nonneg. eapply Forall_impl; [exact Hws|]. by intros ? [? _]. }
  rewrite total_minted_cons in Hs. change (2 ^ 63) with 9223372036854775808 in Hs.
  pose proof (Ldg.balance_le_supply (recipient_ tx) l Hl). pose proof (Ldg.wf_balance (recipient_ tx) l Hl).
  apply Ldg.apply_transaction_true in E as [[Hc _]|(Hc & _ & Hb & _ & _)].
  - apply Tx.is_coinbase_spec in Hc. rewrite Hc in Hs. solve_width.
  - apply Tx.is_coinbase_false in Hc. rewrite Hc in Hs. rewrite wrap_small in Hb by done.
    pose proof (Ldg.balance_le_supply (sender_ tx) l Hl). solve_width.
Qed.

Lemma supply_apply tx l l1 :
  Tx.wf tx → Ldg.wf l → Ldg.no_overflow tx l → Ldg.supply l < 2 ^ 64 →
  Ldg.apply_transaction tx l = (true, l1) →
  Ldg.supply l1 <= Ldg.supply l + (if Tx.is_coinbase tx then amount_ tx else 0).
Proof.
  intros Ht Hl [Haf Hra] Hs E. apply Ldg.apply_transaction_true in E as [[Hc ->]|(Hc & _ & Hb & _ & ->)].
  - apply Tx.is_coinbase_spec in Hc. rewrite Hc, Ldg.supply_credit by done. lia.
  - apply Tx.is_coinbase_false in Hc. rewrite Hc. rewrite wrap_small in Hb by done.
    rewrite Ldg.supply_credit by (by apply Ldg.transfer_no_overflow).
    rewrite Ldg.supply_debit by done. destruct Ht as (_ & Hf & _). solve_width.
Qed.

Lemma bounded_step tx txs l l1 :
  Ldg.wf l → bounded (tx :: txs) l → Ldg.apply_transaction tx l = (true, l1) → bounded txs l1.
Proof.
  intros Hl Hb E. pose proof (bounded_no_overflow tx txs l l1 Hl Hb E) as Hno.
  destruct Hb as [Hs [[Ht _] Hws]%Forall_cons]. split; [|done].
  assert (0 <= Pow.total_minted txs) as Hm.
  { apply total_minted_nonneg. eapply Forall_impl; [exact Hws|]. by intros ? [? _]. }
  rewrite total_minted_cons in Hs. change (2 ^ 63) with 9223372036854775808 in *.
  pose proof (supply_apply tx l l1 Ht Hl Hno) as Hsup. destruct Ht as (Ha & _).
  assert (Ldg.supply l < 2 ^ 64) as Hlt by (destruct (Tx.is_coinbase tx); solve_width).
  specialize (Hsup Hlt E). lia.
Qed.

(** ** Wrapping credits

    Undoing a transaction relies on its credit having stayed within 64 bits. While [txs] are
    applied to [l], each accepted, a credit [wraps] around: the balance of a recipient goes
    past 2^64 and becomes small. *)
Definition wraps (txs : list Transaction) (l : Ledger) : Prop :=
  ∃ pre tx post l1 l2, txs = pre ++ tx :: post ∧ accepted_run pre l l1 ∧
    Ldg.apply_transaction tx l1 = (true, l2) ∧ ¬ Ldg.fits tx l1.

Lemma wraps_here tx txs l l1 : Ldg.apply_transaction tx l = (true, l1) → ¬ Ldg.fits tx l → wraps (tx :: txs) l.
Proof. intros E Hf. exists [], tx, txs, l, l1. split_and!; [done|constructor|done..]. Qed.

Lemma wraps_later tx txs l l1 : Ldg.apply_transaction tx l = (true, l1) → wraps txs l1 → wraps (tx :: txs) l.
Proof.
  intros E (pre & tx' & post & l2 & l3 & -> & R & E' & Hf). exists (tx :: pre), tx', post, l2, l3.
  split_and!; [done|by econstructor|done..].
Qed.

Lemma wraps_app txs txs' l : wraps txs l → wraps (txs ++ txs') l.
Proof.
  intros (pre & tx & post & l1 & l2 & -> & ?). exists pre, tx, (post ++ txs'), l1, l2.
  by rewrite <- app_assoc.
Qed.

(** Within the bound no credit wraps. *)
Lemma bounded_wraps txs l : Ldg.wf l → bounded txs l → ¬ wraps txs l.
Proof.
  intros Hl Hb (pre & tx & post & l1 & l2 & -> & R & E & Hf). apply Hf. clear Hf.
  revert Hl Hb. induction R as [l|tx' txs l la lb E' R IH]; intros Hl Hb.
  - eapply Ldg.no_overflow_fits; [|done|by eapply bounded_no_overflow|exact E].
    by destruct Hb as [_ [[? _] _]%Forall_cons].
  - apply IH; [done| |by eapply bounded_step]. destruct Hb as [_ [[Ht _] _]%Forall_cons].
    pose proof (Ldg.apply_transaction_wf tx' l Ht Hl) as W. by rewrite E' in W.
Qed.

(** Reversing an accepted run, last transaction first, restores the ledger. *)
Lemma reverse_run txs l l' l2 :
  Ldg.wf l → Forall Tx.wf txs → accepted_run txs l l' → Ldg.refines l' l2 →
  Ldg.refines l (Cm.reverse_all txs l2) ∨ wraps txs l.
Proof.
  intros Hl Hw R. revert Hl Hw l2. induction R as [|tx txs l l1 l' E R IH]; intros Hl Hw l2 Href; [by left|].
  apply Forall_cons in Hw as [Ht Hw].
  assert (Ldg.wf l1) as Hl1 by (pose proof (Ldg.apply_transaction_wf tx l Ht Hl) as W; by rewrite E in W).
  destruct (IH Hl1 Hw l2 Href) as [IH'|Hwr]; [|right; by eapply wraps_later].
  destruct (decide (Ldg.fits tx l)) as [Hno|Hno]; [left|right; by eapply wraps_here].
  clear IH. rename IH' into IH. cbn [Cm.reverse_all foldr] in *.
  destruct (Ldg.reverse_apply tx l l1 Ht Hl Hno E) as (l0 & E0 & R0).
  destruct (Ldg.reverse_refines tx l1 _ l0 IH E0) as (l3 & E3 & R3).
  unfold Cm.reverse_all in E3. rewrite E3. simpl. by etrans.
Qed.

Section apply.
Context `{Crypto, Buckets, BlockStore}.

(** The three ways the loop ends. *)
Lemma apply_loop_spec txs applied l0 l :
  accepted_run applied l0 l →
  match Cm.apply_loop applied txs l with
  | (Ok true, l') => Forall authorized txs ∧ accepted_run txs l l'
  | (Ok false, l') => ∃ pre tx post l1, txs = pre ++ tx :: post ∧ accepted_run pre l l1 ∧
      (Tx.has_valid_signature tx = Ok false ∨ (Ldg.apply_transaction tx l1).1 = false) ∧
      l' = Cm.reverse_all (applied ++ pre) l1
  | (Throw e, l') => ∃ pre tx post, txs = pre ++ tx :: post ∧ accepted_run pre l l' ∧
      Tx.has_valid_signature tx = Throw e
  end.
Proof.
  revert applied l. induction txs as [|tx txs IH]; intros applied l R; [by repeat constructor|].
  cbn [Cm.apply_loop]. unfold mbind, ST_bind.
  assert (∀ l1, Ldg.apply_transaction tx l = (true, l1) → authorized tx →
    match Cm.apply_loop (applied ++ [tx]) txs l1 with
    | (Ok true, l') => Forall authorized (tx :: txs) ∧ accepted_run (tx :: txs) l l'
    | (Ok false, l') => ∃ pre tx' post l1, tx :: txs = pre ++ tx' :: post ∧ accepted_run pre l l1 ∧
        (Tx.has_valid_signature tx' = Ok false ∨ (Ldg.apply_transaction tx' l1).1 = false) ∧
        l' = Cm.reverse_all (applied ++ pre) l1
    | (Throw e, l') => ∃ pre tx' post, tx :: txs = pre ++ tx' :: post ∧ accepted_run pre l l' ∧
        Tx.has_valid_signature tx' = Throw e
    end) as Hnext.
  { intros l1 E Hau. specialize (IH (applied ++ [tx]) l1 (accepted_run_snoc _ _ _ _ _ R E)).
    destruct (Cm.apply_loop (applied ++ [tx]) txs l1) as [[[]|e] l'].
    - destruct IH. split; [by constructor|by econstructor].
    - destruct IH as (pre & tx' & post & l2 & -> & R' & Hbad & ->).
      exists (tx :: pre), tx', post, l2. split_and!; [done|by econstructor|done|].
      by rewrite <- app_assoc.
    - destruct IH as (pre & tx' & post & -> & R' & Hbad).
      exists (tx :: pre), tx', post. split_and!; [done|by econstructor|done]. }
  assert (∀ l1, (Ldg.apply_transaction tx l).1 = false ∨ Tx.has_valid_signature tx = Ok false → l1 = l →
    ∃ pre tx' post l2, tx :: txs = pre ++ tx' :: post ∧ accepted_run pre l l2 ∧
      (Tx.has_valid_signature tx' = Ok false ∨ (Ldg.apply_transaction tx' l2).1 = false) ∧
      Cm.reverse_all applied l1 = Cm.reverse_all (applied ++ pre) l2) as Hstop.
  { intros l1 Hor ->. exists [], tx, txs, l. rewrite app_nil_r. split_and!; [done|constructor|tauto|done]. }
  destruct (Tx.is_coinbase tx) eqn:Ec; cbn [mret ST_ret].
  - destruct (Ldg.apply_transaction tx l) as [[] l1] eqn:E.
    + apply Hnext; [done|by left].
    + cbn. apply Hstop; [by left|]. by apply Ldg.apply_transaction_false in E.
  - unfold st_lift. destruct (Tx.has_valid_signature tx) as [[]|e] eqn:Es.
    + destruct (Ldg.apply_transaction tx l) as [[] l1] eqn:E.
      * apply Hnext; [done|by right].
      * cbn. apply Hstop; [by left|]. by apply Ldg.apply_transaction_false in E.
    + cbn. apply Hstop; [by right|done].
    + exists [], tx, txs. split_and!; [done|constructor|done].
Qed.

Lemma bounded_prefix pre post l : bounded (pre ++ post) l → bounded pre l.
Proof.
  intros [Hs [Hw1 Hw2]%Forall_app]. split; [|done]. rewrite Pow.total_minted_app in Hs.
  assert (0 <= Pow.total_minted post); [|lia].
  apply total_minted_nonneg. eapply Forall_impl; [exact Hw2|]. by intros ? [? _].
Qed.

(** A refused block is undone, unless a credit has wrapped. *)
Lemma apply_loop_refused txs l :
  Ldg.wf l → Forall Tx.wf txs →
  match Cm.apply_loop [] txs l with (Ok false, l') => Ldg.refines l l' ∨ wraps txs l | _ => True end.
Proof.
  intros Hl Hw. pose proof (apply_loop_spec txs [] _ _ (run_nil l)) as Hloop.
  destruct (Cm.apply_loop [] txs l) as [[[]|e] l']; [done| |done].
  destruct Hloop as (pre & tx & post & l1 & -> & R & _ & ->). apply Forall_app in Hw as [Hw _].
  destruct (reverse_run pre l l1 l1 Hl Hw R) as [?|?]; [done|by left|right; by apply wraps_app].
Qed.

Lemma apply_block_eq block s :
  Cm.apply_block_to_ledger block s =
  let '(r, l') := Cm.apply_loop [] (transactions_ block) (ledger_ s) in (r, Cm.set_ledger l' s).
Proof. done. Qed.

Lemma submit_transaction_mempool tx s :
  mempool_ (Cm.submit_transaction tx s).2 = (Mp.add_transaction tx (mempool_ s)).2.
Proof.
  unfold Cm.submit_transaction, Cm.on_mempool, st_zoom. by destruct (Mp.add_transaction tx (mempool_ s)).
Qed.

(** An authorized run is applied to the end. *)
Lemma apply_loop_complete txs applied l l' :
  Forall authorized txs → accepted_run txs l l' → Cm.apply_loop applied txs l = (Ok true, l').
Proof.
  intros Ha R. revert applied Ha. induction R as [|tx txs l l1 l2 E _ IH]; intros applied Ha; [done|].
  apply Forall_cons in Ha as [Htx Ha]. cbn [Cm.apply_loop]. unfold mbind, ST_bind.
  destruct (Tx.is_coinbase tx) eqn:Ec; cbn [mret ST_ret].
  - rewrite E. by apply IH.
  - destruct Htx as [?|Hs]; [congruence|]. unfold st_lift. rewrite Hs, E. by apply IH.
Qed.

(** ** Richer ledgers accept more

    [richer l l']: the same nonces, at least the same accounts and balances. *)
Definition richer (l l' : Ledger) : Prop :=
  (∀ a, Ldg.balance a l <= Ldg.balance a l') ∧ (∀ a, Ldg.next_nonce a l' = Ldg.next_nonce a l) ∧
  (∀ a, is_Some (balances_ l !! a) → is_Some (balances_ l' !! a)).

Lemma richer_credit tx l l' :
  richer l l' → Ldg.wf l → Ldg.wf l' → 0 <= amount_ tx →
  in_u 64 (Ldg.balance (recipient_ tx) l' + amount_ tx) → richer (Ldg.credit tx l) (Ldg.credit tx l').
Proof.
  intros (B & N & D) Hl Hl' Ha Hr. pose proof (B (recipient_ tx)).
  pose proof (Ldg.wf_balance (recipient_ tx) l Hl). unfold Ldg.credit. split_and!.
  - intros a. rewrite !Ldg.balance_set_balance, !wrap_small by solve_width. case_decide; [lia|apply B].
  - intros a. rewrite !Ldg.next_nonce_set_balance. apply N.
  - intros a. rewrite !Ldg.is_Some_set_balance. naive_solver.
Qed.

Lemma richer_debit tx l l' :
  richer l l' → Ldg.wf l → Ldg.wf l' → in_u 64 (amount_ tx + fee_ tx) →
  amount_ tx + fee_ tx <= Ldg.balance (sender_ tx) l → richer (Ldg.debit tx l) (Ldg.debit tx l').
Proof.
  intros (B & N & D) Hl Hl' Haf Hb. pose proof (B (sender_ tx)).
  pose proof (Ldg.wf_balance (sender_ tx) l' Hl').
  unfold Ldg.debit. rewrite !(wrap_small 64 (amount_ tx + fee_ tx)) by done. split_and!.
  - intros a. rewrite !Ldg.balance_set_nonce, !Ldg.balance_set_balance, !wrap_small by solve_width.
    case_decide; [lia|apply B].
  - intros a. rewrite !Ldg.next_nonce_set_nonce, !Ldg.next_nonce_set_balance. case_decide; [done|apply N].
  - intros a. unfold Ldg.set_nonce. cbn [balances_]. rewrite !Ldg.is_Some_set_balance. naive_solver.
Qed.

(** A richer ledger accepts the same transaction and stays richer. *)
Lemma apply_richer tx txs l l' l1 :
  richer l l' → Ldg.wf l → Ldg.wf l' → bounded (tx :: txs) l' → Ldg.apply_transaction tx l = (true, l1) →
  ∃ l1', Ldg.apply_transaction tx l' = (true, l1') ∧ richer l1 l1'.
Proof.
  intros Hri Hl Hl' Hbd E. pose proof Hri as (B & N & D).
  assert (∃ l1', Ldg.apply_transaction tx l' = (true, l1')) as [l1' E'].
  { apply Ldg.apply_transaction_true in E as [[Hc _]|(Hc & Hd & Hb & Hn & _)]; eexists;
      apply Ldg.apply_transaction_true; [by left|].
    right. split_and!; [done|by apply D|specialize (B (sender_ tx)); lia|by rewrite N|done]. }
  pose proof (bounded_no_overflow tx txs l' l1' Hl' Hbd E') as [Haf Hra].
  pose proof Hbd as [_ [[(Ha & Hf & _) _] _]%Forall_cons]. exists l1'. split; [done|].
  apply Ldg.apply_transaction_true in E as [[Hc ->]|(Hc & Hd & Hb & Hn & ->)],
    E' as [[Hc' ->]|(Hc' & Hd' & Hb' & Hn' & ->)]; try done.
  - apply richer_credit; [done..|solve_width|done].
  - rewrite wrap_small in Hb, Hb' by done.
    apply richer_credit; [by apply richer_debit|by apply Ldg.debit_wf..|solve_width|].
    pose proof (Ldg.debit_balance_le tx l' (recipient_ tx) Hl' Haf Hb'). solve_width.
Qed.

Lemma run_richer txs l l' l2 :
  richer l l' → Ldg.wf l → Ldg.wf l' → bounded txs l' → accepted_run txs l l2 →
  ∃ l2', accepted_run txs l' l2'.
Proof.
  intros Hri Hl Hl' Hb R. revert l' Hri Hl Hl' Hb.
  induction R as [|tx txs l l1 l2 E _ IH]; intros l' Hri Hl Hl' Hb; [by exists l'; constructor|].
  destruct (apply_richer tx txs l l' l1 Hri Hl Hl' Hb E) as (l1' & E' & Hri').
  pose proof Hb as [_ [[Ht _] _]%Forall_cons].
  pose proof (Ldg.apply_transaction_wf tx l Ht Hl) as W. rewrite E in W.
  pose proof (Ldg.apply_transaction_wf tx l' Ht Hl') as W'. rewrite E' in W'.
  destruct (IH l1' Hri' W W' (bounded_step tx txs l' l1' Hl' Hb E')) as [l2' R'].
  exists l2'. by econstructor.
Qed.

(** ** Selecting transactions *)

Lemma select_loop_spec txs l :
  ∃ l', accepted_run (Cm.select_loop l txs) l l' ∧ sublist (Cm.select_loop l txs) txs.
Proof.
  revert l. induction txs as [|tx txs IH]; intros l; simpl; [exists l; by repeat constructor|].
  destruct (Ldg.apply_transaction tx l) as [[] l1] eqn:E.
  - destruct (IH l1) as (l' & R & Hs). exists l'. split; [by econstructor|by constructor].
  - apply Ldg.apply_transaction_false in E as ->. destruct (IH l) as (l' & R & Hs).
    exists l'. split; [done|by constructor].
Qed.

Lemma select_transactions_spec limit s :
  ∃ l', accepted_run (Cm.select_transactions limit s) (ledger_ s) l' ∧
    sublist (Cm.select_transactions limit s) (pending_ (mempool_ s)) ∧
    (length (Cm.select_transactions limit s) <= limit)%nat.
Proof.
  destruct (select_loop_spec (Mp.get_transactions_for_block limit (mempool_ s)) (ledger_ s))
    as (l' & R & Hs).
  exists l'. split_and!; [done| |].
  - etrans; [exact Hs|]. apply sublist_take.
  - apply sublist_length in Hs. unfold Mp.get_transactions_for_block in Hs.
    rewrite length_take in Hs. unfold Cm.select_transactions, Mp.get_transactions_for_block. lia.
Qed.

(** ** Properties *)

(** C5. Applying a block, for fields and balances that fit their 64 bits. If
    [apply_block_to_ledger] succeeds, every transaction is a coinbase or carries its
    sender's valid signature, and all of them were accepted in order. If it refuses, nothing
    but the ledger has been touched, and either a credit of the block wrapped around 2^64
    before the refusal, or the ledger is undone: every nonce and every account is what it
    was, except that an account that did not exist may now exist with balance 0. If it
    throws, it does so at a transaction whose public key is malformed, and the transactions
    before that one stay applied. *)
Theorem apply_block_atomic block s :
  Ldg.wf (ledger_ s) → Forall Tx.wf (transactions_ block) →
  match Cm.apply_block_to_ledger block s with
  | (Ok true, s') => Forall authorized (transactions_ block) ∧
      ∃ l', accepted_run (transactions_ block) (ledger_ s) l' ∧ s' = Cm.set_ledger l' s
  | (Ok false, s') => ∃ l', s' = Cm.set_ledger l' s ∧
      (wraps (transactions_ block) (ledger_ s) ∨
       (∀ a, Ldg.next_nonce a l' = Ldg.next_nonce a (ledger_ s)) ∧
       (∀ a, Ldg.get_balance a l' = Ldg.get_balance a (ledger_ s) ∨
             Ldg.get_balance a (ledger_ s) = None ∧ Ldg.get_balance a l' = Some 0))
  | (Throw e, s') => ∃ pre tx post l', transactions_ block = pre ++ tx :: post ∧
      Tx.has_valid_signature tx = Throw e ∧ accepted_run pre (ledger_ s) l' ∧ s' = Cm.set_ledger l' s
  end.
Proof.
  intros Hl Hw. rewrite apply_block_eq.
  pose proof (apply_loop_refused (transactions_ block) (ledger_ s) Hl Hw) as Hno.
  pose proof (apply_loop_spec (transactions_ block) [] _ _ (run_nil (ledger_ s))) as Hloop.
  destruct (Cm.apply_loop [] (transactions_ block) (ledger_ s)) as [[[]|e] l'].
  - destruct Hloop. eauto.
  - exists l'. split; [done|]. destruct Hno as [Hr|Hwr]; [right|by left]. by apply Ldg.refines_entries.
  - destruct Hloop as (pre & tx & post & E & R & Hs). by exists pre, tx, post, l'.
Qed.

(** What a miner is offered can be mined: the transactions [select_transactions]
    returns come from the mempool in fee order, are at most [limit], all carry valid
    signatures, and are accepted one after the other by the current ledger. *)
Theorem selection_applies limit s :
  Mp.inv (mempool_ s) →
  (∃ l', accepted_run (Cm.select_transactions limit s) (ledger_ s) l') ∧
  sublist (Cm.select_transactions limit s) (pending_ (mempool_ s)) ∧
  (length (Cm.select_transactions limit s) <= limit)%nat ∧
  Forall (λ tx, Tx.has_valid_signature tx = Ok true) (Cm.select_transactions limit s).
Proof.
  intros Hm. destruct (select_transactions_spec limit s) as (l' & R & Hs & Hlen).
  split_and!; [by exists l'|done|done|].
  rewrite Forall_forall. intros tx Htx. pose proof (Mp.inv_signed _ Hm) as Hf.
  rewrite Forall_forall in Hf. apply Hf. by eapply elem_of_sublist.
Qed.
End apply.

(** ** Witnesses *)
Section witnesses.
#[local] Existing Instance demo_crypto.
#[local] Existing Instance demo_sqlite.
#[local] Existing Instance Op.demo_buckets.

Definition demo_ledger : Ledger := Ldg.set_balance (demo_address "alice") 100 Ldg.empty.

Definition demo_manager : ChainManager :=
  Cm.set_ledger demo_ledger (Cm.make 10 kTestParams None).

(** The second payment has the wrong nonce: the block is refused. *)
Definition demo_bad_block : Block :=
  Blk.make 1 (le 32 0) 10 [demo_pay "alice" "bob" 10 1 0; demo_pay "alice" "bob" 10 1 7].

Lemma demo_ledger_wf : Ldg.wf demo_ledger.
Proof. apply Ldg.wf_set_balance; [apply Ldg.wf_empty|done]. Qed.

Lemma apply_block_atomic_witness :
  match Cm.apply_block_to_ledger demo_bad_block demo_manager with
  | (Ok true, s') => Forall authorized (transactions_ demo_bad_block) ∧
      ∃ l', accepted_run (transactions_ demo_bad_block) demo_ledger l' ∧ s' = Cm.set_ledger l' demo_manager
  | (Ok false, s') => ∃ l', s' = Cm.set_ledger l' demo_manager ∧
      (wraps (transactions_ demo_bad_block) demo_ledger ∨
       (∀ a, Ldg.next_nonce a l' = Ldg.next_nonce a demo_ledger) ∧
       (∀ a, Ldg.get_balance a l' = Ldg.get_balance a demo_ledger ∨
             Ldg.get_balance a demo_ledger = None ∧ Ldg.get_balance a l' = Some 0))
  | (Throw e, s') => ∃ pre tx post l', transactions_ demo_bad_block = pre ++ tx :: post ∧
      Tx.has_valid_signature tx = Throw e ∧ accepted_run pre demo_ledger l' ∧ s' = Cm.set_ledger l' demo_manager
  end.
Proof.
  apply (apply_block_atomic demo_bad_block demo_manager).
  - apply demo_ledger_wf.
  - apply (bool_decide_unpack _). by vm_compute.
Defined.

Definition demo_manager_tx : ChainManager :=
  (Cm.submit_transaction (demo_pay "alice" "bob" 10 1 0) demo_manager).2.

Lemma selection_applies_witness :
  (∃ l', accepted_run (Cm.select_transactions 5 demo_manager_tx) demo_ledger l') ∧
  sublist (Cm.select_transactions 5 demo_manager_tx) (pending_ (mempool_ demo_manager_tx)) ∧
  (length (Cm.select_transactions 5 demo_manager_tx) <= 5)%nat ∧
  Forall (λ tx, Tx.has_valid_signature tx = Ok true) (Cm.select_transactions 5 demo_manager_tx).
Proof.
  apply (selection_applies 5 demo_manager_tx).
  unfold demo_manager_tx. rewrite submit_transaction_mempool.
  apply Mp.add_transaction_inv, Mp.empty_pool_inv.
Defined.
End witnesses.
End Cl.
