(* ===== verification/ChainSafety.v ===== *)
(** * The chain manager keeps its state consistent (src/chain/ChainManager.cpp)

    [inv] ties the components together: a linked, indexed chain with accumulated work, a
    well-formed ledger and mempool, and an orphan pool whose blocks carry their own hash.
    It is kept by every operation, also when the operation throws. [safe] is the
    specification of an operation against that invariant, and the lemmas below compose it
    over the monad. *)

From S2P Require Import Prelude Codec Crypto Demo Transaction Block Ledger Mempool OrphanPool.
From S2P Require Import ProofOfWork Blockchain ForkResolution BlockLocator Storage.
From S2P Require Import ChainManager ChainLedger.

Module Cs.

Section safety.
Context `{CryptoLaws} `{Buckets} `{!BlockStore} (U : bytes → Prop) {CF : CollisionFree U}.

Implicit Types s : ChainManager.

Record inv (s : ChainManager) : Prop := {
  inv_chain : Bc.inv (blockchain_ s);
  inv_known : Forall (Fork.known U) (blocks_ (blockchain_ s));
  inv_mempool : Mp.inv (mempool_ s);
  inv_pool : Op.inv (cm_orphan_pool_ s);
  inv_pool_cap : (0 < op_max_size_ (cm_orphan_pool_ s))%nat;
  inv_orphans h b : Op.find_orphan h (cm_orphan_pool_ s) = Some b → Fork.known U b;
  inv_ledger : Ldg.wf (ledger_ s)
}.

(** From [s], [m] keeps the invariant on every path, and establishes [Q] when it returns. *)
Definition safe {A} (m : ST ChainManager A) (Q : A → ChainManager → Prop) (s : ChainManager) : Prop :=
  match m s with
  | (Ok a, s') => inv s' ∧ Q a s'
  | (Throw _, s') => inv s'
  end.

Lemma safe_ret {A} (a : A) Q s : inv s → Q a s → safe (mret a) Q s.
Proof. done. Qed.

Lemma safe_bind {A B} (m : ST ChainManager A) (f : A → ST ChainManager B) Q R s :
  safe m Q s → (∀ a s', inv s' → Q a s' → safe (f a) R s') → safe (m ≫= f) R s.
Proof.
  unfold safe, mbind, ST_bind. intros Hm Hf. destruct (m s) as [[a|e] s']; [|done].
  destruct Hm. by apply Hf.
Qed.

Lemma safe_weaken {A} (m : ST ChainManager A) (Q R : A → ChainManager → Prop) s :
  safe m Q s → (∀ a s', Q a s' → R a s') → safe m R s.
Proof. unfold safe. intros Hm HQR. destruct (m s) as [[a|e] s']; [|done]. naive_solver. Qed.

(** The outcome to be shown may use that it is the outcome. *)
Lemma safe_eqn {A} (m : ST ChainManager A) (Q : A → ChainManager → Prop) s :
  safe m (λ a s', m s = (Ok a, s') → Q a s') s → safe m Q s.
Proof. unfold safe. destruct (m s) as [[a|e] s']; [|done]. naive_solver. Qed.

Lemma safe_get Q s : inv s → Q s s → safe st_get Q s.
Proof. done. Qed.

Lemma safe_lift {A} (r : result A) (Q : A → ChainManager → Prop) s :
  inv s → (∀ a, r = Ok a → Q a s) → safe (st_lift r) Q s.
Proof. unfold safe, st_lift. destruct r; naive_solver. Qed.

Lemma safe_modify (f : ChainManager → ChainManager) (Q : unit → ChainManager → Prop) s :
  inv (f s) → Q tt (f s) → safe (st_modify f) Q s.
Proof. done. Qed.

(** Everything but the ledger and the mempool is as it was. *)
Definition same_chain s s' : Prop :=
  blockchain_ s' = blockchain_ s ∧ cm_orphan_pool_ s' = cm_orphan_pool_ s ∧
  storage_ s' = storage_ s ∧ params_ s' = params_ s ∧ tip_version_ s' = tip_version_ s.

#[global] Instance same_chain_preorder : PreOrder same_chain.
Proof. unfold same_chain. split; [by intros s|]. intros s1 s2 s3 ? ?. naive_solver congruence. Qed.

(** The chain, the parameters and the store are as they were. *)
Definition same_store s s' : Prop :=
  blockchain_ s' = blockchain_ s ∧ params_ s' = params_ s ∧ storage_ s' = storage_ s.

(** Everything but the orphan pool is as it was. *)
Definition same_but_orphans s s' : Prop := ∃ p', s' = Cm.set_orphan_pool p' s.

#[global] Instance same_but_orphans_preorder : PreOrder same_but_orphans.
Proof.
  split; [intros s; exists (cm_orphan_pool_ s); by destruct s|].
  intros s1 s2 s3 [p2 ->] [p3 ->]. by exists p3.
Qed.

#[global] Instance same_store_preorder : PreOrder same_store.
Proof.
  split; [by intros s|]. intros s1 s2 s3 (? & ? & ?) (? & ? & ?). split_and!; congruence.
Qed.

Lemma safe_for_each {A} (f : A → ST ChainManager unit) (P : A → Prop)
    (K : ChainManager → ChainManager → Prop) `{!PreOrder K} l s :
  inv s → Forall P l →
  (∀ a s, P a → inv s → safe (f a) (λ _ s', K s s') s) →
  safe (Cm.for_each f l) (λ _ s', K s s') s.
Proof.
  intros Hs Hl Hf. revert s Hs. induction Hl as [|a l Ha _ IH]; intros s Hs; simpl.
  { by apply safe_ret. }
  eapply safe_bind; [by apply Hf|]. intros u s' Hs' HK.
  eapply safe_weaken; [by apply IH|]. intros u' s'' HK'. cbv beta in *. by transitivity s'.
Qed.

(** ** Component updates *)

Lemma inv_set_ledger l s : inv s → Ldg.wf l → inv (Cm.set_ledger l s).
Proof. intros [] ?. by split. Qed.

Lemma inv_set_mempool m s : inv s → Mp.inv m → inv (Cm.set_mempool m s).
Proof. intros [] ?. by split. Qed.

Lemma inv_set_storage st s : inv s → inv (Cm.set_storage st s).
Proof. intros []. by split. Qed.

Lemma inv_set_blockchain c s :
  inv s → Bc.inv c → Forall (Fork.known U) (blocks_ c) → inv (Cm.set_blockchain c s).
Proof. intros [] ? ?. by split. Qed.

Lemma known_txs b : Fork.known U b → Forall Tx.wf (transactions_ b).
Proof.
  intros ((_ & _ & _ & _ & _ & _ & _ & Ht) & _). eapply Forall_impl; [exact Ht|]. by intros tx [? _].
Qed.

Lemma safe_on_mempool {A} (m : ST Mempool A) s :
  inv s → Mp.inv (m (mempool_ s)).2 → safe (Cm.on_mempool m) (λ _ s', same_chain s s') s.
Proof.
  intros Hs Hm. unfold safe, Cm.on_mempool, st_zoom. destruct (m (mempool_ s)) as [[a|e] m']; simpl in *;
    [split; [|done]|]; by apply inv_set_mempool.
Qed.

(** The store [st'] is what [m] makes of the store [st], if there is one. *)
Definition stored (m : ST store unit) (st st' : option store) : Prop :=
  match st, st' with
  | None, None => True
  | Some st, Some st' => m st = (Ok tt, st')
  | _, _ => False
  end.

Lemma safe_on_storage m s :
  inv s →
  safe (Cm.on_storage m) (λ _ s', ∃ st', s' = Cm.set_storage st' s ∧ stored m (storage_ s) st') s.
Proof.
  intros Hs. unfold safe, Cm.on_storage. destruct (storage_ s) as [st|] eqn:E.
  - destruct (m st) as [[[]|e] st'] eqn:Em; [|by apply inv_set_storage].
    split; [by apply inv_set_storage|]. by exists (Some st').
  - split; [done|]. exists None. split; [|done]. destruct s; simpl in *. by rewrite <- E.
Qed.

(** ** The ledger *)

Lemma reverse_all_wf txs l : Forall Tx.wf txs → Ldg.wf l → Ldg.wf (Cm.reverse_all txs l).
Proof.
  intros Hw Hl. unfold Cm.reverse_all. induction Hw; simpl; [done|]. by apply Ldg.reverse_transaction_wf.
Qed.

Lemma apply_loop_wf txs l : Forall Tx.wf txs → Ldg.wf l → Ldg.wf (Cm.apply_loop [] txs l).2.
Proof.
  intros Hw Hl. pose proof (Cl.apply_loop_spec txs [] _ _ (Cl.run_nil l)) as Hloop.
  destruct (Cm.apply_loop [] txs l) as [[[]|e] l']; simpl.
  - destruct Hloop as [_ R]. by eapply Cl.accepted_run_wf.
  - destruct Hloop as (pre & tx & post & l1 & -> & R & _ & ->). apply Forall_app in Hw as [Hw _].
    apply reverse_all_wf; [done|]. by eapply Cl.accepted_run_wf.
  - destruct Hloop as (pre & tx & post & -> & R & _). apply Forall_app in Hw as [Hw _].
    by eapply Cl.accepted_run_wf.
Qed.

(** Besides the outcome of the loop, only the ledger changes. *)
Definition ledger_applied (txs : list Transaction) s (r : bool) s' : Prop :=
  ∃ l', s' = Cm.set_ledger l' s ∧
    if r then Forall Cl.authorized txs ∧ Cl.accepted_run txs (ledger_ s) l'
    else Ldg.refines (ledger_ s) l' ∨ Cl.wraps txs (ledger_ s).

Lemma safe_apply_block b s :
  inv s → Fork.known U b →
  safe (Cm.apply_block_to_ledger b) (ledger_applied (transactions_ b) s) s.
Proof.
  intros Hs Hb. unfold safe. rewrite Cl.apply_block_eq.
  pose proof (apply_loop_wf _ _ (known_txs b Hb) (inv_ledger s Hs)) as Hw.
  pose proof (Cl.apply_loop_refused _ _ (inv_ledger s Hs) (known_txs b Hb)) as Hno.
  pose proof (Cl.apply_loop_spec (transactions_ b) [] _ _ (Cl.run_nil (ledger_ s))) as Hloop.
  destruct (Cm.apply_loop [] (transactions_ b) (ledger_ s)) as [[[]|e] l']; simpl in *;
    try split; try by apply inv_set_ledger.
  - by exists l'.
  - by exists l'.
Qed.

(** ** Reorganizing *)

Lemma safe_undo_tx hashes tx s :
  Tx.wf tx → inv s → safe (Cm.undo_tx hashes tx) (λ _ s', same_chain s s') s.
Proof.
  intros Ht Hs. unfold Cm.undo_tx. case_bool_decide; [by apply safe_ret|].
  eapply safe_bind.
  { apply (safe_modify _ (λ _ s', same_chain s s')); [|done].
    apply inv_set_ledger; [done|]. apply Ldg.reverse_transaction_wf; [done|apply Hs]. }
  intros u s1 Hs1 K1. destruct (Tx.is_coinbase tx); [by apply safe_ret|].
  eapply safe_bind; [apply safe_on_mempool; [done|apply Mp.add_transaction_inv, Hs1]|].
  intros r s2 Hs2 K2. apply safe_ret; [done|]. by transitivity s1.
Qed.

Lemma safe_redo_tx hashes tx s :
  Tx.wf tx → inv s → safe (Cm.redo_tx hashes tx) (λ _ s', same_chain s s') s.
Proof.
  intros Ht Hs. unfold Cm.redo_tx. case_bool_decide; [by apply safe_ret|].
  apply safe_modify; [|done]. apply inv_set_ledger; [done|].
  apply Ldg.apply_transaction_wf; [done|apply Hs].
Qed.

Lemma safe_replay hashes txs discarded s :
  Forall Tx.wf txs → Forall Tx.wf (discarded ≫= transactions_) → inv s →
  safe (Cm.replay hashes txs discarded) (λ _ s', same_chain s s') s.
Proof.
  intros Ht Hd Hs. unfold Cm.replay. eapply safe_bind.
  { apply (safe_for_each _ Tx.wf same_chain); [done|by apply Forall_reverse|]. intros. by apply safe_undo_tx. }
  intros u s1 Hs1 K1. eapply safe_weaken.
  { apply (safe_for_each _ Tx.wf same_chain); [done..|]. intros. by apply safe_redo_tx. }
  intros u' s2 K2. cbv beta in *. by transitivity s1.
Qed.

Lemma collect_txs_spec txs hs acc hs' acc' :
  Cm.collect_txs txs (hs, acc) = Ok (Some (hs', acc')) →
  acc' = acc ++ txs ∧ Forall Cl.authorized txs.
Proof.
  revert hs acc. induction txs as [|tx txs IH]; intros hs acc; cbn [Cm.collect_txs fst snd].
  { intros [= <- <-]. by rewrite app_nil_r. }
  destruct (Tx.is_coinbase tx) eqn:Ec.
  - intros [-> Hf]%IH. rewrite <- app_assoc. split; [done|]. constructor; [by left|done].
  - intros ([] & Es & E)%bind_Ok; [|done]. cbn [negb] in E. apply IH in E as [-> Hf].
    rewrite <- app_assoc. split; [done|]. constructor; [by right|done].
Qed.

Lemma collect_branch_spec blocks hs acc hs' acc' :
  Cm.collect_branch blocks (hs, acc) = Ok (Some (hs', acc')) →
  acc' = acc ++ (blocks ≫= transactions_) ∧ Forall Cl.authorized (blocks ≫= transactions_).
Proof.
  revert hs acc. induction blocks as [|b blocks IH]; intros hs acc; cbn [Cm.collect_branch].
  { intros [= <- <-]. simpl. by rewrite app_nil_r. }
  intros ([[hs1 acc1]|] & E1 & E2)%bind_Ok; [|done]. apply collect_txs_spec in E1 as [-> HA1].
  apply IH in E2 as [-> HA2]. rewrite bind_cons, <- app_assoc. split; [done|]. by apply Forall_app.
Qed.

Lemma known_blocks_txs l : Forall (Fork.known U) l → Forall Tx.wf (l ≫= transactions_).
Proof.
  induction 1 as [|b l Hb _ IH]; [done|]. rewrite bind_cons. apply Forall_app. split; [|done].
  by apply known_txs.
Qed.

Lemma fork_ok_take n fork c :
  Bc.fork_ok fork c → Bc.fork_ok (mkForkChain (take n (fork_blocks fork)) (common_ancestor fork)) c.
Proof.
  intros (Ha & Hl & Hn & Hf). split_and!; simpl; [done|by apply Bc.links_ok_take| |].
  - eapply sublist_NoDup; [exact Hn|]. apply fmap_sublist, sublist_take.
  - intros k Hk. by apply Forall_take, Hf.
Qed.

Lemma known_with_works w l : Forall (Fork.known U) l → Forall (Fork.known U) (Bc.with_works w l).
Proof. intros Hl. revert w. induction Hl; intros w; constructor; [by apply Fork.known_set_work|done]. Qed.

(** The chain of [s] has been switched to [fork], which is heavier and whose transactions
    are all authorized, the ledger is what [try_reorg] made of it, and the store has been
    told. *)
Record switched (fork : ForkChain) s s' : Prop := {
  sw_fork : Bc.fork_ok fork (blockchain_ s);
  sw_known : Forall (Fork.known U) (fork_blocks fork);
  sw_chain : blockchain_ s' = (Bc.reorganize_to fork (blockchain_ s)).2;
  sw_work : Bc.tip_work (blocks_ (blockchain_ s)) < Bc.tip_work (blocks_ (blockchain_ s'));
  sw_auth : Forall Cl.authorized (fork_blocks fork ≫= transactions_);
  sw_params : params_ s' = params_ s;
  sw_store :
    let fork_point := (Bc.size (blockchain_ s') - length (fork_blocks fork))%nat in
    stored (bs_replace_blocks_from fork_point (drop fork_point (blocks_ (blockchain_ s'))))
      (storage_ s) (storage_ s');
  sw_replay : ∃ s1 s2 hs, blockchain_ s1 = blockchain_ s ∧ ledger_ s1 = ledger_ s ∧
    Cm.try_reorg fork s1 = (Ok (Some hs), s2) ∧ ledger_ s' = ledger_ s2
}.

(** What a completed [try_reorg] has done. *)
Definition reorged (fork : ForkChain) s (r : option (list HashBytes)) s' : Prop :=
  match r with
  | None => s' = s
  | Some hashes => hashes = hash_ <$> fork_blocks fork ∧ switched fork s s'
  end.

Lemma fork_height fork c :
  Bc.inv c → Bc.fork_ok fork c → ∃ k, blocks_ c !! k = Some (common_ancestor fork).
Proof.
  intros Hc (Ha & _). apply Bc.find_spec in Ha as [Hin _]; [|apply Hc]. by apply list_elem_of_lookup.
Qed.

Lemma heavier_spec c fork k v :
  Bc.inv c → blocks_ c !! k = Some (common_ancestor fork) → Fork.is_fork_heavier c fork = Ok v →
  v = (Bc.tip_work (blocks_ c) <? Bc.tip_work (blocks_ (Bc.reorganize_to fork c).2)).
Proof.
  intros Hc Hk. rewrite (Bc.reorganize_tip_work _ _ k) by (done || apply Hc).
  unfold Fork.is_fork_heavier, Bc.tip_work.
  destruct (Bc.rooted_latest c) as (t & -> & ->); [apply Hc|]. by intros [= <-].
Qed.

Lemma safe_try_reorg fork s :
  inv s → Bc.fork_ok fork (blockchain_ s) → Forall (Fork.known U) (fork_blocks fork) →
  safe (Cm.try_reorg fork) (reorged fork s) s.
Proof.
  intros Hs Hf Hk. destruct (fork_height fork _ (inv_chain s Hs) Hf) as [k Hka].
  pose proof (Bc.reorganize_inv fork _ k (inv_chain s Hs) Hf Hka) as Hc'.
  assert (Forall (Fork.known U) (blocks_ (Bc.reorganize_to fork (blockchain_ s)).2)) as Hk'.
  { rewrite (Bc.reorganize_blocks _ _ k) by (done || apply (inv_chain s Hs)). apply Forall_app.
    split; [by apply Forall_take, inv_known|by apply known_with_works]. }
  apply safe_eqn. unfold Cm.try_reorg at 1. eapply safe_bind; [by apply (safe_get (λ a s', a = s ∧ s' = s))|].
  intros ? ? _ [-> ->]. eapply safe_bind.
  { apply (safe_lift _ (λ v s', s' = s ∧
      v = (Bc.tip_work (blocks_ (blockchain_ s)) <?
           Bc.tip_work (blocks_ (Bc.reorganize_to fork (blockchain_ s)).2)))); [done|].
    intros v Hv. split; [done|]. eapply heavier_spec; [apply Hs|done..]. }
  intros v ? _ [-> ->]. case_bool; cbn [negb]; [|by apply safe_ret]. eapply safe_bind.
  { apply (safe_lift _ (λ r s', s' = s ∧ Cm.collect_branch (fork_blocks fork) (∅, []) = Ok r)); [done|].
    intros r Hr. done. }
  intros [[hs txs]|] ? _ [-> Hr]; [|by apply safe_ret].
  apply collect_branch_spec in Hr as [-> Hau]. cbn [app].
  pose proof (Bc.reorganize_eq fork (blockchain_ s) k ltac:(apply (inv_chain s Hs)) Hka) as Er.
  destruct (Bc.reorganize_to fork (blockchain_ s)) as [d c'] eqn:Ere. injection Er as -> Ec.
  cbn [fst snd] in *. eapply safe_bind.
  { apply (safe_modify _ (λ _ s', s' = Cm.set_blockchain c' s)); [by apply inv_set_blockchain|done]. }
  intros u1 ? Hs1 ->. eapply safe_bind.
  { apply (safe_modify _ (λ _ s', blockchain_ s' = c' ∧ cm_orphan_pool_ s' = cm_orphan_pool_ s ∧
      params_ s' = params_ s ∧ storage_ s' = storage_ s));
      [by destruct Hs1|done]. }
  intros u2 s2 Hs2 (E2 & P2 & Q2 & T2). eapply safe_bind.
  { apply safe_replay; [by apply known_blocks_txs| |done].
    apply known_blocks_txs, Forall_drop, inv_known, Hs. }
  intros u s3 Hs3 (E3 & P3 & T3 & Q3 & _). eapply safe_bind; [by apply safe_on_storage|].
  intros u' s4 Hs4 (st' & -> & Hst). apply safe_ret; [done|].
  intros Erun. split; [done|]. rewrite length_fmap, T3, T2 in Hst.
  split; cbn [blockchain_ Cm.set_storage params_ storage_]; rewrite ?Ere, ?E3, ?E2, ?Q3, ?Q2; try done.
  by eexists s, _, _.
Qed.

(** ** Fork candidates *)

Definition in_pool (p : OrphanPool) (b : Block) : Prop := Op.find_orphan (hash_ b) p = Some b.

Lemma children_in_pool p h : Op.inv p → Forall (in_pool p) (Op.children_of h p).
Proof.
  intros Hp. apply Forall_forall. intros b (k & e & E & <- & _)%Op.children_of_spec.
  unfold in_pool, Op.find_orphan. destruct (Op.inv_entry p Hp k e E) as [_ ->]. by rewrite E.
Qed.

Lemma tips_in_pool turns p stack tips :
  Op.inv p → Forall (in_pool p) stack → Forall (in_pool p) tips →
  Forall (in_pool p) (Cm.tips_loop turns p stack tips).
Proof.
  intros Hp. revert stack tips. induction turns as [|n IH]; intros stack tips Hst Ht.
  { destruct stack; by apply Forall_app. }
  destruct stack as [|b stack]; [done|]. cbn [Cm.tips_loop]. apply Forall_cons in Hst as [Hb Hst].
  pose proof (children_in_pool p (hash_ b) Hp) as Hc. destruct (Op.children_of (hash_ b) p) eqn:E.
  - apply IH; [done|]. apply Forall_app. split; [done|]. by constructor.
  - apply IH; [|done]. apply Forall_app. split; [by apply Forall_reverse|done].
Qed.

(** A candidate for adoption: linked onto the chain, made of known blocks, with the work
    recorded next to it. *)
Definition candidate s (best : option (ForkChain * Z)) : Prop :=
  match best with
  | None => True
  | Some (fork, work) =>
      Bc.fork_ok fork (blockchain_ s) ∧ Forall (Fork.known U) (fork_blocks fork) ∧
      work = Fork.fork_work fork
  end.

Lemma consider_tip_candidate now s best tip best' :
  inv s → in_pool (cm_orphan_pool_ s) tip → candidate s best →
  Cm.consider_tip now s best tip = Ok best' → candidate s best'.
Proof.
  intros Hs Ht Hb. unfold Cm.consider_tip.
  destruct (Fork.build_fork_chain _ _ tip) as [fork|] eqn:Ef; [|by intros [= <-]].
  intros (prefix & _ & E)%bind_Ok.
  destruct (Fork.build_fork_ok U (blockchain_ s) (cm_orphan_pool_ s) tip fork) as (Hok & Hk & _);
    [apply Hs..|by eapply inv_orphans|done|done|].
  assert (candidate s (Some (mkForkChain (take prefix (fork_blocks fork)) (common_ancestor fork),
    Fork.fork_work (mkForkChain (take prefix (fork_blocks fork)) (common_ancestor fork))))) as Hc.
  { split_and!; [by apply fork_ok_take|by apply Forall_take|done]. }
  destruct (prefix =? 0)%nat; [by injection E as <-|].
  destruct best as [[f w]|]; injection E as <-; [|done]. by case_match.
Qed.

Lemma best_fork_candidate now s tips best best' :
  inv s → Forall (in_pool (cm_orphan_pool_ s)) tips → candidate s best →
  Cm.best_fork now s best tips = Ok best' → candidate s best'.
Proof.
  intros Hs Ht. revert best. induction Ht as [|tip tips Htip _ IH]; intros best Hb; simpl.
  { by intros [= <-]. }
  intros (b1 & E1 & E2)%bind_Ok. eapply IH; [|done]. by eapply consider_tip_candidate.
Qed.

Lemma safe_add_orphan b s :
  inv s → Fork.known U b →
  safe (Cm.on_orphans (Op.add_orphan b)) (λ _ s',
    ∃ p', s' = Cm.set_orphan_pool p' s ∧ in_pool p' b) s.
Proof.
  intros Hs Hb. unfold safe, Cm.on_orphans, st_zoom.
  destruct (Op.add_orphan_inv b (cm_orphan_pool_ s) (inv_pool s Hs) (inv_pool_cap s Hs))
    as (p' & E & Hp' & Hm & _). rewrite E. pose proof (Op.add_orphan_contents b _ _ E) as [Hin Hold].
  split; [|by exists p']. destruct Hs as [? ? ? ? ? Ho ?]. split; simpl; try done; [lia|].
  intros h x [->|Hx]%Hold; [done|by eapply Ho].
Qed.

Lemma safe_remove_orphan h s :
  inv s → safe (Cm.on_orphans (st_modify (Op.remove_orphan h)))
    (λ _ s', ∃ p', s' = Cm.set_orphan_pool p' s) s.
Proof.
  intros Hs. unfold safe, Cm.on_orphans, st_zoom, st_modify. split; [|by eexists].
  destruct (Op.remove_orphan_inv h (cm_orphan_pool_ s) (inv_pool s Hs)) as [Hp' _].
  destruct Hs as [? ? ? ? Hcap Ho ?]. split; simpl; try done.
  - unfold Op.remove_orphan. by case_match.
  - intros k x Hx. eapply Ho. by eapply Op.remove_orphan_contents.
Qed.

Lemma safe_handle_fork b now s :
  inv s → Fork.known U b →
  safe (Cm.handle_fork_candidate b now) (λ o s',
    match status o with
    | Reorged => ∃ fork, to_broadcast o = hash_ <$> fork_blocks fork ∧ switched fork s s'
    | Rejected => ∃ p', s' = Cm.set_orphan_pool p' s
    | NeedParent => missing_parent o = Some (prev_hash_ b) ∧ ∃ p', s' = Cm.set_orphan_pool p' s
    | Accepted => False
    end) s.
Proof.
  intros Hs Hb. unfold Cm.handle_fork_candidate. eapply safe_bind; [by apply safe_add_orphan|].
  intros u s1 Hs1 (p1 & E1 & Hin). eapply safe_bind; [by apply (safe_get (λ a s', a = s1 ∧ s' = s1))|].
  intros ? ? _ [-> ->]. destruct (Fork.build_fork_chain _ _ b) eqn:Ef.
  2: { apply safe_ret; [done|]. split; [done|]. by exists p1. }
  assert (Forall (in_pool (cm_orphan_pool_ s1)) (Cm.find_fork_tips b s1)) as Htips.
  { apply tips_in_pool; [apply Hs1| |by constructor]. constructor; [by subst s1|constructor]. }
  eapply safe_bind.
  { apply (safe_lift _ (λ best s', s' = s1 ∧ candidate s1 best)); [done|].
    intros best Hbest. split; [done|]. by eapply (best_fork_candidate now s1 _ None). }
  intros [[fork w]|] ? _ [-> Hbest]; [|apply safe_ret; [done|by exists p1]].
  destruct Hbest as (Hok & Hk & _). eapply safe_bind; [by apply safe_try_reorg|].
  intros [hashes|] s2 Hs2 Hre; [|apply safe_ret; [done|]; simpl in Hre; subst; by exists p1].
  destruct Hre as [-> Hsw]. eapply safe_bind.
  { apply (safe_for_each _ (λ _, True) same_but_orphans); [done|by apply Forall_true|].
    intros h s3 _ Hs3. by apply safe_remove_orphan. }
  intros u' s3 Hs3 [p3 E3]. apply safe_ret; [done|]. exists fork. split; [done|].
  subst s1 s3. by destruct Hsw.
Qed.

(** ** Submitting a block *)

(** Everything that holds of a block [submit_block] accepts, and the state it leaves. *)
Record accepted (b : Block) (now : Z) s s' : Prop := {
  ac_pow : Pow.meets_target (hash_ b) (difficulty_ b) = true;
  ac_coinbase : Pow.validate_coinbase_amount (transactions_ b) = true;
  ac_class : Bc.classify_new_block b (blockchain_ s) = Ok Valid;
  ac_time : Pow.timestamp_is_valid b (Bc.size (blockchain_ s)) now (params_ s)
              (Cm.block_at_callback (blockchain_ s)) = Ok true;
  ac_difficulty : Pow.next_difficulty (Bc.size (blockchain_ s)) (params_ s)
                    (Cm.block_at_callback (blockchain_ s)) = Ok (difficulty_ b);
  ac_auth : Forall Cl.authorized (transactions_ b);
  ac_ledger : Cl.accepted_run (transactions_ b) (ledger_ s) (ledger_ s');
  ac_mempool : mempool_ s' = foldl (λ m tx, Mp.remove_transaction tx m) (mempool_ s) (transactions_ b);
  ac_chain : blockchain_ s' = Bc.add_block b (blockchain_ s);
  ac_pool : cm_orphan_pool_ s' = cm_orphan_pool_ s;
  ac_params : params_ s' = params_ s;
  ac_tip : tip_version_ s' = u64 (tip_version_ s + 1);
  ac_store : stored (bs_save_block b (Bc.size (blockchain_ s))) (storage_ s) (storage_ s')
}.

(** The block passes every check of [submit_block] but that of its transactions, and has the
    tip as its parent. *)
Definition valid_child (b : Block) (now : Z) s : Prop :=
  Pow.meets_target (hash_ b) (difficulty_ b) = true ∧
  Pow.validate_coinbase_amount (transactions_ b) = true ∧
  Bc.classify_new_block b (blockchain_ s) = Ok Valid ∧
  Pow.timestamp_is_valid b (Bc.size (blockchain_ s)) now (params_ s)
    (Cm.block_at_callback (blockchain_ s)) = Ok true ∧
  Pow.next_difficulty (Bc.size (blockchain_ s)) (params_ s)
    (Cm.block_at_callback (blockchain_ s)) = Ok (difficulty_ b).

(** What each outcome means for the state. *)
Definition block_outcome (b : Block) (now : Z) s (o : BlockOutcome) s' : Prop :=
  match status o with
  | Accepted => to_broadcast o = [hash_ b] ∧ accepted b now s s'
  | Reorged => ∃ fork, to_broadcast o = hash_ <$> fork_blocks fork ∧ switched fork s s'
  | Rejected | NeedParent =>
      same_store s s' ∧ mempool_ s' = mempool_ s ∧
      (Ldg.refines (ledger_ s) (ledger_ s') ∨
       valid_child b now s ∧ Cl.wraps (transactions_ b) (ledger_ s))
  end.

Lemma remove_all_inv txs m : Mp.inv m → Mp.inv (foldl (λ m tx, Mp.remove_transaction tx m) m txs).
Proof. revert m. induction txs; intros m Hm; simpl; [done|]. by apply IHtxs, Mp.remove_transaction_inv. Qed.

Lemma add_child b s tip :
  inv s → Fork.known U b → Bc.latest (blockchain_ s) = Ok tip → prev_hash_ b = hash_ tip →
  Bc.inv (Bc.add_block b (blockchain_ s)) ∧
  Forall (Fork.known U) (blocks_ (Bc.add_block b (blockchain_ s))) ∧
  Bc.has_block (hash_ b) (blockchain_ s) = false.
Proof.
  intros Hs Hb Ht Hp.
  assert (Bc.has_block (hash_ b) (blockchain_ s) = false) as Hnew
    by (eapply (Fork.child_of_tip_fresh U); [apply Hs|apply Hs|done..]).
  split_and!; [|by apply Forall_snoc; split; [apply Hs|apply Fork.known_set_work]|done].
  eapply Bc.add_block_inv; [apply Hs|done..|]. apply Bc.link_ok_spec. split; [apply Hb|done].
Qed.

Lemma add_block_chain b s :
  inv s → Fork.known U b → Bc.classify_new_block b (blockchain_ s) = Ok Valid →
  Bc.inv (Bc.add_block b (blockchain_ s)) ∧
  Forall (Fork.known U) (blocks_ (Bc.add_block b (blockchain_ s))) ∧
  Bc.has_block (hash_ b) (blockchain_ s) = false.
Proof. intros Hs Hb (_ & _ & tip & Ht & Hp)%Bc.classify_Valid. by eapply add_child. Qed.

Lemma rejected_outcome b now s : block_outcome b now s Cm.rejected s.
Proof. unfold block_outcome. simpl. split_and!; [done..|by left]. Qed.

Lemma safe_submit_block b now s :
  inv s → Fork.known U b → safe (Cm.submit_block b now) (block_outcome b now s) s.
Proof.
  intros Hs Hb. unfold Cm.submit_block.
  destruct (Pow.meets_target _ _) eqn:Epow; [|by apply safe_ret, rejected_outcome].
  destruct (Pow.validate_coinbase_amount _) eqn:Ecb; [|by apply safe_ret, rejected_outcome].
  cbn [negb]. eapply safe_bind; [by apply (safe_get (λ a s', a = s ∧ s' = s))|].
  intros ? ? _ [-> ->]. eapply safe_bind.
  { by apply (safe_lift _ (λ c s', s' = s ∧ Bc.classify_new_block b (blockchain_ s) = Ok c)). }
  intros c ? _ [-> Ec]. destruct c; [|by apply safe_ret, rejected_outcome|].
  2: { eapply safe_weaken; [by apply safe_handle_fork|]. intros o s' Ho. unfold block_outcome.
       cbv beta in Ho. destruct (status o); [destruct Ho as (p' & ->)|done|done|destruct Ho as (_ & p' & ->)];
         (split_and!; [done..|by left]). }
  eapply safe_bind; [by apply (safe_lift _ (λ v s', s' = s ∧ Pow.timestamp_is_valid b (Bc.size (blockchain_ s)) now
    (params_ s) (Cm.block_at_callback (blockchain_ s)) = Ok v))|].
  intros [] ? _ [-> Et]; [|by apply safe_ret, rejected_outcome]. cbn [negb].
  eapply safe_bind; [by apply (safe_lift _ (λ v s', s' = s ∧ Pow.next_difficulty (Bc.size (blockchain_ s))
    (params_ s) (Cm.block_at_callback (blockchain_ s)) = Ok v))|].
  intros d ? _ [-> Ed]. destruct (Z.eqb_spec (difficulty_ b) d) as [<-|]; [|by apply safe_ret, rejected_outcome].
  cbn [negb]. eapply safe_bind; [by apply safe_apply_block|].
  intros [] s1 Hs1 (l' & -> & Hl).
  2: { apply safe_ret; [done|]. unfold block_outcome, valid_child. simpl.
       split_and!; [done..|]. destruct Hl as [Hl|Hl]; [by left|]. right. by split_and!. }
  destruct (add_block_chain b s Hs Hb Ec) as (Hc' & Hk' & _). destruct Hl as [Hau Hrun].
  eapply safe_bind.
  { apply (safe_modify _ (λ _ s', s' = Cm.set_mempool (foldl (λ m tx, Mp.remove_transaction tx m) (mempool_ s)
      (transactions_ b)) (Cm.set_ledger l' s))); [|done]. apply inv_set_mempool; [done|]. apply remove_all_inv, Hs1. }
  intros u2 s2 Hs2 E2. cbv beta in E2. eapply safe_bind.
  { apply (safe_modify _ (λ _ s', s' = Cm.set_blockchain (Bc.add_block b (blockchain_ s)) s2));
      [|by subst s2]. apply inv_set_blockchain; [done|by subst s2..]. }
  intros u3 s3 Hs3 ->. eapply safe_bind.
  { apply (safe_modify _ (λ _ s4, mempool_ s4 = mempool_ s2 ∧ ledger_ s4 = ledger_ s2 ∧
      blockchain_ s4 = Bc.add_block b (blockchain_ s) ∧ cm_orphan_pool_ s4 = cm_orphan_pool_ s2 ∧
      params_ s4 = params_ s2 ∧ storage_ s4 = storage_ s2 ∧ tip_version_ s4 = u64 (tip_version_ s2 + 1)));
      [by destruct Hs3|done]. }
  intros u4 s4 Hs4 (M4 & L4 & C4 & P4 & Q4 & T4 & V4).
  eapply safe_bind; [by apply (safe_get (λ a s', a = s4 ∧ s' = s4))|]. intros ? ? _ [-> ->].
  eapply safe_bind; [by apply safe_on_storage|]. intros u5 s5 Hs5 (st' & -> & Hst).
  assert (Bc.size (blockchain_ s4) - 1 = Bc.size (blockchain_ s))%nat as En.
  { rewrite C4. unfold Bc.size, Bc.add_block. cbn [blocks_]. rewrite length_app. simpl. lia. }
  rewrite En, T4, E2 in Hst. apply safe_ret; [done|]. unfold block_outcome. cbn [status to_broadcast].
  split; [done|]. rewrite E2 in *.
  split; cbn [mempool_ ledger_ blockchain_ cm_orphan_pool_ params_ storage_ tip_version_ Cm.set_storage];
    rewrite ?M4, ?L4, ?C4, ?P4, ?Q4, ?T4, ?V4; done.
Qed.

(** ** Adopting a downloaded branch *)

Lemma skip_known_spec c blocks first rest :
  Cm.skip_known c blocks = first :: rest →
  Bc.has_block (hash_ first) c = false ∧ ∃ pre, blocks = pre ++ first :: rest.
Proof.
  induction blocks as [|b blocks IH]; simpl; [done|]. destruct (Bc.has_block (hash_ b) c) eqn:E.
  - intros [? [pre ->]]%IH. split; [done|]. by exists (b :: pre).
  - intros [= <- <-]. split; [done|]. by exists [].
Qed.

Lemma branch_linked_prev prev l i b :
  Cm.branch_linked prev l = true → l !! i = Some b →
  ∃ b', (prev :: l) !! i = Some b' ∧ prev_hash_ b = hash_ b'.
Proof.
  revert prev i. induction l as [|x l IH]; intros prev i Hl Hi; [done|].
  cbn [Cm.branch_linked] in Hl. apply andb_true_iff in Hl as [Hx%bool_decide_eq_true Hl].
  destruct i as [|i]; simpl in *; [injection Hi as ->; eauto|by apply IH].
Qed.

Lemma branch_links_ok prev l :
  Cm.branch_linked prev l = true → Forall (λ b, hash_ b = Blk.compute_hash b) l →
  Bc.links_ok prev l = true.
Proof.
  revert prev. induction l as [|b l IH]; intros prev Hl Hh; [done|].
  cbn [Cm.branch_linked] in Hl. apply andb_true_iff in Hl as [Hx%bool_decide_eq_true Hl].
  apply Forall_cons in Hh as [Hb Hh]. cbn [Bc.links_ok].
  rewrite (proj2 (Bc.link_ok_spec prev b)) by done. by apply IH.
Qed.

Section branch.
Context (c : Blockchain) (first : Block) (rest : list Block).
Hypothesis Hc : Bc.inv c.
Hypothesis Hkc : Forall (Fork.known U) (blocks_ c).
Hypothesis Hk : Forall (Fork.known U) (first :: rest).
Hypothesis Hl : Cm.branch_linked first rest = true.
Hypothesis Hfirst : Bc.has_block (hash_ first) c = false.

Lemma branch_known i b : (first :: rest) !! i = Some b → Fork.known U b.
Proof. intros Hi. rewrite Forall_forall in Hk. by eapply Hk, list_elem_of_lookup_2. Qed.

(** If one block of the branch were in the chain, so would the first. *)
Lemma branch_disjoint i b :
  (first :: rest) !! i = Some b → Bc.has_block (hash_ b) c = false.
Proof.
  revert b. induction i as [|i IH]; intros b Hi; [by injection Hi as <-|].
  destruct (branch_linked_prev first rest i b Hl Hi) as (b' & Hb' & Ep).
  apply not_true_iff_false. rewrite Bc.has_block_spec by apply Hc. intros [j Hj]%list_elem_of_lookup.
  pose proof (Fork.known_in_chain U c b j _ Hc Hkc (branch_known _ _ Hi) Hj eq_refl) as E.
  destruct j as [|j].
  - rewrite Ep in E. by eapply Fork.known_nonzero, E; [exact CF|by eapply branch_known].
  - destruct E as (x & Hx & E). rewrite Ep in E. specialize (IH b' Hb').
    apply not_true_iff_false in IH. apply IH. apply Bc.has_block_spec; [apply Hc|].
    rewrite E. apply list_elem_of_fmap_2. by eapply list_elem_of_lookup_2.
Qed.

(** The branch has no repetition: stepping back two equal hashes in parallel ends at the
    first block's parent, which is in the chain. *)
Lemma branch_distinct a i j b b' :
  a ∈ blocks_ c → prev_hash_ first = hash_ a → (i < j)%nat →
  (first :: rest) !! i = Some b → (first :: rest) !! j = Some b' → hash_ b ≠ hash_ b'.
Proof.
  intros Ha Hpa. revert j b b'. induction i as [|i IH]; intros j b b' Hij Hi Hj E.
  - injection Hi as <-. destruct j as [|j]; [lia|].
    destruct (branch_linked_prev first rest j b' Hl Hj) as (x & Hx & Ex).
    pose proof (Fork.known_prev U _ _ (branch_known 0 _ eq_refl) (branch_known _ _ Hj) E) as Ep.
    pose proof (branch_disjoint j x Hx) as Hno. apply not_true_iff_false in Hno. apply Hno.
    apply Bc.has_block_spec; [apply Hc|]. rewrite <- Ex, <- Ep, Hpa. by apply list_elem_of_fmap_2.
  - destruct j as [|j]; [lia|].
    destruct (branch_linked_prev first rest i b Hl Hi) as (x & Hx & Ex).
    destruct (branch_linked_prev first rest j b' Hl Hj) as (y & Hy & Ey).
    apply (IH j x y); [lia|done|done|].
    rewrite <- Ex, <- Ey. by apply (Fork.known_prev U); [by eapply branch_known..|].
Qed.

Lemma branch_fork_ok a :
  a ∈ blocks_ c → prev_hash_ first = hash_ a →
  Bc.fork_ok (mkForkChain (first :: rest) a) c.
Proof.
  intros Ha Hpa. split_and!; cbn [fork_blocks common_ancestor].
  - apply Bc.find_spec; [apply Hc|done].
  - assert (Forall (λ b, hash_ b = Blk.compute_hash b) (first :: rest)) as Hh.
    { eapply Forall_impl; [exact Hk|]. by intros b (_ & _ & ?). }
    apply Forall_cons in Hh as [Hh0 Hh]. cbn [Bc.links_ok].
    rewrite (proj2 (Bc.link_ok_spec a first)) by done. by apply branch_links_ok.
  - apply NoDup_alt. intros i j h Hi Hj. rewrite list_lookup_fmap in Hi, Hj.
    apply fmap_Some in Hi as (b & Hi & ->), Hj as (b' & Hj & E).
    destruct (Nat.lt_trichotomy i j) as [Hlt|[?|Hlt]]; [|done|]; exfalso.
    + by eapply (branch_distinct a i j).
    + by eapply (branch_distinct a j i).
  - intros k _. apply Forall_forall. intros b [i Hi]%list_elem_of_lookup Hin.
    pose proof (branch_disjoint i b Hi) as Hno. apply not_true_iff_false in Hno. apply Hno.
    apply Bc.has_block_spec; [apply Hc|]. eapply elem_of_sublist; [exact Hin|].
    apply fmap_sublist, sublist_take.
Qed.
End branch.

(** The block [fork] grows from is the parent of the first of [blocks] not in the chain. *)
Definition lands_on (blocks : list Block) s (fork : ForkChain) : Prop :=
  ∃ first rest, Cm.skip_known (blockchain_ s) blocks = first :: rest ∧
    prev_hash_ first = hash_ (common_ancestor fork).

Lemma safe_adopt_branch blocks now s :
  inv s → Forall (Fork.known U) blocks →
  safe (Cm.adopt_branch blocks now) (λ r s',
    if r then ∃ fork, lands_on blocks s fork ∧ switched fork s s' else s' = s) s.
Proof.
  intros Hs Hk. unfold Cm.adopt_branch. eapply safe_bind; [by apply (safe_get (λ a s', a = s ∧ s' = s))|].
  intros ? ? _ [-> ->]. destruct (Cm.skip_known (blockchain_ s) blocks) as [|first rest] eqn:Esk;
    [by apply safe_ret|].
  pose proof Esk as (Hnew & pre & Eb)%skip_known_spec.
  rewrite Eb in Hk. apply Forall_app in Hk as [_ Hk].
  destruct (Bc.find_height (prev_hash_ first) (blockchain_ s)) as [height|] eqn:Eh; [|by apply safe_ret].
  destruct (Cm.branch_linked first rest) eqn:El; [|by apply safe_ret]. cbn [negb].
  eapply safe_bind.
  { by apply (safe_lift _ (λ a s', s' = s ∧ Bc.at_ height (blockchain_ s) = Ok a)). }
  intros a ? _ [-> Ea]. unfold Bc.at_ in Ea. apply of_option_Ok in Ea.
  assert (prev_hash_ first = hash_ a) as Hpa.
  { rewrite Bc.find_height_eq in Eh. destruct (inv_chain s Hs) as ((_ & Hi) & _).
    apply Hi in Eh. rewrite list_lookup_fmap, Ea in Eh. simpl in Eh. congruence. }
  assert (Bc.fork_ok (mkForkChain (first :: rest) a) (blockchain_ s)) as Hok.
  { apply branch_fork_ok; [apply Hs|apply Hs|done..|by eapply list_elem_of_lookup_2|done]. }
  eapply safe_bind; [by apply (safe_lift _ (λ _ s', s' = s))|]. intros prefix ? _ ->.
  destruct (prefix =? 0)%nat; [by apply safe_ret|]. cbn [fork_blocks].
  eapply safe_bind.
  { apply safe_try_reorg; [done|by apply (fork_ok_take prefix) in Hok|by apply Forall_take]. }
  intros [hashes|] s' Hs' Hre; (apply safe_ret; [done|]).
  - rewrite bool_decide_true by by eexists. destruct Hre as [_ Hsw].
    eexists. split; [|exact Hsw]. by exists first, rest.
  - rewrite bool_decide_false by by intros []. done.
Qed.

(** ** Reachable states *)

(** The operations that change a running manager; [known] blocks are those the wire format
    can deliver. [restore_block] is called by the constructor only: see Restart. *)
Inductive step : ChainManager → ChainManager → Prop :=
| step_block b now s : Fork.known U b → step s (Cm.submit_block b now s).2
| step_tx tx s : step s (Cm.submit_transaction tx s).2
| step_branch blocks now s : Forall (Fork.known U) blocks → step s (Cm.adopt_branch blocks now s).2
| step_balance a v s : in_u 64 v → step s (Cm.set_balance a v s).2.

Lemma safe_inv {A} (m : ST ChainManager A) Q s : safe m Q s → inv (m s).2.
Proof. unfold safe. destruct (m s) as [[]]; naive_solver. Qed.

Lemma safe_restore b s tip :
  inv s → Fork.known U b → Bc.latest (blockchain_ s) = Ok tip → prev_hash_ b = hash_ tip →
  safe (Cm.restore_block b) (λ r s',
    if r then blockchain_ s' = Bc.add_block b (blockchain_ s) ∧
              Cl.accepted_run (transactions_ b) (ledger_ s) (ledger_ s')
    else blockchain_ s' = blockchain_ s) s.
Proof.
  intros Hs Hb Ht Hp. unfold Cm.restore_block. eapply safe_bind; [by apply safe_apply_block|].
  intros [] s1 Hs1 (l' & -> & Hl); [|by apply safe_ret]. cbn [negb]. destruct Hl as [_ Hl].
  destruct (add_child b s tip Hs Hb Ht Hp) as (Hc' & Hk' & _). eapply safe_bind.
  { apply (safe_modify _ (λ _ s', blockchain_ s' = Bc.add_block b (blockchain_ s) ∧ ledger_ s' = l'));
      [by apply inv_set_blockchain|done]. }
  intros u2 s2 Hs2 [E2 L2]. eapply safe_bind.
  { apply (safe_modify _ (λ _ s', blockchain_ s' = Bc.add_block b (blockchain_ s) ∧ ledger_ s' = l'));
      [by destruct Hs2|done]. }
  intros u3 s3 Hs3 [E3 L3]. apply safe_ret; [done|]. by rewrite L3.
Qed.

Lemma step_inv s s' : step s s' → inv s → inv s'.
Proof.
  destruct 1 as [b now s Hb|tx s|blocks now s Hb|a v s Hv]; intros Hs.
  - by eapply safe_inv, safe_submit_block.
  - eapply safe_inv, safe_on_mempool; [done|]. apply Mp.add_transaction_inv, Hs.
  - by eapply safe_inv, safe_adopt_branch.
  - apply inv_set_ledger; [done|]. apply Ldg.wf_set_balance; [apply Hs|done].
Qed.

Lemma manager_make_inv n params st : inv (Cm.make n params st).
Proof.
  split; simpl.
  - apply Bc.make_inv.
  - constructor; [by apply Fork.known_genesis|constructor].
  - apply Mp.empty_pool_inv.
  - apply Op.empty_orphans_inv.
  - unfold kDefaultMaxOrphans. lia.
  - intros h b. unfold Op.find_orphan, Op.make. simpl. by rewrite lookup_empty.
  - apply Ldg.wf_empty.
Qed.

(** ** The store mirrors the chain *)

Section mirror.
Context `{!BlockStoreLaws}.

Definition mirrored s : Prop :=
  match storage_ s with
  | None => True
  | Some st => mirrors st (blocks_ (blockchain_ s))
  end.

Lemma accepted_mirrored b now s s' :
  inv s → Fork.known U b → accepted b now s s' → mirrored s → sz (blocks_ (blockchain_ s)) < 2 ^ 63 →
  mirrored s'.
Proof.
  intros Hs Hb Ha Hm Hsz. unfold mirrored in *. pose proof (ac_store _ _ _ _ Ha) as Hst.
  destruct (storage_ s) as [st|], (storage_ s') as [st'|]; try done. simpl in Hst.
  rewrite (ac_chain _ _ _ _ Ha). destruct (add_block_chain b s Hs Hb (ac_class _ _ _ _ Ha)) as (Hc' & _).
  destruct Hc' as ((Hn & _) & _).
  eapply (bsl_works st' (blocks_ (blockchain_ s) ++ [b])).
  - unfold Bc.add_block. cbn [blocks_]. by rewrite !fmap_app.
  - unfold Bc.add_block. cbn [blocks_]. by rewrite !fmap_app.
  - eapply bsl_save; [done| |done|done]. unfold Bc.add_block in Hn. cbn [blocks_] in Hn.
    rewrite fmap_app in Hn |- *. done.
Qed.

Lemma switched_mirrored fork s s' :
  inv s → inv s' → switched fork s s' → mirrored s → sz (blocks_ (blockchain_ s)) < 2 ^ 63 →
  sz (blocks_ (blockchain_ s')) < 2 ^ 63 → mirrored s'.
Proof.
  intros Hs Hs' Hsw Hm Hsz Hsz'. unfold mirrored in *. pose proof (sw_store _ _ _ Hsw) as Hst.
  destruct (fork_height fork _ (inv_chain s Hs) (sw_fork _ _ _ Hsw)) as [k Hk].
  pose proof (lookup_lt_Some _ _ _ Hk) as Hlt. pose proof (sw_chain _ _ _ Hsw) as Ec.
  assert (blocks_ (blockchain_ s') = take (k + 1) (blocks_ (blockchain_ s)) ++
    Bc.with_works (cumulative_work_ (common_ancestor fork)) (fork_blocks fork)) as Eb.
  { rewrite Ec. apply Bc.reorganize_blocks; [apply (inv_chain s Hs)|done]. }
  assert (length (take (k + 1) (blocks_ (blockchain_ s))) = k + 1)%nat as Elen by (rewrite length_take; lia).
  assert (Bc.size (blockchain_ s') - length (fork_blocks fork) = k + 1)%nat as Efp.
  { unfold Bc.size. rewrite Eb, length_app, Elen, Bc.length_with_works. lia. }
  cbv zeta in Hst. rewrite Efp, Eb in Hst. rewrite <- Elen in Hst at 2. rewrite drop_app_length in Hst.
  pose proof (inv_chain s' Hs') as ((Hn & _) & _). rewrite Eb in Hn, Hsz'.
  destruct (storage_ s) as [st|], (storage_ s') as [st'|]; try done. simpl in Hst.
  rewrite Eb. eapply bsl_replace; [done|lia|done|done| |done].
  rewrite sz_app in Hsz'. unfold sz in *. lia.
Qed.
End mirror.

(** The work of a chain's tip is a 64-bit value. *)
Lemma works_ok_range w l : in_u 64 w → Bc.works_ok w l →
  in_u 64 (match last l with Some b => cumulative_work_ b | None => w end).
Proof.
  revert w. induction l as [|b l IH]; intros w Hw Hl; [done|]. destruct Hl as [E Hl].
  rewrite last_cons. specialize (IH (cumulative_work_ b)).
  assert (in_u 64 (cumulative_work_ b)) as Hb by (rewrite E; apply u64_range).
  specialize (IH Hb Hl). by destruct (last l).
Qed.

Lemma rooted_work c : Bc.inv c → in_u 64 (Bc.tip_work (blocks_ c)).
Proof.
  intros (_ & (l & E & Hw) & _). unfold Bc.tip_work. rewrite E, last_cons.
  pose proof (works_ok_range 0 l ltac:(done) Hw). by destruct (last l).
Qed.

(** ** Properties *)

(** C2. What [submit_block] does on every path, for a block as the wire format delivers it.
    An accepted block meets its proof of work target, the coinbase, timestamp and difficulty
    rules, extends the tip, and all its transactions are authorized and applied in order; it
    leaves the mempool without them, the chain one block longer and the block in the store.
    A reorganization switches to a linked, authorized, strictly heavier fork. A rejected
    block, or one whose parent is missing, leaves the chain, the store and the mempool
    untouched; and the ledger too, up to accounts that did not exist and now hold an explicit
    0, unless the block is a child of the tip that passes every check but those of its
    transactions and one of their credits wraps around 2^64. An exception keeps the
    invariant. *)
Theorem submit_block_outcome b now s :
  inv s → Fork.known U b →
  match Cm.submit_block b now s with
  | (Ok o, s') => inv s' ∧ block_outcome b now s o s'
  | (Throw _, s') => inv s'
  end.
Proof. apply safe_submit_block. Qed.

(** C10. The cumulative work of the tip, whatever [submit_block] answers: a rejected block and
    one without its parent leave it as it was, a reorganization strictly increases it, and
    an accepted block adds its own work in 64 bits; so the work strictly increases as long as
    the exact sum is below 2^64, and only an accepted block whose sum reaches 2^64 can make
    it smaller. *)
Theorem submit_block_work b now s o s' :
  inv s → Fork.known U b → Cm.submit_block b now s = (Ok o, s') →
  let w := Bc.tip_work (blocks_ (blockchain_ s)) in
  let w' := Bc.tip_work (blocks_ (blockchain_ s')) in
  match status o with
  | Accepted => w' = u64 (w + Blk.block_work b) ∧
      (w + Blk.block_work b < 2 ^ 64 → w' = w + Blk.block_work b ∧ w < w')
  | Reorged => w < w'
  | Rejected | NeedParent => w' = w
  end.
Proof.
  intros Hs Hb E w w'. pose proof (safe_submit_block b now s Hs Hb) as Hsafe.
  unfold safe in Hsafe. rewrite E in Hsafe. destruct Hsafe as [_ Ho]. unfold block_outcome in Ho.
  pose proof (rooted_work _ (inv_chain s Hs)) as Hr.
  assert (0 <= difficulty_ b) as Hd by (destruct Hb as ((_ & _ & _ & _ & Hd & _) & _); solve_width).
  pose proof (Blk.block_work_range b Hd). destruct (status o).
  - destruct Ho as [[Ec _] _]. subst w w'. by rewrite Ec.
  - destruct Ho as [_ Ha]. subst w w'. rewrite (ac_chain _ _ _ _ Ha). unfold Bc.add_block. cbn [blocks_].
    rewrite Bc.tip_work_snoc. cbn [cumulative_work_ Blk.set_cumulative_work]. split; [f_equal; lia|].
    intros Hw. rewrite wrap_small by solve_width. lia.
  - destruct Ho as (fork & _ & Hsw). apply (sw_work _ _ _ Hsw).
  - destruct Ho as [[Ec _] _]. subst w w'. by rewrite Ec.
Qed.

(** [adopt_branch] either refuses and changes nothing, or switches to a strictly
    heavier branch of linked, authorized blocks that hangs off the chain. *)
Theorem adopt_branch_outcome blocks now s :
  inv s → Forall (Fork.known U) blocks →
  match Cm.adopt_branch blocks now s with
  | (Ok true, s') => inv s' ∧ ∃ fork, lands_on blocks s fork ∧ switched fork s s'
  | (Ok false, s') => s' = s
  | (Throw _, s') => inv s'
  end.
Proof.
  intros Hs Hk. pose proof (safe_adopt_branch blocks now s Hs Hk) as Hsafe. unfold safe in Hsafe.
  destruct (Cm.adopt_branch blocks now s) as [[[]|e] s']; [done|by destruct Hsafe|done].
Qed.

(** C16. The store follows the chain: if it holds exactly the chain before, it holds
    exactly the chain after every [submit_block] and [adopt_branch] that returns, whether
    the block was appended, a fork adopted or nothing done. *)
Theorem store_follows_chain `{!BlockStoreLaws} b blocks now s :
  inv s → Fork.known U b → Forall (Fork.known U) blocks →
  mirrored s → sz (blocks_ (blockchain_ s)) < 2 ^ 63 →
  (∀ o s', Cm.submit_block b now s = (Ok o, s') → sz (blocks_ (blockchain_ s')) < 2 ^ 63 → mirrored s') ∧
  (∀ r s', Cm.adopt_branch blocks now s = (Ok r, s') → sz (blocks_ (blockchain_ s')) < 2 ^ 63 → mirrored s').
Proof.
  intros Hs Hb Hk Hm Hsz. split.
  - intros o s' E Hsz'. pose proof (safe_submit_block b now s Hs Hb) as Hsafe.
    unfold safe in Hsafe. rewrite E in Hsafe. destruct Hsafe as [Hs' Ho]. unfold block_outcome in Ho.
    assert (same_store s s' → mirrored s') as Hsame.
    { intros (Ec & _ & Et). unfold mirrored in *. by rewrite Ec, Et. }
    destruct (status o).
    + by apply Hsame, Ho.
    + destruct Ho as [_ Ha]. exact (accepted_mirrored b now s s' Hs Hb Ha Hm Hsz).
    + destruct Ho as (fork & _ & Hsw). exact (switched_mirrored fork s s' Hs Hs' Hsw Hm Hsz Hsz').
    + by apply Hsame, Ho.
  - intros r s' E Hsz'. pose proof (safe_adopt_branch blocks now s Hs Hk) as Hsafe.
    unfold safe in Hsafe. rewrite E in Hsafe. destruct Hsafe as [Hs' Ho]. destruct r.
    + destruct Ho as (fork & _ & Hsw). exact (switched_mirrored fork s s' Hs Hs' Hsw Hm Hsz Hsz').
    + by subst s'.
Qed.
End safety.

(** ** Witnesses *)
Section witnesses.
#[local] Existing Instance demo_crypto.
#[local] Existing Instance demo_crypto_laws.
#[local] Existing Instance demo_sqlite.
#[local] Existing Instance demo_sqlite_laws.
#[local] Existing Instance Op.demo_buckets.

Definition mined (parent : HashBytes) (t : Z) (txs : list Transaction) : Block :=
  match Pow.mine_block 1 parent t 4 txs with Ok b => b | Throw _ => Bc.genesis end.

(** A block on genesis, and a competing branch of two. *)
Definition block_a : Block := Eval vm_compute in mined (hash_ Bc.genesis) 1000 [demo_coinbase "alice" 50].
Definition block_b : Block := Eval vm_compute in mined (hash_ Bc.genesis) 1001 [demo_coinbase "bob" 50].
Definition block_c : Block := Eval vm_compute in mined (hash_ block_b) 1002 [].

Definition demo_blocks : list Block := [Bc.genesis; block_a; block_b; block_c].

Definition universe : bytes → Prop := Fork.universe_of demo_blocks.

#[local] Instance universe_cf : CollisionFree universe.
Proof. apply Fork.universe_of_cf; [by vm_compute|left]. Qed.

Lemma universe_known b : b ∈ demo_blocks → Fork.known universe b.
Proof. apply Fork.universe_of_known. by vm_compute. Qed.

Lemma block_a_known : Fork.known universe block_a.
Proof. apply universe_known. right. left. Qed.
Lemma block_b_known : Fork.known universe block_b.
Proof. apply universe_known. do 2 right. left. Qed.
Lemma block_c_known : Fork.known universe block_c.
Proof. apply universe_known. do 3 right. left. Qed.

Definition demo_store : store := demo_empty_db.

Definition fresh : ChainManager := (Cm.init (Cm.make 10 kTestParams (Some demo_store))).2.

Lemma fresh_inv : inv universe fresh.
Proof. exact (inv_set_storage universe _ _ (manager_make_inv universe 10 kTestParams (Some demo_store))). Qed.

(** The states after [block_a], and after [block_a] and [block_b]. *)
Definition after_a : ChainManager := (Cm.submit_block block_a 1000 fresh).2.
Definition after_ab : ChainManager := (Cm.submit_block block_b 1001 after_a).2.

Lemma after_a_inv : inv universe after_a.
Proof. exact (step_inv universe _ _ (step_block universe _ 1000 fresh block_a_known) fresh_inv). Qed.

Lemma after_ab_inv : inv universe after_ab.
Proof. exact (step_inv universe _ _ (step_block universe _ 1001 after_a block_b_known) after_a_inv). Qed.

Lemma submit_block_outcome_witness :
  match Cm.submit_block block_a 1000 fresh with
  | (Ok o, s') => inv universe s' ∧ block_outcome universe block_a 1000 fresh o s'
  | (Throw _, s') => inv universe s'
  end.
Proof. apply (submit_block_outcome universe block_a 1000 fresh fresh_inv block_a_known). Defined.

Lemma submit_block_work_witness :
  let r := Cm.submit_block block_c 1002 after_ab in
  let w := Bc.tip_work (blocks_ (blockchain_ after_ab)) in
  let w' := Bc.tip_work (blocks_ (blockchain_ r.2)) in
  match r.1 with
  | Ok o => match status o with
            | Accepted => w' = u64 (w + Blk.block_work block_c) ∧
                (w + Blk.block_work block_c < 2 ^ 64 → w' = w + Blk.block_work block_c ∧ w < w')
            | Reorged => w < w'
            | Rejected | NeedParent => w' = w
            end
  | Throw _ => False
  end.
Proof.
  cbv zeta. destruct (Cm.submit_block block_c 1002 after_ab) as [[o|e] s'] eqn:E; cbn [fst snd].
  - apply (submit_block_work universe block_c 1002 after_ab o s' after_ab_inv block_c_known E).
  - assert (is_ok (Cm.submit_block block_c 1002 after_ab).1 = true) as Hok by by vm_compute.
    by rewrite E in Hok.
Defined.

Lemma adopt_branch_outcome_witness :
  match Cm.adopt_branch [block_b; block_c] 1002 after_a with
  | (Ok true, s') => inv universe s' ∧ ∃ fork, lands_on [block_b; block_c] after_a fork ∧ switched universe fork after_a s'
  | (Ok false, s') => s' = after_a
  | (Throw _, s') => inv universe s'
  end.
Proof.
  apply (adopt_branch_outcome universe [block_b; block_c] 1002 after_a after_a_inv).
  constructor; [apply block_b_known|]. constructor; [apply block_c_known|constructor].
Defined.

Lemma fresh_mirrored : mirrored fresh.
Proof.
  change (mirrors (Sto.save_block Bc.genesis 0 demo_empty_db).2 [Bc.genesis]).
  eapply (Sto.save_block_mirrors demo_empty_db [] Bc.genesis).
  - apply demo_empty_mirrors.
  - apply NoDup_singleton.
  - done.
  - reflexivity.
Qed.

Lemma store_follows_chain_witness :
  (∀ o s', Cm.submit_block block_a 1000 fresh = (Ok o, s') →
           sz (blocks_ (blockchain_ s')) < 2 ^ 63 → mirrored s') ∧
  (∀ r s', Cm.adopt_branch [block_b; block_c] 1000 fresh = (Ok r, s') →
           sz (blocks_ (blockchain_ s')) < 2 ^ 63 → mirrored s').
Proof.
  apply (store_follows_chain universe block_a [block_b; block_c] 1000 fresh fresh_inv block_a_known).
  - constructor; [apply block_b_known|]. constructor; [apply block_c_known|constructor].
  - apply fresh_mirrored.
  - by vm_compute.
Defined.
End witnesses.
End Cs.
