(* ===== verification/ChainProgress.v ===== *)
(** * What the chain manager lets through (src/chain/ChainManager.cpp, Orchestrator.cpp)

    Progress: a block assembled and mined as the mining loop does it is accepted by the
    same node. Laxity: what [adopt_branch] does not check. *)

From S2P Require Import Prelude Codec Crypto Demo Transaction Block Ledger Mempool OrphanPool.
From S2P Require Import ProofOfWork Blockchain ForkResolution BlockLocator Storage.
From S2P Require Import ChainManager ChainLedger ChainSafety.

Module Cp.

(** ** The mining loop (src/app/Orchestrator.cpp, [mining_loop])

    The coinbase put in front of the template's transactions, when a reward address is
    configured, and the block mined from the result. *)

Definition fees_total (txs : list Transaction) : Z := foldl (λ total tx, u64 (total + fee_ tx)) 0 txs.

Definition assemble (reward_address : str) (tmpl : BlockTemplate) : list Transaction :=
  if bool_decide (reward_address = []) then tmpl_transactions tmpl else
  Tx.make kCoinbaseSender reward_address
    (u64 (mining_reward + fees_total (tmpl_transactions tmpl))) [] 0 0 :: tmpl_transactions tmpl.

Definition mine_template `{Crypto} (reward_address : str) (tmpl : BlockTemplate)
    (should_stop : option (Z → Z → bool)) : option Block :=
  Pow.mine_block_until 1 (tmpl_prev_hash tmpl) (tmpl_timestamp tmpl) (tmpl_difficulty tmpl)
    (assemble reward_address tmpl) should_stop.

Section progress.
Context `{CryptoLaws} `{Buckets} `{!BlockStore} (U : bytes → Prop) {CF : CollisionFree U}.

Implicit Types s : ChainManager.

(** ** The tip *)

Lemma tip_position c tip :
  Bc.latest c = Ok tip → blocks_ c !! (Bc.size c - 1)%nat = Some tip ∧ (0 < Bc.size c)%nat.
Proof.
  intros Ht%of_option_Ok. rewrite last_lookup in Ht. pose proof (lookup_lt_Some _ _ _ Ht).
  unfold Bc.size. rewrite Nat.sub_1_r. split; [done|lia].
Qed.

Lemma tip_height c tip :
  Bc.inv c → Bc.latest c = Ok tip → Bc.find_height (hash_ tip) c = Some (Bc.size c - 1)%nat.
Proof.
  intros ((_ & Hi) & _) Ht. destruct (tip_position c tip Ht) as [Hk _].
  rewrite Bc.find_height_eq. apply Hi. by rewrite list_lookup_fmap, Hk.
Qed.

Lemma truncate_tip c : (0 < Bc.size c)%nat → Bc.truncate (Bc.size c - 1) c = ([], c).
Proof.
  intros Hn. unfold Bc.truncate, Bc.size in *.
  rewrite (drop_ge (blocks_ c)), (take_ge (blocks_ c)) by lia. by destruct c.
Qed.

Lemma reorganize_onto_tip c tip bs :
  Bc.inv c → Bc.latest c = Ok tip →
  Bc.reorganize_to (mkForkChain bs tip) c = (Some [], Bc.add_all bs c).
Proof.
  intros Hc Ht. destruct (tip_position c tip Ht) as [Hk Hn].
  unfold Bc.reorganize_to. cbn [common_ancestor fork_blocks].
  rewrite (tip_height c tip Hc Ht), truncate_tip by done. done.
Qed.

(** ** Collecting and replaying a branch *)

Lemma collect_txs_authorized txs hs acc :
  Forall Cl.authorized txs → ∃ hs', Cm.collect_txs txs (hs, acc) = Ok (Some (hs', acc ++ txs)).
Proof.
  intros Ha. revert hs acc. induction Ha as [|tx txs Htx _ IH]; intros hs acc; cbn [Cm.collect_txs fst snd].
  { exists hs. by rewrite app_nil_r. }
  destruct (Tx.is_coinbase tx) eqn:Ec.
  - destruct (IH hs (acc ++ [tx])) as [hs' ->]. exists hs'. by rewrite <- app_assoc.
  - destruct Htx as [?|Hs]; [congruence|]. rewrite Hs. cbn [mbind result_bind negb].
    destruct (IH ({[Tx.compute_hash tx]} ∪ hs) (acc ++ [tx])) as [hs' ->].
    exists hs'. by rewrite <- app_assoc.
Qed.

Lemma redo_all txs s :
  Cm.for_each (Cm.redo_tx ∅) txs s = (Ok tt, Cm.set_ledger (Ldg.apply_all txs (ledger_ s)) s).
Proof.
  revert s. induction txs as [|tx txs IH]; intros s; [by destruct s|].
  cbn [Cm.for_each].
  assert (Cm.redo_tx ∅ tx s = (Ok tt, Cm.set_ledger (Ldg.apply_transaction tx (ledger_ s)).2 s)) as E.
  { unfold Cm.redo_tx. by rewrite bool_decide_eq_false_2 by apply not_elem_of_empty. }
  rewrite (ST_bind_eq _ _ _ _ _ E), IH. done.
Qed.

(** ** What [adopt_branch] does not check *)

Lemma prefix_single b now s tip :
  Bc.inv (blockchain_ s) → Bc.latest (blockchain_ s) = Ok tip →
  Pow.timestamp_is_valid b (Bc.size (blockchain_ s)) now (params_ s)
    (Cm.block_at_callback (blockchain_ s)) = Ok true →
  Pow.next_difficulty (Bc.size (blockchain_ s)) (params_ s)
    (Cm.block_at_callback (blockchain_ s)) = Ok (difficulty_ b) →
  Cm.valid_prefix_length (mkForkChain [b] tip) now s = Ok 1%nat.
Proof.
  intros Hc Ht Htime Hd. destruct (tip_position _ _ Ht) as [_ Hn]. unfold Cm.valid_prefix_length.
  cbn [common_ancestor fork_blocks]. rewrite (tip_height _ _ Hc Ht).
  replace (Bc.size (blockchain_ s) - 1 + 1)%nat with (Bc.size (blockchain_ s)) by lia.
  set (n := Bc.size (blockchain_ s)) in *.
  assert (∀ i, (i < n)%nat → Cm.fork_block_at n (mkForkChain [b] tip) (blockchain_ s) i =
                             Cm.block_at_callback (blockchain_ s) i) as Hat.
  { intros i Hi. unfold Cm.fork_block_at. by rewrite (proj2 (Nat.ltb_lt _ _) Hi). }
  cbn [Cm.prefix_loop]. rewrite Nat.add_0_r.
  rewrite (Pow.timestamp_is_valid_ext _ _ _ _ _ _ Hat), Htime. cbn [mbind result_bind negb].
  rewrite (Pow.next_difficulty_ext _ _ _ _ Hat), Hd. cbn [mbind result_bind]. by rewrite Z.eqb_refl.
Qed.

Lemma fork_work_single tip b :
  Fork.fork_work (mkForkChain [b] tip) = u64 (cumulative_work_ tip + Blk.block_work b).
Proof. done. Qed.

Lemma try_reorg_onto_tip b s tip :
  Cs.inv U s → Fork.known U b → Bc.latest (blockchain_ s) = Ok tip → storage_ s = None →
  Forall Cl.authorized (transactions_ b) →
  Bc.tip_work (blocks_ (blockchain_ s)) + Blk.block_work b < 2 ^ 64 →
  ∃ s', Cm.try_reorg (mkForkChain [b] tip) s = (Ok (Some [hash_ b]), s') ∧
        blockchain_ s' = Bc.add_block b (blockchain_ s) ∧
        ledger_ s' = Ldg.apply_all (transactions_ b) (ledger_ s).
Proof.
  intros Hs Hb Ht Hst Hau Hw. pose proof (Cs.inv_chain _ _ Hs) as Hc.
  assert (Bc.tip_work (blocks_ (blockchain_ s)) = cumulative_work_ tip) as Etw.
  { unfold Bc.tip_work. apply of_option_Ok in Ht. by rewrite Ht. }
  pose proof (Cs.rooted_work _ Hc) as Hr. rewrite Etw in *.
  assert (0 <= difficulty_ b) as Hd by (destruct Hb as ((_ & _ & _ & _ & Hd & _) & _); solve_width).
  pose proof (Blk.block_work_range b Hd).
  unfold Cm.try_reorg, mbind, ST_bind, st_get, st_lift, Fork.is_fork_heavier. rewrite Ht.
  cbn [mbind result_bind mret result_ret]. unfold mret, result_ret. rewrite fork_work_single.
  rewrite wrap_small by solve_width. rewrite (proj2 (Z.ltb_lt _ _)) by lia. cbn [negb fork_blocks].
  cbn [Cm.collect_branch].
  destruct (collect_txs_authorized (transactions_ b) ∅ [] Hau) as [hs ->].
  cbn [mbind result_bind app]. unfold mret, result_ret. rewrite (reorganize_onto_tip _ _ _ Hc Ht).
  unfold Cm.bump_tip_version, st_modify, Cm.replay, mbind, ST_bind.
  cbn [mbind list_bind reverse rev_append Cm.for_each]. unfold mret, ST_ret.
  replace (Cm.discarded_hashes []) with (∅ : gset HashBytes) by done.
  rewrite redo_all. unfold Cm.on_storage. cbn [storage_ Cm.set_ledger Cm.set_blockchain].
  rewrite Hst. eexists. split; [done|]. done.
Qed.

(** ** A mined template passes every check *)

Lemma fees_total_eq txs : fees_total txs = u64 (Pow.total_fees txs).
Proof.
  unfold fees_total. cut (∀ acc, in_u 64 acc →
    foldl (λ total tx, u64 (total + fee_ tx)) acc txs = u64 (acc + Pow.total_fees txs)).
  { intros Hf. by rewrite Hf. }
  induction txs as [|tx txs IH]; intros acc Ha; simpl.
  { by rewrite Z.add_0_r, wrap_small. }
  rewrite IH by apply u64_range. rewrite wrap_add_l by done. f_equal. unfold Pow.total_fees. lia.
Qed.

Lemma signed_not_coinbase tx : Tx.has_valid_signature tx = Ok true → Tx.is_coinbase tx = false.
Proof. intros (Hc & _)%Tx.has_valid_signature_true. by apply Tx.is_coinbase_false. Qed.

Lemma selected_signed limit s :
  Cs.inv U s → Forall (λ tx, Tx.has_valid_signature tx = Ok true) (Cm.select_transactions limit s).
Proof.
  intros Hs. destruct (Cl.select_transactions_spec limit s) as (l' & _ & Hsub & _).
  rewrite Forall_forall. intros tx Htx. pose proof (Mp.inv_signed _ (Cs.inv_mempool _ _ Hs)) as Hf.
  rewrite Forall_forall in Hf. apply Hf. by eapply elem_of_sublist.
Qed.

Section template.
Context (reward : str) (tmpl : BlockTemplate) (limit : nat) (s : ChainManager).
Hypothesis Hs : Cs.inv U s.
Hypothesis Htx : tmpl_transactions tmpl = Cm.select_transactions limit s.

Lemma selected_no_coinbase : Pow.no_coinbase (tmpl_transactions tmpl).
Proof.
  rewrite Htx. eapply Forall_impl; [by apply selected_signed|]. apply signed_not_coinbase.
Qed.

Lemma assemble_coinbase_ok :
  Pow.validate_coinbase_amount (assemble reward tmpl) = true ∧
  Bc.coinbase_misplaced (assemble reward tmpl) = false.
Proof.
  pose proof selected_no_coinbase as Hn. unfold assemble, Bc.coinbase_misplaced. case_bool_decide.
  - split.
    + unfold Pow.validate_coinbase_amount. by rewrite Pow.find_coinbase_none.
    + apply Pow.existsb_no_coinbase. by apply Forall_drop.
  - split.
    + etrans; [apply (Pow.coinbase_check []), (Pow.find_coinbase_split 0 []); [constructor|done|done]|].
      cbn [amount_ Tx.make app]. rewrite fees_total_eq, wrap_add_r by done. apply Z.leb_refl.
    + by apply Pow.existsb_no_coinbase.
Qed.

Lemma assemble_authorized : Forall Cl.authorized (assemble reward tmpl).
Proof.
  assert (Forall Cl.authorized (tmpl_transactions tmpl)) as Ha.
  { rewrite Htx. eapply Forall_impl; [by apply selected_signed|]. by right. }
  unfold assemble. case_bool_decide; [done|]. constructor; [by left|done].
Qed.

(** The selection was made without the coinbase; with it in front the ledger is richer. *)
Lemma assemble_applies :
  Cl.bounded (assemble reward tmpl) (ledger_ s) →
  ∃ l', Cl.accepted_run (assemble reward tmpl) (ledger_ s) l'.
Proof.
  intros Hb. destruct (Cl.select_transactions_spec limit s) as (l' & R & _). rewrite <- Htx in R.
  unfold assemble in *. case_bool_decide; [by exists l'|].
  set (cb := Tx.make kCoinbaseSender reward _ [] 0 0) in *. pose proof (Cs.inv_ledger _ _ Hs) as Hl.
  assert (Ldg.apply_transaction cb (ledger_ s) = (true, Ldg.credit cb (ledger_ s))) as E by done.
  pose proof (Cl.bounded_no_overflow _ _ _ _ Hl Hb E) as [_ Hra].
  pose proof (Cl.bounded_step _ _ _ _ Hl Hb E) as Hb'.
  pose proof Hb as [_ [[Ht _] _]%Forall_cons]. pose proof Ht as (Ha & _).
  pose proof (Ldg.apply_transaction_wf cb (ledger_ s) Ht Hl) as Hl'. rewrite E in Hl'. simpl in Hl'.
  destruct (Cl.run_richer (tmpl_transactions tmpl) (ledger_ s) (Ldg.credit cb (ledger_ s)) l') as [l2 R2];
    [|done..|by exists l2; econstructor].
  unfold Ldg.credit. split_and!.
  - intros a. rewrite Ldg.balance_set_balance, wrap_small by done. case_decide; [subst a; solve_width|lia].
  - intros a. by rewrite Ldg.next_nonce_set_balance.
  - intros a. rewrite Ldg.is_Some_set_balance. by right.
Qed.
End template.

(** The store, if there is one, takes the block. *)
Definition store_accepts (b : Block) s : Prop :=
  match storage_ s with
  | None => True
  | Some st => (bs_save_block b (Bc.size (blockchain_ s)) st).1 = Ok tt
  end.

(** A block that passes every rule is accepted. *)
Lemma submit_valid_block b now s l' :
  Pow.meets_target (hash_ b) (difficulty_ b) = true →
  Pow.validate_coinbase_amount (transactions_ b) = true →
  Bc.classify_new_block b (blockchain_ s) = Ok Valid →
  Pow.timestamp_is_valid b (Bc.size (blockchain_ s)) now (params_ s)
    (Cm.block_at_callback (blockchain_ s)) = Ok true →
  Pow.next_difficulty (Bc.size (blockchain_ s)) (params_ s)
    (Cm.block_at_callback (blockchain_ s)) = Ok (difficulty_ b) →
  Forall Cl.authorized (transactions_ b) → Cl.accepted_run (transactions_ b) (ledger_ s) l' →
  store_accepts b s →
  ∃ s', Cm.submit_block b now s = (Ok (mkBlockOutcome Accepted [hash_ b] None), s') ∧
        blockchain_ s' = Bc.add_block b (blockchain_ s) ∧ ledger_ s' = l'.
Proof.
  intros Hpow Hcb Hcl Ht Hd Hau R Hst. unfold Cm.submit_block. rewrite Hpow, Hcb. cbn [negb].
  unfold mbind, ST_bind, st_get, st_lift. rewrite Hcl, Ht. cbn [negb]. rewrite Hd, Z.eqb_refl. cbn [negb].
  rewrite Cl.apply_block_eq, (Cl.apply_loop_complete _ [] _ _ Hau R).
  unfold st_modify, Cm.bump_tip_version, Cm.on_storage.
  cbn [storage_ Cm.set_blockchain Cm.set_mempool Cm.set_ledger blockchain_ st_modify].
  assert (Bc.size (Bc.add_block b (blockchain_ s)) - 1 = Bc.size (blockchain_ s))%nat as En.
  { unfold Bc.size, Bc.add_block. cbn [blocks_]. rewrite length_app. simpl. lia. }
  unfold store_accepts in Hst. destruct (storage_ s) as [st|]; [|by eexists].
  rewrite En. destruct (bs_save_block b _ st) as [r st']. simpl in Hst. rewrite Hst. by eexists.
Qed.

Lemma template_fields limit now s tmpl :
  Cm.block_template limit now s = Ok tmpl →
  ∃ tip mtp, Bc.latest (blockchain_ s) = Ok tip ∧ tmpl_prev_hash tmpl = hash_ tip ∧
    Pow.next_difficulty (Bc.size (blockchain_ s)) (params_ s)
      (Cm.block_at_callback (blockchain_ s)) = Ok (tmpl_difficulty tmpl) ∧
    Pow.median_time_past (Bc.size (blockchain_ s)) (mtp_window (params_ s))
      (Cm.block_at_callback (blockchain_ s)) = Ok mtp ∧
    tmpl_timestamp tmpl = Z.max now (u64 (mtp + 1)) ∧
    tmpl_transactions tmpl = Cm.select_transactions limit s.
Proof.
  unfold Cm.block_template. intros (tip & Ht & (d & Hd & (m & Hm & [= <-])%bind_Ok)%bind_Ok)%bind_Ok.
  by exists tip, m.
Qed.

Lemma timestamp_accepted b height now params block_at m :
  Pow.median_time_past height (mtp_window params) block_at = Ok m →
  m < timestamp_ b → timestamp_ b <= now + max_future_drift params →
  Pow.timestamp_is_valid b height now params block_at = Ok true.
Proof.
  intros Hm Hlt Hd. unfold Pow.timestamp_is_valid. rewrite Hm.
  rewrite (proj2 (Z.ltb_ge (max_future_drift params) _)) by lia. rewrite andb_false_r.
  cbn [mbind result_bind]. by rewrite (proj2 (Z.leb_gt _ _)).
Qed.

(** ** Properties *)

Lemma template_block_accepted reward limit now tmpl stop b now' s :
  Cs.inv U s → Cm.block_template limit now s = Ok tmpl →
  mine_template reward tmpl stop = Some b → Fork.known U b →
  Forall (λ x, timestamp_ x < 2 ^ 63) (blocks_ (blockchain_ s)) → 0 <= now < 2 ^ 63 →
  timestamp_ b <= now' + max_future_drift (params_ s) →
  Cl.bounded (assemble reward tmpl) (ledger_ s) → store_accepts b s →
  ∃ s', Cm.submit_block b now' s = (Ok (mkBlockOutcome Accepted [hash_ b] None), s') ∧
        blockchain_ s' = Bc.add_block b (blockchain_ s) ∧
        Cl.accepted_run (assemble reward tmpl) (ledger_ s) (ledger_ s').
Proof.
  intros Hs Htm Hmine Hkb Hts Hnow Hdrift Hb Hst.
  destruct (template_fields _ _ _ _ Htm) as (tip & mtp & Htip & Hprev & Hdiff & Hmtp & Htime & Htxs).
  assert (0 <= mtp < 2 ^ 63) as Hmr.
  { destruct (Pow.median_time_past_elem _ _ _ _ Hmtp) as [->|(i & x & Hx%of_option_Ok & ->)]; [done|].
    apply list_elem_of_lookup_2 in Hx. rewrite Forall_forall in Hts. specialize (Hts x Hx).
    pose proof (Cs.inv_known _ _ Hs) as Hk. rewrite Forall_forall in Hk.
    destruct (Hk x Hx) as ((_ & _ & _ & Ht & _) & _). unfold in_u in Ht. simpl in Hts. lia. }
  change (2 ^ 63) with 9223372036854775808 in *.
  assert (tmpl_timestamp tmpl = Z.max now (mtp + 1)) as Htime' by (rewrite Htime, wrap_small; solve_width).
  pose proof (Pow.mine_block_until_spec 1 (tmpl_prev_hash tmpl) (tmpl_timestamp tmpl) (tmpl_difficulty tmpl)
    (assemble reward tmpl) stop ltac:(solve_width)) as Hm.
  unfold mine_template in Hmine. rewrite Hmine in Hm.
  destruct Hm as (bumps & nonce & Hbu & Hn & Eb & Hpow & Hh & _).
  assert (transactions_ b = assemble reward tmpl ∧ prev_hash_ b = tmpl_prev_hash tmpl ∧
    difficulty_ b = tmpl_difficulty tmpl ∧ timestamp_ b = u64 (tmpl_timestamp tmpl + bumps))
    as (Et & Ep & Ed & Ets) by by rewrite Eb.
  destruct (assemble_coinbase_ok reward tmpl limit s Hs Htxs) as [Hcb Hmis].
  destruct (assemble_applies reward tmpl limit s Hs Htxs Hb) as [l' R].
  destruct (submit_valid_block b now' s l') as (s' & E & Ec & El).
  - by rewrite Ed.
  - by rewrite Et.
  - apply Bc.classify_Valid. rewrite Et, Ep, Hprev. split_and!; [done..|]. by exists tip.
  - apply (timestamp_accepted _ _ _ _ _ mtp); [done| |done].
    unfold kMaxTimestampBumps in Hbu. rewrite Ets, wrap_small; solve_width.
  - by rewrite Ed.
  - rewrite Et. by apply (assemble_authorized reward tmpl limit s).
  - by rewrite Et.
  - done.
  - exists s'. by rewrite El.
Qed.

(** Mining makes progress: take the block template of a consistent node, put the
    coinbase in front as the mining loop does, and mine it; if the tip has not moved, the
    node accepts the mined block, provided its clock is not behind the block by more than
    the allowed drift, the store can write, and the money supply stays below 2^63. *)
Theorem mined_block_accepted reward limit now tmpl stop b now' s :
  Cs.inv U s → Cm.block_template limit now s = Ok tmpl →
  mine_template reward tmpl stop = Some b → Fork.known U b →
  Forall (λ x, timestamp_ x < 2 ^ 63) (blocks_ (blockchain_ s)) → 0 <= now < 2 ^ 63 →
  timestamp_ b <= now' + max_future_drift (params_ s) →
  Cl.bounded (assemble reward tmpl) (ledger_ s) → store_accepts b s →
  ∃ s', Cm.submit_block b now' s = (Ok (mkBlockOutcome Accepted [hash_ b] None), s') ∧
        blockchain_ s' = Bc.add_block b (blockchain_ s) ∧
        Cl.accepted_run (assemble reward tmpl) (ledger_ s) (ledger_ s').
Proof. apply template_block_accepted. Qed.

(** C38. [adopt_branch] checks less than [submit_block]: any block on top of the tip whose
    timestamp and difficulty field are as scheduled and whose transactions carry valid
    signatures is adopted as a branch of one, whether or not its hash meets that
    difficulty, its coinbase stays within the reward and comes first, or its senders can
    pay; the transactions the ledger refuses are skipped. *)
Theorem adopt_branch_unchecked b now s tip :
  Cs.inv U s → Fork.known U b → Bc.latest (blockchain_ s) = Ok tip → prev_hash_ b = hash_ tip →
  storage_ s = None →
  Pow.timestamp_is_valid b (Bc.size (blockchain_ s)) now (params_ s)
    (Cm.block_at_callback (blockchain_ s)) = Ok true →
  Pow.next_difficulty (Bc.size (blockchain_ s)) (params_ s)
    (Cm.block_at_callback (blockchain_ s)) = Ok (difficulty_ b) →
  Forall Cl.authorized (transactions_ b) →
  Bc.tip_work (blocks_ (blockchain_ s)) + Blk.block_work b < 2 ^ 64 →
  ∃ s', Cm.adopt_branch [b] now s = (Ok true, s') ∧
        blockchain_ s' = Bc.add_block b (blockchain_ s) ∧
        ledger_ s' = Ldg.apply_all (transactions_ b) (ledger_ s).
Proof.
  intros Hs Hb Ht Hp Hst Htime Hd Hau Hw. pose proof (Cs.inv_chain _ _ Hs) as Hc.
  destruct (try_reorg_onto_tip b s tip Hs Hb Ht Hst Hau Hw) as (s' & E & Ec & El).
  exists s'. split; [|done]. unfold Cm.adopt_branch, mbind, ST_bind, st_get, st_lift. cbn [Cm.skip_known].
  rewrite (Fork.child_of_tip_fresh U _ tip b Hc (Cs.inv_known _ _ Hs) Hb Ht Hp).
  rewrite Hp, (tip_height _ _ Hc Ht). cbn [Cm.branch_linked negb].
  destruct (tip_position _ _ Ht) as [Hk _]. unfold Bc.at_. rewrite Hk. cbn [of_option].
  rewrite (prefix_single b now s tip Hc Ht Htime Hd). cbn [Nat.eqb fork_blocks take]. by rewrite E.
Qed.
End progress.

(** ** Witnesses *)
Section witnesses.
#[local] Existing Instance demo_crypto.
#[local] Existing Instance demo_crypto_laws.
#[local] Existing Instance demo_sqlite.
#[local] Existing Instance Op.demo_buckets.

(** The template of a fresh node, with a reward address, and the block mined from it. *)
Definition demo_tmpl : BlockTemplate :=
  match Cm.block_template 5 1000 Cs.fresh with
  | Ok t => t
  | Throw _ => mkBlockTemplate [] 0 0 0 0 []
  end.

Definition demo_mined : Block := Eval vm_compute in
  match mine_template (demo_address "miner") demo_tmpl None with Some b => b | None => Bc.genesis end.

(** A block that claims a million coins, spends money nobody has, and has no work. *)
Definition demo_lax : Block :=
  let b := Blk.set_difficulty 4
    (Blk.make 1 (hash_ Bc.genesis) 1000 [demo_coinbase "mallory" 1000000; demo_pay "alice" "bob" 77 0 0]) in
  Pow.seal (Blk.set_nonce 2 b).

Definition demo_blocks : list Block := [Bc.genesis; demo_mined; demo_lax].

Definition universe : bytes → Prop := Fork.universe_of demo_blocks.

#[local] Instance universe_cf : CollisionFree universe.
Proof. apply Fork.universe_of_cf; [by vm_compute|left]. Qed.

Lemma demo_mined_known : Fork.known universe demo_mined.
Proof. apply Fork.universe_of_known; [by vm_compute|right; left]. Qed.

Lemma demo_lax_known : Fork.known universe demo_lax.
Proof. apply Fork.universe_of_known; [by vm_compute|do 2 right; left]. Qed.

Definition demo_node : ChainManager := Cm.make 10 kTestParams None.

Lemma mined_block_accepted_witness :
  ∃ s', Cm.submit_block demo_mined 1000 Cs.fresh =
          (Ok (mkBlockOutcome Accepted [hash_ demo_mined] None), s') ∧
        blockchain_ s' = Bc.add_block demo_mined (blockchain_ Cs.fresh) ∧
        Cl.accepted_run (assemble (demo_address "miner") demo_tmpl) (ledger_ Cs.fresh) (ledger_ s').
Proof.
  apply (mined_block_accepted universe (demo_address "miner") 5 1000 demo_tmpl None demo_mined 1000 Cs.fresh).
  - exact (Cs.inv_set_storage universe _ _ (Cs.manager_make_inv universe 10 kTestParams (Some Cs.demo_store))).
  - by vm_compute.
  - by vm_compute.
  - apply demo_mined_known.
  - apply (bool_decide_unpack _). by vm_compute.
  - by vm_compute.
  - by vm_compute.
  - split; [by vm_compute|]. apply (bool_decide_unpack _). by vm_compute.
  - by vm_compute.
Defined.

Lemma adopt_branch_unchecked_witness :
  Pow.meets_target (hash_ demo_lax) (difficulty_ demo_lax) = false ∧
  Pow.validate_coinbase_amount (transactions_ demo_lax) = false ∧
  Ldg.get_balance (demo_address "alice") (ledger_ demo_node) = None ∧
  ∃ s', Cm.adopt_branch [demo_lax] 1000 demo_node = (Ok true, s') ∧
        blockchain_ s' = Bc.add_block demo_lax (blockchain_ demo_node) ∧
        ledger_ s' = Ldg.apply_all (transactions_ demo_lax) (ledger_ demo_node).
Proof.
  split; [by vm_compute|]. split; [by vm_compute|]. split; [by vm_compute|].
  apply (adopt_branch_unchecked universe demo_lax 1000 demo_node Bc.genesis).
  - apply (Cs.manager_make_inv universe 10 kTestParams None).
  - apply demo_lax_known.
  - done.
  - done.
  - done.
  - by vm_compute.
  - by vm_compute.
  - apply Forall_cons_2; [by left; vm_compute|]. apply Forall_singleton. right. by vm_compute.
  - by vm_compute.
Defined.
End witnesses.
End Cp.
