(* ===== verification/ChainReorg.v ===== *)
(** * The ledger after a reorganization (src/chain/ChainManager.cpp, [try_reorg])

    When the old and the new branch share no transaction, undoing the one and applying
    the other leaves the ledger of a node that had followed the new branch from the start.
    When they share one, it need not. *)

From S2P Require Import Prelude Codec Crypto Demo Transaction Block Ledger Mempool OrphanPool.
From S2P Require Import ProofOfWork Blockchain ForkResolution BlockLocator Storage.
From S2P Require Import ChainManager ChainLedger ChainSafety.

Module Cr.

Section reorg.
Context `{Crypto} `{Buckets} `{!BlockStore}.

Implicit Types s : ChainManager.

Definition txs_of (blocks : list Block) : list Transaction := blocks ≫= transactions_.

(** No transaction of the first list has the identifier of one of the second, unless both
    are coinbases (the rewards of one miner may be equal). *)
Definition disjoint_txs (txs txs' : list Transaction) : Prop :=
  ∀ tx tx', tx ∈ txs → tx' ∈ txs' → Tx.compute_hash tx = Tx.compute_hash tx' →
    Tx.is_coinbase tx = true ∧ Tx.is_coinbase tx' = true.

(** ** What the loops do to the ledger *)

Lemma undo_ledger hs txs s s' :
  Cm.for_each (Cm.undo_tx hs) txs s = (Ok tt, s') → Forall (λ tx, Tx.compute_hash tx ∉ hs) txs →
  ledger_ s' = foldl (λ l tx, (Ldg.reverse_transaction tx l).2) (ledger_ s) txs.
Proof.
  revert s. induction txs as [|tx txs IH]; intros s E Hf; cbn [Cm.for_each] in E; [by injection E as <-|].
  apply Forall_cons in Hf as [Htx Hf]. apply ST_bind_Ok in E as ([] & s1 & E1 & E2).
  rewrite (IH s1 E2 Hf). cbn [foldl]. f_equal. unfold Cm.undo_tx in E1.
  rewrite bool_decide_eq_false_2 in E1 by done. apply ST_bind_Ok in E1 as ([] & s2 & [= <-] & E1).
  destruct (Tx.is_coinbase tx); [by injection E1 as <-|].
  apply ST_bind_Ok in E1 as (r & s3 & E3 & [= <-]).
  unfold Cm.on_mempool, st_zoom in E3. destruct (Mp.add_transaction _ _). by injection E3 as _ <-.
Qed.

Lemma redo_ledger ds txs s s' :
  Cm.for_each (Cm.redo_tx ds) txs s = (Ok tt, s') → Forall (λ tx, Tx.compute_hash tx ∉ ds) txs →
  ledger_ s' = Ldg.apply_all txs (ledger_ s).
Proof.
  revert s. induction txs as [|tx txs IH]; intros s E Hf; cbn [Cm.for_each] in E; [by injection E as <-|].
  apply Forall_cons in Hf as [Htx Hf]. apply ST_bind_Ok in E as ([] & s1 & E1 & E2).
  rewrite (IH s1 E2 Hf). unfold Cm.redo_tx in E1. rewrite bool_decide_eq_false_2 in E1 by done.
  by injection E1 as <-.
Qed.

Lemma reverse_all_foldl txs l :
  foldl (λ l tx, (Ldg.reverse_transaction tx l).2) l (reverse txs) = Cm.reverse_all txs l.
Proof.
  unfold Cm.reverse_all. induction txs as [|tx txs IH]; [done|].
  rewrite reverse_cons, foldl_app, IH. done.
Qed.

Lemma replay_ledger hs txs discarded s s' :
  Cm.replay hs txs discarded s = (Ok tt, s') →
  Forall (λ tx, Tx.compute_hash tx ∉ hs) (txs_of discarded) →
  Forall (λ tx, Tx.compute_hash tx ∉ Cm.discarded_hashes discarded) txs →
  ledger_ s' = Ldg.apply_all txs (Cm.reverse_all (txs_of discarded) (ledger_ s)).
Proof.
  intros ([] & s1 & E1 & E2)%ST_bind_Ok Hf1 Hf2. apply redo_ledger in E2; [|done].
  apply undo_ledger in E1; [|by apply Forall_reverse]. by rewrite E2, E1, reverse_all_foldl.
Qed.

(** ** Identifiers *)

Lemma collect_txs_hashes txs hs acc hs' acc' :
  Cm.collect_txs txs (hs, acc) = Ok (Some (hs', acc')) →
  ∀ h, h ∈ hs' → h ∈ hs ∨ ∃ tx, tx ∈ txs ∧ Tx.is_coinbase tx = false ∧ Tx.compute_hash tx = h.
Proof.
  revert hs acc. induction txs as [|tx txs IH]; intros hs acc; cbn [Cm.collect_txs fst snd].
  { intros [= <- <-]. by left. }
  destruct (Tx.is_coinbase tx) eqn:Ec.
  - intros E h Hh. destruct (IH _ _ E h Hh) as [?|(tx' & ? & ?)]; [by left|].
    right. exists tx'. split; [by right|done].
  - intros ([] & _ & E)%bind_Ok h Hh; [|done]. cbn [negb] in E.
    destruct (IH _ _ E h Hh) as [[->%elem_of_singleton|?]%elem_of_union|(tx' & ? & ?)].
    + right. exists tx. split; [left|done].
    + by left.
    + right. exists tx'. split; [by right|done].
Qed.

Lemma collect_branch_hashes blocks hs acc hs' acc' :
  Cm.collect_branch blocks (hs, acc) = Ok (Some (hs', acc')) →
  ∀ h, h ∈ hs' → h ∈ hs ∨ ∃ tx, tx ∈ txs_of blocks ∧ Tx.is_coinbase tx = false ∧ Tx.compute_hash tx = h.
Proof.
  revert hs acc. induction blocks as [|b blocks IH]; intros hs acc; cbn [Cm.collect_branch].
  { intros [= <- <-]. by left. }
  intros ([[hs1 acc1]|] & E1 & E2)%bind_Ok h Hh; [|done]. unfold txs_of. rewrite bind_cons.
  destruct (IH _ _ E2 h Hh) as [Hin|(tx & Hin & Htx)].
  - destruct (collect_txs_hashes _ _ _ _ _ E1 h Hin) as [?|(tx & ? & ?)]; [by left|].
    right. exists tx. split; [apply elem_of_app; by left|done].
  - right. exists tx. split; [apply elem_of_app; by right|done].
Qed.

Lemma discarded_hashes_elem discarded h :
  h ∈ Cm.discarded_hashes discarded →
  ∃ tx, tx ∈ txs_of discarded ∧ Tx.is_coinbase tx = false ∧ Tx.compute_hash tx = h.
Proof.
  unfold Cm.discarded_hashes. rewrite elem_of_list_to_set.
  intros (tx & -> & [? Hin]%list_elem_of_filter)%list_elem_of_fmap. by exists tx.
Qed.

Lemma accepted_run_apply_all txs l l' : Cl.accepted_run txs l l' → Ldg.apply_all txs l = l'.
Proof.
  induction 1 as [|tx txs l l1 l2 E _ IH]; [done|]. unfold Ldg.apply_all in *. simpl. by rewrite E.
Qed.

Lemma accepted_run_refines txs l l2 l1 :
  Ldg.refines l l2 → Cl.accepted_run txs l l1 → ∃ l3, Cl.accepted_run txs l2 l3 ∧ Ldg.refines l1 l3.
Proof.
  intros Hr R. revert l2 Hr. induction R as [l|tx txs l la lb E _ IH]; intros l2 Hr.
  { exists l2. split; [constructor|done]. }
  destruct (Ldg.apply_refines tx l l2 la Hr E) as (l2' & E' & Hr').
  destruct (IH l2' Hr') as (l3 & R3 & Hr3). exists l3. split; [by econstructor|done].
Qed.

(** The parts of a completed [try_reorg] that touch the ledger. *)
Lemma try_reorg_replay fork s hs s' :
  Cm.try_reorg fork s = (Ok (Some hs), s') →
  ∃ hashes discarded s1 s2,
    Cm.collect_branch (fork_blocks fork) (∅, []) = Ok (Some (hashes, txs_of (fork_blocks fork))) ∧
    (Bc.reorganize_to fork (blockchain_ s)).1 = Some discarded ∧ ledger_ s1 = ledger_ s ∧
    Cm.replay hashes (txs_of (fork_blocks fork)) discarded s1 = (Ok tt, s2) ∧ ledger_ s' = ledger_ s2.
Proof.
  unfold Cm.try_reorg. intros (s0 & ? & [= <- <-] & E)%ST_bind_Ok.
  apply ST_bind_Ok in E as ([] & ? & [= _ <-] & E); [|done]. cbn [negb] in E.
  apply ST_bind_Ok in E as (r & ? & Er & E). unfold st_lift in Er. injection Er as Er <-.
  destruct r as [[hashes txs]|]; [|done].
  pose proof (Cs.collect_branch_spec _ _ _ _ _ Er) as [-> _].
  destruct (Bc.reorganize_to fork (blockchain_ s)) as [[discarded|] c'] eqn:Ere; [|done].
  apply ST_bind_Ok in E as ([] & s1 & [= <-] & E). apply ST_bind_Ok in E as ([] & s2 & [= <-] & E).
  apply ST_bind_Ok in E as ([] & s3 & E3 & E). apply ST_bind_Ok in E as ([] & s4 & E4 & [= _ <-]).
  eexists hashes, discarded, _, s3. split_and!; [done|done| |exact E3|]; [done|].
  unfold Cm.on_storage in E4. destruct (storage_ s3); [|by injection E4 as <-].
  destruct (bs_replace_blocks_from _ _ _). by injection E4 as _ <-.
Qed.

(** The ledger after a switch, from one that the old branch led to up to emptied accounts. *)
Lemma reorg_refines fork s hs s' discarded l0 l l1 :
  Cm.try_reorg fork s = (Ok (Some hs), s') →
  (Bc.reorganize_to fork (blockchain_ s)).1 = Some discarded →
  Ldg.wf l0 → Forall Tx.wf (txs_of discarded) → ¬ Cl.wraps (txs_of discarded) l0 →
  Cl.accepted_run (txs_of discarded) l0 l → Ldg.refines l (ledger_ s) →
  Cl.accepted_run (txs_of (fork_blocks fork)) l0 l1 →
  disjoint_txs (txs_of discarded) (txs_of (fork_blocks fork)) →
  Ldg.refines l1 (ledger_ s').
Proof.
  intros E Ed Hl0 Hw Hb Rold Hl Rnew Hdis.
  destruct (try_reorg_replay _ _ _ _ E) as (hashes & d & s1 & s2 & Ecol & Ed' & El1 & Erep & El2).
  rewrite Ed in Ed'. injection Ed' as <-.
  assert (ledger_ s2 = Ldg.apply_all (txs_of (fork_blocks fork))
    (Cm.reverse_all (txs_of discarded) (ledger_ s1))) as Efin.
  { eapply replay_ledger; [done|..]; apply Forall_forall; intros tx Htx Hin.
    - destruct (collect_branch_hashes _ _ _ _ _ Ecol _ Hin) as [?|(tx' & Hin' & Hc & Eh)]; [set_solver|].
      destruct (Hdis tx tx'); congruence.
    - apply discarded_hashes_elem in Hin as (tx' & Hin' & Hc & Eh). destruct (Hdis tx' tx); congruence. }
  rewrite El1 in Efin. rewrite El2, Efin.
  destruct (Cl.reverse_run _ _ _ (ledger_ s) Hl0 Hw Rold Hl) as [Hr|?]; [|done].
  destruct (accepted_run_refines _ _ _ _ Hr Rnew) as (l3 & R3 & Hr3).
  by rewrite (accepted_run_apply_all _ _ _ R3).
Qed.

(** ** Properties *)

(** C6. A reorganization leaves the right ledger under these conditions: there is a ledger
    [l0] at the fork point from which the transactions of the discarded blocks, each
    accepted and none of their credits wrapping around 2^64, led to the current ledger; the
    new branch's transactions are all accepted from [l0]; and the branches share no
    transaction but equal coinbases. Then after a successful [try_reorg] every balance and
    nonce is what following the new branch from [l0] gives, and the only accounts more are
    ones the undoing left with an explicit 0. *)
Theorem reorg_ledger_correct fork s hs s' discarded l0 l1 :
  Cm.try_reorg fork s = (Ok (Some hs), s') →
  (Bc.reorganize_to fork (blockchain_ s)).1 = Some discarded →
  Ldg.wf l0 → Forall Tx.wf (txs_of discarded) → ¬ Cl.wraps (txs_of discarded) l0 →
  Cl.accepted_run (txs_of discarded) l0 (ledger_ s) →
  Cl.accepted_run (txs_of (fork_blocks fork)) l0 l1 →
  disjoint_txs (txs_of discarded) (txs_of (fork_blocks fork)) →
  Ldg.refines l1 (ledger_ s').
Proof. intros E Ed Hl0 Hw Hb Rold Rnew Hdis. by eapply (reorg_refines fork s hs s' discarded l0 (ledger_ s)).
Qed.
End reorg.

(** A run is decided by evaluation. *)
Fixpoint all_accepted (txs : list Transaction) (l : Ledger) : bool :=
  match txs with
  | [] => true
  | tx :: txs => (Ldg.apply_transaction tx l).1 && all_accepted txs (Ldg.apply_transaction tx l).2
  end.

Lemma all_accepted_run txs l :
  all_accepted txs l = true → Cl.accepted_run txs l (Ldg.apply_all txs l).
Proof.
  revert l. induction txs as [|tx txs IH]; intros l E; [constructor|].
  cbn [all_accepted] in E. apply andb_true_iff in E as [E1 E2].
  eapply Cl.run_cons; [|by apply IH]. destruct (Ldg.apply_transaction tx l). by simpl in E1; subst.
Qed.

(** ** Concrete branches *)
Section witnesses.
#[local] Existing Instance demo_crypto.
#[local] Existing Instance demo_sqlite.
#[local] Existing Instance Op.demo_buckets.

Definition block_on (parent : Block) (t : Z) (txs : list Transaction) : Block :=
  Pow.seal (Blk.set_difficulty 4 (Blk.make 1 (hash_ parent) t txs)).

(** A node whose chain is genesis and one block with [txs], applied to [alice = 100]. *)
Definition base_ledger : Ledger := Ldg.set_balance (demo_address "alice") 100 Ldg.empty.

Definition node_after (txs : list Transaction) : ChainManager :=
  Cm.set_ledger (Ldg.apply_all txs base_ledger)
    (Cm.set_blockchain (Bc.add_block (block_on Bc.genesis 10 txs) Bc.make) (Cm.make 10 kTestParams None)).

(** A heavier branch from genesis whose first block has [txs]. *)
Definition fork_with (txs : list Transaction) : ForkChain :=
  let b := block_on Bc.genesis 11 txs in mkForkChain [b; block_on b 12 []] Bc.genesis.

Definition pay_bob : Transaction := demo_pay "alice" "bob" 10 1 0.
Definition pay_carol : Transaction := demo_pay "alice" "carol" 20 1 0.
Definition pay_dave : Transaction := demo_pay "alice" "dave" 5 1 1.

Lemma reorg_ledger_correct_witness :
  Ldg.refines (Ldg.apply_all [pay_carol] base_ledger)
    (ledger_ (Cm.try_reorg (fork_with [pay_carol]) (node_after [pay_bob])).2).
Proof.
  apply (reorg_ledger_correct (fork_with [pay_carol]) (node_after [pay_bob])
           (hash_ <$> fork_blocks (fork_with [pay_carol])) _
           (drop 1 (blocks_ (blockchain_ (node_after [pay_bob])))) base_ledger).
  - apply ST_run_eq. by vm_compute.
  - by vm_compute.
  - apply Ldg.wf_set_balance; [apply Ldg.wf_empty|done].
  - apply (bool_decide_unpack _). by vm_compute.
  - apply Cl.bounded_wraps; [apply Ldg.wf_set_balance; [apply Ldg.wf_empty|done]|].
    split; [by vm_compute|]. apply (bool_decide_unpack _). by vm_compute.
  - apply (all_accepted_run [pay_bob]). by vm_compute.
  - apply (all_accepted_run [pay_carol]). by vm_compute.
  - intros tx tx' ->%list_elem_of_singleton ->%list_elem_of_singleton. by vm_compute.
Defined.

(** Branches that share a transaction break the ledger: the node's chain pays bob with
    nonce 0 and dave with nonce 1; a heavier branch pays carol with nonce 0 and makes the
    same payment to dave. Both branches are valid from the fork point, but because the
    shared payment is neither undone nor redone, the payment to bob cannot be reversed
    and the payment to carol is refused: after the switch the ledger is not that of the
    new branch (carol has nothing). *)
Theorem reorg_shared_transaction_diverges :
  let s := node_after [pay_bob; pay_dave] in
  let fork := fork_with [pay_carol; pay_dave] in
  ∃ hs s' discarded l1,
    Cm.try_reorg fork s = (Ok (Some hs), s') ∧
    (Bc.reorganize_to fork (blockchain_ s)).1 = Some discarded ∧
    Cl.accepted_run (txs_of discarded) base_ledger (ledger_ s) ∧
    Cl.accepted_run (txs_of (fork_blocks fork)) base_ledger l1 ∧
    Ldg.balance (demo_address "carol") l1 = 20 ∧
    Ldg.balance (demo_address "carol") (ledger_ s') = 0.
Proof.
  intros s fork.
  exists (hash_ <$> fork_blocks fork), (Cm.try_reorg fork s).2, (drop 1 (blocks_ (blockchain_ s))),
    (Ldg.apply_all [pay_carol; pay_dave] base_ledger).
  split_and!; [apply ST_run_eq; by vm_compute|by vm_compute| | |by vm_compute|by vm_compute].
  - apply (all_accepted_run [pay_bob; pay_dave]). by vm_compute.
  - apply (all_accepted_run [pay_carol; pay_dave]). by vm_compute.
Qed.
End witnesses.
End Cr.
