(* ===== verification/ChainSync.v ===== *)
(** * Catching up

    What [adopt_branch] does with the blocks by which another chain is longer: the chains
    become equal, block for block, including the accumulated work that is not transmitted. *)

From S2P Require Import Prelude Codec Crypto Demo Transaction Block Ledger Mempool OrphanPool.
From S2P Require Import ProofOfWork Blockchain ForkResolution BlockLocator Storage.
From S2P Require Import ChainManager ChainLedger ChainSafety ChainProgress.

Module Cy.

(** ** The consensus rules see timestamps and difficulties only *)

Definition rules (r : result Block) : result (Z * Z) :=
  match r with Ok b => Ok (timestamp_ b, difficulty_ b) | Throw e => Throw e end.

Lemma rules_Ok r r' b : rules r = rules r' → r = Ok b →
  ∃ b', r' = Ok b' ∧ timestamp_ b' = timestamp_ b ∧ difficulty_ b' = difficulty_ b.
Proof. intros E ->. destruct r' as [b'|]; simpl in E; [|done]. injection E as ? ?. eauto. Qed.

Lemma rules_Throw r r' e : rules r = rules r' → r = Throw e → r' = Throw e.
Proof. intros E ->. destruct r'; simpl in E; [done|]. by injection E as <-. Qed.

Lemma mapM_rules {A} (f g : A → result Block) l :
  (∀ x, x ∈ l → rules (f x) = rules (g x)) →
  match (mapM f l : result (list Block)) with
  | Ok bs => ∃ bs' : list Block, mapM g l = Ok bs' ∧ timestamp_ <$> bs' = timestamp_ <$> bs
  | Throw e => mapM g l = Throw e
  end.
Proof.
  induction l as [|x l IH]; intros Hfg; simpl; [by exists []|].
  pose proof (Hfg x ltac:(left)) as Hx. destruct (f x) as [b|e] eqn:Ef; simpl.
  - destruct (rules_Ok _ _ b Hx eq_refl) as (b' & -> & Et & _). simpl.
    specialize (IH (λ y Hy, Hfg y (list_elem_of_further _ _ _ Hy))).
    destruct (mapM f l) as [bs|e]; simpl.
    + destruct IH as (bs' & -> & E). exists (b' :: bs'). split; [done|]. by rewrite !fmap_cons, Et, E.
    + by rewrite IH.
  - by rewrite (rules_Throw _ _ e Hx eq_refl).
Qed.

Lemma timestamp_rules block height now params f g :
  (∀ i, (i < height)%nat → rules (f i) = rules (g i)) →
  Pow.timestamp_is_valid block height now params f = Pow.timestamp_is_valid block height now params g.
Proof.
  intros Hfg. unfold Pow.timestamp_is_valid, Pow.median_time_past. destruct (_ && _); [done|].
  destruct ((height =? 0)%nat || _); [done|]. set (start := if (_ <? _)%nat then _ else _).
  assert (∀ i, i ∈ seq start (height - start) → rules (f i) = rules (g i)) as Hs.
  { intros i Hi%elem_of_seq. apply Hfg. unfold start in *. case_match; lia. }
  apply mapM_rules in Hs. destruct (mapM f _) as [bs|e].
  - destruct Hs as (bs' & -> & E). cbn [mbind result_bind]. by rewrite E.
  - by rewrite Hs.
Qed.

Lemma difficulty_rules height params f g :
  (∀ i, (i < height)%nat → rules (f i) = rules (g i)) →
  Pow.next_difficulty height params f = Pow.next_difficulty height params g.
Proof.
  intros Hfg. unfold Pow.next_difficulty.
  destruct (Nat.ltb_spec (retarget_interval params) 2); [done|].
  destruct (Nat.leb_spec height (retarget_interval params)); [done|]. cbn [orb].
  pose proof (Hfg (height - 1)%nat ltac:(lia)) as H1.
  pose proof (Hfg (height - retarget_interval params)%nat ltac:(lia)) as H2.
  destruct (f (height - 1)%nat) as [b|e] eqn:E1.
  2: by rewrite (rules_Throw _ _ e H1 eq_refl).
  destruct (rules_Ok _ _ b H1 eq_refl) as (b' & -> & Et & Ed). cbn [mbind result_bind]. rewrite Ed.
  destruct (negb _); [done|]. destruct (f (height - retarget_interval params)%nat) as [c|e] eqn:E2.
  2: by rewrite (rules_Throw _ _ e H2 eq_refl).
  destruct (rules_Ok _ _ c H2 eq_refl) as (c' & -> & Et' & _). cbn [mbind result_bind]. by rewrite Et, Et'.
Qed.

Section sync.
Context `{CryptoLaws} `{Buckets} `{!BlockStore} (U : bytes → Prop) {CF : CollisionFree U}.

Implicit Types s : ChainManager.

(** ** Chains with the same hashes *)

Lemma same_block a b :
  Fork.known U a → Fork.known U b → hash_ a = hash_ b → cumulative_work_ a = cumulative_work_ b → a = b.
Proof.
  intros Ka Kb Eh Ew. pose proof (Fork.known_fields U a b Ka Kb Eh) as Ef.
  destruct a, b. unfold Blk.fields in Ef. simpl in *. congruence.
Qed.

Lemma same_blocks w l l' :
  Bc.works_ok w l → Bc.works_ok w l' → Forall (Fork.known U) l → Forall (Fork.known U) l' →
  hash_ <$> l = hash_ <$> l' → l = l'.
Proof.
  revert w l'. induction l as [|a l IH]; intros w [|b l'] Hw Hw' Hk Hk' E; try done.
  destruct Hw as [Ea Hw], Hw' as [Eb Hw']. apply Forall_cons in Hk as [Ka Hk], Hk' as [Kb Hk'].
  cbn [fmap list_fmap] in E. injection E as Eh E.
  assert (a = b) as ->.
  { pose proof (Fork.known_fields U a b Ka Kb Eh) as Ef. apply same_block; [done..|].
    rewrite Ea, Eb. unfold Blk.block_work. unfold Blk.fields in Ef. by replace (difficulty_ a) with (difficulty_ b) by congruence. }
  f_equal. by eapply IH.
Qed.

Lemma with_works_strip w l : Bc.works_ok w l → Bc.with_works w (Blk.set_cumulative_work 0 <$> l) = l.
Proof.
  revert w. induction l as [|b l IH]; intros w; [done|]. intros [Eb Hl]. cbn [fmap list_fmap Bc.with_works].
  change (Blk.block_work (Blk.set_cumulative_work 0 b)) with (Blk.block_work b). rewrite <- Eb.
  f_equal; [by destruct b|]. by apply IH.
Qed.

Lemma arrival_known b : Fork.known U b → Blk.on_arrival b = Blk.set_cumulative_work 0 b.
Proof. intros (_ & _ & Eh). destruct b. unfold Blk.on_arrival in *. simpl in *. by rewrite Eh. Qed.

Lemma links_branch prev b l :
  Bc.links_ok prev (b :: l) = true → prev_hash_ b = hash_ prev ∧ Cm.branch_linked b l = true.
Proof.
  revert prev b. induction l as [|x l IH]; intros prev b; cbn [Bc.links_ok].
  - destruct (Bc.link_ok prev b) eqn:E; [|done]. apply Bc.link_ok_spec in E as [_ E]. done.
  - destruct (Bc.link_ok prev b) eqn:E; [|done]. apply Bc.link_ok_spec in E as [_ E].
    intros Hl. destruct (IH b x Hl) as [Ep Hb]. split; [done|]. cbn [Cm.branch_linked].
    by rewrite bool_decide_true.
Qed.

Lemma branch_linked_strip b l :
  Cm.branch_linked (Blk.set_cumulative_work 0 b) (Blk.set_cumulative_work 0 <$> l) = Cm.branch_linked b l.
Proof.
  revert b. induction l as [|x l IH]; intros b; [done|]. cbn [fmap list_fmap Cm.branch_linked].
  by rewrite IH.
Qed.

(** ** A longer chain *)

Section longer.
Context (s : ChainManager) (c : Blockchain).
Hypothesis Hs : Cs.inv U s.
Hypothesis Hc : Bc.inv c.
Hypothesis Kc : Forall (Fork.known U) (blocks_ c).

Abbreviation a := (blockchain_ s).
Abbreviation n := (Bc.size (blockchain_ s)).

Hypothesis Hlt : (n < Bc.size c)%nat.
Hypothesis Hpre : hash_ <$> blocks_ a = take n (hash_ <$> blocks_ c).

(** The missing blocks, as they are and as they arrive. *)
Definition missing : list Block := drop n (blocks_ c).
Definition arriving : list Block := Blk.on_arrival <$> missing.

Lemma blocks_split : blocks_ c = blocks_ a ++ missing.
Proof.
  rewrite <- (take_drop n (blocks_ c)) at 1. f_equal.
  destruct (Cs.inv_chain _ _ Hs) as (_ & (la & Ea & Wa) & _). destruct Hc as (_ & (lc & Ec & Wc) & _).
  pose proof (Cs.inv_known _ _ Hs) as Ka.
  rewrite <- fmap_take in Hpre. rewrite Ea, Ec in *.
  unfold Bc.size in *. rewrite Ea in *. cbn [length take] in *. f_equal.
  apply Forall_cons in Ka as [_ Ka], Kc as [_ Kl]. cbn [fmap list_fmap] in Hpre. injection Hpre as Hh.
  symmetry. eapply (same_blocks 0); [done|by apply Bc.works_ok_take|done|by apply Forall_take|done].
Qed.

Lemma tip_exists : ∃ tip, Bc.latest a = Ok tip ∧ blocks_ c !! (n - 1)%nat = Some tip ∧ (0 < n)%nat.
Proof.
  destruct (Bc.rooted_latest a) as (tip & Ht & _); [apply (Cs.inv_chain _ _ Hs)|].
  exists tip. destruct (Cp.tip_position a tip Ht) as [Hk Hn]. split_and!; [done| |done].
  rewrite blocks_split. by apply lookup_app_l_Some.
Qed.

Lemma missing_known : Forall (Fork.known U) missing.
Proof. by apply Forall_drop. Qed.

Lemma arriving_eq : arriving = Blk.set_cumulative_work 0 <$> missing.
Proof.
  unfold arriving. apply list_fmap_ext. intros i b Hi. apply arrival_known.
  pose proof missing_known as Hm. rewrite Forall_lookup in Hm. by eapply Hm.
Qed.

Lemma arriving_hashes : hash_ <$> arriving = hash_ <$> missing.
Proof. rewrite arriving_eq, <- list_fmap_compose. by apply list_fmap_ext. Qed.

Lemma arriving_known : Forall (Fork.known U) arriving.
Proof.
  rewrite arriving_eq. apply Forall_fmap. eapply Forall_impl; [apply missing_known|]. intros b. apply Fork.known_set_work.
Qed.

Lemma arriving_txs : arriving ≫= transactions_ = missing ≫= transactions_.
Proof. rewrite arriving_eq. induction missing as [|b l IH]; [done|]. cbn. by rewrite <- IH. Qed.

(** The blocks fit: the work they arrive without is recomputed as it was. *)
Lemma add_arriving : blocks_ (Bc.add_all arriving a) = blocks_ c.
Proof.
  rewrite Bc.add_all_blocks, blocks_split, arriving_eq. f_equal. apply with_works_strip.
  destruct Hc as (_ & (lc & Ec & Wc) & _). destruct (Cs.inv_chain _ _ Hs) as (_ & (la & Ea & _) & _).
  pose proof blocks_split as Es. rewrite Ec, Ea in Es. simpl in Es. injection Es as Es. rewrite Es in Wc.
  apply Bc.works_ok_app in Wc as [_ Wm]. unfold Bc.tip_work. rewrite Ea, last_cons.
  by destruct (last la).
Qed.

Lemma missing_links tip : Bc.latest a = Ok tip → Bc.links_ok tip missing = true.
Proof.
  intros Ht. destruct Hc as (_ & (lc & Ec & _) & Hv). unfold Bc.is_valid in Hv. rewrite Ec in Hv.
  destruct (Cs.inv_chain _ _ Hs) as (_ & (la & Ea & _) & _). pose proof blocks_split as Es.
  rewrite Ec, Ea in Es. simpl in Es. injection Es as Es. rewrite Es, Bc.links_ok_app in Hv.
  apply andb_true_iff in Hv as [_ Hv]. apply of_option_Ok in Ht. rewrite Ea, last_cons in Ht.
  destruct (last la); by injection Ht as <-.
Qed.

Lemma missing_branch tip :
  Bc.latest a = Ok tip →
  ∃ first rest, arriving = first :: rest ∧ prev_hash_ first = hash_ tip ∧
    Cm.branch_linked first rest = true ∧ Bc.has_block (hash_ first) a = false.
Proof.
  intros Ht. pose proof (missing_links tip Ht) as Hl. pose proof arriving_eq as Ea.
  destruct missing as [|b l] eqn:Em.
  { apply (f_equal length) in Em. unfold missing in Em. rewrite length_drop in Em. unfold Bc.size in *.
    simpl in Em. lia. }
  exists (Blk.set_cumulative_work 0 b), (Blk.set_cumulative_work 0 <$> l).
  apply links_branch in Hl as [Hp Hb]. split_and!; [done|done|by rewrite branch_linked_strip|].
  destruct Hc as ((Hn & _) & _). pose proof blocks_split as Es. rewrite Em in Es.
  rewrite Es, fmap_app, NoDup_app in Hn. destruct Hn as (_ & Hn & _).
  apply not_true_iff_false. rewrite Bc.has_block_spec by apply (Cs.inv_chain _ _ Hs).
  intros Hin. apply (Hn _ Hin). left.
Qed.

(** ** The exchange *)

Lemma locator_asks tip :
  Bc.latest a = Ok tip →
  ∃ l, Cm.locator s = Ok (hash_ tip :: l) ∧ Forall hash_wf (hash_ tip :: l) ∧
    (length (hash_ tip :: l) <= 11 + Nat.log2 n)%nat.
Proof.
  intros Ht. destruct (Cp.tip_position a tip Ht) as [Hk Hn].
  unfold Cm.locator. rewrite Loc.build_locator_eq by done.
  destruct (Loc.sampled_bounds n Hn) as (Hhead & _ & _ & Hlen).
  destruct (Loc.sampled n) as [|i heights]; [done|]. injection Hhead as ->.
  assert ((hash_ <$> blocks_ a) !! (n - 1)%nat = Some (hash_ tip)) as E by by rewrite list_lookup_fmap, Hk.
  cbn [omap list_omap]. rewrite E.
  eexists. split; [done|]. split.
  - assert (∀ h, h ∈ hash_ <$> blocks_ a → hash_wf h) as Hw.
    { intros h (b & -> & Hb)%list_elem_of_fmap. pose proof (Cs.inv_known _ _ Hs) as Ka.
      rewrite Forall_forall in Ka. destruct (Ka b Hb) as (_ & _ & ->). apply Blk.block_hash_wf. }
    constructor; [apply Hw, list_elem_of_fmap_2; by eapply list_elem_of_lookup_2|].
    apply Forall_forall. intros h (i & _ & Hi)%list_elem_of_omap. apply Hw. by eapply list_elem_of_lookup_2.
  - cbn [length] in *. etransitivity; [|exact Hlen]. apply le_n_S.
    clear. induction heights as [|i heights IH]; [done|]. cbn [omap list_omap length].
    case_match; cbn [length]; lia.
Qed.

Lemma answer_missing sb tip l limit :
  Bc.latest a = Ok tip → blockchain_ sb = c →
  Cm.blocks_after_locator (hash_ tip :: l) limit sb = take limit missing.
Proof.
  intros Ht Eb. destruct (Cp.tip_position a tip Ht) as [Hk Hn].
  unfold Cm.blocks_after_locator. cbn [Loc.find_locator_match]. rewrite Eb, Bc.find_height_eq.
  assert (height_by_hash_ c !! hash_ tip = Some (n - 1)%nat) as ->.
  { destruct Hc as ((_ & Hi) & _). apply Hi. rewrite blocks_split, fmap_app, lookup_app_l.
    - by rewrite list_lookup_fmap, Hk.
    - rewrite length_fmap. unfold Bc.size in *. lia. }
  replace (n - 1 + 1)%nat with n by lia. rewrite (proj2 (Nat.leb_gt _ _) Hlt).
  unfold Cm.blocks_range. destruct (Nat.le_gt_cases (Bc.size c) (n + limit)) as [Hle|Hgt].
  - rewrite Nat.min_l by done. unfold missing. rewrite !take_ge; [done|..]; rewrite length_drop;
      unfold Bc.size in *; lia.
  - rewrite Nat.min_r by lia. by replace (n + limit - n)%nat with limit by lia.
Qed.

(** ** The timestamp and difficulty rules *)

Context (now : Z).

(** The missing blocks satisfy the rules of [s], at their place in the longer chain. *)
Definition valid_above : Prop :=
  ∀ i b, (n <= i)%nat → blocks_ c !! i = Some b →
    Pow.timestamp_is_valid b i now (params_ s) (Cm.block_at_callback c) = Ok true ∧
    Pow.next_difficulty i (params_ s) (Cm.block_at_callback c) = Ok (difficulty_ b).

Hypothesis Hvalid : valid_above.

Lemma arriving_lookup i : arriving !! i = Blk.set_cumulative_work 0 <$> (blocks_ c !! (n + i)%nat).
Proof. rewrite arriving_eq, list_lookup_fmap. unfold missing. by rewrite lookup_drop. Qed.

Lemma fork_rules tip i :
  rules (Cm.fork_block_at n (mkForkChain arriving tip) a i) = rules (Cm.block_at_callback c i).
Proof.
  unfold Cm.fork_block_at, Cm.block_at_callback, Bc.at_. cbn [fork_blocks].
  destruct (Nat.ltb_spec i n) as [Hi|Hi].
  - rewrite blocks_split, lookup_app_l by done. done.
  - rewrite arriving_lookup. replace (n + (i - n))%nat with i by lia. by destruct (blocks_ c !! i).
Qed.

Lemma prefix_all tip k rest :
  drop k arriving = rest →
  Cm.prefix_loop n k (mkForkChain arriving tip) now (params_ s) a rest = Ok (k + length rest)%nat.
Proof.
  revert k. induction rest as [|b rest IH]; intros k Hd; cbn [Cm.prefix_loop length].
  { by rewrite Nat.add_0_r. }
  assert (arriving !! k = Some b) as Hk.
  { rewrite <- (Nat.add_0_r k), <- lookup_drop, Hd. done. }
  rewrite arriving_lookup in Hk. apply fmap_Some in Hk as (b0 & Hb0 & ->).
  destruct (Hvalid (n + k)%nat b0 ltac:(lia) Hb0) as [Ht Hd'].
  rewrite (timestamp_rules _ _ _ _ _ (Cm.block_at_callback c)) by (intros; apply fork_rules).
  rewrite (difficulty_rules _ _ _ (Cm.block_at_callback c)) by (intros; apply fork_rules).
  change (Pow.timestamp_is_valid (Blk.set_cumulative_work 0 b0)) with (Pow.timestamp_is_valid b0).
  rewrite Ht, Hd'. cbn [mbind result_bind negb difficulty_ Blk.set_cumulative_work]. rewrite Z.eqb_refl.
  cbn [negb]. rewrite IH; [f_equal; lia|]. by rewrite <- Nat.add_1_r, <- drop_drop, Hd.
Qed.

(** ** Adopting *)

Hypothesis Hauth : Forall Cl.authorized (missing ≫= transactions_).
Hypothesis Hheavier : Bc.tip_work (blocks_ a) < Bc.tip_work (blocks_ c).

(** The store takes whatever replacement it is given. *)
Definition store_replaces : Prop :=
  ∀ st, storage_ s = Some st → ∀ from bs, is_ok (bs_replace_blocks_from from bs st).1 = true.

Hypothesis Hstore : store_replaces.

Lemma collect_authorized blocks hs acc :
  Forall Cl.authorized (blocks ≫= transactions_) →
  ∃ hs', Cm.collect_branch blocks (hs, acc) = Ok (Some (hs', acc ++ (blocks ≫= transactions_))).
Proof.
  revert hs acc. induction blocks as [|b blocks IH]; intros hs acc Ha; cbn [Cm.collect_branch].
  { exists hs. simpl. by rewrite app_nil_r. }
  rewrite bind_cons in *. apply Forall_app in Ha as [Hb Ha].
  destruct (Cp.collect_txs_authorized (transactions_ b) hs acc Hb) as [hs1 ->]. cbn [mbind result_bind].
  destruct (IH hs1 (acc ++ transactions_ b) Ha) as [hs2 E]. exists hs2. rewrite E. by rewrite app_assoc.
Qed.

Lemma extend_chain tip :
  Bc.latest a = Ok tip →
  ∃ s', Cm.try_reorg (mkForkChain arriving tip) s = (Ok (Some (hash_ <$> arriving)), s') ∧
    blocks_ (blockchain_ s') = blocks_ c ∧
    ledger_ s' = Ldg.apply_all (missing ≫= transactions_) (ledger_ s) ∧
    mempool_ s' = mempool_ s ∧ params_ s' = params_ s.
Proof.
  intros Ht. pose proof (Cs.inv_chain _ _ Hs) as Ha. destruct (Cp.tip_position a tip Ht) as [Hk Hn].
  assert (Bc.reorganize_to (mkForkChain arriving tip) a = (Some [], Bc.add_all arriving a)) as Er
    by by apply Cp.reorganize_onto_tip.
  assert (Fork.is_fork_heavier a (mkForkChain arriving tip) = Ok true) as Eh.
  { destruct (Fork.is_fork_heavier a (mkForkChain arriving tip)) as [v|e] eqn:Ev.
    - rewrite (Cs.heavier_spec a (mkForkChain arriving tip) _ v Ha Hk Ev), Er. cbn [snd].
      rewrite add_arriving. by rewrite (proj2 (Z.ltb_lt _ _) Hheavier).
    - unfold Fork.is_fork_heavier in Ev. by rewrite Ht in Ev. }
  destruct (collect_authorized arriving ∅ []) as [hs Ec]; [by rewrite arriving_txs|].
  rewrite arriving_txs in Ec. cbn [app] in Ec.
  unfold Cm.try_reorg, mbind, ST_bind, st_get, st_lift. rewrite Eh. cbn [negb fork_blocks].
  rewrite Ec, Er.
  unfold Cm.bump_tip_version, st_modify, Cm.replay, mbind, ST_bind.
  cbn [mbind list_bind reverse rev_append Cm.for_each]. unfold mret, ST_ret.
  replace (Cm.discarded_hashes []) with (∅ : gset HashBytes) by done.
  rewrite Cp.redo_all. unfold Cm.on_storage. cbn [storage_ Cm.set_ledger Cm.set_blockchain].
  pose proof Hstore as Hst. unfold store_replaces in Hst. destruct (storage_ s) as [st|].
  - specialize (Hst st eq_refl (Bc.size (Bc.add_all arriving a) - length (hash_ <$> arriving))%nat
      (drop (Bc.size (Bc.add_all arriving a) - length (hash_ <$> arriving)) (blocks_ (Bc.add_all arriving a)))).
    destruct (bs_replace_blocks_from _ _ st) as [[[]|e] st']; [|done].
    eexists. split_and!; [done|cbn; apply add_arriving|done..].
  - eexists. split_and!; [done|cbn; apply add_arriving|done..].
Qed.

Lemma adopt_missing :
  ∃ s', Cm.adopt_branch arriving now s = (Ok true, s') ∧
    blocks_ (blockchain_ s') = blocks_ c ∧
    ledger_ s' = Ldg.apply_all (missing ≫= transactions_) (ledger_ s) ∧ mempool_ s' = mempool_ s.
Proof.
  destruct tip_exists as (tip & Ht & _ & Hn). destruct (Cp.tip_position a tip Ht) as [Hk _].
  pose proof (Cs.inv_chain _ _ Hs) as Ha. pose proof (Cp.tip_height a tip Ha Ht) as Hth.
  destruct (extend_chain tip Ht) as (s' & Ere & Eb & El & Em & _).
  pose proof (prefix_all tip 0 arriving eq_refl) as Hp. cbn [Nat.add] in Hp.
  destruct (missing_branch tip Ht) as (first & rest & Ef & Hprev & Hlink & Hnew).
  exists s'. split; [|done]. unfold Cm.adopt_branch, mbind, ST_bind, st_get, st_lift.
  rewrite Ef in *. cbn [Cm.skip_known]. rewrite Hnew, Hprev, Hth, Hlink. cbn [negb].
  unfold Bc.at_. rewrite Hk. cbn [of_option].
  unfold Cm.valid_prefix_length. cbn [common_ancestor]. rewrite Hth.
  replace (n - 1 + 1)%nat with n by lia. cbn [fork_blocks]. rewrite Hp. cbn [length Nat.eqb].
  rewrite (take_ge (first :: rest)) by done. rewrite Ere. unfold mret, ST_ret.
  by rewrite bool_decide_true by by eexists.
Qed.
End longer.
End sync.
End Cy.
