(* ===== verification/Restart.v ===== *)
(** * Restarting a node (the constructor of src/app/Orchestrator.cpp)

    The chain is rebuilt from the store: every block above genesis is loaded and applied to
    an empty ledger. The store is the interface [BlockStore]. *)

From S2P Require Import Prelude Codec Crypto Demo Transaction Block Ledger Mempool OrphanPool.
From S2P Require Import ProofOfWork Blockchain ForkResolution BlockLocator Storage.
From S2P Require Import ChainManager ChainLedger ChainSafety ChainProgress ChainSync.

Definition kMaxPending : nat := 1000.
Definition kMaxTxsPerBlock : nat := 50.

Module Rs.

Section restart.
Context `{Crypto, Buckets, BlockStore}.

(** [storage_->m], where [storage_] has a value. *)
Definition from_store {A} (m : ST store A) : ST ChainManager A := λ s,
  match storage_ s with
  | None => (Throw UndefinedBehaviour, s)
  | Some st => let '(r, st') := m st in (r, Cm.set_storage (Some st') s)
  end.

(** [for (size_t i = 1; i < size; i++)], with [turns] to go. *)
Fixpoint restore_loop (turns i : nat) : ST ChainManager unit :=
  match turns with
  | O => mret tt
  | S turns =>
      block ← from_store (bs_load_block i);
      match block with
      | None => st_lift (Throw RuntimeError)
      | Some block =>
          ok ← Cm.restore_block block;
          if negb ok then st_lift (Throw RuntimeError) else restore_loop turns (S i)
      end
  end.

Definition restore : ST ChainManager unit :=
  s ← st_get;
  match storage_ s with
  | None => mret tt
  | Some _ => size ← from_store bs_block_count; restore_loop (Z.to_nat size - 1) 1
  end.

(** The constructor, as far as the chain manager goes. *)
Definition construct (params : ConsensusParams) (st : option store) : result unit * ChainManager :=
  (Cm.init;; restore) (Cm.make kMaxPending params st).
End restart.

Section rebuild.
Context `{CryptoLaws} `{Buckets} `{!BlockStore} `{!BlockStoreLaws} (U : bytes → Prop) {CF : CollisionFree U}.

(** The work of the next block of a chain. *)
Lemma next_work c i b :
  Bc.inv c → (0 < i)%nat → blocks_ c !! i = Some b →
  cumulative_work_ b = u64 (Blk.block_work b + Bc.tip_work (take i (blocks_ c))).
Proof.
  intros (_ & (l & E & Hw) & _) Hi Hb. rewrite E in *. destruct i as [|i]; [lia|]. simpl in Hb.
  rewrite <- (take_drop_middle l i b Hb), Bc.works_ok_app in Hw. destruct Hw as [_ [Hw _]].
  rewrite Hw. cbn [take]. unfold Bc.tip_work. rewrite last_cons. by destruct (last (take i l)).
Qed.

(** Adding it as it arrives from the store. *)
Lemma add_next c c0 i b :
  Bc.inv c → Fork.known U b → (0 < i)%nat → blocks_ c !! i = Some b → blocks_ c0 = take i (blocks_ c) →
  blocks_ (Bc.add_block (Blk.on_arrival b) c0) = take (S i) (blocks_ c).
Proof.
  intros Hc Kb Hi Hb E0. rewrite (take_S_r _ _ _ Hb). unfold Bc.add_block. cbn [blocks_]. rewrite E0. f_equal. f_equal.
  rewrite (Cy.arrival_known U b Kb). change (Blk.block_work (Blk.set_cumulative_work 0 b)) with (Blk.block_work b).
  rewrite <- (next_work c i b Hc Hi Hb). by destruct b.
Qed.

Lemma restore_one b s l' tip :
  Cs.inv U s → Fork.known U b → Bc.latest (blockchain_ s) = Ok tip → prev_hash_ b = hash_ tip →
  Forall Cl.authorized (transactions_ b) → Cl.accepted_run (transactions_ b) (ledger_ s) l' →
  ∃ s', Cm.restore_block (Blk.on_arrival b) s = (Ok true, s') ∧ Cs.inv U s' ∧
    blockchain_ s' = Bc.add_block (Blk.on_arrival b) (blockchain_ s) ∧ ledger_ s' = l' ∧
    storage_ s' = storage_ s ∧ mempool_ s' = mempool_ s ∧ params_ s' = params_ s.
Proof.
  intros Hs Kb Ht Hp Hau R.
  assert (Fork.known U (Blk.on_arrival b)) as Kb' by by rewrite (Cy.arrival_known U b Kb).
  pose proof (Cs.safe_inv _ _ _ _ (Cs.safe_restore U _ s tip Hs Kb' Ht Hp)) as Hs'. revert Hs'.
  unfold Cm.restore_block, mbind, ST_bind.
  rewrite Cl.apply_block_eq. change (transactions_ (Blk.on_arrival b)) with (transactions_ b).
  rewrite (Cl.apply_loop_complete _ [] _ _ Hau R). cbn [negb]. by eexists.
Qed.

Lemma restore_keeps_store b s : storage_ (Cm.restore_block b s).2 = storage_ s.
Proof.
  unfold Cm.restore_block, mbind, ST_bind. rewrite Cl.apply_block_eq.
  by destruct (Cm.apply_loop _ _ _) as [[[]|] ?].
Qed.

(** The next block of a chain hangs off the blocks before it. *)
Lemma next_linked c c0 i b :
  Bc.inv c → (0 < i)%nat → blocks_ c !! i = Some b → blocks_ c0 = take i (blocks_ c) →
  ∃ tip, Bc.latest c0 = Ok tip ∧ prev_hash_ b = hash_ tip.
Proof.
  intros Hc Hi Hb E0. destruct i as [|i]; [lia|].
  destruct (Fork.chain_prev c i b Hc Hb) as (tip & Ht & Hp). exists tip. split; [|done].
  unfold Bc.latest. by rewrite E0, <- Nat.add_1_r, (Bc.last_take _ _ _ Ht).
Qed.

Lemma accepted_run_split txs txs' l l2 :
  Cl.accepted_run (txs ++ txs') l l2 → ∃ l1, Cl.accepted_run txs l l1 ∧ Cl.accepted_run txs' l1 l2.
Proof.
  revert l. induction txs as [|tx txs IH]; intros l R; simpl in R; [exists l; by split; [constructor|]|].
  inversion R as [|? ? ? l1 ? E R']; subst. destruct (IH l1 R') as (l3 & R1 & R2).
  exists l3. split; [by econstructor|done].
Qed.

Lemma load_next c st i b s :
  mirrors st (blocks_ c) → sz (blocks_ c) < 2 ^ 63 → blocks_ c !! i = Some b → Fork.known U b → storage_ s = Some st →
  from_store (bs_load_block i) s = (Ok (Some (Blk.on_arrival b)), s).
Proof.
  intros Hm Hsz Hib Kb Hst. unfold from_store. rewrite Hst, (bsl_load st _ i b Hm Hsz Hib) by apply Kb. f_equal.
  destruct s; simpl in *. by subst.
Qed.

(** The turns of the loop that restore [rest], the next blocks of the chain in the store. *)
Lemma restore_loop_spec c st rest tail turns i s l :
  Cs.inv U s → Bc.inv c → Forall (Fork.known U) (blocks_ c) → mirrors st (blocks_ c) → sz (blocks_ c) < 2 ^ 63 →
  (0 < i)%nat → drop i (blocks_ c) = rest ++ tail → blocks_ (blockchain_ s) = take i (blocks_ c) →
  storage_ s = Some st → Forall Cl.authorized (rest ≫= transactions_) →
  Cl.accepted_run (rest ≫= transactions_) (ledger_ s) l →
  ∃ s', restore_loop (length rest + turns) i s = restore_loop turns (i + length rest) s' ∧ Cs.inv U s' ∧
    blocks_ (blockchain_ s') = take (i + length rest) (blocks_ c) ∧
    ledger_ s' = l ∧ storage_ s' = Some st ∧ params_ s' = params_ s.
Proof.
  intros Hs0 Hc Kc Hm Hsz. revert i s Hs0. induction rest as [|b rest IH]; intros i s Hs0 Hi Hd Hb Hst Hau R.
  { inversion R; subst. exists s. rewrite Nat.add_0_r. by split_and!. }
  rewrite bind_cons in Hau, R. apply Forall_app in Hau as [Hau1 Hau].
  assert (blocks_ c !! i = Some b) as Hib.
  { rewrite <- (Nat.add_0_r i), <- lookup_drop, Hd. done. }
  assert (Fork.known U b) as Kb by (rewrite Forall_lookup in Kc; by eapply Kc).
  apply accepted_run_split in R as (l1 & R1 & R2).
  destruct (next_linked c _ i b Hc Hi Hib Hb) as (tip & Ht & Hp).
  destruct (restore_one b s l1 tip Hs0 Kb Ht Hp Hau1 R1) as (s1 & Er & Hs1 & Ec & El & Et & Em & Ep).
  destruct (IH (S i) s1 Hs1) as (s' & E' & Hs' & Hb' & Hl' & Hst' & Hp'); [lia| | |by rewrite Et|done|by rewrite El|].
  { by rewrite <- Nat.add_1_r, <- drop_drop, Hd. }
  { rewrite Ec. by apply add_next. }
  exists s'. cbn [length]. rewrite <- Nat.add_succ_comm. split_and!; [|done..|congruence]. cbn [Nat.add restore_loop].
  rewrite (ST_bind_eq _ _ _ _ _ (load_next c st i b s Hm Hsz Hib Kb Hst)), (ST_bind_eq _ _ _ _ _ Er). done.
Qed.

(** The constructor on the store of a chain is its loop over the rows above genesis. *)
Lemma construct_loop c st params :
  Bc.inv c → mirrors st (blocks_ c) → sz (blocks_ c) < 2 ^ 63 →
  construct params (Some st) = restore_loop (Bc.size c - 1) 1 (Cm.make kMaxPending params (Some st)).
Proof.
  intros Hc Hm Hsz. pose proof Hc as (_ & (rest & E & _) & _). set (s0 := Cm.make kMaxPending params (Some st)).
  assert (0 < sz (blocks_ c)) as Hpos by (rewrite E; unfold sz; simpl; lia).
  assert (from_store bs_block_count s0 = (Ok (sz (blocks_ c)), s0)) as Ecount.
  { unfold from_store. cbn [storage_ s0 Cm.make]. by rewrite (bsl_count st _ Hm Hsz). }
  unfold construct. fold s0. rewrite (ST_bind_eq _ _ s0 tt s0).
  - unfold restore. rewrite (ST_bind_eq _ _ s0 s0 s0) by done. cbn [storage_ s0 Cm.make].
    rewrite (ST_bind_eq _ _ _ _ _ Ecount). unfold Bc.size, sz. by rewrite Nat2Z.id.
  - unfold Cm.init. rewrite (ST_bind_eq _ _ s0 s0 s0) by done.
    rewrite (ST_bind_eq _ _ s0 Bc.genesis s0) by done. unfold Cm.on_storage. cbn [storage_ s0 Cm.make].
    rewrite (ST_bind_eq _ _ _ _ _ (bsl_count st _ Hm Hsz)).
    destruct (Z.eqb_spec (sz (blocks_ c)) 0); [lia|]. done.
Qed.

(** Constructing a node on the store of a chain whose transactions apply. *)
Lemma construct_spec c st params l :
  Bc.inv c → Forall (Fork.known U) (blocks_ c) → mirrors st (blocks_ c) → sz (blocks_ c) < 2 ^ 63 →
  Forall Cl.authorized (blocks_ c ≫= transactions_) →
  Cl.accepted_run (blocks_ c ≫= transactions_) Ldg.empty l →
  ∃ s', construct params (Some st) = (Ok tt, s') ∧ Cs.inv U s' ∧
    blocks_ (blockchain_ s') = blocks_ c ∧ ledger_ s' = l ∧ storage_ s' = Some st ∧ params_ s' = params.
Proof.
  intros Hc Kc Hm Hsz Hau R. pose proof Hc as (_ & (rest & E & _) & _).
  set (s0 := Cm.make kMaxPending params (Some st)).
  pose proof (Cs.manager_make_inv U kMaxPending params (Some st)) as Hs0.
  rewrite E in Hau, R. rewrite (construct_loop c) by done.
  destruct (restore_loop_spec c st rest [] 0 1 s0 l) as (s' & E' & Hs' & Hb & Hl & Hst & Hp);
    try done; try (rewrite E; by rewrite ?app_nil_r); [lia|].
  exists s'. fold s0. rewrite Nat.add_0_r in E'. unfold Bc.size. rewrite E. cbn [length]. rewrite Nat.sub_succ, Nat.sub_0_r.
  split_and!; [by rewrite E'|done| |done..]. rewrite Hb, E. by apply take_ge.
Qed.

(** When the last block has a transaction that does not apply, the constructor throws. *)
Lemma construct_refuses c st params bs b l :
  Bc.inv c → Forall (Fork.known U) (blocks_ c) → mirrors st (blocks_ c) → sz (blocks_ c) < 2 ^ 63 →
  blocks_ c = bs ++ [b] → (0 < length bs)%nat → Forall Cl.authorized (bs ≫= transactions_) →
  Cl.accepted_run (bs ≫= transactions_) Ldg.empty l → (Cm.apply_loop [] (transactions_ b) l).1 = Ok false →
  (construct params (Some st)).1 = Throw RuntimeError.
Proof.
  intros Hc Kc Hm Hsz Hbs Hpos Hau R Hno. pose proof Hc as (_ & (rest & E & _) & _).
  destruct bs as [|g bs]; [simpl in Hpos; lia|]. assert (g = Bc.genesis) as -> by (rewrite E in Hbs; by injection Hbs).
  pose proof (Cs.manager_make_inv U kMaxPending params (Some st)) as Hs0.
  rewrite (construct_loop c) by done.
  destruct (restore_loop_spec c st bs [b] 1 1 (Cm.make kMaxPending params (Some st)) l)
    as (s' & E' & Hs' & Hb & Hl & Hst & Hp); try done; try (by rewrite Hbs); [lia|].
  assert (Bc.size c - 1 = length bs + 1)%nat as -> by (unfold Bc.size; rewrite Hbs, length_app; simpl; lia).
  assert (blocks_ c !! (1 + length bs)%nat = Some b) as Hib by (rewrite Hbs; by apply list_lookup_middle).
  assert (Fork.known U b) as Kb by (rewrite Forall_lookup in Kc; by eapply Kc).
  rewrite E'. cbn [restore_loop]. rewrite (ST_bind_eq _ _ _ _ _ (load_next c st _ b s' Hm Hsz Hib Kb Hst)).
  unfold Cm.restore_block, mbind, ST_bind. rewrite Cl.apply_block_eq.
  change (transactions_ (Blk.on_arrival b)) with (transactions_ b). rewrite Hl.
  destruct (Cm.apply_loop [] (transactions_ b) l) as [r l']. simpl in Hno. by subst r.
Qed.

(** ** The invariant, from the constructor on *)

(** A store that holds nothing yet, or a chain. *)
Definition holds_chain (st : store) : Prop :=
  mirrors st [] ∨
  ∃ c, Bc.inv c ∧ Forall (Fork.known U) (blocks_ c) ∧ mirrors st (blocks_ c) ∧ sz (blocks_ c) < 2 ^ 63.

(** Whatever the ledger says to the blocks, the part that was restored is a chain. *)
Lemma restore_loop_inv c st turns i s :
  Cs.inv U s → Bc.inv c → Forall (Fork.known U) (blocks_ c) → mirrors st (blocks_ c) → sz (blocks_ c) < 2 ^ 63 →
  (0 < i)%nat → (i + turns = Bc.size c)%nat → blocks_ (blockchain_ s) = take i (blocks_ c) →
  storage_ s = Some st → Cs.inv U (restore_loop turns i s).2.
Proof.
  intros Hs0 Hc Kc Hm Hsz. revert i s Hs0. induction turns as [|turns IH]; intros i s Hs0 Hi Hd Hb Hst; [done|].
  destruct (lookup_lt_is_Some_2 (blocks_ c) i) as [b Hib]; [unfold Bc.size in Hd; lia|].
  assert (Fork.known U b) as Kb by (rewrite Forall_lookup in Kc; by eapply Kc).
  assert (Fork.known U (Blk.on_arrival b)) as Kb' by by rewrite (Cy.arrival_known U b Kb).
  destruct (next_linked c _ i b Hc Hi Hib Hb) as (tip & Ht & Hp). cbn [restore_loop].
  rewrite (ST_bind_eq _ _ _ _ _ (load_next c st i b s Hm Hsz Hib Kb Hst)). pose proof (Cs.safe_restore U _ s tip Hs0 Kb' Ht Hp) as Hr.
  pose proof (restore_keeps_store (Blk.on_arrival b) s) as Ek.
  unfold Cs.safe in Hr. unfold mbind, ST_bind.
  destruct (Cm.restore_block (Blk.on_arrival b) s) as [[[]|e] s1]; [|by destruct Hr|done].
  cbn [snd] in Ek. destruct Hr as [Hs1 [Ec _]]. apply IH; [done|lia|lia| |by rewrite Ek].
  rewrite Ec. by apply add_next.
Qed.

(** The constructor on a store that holds a chain already. *)
Lemma restore_inv c st s :
  Cs.inv U s → Bc.inv c → Forall (Fork.known U) (blocks_ c) → mirrors st (blocks_ c) → sz (blocks_ c) < 2 ^ 63 →
  blockchain_ s = Bc.make → storage_ s = Some st → Cs.inv U (restore s).2.
Proof.
  intros Hs Hc Kc Hm Hsz Hb Hst. pose proof Hc as (_ & (rest & E & _) & _).
  unfold restore. rewrite (ST_bind_eq _ _ s s s) by done. rewrite Hst.
  assert (from_store bs_block_count s = (Ok (sz (blocks_ c)), s)) as Ecount.
  { unfold from_store. rewrite Hst, (bsl_count st _ Hm Hsz). by destruct s; simpl in *; subst. }
  rewrite (ST_bind_eq _ _ _ _ _ Ecount).
  apply (restore_loop_inv c st); try done; [lia| |by rewrite Hb, E].
  unfold Bc.size, sz. rewrite E, Nat2Z.id. simpl. lia.
Qed.

Lemma construct_inv params st : from_option holds_chain True st → Cs.inv U (construct params st).2.
Proof.
  intros Hst. pose proof (Cs.manager_make_inv U kMaxPending params st) as Hs0.
  unfold construct. set (s0 := Cm.make kMaxPending params st) in *. destruct st as [st|]; [|done].
  assert (Cm.init s0 = Cm.on_storage (count ← bs_block_count;
    if count =? 0 then bs_save_block Bc.genesis 0 else mret tt) s0) as Einit by done.
  unfold mbind at 1, ST_bind at 1. rewrite Einit. unfold Cm.on_storage. cbn [storage_ s0 Cm.make].
  destruct Hst as [Hm|(c & Hc & Kc & Hm & Hsz)]; unfold mbind at 1, ST_bind at 1.
  - rewrite (bsl_count st [] Hm) by done. change (sz [] =? 0) with true. cbv iota.
    destruct (bs_save_block Bc.genesis 0 st) as [[[]|e] st'] eqn:Es; [|by apply Cs.inv_set_storage].
    apply (bsl_save st [] Bc.genesis st' Hm) in Es; [|by apply NoDup_singleton|done].
    apply (restore_inv Bc.make st'); [by apply Cs.inv_set_storage|..|done|done|done|done]; try apply Hs0.
  - rewrite (bsl_count st _ Hm Hsz). destruct (Z.eqb_spec (sz (blocks_ c)) 0) as [Hz|_].
    { destruct Hc as (_ & (rest & E & _) & _). rewrite E in Hz. unfold sz in Hz. simpl in Hz. lia. }
    by apply (restore_inv c st).
Qed.

(** C3. The state of the chain manager is consistent. Take a manager as the node's constructor
    makes it, without a store, on an empty store, or on a store that holds a chain (the
    constructor restores the rows without looking at their links; see
    [restart_takes_unlinked_row]). In every state it reaches from there by submitting blocks
    and transactions, adopting downloaded branches and setting balances (calls that throw
    included), the chain is linked, correctly indexed by hash and carries its accumulated
    work, the mempool is ordered, bounded and signed, the orphan pool is consistent and
    bounded, and every ledger entry is a 64-bit value. *)
Theorem chain_manager_invariant params st s :
  from_option holds_chain True st → rtc (Cs.step U) (construct params st).2 s → Cs.inv U s.
Proof.
  intros Hst Hr. pose proof (construct_inv params st Hst) as Hs. induction Hr as [|s1 s2 s3 Hstep _ IH]; [done|].
  by eapply IH, Cs.step_inv.
Qed.

(** A restarted node is where it was. If the store of a consistent chain manager holds
    its chain and the chain's transactions, all authorized, apply one after the other to an
    empty ledger, then constructing a node on that store succeeds, and the new chain is the
    old one block for block, accumulated work included, the new ledger is the outcome of
    those transactions, and the store is unchanged. *)
Theorem restart_rebuilds_chain s st params l :
  Cs.inv U s → mirrors st (blocks_ (blockchain_ s)) → sz (blocks_ (blockchain_ s)) < 2 ^ 63 →
  Forall Cl.authorized (blocks_ (blockchain_ s) ≫= transactions_) →
  Cl.accepted_run (blocks_ (blockchain_ s) ≫= transactions_) Ldg.empty l →
  ∃ s', construct params (Some st) = (Ok tt, s') ∧
    blocks_ (blockchain_ s') = blocks_ (blockchain_ s) ∧ ledger_ s' = l ∧ storage_ s' = Some st.
Proof.
  intros Hs Hm Hsz Hau R.
  destruct (construct_spec (blockchain_ s) st params l (Cs.inv_chain _ _ Hs) (Cs.inv_known _ _ Hs) Hm Hsz Hau R)
    as (s' & E & _ & Hb & Hl & Hst & _). by exists s'.
Qed.
End rebuild.

(** ** Witnesses *)
Section witnesses.
#[local] Existing Instance demo_crypto.
#[local] Existing Instance demo_crypto_laws.
#[local] Existing Instance demo_sqlite.
#[local] Existing Instance demo_sqlite_laws.
#[local] Existing Instance Op.demo_buckets.
#[local] Existing Instance Cs.universe_cf.

Definition store_after_a : store := match storage_ Cs.after_a with Some st => st | None => Cs.demo_store end.

Lemma after_a_mirrors : mirrors store_after_a (blocks_ (blockchain_ Cs.after_a)).
Proof.
  pose proof (Cs.safe_submit_block Cs.universe Cs.block_a 1000 Cs.fresh Cs.fresh_inv Cs.block_a_known) as Hsafe.
  unfold Cs.safe in Hsafe.
  assert ((Cm.submit_block Cs.block_a 1000 Cs.fresh).1 =
    Ok (mkBlockOutcome Accepted [hash_ Cs.block_a] None)) as Eo by by vm_compute.
  unfold store_after_a, Cs.after_a. destruct (Cm.submit_block Cs.block_a 1000 Cs.fresh) as [r s'].
  cbn [fst snd] in *. subst r. destruct Hsafe as [_ [_ Ha]].
  pose proof (Cs.accepted_mirrored Cs.universe Cs.block_a 1000 Cs.fresh s' Cs.fresh_inv Cs.block_a_known Ha
    Cs.fresh_mirrored ltac:(by vm_compute)) as Hm.
  pose proof (Cs.ac_store _ _ _ _ Ha) as Hst. unfold Cs.mirrored in Hm. by destruct (storage_ s').
Qed.

Lemma chain_manager_invariant_witness :
  Cs.inv Cs.universe (Cm.submit_block Cs.block_b 1001 (construct kTestParams (Some store_after_a)).2).2.
Proof.
  apply (chain_manager_invariant Cs.universe kTestParams (Some store_after_a)).
  - right. exists (blockchain_ Cs.after_a). split_and!; [apply Cs.after_a_inv..|apply after_a_mirrors|by vm_compute].
  - apply rtc_once, Cs.step_block, Cs.block_b_known.
Defined.

Definition ledger_a : Ledger := Ldg.apply_all [demo_coinbase "alice" 50] Ldg.empty.

Lemma restart_rebuilds_chain_witness :
  ∃ s', construct kTestParams (Some store_after_a) = (Ok tt, s') ∧
    blocks_ (blockchain_ s') = blocks_ (blockchain_ Cs.after_a) ∧ ledger_ s' = ledger_a ∧
    storage_ s' = Some store_after_a.
Proof.
  apply (restart_rebuilds_chain Cs.universe Cs.after_a store_after_a kTestParams ledger_a).
  - exact Cs.after_a_inv.
  - exact after_a_mirrors.
  - by vm_compute.
  - assert (blocks_ (blockchain_ Cs.after_a) ≫= transactions_ = [demo_coinbase "alice" 50]) as -> by by vm_compute.
    constructor; [by left|constructor].
  - assert (blocks_ (blockchain_ Cs.after_a) ≫= transactions_ = [demo_coinbase "alice" 50]) as -> by by vm_compute.
    eapply Cl.run_cons; [|constructor]. apply surjective_pairing.
Defined.

(** A block on genesis that spends what nobody has. *)
Definition unpaid_block : Block :=
  Eval vm_compute in Cs.mined (hash_ Bc.genesis) 1000 [demo_pay "alice" "bob" 10 1 0].

(** A node may refuse its own store. [adopt_branch] takes a branch whose transaction the
    ledger refuses (it ignores the refusal) and writes it to the store; when the node is then
    restarted on that store the transaction does not apply and the constructor throws. *)
Theorem restart_refuses_adopted_chain :
  let '(r, s) := Cm.adopt_branch [unpaid_block] 1000 Cs.fresh in
  r = Ok true ∧ is_ok (construct kTestParams (storage_ Cs.fresh)).1 = true ∧
  (construct kTestParams (storage_ s)).1 = Throw RuntimeError.
Proof. by vm_compute. Qed.

(** [block_c], whose parent is [block_b], as the only row above genesis. *)
Definition unlinked_store : store := Eval vm_compute in
  (bs_save_block Cs.block_c 1 (bs_save_block Bc.genesis 0 Cs.demo_store).2).2.

(** The constructor does not look at the links of the rows it restores: on a store with a
    row whose parent is not there it succeeds, and the chain it makes is not linked. *)
Theorem restart_takes_unlinked_row :
  let '(r, s) := construct kTestParams (Some unlinked_store) in
  r = Ok tt ∧ blocks_ (blockchain_ s) !! 0%nat = Some Bc.genesis ∧
  ∃ b, blocks_ (blockchain_ s) !! 1%nat = Some b ∧ prev_hash_ b ≠ hash_ Bc.genesis.
Proof. vm_compute. split_and!; [done..|]. eexists. split; [reflexivity|discriminate]. Qed.
End witnesses.
End Rs.
