(* ===== verification/Recovery.v ===== *)
(** * A node survives its restarts (src/chain/ChainManager.cpp, src/app/Orchestrator.cpp)

    The operations of a chain manager and the constructor, in any order: blocks and
    transactions are submitted, heavier branches taken over, and the process may stop at
    any moment and start again on the store it left. The ledger is then always the one the
    transactions of the chain give, up to accounts that hold an explicit 0, so that the
    next start succeeds too. *)

From S2P Require Import Prelude Codec Crypto Demo Transaction Block Ledger Mempool OrphanPool.
From S2P Require Import ProofOfWork Blockchain ForkResolution BlockLocator Storage.
From S2P Require Import ChainManager ChainLedger ChainSafety ChainProgress ChainReorg ChainSync Restart.

Module Rv.

Section recovery.
Context `{CryptoLaws} `{Buckets} `{!BlockStore} `{!BlockStoreLaws} (U : bytes → Prop) {CF : CollisionFree U}.

Implicit Types s : ChainManager.

Definition chain_txs s : list Transaction := Cr.txs_of (blocks_ (blockchain_ s)).

(** A coinbase, or a payment of something. *)
Definition moves (tx : Transaction) : Prop :=
  Tx.is_coinbase tx = true ∨ 0 < u64 (amount_ tx + fee_ tx).

(** The new chain of a switch at height [k] stands on its own: its transactions apply one
    after the other from an empty ledger, and it repeats none that was discarded. *)
Definition clean_switch (k : nat) s s' : Prop :=
  Cr.disjoint_txs (Cr.txs_of (drop k (blocks_ (blockchain_ s)))) (Cr.txs_of (drop k (blocks_ (blockchain_ s')))) ∧
  Cl.bounded (chain_txs s') Ldg.empty ∧ (∃ l, Cl.accepted_run (chain_txs s') Ldg.empty l) ∧
  sz (blocks_ (blockchain_ s')) < 2 ^ 63.

(** What happens to a node that runs on [params]. A process that stops, also in the
    middle of a call that has not written to the store yet, is [turn_restart]. *)
Inductive turn (params : ConsensusParams) : ChainManager → ChainManager → Prop :=
| turn_block b now s o s' :
    Fork.known U b → Cm.submit_block b now s = (Ok o, s') → status o ≠ Reorged →
    Cl.bounded (chain_txs s ++ transactions_ b) Ldg.empty → Forall moves (transactions_ b) →
    sz (blocks_ (blockchain_ s')) < 2 ^ 63 → turn params s s'
| turn_fork b now s o s' :
    Fork.known U b → Cm.submit_block b now s = (Ok o, s') → status o = Reorged →
    clean_switch (Bc.size (blockchain_ s') - length (to_broadcast o)) s s' → turn params s s'
| turn_branch blocks now s s' first rest height :
    Forall (Fork.known U) blocks → Cm.adopt_branch blocks now s = (Ok true, s') →
    Cm.skip_known (blockchain_ s) blocks = first :: rest →
    Bc.find_height (prev_hash_ first) (blockchain_ s) = Some height →
    clean_switch (height + 1) s s' → turn params s s'
| turn_branch_refused blocks now s s' :
    Forall (Fork.known U) blocks → Cm.adopt_branch blocks now s = (Ok false, s') → turn params s s'
| turn_transaction tx s : turn params s (Cm.submit_transaction tx s).2
| turn_restart s st s' :
    storage_ s = Some st → Rs.construct params (Some st) = (Ok tt, s') → turn params s s'.

(** The state is what the chain in the store says. *)
Record recoverable s : Prop := {
  rc_inv : Cs.inv U s;
  rc_store : ∃ st, storage_ s = Some st ∧ mirrors st (blocks_ (blockchain_ s));
  rc_size : sz (blocks_ (blockchain_ s)) < 2 ^ 63;
  rc_auth : Forall Cl.authorized (chain_txs s);
  rc_bounded : Cl.bounded (chain_txs s) Ldg.empty;
  rc_ledger : ∃ l, Cl.accepted_run (chain_txs s) Ldg.empty l ∧ Ldg.refines l (ledger_ s)
}.

(** ** Runs *)

Lemma run_refines_back txs l l2 l2' :
  Ldg.refines l l2 → Forall moves txs → Cl.accepted_run txs l2 l2' →
  ∃ l', Cl.accepted_run txs l l' ∧ Ldg.refines l' l2'.
Proof.
  intros Hr Hm R. revert l Hr Hm. induction R as [l2|tx txs l2 la lb E _ IH]; intros l Hr Hm.
  { exists l. split; [constructor|done]. }
  apply Forall_cons in Hm as [Htx Hm].
  destruct (Ldg.apply_refines_back tx l l2 la Hr Htx E) as (l1 & E1 & Hr1).
  destruct (IH l1 Hr1 Hm) as (l' & R' & Hr'). exists l'. split; [by econstructor|done].
Qed.

Lemma bounded_run txs txs' l l1 :
  Ldg.wf l → Cl.bounded (txs ++ txs') l → Cl.accepted_run txs l l1 → Ldg.wf l1 ∧ Cl.bounded txs' l1.
Proof.
  intros Hl Hb R. induction R as [l|tx txs l la lb E _ IH]; [done|]. simpl in Hb.
  apply IH; [|by eapply Cl.bounded_step]. destruct Hb as [_ [[Ht _] _]%Forall_cons].
  pose proof (Ldg.apply_transaction_wf tx l Ht Hl) as Hw. by rewrite E in Hw.
Qed.

Lemma bounded_wf txs l : Cl.bounded txs l → Forall Tx.wf txs.
Proof. intros [_ Hw]. eapply Forall_impl; [exact Hw|]. by intros tx [? _]. Qed.

Lemma bounded_refines txs l l' : Ldg.refines l l' → Cl.bounded txs l → Cl.bounded txs l'.
Proof. intros Hr [Hs Hf]. split; [|done]. by rewrite (Ldg.supply_refines _ _ Hr). Qed.

Lemma txs_of_app a b : Cr.txs_of (a ++ b) = Cr.txs_of a ++ Cr.txs_of b.
Proof. apply bind_app. Qed.

Lemma txs_of_with_works w l : Cr.txs_of (Bc.with_works w l) = Cr.txs_of l.
Proof.
  revert w. induction l as [|b l IH]; intros w; [done|]. cbn [Bc.with_works]. unfold Cr.txs_of in *.
  rewrite !bind_cons. by rewrite IH.
Qed.

Lemma coinbases_disjoint txs txs' :
  Forall (λ tx, Tx.is_coinbase tx = true) txs → Forall (λ tx, Tx.is_coinbase tx = true) txs' →
  Cr.disjoint_txs txs txs'.
Proof. rewrite !Forall_forall. intros Ha Hb tx tx' Hin Hin' _. auto. Qed.

Lemma mirrored_store s s' :
  Cs.mirrored s' → (is_Some (storage_ s) → is_Some (storage_ s')) →
  (∃ st, storage_ s = Some st ∧ mirrors st (blocks_ (blockchain_ s))) →
  ∃ st, storage_ s' = Some st ∧ mirrors st (blocks_ (blockchain_ s')).
Proof.
  intros Hm Hi (st & E & _). destruct (Hi ltac:(eauto)) as [st' E']. unfold Cs.mirrored in Hm.
  rewrite E' in Hm. eauto.
Qed.

Lemma store_mirrored s :
  (∃ st, storage_ s = Some st ∧ mirrors st (blocks_ (blockchain_ s))) → Cs.mirrored s.
Proof. intros (st & E & Hm). unfold Cs.mirrored. by rewrite E. Qed.

Lemma stored_is_Some m st st' : Cs.stored m st st' → is_Some st → is_Some st'.
Proof. destruct st, st'; simpl; try done; by intros ? []. Qed.

(** ** The turns *)

Lemma accepted_recoverable b now s s' :
  recoverable s → Fork.known U b → Cs.accepted b now s s' → Cs.inv U s' →
  Cl.bounded (chain_txs s ++ transactions_ b) Ldg.empty → Forall moves (transactions_ b) →
  sz (blocks_ (blockchain_ s')) < 2 ^ 63 → recoverable s'.
Proof.
  intros [Hs Hst Hsz Hau Hb (l & R & Hr)] Kb Ha Hs' Hbd Hmv Hsz'.
  destruct (run_refines_back _ l _ _ Hr Hmv (Cs.ac_ledger _ _ _ _ Ha)) as (l' & R' & Hr').
  assert (chain_txs s' = chain_txs s ++ transactions_ b) as Et.
  { unfold chain_txs. rewrite (Cs.ac_chain _ _ _ _ Ha). unfold Bc.add_block. cbn [blocks_].
    rewrite txs_of_app. f_equal. unfold Cr.txs_of. rewrite bind_cons. apply app_nil_r. }
  split; rewrite ?Et; try done.
  - eapply mirrored_store; [|exact (stored_is_Some _ _ _ (Cs.ac_store _ _ _ _ Ha))|done].
    exact (Cs.accepted_mirrored U b now s s' Hs Kb Ha (store_mirrored s Hst) Hsz).
  - apply Forall_app. split; [done|apply (Cs.ac_auth _ _ _ _ Ha)].
  - exists l'. split; [by eapply Cl.accepted_run_app|done].
Qed.

Lemma unchanged_recoverable s s' :
  recoverable s → Cs.same_store s s' → Cs.inv U s' → Ldg.refines (ledger_ s) (ledger_ s') → recoverable s'.
Proof.
  intros [Hs Hst Hsz Hau Hb (l & R & Hr)] (Ec & _ & Et) Hs' Hl.
  split; unfold chain_txs in *; rewrite ?Ec, ?Et; try done.
  exists l. split; [done|]. by etrans.
Qed.

Lemma submitted_recoverable b now s o s' :
  recoverable s → Fork.known U b → Cm.submit_block b now s = (Ok o, s') → status o ≠ Reorged →
  Cl.bounded (chain_txs s ++ transactions_ b) Ldg.empty → Forall moves (transactions_ b) →
  sz (blocks_ (blockchain_ s')) < 2 ^ 63 → recoverable s'.
Proof.
  intros Hrc Kb E Hno Hbd Hmv Hsz'. pose proof (Cs.safe_submit_block U b now s (rc_inv _ Hrc) Kb) as Hsafe.
  unfold Cs.safe in Hsafe. rewrite E in Hsafe. destruct Hsafe as [Hs' Ho]. unfold Cs.block_outcome in Ho.
  assert (Cl.bounded (transactions_ b) (ledger_ s)) as Hb1.
  { destruct (rc_ledger _ Hrc) as (l & R & Hr). eapply bounded_refines; [done|].
    by eapply bounded_run; [apply Ldg.wf_empty|..]. }
  pose proof (Cl.bounded_wraps _ _ (Cs.inv_ledger _ _ (rc_inv _ Hrc)) Hb1) as Hnw.
  destruct (status o); [| |done|].
  - destruct Ho as (Hss & _ & [Hl|[_ ?]]); [|done]. by eapply unchanged_recoverable.
  - destruct Ho as [_ Ha]. by eapply accepted_recoverable.
  - destruct Ho as (Hss & _ & [Hl|[_ ?]]); [|done]. by eapply unchanged_recoverable.
Qed.

(** The blocks below the fork point, the discarded ones and the new ones. *)
Lemma switched_split fork s s' :
  Cs.inv U s → Cs.switched U fork s s' →
  ∃ k, (Bc.reorganize_to fork (blockchain_ s)).1 = Some (drop (k + 1) (blocks_ (blockchain_ s))) ∧
    Bc.find_height (hash_ (common_ancestor fork)) (blockchain_ s) = Some k ∧
    (k + 1 + length (fork_blocks fork) = Bc.size (blockchain_ s'))%nat ∧
    take (k + 1) (blocks_ (blockchain_ s')) = take (k + 1) (blocks_ (blockchain_ s)) ∧
    Cr.txs_of (drop (k + 1) (blocks_ (blockchain_ s'))) = Cr.txs_of (fork_blocks fork).
Proof.
  intros Hs Hsw. destruct (Cs.fork_height fork _ (Cs.inv_chain _ s Hs) (Cs.sw_fork _ _ _ _ Hsw)) as [k Hk].
  destruct (Cs.inv_chain _ s Hs) as (Hi & _). pose proof (lookup_lt_Some _ _ _ Hk) as Hlt.
  pose proof (Bc.reorganize_blocks fork _ k Hi Hk) as Eb. rewrite <- (Cs.sw_chain _ _ _ _ Hsw) in Eb.
  assert (length (take (k + 1) (blocks_ (blockchain_ s))) = k + 1)%nat as Elen by (rewrite length_take; lia).
  exists k. split_and!.
  - by rewrite (Bc.reorganize_eq fork _ k Hi Hk).
  - rewrite Bc.find_height_eq. apply Hi. by rewrite list_lookup_fmap, Hk.
  - unfold Bc.size. rewrite Eb, length_app, Elen, Bc.length_with_works. done.
  - rewrite Eb. by apply take_app_length'.
  - rewrite Eb, (drop_app_length' _ _ _ ltac:(done)). apply txs_of_with_works.
Qed.

Lemma switched_recoverable fork k s s' :
  recoverable s → Cs.inv U s' → Cs.switched U fork s s' → clean_switch k s s' →
  Bc.find_height (hash_ (common_ancestor fork)) (blockchain_ s) = Some (k - 1)%nat → (0 < k)%nat →
  recoverable s'.
Proof.
  intros [Hs Hst Hsz Hau Hb (l & R & Hr)] Hs' Hsw (Hdis & Hbd & (l1 & R1) & Hsz') Hk Hpos.
  destruct (switched_split fork s s' Hs Hsw) as (j & Ed & Hj & _ & Etake & Edrop).
  rewrite Hk in Hj. injection Hj as <-. replace (k - 1 + 1)%nat with k in * by lia.
  split; [done| |done| |done|].
  - eapply mirrored_store; [|exact (stored_is_Some _ _ _ (Cs.sw_store _ _ _ _ Hsw))|done].
    exact (Cs.switched_mirrored U fork s s' Hs Hs' Hsw (store_mirrored s Hst) Hsz Hsz').
  - unfold chain_txs in *. rewrite <- (take_drop k (blocks_ (blockchain_ s'))), Etake, txs_of_app, Edrop.
    apply Forall_app. split; [|apply (Cs.sw_auth _ _ _ _ Hsw)].
    rewrite <- (take_drop k (blocks_ (blockchain_ s))), txs_of_app in Hau. by apply Forall_app in Hau as [? _].
  - exists l1. split; [done|]. unfold chain_txs in R, R1, Hb.
    rewrite <- (take_drop k (blocks_ (blockchain_ s'))), Etake, txs_of_app, Edrop in R1.
    rewrite <- (take_drop k (blocks_ (blockchain_ s))), txs_of_app in R, Hb.
    apply Rs.accepted_run_split in R as (l0 & R0 & Rold), R1 as (l0' & R0' & Rnew).
    pose proof (Cl.accepted_run_det _ _ _ _ R0 R0') as <-.
    destruct (bounded_run _ _ _ _ Ldg.wf_empty Hb R0) as [Hw0 Hb0].
    destruct (Cs.sw_replay _ _ _ _ Hsw) as (s1 & s2 & hs & Ec1 & El1 & Erun & ->).
    eapply (Cr.reorg_refines fork s1 hs s2);
      [done|by rewrite Ec1|done|by eapply bounded_wf|by apply Cl.bounded_wraps|exact Rold| |done|].
    + by rewrite El1.
    + by rewrite <- Edrop.
Qed.

Lemma construct_recoverable s params st s' :
  recoverable s → storage_ s = Some st → Rs.construct params (Some st) = (Ok tt, s') → recoverable s'.
Proof.
  intros [Hs (st0 & Est0 & Hm) Hsz Hau Hb (l & R & Hr)] Est E. rewrite Est0 in Est. injection Est as ->.
  destruct (Rs.construct_spec U (blockchain_ s) st params l (Cs.inv_chain _ _ Hs) (Cs.inv_known _ _ Hs) Hm Hsz
    Hau R) as (s1 & E1 & Hs1 & Hb1 & Hl1 & Hst1 & _).
  rewrite E in E1. injection E1 as <-. split; unfold chain_txs in *; rewrite ?Hb1; try done; [by exists st|].
  exists l. by rewrite Hl1.
Qed.

Lemma turn_recoverable params s s' : turn params s s' → recoverable s → recoverable s'.
Proof.
  intros Ht Hrc. destruct Ht as [b now s o s' Kb E|b now s o s' Kb E Ho Hcl|blocks now s s' first rest height Kb E Esk Eh Hcl
    |blocks now s s' Kb E|tx s|s st s' Est E].
  - by eapply submitted_recoverable.
  - pose proof (Cs.safe_submit_block U b now s (rc_inv _ Hrc) Kb) as Hsafe. unfold Cs.safe in Hsafe.
    rewrite E in Hsafe. destruct Hsafe as [Hs' Hout]. unfold Cs.block_outcome in Hout. rewrite Ho in Hout.
    destruct Hout as (fork & Ebc & Hsw). destruct (switched_split fork s s' (rc_inv _ Hrc) Hsw) as (k & _ & Hk & Esz & _).
    rewrite Ebc, length_fmap in Hcl. replace (_ - _)%nat with (k + 1)%nat in Hcl by lia.
    eapply (switched_recoverable fork (k + 1)); try done; [|lia]. by rewrite Nat.add_sub.
  - pose proof (Cs.safe_adopt_branch U blocks now s (rc_inv _ Hrc) Kb) as Hsafe. unfold Cs.safe in Hsafe.
    rewrite E in Hsafe. destruct Hsafe as [Hs' (fork & (f & r & Esk' & Hp) & Hsw)].
    rewrite Esk in Esk'. injection Esk' as <- <-.
    eapply (switched_recoverable fork (height + 1)); try done; [|lia]. by rewrite Nat.add_sub, <- Hp.
  - pose proof (Cs.safe_adopt_branch U blocks now s (rc_inv _ Hrc) Kb) as Hsafe. unfold Cs.safe in Hsafe.
    rewrite E in Hsafe. by destruct Hsafe as [_ ->].
  - eapply unchanged_recoverable; [done|..].
    + unfold Cm.submit_transaction, Cm.on_mempool, st_zoom. by destruct (Mp.add_transaction _ _).
    + eapply (Cs.step_inv U s); [constructor|apply Hrc].
    + unfold Cm.submit_transaction, Cm.on_mempool, st_zoom. by destruct (Mp.add_transaction _ _).
  - by eapply construct_recoverable.
Qed.
(** ** The first start *)

Lemma first_start params st0 s0 :
  mirrors st0 [] → Rs.construct params (Some st0) = (Ok tt, s0) →
  ∃ st, s0 = Cm.set_storage (Some st) (Cm.make kMaxPending params (Some st0)) ∧ mirrors st [Bc.genesis].
Proof.
  intros Hm. unfold Rs.construct. intros ([] & s1 & Ei & Er)%ST_bind_Ok. unfold Cm.init in Ei.
  apply ST_bind_Ok in Ei as (? & ? & [= <- <-] & Ei). apply ST_bind_Ok in Ei as (? & ? & [= <- <-] & Ei).
  unfold Cm.on_storage in Ei. cbn [storage_ Cm.make] in Ei.
  rewrite (ST_bind_eq _ _ _ _ _ (bsl_count st0 [] Hm ltac:(done))) in Ei.
  change (sz (A:=Block) [] =? 0) with true in Ei. cbv iota in Ei.
  destruct (bs_save_block Bc.genesis 0 st0) as [r st] eqn:Es. injection Ei as -> <-.
  pose proof (bsl_save st0 [] Bc.genesis st Hm (NoDup_singleton _) ltac:(done) Es) as Hm1.
  exists st. split; [|done]. unfold Rs.restore in Er.
  apply ST_bind_Ok in Er as (? & ? & [= <- <-] & Er). cbn [storage_ Cm.set_storage] in Er.
  apply ST_bind_Ok in Er as (n & s2 & En & Er). unfold Rs.from_store in En. cbn [storage_ Cm.set_storage] in En.
  rewrite (bsl_count st [Bc.genesis] Hm1 ltac:(done)) in En. injection En as <- <-. by injection Er as <-.
Qed.

Lemma start_recoverable params st0 s0 :
  mirrors st0 [] → Rs.construct params (Some st0) = (Ok tt, s0) → recoverable s0.
Proof.
  intros Hm0 Est. destruct (first_start _ _ _ Hm0 Est) as (st & -> & Hm).
  split; try done.
  - exact (Cs.inv_set_storage U _ _ (Cs.manager_make_inv U _ _ _)).
  - by exists st.
  - exists Ldg.empty. split; [constructor|done].
Qed.

(** ** Properties *)


(** ** A payment of nothing *)

Lemma run_keeps a txs l l' : Cl.accepted_run txs l l' → is_Some (balances_ l !! a) → is_Some (balances_ l' !! a).
Proof.
  induction 1 as [|tx txs l la lb E _ IH]; intros Ha; [done|]. apply IH.
  pose proof (Ldg.is_Some_apply a tx l Ha) as Hs. by rewrite E in Hs.
Qed.

(** Whoever is credited has an account from then on. *)
Lemma run_credits txs l l' tx : Cl.accepted_run txs l l' → tx ∈ txs → is_Some (balances_ l' !! recipient_ tx).
Proof.
  induction 1 as [|tx' txs l la lb E R IH]; intros [->|Hin]%elem_of_cons || intros ?%elem_of_nil; [done| |by apply IH].
  eapply run_keeps; [exact R|]. apply Ldg.apply_transaction_true in E as [(_&->)|(_&_&_&_&->)]; apply Ldg.is_Some_credit.
Qed.

Lemma reverse_all_keeps a txs l : is_Some (balances_ l !! a) → is_Some (balances_ (Cm.reverse_all txs l) !! a).
Proof. intros Ha. unfold Cm.reverse_all. induction txs; simpl; [done|]. by apply Ldg.is_Some_reverse. Qed.

(** [f] is a child of the tip that credits [a], who has no account, before a payment that its
    sender cannot make, and no credit of it wraps. *)
Definition credits_in_vain (a : str) (f : Block) (now : Z) s : Prop :=
  Cs.valid_child f now s ∧ Ldg.get_balance a (ledger_ s) = None ∧ ¬ Cl.wraps (transactions_ f) (ledger_ s) ∧
  ∃ pre tx post l1, transactions_ f = pre ++ tx :: post ∧ Forall Cl.authorized pre ∧
    Cl.accepted_run pre (ledger_ s) l1 ∧ a ∈ recipient_ <$> pre ∧
    Tx.has_valid_signature tx = Ok true ∧ (Ldg.apply_transaction tx l1).1 = false.

(** [e] is a child of the tip in which [a] pays nothing. *)
Definition pays_nothing (a : str) (e : Block) (now : Z) s : Prop :=
  Cs.valid_child e now s ∧ ∃ tx, transactions_ e = [tx] ∧ Tx.has_valid_signature tx = Ok true ∧
    Tx.is_coinbase tx = false ∧ sender_ tx = a ∧ amount_ tx = 0 ∧ fee_ tx = 0 ∧
    nonce_ tx = Ldg.next_nonce a (ledger_ s).

(** The loop stops at a payment that the sender cannot make. *)
Lemma apply_loop_stops pre tx post applied l l1 :
  Forall Cl.authorized pre → Cl.accepted_run pre l l1 → Tx.has_valid_signature tx = Ok true →
  (Ldg.apply_transaction tx l1).1 = false →
  Cm.apply_loop applied (pre ++ tx :: post) l = (Ok false, Cm.reverse_all (applied ++ pre) l1).
Proof.
  intros Ha R Hs Hno. revert applied Ha. induction R as [l|tx' txs l la lb E _ IH]; intros applied Ha.
  - rewrite app_nil_r. cbn [app Cm.apply_loop]. unfold mbind, ST_bind.
    destruct (Ldg.apply_transaction tx l) as [ok l'] eqn:E. simpl in Hno. subst ok.
    apply Ldg.apply_transaction_false in E as E'. subst l'.
    destruct (Tx.is_coinbase tx); cbn [mret ST_ret]; [|unfold st_lift; rewrite Hs]; by rewrite E.
  - apply Forall_cons in Ha as [Htx Ha]. specialize (IH Hno (applied ++ [tx']) Ha). rewrite <- app_assoc in IH.
    cbn [app Cm.apply_loop]. unfold mbind, ST_bind.
    destruct (Tx.is_coinbase tx') eqn:Ec; cbn [mret ST_ret]; [by rewrite E|].
    destruct Htx as [?|Hs']; [congruence|]. unfold st_lift. by rewrite Hs', E.
Qed.

(** [submit_block] on a child of the tip whose transactions do not apply. *)
Lemma submit_unpaid b now s :
  Cs.valid_child b now s → (Cm.apply_loop [] (transactions_ b) (ledger_ s)).1 = Ok false →
  Cm.submit_block b now s =
    (Ok Cm.rejected, Cm.set_ledger (Cm.apply_loop [] (transactions_ b) (ledger_ s)).2 s).
Proof.
  intros (Hpow & Hcb & Hcl & Ht & Hd) Hno. unfold Cm.submit_block. rewrite Hpow, Hcb. cbn [negb].
  unfold mbind, ST_bind, st_get, st_lift. rewrite Hcl, Ht. cbn [negb]. rewrite Hd, Z.eqb_refl. cbn [negb].
  rewrite Cl.apply_block_eq. destruct (Cm.apply_loop [] (transactions_ b) (ledger_ s)) as [r l']. simpl in Hno. by subst r.
Qed.

Lemma stranger_cannot_pay tx l : Tx.is_coinbase tx = false → Ldg.get_balance (sender_ tx) l = None →
  Tx.has_valid_signature tx = Ok true → (Cm.apply_loop [] [tx] l).1 = Ok false.
Proof.
  intros Hc Ha Hs. assert ((Ldg.apply_transaction tx l).1 = false) as Hno.
  { unfold Ldg.apply_transaction, Ldg.contains. rewrite Hc. unfold Ldg.get_balance in Ha. by rewrite Ha. }
  pose proof (apply_loop_stops [] tx [] [] l l (Forall_nil_2 _) (Cl.run_nil l) Hs Hno) as E. cbn [app] in E. by rewrite E.
Qed.

Lemma empty_payment_accepted tx l :
  Tx.is_coinbase tx = false → Ldg.get_balance (sender_ tx) l = Some 0 → amount_ tx = 0 → fee_ tx = 0 →
  nonce_ tx = Ldg.next_nonce (sender_ tx) l → ∃ l', Cl.accepted_run [tx] l l'.
Proof.
  intros Hc Ha Hm Hf Hn. eexists. eapply Cl.run_cons; [|constructor]. apply Ldg.apply_transaction_true. right.
  apply Tx.is_coinbase_false in Hc. split_and!; [done|by eexists|rewrite Hm, Hf; unfold Ldg.balance|done|reflexivity].
  unfold Ldg.get_balance in Ha. by rewrite Ha.
Qed.

(** What a block that credits [a] in vain leaves behind. *)
Lemma credited_in_vain a f now s :
  Cs.inv U s → Fork.known U f → credits_in_vain a f now s →
  ∃ l', Cm.submit_block f now s = (Ok Cm.rejected, Cm.set_ledger l' s) ∧
    Ldg.refines (ledger_ s) l' ∧ Ldg.get_balance a l' = Some 0.
Proof.
  intros Hs Kf (Hv & Ha & Hw & pre & tx & post & l1 & Etx & Hau & R & Hin & Hsig & Hno).
  pose proof (apply_loop_stops pre tx post [] _ _ Hau R Hsig Hno) as El. rewrite <- Etx in El. cbn [app] in El.
  pose proof (Cl.apply_loop_refused _ _ (Cs.inv_ledger _ _ Hs) (Cs.known_txs U f Kf)) as Hr. rewrite El in Hr.
  destruct Hr as [Hr|?]; [|done]. eexists. rewrite submit_unpaid by (done || by rewrite El). rewrite El.
  split_and!; [done|done|]. apply list_elem_of_fmap in Hin as (t & -> & Ht).
  destruct (proj1 (Ldg.refines_entries _ _) Hr) as [_ Hb].
  destruct (reverse_all_keeps (recipient_ t) pre l1 (run_credits _ _ _ _ R Ht)) as [v Hv'].
  destruct (Hb (recipient_ t)) as [E|[_ E]]; [|done]. rewrite Ha in E. unfold Ldg.get_balance in E. congruence.
Qed.

End recovery.

(** ** Witnesses *)
Section witnesses.
#[local] Existing Instance demo_crypto.
#[local] Existing Instance demo_crypto_laws.
#[local] Existing Instance demo_sqlite.
#[local] Existing Instance demo_sqlite_laws.
#[local] Existing Instance Op.demo_buckets.
#[local] Existing Instance Cs.universe_cf.

(** A node is started, takes [block_a], then the heavier branch of [block_b] and
    [block_c], and is restarted. *)
Definition started : ChainManager := (Rs.construct kTestParams (Some Cs.demo_store)).2.
Definition node_a : ChainManager := (Cm.submit_block Cs.block_a 1000 started).2.
Definition node_ab : ChainManager := (Cm.submit_block Cs.block_b 1001 node_a).2.
Definition node_bc : ChainManager := (Cm.submit_block Cs.block_c 1002 node_ab).2.
Definition store_of (s : ChainManager) : store := match storage_ s with Some st => st | None => Cs.demo_store end.
Definition node_again : ChainManager := (Rs.construct kTestParams (Some (store_of node_bc))).2.

Lemma demo_turn_block b now o s :
  Fork.known Cs.universe b → (Cm.submit_block b now s).1 = Ok o → status o ≠ Reorged →
  Cl.bounded (chain_txs s ++ transactions_ b) Ldg.empty → Forall moves (transactions_ b) →
  sz (blocks_ (blockchain_ (Cm.submit_block b now s).2)) < 2 ^ 63 →
  turn Cs.universe kTestParams s (Cm.submit_block b now s).2.
Proof. intros Kb E. eapply turn_block; [done|]. by apply ST_run_eq. Qed.

Lemma construct_run params st :
  (Rs.construct params st).1 = Ok tt → Rs.construct params st = (Ok tt, (Rs.construct params st).2).
Proof. destruct (Rs.construct params st). simpl. by intros ->. Qed.

Lemma demo_history : rtc (turn Cs.universe kTestParams) started node_again.
Proof.
  eapply (rtc_l _ _ node_a); [|eapply (rtc_l _ _ node_ab); [|eapply (rtc_l _ _ node_bc); [|apply rtc_once]]].
  - eapply demo_turn_block; [apply Cs.block_a_known|by vm_compute|done| | |by vm_compute].
    + split; [by vm_compute|]. apply (bool_decide_unpack _). by vm_compute.
    + constructor; [by left|constructor].
  - eapply demo_turn_block; [apply Cs.block_b_known|by vm_compute|done| | |by vm_compute].
    + split; [by vm_compute|]. apply (bool_decide_unpack _). by vm_compute.
    + constructor; [by left|constructor].
  - eapply turn_fork; [apply Cs.block_c_known|apply ST_run_eq; by vm_compute|done|]. split_and!.
    + apply coinbases_disjoint; apply (bool_decide_unpack _); by vm_compute.
    + split; [by vm_compute|]. apply (bool_decide_unpack _). by vm_compute.
    + eexists. apply Cr.all_accepted_run. by vm_compute.
    + by vm_compute.
  - apply (turn_restart _ _ _ (store_of node_bc)); [by vm_compute|]. apply construct_run. by vm_compute.
Qed.


(** A block that credits dave and then spends what nobody has, and one in which dave, who
    has never been paid, pays bob nothing. *)
Definition failing_block : Block := Eval vm_compute in
  Cs.mined (hash_ Bc.genesis) 1000 [demo_coinbase "dave" 50; demo_pay "eve" "bob" 10 0 0].
Definition empty_payment : Block := Eval vm_compute in
  Cs.mined (hash_ Bc.genesis) 1000 [demo_pay "dave" "bob" 0 0 0].

Definition blocks_of_dave : list Block := [Bc.genesis; failing_block; empty_payment].
Definition daves : bytes → Prop := Fork.universe_of blocks_of_dave.

#[local] Instance daves_cf : CollisionFree daves.
Proof. apply Fork.universe_of_cf; [by vm_compute|left]. Qed.

Lemma daves_known b : b ∈ blocks_of_dave → Fork.known daves b.
Proof. apply Fork.universe_of_known. by vm_compute. Qed.

End witnesses.
End Rv.
