(* ===== verification/Wire.v ===== *)
(** * Message payloads (src/network/Inventory.cpp, GetBlocks.cpp, PeerAddress.cpp and
    the version payload of Handshake.cpp)

    Each format is an instance of [Codec]: its decoder accepts exactly the encodings of
    the values the format can carry. The inventory and locator decoders copy without
    bounds checks after one comparison of sizes, and are proved equal to the checked
    walk. *)

From S2P Require Import Prelude Codec.

Inductive InventoryItemType := BLOCK_ITEM | TRANSACTION_ITEM.

Record InventoryItem := mkItem { item_type : InventoryItemType; item_hash : HashBytes }.

#[global] Instance InventoryItemType_eq_decision : EqDecision InventoryItemType.
Proof. solve_decision. Defined.
#[global] Instance InventoryItem_eq_decision : EqDecision InventoryItem.
Proof. solve_decision. Defined.

Record VersionInfo := mkVersionInfo {
  protocol_version : Z;
  chain_height : Z;
  vi_timestamp : Z;
  listen_port : Z;
  node_id : Z
}.

Record PeerAddress := mkPeerAddress { host : str; port : Z }.

#[global] Instance PeerAddress_eq_decision : EqDecision PeerAddress.
Proof. solve_decision. Defined.

Definition kInventoryItemSize : nat := 33.
Definition kMaxLocatorHashes : Z := 1028.
Definition kExpectedVersionPayloadSize : nat := 30.

Module Wire.

(** ** Inventories *)

Definition item_type_byte (t : InventoryItemType) : byte :=
  match t with BLOCK_ITEM => Byte.x00 | TRANSACTION_ITEM => Byte.x01 end.

Definition item_type_of (b : bytes) : option InventoryItemType :=
  match b with
  | [Byte.x00] => Some BLOCK_ITEM
  | [Byte.x01] => Some TRANSACTION_ITEM
  | _ => None
  end.

Definition put_item (item : InventoryItem) : bytes :=
  item_type_byte (item_type item) :: item_hash item.

Definition serialize_inventory (items : list InventoryItem) : bytes :=
  le 4 (u32 (sz items)) ++ (items ≫= put_item).

(** One turn of the loop, over a reader of bytes. *)
Definition read_item (rd : nat → parser bytes) : parser InventoryItem :=
  t ← rd 1%nat; ty ← read_opt (item_type_of t); hash ← rd 32%nat; mret (mkItem ty hash).

Definition deserialize_inventory (payload : bytes) : option (list InventoryItem) :=
  match read_le 4 payload 0%nat with
  | None => None
  | Some (count, offset) =>
      let expected_size := 4 + count * Z.of_nat kInventoryItemSize in
      if negb (sz payload =? expected_size) then None else
      match read_times (read_item raw_bytes) (Z.to_nat count) payload offset with
      | Some (items, _) => Some items
      | None => None
      end
  end.

(** ** Block locators *)

Definition serialize_getblocks (locator : list HashBytes) : bytes :=
  le 4 (u32 (sz locator)) ++ (locator ≫= id).

Definition deserialize_getblocks (payload : bytes) : option (list HashBytes) :=
  match read_le 4 payload 0%nat with
  | None => None
  | Some (count, offset) =>
      if kMaxLocatorHashes <? count then None else
      if negb (sz payload =? count * 32 + 4) then None else
      match read_times (raw_bytes 32) (Z.to_nat count) payload offset with
      | Some (hashes, _) => Some hashes
      | None => None
      end
  end.

(** ** Version handshake *)

Definition serialize_version (info : VersionInfo) : bytes :=
  le 4 (protocol_version info) ++ le 8 (chain_height info) ++ le 8 (vi_timestamp info) ++
  le 2 (listen_port info) ++ le 8 (node_id info).

(** Fixed offsets, no bounds check. *)
Definition deserialize_version (payload : bytes) : VersionInfo :=
  {| protocol_version := of_le (take 4 payload);
     chain_height := of_le (take 8 (drop 4 payload));
     vi_timestamp := of_le (take 8 (drop 12 payload));
     listen_port := of_le (take 2 (drop 20 payload));
     node_id := of_le (take 8 (drop 22 payload)) |}.

(** ** Peer addresses *)

Definition serialize_peer_address (a : PeerAddress) : bytes := le 2 (port a) ++ put_lbytes (host a).

Definition parse_peer_address : parser PeerAddress :=
  port ← read_le 2; host ← read_lbytes; mret (mkPeerAddress host port).

Definition deserialize_peer_address (payload : bytes) : option PeerAddress :=
  run_exact parse_peer_address payload.

Definition serialize_peer_list (addresses : list PeerAddress) : bytes :=
  le 4 (u32 (sz addresses)) ++ (addresses ≫= λ a, put_lbytes (serialize_peer_address a)).

(** [addresses.reserve(count)], which throws [std::bad_alloc] when there is no memory for as
    many addresses as the payload announces, is left out. *)
Definition parse_peer_list : parser (list PeerAddress) :=
  count ← read_le 4;
  read_times (entry ← read_lbytes; read_opt (deserialize_peer_address entry)) (Z.to_nat count).

Definition deserialize_peer_list (payload : bytes) : option (list PeerAddress) :=
  run_exact parse_peer_list payload.

(** ** Values the formats can carry *)

Definition items_wf (items : list InventoryItem) : Prop :=
  sz items < 2 ^ 32 ∧ Forall (λ i, hash_wf (item_hash i)) items.

Definition locator_wf (locator : list HashBytes) : Prop :=
  sz locator <= kMaxLocatorHashes ∧ Forall hash_wf locator.

Definition version_wf (info : VersionInfo) : Prop :=
  in_u 32 (protocol_version info) ∧ in_u 64 (chain_height info) ∧
  in_u 64 (vi_timestamp info) ∧ in_u 16 (listen_port info) ∧ in_u 64 (node_id info).

Definition address_wf (a : PeerAddress) : Prop := in_u 16 (port a) ∧ in_u 32 (sz (host a)).

(** ** Inventories and locators *)

Definition checked (n : nat) : parser bytes := read_bytes (Z.of_nat n).

Lemma read_item_agrees : agrees 33 (read_item raw_bytes) (read_item checked).
Proof.
  intros payload off H. unfold read_item, mbind, parser_bind.
  rewrite (agrees_bytes 1) by lia.
  destruct (checked 1 payload off) as [[t o1]|] eqn:E; unfold checked in E; rewrite E; [|done].
  apply (fixed_width_bytes 1) in E as ->.
  unfold read_opt. destruct (item_type_of t); [|done]. by rewrite (agrees_bytes 32) by lia.
Qed.

Lemma read_item_width : fixed_width 33 (read_item checked).
Proof.
  intros payload off a off'. unfold read_item, mbind, parser_bind, mret, parser_ret.
  destruct (checked 1 payload off) as [[t o1]|] eqn:E; [|done].
  apply (fixed_width_bytes 1) in E as ->.
  unfold read_opt. destruct (item_type_of t); [|done].
  destruct (checked 32 payload _) as [[h o2]|] eqn:E; [|done].
  apply (fixed_width_bytes 32) in E as ->. intros [= _ <-]. lia.
Qed.

Definition parse_inventory : parser (list InventoryItem) :=
  count ← read_le 4; read_times (read_item checked) (Z.to_nat count).

Lemma deserialize_inventory_checked payload :
  deserialize_inventory payload = run_exact parse_inventory payload.
Proof.
  unfold parse_inventory, deserialize_inventory.
  rewrite (counted_fixed_exact _ _ 33 payload read_item_agrees read_item_width).
  destruct (read_le 4 payload 0%nat) as [[count off]|]; [|done].
  change (Z.of_nat kInventoryItemSize) with 33. change (Z.of_nat 33) with 33.
  by rewrite (Z.add_comm 4).
Qed.

Lemma consumes_item item :
  hash_wf (item_hash item) → consumes (read_item checked) (put_item item) item.
Proof.
  destruct item as [ty h]; simpl. intros Hh. unfold put_item, read_item; simpl.
  apply (consumes_bind _ _ [item_type_byte ty] h [item_type_byte ty]);
    [exact (consumes_bytes [item_type_byte ty])|].
  rewrite <- (app_nil_l h). eapply consumes_bind.
  { apply consumes_opt. by destruct ty. }
  eapply consumes_bind_nil; [|apply consumes_ret].
  unfold checked. rewrite <- Hh. apply (consumes_bytes h).
Qed.

Lemma item_type_of_byte b ty : item_type_of b = Some ty → b = [item_type_byte ty].
Proof.
  unfold item_type_of. destruct b as [|x [|]]; [done| |by destruct x].
  destruct x; try done; by intros [= <-].
Qed.

Lemma produces_item :
  produces (read_item checked) (λ bs i, bs = put_item i ∧ hash_wf (item_hash i)).
Proof.
  eapply produces_bind; [by apply produces_bytes|]. intros b1 t [-> _].
  eapply produces_bind.
  { apply (produces_opt _ (λ bs ty, bs = [] ∧ t = [item_type_byte ty])).
    intros ty Hty. split; [done|]. by apply item_type_of_byte. }
  intros b2 ty [-> ->]. eapply produces_bind; [by apply produces_bytes|].
  intros b3 h [-> Hh]. apply produces_ret. split; [by rewrite app_nil_r|].
  unfold hash_wf. simpl. unfold sz in Hh. lia.
Qed.

#[global, program] Instance inventory_codec : Codec (list InventoryItem) := {|
  encode := serialize_inventory; decode := deserialize_inventory; wire_wf := items_wf
|}.
Next Obligation.
  intros items [Hn Hw]. rewrite deserialize_inventory_checked.
  apply run_exact_consumes. unfold serialize_inventory, parse_inventory.
  rewrite wrap_small by solve_width. eapply consumes_bind; [apply consumes_le; solve_width|].
  unfold sz. rewrite Nat2Z.id. apply consumes_times.
  eapply Forall_impl; [done|]. apply consumes_item.
Qed.
Next Obligation.
  intros payload items. rewrite deserialize_inventory_checked. intros H.
  eapply (run_exact_produces _ (λ bs l, serialize_inventory l = bs ∧ items_wf l)) in H; [done|].
  eapply produces_bind; [apply produces_le|]. intros b1 n [-> Hn].
  eapply produces_weaken; [apply produces_times, produces_item|].
  change (8 * Z.of_nat 4) with 32 in Hn.
  intros bs l (-> & Hl & Hw). assert (sz l = n) as <- by solve_width.
  unfold serialize_inventory. rewrite wrap_small by done. split; [done|].
  split; [solve_width|done].
Qed.

Definition parse_getblocks : parser (list HashBytes) :=
  count ← read_le 4; read_times (checked 32) (Z.to_nat count).

Lemma deserialize_getblocks_checked payload :
  deserialize_getblocks payload =
  match run_exact parse_getblocks payload with
  | Some l => if kMaxLocatorHashes <? sz l then None else Some l
  | None => None
  end.
Proof.
  unfold parse_getblocks.
  rewrite (counted_fixed_exact (raw_bytes 32) (checked 32) 32 payload
    (agrees_bytes 32) (fixed_width_bytes 32)).
  unfold deserialize_getblocks.
  destruct (read_le 4 payload 0%nat) as [[count off]|] eqn:E; [|done].
  assert (0 <= count).
  { unfold read_le in E. case_bool; [done|]. injection E as <- _. apply of_le_range. }
  change (Z.of_nat 32) with 32.
  destruct (negb _); [by destruct (_ <? _)|].
  destruct (read_times _ _ payload off) as [[l o]|] eqn:El; [|by destruct (_ <? _)].
  assert (length l = Z.to_nat count) as Hl by (by eapply length_read_times).
  unfold sz. rewrite Hl, Z2Nat.id by done. done.
Qed.

#[global, program] Instance locator_codec : Codec (list HashBytes) := {|
  encode := serialize_getblocks; decode := deserialize_getblocks; wire_wf := locator_wf
|}.
Next Obligation.
  intros l [Hn Hw]. rewrite deserialize_getblocks_checked.
  unfold kMaxLocatorHashes in Hn. rewrite (run_exact_consumes _ _ l).
  { case_bool; [unfold kMaxLocatorHashes in *; lia|done]. }
  unfold serialize_getblocks, parse_getblocks.
  rewrite wrap_small by solve_width. eapply consumes_bind; [apply consumes_le; solve_width|].
  unfold sz. rewrite Nat2Z.id. apply consumes_times.
  eapply Forall_impl; [done|]. intros h Hh. unfold checked. rewrite <- Hh. apply consumes_bytes.
Qed.
Next Obligation.
  intros payload l. rewrite deserialize_getblocks_checked.
  destruct (run_exact parse_getblocks payload) as [l'|] eqn:H; [|done].
  case_bool; [done|]. intros [= ->].
  eapply (run_exact_produces _
    (λ bs l, serialize_getblocks l = bs ∧ Forall hash_wf l)) in H as [-> Hw]; [done|].
  eapply produces_bind; [apply produces_le|]. intros b1 n [-> Hn].
  change (8 * Z.of_nat 4) with 32 in Hn.
  eapply produces_weaken.
  { apply (produces_times _ id hash_wf). eapply produces_weaken; [by apply produces_bytes|].
    intros bs h [-> Hh]. split; [done|]. unfold hash_wf. solve_width. }
  intros bs l' (-> & Hl & Hw). assert (sz l' = n) as <- by solve_width.
  unfold serialize_getblocks. by rewrite wrap_small by done.
Qed.

(** ** Version *)

Lemma length_serialize_version info :
  length (serialize_version info) = kExpectedVersionPayloadSize.
Proof. unfold serialize_version. by rewrite !length_app, !length_le_split. Qed.

Lemma deserialize_serialize_version info :
  version_wf info → deserialize_version (serialize_version info) = info.
Proof.
  intros (? & ? & ? & ? & ?). destruct info as [v h t l n]; simpl in *.
  unfold serialize_version, deserialize_version.
  cbn [protocol_version chain_height vi_timestamp listen_port node_id].
  set (a := le 4 v). set (b := le 8 h). set (c := le 8 t). set (d := le 2 l). set (e := le 8 n).
  assert (length a = 4%nat ∧ length b = 8%nat ∧ length c = 8%nat ∧ length d = 2%nat ∧
          length e = 8%nat) as (La & Lb & Lc & Ld & Le) by (by subst a b c d e; rewrite !length_le_split).
  f_equal.
  - rewrite take_app_length' by done. by apply of_le_le.
  - rewrite drop_app_length', take_app_length' by done. by apply of_le_le.
  - rewrite (app_assoc a), drop_app_length', take_app_length'
      by (rewrite ?length_app; lia). by apply of_le_le.
  - rewrite (app_assoc a), (app_assoc (a ++ b)), drop_app_length', take_app_length'
      by (rewrite ?length_app; lia). by apply of_le_le.
  - rewrite (app_assoc a), (app_assoc (a ++ b)), (app_assoc ((a ++ b) ++ c)), drop_app_length'
      by (rewrite ?length_app; lia).
    rewrite take_ge by lia. by apply of_le_le.
Qed.

Lemma deserialize_version_wf p :
  length p = kExpectedVersionPayloadSize → version_wf (deserialize_version p).
Proof.
  unfold kExpectedVersionPayloadSize. intros Hl. unfold version_wf, deserialize_version.
  cbn [protocol_version chain_height vi_timestamp listen_port node_id].
  assert (∀ i k, (i + k <= 30)%nat → in_u (8 * Z.of_nat k) (of_le (take k (drop i p)))) as Hf.
  { intros i k Hik. pose proof (of_le_range (take k (drop i p))) as Hr.
    rewrite length_take, length_drop in Hr. by replace (k `min` (length p - i))%nat with k in Hr by lia. }
  pose proof (Hf 0%nat 4%nat) as H0. rewrite drop_0 in H0.
  split_and!; [apply H0|apply (Hf 4%nat 8%nat)|apply (Hf 12%nat 8%nat)|apply (Hf 20%nat 2%nat)
    |apply (Hf 22%nat 8%nat)]; lia.
Qed.

(** ** Peer addresses *)

#[global, program] Instance peer_address_codec : Codec PeerAddress := {|
  encode := serialize_peer_address; decode := deserialize_peer_address; wire_wf := address_wf
|}.
Next Obligation.
  intros [h p] [Hp Hh]. apply run_exact_consumes. unfold serialize_peer_address.
  eapply consumes_bind; [by apply consumes_le|].
  eapply consumes_bind_nil; [by apply consumes_lbytes|]. apply consumes_ret.
Qed.
Next Obligation.
  intros payload a H.
  eapply (run_exact_produces _ (λ bs a, serialize_peer_address a = bs ∧ address_wf a)) in H;
    [done|].
  do 2 produce_field. apply produces_ret. rewrite app_nil_r. done.
Qed.

Definition addresses_wf (l : list PeerAddress) : Prop :=
  sz l < 2 ^ 32 ∧ Forall framed_wf l.

#[global, program] Instance peer_list_codec : Codec (list PeerAddress) := {|
  encode := serialize_peer_list; decode := deserialize_peer_list; wire_wf := addresses_wf
|}.
Next Obligation.
  intros l [Hn Hw]. apply run_exact_consumes. unfold serialize_peer_list, parse_peer_list.
  rewrite wrap_small by solve_width. eapply consumes_bind; [apply consumes_le; solve_width|].
  unfold sz. rewrite Nat2Z.id. apply consumes_times.
  eapply Forall_impl; [done|]. exact (@consumes_framed _ peer_address_codec).
Qed.
Next Obligation.
  intros payload l H.
  eapply (run_exact_produces _ (λ bs l, serialize_peer_list l = bs ∧ addresses_wf l)) in H;
    [done|].
  eapply produces_bind; [apply produces_le|]. intros b1 n [-> Hn].
  change (8 * Z.of_nat 4) with 32 in Hn.
  eapply produces_weaken; [exact (produces_times _ _ _ _ (@produces_framed _ peer_address_codec))|].
  intros bs l' (-> & Hl & Hw). assert (sz l' = n) as <- by solve_width.
  unfold serialize_peer_list. rewrite wrap_small by done. split; [done|].
  split; [solve_width|done].
Qed.

(** C36. The payloads of the protocol. The inventory, locator and peer-list decoders accept
    exactly the encodings of what their formats can carry, and return what was encoded:
    inventories of 32-byte hashes, locators of at most [kMaxLocatorHashes] hashes, peer lists
    whose ports and lengths fit their fields (as long as there is memory for the number of
    entries a list announces). No two payloads decode alike, no payload with bytes left over
    is accepted, and the copies that follow the single size comparison of the inventory never
    read outside the payload (they agree with the bounds-checked walk). A version whose fields
    have their ranges is read back as it was written. *)
Theorem payload_codecs_exact p items locator addresses :
  (deserialize_inventory p = Some items ↔ p = serialize_inventory items ∧ items_wf items) ∧
  deserialize_inventory p = run_exact parse_inventory p ∧
  (deserialize_getblocks p = Some locator ↔
    p = serialize_getblocks locator ∧ locator_wf locator) ∧
  (deserialize_peer_list p = Some addresses ↔
    p = serialize_peer_list addresses ∧ addresses_wf addresses) ∧
  (∀ info, version_wf info → deserialize_version (serialize_version info) = info).
Proof.
  split_and!; [..|exact deserialize_serialize_version].
  - apply (codec_exact (C := inventory_codec)).
  - apply deserialize_inventory_checked.
  - apply (codec_exact (C := locator_codec)).
  - apply (codec_exact (C := peer_list_codec)).
Qed.
End Wire.
