(* ===== verification/Message.v ===== *)
(** * Sockets, message framing and the handshake (src/network/Socket.cpp, Message.cpp,
    Handshake.cpp)

    A connected socket is what the kernel will answer: the results of the coming [recv]
    and [send] calls, and the bytes written so far. The two loops of Socket.cpp are run
    against any such answers, so the theorems hold for every way the stream is cut into
    segments, with interruptions in between. *)

From S2P Require Import Prelude Codec Wire.

(** One answer of [recv]: a segment of the stream of which the call takes what fits its
    buffer, a failure with [EINTR], [EAGAIN] or [EWOULDBLOCK], or any other failure. When
    the answers run out the peer has closed the stream and [recv] returns 0. *)
Inductive recv_event := Segment (data : bytes) | Retry | Fault.

Record Socket := mkSocket {
  inbound : list recv_event;
  outbound : bytes;
  send_results : list Z
}.

(** [type] is the command byte: the code casts any byte to the enumeration. *)
Record Message := mkMessage { type : byte; payload : bytes }.

Definition VERSION : byte := Byte.x00.
Definition MAGIC_BYTES : bytes := [Byte.x46; Byte.x52; Byte.x47; Byte.x43].
Definition HEADER_LENGTH : nat := 9.
Definition MAX_PAYLOAD_SIZE : Z := 16 * 1024 * 1024.

Module Msg.

(** ** Socket.cpp *)

(** [read_exact]: the bytes read and the answers left. *)
Fixpoint read_loop (events : list recv_event) (n : nat) : option bytes * list recv_event :=
  match n with
  | O => (Some [], events)
  | _ =>
      match events with
      | [] => (None, [])
      | Retry :: events => read_loop events n
      | Fault :: events => (None, events)
      | Segment [] :: events => (None, events)
      | Segment data :: events =>
          if (length data <=? n)%nat then
            let '(r, events) := read_loop events (n - length data) in
            (match r with Some rest => Some (data ++ rest) | None => None end, events)
          else (Some (take n data), Segment (drop n data) :: events)
      end
  end.

Definition read_exact (n : nat) (fd : Socket) : option bytes * Socket :=
  let '(r, events) := read_loop (inbound fd) n in
  (r, mkSocket events (outbound fd) (send_results fd)).

(** [send_exact]: whether everything went out, what did, and the answers left. A [send]
    takes at most what it is given. *)
Fixpoint send_loop (results : list Z) (buffer : bytes) : bool * bytes * list Z :=
  match buffer with
  | [] => (true, [], results)
  | _ =>
      match results with
      | [] => (false, [], [])
      | n :: results =>
          if n <=? 0 then (false, [], results) else
          let k := Nat.min (Z.to_nat n) (length buffer) in
          let '(ok, sent, results) := send_loop results (drop k buffer) in
          (ok, take k buffer ++ sent, results)
      end
  end.

Definition send_exact (buffer : bytes) (fd : Socket) : bool * Socket :=
  let '(ok, sent, results) := send_loop (send_results fd) buffer in
  (ok, mkSocket (inbound fd) (outbound fd ++ sent) results).

(** ** Message.cpp *)

Definition send_message (m : Message) (fd : Socket) : bool * Socket :=
  let payload_length := u32 (sz (payload m)) in
  if MAX_PAYLOAD_SIZE <? payload_length then (false, fd) else
  let header := MAGIC_BYTES ++ [type m] ++ le 4 payload_length in
  match send_exact header fd with
  | (false, fd) => (false, fd)
  | (true, fd) => send_exact (payload m) fd
  end.

Definition receive_message (fd : Socket) : option Message * Socket :=
  match read_exact HEADER_LENGTH fd with
  | (None, fd) => (None, fd)
  | (Some header, fd) =>
      if negb (bool_decide (take 4 header = MAGIC_BYTES)) then (None, fd) else
      let type := nth 4 header Byte.x00 in
      let length := of_le (take 4 (drop 5 header)) in
      if MAX_PAYLOAD_SIZE <? length then (None, fd) else
      match read_exact (Z.to_nat length) fd with
      | (None, fd) => (None, fd)
      | (Some payload, fd) => (Some (mkMessage type payload), fd)
      end
  end.

(** ** Handshake.cpp *)

Definition perform_handshake (info : VersionInfo) (fd : Socket) : option VersionInfo * Socket :=
  match send_message (mkMessage VERSION (Wire.serialize_version info)) fd with
  | (false, fd) => (None, fd)
  | (true, fd) =>
      match receive_message fd with
      | (None, fd) => (None, fd)
      | (Some m, fd) =>
          if negb (bool_decide (type m = VERSION)) then (None, fd) else
          if negb (length (payload m) =? kExpectedVersionPayloadSize)%nat then (None, fd) else
          (Some (Wire.deserialize_version (payload m)), fd)
      end
  end.

(** ** Specification: the stream *)

(** The bytes that will arrive before the stream closes or breaks. *)
Fixpoint stream (events : list recv_event) : bytes :=
  match events with
  | [] => []
  | Retry :: events => stream events
  | Fault :: _ => []
  | Segment [] :: _ => []
  | Segment data :: events => data ++ stream events
  end.

(** The bytes of a message on the stream. *)
Definition frame (m : Message) : bytes :=
  MAGIC_BYTES ++ [type m] ++ le 4 (sz (payload m)) ++ payload m.

Definition frame_wf (m : Message) : Prop := sz (payload m) <= MAX_PAYLOAD_SIZE.

#[global] Instance frame_wf_dec m : Decision (frame_wf m).
Proof. unfold frame_wf. apply _. Defined.

Lemma read_loop_spec events n :
  match read_loop events n with
  | (Some bs, events') => length bs = n ∧ stream events = bs ++ stream events'
  | (None, _) => (length (stream events) < n)%nat
  end.
Proof.
  revert n. induction events as [|e events IH]; intros [|n]; [done|simpl; lia|done|].
  destruct e as [[|b data]| |]; cbn [read_loop stream]; [simpl; lia| |apply IH|simpl; lia].
  case_bool.
  - specialize (IH (S n - length (b :: data))%nat).
    destruct (read_loop _ _) as [[rest|] events']; rewrite !length_app.
    + destruct IH as [Hl Hs]. split; [lia|]. by rewrite Hs, app_assoc.
    + lia.
  - split; [rewrite length_take; lia|].
    destruct (drop (S n) (b :: data)) as [|c rest] eqn:E.
    + apply (f_equal length) in E. rewrite length_drop in E. simpl in *. lia.
    + cbn [stream]. by rewrite <- E, app_assoc, take_drop.
Qed.

(** [read_exact] takes the next [n] bytes of the stream, however it is segmented. *)
Lemma read_loop_app events bs rest :
  stream events = bs ++ rest →
  ∃ events', read_loop events (length bs) = (Some bs, events') ∧ stream events' = rest.
Proof.
  intros Hs. pose proof (read_loop_spec events (length bs)) as H.
  destruct (read_loop events (length bs)) as [[bs'|] events'].
  - destruct H as [Hl H]. rewrite Hs in H. apply app_inj_1 in H as [-> ->]; [|done].
    by eexists.
  - rewrite Hs, length_app in H. lia.
Qed.

Lemma send_loop_spec results buffer :
  ∃ sent rest, (send_loop results buffer).1.2 = sent ∧ buffer = sent ++ rest ∧
    ((send_loop results buffer).1.1 = true ↔ rest = []).
Proof.
  revert buffer. induction results as [|n results IH]; intros [|b buffer].
  - by exists [], [].
  - exists [], (b :: buffer). done.
  - by exists [], [].
  - cbn [send_loop]. case_bool; [by exists [], (b :: buffer)|].
    set (k := Nat.min _ _). destruct (IH (drop k (b :: buffer))) as (sent & rest & Hs & Hb & Hok).
    destruct (send_loop results _) as [[ok sent'] results']. simpl in Hs, Hok |- *. subst sent'.
    exists (take k (b :: buffer) ++ sent), rest. split; [done|].
    rewrite <- app_assoc, <- Hb, take_drop. done.
Qed.

(** [send_exact] writes a prefix of its buffer, and all of it exactly when it succeeds. *)
Lemma send_exact_spec buffer fd ok fd' :
  send_exact buffer fd = (ok, fd') →
  inbound fd' = inbound fd ∧
  ∃ sent rest, buffer = sent ++ rest ∧ outbound fd' = outbound fd ++ sent ∧
    (ok = true ↔ rest = []).
Proof.
  unfold send_exact. destruct (send_loop_spec (send_results fd) buffer)
    as (sent & rest & Hs & Hb & Hok).
  destruct (send_loop _ _) as [[ok' sent'] results]. simpl in *. intros [= <- <-]. subst sent'.
  split; [done|]. by exists sent, rest.
Qed.

Lemma send_message_spec m fd fd' :
  sz (payload m) < 2 ^ 32 → send_message m fd = (true, fd') →
  frame_wf m ∧ inbound fd' = inbound fd ∧ outbound fd' = outbound fd ++ frame m.
Proof.
  intros Hm. unfold send_message, frame_wf. rewrite wrap_small by solve_width.
  case_bool; [done|].
  destruct (send_exact _ fd) as [[] fd1] eqn:E1; [|done]. intros E2.
  apply send_exact_spec in E1 as (Hi1 & s1 & r1 & Hb1 & Ho1 & Hr1).
  apply send_exact_spec in E2 as (Hi2 & s2 & r2 & Hb2 & Ho2 & Hr2).
  rewrite (proj1 Hr1 eq_refl), app_nil_r in Hb1. rewrite (proj1 Hr2 eq_refl), app_nil_r in Hb2.
  split; [done|]. split; [congruence|].
  rewrite Ho2, Ho1, <- Hb1, <- Hb2. unfold frame. by rewrite <- !app_assoc.
Qed.

(** The header as the decoder sees it. *)
Definition header_of (t : byte) (n : Z) : bytes := MAGIC_BYTES ++ [t] ++ le 4 n.

Lemma length_header_of t n : length (header_of t n) = HEADER_LENGTH.
Proof. unfold header_of. by rewrite !length_app, length_le_split. Qed.

Lemma header_fields t n :
  in_u 32 n →
  take 4 (header_of t n) = MAGIC_BYTES ∧ nth 4 (header_of t n) Byte.x00 = t ∧
  of_le (take 4 (drop 5 (header_of t n))) = n.
Proof.
  intros Hn. split; [done|]. split; [done|]. change (drop 5 (header_of t n)) with (le 4 n).
  rewrite take_ge by (by rewrite length_le_split). by apply of_le_le.
Qed.

Lemma header_of_fields h :
  length h = HEADER_LENGTH → take 4 h = MAGIC_BYTES →
  h = header_of (nth 4 h Byte.x00) (of_le (take 4 (drop 5 h))) ∧
  in_u 32 (of_le (take 4 (drop 5 h))).
Proof.
  intros Hl Hm. do 9 (destruct h as [|? h]; [done|]). destruct h; [|done].
  cbn [take drop nth]. split.
  - unfold header_of. rewrite split_le_combine' by done. by rewrite <- Hm.
  - apply of_le_range.
Qed.

Lemma frame_header m : frame m = header_of (type m) (sz (payload m)) ++ payload m.
Proof. unfold frame, header_of. by rewrite <- !app_assoc. Qed.

(** A stream that starts with a frame is received, and the rest of it stays. *)
Lemma receive_frame fd m rest :
  frame_wf m → stream (inbound fd) = frame m ++ rest →
  ∃ fd', receive_message fd = (Some m, fd') ∧ stream (inbound fd') = rest ∧
    outbound fd' = outbound fd.
Proof.
  intros Hm Hs. unfold frame_wf, MAX_PAYLOAD_SIZE in Hm.
  assert (in_u 32 (sz (payload m))) as Hu by solve_width.
  rewrite frame_header, <- app_assoc in Hs.
  apply read_loop_app in Hs as (ev1 & E1 & Hs). rewrite length_header_of in E1.
  apply read_loop_app in Hs as (ev2 & E2 & Hs).
  destruct (header_fields (type m) _ Hu) as (F1 & F2 & F3).
  unfold receive_message, read_exact. rewrite E1. cbn [inbound outbound send_results].
  rewrite F1, F2, F3, bool_decide_true by done. cbn [negb].
  unfold MAX_PAYLOAD_SIZE. case_bool; [lia|]. unfold sz. rewrite Nat2Z.id, E2.
  destruct m. eexists. split; [done|]. done.
Qed.

(** What was received was a frame at the head of the stream. *)
Lemma receive_message_sound fd m fd' :
  receive_message fd = (Some m, fd') →
  frame_wf m ∧ stream (inbound fd) = frame m ++ stream (inbound fd') ∧
  outbound fd' = outbound fd.
Proof.
  unfold receive_message, read_exact.
  pose proof (read_loop_spec (inbound fd) HEADER_LENGTH) as H1.
  destruct (read_loop (inbound fd) HEADER_LENGTH) as [[h|] ev1]; [|done].
  destruct H1 as [Hl Hs]. case_bool_decide as Hm; [|done]. cbn [negb inbound outbound send_results].
  destruct (header_of_fields h Hl Hm) as [Hh Hu]. set (n := of_le _) in *.
  case_bool; [done|].
  pose proof (read_loop_spec ev1 (Z.to_nat n)) as H2.
  destruct (read_loop ev1 (Z.to_nat n)) as [[p|] ev2]; [|done].
  destruct H2 as [Hp Hs2]. intros [= <- <-]. cbn [inbound outbound].
  assert (sz p = n) as Hn by solve_width.
  split; [unfold frame_wf; simpl; lia|]. split; [|done].
  rewrite frame_header. cbn [type payload]. by rewrite Hn, <- Hh, <- app_assoc, <- Hs2.
Qed.

(** Framing is exact on every segmentation of the stream: [receive_message] returns
    [m] exactly when the coming bytes start with the frame of [m] and [m]'s payload is at
    most [MAX_PAYLOAD_SIZE]; it then leaves the stream right behind that frame and writes
    nothing. In particular a bad magic, an oversized length and a stream that closes in
    the middle are all refused. *)
Theorem receive_message_exact fd m :
  ((∃ fd', receive_message fd = (Some m, fd')) ↔
   frame_wf m ∧ ∃ rest, stream (inbound fd) = frame m ++ rest) ∧
  (∀ fd', receive_message fd = (Some m, fd') →
   stream (inbound fd) = frame m ++ stream (inbound fd') ∧ outbound fd' = outbound fd).
Proof.
  split; [split|].
  - intros [fd' (Hw & Hs & _)%receive_message_sound]. eauto.
  - intros [Hw [rest Hs]]. destruct (receive_frame fd m rest Hw Hs) as (fd' & H & _). eauto.
  - by intros fd' (_ & Hs & Ho)%receive_message_sound.
Qed.

(** ** Sequences of messages *)

Fixpoint send_all (ms : list Message) (fd : Socket) : bool * Socket :=
  match ms with
  | [] => (true, fd)
  | m :: ms =>
      match send_message m fd with
      | (false, fd) => (false, fd)
      | (true, fd) => send_all ms fd
      end
  end.

Fixpoint receive_all (n : nat) (fd : Socket) : option (list Message) * Socket :=
  match n with
  | O => (Some [], fd)
  | S n =>
      match receive_message fd with
      | (None, fd) => (None, fd)
      | (Some m, fd) =>
          let '(r, fd) := receive_all n fd in
          (match r with Some ms => Some (m :: ms) | None => None end, fd)
      end
  end.

Lemma send_all_spec ms fd fd' :
  Forall (λ m, sz (payload m) < 2 ^ 32) ms → send_all ms fd = (true, fd') →
  Forall frame_wf ms ∧ outbound fd' = outbound fd ++ (ms ≫= frame).
Proof.
  intros Hms. revert fd. induction Hms as [|m ms Hm _ IH]; intros fd; simpl.
  { intros [= ->]. by rewrite app_nil_r. }
  destruct (send_message m fd) as [[] fd1] eqn:E; [|done].
  apply send_message_spec in E as (Hw & _ & Ho); [|done].
  intros [Hws Ho']%IH. split; [by constructor|]. by rewrite Ho', Ho, <- app_assoc.
Qed.

Lemma receive_all_frames ms fd rest :
  Forall frame_wf ms → stream (inbound fd) = (ms ≫= frame) ++ rest →
  ∃ fd', receive_all (length ms) fd = (Some ms, fd') ∧ stream (inbound fd') = rest.
Proof.
  intros Hms. revert fd. induction Hms as [|m ms Hm _ IH]; intros fd; cbn [mbind list_bind].
  { intros Hs. by exists fd. }
  rewrite <- app_assoc. intros Hs. destruct (receive_frame fd m _ Hm Hs) as (fd1 & E1 & Hs1 & _).
  destruct (IH fd1 Hs1) as (fd2 & E2 & Hs2). exists fd2. split; [|done].
  cbn [receive_all length]. by rewrite E1, E2.
Qed.

(** C31. Messages arrive as they were sent: when a node has sent a list of messages
    successfully, with whatever partial [send]s, a peer on whose socket those bytes arrive
    in whatever segments and with whatever interruptions reads the same messages in the
    same order, and nothing is left over. *)
Theorem messages_delivered ms sender sender' receiver :
  Forall (λ m, sz (payload m) < 2 ^ 32) ms →
  outbound sender = [] → send_all ms sender = (true, sender') →
  stream (inbound receiver) = outbound sender' →
  ∃ receiver', receive_all (length ms) receiver = (Some ms, receiver') ∧
    stream (inbound receiver') = [].
Proof.
  intros Hms Ho Hsend Hs. apply send_all_spec in Hsend as [Hw Ho']; [|done].
  rewrite Ho', Ho in Hs. simpl in Hs. apply receive_all_frames; [done|].
  by rewrite app_nil_r.
Qed.

(** Whether sending succeeds depends on the coming answers to [send] only. *)
Lemma send_message_answers m fd fd' :
  send_results fd' = send_results fd →
  (send_message m fd').1 = (send_message m fd).1 ∧
  send_results (send_message m fd').2 = send_results (send_message m fd).2.
Proof.
  intros E. unfold send_message, send_exact. case_bool; [done|]. rewrite E.
  destruct (send_loop (send_results fd) _) as [[[] sent] results]; [|done]. cbn [send_results].
  by destruct (send_loop results (payload m)) as [[]].
Qed.

Lemma send_all_answers ms fd fd' :
  send_results fd' = send_results fd → (send_all ms fd').1 = (send_all ms fd).1.
Proof.
  revert fd fd'. induction ms as [|m ms IH]; intros fd fd' E; [done|]. cbn [send_all].
  destruct (send_message_answers m fd fd' E) as [E1 E2].
  destruct (send_message m fd) as [ok fd1], (send_message m fd') as [ok' fd1']. simpl in E1, E2. subst ok'.
  destruct ok; [by apply IH|done].
Qed.

Lemma receive_answers fd : send_results (receive_message fd).2 = send_results fd.
Proof.
  unfold receive_message, read_exact. destruct (read_loop (inbound fd) HEADER_LENGTH) as [[h|] ev]; [|done].
  destruct (negb _); [done|]. case_bool; [done|]. cbn [inbound outbound send_results].
  by destruct (read_loop ev _) as [[]].
Qed.

Definition version_message (info : VersionInfo) : Message :=
  mkMessage VERSION (Wire.serialize_version info).

Lemma version_payload_size info : sz (payload (version_message info)) = 30.
Proof. cbn [version_message payload]. unfold sz. by rewrite Wire.length_serialize_version. Qed.

(** A handshake that succeeds read a 30-byte version message. *)
Lemma handshake_sound mine info fd fd' :
  perform_handshake mine fd = (Some info, fd') →
  ∃ p, length p = kExpectedVersionPayloadSize ∧ info = Wire.deserialize_version p ∧
    stream (inbound fd) = frame (mkMessage VERSION p) ++ stream (inbound fd').
Proof.
  unfold perform_handshake. destruct (send_message _ fd) as [[] fd1] eqn:E; [|done].
  apply (send_message_spec (version_message mine)) in E as (_ & Hi & _);
    [|by rewrite version_payload_size].
  destruct (receive_message fd1) as [[[t p]|] fd2] eqn:E2; [|done].
  case_bool_decide as Ht; [|done]. simpl in Ht. subst t.
  destruct (Nat.eqb_spec (length (payload (mkMessage VERSION p))) kExpectedVersionPayloadSize)
    as [Hl|]; [|done].
  cbn [negb]. intros [= <- <-]. exists p. split_and!; [done|done|].
  rewrite <- Hi. by apply receive_message_sound in E2 as (_ & ? & _).
Qed.
(** The handshake: a node that manages to send its own version writes exactly its
    version message and, when the peer's stream starts with the version message of
    [theirs], returns exactly [theirs] and leaves the rest of the stream; and whenever a
    handshake on this socket succeeds with any own version, what it returns is the decoding
    of a 30-byte version message at the head of the stream. *)
Theorem handshake_exchanges_versions mine theirs fd rest :
  Wire.version_wf theirs →
  stream (inbound fd) = frame (version_message theirs) ++ rest →
  (send_message (version_message mine) fd).1 = true →
  (∃ fd', perform_handshake mine fd = (Some theirs, fd') ∧ stream (inbound fd') = rest ∧
    outbound fd' = outbound fd ++ frame (version_message mine)) ∧
  (∀ own info fd', perform_handshake own fd = (Some info, fd') →
    ∃ p, length p = kExpectedVersionPayloadSize ∧ info = Wire.deserialize_version p ∧
      stream (inbound fd) = frame (mkMessage VERSION p) ++ stream (inbound fd')).
Proof.
  intros Hv Hs Hsend. split; [|intros; by eapply handshake_sound].
  unfold perform_handshake. change (mkMessage VERSION _) with (version_message mine).
  destruct (send_message _ fd) as [ok fd1] eqn:E. simpl in Hsend. subst ok.
  apply send_message_spec in E as (_ & Hi & Ho); [|by rewrite version_payload_size].
  rewrite <- Hi in Hs. apply receive_frame in Hs as (fd2 & E2 & Hs2 & Ho2).
  2: { unfold frame_wf. by rewrite version_payload_size. }
  rewrite E2, bool_decide_true by done. cbn [negb payload version_message].
  rewrite Wire.length_serialize_version. cbn [Nat.eqb kExpectedVersionPayloadSize negb].
  rewrite Wire.deserialize_serialize_version by done.
  exists fd2. split_and!; [done|done|congruence].
Qed.

(** ** Concrete connections *)

Definition demo_ping : Message := mkMessage Byte.x06 [].
Definition demo_inv : Message := mkMessage Byte.x01 [Byte.x00; Byte.x00; Byte.x00; Byte.x00].

(** A sender whose [send]s go out in pieces, and a receiver that sees other pieces. *)
Definition demo_sender : Socket := mkSocket [] [] [5; 100; 3; 9; 2; 7; 100].
Definition demo_receiver : Socket :=
  mkSocket [Segment (take 3 (frame demo_ping ++ frame demo_inv)); Retry;
            Segment (drop 3 (frame demo_ping ++ frame demo_inv)); Fault] [] [].

Lemma messages_delivered_witness :
  ∃ receiver', receive_all 2 demo_receiver = (Some [demo_ping; demo_inv], receiver') ∧
    stream (inbound receiver') = [].
Proof.
  apply (messages_delivered [demo_ping; demo_inv] demo_sender
           (send_all [demo_ping; demo_inv] demo_sender).2).
  - by repeat constructor.
  - done.
  - vm_compute. done.
  - vm_compute. done.
Defined.

Definition demo_version (h : Z) : VersionInfo := mkVersionInfo 1 h 1700000000 8333 77.

Definition demo_peer : Socket :=
  mkSocket [Retry; Segment (frame (version_message (demo_version 9)))] [] [4; 100; 100].

Lemma handshake_exchanges_versions_witness :
  (∃ fd', perform_handshake (demo_version 5) demo_peer = (Some (demo_version 9), fd') ∧
    stream (inbound fd') = [] ∧
    outbound fd' = outbound demo_peer ++ frame (version_message (demo_version 5))) ∧
  (∀ own info fd', perform_handshake own demo_peer = (Some info, fd') →
    ∃ p, length p = kExpectedVersionPayloadSize ∧ info = Wire.deserialize_version p ∧
      stream (inbound demo_peer) = frame (mkMessage VERSION p) ++ stream (inbound fd')).
Proof.
  apply (handshake_exchanges_versions (demo_version 5) (demo_version 9) demo_peer []).
  - unfold Wire.version_wf. by vm_compute.
  - vm_compute. done.
  - vm_compute. done.
Defined.
End Msg.
