(* ===== verification/AddressBook.v ===== *)
(** * The address book (src/network/AddressBook.cpp)

    The peers a node knows, which of them it is dialling, and when a failed one may be
    tried again. Each operation takes the lock for its whole body, so a run is a sequence
    of operations; the steady clock's reading is an argument. Times are in nanoseconds. *)

From S2P Require Import Prelude Wire.

(** [inet_pton(AF_INET, ...)]: the four octets of a dotted-quad address, when it is one. *)
Class Inet := { inet_pton : str → option (Z * Z * Z * Z) }.

Record AddressEntry := mkAddressEntry {
  address : PeerAddress;
  next_try : Z;
  failures : Z;
  succeeded : bool;
  in_progress : bool
}.

Record AddressInfo := mkAddressInfo { info_address : PeerAddress; verified : bool; info_failures : Z }.

Definition MAX_ENTRIES : nat := 1000.
Definition MAX_FAILURES : Z := 10.
Definition seconds (n : Z) : Z := n * 1000000000.
Definition BASE_BACKOFF : Z := seconds 5.
Definition MAX_BACKOFF : Z := seconds 600.

Module Ab.

Abbreviation book := (list AddressEntry).

Definition is_routable `{Inet} (peer_address : PeerAddress) : bool :=
  if bool_decide (host peer_address = []) || (port peer_address =? 0) then false else
  match inet_pton (c_str (host peer_address)) with
  | None => false
  | Some (o0, o1, _, _) =>
      if (o0 =? 0) || (o0 =? 127) then false else
      if (o0 =? 10) || ((o0 =? 172) && (16 <=? o1) && (o1 <=? 31)) || ((o0 =? 192) && (o1 =? 168))
      then false else
      if (o0 =? 169) && (o1 =? 254) then false else
      if 224 <=? o0 then false else true
  end.

(** [find]: the position of the entry a pointer is returned to. *)
Definition find (peer_address : PeerAddress) (b : book) : option nat :=
  fst <$> list_find (λ e, host peer_address = host (address e) ∧ port peer_address = port (address e)) b.

Definition add `{Inet} (peer_address : PeerAddress) (trusted : bool) (now : Z) (b : book) :
    bool * book :=
  if bool_decide (host peer_address = []) || (port peer_address =? 0) then (false, b) else
  if negb trusted && negb (is_routable peer_address) then (false, b) else
  if (MAX_ENTRIES <=? length b)%nat then (false, b) else
  match find peer_address b with
  | None => (true, b ++ [mkAddressEntry peer_address now 0 false false])
  | Some _ => (false, b)
  end.

(** The test of the selection loop. *)
Definition eligible (now : Z) (e : AddressEntry) : bool :=
  negb (in_progress e) && (failures e <? MAX_FAILURES) && (next_try e <=? now).

Definition set_in_progress (e : AddressEntry) : AddressEntry :=
  mkAddressEntry (address e) (next_try e) (failures e) (succeeded e) true.

Fixpoint select_candidate (now : Z) (b : book) : option PeerAddress * book :=
  match b with
  | [] => (None, [])
  | entry :: b =>
      if eligible now entry then (Some (address entry), set_in_progress entry :: b)
      else let '(r, b) := select_candidate now b in (r, entry :: b)
  end.

Definition on_success (now : Z) (e : AddressEntry) : AddressEntry :=
  mkAddressEntry (address e) (now + BASE_BACKOFF) 0 true false.

Definition backoff (failures : Z) : Z :=
  let shift := Z.min (failures - 1) 7 in
  Z.min (BASE_BACKOFF * Z.shiftl 1 shift) MAX_BACKOFF.

Definition on_failure (now : Z) (e : AddressEntry) : AddressEntry :=
  mkAddressEntry (address e) (now + backoff (failures e + 1)) (failures e + 1) (succeeded e) false.

Definition mark_success (peer_address : PeerAddress) (now : Z) (b : book) : book :=
  match find peer_address b with
  | None => b
  | Some i => alter (on_success now) i b
  end.

Definition mark_failure (peer_address : PeerAddress) (now : Z) (b : book) : book :=
  match find peer_address b with
  | None => b
  | Some i => alter (on_failure now) i b
  end.

Definition reachable `{Inet} (include_local : bool) (b : book) : list PeerAddress :=
  address <$> filter (λ e, succeeded e && (include_local || is_routable (address e))) b.

Definition snapshot (b : book) : list AddressInfo :=
  (λ e, mkAddressInfo (address e) (succeeded e) (failures e)) <$> b.

Definition size (b : book) : nat := length b.

(** ** Runs *)

(** The operations other threads may run between two observations; [spared] lists the
    addresses whose outcome is not reported in the meantime. *)
Inductive step `{Inet} (spared : list PeerAddress) : book → book → Prop :=
| step_add a trusted now b : step spared b (add a trusted now b).2
| step_select now b : step spared b (select_candidate now b).2
| step_success a now b : a ∉ spared → step spared b (mark_success a now b)
| step_failure a now b : a ∉ spared → step spared b (mark_failure a now b).

(** One operation, at the time [now]. *)
Inductive step_at `{Inet} (now : Z) : book → book → Prop :=
| at_add a trusted b : step_at now b (add a trusted now b).2
| at_select b : step_at now b (select_candidate now b).2
| at_success a b : step_at now b (mark_success a now b)
| at_failure a b : step_at now b (mark_failure a now b).

(** [a] is being dialled, or is not to be dialled before [until]. *)
Definition spent (until : Z) (a : PeerAddress) (b : book) : Prop :=
  ∃ e, e ∈ b ∧ address e = a ∧ (in_progress e = true ∨ until <= next_try e).

Definition entry_ok (e : AddressEntry) : Prop :=
  host (address e) ≠ [] ∧ port (address e) ≠ 0 ∧ 0 <= failures e.

Definition inv (b : book) : Prop :=
  NoDup (address <$> b) ∧ (length b <= MAX_ENTRIES)%nat ∧ Forall entry_ok b.

Lemma find_Some a b i :
  find a b = Some i → ∃ e, b !! i = Some e ∧ address e = a.
Proof.
  unfold find. rewrite fmap_Some. intros ([j e] & (Hl & [Hh Hp] & _)%list_find_Some & ->).
  exists e. split; [done|]. simpl in *. destruct a, (address e); simpl in *. congruence.
Qed.

Lemma find_None a b : find a b = None ↔ a ∉ address <$> b.
Proof.
  unfold find. rewrite fmap_None, list_find_None, Forall_forall, list_elem_of_fmap. split.
  - intros H (e & -> & He). by apply (H e).
  - intros H e He [Hh Hp]. apply H. exists e. split; [|done].
    destruct a, (address e); simpl in *. congruence.
Qed.

Lemma alter_address (f : AddressEntry → AddressEntry) (i : nat) (b : book) :
  (∀ e, address (f e) = address e) → address <$> alter f i b = address <$> b.
Proof.
  intros Hf. revert i. induction b as [|e b IH]; intros [|i]; simpl; [done..|by rewrite Hf|].
  f_equal. apply IH.
Qed.

Lemma elem_of_alter (f : AddressEntry → AddressEntry) (i : nat) (b : book) e :
  e ∈ alter f i b → e ∈ b ∨ ∃ e0, b !! i = Some e0 ∧ e = f e0.
Proof.
  intros [j Hj]%list_elem_of_lookup. destruct (decide (i = j)) as [<-|].
  - rewrite list_lookup_alter_eq in Hj. apply fmap_Some in Hj as (e0 & ? & ->). eauto.
  - rewrite list_lookup_alter_ne in Hj by done. left. by eapply list_elem_of_lookup_2.
Qed.

Lemma elem_of_alter_ne (f : AddressEntry → AddressEntry) (i : nat) (b : book) e e0 :
  b !! i = Some e0 → e0 ≠ e → e ∈ b → e ∈ alter f i b.
Proof.
  intros Hi Hne [j Hj]%list_elem_of_lookup. apply (list_elem_of_lookup_2 _ j).
  rewrite list_lookup_alter_ne; [done|]. intros ->. congruence.
Qed.

(** The two [mark_] operations change one entry in place. *)
Lemma mark_cases (f : AddressEntry → AddressEntry) a (b b' : book) :
  b' = match find a b with None => b | Some i => alter f i b end →
  (∀ e, address (f e) = address e) →
  address <$> b' = address <$> b ∧
  (∀ e, e ∈ b' → e ∈ b ∨ ∃ e0, e0 ∈ b ∧ address e0 = a ∧ e = f e0) ∧
  (∀ e, e ∈ b → address e ≠ a → e ∈ b').
Proof.
  intros -> Hf. destruct (find a b) as [i|] eqn:E; [|by auto].
  apply find_Some in E as (e0 & Hi & Ha). split_and!.
  - by apply alter_address.
  - intros e [?|(e1 & Hi' & ->)]%elem_of_alter; [by left|]. right.
    assert (e1 = e0) as -> by congruence. exists e0. split_and!; [|done..].
    by eapply list_elem_of_lookup_2.
  - intros e He Hne. eapply elem_of_alter_ne; [done| |done]. congruence.
Qed.

(** What [select_candidate] returns and what it does to the book. *)
Lemma select_cases now b :
  match select_candidate now b with
  | (None, b') => b' = b ∧ Forall (λ e, eligible now e = false) b
  | (Some a, b') =>
      ∃ pre e post, b = pre ++ e :: post ∧ b' = pre ++ set_in_progress e :: post ∧
        address e = a ∧ eligible now e = true ∧ Forall (λ e, eligible now e = false) pre
  end.
Proof.
  induction b as [|e b IH]; simpl; [done|].
  destruct (eligible now e) eqn:He; [by exists [], e, b|].
  destruct (select_candidate now b) as [[a|] b'].
  - destruct IH as (pre & e' & post & -> & -> & ? & ? & ?).
    exists (e :: pre), e', post. split_and!; try done. by constructor.
  - destruct IH as [-> ?]. split; [done|]. by constructor.
Qed.

Lemma select_addresses now b :
  address <$> (select_candidate now b).2 = address <$> b.
Proof.
  pose proof (select_cases now b) as H. destruct (select_candidate now b) as [[a|] b'].
  - destruct H as (pre & e & post & -> & -> & _). simpl. by rewrite !fmap_app.
  - by destruct H as [-> _].
Qed.

Section inet.
Context `{Inet}.

Lemma add_cases a trusted now b :
  let '(ok, b') := add a trusted now b in
  if ok then
    b' = b ++ [mkAddressEntry a now 0 false false] ∧ host a ≠ [] ∧ port a ≠ 0 ∧
    (trusted = false → is_routable a = true) ∧ (length b < MAX_ENTRIES)%nat ∧ a ∉ address <$> b
  else b' = b.
Proof.
  unfold add. destruct (bool_decide (host a = []) || (port a =? 0)) eqn:E1; [done|].
  destruct (negb trusted && negb (is_routable a)) eqn:E2; [done|].
  destruct (Nat.leb_spec MAX_ENTRIES (length b)); [done|].
  destruct (find a b) eqn:E3; [done|].
  apply orb_false_iff in E1 as [Hh Hp]. apply bool_decide_eq_false in Hh.
  apply Z.eqb_neq in Hp. apply find_None in E3. split_and!; try done.
  intros ->. by destruct (is_routable a).
Qed.

Lemma book_step_inv spared b b' : step spared b b' → inv b → inv b'.
Proof.
  intros Hs (Hnd & Hlen & Hok). destruct Hs as [a t now b|now b|a now b _|a now b _].
  - pose proof (add_cases a t now b) as Hc. destruct (add a t now b) as [[] b']; simpl;
      [|by subst].
    destruct Hc as (-> & Hh & Hp & _ & Hl & Hn). unfold inv.
    rewrite fmap_app, length_app, Forall_app, NoDup_app. simpl.
    split_and!; try done; [|apply NoDup_singleton|lia|by constructor].
    intros x Hx ->%list_elem_of_singleton. done.
  - split; [by rewrite select_addresses|].
    pose proof (select_cases now b) as Hc. destruct (select_candidate now b) as [[a|] b']; simpl.
    + destruct Hc as (pre & e & post & -> & -> & _).
      rewrite length_app in *. simpl in *. split; [done|].
      rewrite Forall_app, Forall_cons in *. tauto.
    + by destruct Hc as [-> _].
  - destruct (mark_cases (on_success now) a b (mark_success a now b) eq_refl) as (Ha & He & _); [done|].
    split; [by rewrite Ha|]. split; [by rewrite <- (length_fmap address), Ha, length_fmap|].
    rewrite Forall_forall in *. intros e [?|(e0 & He0 & _ & ->)]%He; [auto|].
    destruct (Hok e0 He0) as (? & ? & ?). by repeat split.
  - destruct (mark_cases (on_failure now) a b (mark_failure a now b) eq_refl) as (Ha & He & _); [done|].
    split; [by rewrite Ha|]. split; [by rewrite <- (length_fmap address), Ha, length_fmap|].
    rewrite Forall_forall in *. intros e [?|(e0 & He0 & _ & ->)]%He; [auto|].
    destruct (Hok e0 He0) as (? & ? & ?). repeat split; try done. simpl. lia.
Qed.

Lemma steps_inv spared b b' : rtc (step spared) b b' → inv b → inv b'.
Proof. induction 1; eauto using book_step_inv. Qed.

(** The entry of a spared address survives, with its failure count and retry time, and
    once in progress stays so. *)
Definition kept (a : PeerAddress) (t f : Z) (busy : bool) (b : book) : Prop :=
  ∃ e, e ∈ b ∧ address e = a ∧ next_try e = t ∧ failures e = f ∧
    (busy = true → in_progress e = true).

Lemma step_kept spared a t f busy b b' :
  step spared b b' → a ∈ spared → kept a t f busy b → kept a t f busy b'.
Proof.
  intros Hs Ha (e & He & Hea & Ht & Hf & Hb).
  destruct Hs as [x tr now b|now b|x now b Hx|x now b Hx].
  - pose proof (add_cases x tr now b) as Hc. destruct (add x tr now b) as [[] b']; simpl.
    + destruct Hc as (-> & _). exists e. split_and!; try done. apply elem_of_app. by left.
    + subst. by exists e.
  - pose proof (select_cases now b) as Hc. destruct (select_candidate now b) as [[y|] b']; simpl.
    + destruct Hc as (pre & e' & post & -> & -> & _).
      apply elem_of_app in He as [He|He]; [|apply elem_of_cons in He as [->|He]].
      * exists e. split_and!; try done. apply elem_of_app. by left.
      * exists (set_in_progress e'). split_and!; try done. apply elem_of_app. right. by left.
      * exists e. split_and!; try done. apply elem_of_app. right. by right.
    + destruct Hc as [-> _]. by exists e.
  - destruct (mark_cases (on_success now) x b (mark_success x now b) eq_refl) as (_ & _ & Hk); [done|].
    exists e. split_and!; try done. apply Hk; [done|]. congruence.
  - destruct (mark_cases (on_failure now) x b (mark_failure x now b) eq_refl) as (_ & _ & Hk); [done|].
    exists e. split_and!; try done. apply Hk; [done|]. congruence.
Qed.

Lemma steps_kept spared a t f busy b b' :
  rtc (step spared) b b' → a ∈ spared → kept a t f busy b → kept a t f busy b'.
Proof. induction 1; eauto using step_kept. Qed.

Lemma address_inj b e e' :
  NoDup (address <$> b) → e ∈ b → e' ∈ b → address e = address e' → e = e'.
Proof.
  intros Hnd [i Hi]%list_elem_of_lookup [j Hj]%list_elem_of_lookup Ha.
  assert (i = j) as ->; [|congruence].
  eapply (NoDup_lookup _ i j (address e) Hnd); rewrite list_lookup_fmap.
  - by rewrite Hi.
  - by rewrite Hj, Ha.
Qed.

(** A selected address was not in progress, had failures to spare and was due. *)
Lemma selected_eligible now a t f busy b :
  inv b → kept a t f busy b → (select_candidate now b).1 = Some a →
  busy = false ∧ f < MAX_FAILURES ∧ t <= now.
Proof.
  intros (Hnd & _) (e & He & Hea & <- & <- & Hb) Hs.
  pose proof (select_cases now b) as Hc. destruct (select_candidate now b) as [[y|] b']; [|done].
  simpl in Hs. injection Hs as ->. destruct Hc as (pre & e' & post & Hbk & _ & Ha' & Hel & _).
  assert (e = e') as <-.
  { eapply address_inj; [done|done| |congruence]. subst b. apply elem_of_app. right. by left. }
  unfold eligible in Hel. rewrite !andb_true_iff, negb_true_iff in Hel.
  destruct Hel as [[Hi Hf] Ht]. apply Z.ltb_lt in Hf. apply Z.leb_le in Ht.
  split_and!; [|done|done]. destruct busy; [|done]. rewrite Hb in Hi; done.
Qed.

(** C32. Every address book reachable from an empty one, whatever the interleaving of
    additions, selections and reported outcomes, holds at most 1000 entries, no address
    twice, and only entries with a host and a non-zero port. An address that was not
    vouched for is added only when it is routable, and gossip to a remote peer
    ([reachable false]) names only routable addresses that answered. *)
Theorem address_book_invariant b a now :
  rtc (step []) [] b →
  inv b ∧
  ((add a false now b).1 = true → is_routable a = true ∧ a ∉ address <$> b) ∧
  (∀ x, x ∈ reachable false b →
    is_routable x = true ∧ ∃ e, e ∈ b ∧ address e = x ∧ succeeded e = true).
Proof.
  intros Hr. split_and!.
  - eapply steps_inv; [done|]. unfold inv. simpl.
    split; [constructor|]. split; [unfold MAX_ENTRIES; lia|constructor].
  - pose proof (add_cases a false now b) as Hc. destruct (add a false now b) as [[] b']; [|done].
    destruct Hc as (_ & _ & _ & Hro & _ & Hn). auto.
  - intros x (e & -> & [Hp He]%list_elem_of_filter)%list_elem_of_fmap.
    apply Is_true_true, andb_true_iff in Hp as [Hsu Hro]. split; [done|]. by exists e.
Qed.

(** No peer is dialled twice at a time: once [select_candidate] has handed out an
    address, it does not hand it out again, at any time and whatever else happens to the
    book, until the outcome of that dial is reported. *)
Theorem no_double_dial b a now b1 b2 now' :
  inv b → select_candidate now b = (Some a, b1) → rtc (step [a]) b1 b2 →
  (select_candidate now' b2).1 ≠ Some a.
Proof.
  intros Hi Hs Hr Hs'. assert (inv b1) as Hi1.
  { replace b1 with (select_candidate now b).2 by (by rewrite Hs).
    eapply (book_step_inv []); [apply step_select|done]. }
  assert (∃ t f, kept a t f true b1) as (t & f & Hk).
  { pose proof (select_cases now b) as Hc. rewrite Hs in Hc.
    destruct Hc as (pre & e & post & -> & -> & Ha & _).
    exists (next_try e), (failures e), (set_in_progress e). split_and!; try done.
    apply elem_of_app. right. by left. }
  eapply steps_kept in Hk; [|done|by left].
  apply selected_eligible with (now := now') in Hk as [? _]; [done| |done]. by eapply steps_inv.
Qed.

(** ** Dialling within a window of time *)

Lemma step_at_step now b b' : step_at now b b' → step [] b b'.
Proof. destruct 1; constructor; apply not_elem_of_nil. Qed.

Lemma backoff_at_least f : 1 <= f → BASE_BACKOFF <= backoff f.
Proof.
  intros Hf. unfold backoff, BASE_BACKOFF, MAX_BACKOFF, seconds. rewrite Z.shiftl_1_l.
  assert (1 <= 2 ^ Z.min (f - 1) 7); [|lia]. pose proof (Z.pow_pos_nonneg 2 (Z.min (f - 1) 7)). lia.
Qed.

(** A reported outcome puts the next dial at least five seconds off. *)
Lemma mark_spent (f : AddressEntry → AddressEntry) x a until (b : book) :
  (∀ e, address (f e) = address e) → (∀ e, e ∈ b → until <= next_try (f e)) →
  spent until a b → spent until a (match find x b with None => b | Some i => alter f i b end).
Proof.
  intros Hf Hu (e & He & Ha & Hs). destruct (find x b) as [i|] eqn:E; [|by exists e].
  pose proof He as [j Hj]%list_elem_of_lookup. destruct (decide (i = j)) as [->|Hne].
  - exists (f e). split_and!; [|by rewrite Hf|right; by apply Hu].
    apply (list_elem_of_lookup_2 _ j). by rewrite list_lookup_alter_eq, Hj.
  - exists e. split_and!; [|done|done]. apply (list_elem_of_lookup_2 _ j). by rewrite list_lookup_alter_ne.
Qed.

Lemma step_at_spent now until a b b' :
  inv b → until <= now + BASE_BACKOFF → step_at now b b' → spent until a b → spent until a b'.
Proof.
  intros (_ & _ & Hok) Hu Hs. destruct Hs as [x tr b|b|x b|x b].
  - intros (e & He & Hes). pose proof (add_cases x tr now b) as Hc.
    destruct (add x tr now b) as [[] b']; simpl; [destruct Hc as (-> & _)|subst]; exists e; [|done].
    split; [|done]. apply elem_of_app. by left.
  - intros (e & He & Ha & Hs). pose proof (select_cases now b) as Hc.
    destruct (select_candidate now b) as [[y|] b']; simpl; [|destruct Hc as [-> _]; by exists e].
    destruct Hc as (pre & e' & post & -> & -> & _).
    apply elem_of_app in He as [He|[->|He]%elem_of_cons].
    + exists e. split; [apply elem_of_app; by left|done].
    + exists (set_in_progress e'). split_and!; [apply elem_of_app; right; by left|done|by left].
    + exists e. split; [apply elem_of_app; right; by right|done].
  - apply mark_spent; [done|]. intros e _. simpl. lia.
  - apply mark_spent; [done|]. intros e He. simpl. rewrite Forall_forall in Hok.
    destruct (Hok e He) as (_ & _ & Hf). pose proof (backoff_at_least (failures e + 1) ltac:(lia)). lia.
Qed.

(** Before [until], what is handed out was not spent, and is from then on. *)
Lemma select_spends now until a b b' :
  inv b → now < until → select_candidate now b = (Some a, b') → ¬ spent until a b ∧ spent until a b'.
Proof.
  intros (Hnd & _) Hu E. pose proof (select_cases now b) as Hc. rewrite E in Hc.
  destruct Hc as (pre & e & post & -> & -> & Ha & Hel & _). split.
  - intros (e' & He' & Ha' & Hs). assert (e' = e) as ->.
    { eapply address_inj; [done|done| |congruence]. apply elem_of_app. right. by left. }
    unfold eligible in Hel. rewrite !andb_true_iff, negb_true_iff in Hel.
    destruct Hel as [[Hi _] Ht%Z.leb_le]. destruct Hs as [?|?]; [congruence|lia].
  - exists (set_in_progress e). split_and!; [apply elem_of_app; right; by left|done|by left].
Qed.

Lemma spent_count until l b : NoDup l → Forall (λ a, spent until a b) l → (length l <= length b)%nat.
Proof.
  intros Hnd Hs. rewrite <- (length_fmap address b). apply submseteq_length, NoDup_submseteq; [done|].
  intros a Ha. rewrite Forall_forall in Hs. destruct (Hs a Ha) as (e & He & <- & _). by apply list_elem_of_fmap_2.
Qed.

Lemma backoff_value f :
  1 <= f → backoff f = seconds (Z.min (5 * 2 ^ Z.min (f - 1) 7) 600) ∧
  seconds 5 <= backoff f <= seconds 600.
Proof.
  intros Hf. unfold backoff, BASE_BACKOFF, MAX_BACKOFF, seconds.
  rewrite Z.shiftl_1_l. assert (1 <= 2 ^ Z.min (f - 1) 7); [|lia].
  pose proof (Z.pow_pos_nonneg 2 (Z.min (f - 1) 7)). lia.
Qed.

(** Failed peers back off: after the [n]-th failure in a row an address is not handed
    out for [5 * 2^(n-1)] seconds, capped at ten minutes, and after the tenth not at all,
    until some outcome for it is reported again. *)
Theorem failed_peer_backs_off b a e now b2 now' :
  inv b → e ∈ b → address e = a → rtc (step [a]) (mark_failure a now b) b2 →
  (select_candidate now' b2).1 = Some a →
  failures e + 1 < MAX_FAILURES ∧
  now + seconds (Z.min (5 * 2 ^ Z.min (failures e) 7) 600) <= now'.
Proof.
  intros Hi He Ha Hr Hs. assert (0 <= failures e) as Hf.
  { destruct Hi as (_ & _ & Hok). rewrite Forall_forall in Hok. by apply Hok. }
  assert (inv (mark_failure a now b)) as Hi1.
  { eapply (book_step_inv []); [apply step_failure, not_elem_of_nil|done]. }
  assert (kept a (now + backoff (failures e + 1)) (failures e + 1) false (mark_failure a now b))
    as Hk.
  { exists (on_failure now e). split_and!; try done. unfold mark_failure.
    destruct (find a b) as [i|] eqn:E.
    - apply find_Some in E as (e0 & Hi0 & Ha0).
      assert (e0 = e) as ->.
      { destruct Hi as (Hnd & _). eapply address_inj; [done| |done|congruence].
        by eapply list_elem_of_lookup_2. }
      apply (list_elem_of_lookup_2 _ i). by rewrite list_lookup_alter_eq, Hi0.
    - apply find_None in E. destruct E. subst a. by apply list_elem_of_fmap_2. }
  eapply steps_kept in Hk; [|done|by left].
  apply selected_eligible with (now := now') in Hk as (_ & Hlt & Ht); [|by eapply steps_inv|done].
  split; [done|]. rewrite (proj1 (backoff_value (failures e + 1) ltac:(lia))) in Ht.
  by replace (failures e + 1 - 1) with (failures e) in Ht by lia.
Qed.
End inet.

(** ** A concrete book *)

Section witnesses.

(** A resolver that knows one public address. *)
Definition demo_inet : Inet :=
  {| inet_pton h := if decide (h = lit "93.184.216.34") then Some (93, 184, 216, 34) else None |}.
#[local] Existing Instance demo_inet.

Definition demo_address : PeerAddress := mkPeerAddress (lit "93.184.216.34") 8333.
Definition demo_book : book := (add demo_address false 100 []).2.
Definition demo_retry : Z := 100 + seconds 5.

Lemma demo_book_inv : inv demo_book.
Proof. eapply (book_step_inv []); [apply step_add|]. by repeat constructor. Qed.

Lemma address_book_invariant_witness :
  inv demo_book ∧
  ((add demo_address false 200 demo_book).1 = true →
    is_routable demo_address = true ∧ demo_address ∉ address <$> demo_book) ∧
  (∀ x, x ∈ reachable false demo_book →
    is_routable x = true ∧ ∃ e, e ∈ demo_book ∧ address e = x ∧ succeeded e = true).
Proof. apply address_book_invariant. apply rtc_once, step_add. Defined.

Lemma no_double_dial_witness :
  (select_candidate demo_retry (select_candidate 100 demo_book).2).1 ≠ Some demo_address.
Proof.
  apply (no_double_dial demo_book demo_address 100 (select_candidate 100 demo_book).2).
  - exact demo_book_inv.
  - by vm_compute.
  - apply rtc_refl.
Defined.

Lemma failed_peer_backs_off_witness :
  0 + 1 < MAX_FAILURES ∧ 100 + seconds (Z.min (5 * 2 ^ Z.min 0 7) 600) <= demo_retry.
Proof.
  apply (failed_peer_backs_off demo_book demo_address
           (mkAddressEntry demo_address 100 0 false false) 100
           (mark_failure demo_address 100 demo_book)).
  - exact demo_book_inv.
  - vm_compute. left.
  - done.
  - apply rtc_refl.
  - by vm_compute.
Defined.
End witnesses.
End Ab.
