(* ===== verification/TcpSocket.v ===== *)
(** * Descriptors and their owners (src/network/TcpSocket.cpp)

    The kernel's descriptor table and the [TcpSocket] objects that own its entries. What the
    kernel answers to each call comes from a list; a call that hands out a descriptor hands
    out the lowest number not in use. Calls on a socket that only move bytes are in Message. *)

From S2P Require Import Prelude Text Crypto Wire AddressBook.

(** One answer of the kernel: the result, the error number when it is negative, and the value
    a call stores through a pointer. *)
Record answer := mkAnswer { res : Z; errno : Z; out : Z }.

Record descriptor := mkDescriptor {
  status_flags : Z;
  receive_timeout : Z;
  remote : option (Z * Z * Z * Z)
}.

(** [objects] are the live [TcpSocket] objects with their [fd_]; [bad_closes] counts the calls
    of [close] on a number that is not an open descriptor. *)
Record Os := mkOs {
  fds : gmap Z descriptor;
  objects : gmap nat Z;
  bad_closes : nat;
  answers : list answer
}.

Module Tcp.

Definition EINTR : Z := 4.
Definition EINPROGRESS : Z := 115.
Definition O_RDWR : Z := 2.
Definition O_NONBLOCK : Z := 2048.

Definition set_fds (f : gmap Z descriptor) (s : Os) : Os := mkOs f (objects s) (bad_closes s) (answers s).
Definition set_objects (o : gmap nat Z) (s : Os) : Os := mkOs (fds s) o (bad_closes s) (answers s).

(** ** The kernel *)

(** The lowest number that is not a descriptor. *)
Definition free_fd (f : gmap Z descriptor) : Z :=
  default 0 (head (filter (λ n, f !! n = None) (seqZ 0 (Z.of_nat (S (size f)))))).

(** The next answer; when there are no more, the call fails. *)
Definition ask : ST Os answer := λ s,
  match answers s with
  | [] => (Ok (mkAnswer (-1) 0 0), s)
  | a :: l => (Ok a, mkOs (fds s) (objects s) (bad_closes s) l)
  end.

Definition open_fd (d : descriptor) : ST Os Z := λ s,
  let n := free_fd (fds s) in (Ok n, set_fds (<[n := d]> (fds s)) s).

(** [socket] and [accept] *)
Definition sys_socket : ST Os Z :=
  a ← ask; if res a <? 0 then mret (-1) else open_fd (mkDescriptor O_RDWR 0 None).
Definition sys_accept (peer : option (Z * Z * Z * Z)) : ST Os Z :=
  a ← ask; if res a <? 0 then mret (-1) else open_fd (mkDescriptor O_RDWR 0 peer).

Definition sys_close (n : Z) : ST Os unit := st_modify (λ s,
  match fds s !! n with
  | Some _ => set_fds (delete n (fds s)) s
  | None => mkOs (fds s) (objects s) (S (bad_closes s)) (answers s)
  end).

(** [fcntl(fd, F_GETFL, 0)] and [fcntl(fd, F_SETFL, flags)] *)
Definition sys_getfl (n : Z) : ST Os Z :=
  a ← ask; s ← st_get;
  match fds s !! n with
  | Some d => if res a <? 0 then mret (-1) else mret (status_flags d)
  | None => mret (-1)
  end.
Definition sys_setfl (n flags : Z) : ST Os Z :=
  a ← ask;
  if res a <? 0 then mret (-1) else
  st_modify (λ s, set_fds (alter (λ d, mkDescriptor flags (receive_timeout d) (remote d)) n (fds s)) s);;
  mret 0.

(** ** Objects *)

(** [TcpSocket(int fd)] *)
Definition construct (id : nat) (fd : Z) : ST Os unit := st_modify (λ s, set_objects (<[id := fd]> (objects s)) s).

Definition fd (id : nat) (s : Os) : Z := default (-1) (objects s !! id).

Definition is_valid (id : nat) (s : Os) : bool := 0 <=? fd id s.

Definition close_socket (id : nat) : ST Os unit :=
  valid ← st_gets (is_valid id);
  if (valid : bool) then
    n ← st_gets (fd id);
    sys_close n;;
    construct id (-1)
  else mret tt.

(** The destructor: the object is gone afterwards. *)
Definition destroy (id : nat) : ST Os unit :=
  close_socket id;; st_modify (λ s, set_objects (delete id (objects s)) s).

(** The move constructor makes [id] from [other]. *)
Definition move_construct (id other : nat) : ST Os unit :=
  n ← st_gets (fd other); construct id n;; construct other (-1).

Definition move_assign (id other : nat) : ST Os unit :=
  if bool_decide (id = other) then mret tt else
  valid ← st_gets (is_valid id);
  (if (valid : bool) then n ← st_gets (fd id); sys_close n else mret tt);;
  n ← st_gets (fd other); construct id n;; construct other (-1).

Definition set_receive_timeout (id : nat) (seconds : Z) : ST Os unit :=
  n ← st_gets (fd id);
  st_modify (λ s, set_fds (alter (λ d, mkDescriptor (status_flags d) seconds (remote d)) n (fds s)) s).

(** ** Making connections *)

(** [close(fd); return TcpSocket{-1};] *)
Definition give_up_on (id : nat) (n : Z) : ST Os unit := sys_close n;; construct id (-1).

(** Each function makes the object [id] it returns. *)
Definition listen_on (id : nat) : ST Os unit :=
  n ← sys_socket;
  if n <? 0 then construct id (-1) else
  _ ← ask;
  bound ← ask;
  if res bound <? 0 then give_up_on id n else
  listening ← ask;
  if res listening <? 0 then give_up_on id n else construct id n.

Definition accept_connection (id : nat) (peer : option (Z * Z * Z * Z)) : ST Os unit :=
  n ← sys_accept peer;
  if n <? 0 then construct id (-1) else construct id n.

(** [do ready = poll(...); while (ready < 0 && errno == EINTR)]: the answers taken are gone. *)
Fixpoint poll_answers (l : list answer) : answer * list answer :=
  match l with
  | [] => (mkAnswer (-1) 0 0, [])
  | a :: l => if (res a <? 0) && (errno a =? EINTR) then poll_answers l else (a, l)
  end.

Definition poll_loop : ST Os answer := λ s,
  let '(a, l) := poll_answers (answers s) in (Ok a, mkOs (fds s) (objects s) (bad_closes s) l).

(** The connection is there: the descriptor has a peer. *)
Definition connected_to (n : Z) (address : Z * Z * Z * Z) : ST Os bool :=
  st_modify (λ s, set_fds (alter (λ d, mkDescriptor (status_flags d) (receive_timeout d) (Some address)) n (fds s)) s);;
  mret true.

(** [connect] and the wait for it: whether the connection was established. *)
Definition finish_connect (n : Z) (address : Z * Z * Z * Z) : ST Os bool :=
  connected ← ask;
  if negb (res connected <? 0) then connected_to n address else
  if negb (errno connected =? EINPROGRESS) then mret false else
  ready ← poll_loop;
  if res ready <=? 0 then mret false else
  option ← ask;
  if (res option <? 0) || negb (out option =? 0) then mret false else connected_to n address.

Definition connect_to `{Inet} (id : nat) (host : str) : ST Os unit :=
  match inet_pton (c_str host) with
  | None => construct id (-1)
  | Some address =>
      n ← sys_socket;
      if n <? 0 then construct id (-1) else
      flags ← sys_getfl n;
      if flags <? 0 then give_up_on id n else
      set ← sys_setfl n (Z.lor flags O_NONBLOCK);
      if set <? 0 then give_up_on id n else
      established ← finish_connect n address;
      if negb established then give_up_on id n else
      reset ← sys_setfl n flags;
      if reset <? 0 then give_up_on id n else construct id n
  end.

(** [inet_ntop] for IPv4 *)
Definition inet_ntop (a : Z * Z * Z * Z) : str :=
  let '(a, b, c, d) := a in
  Text.to_string a ++ lit "." ++ Text.to_string b ++ lit "." ++ Text.to_string c ++ lit "." ++ Text.to_string d.

Definition get_peer_ip (n : Z) (s : Os) : option str :=
  if n <? 0 then None else
  match fds s !! n with
  | Some d => inet_ntop <$> remote d
  | None => None
  end.

(** ** Descriptors handed out *)

Lemma free_fd_spec f : f !! free_fd f = None ∧ 0 <= free_fd f.
Proof.
  unfold free_fd. set (l := seqZ 0 (Z.of_nat (S (size f)))).
  destruct (filter (λ n, f !! n = None) l) as [|n l'] eqn:E.
  - exfalso. assert (list_to_set l ⊆ dom f) as Hs.
    { intros n Hn%elem_of_list_to_set. apply elem_of_dom. destruct (f !! n) eqn:Ef; [done|].
      assert (n ∈ filter (λ n, f !! n = None) l) as Hin by by apply list_elem_of_filter.
      rewrite E in Hin. by apply not_elem_of_nil in Hin. }
    apply subseteq_size in Hs. rewrite size_list_to_set, size_dom in Hs by apply NoDup_seqZ.
    unfold l in Hs. rewrite length_seqZ, Nat2Z.id in Hs. lia.
  - assert (n ∈ filter (λ n, f !! n = None) l) as Hin by (rewrite E; left).
    apply list_elem_of_filter in Hin as [Hf Hl]. apply elem_of_seqZ in Hl. simpl. split; [done|lia].
Qed.

(** What a function that makes a socket does: it makes an object that owns a descriptor that
    was not open before, or an invalid one, and nothing else is opened or closed. *)
Inductive made (id : nat) (s s' : Os) : Prop :=
| made_invalid :
    fds s' = fds s → objects s' = <[id := -1]> (objects s) → bad_closes s' = bad_closes s → made id s s'
| made_valid n d :
    0 <= n → fds s !! n = None → fds s' = <[n := d]> (fds s) → objects s' = <[id := n]> (objects s) →
    bad_closes s' = bad_closes s → status_flags d = O_RDWR → made id s s'.

(** The state while the function still holds [n]. *)
Definition holding (s s' : Os) (n : Z) (d : descriptor) : Prop :=
  0 <= n ∧ fds s !! n = None ∧ fds s' = <[n := d]> (fds s) ∧ objects s' = objects s ∧ bad_closes s' = bad_closes s.

(** Calls that only take an answer. *)
Lemma ask_holding s s' n d : holding s s' n d → ∃ a s'', ask s' = (Ok a, s'') ∧ holding s s'' n d.
Proof.
  intros Hh. unfold ask. destruct (answers s') as [|a l]; eexists _, _; (split; [reflexivity|exact Hh]).
Qed.

Lemma sys_close_open s n d : fds s !! n = Some d → sys_close n s = (Ok tt, set_fds (delete n (fds s)) s).
Proof. intros E. unfold sys_close, st_modify. by rewrite E. Qed.

Lemma give_up_holding id s s' n d : holding s s' n d → ∃ s'', give_up_on id n s' = (Ok tt, s'') ∧ made id s s''.
Proof.
  intros (H0 & Hf & Ef & Eo & Eb). eexists. unfold give_up_on.
  rewrite (ST_bind_eq _ _ _ _ _ (sys_close_open s' n d ltac:(by rewrite Ef, lookup_insert_eq))).
  split; [reflexivity|]. apply made_invalid; cbn; [by rewrite Ef, delete_insert_id|by rewrite Eo|done].
Qed.

Lemma keep_holding id s s' n d :
  holding s s' n d → status_flags d = O_RDWR → ∃ s'', construct id n s' = (Ok tt, s'') ∧ made id s s''.
Proof.
  intros (H0 & Hf & Ef & Eo & Eb) Hd. eexists. split; [reflexivity|].
  apply (made_valid id s _ n d); cbn; [done|done|done|by rewrite Eo|done|done].
Qed.

(** A new descriptor, or none. *)
Lemma open_fd_holding s s1 d :
  fds s1 = fds s → objects s1 = objects s → bad_closes s1 = bad_closes s →
  ∃ n s2, open_fd d s1 = (Ok n, s2) ∧ holding s s2 n d.
Proof.
  intros Ef Eo Eb. eexists _, _. split; [reflexivity|]. destruct (free_fd_spec (fds s1)) as [Hn H0].
  rewrite Ef in Hn, H0. unfold holding. cbn. by rewrite Ef.
Qed.

Lemma opens_holding peer s :
  ∃ n s', (a ← ask; if res a <? 0 then mret (-1) else open_fd (mkDescriptor O_RDWR 0 peer)) s = (Ok n, s') ∧
    (n = -1 ∧ fds s' = fds s ∧ objects s' = objects s ∧ bad_closes s' = bad_closes s ∨
     holding s s' n (mkDescriptor O_RDWR 0 peer)).
Proof.
  assert (∃ a s1, ask s = (Ok a, s1) ∧ fds s1 = fds s ∧ objects s1 = objects s ∧ bad_closes s1 = bad_closes s)
    as (a & s1 & Ea & Ef & Eo & Eb).
  { unfold ask. destruct (answers s); by eexists _, _. }
  rewrite (ST_bind_eq _ _ _ _ _ Ea). destruct (res a <? 0).
  - exists (-1), s1. split; [done|]. by left.
  - destruct (open_fd_holding s s1 (mkDescriptor O_RDWR 0 peer) Ef Eo Eb) as (n & s2 & E & Hh).
    exists n, s2. split; [exact E|]. by right.
Qed.

(** The three ways to go on with the result of [socket] or [accept]. *)
Lemma opened_cases id n s s' peer (k : ST Os unit) :
  (n = -1 ∧ fds s' = fds s ∧ objects s' = objects s ∧ bad_closes s' = bad_closes s ∨
   holding s s' n (mkDescriptor O_RDWR 0 peer)) →
  (holding s s' n (mkDescriptor O_RDWR 0 peer) → ∃ s'', k s' = (Ok tt, s'') ∧ made id s s'') →
  ∃ s'', (if n <? 0 then construct id (-1) else k) s' = (Ok tt, s'') ∧ made id s s''.
Proof.
  intros [(-> & Ef & Eo & Eb)|Hh] Hk.
  - eexists. split; [reflexivity|]. apply made_invalid; cbn; by rewrite ?Eo.
  - rewrite (proj2 (Z.ltb_ge _ _)) by apply Hh. by apply Hk.
Qed.

Lemma listen_on_made id s : ∃ s', listen_on id s = (Ok tt, s') ∧ made id s s'.
Proof.
  unfold listen_on, sys_socket. destruct (opens_holding None s) as (n & s1 & E & Hc).
  rewrite (ST_bind_eq _ _ _ _ _ E). eapply opened_cases; [exact Hc|]. intros Hh.
  destruct (ask_holding _ _ _ _ Hh) as (a1 & s2 & E1 & H1). rewrite (ST_bind_eq _ _ _ _ _ E1).
  destruct (ask_holding _ _ _ _ H1) as (a2 & s3 & E2 & H2). rewrite (ST_bind_eq _ _ _ _ _ E2).
  destruct (res a2 <? 0); [by eapply give_up_holding|].
  destruct (ask_holding _ _ _ _ H2) as (a3 & s4 & E3 & H3). rewrite (ST_bind_eq _ _ _ _ _ E3).
  destruct (res a3 <? 0); [by eapply give_up_holding|by eapply keep_holding].
Qed.

Lemma accept_made id peer s : ∃ s', accept_connection id peer s = (Ok tt, s') ∧ made id s s'.
Proof.
  unfold accept_connection, sys_accept. destruct (opens_holding peer s) as (n & s1 & E & Hc).
  rewrite (ST_bind_eq _ _ _ _ _ E). eapply opened_cases; [exact Hc|]. intros Hh. by eapply keep_holding.
Qed.

(** Changing what is recorded of the descriptor held. *)
Lemma alter_holding g s s' n d :
  holding s s' n d → holding s (set_fds (alter g n (fds s')) s') n (g d).
Proof.
  intros (H0 & Hf & Ef & Eo & Eb). split_and!; [done|done| |done|done]. cbn. by rewrite Ef, alter_insert_eq.
Qed.

Lemma getfl_holding s s' n d :
  holding s s' n d → ∃ flags s'', sys_getfl n s' = (Ok flags, s'') ∧ holding s s'' n d ∧
    (flags < 0 ∨ flags = status_flags d).
Proof.
  intros Hh. unfold sys_getfl. destruct (ask_holding _ _ _ _ Hh) as (a & s2 & E & H2).
  rewrite (ST_bind_eq _ _ _ _ _ E), (ST_bind_eq _ _ s2 s2 s2) by done.
  pose proof H2 as (_ & _ & -> & _). rewrite lookup_insert_eq.
  destruct (res a <? 0); eexists _, _; (split; [reflexivity|]); split; [done|lia|done|by right].
Qed.

Lemma setfl_holding flags s s' n d :
  holding s s' n d → ∃ r s'', sys_setfl n flags s' = (Ok r, s'') ∧
    (r < 0 ∧ holding s s'' n d ∨
     r = 0 ∧ holding s s'' n (mkDescriptor flags (receive_timeout d) (remote d))).
Proof.
  intros Hh. unfold sys_setfl. destruct (ask_holding _ _ _ _ Hh) as (a & s2 & E & H2).
  rewrite (ST_bind_eq _ _ _ _ _ E). destruct (res a <? 0); eexists _, _; (split; [reflexivity|]).
  - left. split; [lia|done].
  - right. split; [done|]. by apply (alter_holding (λ d, mkDescriptor flags (receive_timeout d) (remote d))).
Qed.

Lemma finish_holding address s s' n d :
  holding s s' n d → ∃ r s'' d', finish_connect n address s' = (Ok r, s'') ∧ holding s s'' n d' ∧
    (r = true → remote d' = Some address).
Proof.
  intros Hh. unfold finish_connect. destruct (ask_holding _ _ _ _ Hh) as (a & s2 & E & H2).
  rewrite (ST_bind_eq _ _ _ _ _ E).
  set (g := λ d, mkDescriptor (status_flags d) (receive_timeout d) (Some address)).
  destruct (negb (res a <? 0)).
  { eexists _, _, (g d). split; [reflexivity|]. split; [by apply alter_holding|done]. }
  destruct (negb (errno a =? EINPROGRESS)); [by eexists _, _, d|].
  assert (∃ a2 s3, poll_loop s2 = (Ok a2, s3) ∧ holding s s3 n d) as (a2 & s3 & E2 & H3).
  { unfold poll_loop. destruct (poll_answers (answers s2)) as [a2 l]. eexists _, _. split; [reflexivity|exact H2]. }
  rewrite (ST_bind_eq _ _ _ _ _ E2). destruct (res a2 <=? 0); [by eexists _, _, d|].
  destruct (ask_holding _ _ _ _ H3) as (a3 & s4 & E3 & H4). rewrite (ST_bind_eq _ _ _ _ _ E3).
  destruct (_ || _); [by eexists _, _, d|].
  eexists _, _, (g d). split; [reflexivity|]. split; [by apply alter_holding|done].
Qed.

Lemma connect_to_made `{Inet} id host s : ∃ s', connect_to id host s = (Ok tt, s') ∧ made id s s'.
Proof.
  unfold connect_to. destruct (inet_pton (c_str host)) as [address|].
  2: { eexists. split; [reflexivity|]. by apply made_invalid. }
  unfold sys_socket. destruct (opens_holding None s) as (n & s1 & E & Hc).
  rewrite (ST_bind_eq _ _ _ _ _ E). eapply opened_cases; [exact Hc|]. intros Hh.
  destruct (getfl_holding _ _ _ _ Hh) as (flags & s2 & E2 & H2 & Hflags). rewrite (ST_bind_eq _ _ _ _ _ E2).
  destruct (flags <? 0) eqn:Ef; [by eapply give_up_holding|].
  destruct Hflags as [? | ->]; [lia|]. cbn [status_flags].
  destruct (setfl_holding (Z.lor O_RDWR O_NONBLOCK) _ _ _ _ H2) as (r & s3 & E3 & [(Hr & H3)|(-> & H3)]);
    rewrite (ST_bind_eq _ _ _ _ _ E3).
  { rewrite (proj2 (Z.ltb_lt _ _) Hr). by eapply give_up_holding. }
  cbn [Z.ltb Z.compare]. destruct (finish_holding address _ _ _ _ H3) as (est & s4 & d & E4 & H4 & _).
  rewrite (ST_bind_eq _ _ _ _ _ E4). destruct est; cbn [negb]; [|by eapply give_up_holding].
  destruct (setfl_holding O_RDWR _ _ _ _ H4) as (r & s5 & E5 & [(Hr & H5)|(-> & H5)]);
    rewrite (ST_bind_eq _ _ _ _ _ E5).
  - rewrite (proj2 (Z.ltb_lt _ _) Hr). by eapply give_up_holding.
  - cbn [Z.ltb Z.compare]. by eapply keep_holding.
Qed.

(** ** Ownership *)
Section ownership.
Context `{Inet} (base : gset Z).

(** Every open descriptor belongs to one object or to the rest of the program ([base]), every
    valid object has an open descriptor, and nothing was closed twice. *)
Record owned (s : Os) : Prop := {
  ow_base n : n ∈ base → is_Some (fds s !! n);
  ow_open id n : objects s !! id = Some n → 0 <= n → is_Some (fds s !! n) ∧ n ∉ base;
  ow_unique id id' n : objects s !! id = Some n → objects s !! id' = Some n → 0 <= n → id = id';
  ow_owner n : is_Some (fds s !! n) → n ∈ base ∨ ∃ id, objects s !! id = Some n ∧ 0 <= n;
  ow_closes : bad_closes s = 0%nat
}.

(** What the program may do with its objects: make one that does not exist, use or destroy
    one that does. *)
Inductive socket_step : Os → Os → Prop :=
| do_listen id s s' : objects s !! id = None → listen_on id s = (Ok tt, s') → socket_step s s'
| do_accept id peer s s' :
    objects s !! id = None → accept_connection id peer s = (Ok tt, s') → socket_step s s'
| do_connect id host s s' : objects s !! id = None → connect_to id host s = (Ok tt, s') → socket_step s s'
| do_move id other s s' :
    objects s !! id = None → is_Some (objects s !! other) → move_construct id other s = (Ok tt, s') → socket_step s s'
| do_assign id other s s' :
    is_Some (objects s !! id) → is_Some (objects s !! other) → move_assign id other s = (Ok tt, s') → socket_step s s'
| do_close id s s' : is_Some (objects s !! id) → close_socket id s = (Ok tt, s') → socket_step s s'
| do_destroy id s s' : is_Some (objects s !! id) → destroy id s = (Ok tt, s') → socket_step s s'
| do_timeout id seconds s s' :
    is_Some (objects s !! id) → set_receive_timeout id seconds s = (Ok tt, s') → socket_step s s'.

Lemma made_owned id s s' : owned s → objects s !! id = None → made id s s' → owned s'.
Proof.
  intros [Hb Ho Hu Hw Hc] Hid [Ef Eo Eb|n d H0 Hf Ef Eo Eb _]; split; rewrite ?Ef, ?Eo, ?Eb; try done.
  - intros id' m. rewrite lookup_insert. case_decide; [intros [= <-]; lia|]. apply Ho.
  - intros i j m. rewrite !lookup_insert. repeat case_decide; try (intros; simplify_eq; lia). apply Hu.
  - intros m [?|(i & Hi & Hm)]%Hw; [by left|]. right. exists i. rewrite lookup_insert_ne by congruence. done.
  - intros m Hm. rewrite lookup_insert. case_decide; [done|by apply Hb].
  - intros i m. rewrite !lookup_insert. case_decide as Ei.
    + intros [= <-] _. split; [rewrite decide_True by done; done|]. intros Hin%Hb. rewrite Hf in Hin. by destruct Hin.
    + intros Hi Hm. destruct (Ho i m Hi Hm) as [Hs Hn]. split; [case_decide; done|done].
  - intros i j m. rewrite !lookup_insert. repeat case_decide; subst; try done; [..|apply Hu].
    + intros [= <-] Hj Hm. destruct (Ho j n Hj Hm) as [[? E] _]. congruence.
    + intros Hj [= <-] Hm. destruct (Ho i n Hj Hm) as [[? E] _]. congruence.
  - intros m. rewrite lookup_insert. case_decide as Em; [subst m; right; exists id; by rewrite lookup_insert_eq|].
    intros [?|(i & Hi & Hm)]%Hw; [by left|]. right. exists i. rewrite lookup_insert_ne by congruence. done.
Qed.

(** [id] lets go of its descriptor, which is closed. *)
Lemma release_owned id n s o :
  owned s → objects s !! id = Some n → 0 <= n →
  (∀ j, j ≠ id → o !! j = objects s !! j) → (∀ m, o !! id = Some m → m < 0) →
  owned (set_objects o (set_fds (delete n (fds s)) s)).
Proof.
  intros [Hb Ho Hu Hw Hc] Hid H0 Eo Hneg.
  assert (∀ j m, o !! j = Some m → 0 <= m → j ≠ id ∧ objects s !! j = Some m) as Hold.
  { intros j m Hj Hm. destruct (decide (j = id)) as [->|Hne]; [apply Hneg in Hj; lia|]. by rewrite <- Eo. }
  split; cbn.
  - intros m Hm. rewrite lookup_delete_ne; [by apply Hb|]. intros ->. by destruct (Ho id m Hid H0).
  - intros j m Hj Hm. destruct (Hold j m Hj Hm) as [Hne Hj'].
    rewrite lookup_delete_ne; [by eapply Ho|]. intros ->. by destruct (Hu id j m Hid Hj' H0).
  - intros i j m Hi Hj Hm. apply (Hu i j m); [by apply Hold..|done].
  - intros m [d [Hne Hd]%lookup_delete_Some]. destruct (Hw m ltac:(by eexists)) as [?|(j & Hj & Hm)]; [by left|].
    right. exists j. split; [|done]. rewrite Eo; [done|]. intros ->. congruence.
  - done.
Qed.

(** [id] takes the descriptor [other] had; neither had another one. *)
Lemma transfer_owned id other m s :
  owned s → objects s !! other = Some m → id ≠ other → (∀ n, objects s !! id = Some n → n < 0) →
  owned (set_objects (<[other := -1]> (<[id := m]> (objects s))) s).
Proof.
  intros [Hb Ho Hu Hw Hc] Hm Hne Hid.
  assert (∀ j k, <[other := -1]> (<[id := m]> (objects s)) !! j = Some k → 0 <= k →
    ∃ j', objects s !! j' = Some k ∧ (j = id ∧ j' = other ∨ j ≠ id ∧ j ≠ other ∧ j' = j)) as Hold.
  { intros j k. rewrite !lookup_insert. repeat case_decide; subst; intros Hj Hk; [simplify_eq; lia| |].
    - injection Hj as ->. exists other. split; [done|]. by left.
    - exists j. split; [done|]. by right. }
  split; cbn; try done.
  - intros j k Hj Hk. destruct (Hold j k Hj Hk) as (j' & Hj' & _). by eapply Ho.
  - intros i j k Hi Hj Hk. destruct (Hold i k Hi Hk) as (i' & Hi' & Ci), (Hold j k Hj Hk) as (j' & Hj' & Cj).
    pose proof (Hu i' j' k Hi' Hj' Hk). subst i'. naive_solver.
  - intros k Hk. destruct (Hw k Hk) as [?|(j & Hj & Hk')]; [by left|]. right.
    destruct (decide (j = other)) as [->|Hjo].
    + exists id. rewrite lookup_insert_ne, lookup_insert_eq by done. split; [congruence|done].
    + exists j. rewrite !lookup_insert_ne; [done| |done]. intros ->. apply Hid in Hj. lia.
Qed.

Lemma owned_set_timeout n g s : owned s → owned (set_fds (alter g n (fds s)) s).
Proof.
  intros [Hb Ho Hu Hw Hc].
  assert (∀ m, is_Some (alter g n (fds s) !! m) ↔ is_Some (fds s !! m)) as E.
  { intros m. destruct (decide (n = m)) as [->|]; [rewrite lookup_alter_eq|by rewrite lookup_alter_ne].
    destruct (fds s !! m); split; intros [? ?]; by eexists || done. }
  split; cbn; try done; setoid_rewrite E; done.
Qed.

Lemma forget_owned id n s :
  owned s → objects s !! id = Some n → n < 0 → owned (set_objects (delete id (objects s)) s).
Proof.
  intros [Hb Ho Hu Hw Hc] Hid Hn. split; cbn; try done.
  - intros j m [_ Hj]%lookup_delete_Some. by apply Ho with j.
  - intros i j m [_ Hi]%lookup_delete_Some [_ Hj]%lookup_delete_Some. by apply Hu.
  - intros m [?|(j & Hj & Hm)]%Hw; [by left|]. right. exists j. rewrite lookup_delete_ne; [done|]. intros ->.
    simplify_eq. lia.
Qed.

Definition closed (id : nat) (n : Z) (s : Os) : Os :=
  if 0 <=? n then set_objects (<[id := -1]> (objects s)) (set_fds (delete n (fds s)) s) else s.

Lemma closed_owned id n s :
  owned s → objects s !! id = Some n → owned (closed id n s) ∧ ∃ m, objects (closed id n s) !! id = Some m ∧ m < 0.
Proof.
  intros Hs Hid. unfold closed. destruct (0 <=? n) eqn:E; [|split; [done|]; exists n; split; [done|lia]].
  split; [|exists (-1); split; [apply lookup_insert_eq|lia]].
  apply (release_owned id n); [done|done|lia|..].
  - intros j Hj. by rewrite lookup_insert_ne by congruence.
  - intros m. rewrite lookup_insert_eq. intros [= <-]. lia.
Qed.

Lemma close_socket_closed id n s :
  owned s → objects s !! id = Some n → close_socket id s = (Ok tt, closed id n s).
Proof.
  intros Hs Hid. unfold close_socket, closed. assert (fd id s = n) as E by (unfold fd; by rewrite Hid).
  rewrite (ST_bind_eq _ _ s (0 <=? n) s) by (unfold st_gets, is_valid; by rewrite E).
  destruct (0 <=? n) eqn:H0; [|done].
  rewrite (ST_bind_eq _ _ s n s) by (unfold st_gets; by rewrite E).
  destruct (ow_open s Hs id n Hid ltac:(lia)) as [[d Hd] _]. by rewrite (ST_bind_eq _ _ _ _ _ (sys_close_open s n d Hd)).
Qed.

Lemma move_assign_closed id other n m s :
  owned s → id ≠ other → objects s !! id = Some n → objects s !! other = Some m →
  ∃ s', move_assign id other s = (Ok tt, s') ∧
    s' = set_objects (<[other := -1]> (<[id := m]> (objects (closed id n s)))) (closed id n s).
Proof.
  intros Hs Hne Hid Hm. unfold move_assign. rewrite bool_decide_false by done.
  assert (fd id s = n ∧ fd other s = m) as [E1 E2] by (unfold fd; by rewrite Hid, Hm).
  rewrite (ST_bind_eq _ _ s (0 <=? n) s) by (unfold st_gets, is_valid; by rewrite E1).
  unfold closed. destruct (0 <=? n) eqn:H0.
  - destruct (ow_open s Hs id n Hid ltac:(lia)) as [[d Hd] _].
    rewrite (ST_bind_eq _ _ s tt (set_fds (delete n (fds s)) s)).
    2: { rewrite (ST_bind_eq _ _ s n s) by (unfold st_gets; by rewrite E1). by apply (sys_close_open s n d). }
    rewrite (ST_bind_eq _ _ _ m (set_fds (delete n (fds s)) s)) by (unfold st_gets, fd; cbn; by rewrite Hm).
    eexists. split; [reflexivity|]. unfold set_objects. cbn. by rewrite insert_insert_eq.
  - rewrite (ST_bind_eq _ _ s tt s) by done. rewrite (ST_bind_eq _ _ s m s) by (unfold st_gets; by rewrite E2).
    eexists. split; [reflexivity|]. done.
Qed.

Lemma socket_step_owned s s' : socket_step s s' → owned s → owned s'.
Proof.
  intros Hstep Hs. destruct Hstep as [id s s' Hid E|id peer s s' Hid E|id h s s' Hid E|id other s s' Hid [m Hm] E
    |id other s s' [n Hid] [m Hm] E|id s s' [n Hid] E|id s s' [n Hid] E|id sec s s' _ E].
  - destruct (listen_on_made id s) as (s2 & E2 & Hm). rewrite E in E2. injection E2 as <-. by eapply made_owned.
  - destruct (accept_made id peer s) as (s2 & E2 & Hm). rewrite E in E2. injection E2 as <-. by eapply made_owned.
  - destruct (connect_to_made id h s) as (s2 & E2 & Hm). rewrite E in E2. injection E2 as <-. by eapply made_owned.
  - unfold move_construct in E. rewrite (ST_bind_eq _ _ s m s) in E by (unfold st_gets, fd; by rewrite Hm).
    injection E as <-. apply (transfer_owned id other m s Hs Hm); [congruence|]. intros. congruence.
  - destruct (decide (id = other)) as [->|Hne].
    { unfold move_assign in E. rewrite bool_decide_true in E by done. by injection E as <-. }
    destruct (move_assign_closed id other n m s Hs Hne Hid Hm) as (s2 & E2 & ->). rewrite E in E2. injection E2 as ->.
    destruct (closed_owned id n s Hs Hid) as [Hc (k & Hk & Hneg)]. apply transfer_owned; [done| |done|].
    + unfold closed. destruct (0 <=? n); cbn; [by rewrite lookup_insert_ne|done].
    + intros k' Hk'. congruence.
  - rewrite (close_socket_closed id n s Hs Hid) in E. injection E as <-. by apply closed_owned.
  - unfold destroy in E. rewrite (ST_bind_eq _ _ _ _ _ (close_socket_closed id n s Hs Hid)) in E. injection E as <-.
    destruct (closed_owned id n s Hs Hid) as [Hc (k & Hk & Hneg)]. by eapply forget_owned.
  - unfold set_receive_timeout in E. rewrite (ST_bind_eq _ _ s (fd id s) s) in E by done. injection E as <-.
    by apply owned_set_timeout.
Qed.

(** C21. Descriptors have one owner. However the program makes, moves, assigns, closes and
    destroys its sockets, and whatever the kernel answers on the way ([listen_on],
    [accept_connection] and [connect_to] may fail at any call), every descriptor it opened is
    owned by exactly one live object, no number is closed that is not open, the descriptors
    of the rest of the program are left alone, and once all objects are destroyed no
    descriptor is left open. [connect_to] and [listen_on] return in every case, with an invalid
    socket and nothing opened, or with a new descriptor that is in blocking mode again. *)
Theorem sockets_owned s s' :
  owned s → rtc socket_step s s' →
  owned s' ∧ (objects s' = ∅ → dom (fds s') = base) ∧
  (∀ id host, ∃ s'', connect_to id host s' = (Ok tt, s'') ∧ made id s' s'') ∧
  (∀ id, ∃ s'', listen_on id s' = (Ok tt, s'') ∧ made id s' s'').
Proof.
  intros Hs Hr. assert (owned s') as Hs'.
  { induction Hr as [s|s1 s2 s3 Hstep _ IH]; [done|]. apply IH. by eapply socket_step_owned. }
  split_and!; [done| |intros; apply connect_to_made|intros; apply listen_on_made].
  intros Ho. apply set_eq. intros n. rewrite elem_of_dom. split; [|by apply (ow_base s' Hs')].
  intros [?|(id & Hid & _)]%(ow_owner s' Hs'); [done|]. rewrite Ho in Hid. done.
Qed.
End ownership.

(** ** Witness *)
Section witnesses.
#[local] Existing Instance Ab.demo_inet.

Definition good : answer := mkAnswer 0 0 0.
Definition in_progress : answer := mkAnswer (-1) EINPROGRESS 0.

(** Standard input, output and error are open; the first connection is established after an
    interrupted [poll], the second one is refused. *)
Definition os_0 : Os :=
  let d := mkDescriptor O_RDWR 0 None in
  mkOs {[0 := d; 1 := d; 2 := d]} ∅ 0
    [good; good; good; in_progress; mkAnswer (-1) EINTR 0; mkAnswer 1 0 0; good; good;
     good; good; good; in_progress; mkAnswer 1 0 0; mkAnswer 0 0 111].

Definition stdio : gset Z := {[0; 1; 2]}.
Definition os_1 : Os := (connect_to 0 (lit "93.184.216.34") os_0).2.
Definition os_2 : Os := (connect_to 1 (lit "93.184.216.34") os_1).2.
Definition os_3 : Os := (move_assign 1 0 os_2).2.
Definition os_4 : Os := (destroy 0 os_3).2.
Definition os_5 : Os := (destroy 1 os_4).2.

Lemma os_0_owned : owned stdio os_0.
Proof.
  assert (dom (fds os_0) = stdio) as E by (apply (bool_decide_eq_true_1 _); by vm_compute).
  split; try done.
  - intros n Hn. apply elem_of_dom. by rewrite E.
  - intros n Hn%elem_of_dom. left. by rewrite E in Hn.
Qed.

Lemma sockets_owned_witness :
  owned stdio os_5 ∧ dom (fds os_5) = stdio ∧ objects os_3 !! 1%nat = Some 3 ∧ get_peer_ip 3 os_3 = Some (lit "93.184.216.34").
Proof.
  destruct (sockets_owned stdio os_0 os_5) as (Ho & Hd & _).
  - exact os_0_owned.
  - eapply rtc_l; [apply (do_connect 0 (lit "93.184.216.34") os_0 os_1); [by vm_compute|by apply ST_run_eq; vm_compute]|].
    eapply rtc_l; [apply (do_connect 1 (lit "93.184.216.34") os_1 os_2); [by vm_compute|by apply ST_run_eq; vm_compute]|].
    eapply rtc_l; [apply (do_assign 1 0 os_2 os_3); [by eexists; vm_compute..|by apply ST_run_eq; vm_compute]|].
    eapply rtc_l; [apply (do_destroy 0 os_3 os_4); [by eexists; vm_compute|by apply ST_run_eq; vm_compute]|].
    eapply rtc_l; [apply (do_destroy 1 os_4 os_5); [by eexists; vm_compute|by apply ST_run_eq; vm_compute]|]. apply rtc_refl.
  - split; [exact Ho|]. split; [apply Hd; by vm_compute|]. split; by vm_compute.
Defined.
End witnesses.
End Tcp.
