(* ===== verification/Node.v ===== *)
(** * The node (src/network/Node.cpp, Peer.cpp, Heartbeat.cpp)

    The peer-to-peer node on top of the chain manager, the address book, the wire formats
    and message framing. Its functions are run by several threads (one per peer, and the
    accept, cleaner, ping and connect threads), so each is a [prog]: a sequence of critical
    sections. A [shared_ptr<Peer>] is a position in [heap_]. What the kernel answers to the
    coming [connect] and [accept] calls is [dials_] and [accepts_], and what it answers on a
    connection is its [Socket]; a closed descriptor makes every send and receive fail. The
    steady clock (nanoseconds) and the wall clock (seconds) are fields the environment
    moves. A loop [while (running_)] is unrolled [turns] times, for any [turns], which covers
    every finite part of an execution. [logger_] tells whether [set_logger] was called;
    [log_] are the lines given to the log so far. *)

From S2P Require Import Prelude Prog Text Codec Crypto Transaction Block Ledger Mempool OrphanPool.
From S2P Require Import ProofOfWork Blockchain ForkResolution BlockLocator Storage ChainManager.
From S2P Require Import Wire Message AddressBook.

(** The command bytes of [MessageType]. *)
Definition INV : byte := Byte.x01.
Definition GETDATA : byte := Byte.x02.
Definition BLOCK : byte := Byte.x03.
Definition TX : byte := Byte.x04.
Definition GETBLOCKS : byte := Byte.x05.
Definition PING : byte := Byte.x06.
Definition PONG : byte := Byte.x07.
Definition PEERS : byte := Byte.x08.

Record Peer := mkPeer {
  socket_ : Socket;
  socket_open : bool;
  remote_version_ : VersionInfo;
  alive_ : bool;
  last_seen_ : Z;
  peer_host_ : str
}.

Record PeerEntry := mkPeerEntry { pe_peer : nat; is_outbound : bool }.

Record Sync := mkSync { last_sync : Z; sync_cursor : Z }.

Record SyncState := mkSyncState {
  sync_active : bool;
  sync_peer : option nat;
  sync_buffer : list Block;
  sync_last_block : Z
}.

Definition milliseconds (n : Z) : Z := n * 1000000.
Definition CLEANER_TIMEOUT : Z := milliseconds 500.
Definition PING_INTERVAL : Z := 5.
Definition PING_TIMEOUT : Z := 40.
Definition SYNC_INTERVAL : Z := seconds 8.
Definition SYNC_IDLE_TIMEOUT : Z := milliseconds 300.
Definition CONNECT_INTERVAL : Z := milliseconds 1000.
Definition TARGET_OUTBOUND_PEERS : nat := 8.
Definition GOSSIP_INTERVAL : Z := seconds 30.
Definition MAX_BLOCKS_PER_RESPONSE : nat := 2000.

Record Node `{BlockStore} := mkNode {
  listen_port_ : Z;
  info_ : VersionInfo;
  chain_ : ChainManager;
  heap_ : list Peer;
  peers_ : list PeerEntry;
  sync_state_ : SyncState;
  listening_ : bool;
  running_ : bool;
  stopping_ : bool;
  address_book_ : list AddressEntry;
  sync_ : Sync;
  steady_ : Z;
  clock_ : Z;
  dials_ : list (option Socket);
  accepts_ : list (option (Socket * option str));
  logger_ : bool;
  log_ : list (str * str)
}.

Module Nd.

(** ** Peers *)

(** The constructor; the heartbeat starts now. *)
Definition make_peer (socket : Socket) (version : VersionInfo) (host : str) (now : Z) : Peer :=
  mkPeer socket true version true now host.

Definition peer_mark_dead (q : Peer) : Peer :=
  mkPeer (socket_ q) (socket_open q) (remote_version_ q) false (last_seen_ q) (peer_host_ q).
Definition peer_close (q : Peer) : Peer :=
  mkPeer (socket_ q) false (remote_version_ q) (alive_ q) (last_seen_ q) (peer_host_ q).
Definition peer_touch (now : Z) (q : Peer) : Peer :=
  mkPeer (socket_ q) (socket_open q) (remote_version_ q) (alive_ q) now (peer_host_ q).
Definition peer_set_socket (fd : Socket) (q : Peer) : Peer :=
  mkPeer fd (socket_open q) (remote_version_ q) (alive_ q) (last_seen_ q) (peer_host_ q).

(** [duration_cast<seconds>] rounds towards zero. *)
Definition elapsed (now : Z) (q : Peer) : Z := Z.quot (now - last_seen_ q) 1000000000.

Definition peer_address (q : Peer) : PeerAddress :=
  mkPeerAddress (peer_host_ q) (listen_port (remote_version_ q)).

(** [SyncState{}] *)
Definition no_sync : SyncState := mkSyncState false None [] 0.

(** What a pointer that is not in the heap reads as; the invariant excludes it. *)
Definition dangling : Peer := mkPeer (mkSocket [] [] []) false (mkVersionInfo 0 0 0 0 0) false 0 [].

Section node.
Context `{Crypto, Buckets, BlockStore, Inet}.

(** The constructor; [now] is the reading that initialises [last_sync]. *)
Definition make_node (port : Z) (info : VersionInfo) (chain : ChainManager) (now clock : Z)
    (dials : list (option Socket)) (accepts : list (option (Socket * option str))) : Node :=
  mkNode _ port info chain [] [] no_sync false false false [] (mkSync now 0) now clock dials accepts
    false [].

Definition set_chain (c : ChainManager) (n : Node) : Node :=
  mkNode _ (listen_port_ n) (info_ n) c (heap_ n) (peers_ n) (sync_state_ n) (listening_ n) (running_ n)
    (stopping_ n) (address_book_ n) (sync_ n) (steady_ n) (clock_ n) (dials_ n) (accepts_ n) (logger_ n) (log_ n).
Definition set_heap (h : list Peer) (n : Node) : Node :=
  mkNode _ (listen_port_ n) (info_ n) (chain_ n) h (peers_ n) (sync_state_ n) (listening_ n) (running_ n)
    (stopping_ n) (address_book_ n) (sync_ n) (steady_ n) (clock_ n) (dials_ n) (accepts_ n) (logger_ n) (log_ n).
Definition set_peers (l : list PeerEntry) (n : Node) : Node :=
  mkNode _ (listen_port_ n) (info_ n) (chain_ n) (heap_ n) l (sync_state_ n) (listening_ n) (running_ n)
    (stopping_ n) (address_book_ n) (sync_ n) (steady_ n) (clock_ n) (dials_ n) (accepts_ n) (logger_ n) (log_ n).
Definition set_sync_state (s : SyncState) (n : Node) : Node :=
  mkNode _ (listen_port_ n) (info_ n) (chain_ n) (heap_ n) (peers_ n) s (listening_ n) (running_ n)
    (stopping_ n) (address_book_ n) (sync_ n) (steady_ n) (clock_ n) (dials_ n) (accepts_ n) (logger_ n) (log_ n).
Definition set_flags (listening running stopping : bool) (n : Node) : Node :=
  mkNode _ (listen_port_ n) (info_ n) (chain_ n) (heap_ n) (peers_ n) (sync_state_ n) listening running
    stopping (address_book_ n) (sync_ n) (steady_ n) (clock_ n) (dials_ n) (accepts_ n) (logger_ n) (log_ n).
Definition set_book (b : list AddressEntry) (n : Node) : Node :=
  mkNode _ (listen_port_ n) (info_ n) (chain_ n) (heap_ n) (peers_ n) (sync_state_ n) (listening_ n)
    (running_ n) (stopping_ n) b (sync_ n) (steady_ n) (clock_ n) (dials_ n) (accepts_ n) (logger_ n) (log_ n).
Definition set_sync (s : Sync) (n : Node) : Node :=
  mkNode _ (listen_port_ n) (info_ n) (chain_ n) (heap_ n) (peers_ n) (sync_state_ n) (listening_ n)
    (running_ n) (stopping_ n) (address_book_ n) s (steady_ n) (clock_ n) (dials_ n) (accepts_ n) (logger_ n) (log_ n).
Definition set_clocks (steady clock : Z) (n : Node) : Node :=
  mkNode _ (listen_port_ n) (info_ n) (chain_ n) (heap_ n) (peers_ n) (sync_state_ n) (listening_ n)
    (running_ n) (stopping_ n) (address_book_ n) (sync_ n) steady clock (dials_ n) (accepts_ n) (logger_ n) (log_ n).
Definition set_net (dials : list (option Socket)) (accepts : list (option (Socket * option str)))
    (n : Node) : Node :=
  mkNode _ (listen_port_ n) (info_ n) (chain_ n) (heap_ n) (peers_ n) (sync_state_ n) (listening_ n)
    (running_ n) (stopping_ n) (address_book_ n) (sync_ n) (steady_ n) (clock_ n) dials accepts (logger_ n) (log_ n).
Definition set_log (logger : bool) (log : list (str * str)) (n : Node) : Node :=
  mkNode _ (listen_port_ n) (info_ n) (chain_ n) (heap_ n) (peers_ n) (sync_state_ n) (listening_ n)
    (running_ n) (stopping_ n) (address_book_ n) (sync_ n) (steady_ n) (clock_ n) (dials_ n) (accepts_ n) logger log.

(** [set_logger], with the callback that hands its arguments to the log. *)
Definition set_logger (n : Node) : Node := set_log true (log_ n) n.

(** [if (logger_) logger_(category, message)] *)
Definition told (category message : str) (n : Node) : Node :=
  if logger_ n then set_log true (log_ n ++ [(category, message)]) n else n.
Definition tell (category message : str) : prog Node unit := atomic (st_modify (told category message)).

Definition deref (n : Node) (p : nat) : Peer := default dangling (heap_ n !! p).

Definition is_alive (n : Node) (p : nat) : bool := alive_ (deref n p).

Definition update (f : Peer → Peer) (p : nat) (n : Node) : Node := set_heap (alter f p (heap_ n)) n.

Definition mark_dead (p : nat) (n : Node) : Node := update peer_mark_dead p n.
Definition close_socket (p : nat) (n : Node) : Node := update peer_close p n.
Definition touch (p : nat) (n : Node) : Node := update (peer_touch (steady_ n)) p n.

(** One locked call on the chain manager. *)
Definition on_chain {A} (m : ST ChainManager A) : prog Node A := atomic (st_zoom chain_ set_chain m).

(** The calls that read [clock_()]. *)
Definition on_chain_at {A} (m : Z → ST ChainManager A) : prog Node A :=
  atomic (λ n, st_zoom chain_ set_chain (m (clock_ n)) n).

(** One locked call on the address book; the steady clock is read with it. *)
Definition on_book {A} (m : Z → list AddressEntry → A * list AddressEntry) : prog Node A :=
  atomic (λ n, let '(a, b) := m (steady_ n) (address_book_ n) in (Ok a, set_book b n)).

Definition book_add (a : PeerAddress) (trusted : bool) : prog Node bool := on_book (Ab.add a trusted).
Definition book_success (a : PeerAddress) : prog Node unit :=
  on_book (λ now b, (tt, Ab.mark_success a now b)).
Definition book_failure (a : PeerAddress) : prog Node unit :=
  on_book (λ now b, (tt, Ab.mark_failure a now b)).

(** ** Sending *)

Definition send_section (p : nat) (m : Message) : ST Node bool := λ n,
  let q := deref n p in
  if negb (socket_open q) then (Ok false, n) else
  let '(ok, fd) := Msg.send_message m (socket_ q) in
  (Ok ok, update (peer_set_socket fd) p n).

Definition send_msg (p : nat) (t : byte) (payload : bytes) : prog Node bool :=
  atomic (send_section p (mkMessage t payload)).

(** The pointers of the live entries that satisfy [f]. *)
Definition live (f : PeerEntry → bool) (n : Node) : list nat :=
  pe_peer <$> filter (λ e, f e && is_alive n (pe_peer e)) (peers_ n).

Definition broadcast_inv (exclude : option nat) (t : InventoryItemType) (hash : HashBytes) :
    prog Node unit :=
  let payload := Wire.serialize_inventory [mkItem t hash] in
  targets ← query (live (λ e, negb (bool_decide (Some (pe_peer e) = exclude))));
  each (λ p, send_msg p INV payload;; mret tt) targets.

(** ** Synchronisation state *)

Definition start_sync_state (p : nat) : prog Node bool :=
  atomic (λ n,
    if sync_active (sync_state_ n) then (Ok false, n)
    else (Ok true, set_sync_state (mkSyncState true (Some p) [] (steady_ n)) n)).

Definition reset_sync_state : prog Node unit := atomic (st_modify (set_sync_state no_sync)).

(** The locked part of [finish_sync_if_due]: the blocks to adopt when it is due. *)
Definition take_buffer (n : Node) : list Block * Node :=
  let s := sync_state_ n in
  if negb (sync_active s) then ([], n) else
  let peer_dead := match sync_peer s with None => true | Some p => negb (is_alive n p) end in
  let timed_out := SYNC_IDLE_TIMEOUT <? steady_ n - sync_last_block s in
  if negb peer_dead && negb timed_out then ([], n)
  else (sync_buffer s, set_sync_state no_sync n).

Definition finish_sync_if_due : prog Node unit :=
  buffer ← atomic (λ n, let '(b, n) := take_buffer n in (Ok b, n));
  if bool_decide (buffer = []) then mret tt else
  adopted ← on_chain_at (Cm.adopt_branch buffer);
  let received := Text.to_string (sz buffer) ++ lit " block(s) received, " in
  if (adopted : bool) then
    height ← query (λ n, Cm.chain_height (chain_ n));
    tell (lit "SYNC") (received ++ lit "adopted, height now " ++ Text.to_string (Z.of_nat height))
  else tell (lit "SYNC") (received ++ lit "rejected").

(** ** Handlers *)

Fixpoint missing_items (items : list InventoryItem) : prog Node (list InventoryItem) :=
  match items with
  | [] => mret []
  | item :: items =>
      have_it ← query (λ n, match item_type item with
                            | BLOCK_ITEM => Cm.has_block (item_hash item) (chain_ n)
                            | TRANSACTION_ITEM => Cm.has_transaction (item_hash item) (chain_ n)
                            end);
      missing ← missing_items items;
      mret (if (have_it : bool) then missing else item :: missing)
  end.

Definition handle_inv (p : nat) (payload : bytes) : prog Node unit :=
  match Wire.deserialize_inventory payload with
  | None => mret tt
  | Some items =>
      missing ← missing_items items;
      if bool_decide (missing = []) then mret tt else
      send_msg p GETDATA (Wire.serialize_inventory missing);; mret tt
  end.

Definition send_item (p : nat) (item : InventoryItem) : prog Node unit :=
  match item_type item with
  | BLOCK_ITEM =>
      s ← query chain_; s' ← query chain_;
      match Cm.find_block (item_hash item) s s' with
      | Some block => send_msg p BLOCK (Blk.serialize block);; mret tt
      | None => mret tt
      end
  | TRANSACTION_ITEM =>
      tx ← query (λ n, Cm.find_transaction (item_hash item) (chain_ n));
      match tx with
      | Some tx => send_msg p TX (Tx.serialize tx);; mret tt
      | None => mret tt
      end
  end.

Definition handle_getdata (p : nat) (payload : bytes) : prog Node unit :=
  match Wire.deserialize_inventory payload with
  | None => mret tt
  | Some items => each (send_item p) items
  end.

(** The locked part of [handle_block]: whether the block went to the sync buffer. *)
Definition buffer_block (p : option nat) (payload : bytes) (n : Node) : bool * Node :=
  let s := sync_state_ n in
  if sync_active s && bool_decide (sync_peer s = p) then
    match Blk.deserialize payload with
    | None => (true, n)
    | Some block =>
        let buffer := sync_buffer s ++ [block] in
        let last_block := if (MAX_BLOCKS_PER_RESPONSE <=? length buffer)%nat
                          then steady_ n - SYNC_IDLE_TIMEOUT else steady_ n in
        (true, set_sync_state (mkSyncState true (sync_peer s) buffer last_block) n)
    end
  else (false, n).

Definition handle_block (p : option nat) (payload : bytes) : prog Node unit :=
  buffered ← atomic (λ n, let '(r, n) := buffer_block p payload n in (Ok r, n));
  if (buffered : bool) then mret tt else
  match Blk.deserialize payload with
  | None => mret tt
  | Some block =>
      outcome ← on_chain_at (Cm.submit_block block);
      match status outcome with
      | Accepted | Reorged => each (broadcast_inv p BLOCK_ITEM) (to_broadcast outcome)
      | NeedParent =>
          match p, missing_parent outcome with
          | Some p, Some parent =>
              send_msg p GETDATA (Wire.serialize_inventory [mkItem BLOCK_ITEM parent]);; mret tt
          | _, _ => mret tt
          end
      | Rejected => mret tt
      end
  end.

Definition handle_tx (p : nat) (payload : bytes) : prog Node unit :=
  match Tx.deserialize payload with
  | None => mret tt
  | Some tx =>
      ok ← on_chain (Cm.submit_transaction tx);
      if negb ok then mret tt else
      broadcast_inv (Some p) TRANSACTION_ITEM (Tx.compute_hash tx)
  end.

Definition handle_getblocks (p : nat) (payload : bytes) : prog Node unit :=
  match Wire.deserialize_getblocks payload with
  | None => mret tt
  | Some locator =>
      blocks ← query (λ n, Cm.blocks_after_locator locator MAX_BLOCKS_PER_RESPONSE (chain_ n));
      each (λ block, send_msg p BLOCK (Blk.serialize block);; mret tt) blocks
  end.

Definition handle_ping (p : nat) : prog Node unit := send_msg p PONG [];; mret tt.

Definition handle_pong : prog Node unit := mret tt.

Definition handle_peers (p : nat) (payload : bytes) : prog Node unit :=
  match Wire.deserialize_peer_list payload with
  | None => mret tt
  | Some list =>
      q ← query (λ n, deref n p);
      let source_is_local := negb (Ab.is_routable (peer_address q)) in
      each (λ a, book_add a source_is_local;; mret tt) list
  end.

(** ** Public operations *)

Definition submit_block (block : Block) : prog Node unit :=
  outcome ← on_chain_at (Cm.submit_block block);
  each (broadcast_inv None BLOCK_ITEM) (to_broadcast outcome).

Definition submit_transaction (tx : Transaction) : prog Node unit :=
  ok ← on_chain (Cm.submit_transaction tx);
  if (ok : bool) then broadcast_inv None TRANSACTION_ITEM (Tx.compute_hash tx) else mret tt.

Definition remember_peer (host : str) (port : Z) : prog Node unit :=
  book_add (mkPeerAddress host port) true;; mret tt.

Definition already_connected (host : str) (port : Z) (n : Node) : bool :=
  existsb (λ e, let q := deref n (pe_peer e) in
    alive_ q && bool_decide (peer_host_ q = host) && (listen_port (remote_version_ q) =? port)) (peers_ n).

Definition outbound_peer_count (n : Node) : nat := length (live is_outbound n).

Definition peer_count (n : Node) : nat := length (peers_ n).

Definition peers (n : Node) : list str :=
  (λ e, let q := deref n (pe_peer e) in
    peer_host_ q ++ lit ":" ++ Text.to_string (listen_port (remote_version_ q)) ++
    (if is_outbound e then lit " (out)" else lit " (in)")) <$>
  filter (λ e, is_alive n (pe_peer e)) (peers_ n).

Definition book (n : Node) : list str :=
  (λ i, host (info_address i) ++ lit ":" ++ Text.to_string (port (info_address i)) ++
    (if verified i then lit " verified"
     else lit " unverified (" ++ Text.to_string (info_failures i) ++ lit " fails)")) <$>
  Ab.snapshot (address_book_ n).

(** ** Gossip and synchronisation requests *)

Definition send_peer_list (p : nat) (peer_addr : PeerAddress) : prog Node unit :=
  let peer_is_local := negb (Ab.is_routable peer_addr) in
  gossip ← query (λ n, filter (λ a, a ≠ peer_addr) (Ab.reachable peer_is_local (address_book_ n)));
  if bool_decide (gossip = []) then mret tt else
  send_msg p PEERS (Wire.serialize_peer_list gossip);; mret tt.

Definition gossip_peers : prog Node unit :=
  targets ← query (live (λ _, true));
  each (λ p, q ← query (λ n, deref n p); send_peer_list p (peer_address q)) targets.

(** [start_sync_state] and the request, undone when it cannot be sent. *)
Definition sync_with (p : nat) : prog Node unit :=
  started ← start_sync_state p;
  if negb started then mret tt else
  locator ← on_chain (λ s, (Cm.locator s, s));
  sent ← send_msg p GETBLOCKS (Wire.serialize_getblocks locator);
  if (sent : bool) then mret tt else reset_sync_state.

(** [targets[sync_.sync_cursor++ % targets.size()]] *)
Definition next_target (targets : list nat) (n : Node) : result (option nat) * Node :=
  let s := sync_ n in
  (Ok (targets !! Z.to_nat (sync_cursor s mod sz targets)),
   set_sync (mkSync (last_sync s) (u64 (sync_cursor s + 1))) n).

Definition request_sync : prog Node unit :=
  my_height ← query (λ n, Z.of_nat (Cm.chain_height (chain_ n)));
  targets ← query (λ n, live (λ e, my_height <? chain_height (remote_version_ (deref n (pe_peer e)))) n);
  if bool_decide (targets = []) then mret tt else
  target ← atomic (next_target targets);
  match target with
  | None => mret tt
  | Some p => sync_with p
  end.

(** ** New connections *)

(** The connection [register_new_peer] finds to compete with: the first live one with the
    same host and listening port. *)
Definition rival (host : str) (port : Z) (n : Node) : option PeerEntry :=
  snd <$> list_find (λ e, let q := deref n (pe_peer e) in
    alive_ q = true ∧ listen_port (remote_version_ q) ≠ 0 ∧
    peer_host_ q = host ∧ listen_port (remote_version_ q) = port) (peers_ n).

Definition push_peer (p : nat) (outbound : bool) (n : Node) : Node :=
  set_peers (peers_ n ++ [mkPeerEntry p outbound]) n.

(** The part of [register_new_peer] under [peers_mutex_]; [None] when the node is stopping,
    otherwise whether the connection was accepted. *)
Definition admit_peer (p : nat) (outbound : bool) (n : Node) : option bool * Node :=
  if stopping_ n then (None, n) else
  let q := deref n p in
  match rival (peer_host_ q) (listen_port (remote_version_ q)) n with
  | None => (Some true, push_peer p outbound n)
  | Some old =>
      let keep_new := Bool.eqb (node_id (info_ n) <? node_id (remote_version_ q)) outbound in
      if keep_new then (Some true, push_peer p outbound (close_socket (pe_peer old) (mark_dead (pe_peer old) n)))
      else (Some false, n)
  end.

(** [std::make_shared<Peer>] *)
Definition new_peer (socket : Socket) (version : VersionInfo) (host : str) (n : Node) : result nat * Node :=
  (Ok (length (heap_ n)), set_heap (heap_ n ++ [make_peer socket version host (steady_ n)]) n).

(** The last owner goes: the socket is closed. *)
Definition drop_peer (p : nat) : prog Node bool := atomic (st_modify (close_socket p));; mret false.

Definition register_new_peer (socket : option Socket) (host : str) (outbound : bool) : prog Node bool :=
  match socket with
  | None => mret false
  | Some fd =>
      my_height ← query (λ n, u64 (Z.of_nat (Cm.chain_height (chain_ n))));
      info ← query info_;
      let current_info := mkVersionInfo (protocol_version info) my_height (vi_timestamp info)
                            (listen_port info) (node_id info) in
      match Msg.perform_handshake current_info fd with
      | (None, _) => mret false
      | (Some incoming_info, fd) =>
          if node_id info =? node_id incoming_info then mret false else
          p ← atomic (new_peer fd incoming_info host);
          let candidate := mkPeerAddress host (listen_port incoming_info) in
          let source_is_local := negb (Ab.is_routable candidate) in
          accepted ← atomic (λ n, let '(r, n) := admit_peer p outbound n in (Ok r, n));
          match accepted with
          | None => drop_peer p
          | Some false => tell (lit "PEER") (lit "duplicate connection dropped " ++ host);; drop_peer p
          | Some true =>
              (if outbound then book_add candidate true;; book_success candidate
               else book_add candidate source_is_local;;
                    tell (lit "PEER") (lit "inbound peer " ++ host ++ lit ":" ++
                      Text.to_string (listen_port incoming_info)));;
              send_peer_list p candidate;;
              (if my_height <? chain_height incoming_info then sync_with p else mret tt);;
              mret true
          end
      end
  end.

(** The next answer to a [connect]; none for a host that is not an address. *)
Definition connect_to (host : str) (port : Z) : prog Node (option Socket) :=
  match inet_pton (c_str host) with
  | None => mret None
  | Some _ => atomic (λ n,
      match dials_ n with
      | [] => (Ok None, n)
      | r :: dials => (Ok r, set_net dials (accepts_ n) n)
      end)
  end.

(** The next answer to an [accept], with the peer's address; a closed listener gives none. *)
Definition accept_connection : prog Node (option (Socket * option str)) :=
  atomic (λ n,
    if negb (listening_ n) then (Ok None, n) else
    match accepts_ n with
    | [] => (Ok None, n)
    | r :: accepts => (Ok r, set_net (dials_ n) accepts n)
    end).

Definition accept_one_peer : prog Node bool :=
  r ← accept_connection;
  match r with
  | Some (socket, Some host) => register_new_peer (Some socket) host false
  | _ => mret false
  end.

Definition loopback (host : str) : bool :=
  bool_decide (host = lit "127.0.0.1") || bool_decide (host = lit "localhost") ||
  bool_decide (host = lit "0.0.0.0").

Definition connect_to_peer (host : str) (port : Z) : prog Node bool :=
  own ← query (λ n, (port =? listen_port_ n) && loopback host);
  if (own : bool) then mret false else
  connected ← query (already_connected host port);
  if (connected : bool) then mret true else
  book_add (mkPeerAddress host port) true;;
  socket ← connect_to host port;
  register_new_peer socket host true.

(** ** Threads *)

Definition dispatch (p : nat) (msg : Message) : prog Node unit :=
  if decide (type msg = INV) then handle_inv p (payload msg) else
  if decide (type msg = GETDATA) then handle_getdata p (payload msg) else
  if decide (type msg = BLOCK) then handle_block (Some p) (payload msg) else
  if decide (type msg = TX) then handle_tx p (payload msg) else
  if decide (type msg = GETBLOCKS) then handle_getblocks p (payload msg) else
  if decide (type msg = PING) then handle_ping p else
  if decide (type msg = PONG) then handle_pong else
  if decide (type msg = PEERS) then handle_peers p (payload msg) else
  mret tt.

Definition receive_section (p : nat) (n : Node) : option Message * Node :=
  let q := deref n p in
  if negb (socket_open q) then (None, n) else
  let '(msg, fd) := Msg.receive_message (socket_ q) in
  (msg, update (peer_set_socket fd) p n).

Fixpoint peer_loop (turns : nat) (p : nat) : prog Node unit :=
  match turns with
  | O => mret tt
  | S turns =>
      go ← query (λ n, running_ n && is_alive n p);
      if negb go then mret tt else
      msg ← atomic (λ n, let '(msg, n) := receive_section p n in (Ok msg, n));
      match msg with
      | None => atomic (st_modify (mark_dead p))
      | Some msg =>
          atomic (st_modify (touch p));;
          dispatch p msg;;
          peer_loop turns p
      end
  end.

Fixpoint accept_loop (turns : nat) : prog Node unit :=
  match turns with
  | O => mret tt
  | S turns =>
      go ← query running_;
      if negb go then mret tt else accept_one_peer;; accept_loop turns
  end.

(** [erase_if] over the entries: dead ones are closed and leave. *)
Definition sweep (n : Node) : Node :=
  let dead := filter (λ e, is_alive n (pe_peer e) = false) (peers_ n) in
  set_peers (filter (λ e, is_alive n (pe_peer e) = true) (peers_ n))
    (foldl (λ n e, close_socket (pe_peer e) n) n dead).

(** [wait_or_stop]: whether the node still runs after the wait. *)
Definition wait_or_stop : prog Node bool := query running_.

Fixpoint cleaner_loop (turns : nat) : prog Node unit :=
  match turns with
  | O => mret tt
  | S turns =>
      go ← query running_;
      if negb go then mret tt else
      atomic (st_modify sweep);;
      finish_sync_if_due;;
      go ← wait_or_stop;
      if negb go then mret tt else cleaner_loop turns
  end.

(** One entry of the ping thread's scan: whether it is to be pinged. *)
Definition ping_entry (n : Node) (e : PeerEntry) : bool * Node :=
  let q := deref n (pe_peer e) in
  if negb (alive_ q) then (false, n) else
  if PING_TIMEOUT <=? elapsed (steady_ n) q then (false, mark_dead (pe_peer e) n) else
  (PING_INTERVAL <=? elapsed (steady_ n) q, n).

Fixpoint ping_scan (entries : list PeerEntry) (n : Node) : list nat * Node :=
  match entries with
  | [] => ([], n)
  | e :: entries =>
      let '(b, n) := ping_entry n e in
      let '(to_ping, n) := ping_scan entries n in
      (if b then pe_peer e :: to_ping else to_ping, n)
  end.

Definition set_last_sync (now : Z) (n : Node) : Node :=
  set_sync (mkSync now (sync_cursor (sync_ n))) n.

(** One turn of [ping_loop], from and to its [last_gossip]. *)
Definition ping_turn (last_gossip : Z) : prog Node Z :=
  to_ping ← atomic (λ n, let '(l, n) := ping_scan (peers_ n) n in (Ok l, n));
  each (λ p, send_msg p PING [];; mret tt) to_ping;;
  now ← query steady_;
  last ← query (λ n, last_sync (sync_ n));
  (if SYNC_INTERVAL <=? now - last then request_sync;; atomic (st_modify (set_last_sync now)) else mret tt);;
  if GOSSIP_INTERVAL <=? now - last_gossip then gossip_peers;; mret now else mret last_gossip.

Fixpoint ping_turns (turns : nat) (last_gossip : Z) : prog Node unit :=
  match turns with
  | O => mret tt
  | S turns =>
      go ← query running_;
      if negb go then mret tt else
      last_gossip ← ping_turn last_gossip;
      go ← wait_or_stop;
      if negb go then mret tt else ping_turns turns last_gossip
  end.

Definition ping_loop (turns : nat) : prog Node unit := now ← query steady_; ping_turns turns now.

(** The inner loop of [connect_loop], [dials] times at most; [false] when they are used up
    before the loop has ended. *)
Fixpoint dial_loop (dials : nat) : prog Node bool :=
  match dials with
  | O => mret false
  | S dials =>
      count ← query outbound_peer_count;
      if (TARGET_OUTBOUND_PEERS <=? count)%nat then mret true else
      candidate ← on_book Ab.select_candidate;
      match candidate with
      | None => mret true
      | Some candidate =>
          connected ← query (already_connected (host candidate) (port candidate));
          if (connected : bool) then
            probe ← connect_to (host candidate) (port candidate);
            (if bool_decide (is_Some probe) then book_success candidate else book_failure candidate);;
            dial_loop dials
          else
            socket ← connect_to (host candidate) (port candidate);
            connected ← register_new_peer socket (host candidate) true;
            let endpoint := host candidate ++ lit ":" ++ Text.to_string (port candidate) in
            (if (connected : bool) then book_success candidate;; tell (lit "PEER") (lit "connected to " ++ endpoint)
             else book_failure candidate;; tell (lit "PEER") (lit "dial failed " ++ endpoint));;
            dial_loop dials
      end
  end.

Fixpoint connect_loop (turns dials : nat) : prog Node unit :=
  match turns with
  | O => mret tt
  | S turns =>
      go ← query running_;
      if negb go then mret tt else
      dial_loop dials;;
      go ← wait_or_stop;
      if negb go then mret tt else connect_loop turns dials
  end.

(** ** Start and stop *)

(** [start]; [bound] tells whether [listen_on] succeeded. *)
Definition start (bound : bool) : prog Node bool :=
  if negb bound then mret false else
  atomic (st_modify (set_flags true true false));; mret true.

Definition stop : prog Node unit :=
  atomic (st_modify (λ n, set_flags (listening_ n) false (stopping_ n) n));;
  atomic (st_modify (λ n, set_flags false (running_ n) (stopping_ n) n));;
  atomic (st_modify (λ n,
    set_peers [] (foldl (λ n e, close_socket (pe_peer e) n)
                    (set_flags (listening_ n) (running_ n) true n) (peers_ n)))).
End node.
End Nd.
