(* ===== verification/NodeSafety.v ===== *)
(** * The node under concurrency

    The invariant of the node's state that every critical section of every thread restores,
    and the order [later] in which the state evolves; [Prog.interleaved_inv] then gives both
    for every schedule of any number of threads. *)

From S2P Require Import Prelude Prog Text Codec Crypto Demo Transaction Block Ledger Mempool OrphanPool.
From S2P Require Import ProofOfWork Blockchain ForkResolution BlockLocator Storage ChainManager ChainLedger.
From S2P Require Import ChainSafety Wire Message AddressBook Node.

Module Ns.
Import Nd.

(** How a peer object may change: its identity never, and once dead or closed it stays so. *)
Definition peer_later (q q' : Peer) : Prop :=
  remote_version_ q' = remote_version_ q ∧ peer_host_ q' = peer_host_ q ∧
  (alive_ q' = true → alive_ q = true) ∧ (socket_open q' = true → socket_open q = true).

#[global] Instance peer_later_preorder : PreOrder peer_later.
Proof.
  unfold peer_later. split; [by intros q|]. intros q1 q2 q3 (? & ? & ? & ?) (? & ? & ? & ?).
  split_and!; [congruence..|auto|auto].
Qed.

Section safety.
Context `{CryptoLaws} `{Buckets} `{!BlockStore} `{Inet} (U : bytes → Prop) {CF : CollisionFree U}.

Implicit Types n : Node.

(** The steady clock does not go back, the log only grows, and an address that is being
    dialled or backs off does not become due before its time, or before five seconds have
    passed where its time is later (a success shortens the back-off to that). *)
Definition book_later n n' : Prop :=
  steady_ n <= steady_ n' ∧ log_ n `prefix_of` log_ n' ∧
  ∀ lim a, lim <= steady_ n + BASE_BACKOFF → Ab.spent lim a (address_book_ n) →
    Ab.spent lim a (address_book_ n').

#[global] Instance book_later_preorder : PreOrder book_later.
Proof.
  split; [by intros n|]. intros n1 n2 n3 (T1 & L1 & S1) (T2 & L2 & S2). split_and!; [lia|by transitivity (log_ n2)|].
  intros lim a Hu Hs. apply S2; [lia|]. by apply S1.
Qed.

Lemma book_later_same n n' :
  steady_ n' = steady_ n → address_book_ n' = address_book_ n → log_ n' = log_ n → book_later n n'.
Proof. intros Et Eb El. split_and!; [lia|by rewrite El|]. by rewrite Eb. Qed.

Definition later n n' : Prop :=
  info_ n' = info_ n ∧ book_later n n' ∧
  ∀ p q, heap_ n !! p = Some q → ∃ q', heap_ n' !! p = Some q' ∧ peer_later q q'.

#[global] Instance later_preorder : PreOrder later.
Proof.
  split.
  - intros n. split_and!; [done|done|]. intros p q Hq. by exists q.
  - intros n1 n2 n3 (E1 & B1 & L1) (E2 & B2 & L2). split_and!; [congruence|by transitivity n2|]. intros p q Hq.
    destruct (L1 p q Hq) as (q2 & Hq2 & K1). destruct (L2 p q2 Hq2) as (q3 & Hq3 & K2).
    exists q3. split; [done|]. by transitivity q2.
Qed.

Lemma later_same n n' : heap_ n' = heap_ n → info_ n' = info_ n → book_later n n' → later n n'.
Proof. intros Eh Ei Hb. split_and!; [done|done|]. intros p q Hq. rewrite Eh. by exists q. Qed.

(** All bytes the kernel has yet to deliver, also behind a failed [recv]. *)
Fixpoint arriving (events : list recv_event) : bytes :=
  match events with
  | [] => []
  | Segment data :: events => data ++ arriving events
  | _ :: events => arriving events
  end.

(** The bytes carry no block outside [U]. *)
Definition clean (bs : bytes) : Prop :=
  ∀ pre m rest, bs = pre ++ Msg.frame m ++ rest → type m = BLOCK → U (payload m).

Definition fd_ok (fd : Socket) : Prop := clean (arriving (inbound fd)).

Definition peer_ok (q : Peer) : Prop := fd_ok (socket_ q) ∧ Wire.version_wf (remote_version_ q).

(** Two live entries that claim the same node. *)
Definition clash n (e e' : PeerEntry) : Prop :=
  let q := deref n (pe_peer e) in let q' := deref n (pe_peer e') in
  alive_ q = true ∧ alive_ q' = true ∧ peer_address q = peer_address q' ∧ port (peer_address q) ≠ 0.

Definition sync_ok n : Prop :=
  let s := sync_state_ n in
  Forall (Fork.known U) (sync_buffer s) ∧
  (if sync_active s then ∃ p, sync_peer s = Some p ∧ is_Some (heap_ n !! p) else s = no_sync).

Record ninv n : Prop := {
  ni_chain : Cs.inv U (chain_ n);
  ni_book : Ab.inv (address_book_ n);
  ni_heap : Forall peer_ok (heap_ n);
  ni_entries : Forall (λ e, is_Some (heap_ n !! pe_peer e)) (peers_ n);
  ni_unique i j e e' : peers_ n !! i = Some e → peers_ n !! j = Some e' → clash n e e' → i = j;
  ni_sync : sync_ok n;
  ni_dials : Forall (λ r, ∀ fd, r = Some fd → fd_ok fd) (dials_ n);
  ni_accepts : Forall (λ r, ∀ fd h, r = Some (fd, h) → fd_ok fd) (accepts_ n)
}.

(** ** Updates of one field *)

Lemma ninv_set_chain c n : ninv n → Cs.inv U c → ninv (set_chain c n).
Proof. intros [] ?. by split. Qed.

Lemma ninv_set_book b n : ninv n → Ab.inv b → ninv (set_book b n).
Proof. intros [] ?. by split. Qed.

Lemma ninv_set_sync s n : ninv n → ninv (set_sync s n).
Proof. intros []. by split. Qed.

Lemma ninv_set_flags l r s n : ninv n → ninv (set_flags l r s n).
Proof. intros []. by split. Qed.

Lemma ninv_set_clocks t c n : ninv n → ninv (set_clocks t c n).
Proof. intros []. by split. Qed.

Lemma ninv_set_sync_state s n : ninv n → sync_ok (set_sync_state s n) → ninv (set_sync_state s n).
Proof. intros [] ?. by split. Qed.

Lemma no_sync_ok n : sync_ok (set_sync_state no_sync n).
Proof. by split; [constructor|]. Qed.

(** Entries may leave. *)
Lemma ninv_keep_peers (P : PeerEntry → Prop) `{∀ e, Decision (P e)} n :
  ninv n → ninv (set_peers (filter P (peers_ n)) n).
Proof.
  intros [? ? ? He Hu ? ? ?]. split; try done; cbn [peers_ set_peers].
  - apply Forall_forall. intros e [_ Hin]%list_elem_of_filter. rewrite Forall_forall in He. by apply He.
  - change (clash (set_peers (filter P (peers_ n)) n)) with (clash n).
    clear -Hu. induction (peers_ n) as [|x l IH]; intros i j e e' Hi Hj Hc; [done|].
    assert (∀ i j e e', l !! i = Some e → l !! j = Some e' → clash n e e' → i = j) as Hl.
    { intros i' j' y y' Hi' Hj' Hc'. cut (S i' = S j'); [congruence|]. by eapply Hu. }
    specialize (IH Hl). destruct (decide (P x)) as [HP|HP].
    + rewrite filter_cons_True in Hi, Hj by done.
      assert (∀ k y, filter P l !! k = Some y → ∃ k', l !! k' = Some y) as Hsub.
      { intros k y [_ Hy]%list_elem_of_lookup_2%list_elem_of_filter. by apply list_elem_of_lookup. }
      destruct i as [|i], j as [|j]; simpl in Hi, Hj; [done| | |f_equal; by eapply IH].
      * injection Hi as <-. destruct (Hsub _ _ Hj) as [k Hk].
        by specialize (Hu 0%nat (S k) x e' eq_refl Hk Hc).
      * injection Hj as <-. destruct (Hsub _ _ Hi) as [k Hk].
        by specialize (Hu (S k) 0%nat e x Hk eq_refl Hc).
    + rewrite filter_cons_False in Hi, Hj by done. by eapply IH.
Qed.

Lemma ninv_no_peers n : ninv n → ninv (set_peers [] n).
Proof. intros []. by split. Qed.

(** A peer object changes along [peer_later]. *)
Lemma deref_update f p n p' :
  deref (update f p n) p' = deref n p' ∨ (p' = p ∧ deref (update f p n) p' = f (deref n p')).
Proof.
  unfold deref, update. cbn [heap_ set_heap]. destruct (decide (p = p')) as [<-|Hne].
  - rewrite list_lookup_alter_eq. destruct (heap_ n !! p); [by right|by left].
  - left. by rewrite list_lookup_alter_ne.
Qed.

Lemma deref_update_later f p n p' :
  (∀ q, peer_later q (f q)) → peer_later (deref n p') (deref (update f p n) p').
Proof. intros Hf. by destruct (deref_update f p n p') as [->|[_ ->]]. Qed.

Lemma update_valid f p n p' : is_Some (heap_ (update f p n) !! p') ↔ is_Some (heap_ n !! p').
Proof.
  unfold update. cbn [heap_ set_heap]. rewrite !lookup_lt_is_Some. by rewrite length_alter.
Qed.

Lemma update_later f p n : (∀ q, peer_later q (f q)) → later n (update f p n).
Proof.
  intros Hf. split_and!; [done|by apply book_later_same|]. intros p' q Hq. unfold update. cbn [heap_ set_heap].
  destruct (decide (p = p')) as [<-|Hne].
  - rewrite list_lookup_alter_eq, Hq. by eexists.
  - rewrite list_lookup_alter_ne by done. by exists q.
Qed.

Lemma clash_later n n' e e' :
  (∀ p, peer_later (deref n p) (deref n' p)) → clash n' e e' → clash n e e'.
Proof.
  intros Hl (A1 & A2 & Ha & Hp). destruct (Hl (pe_peer e)) as (V1 & W1 & X1 & _).
  destruct (Hl (pe_peer e')) as (V2 & W2 & X2 & _). cbv zeta in *.
  assert (∀ q q', remote_version_ q' = remote_version_ q → peer_host_ q' = peer_host_ q →
    peer_address q' = peer_address q) as Hpa by (unfold peer_address; congruence).
  split_and!; [auto|auto|..]; rewrite <- (Hpa _ _ V1 W1); [rewrite <- (Hpa _ _ V2 W2)|]; done.
Qed.

Lemma ninv_update f p n :
  ninv n → (∀ q, peer_later q (f q)) → (heap_ n !! p = None ∨ ∀ q, heap_ n !! p = Some q → peer_ok (f q)) →
  ninv (update f p n).
Proof.
  intros [? ? Hh He Hu [Hb Hy] ? ?] Hf Hok. split; try done.
  - apply Forall_forall. intros q [p' Hq]%list_elem_of_lookup. unfold update in Hq. cbn [heap_ set_heap] in Hq.
    destruct (decide (p = p')) as [<-|Hne].
    + rewrite list_lookup_alter_eq in Hq. apply fmap_Some in Hq as (q0 & Hq0 & ->).
      destruct Hok as [Hok|Hok]; [congruence|by apply Hok].
    + rewrite list_lookup_alter_ne in Hq by done. rewrite Forall_lookup in Hh. by eapply Hh.
  - eapply Forall_impl; [exact He|]. intros e. by rewrite update_valid.
  - intros i j e e' Hi Hj Hc. eapply Hu; [exact Hi|exact Hj|].
    eapply clash_later; [|exact Hc]. intros p'. by apply deref_update_later.
  - split; [done|]. change (sync_state_ (update f p n)) with (sync_state_ n).
    destruct (sync_active (sync_state_ n)); [|done]. destruct Hy as (p' & E & Hp').
    exists p'. split; [done|]. by apply update_valid.
Qed.

Lemma deref_ok n p : ninv n → is_Some (heap_ n !! p) → peer_ok (deref n p).
Proof.
  intros Hn [q Hq]. unfold deref. rewrite Hq. pose proof (ni_heap n Hn) as Hh.
  rewrite Forall_lookup in Hh. by eapply Hh.
Qed.

(** An update that leaves the socket alone. *)
Lemma ninv_update_flags f p n :
  ninv n → (∀ q, peer_later q (f q) ∧ socket_ (f q) = socket_ q) → ninv (update f p n).
Proof.
  intros Hn Hf. apply ninv_update; [done|intros; by apply Hf|]. right. intros q Hq.
  destruct (Hf q) as [(E & _) Es]. pose proof (ni_heap n Hn) as Hh. rewrite Forall_lookup in Hh.
  destruct (Hh p q Hq) as [Hc Hv]. split; [by rewrite Es|by rewrite E].
Qed.

Lemma mark_dead_flags q : peer_later q (peer_mark_dead q) ∧ socket_ (peer_mark_dead q) = socket_ q.
Proof. by repeat split. Qed.
Lemma close_flags q : peer_later q (peer_close q) ∧ socket_ (peer_close q) = socket_ q.
Proof. by repeat split. Qed.
Lemma touch_flags now q : peer_later q (peer_touch now q) ∧ socket_ (peer_touch now q) = socket_ q.
Proof. by repeat split. Qed.

Lemma close_all_safe l n :
  ninv n → let n' := foldl (λ n e, close_socket (pe_peer e) n) n l in
  ninv n' ∧ later n n' ∧ peers_ n' = peers_ n ∧ (∀ p, is_alive n' p = is_alive n p).
Proof.
  revert n. induction l as [|e l IH]; intros n Hn; simpl; [done|].
  destruct (IH (close_socket (pe_peer e) n)) as (Hi & Hl & Hp & Ha).
  { apply ninv_update_flags; [done|apply close_flags]. }
  split_and!; [done| |by rewrite Hp|].
  - etransitivity; [|exact Hl]. apply update_later. intros q. apply close_flags.
  - intros p. rewrite Ha. unfold is_alive, close_socket.
    by destruct (deref_update peer_close (pe_peer e) n p) as [->|[_ ->]].
Qed.

(** ** Sections *)

Lemma deserialized_known p b : U p → Blk.deserialize p = Some b → Fork.known U b.
Proof.
  intros Hu (Es & Hw & Ea)%Blk.serialize_deserialize. split_and!; [done|by rewrite Es|].
  rewrite <- Ea. unfold Blk.on_arrival.
  by rewrite Blk.compute_hash_set_hash, Blk.compute_hash_set_cumulative_work.
Qed.

Lemma peer_ok_socket fd q :
  Wire.version_wf (remote_version_ q) → fd_ok fd → peer_ok (peer_set_socket fd q).
Proof. done. Qed.

Lemma set_socket_later fd q : peer_later q (peer_set_socket fd q).
Proof. by repeat split. Qed.

Lemma send_message_inbound m fd : inbound (Msg.send_message m fd).2 = inbound fd.
Proof.
  unfold Msg.send_message. case_bool; [done|].
  destruct (Msg.send_exact _ fd) as [[] fd1] eqn:E1; apply Msg.send_exact_spec in E1 as [Hi _]; [|done].
  destruct (Msg.send_exact _ fd1) as [ok fd2] eqn:E2. apply Msg.send_exact_spec in E2 as [Hi2 _].
  simpl. congruence.
Qed.

Lemma send_section_safe p m n :
  ninv n → ninv (send_section p m n).2 ∧ later n (send_section p m n).2.
Proof.
  intros Hn. unfold send_section. destruct (socket_open (deref n p)); [|done]. cbn [negb].
  pose proof (send_message_inbound m (socket_ (deref n p))) as Hi.
  destruct (Msg.send_message m _) as [ok fd]. simpl in Hi |- *. split.
  - apply ninv_update; [done|intros; apply set_socket_later|]. right. intros q Hq.
    destruct (deref_ok n p Hn) as [Hc Hv]; [by eexists|]. unfold deref in *. rewrite Hq in *. simpl in *.
    apply peer_ok_socket; [done|]. unfold fd_ok. by rewrite Hi.
  - apply update_later. intros. apply set_socket_later.
Qed.

(** What is left of a clean stream is clean. *)
Lemma clean_app a b : clean (a ++ b) → clean b.
Proof. intros Hc pre m rest ->. apply (Hc (a ++ pre) m rest). by rewrite <- app_assoc. Qed.

Lemma stream_arriving events : ∃ rest, arriving events = Msg.stream events ++ rest.
Proof.
  induction events as [|e events [rest IH]]; [by exists []|].
  destruct e as [[|b data]| |]; cbn [arriving Msg.stream].
  - by eexists.
  - exists rest. by rewrite IH, app_assoc.
  - by exists rest.
  - by eexists.
Qed.

Lemma read_loop_suffix events k : ∃ pre, arriving events = pre ++ arriving (Msg.read_loop events k).2.
Proof.
  revert k. induction events as [|e events IH]; intros [|k]; try by exists [].
  destruct e as [[|b data]| |]; cbn [Msg.read_loop arriving]; [by exists []| |apply IH|by exists []].
  case_bool.
  - destruct (IH (S k - length (b :: data))%nat) as [pre Hp].
    destruct (Msg.read_loop events _) as [r ev]. cbn [snd] in Hp |- *.
    exists ((b :: data) ++ pre). by rewrite Hp, app_assoc.
  - cbn [snd arriving]. exists (take (S k) (b :: data)). by rewrite app_assoc, take_drop.
Qed.

Lemma read_exact_ok k fd : fd_ok fd → fd_ok (Msg.read_exact k fd).2.
Proof.
  unfold fd_ok, Msg.read_exact. intros Hc. destruct (read_loop_suffix (inbound fd) k) as [pre Hp].
  rewrite Hp in Hc. destruct (Msg.read_loop _ k) as [r ev]. by apply clean_app in Hc.
Qed.

Lemma receive_ok fd :
  fd_ok fd → fd_ok (Msg.receive_message fd).2 ∧
  ∀ m, (Msg.receive_message fd).1 = Some m → type m = BLOCK → U (payload m).
Proof.
  intros Hc. split.
  - unfold Msg.receive_message. pose proof (read_exact_ok HEADER_LENGTH fd Hc) as H1'.
    destruct (Msg.read_exact HEADER_LENGTH fd) as [[h|] fd1]; [|done].
    destruct (negb _); [done|]. case_bool; [done|].
    pose proof (read_exact_ok (Z.to_nat (of_le (take 4 (drop 5 h)))) fd1 H1') as H2'.
    by destruct (Msg.read_exact _ fd1) as [[]].
  - intros m Hm. destruct (Msg.receive_message fd) as [r fd'] eqn:E. simpl in Hm. subst r.
    apply Msg.receive_message_sound in E as (_ & Es & _).
    destruct (stream_arriving (inbound fd)) as [rest Ea].
    apply (Hc [] m (Msg.stream (inbound fd') ++ rest)). by rewrite Ea, Es, <- app_assoc.
Qed.

Lemma receive_section_safe p n :
  ninv n → ninv (receive_section p n).2 ∧ later n (receive_section p n).2 ∧
  ∀ m, (receive_section p n).1 = Some m → type m = BLOCK → U (payload m).
Proof.
  intros Hn. unfold receive_section. destruct (heap_ n !! p) as [q|] eqn:Hq.
  2: { unfold deref. by rewrite Hq. }
  destruct (deref_ok n p Hn) as [Hc Hv]; [by eexists|].
  destruct (socket_open (deref n p)); [|done]. cbn [negb].
  destruct (receive_ok _ Hc) as [Hc' Hm]. destruct (Msg.receive_message _) as [r fd]. simpl in Hc', Hm |- *.
  split_and!; [|apply update_later; intros; apply set_socket_later|done].
  apply ninv_update; [done|intros; apply set_socket_later|]. right. intros q' Hq'.
  unfold deref in Hv. rewrite Hq' in Hv. by apply peer_ok_socket.
Qed.

Lemma handshake_ok info fd v fd' :
  fd_ok fd → Msg.perform_handshake info fd = (Some v, fd') → fd_ok fd' ∧ Wire.version_wf v.
Proof.
  unfold Msg.perform_handshake. intros Hc.
  pose proof (send_message_inbound (mkMessage VERSION (Wire.serialize_version info)) fd) as Hi.
  destruct (Msg.send_message _ fd) as [[] fd1]; [|done]. simpl in Hi.
  assert (fd_ok fd1) as Hc1 by (unfold fd_ok; by rewrite Hi).
  destruct (receive_ok fd1 Hc1) as [Hc2 _]. destruct (Msg.receive_message fd1) as [[m|] fd2]; [|done].
  destruct (negb (bool_decide _)); [done|].
  destruct (Nat.eqb_spec (length (payload m)) kExpectedVersionPayloadSize) as [Hl|]; [|done].
  cbn [negb]. intros [= <- <-]. split; [done|]. apply Wire.deserialize_version_wf, Hl.
Qed.

Lemma buffer_block_safe p pl n :
  ninv n → U pl → ninv (buffer_block p pl n).2 ∧ later n (buffer_block p pl n).2.
Proof.
  intros Hn Hu. unfold buffer_block. destruct (sync_active (sync_state_ n)) eqn:Ea; [|done].
  case_bool_decide as Ep; [|done]. cbn [andb]. destruct (Blk.deserialize pl) as [b|] eqn:Eb; [|done].
  split; [|auto using later_same, book_later_same]. apply ninv_set_sync_state; [done|]. destruct (ni_sync n Hn) as [Hb Hy].
  rewrite Ea in Hy. split; cbn [sync_state_ set_sync_state sync_buffer sync_active sync_peer]; [|done].
  apply Forall_snoc. split; [done|]. by eapply deserialized_known.
Qed.

Lemma take_buffer_safe n :
  ninv n → ninv (take_buffer n).2 ∧ later n (take_buffer n).2 ∧ Forall (Fork.known U) (take_buffer n).1.
Proof.
  intros Hn. unfold take_buffer. destruct (negb _); [done|]. destruct (negb _ && negb _); [done|].
  split_and!; [by apply ninv_set_sync_state, no_sync_ok|auto using later_same, book_later_same|apply (ni_sync n Hn)].
Qed.

Lemma sweep_safe n : ninv n → ninv (sweep n) ∧ later n (sweep n).
Proof.
  intros Hn. unfold sweep. set (dead := filter (λ e, is_alive n (pe_peer e) = false) (peers_ n)).
  destruct (close_all_safe dead n Hn) as (Hi & Hl & Hp & Ha).
  pose proof (ninv_keep_peers (λ e, is_alive n (pe_peer e) = true) _ Hi) as Hk. rewrite Hp in Hk.
  split; [exact Hk|]. etransitivity; [exact Hl|]. auto using later_same, book_later_same.
Qed.

Lemma ping_scan_safe es n : ninv n → ninv (ping_scan es n).2 ∧ later n (ping_scan es n).2.
Proof.
  revert n. induction es as [|e es IH]; intros n Hn; cbn [ping_scan]; [done|].
  assert (ninv (ping_entry n e).2 ∧ later n (ping_entry n e).2) as [H1' H2'].
  { unfold ping_entry. destruct (negb _); [done|]. case_bool; [|done].
    split; [apply ninv_update_flags; [done|apply mark_dead_flags]|].
    apply update_later. intros. apply mark_dead_flags. }
  destruct (ping_entry n e) as [b n1]. simpl in *. destruct (IH n1 H1') as [H3' H4'].
  destruct (ping_scan es n1) as [l n2]. simpl in *. split; [done|]. by transitivity n1.
Qed.

Lemma new_peer_safe fd v h n :
  ninv n → fd_ok fd → Wire.version_wf v →
  ninv (new_peer fd v h n).2 ∧ later n (new_peer fd v h n).2 ∧
  heap_ (new_peer fd v h n).2 !! length (heap_ n) = Some (make_peer fd v h (steady_ n)).
Proof.
  intros [? ? Hh He Hu [Hb Hy] ? ?] Hfd Hv. unfold new_peer. cbn [snd].
  assert (∀ p q, heap_ n !! p = Some q →
    (heap_ n ++ [make_peer fd v h (steady_ n)]) !! p = Some q) as Hold.
  { intros p q Hq. rewrite lookup_app_l; [done|]. by eapply lookup_lt_Some. }
  split_and!; [|split_and!; [done|by apply book_later_same|]|].
  - split; try done; cbn [heap_ set_heap peers_ sync_state_].
    + apply Forall_snoc. by split.
    + eapply Forall_impl; [exact He|]. intros e [q Hq]. eauto.
    + intros i j e e' Hi Hj Hc. eapply Hu; [exact Hi|exact Hj|]. rewrite Forall_lookup in He.
      destruct (He i e Hi) as [q Hq], (He j e' Hj) as [q' Hq']. unfold clash, deref in *.
      cbn [heap_ set_heap] in Hc. rewrite (Hold _ _ Hq), (Hold _ _ Hq') in Hc. by rewrite Hq, Hq'.
    + split; [done|]. cbn [heap_ set_heap sync_state_]. destruct (sync_active (sync_state_ n)); [|done].
      destruct Hy as (p & E & [q Hq]). exists p. split; [done|]. eauto.
  - intros p q Hq. exists q. split; [by apply Hold|done].
  - cbn [heap_ set_heap]. by rewrite lookup_app_r, Nat.sub_diag by lia.
Qed.

(** [rival] finds the live entry with the same address, if there is one. *)
Lemma rival_spec h pt n :
  match rival h pt n with
  | Some e => e ∈ peers_ n ∧ is_alive n (pe_peer e) = true ∧
              peer_address (deref n (pe_peer e)) = mkPeerAddress h pt ∧ pt ≠ 0
  | None => ∀ e, e ∈ peers_ n → is_alive n (pe_peer e) = true →
              peer_address (deref n (pe_peer e)) = mkPeerAddress h pt → pt = 0
  end.
Proof.
  unfold rival. destruct (list_find _ (peers_ n)) as [[i e]|] eqn:E; simpl.
  - apply list_find_Some in E as (Hi & (Ha & Hz & Hh & Hp) & _).
    split_and!; [by eapply list_elem_of_lookup_2|done| |congruence].
    unfold peer_address. by rewrite Hh, Hp.
  - intros e He Ha Hpa. apply list_find_None in E. rewrite Forall_forall in E. specialize (E e He).
    unfold peer_address in Hpa. injection Hpa as Hh Hp. destruct (decide (pt = 0)); [done|].
    destruct E. by rewrite Hp.
Qed.

Lemma push_safe p o n :
  ninv n → is_Some (heap_ n !! p) →
  (∀ e, e ∈ peers_ n → clash n e (mkPeerEntry p o) → False) →
  ninv (push_peer p o n).
Proof.
  intros [? ? ? He Hu ? ? ?] Hp Hc. split; try done; unfold push_peer; cbn [peers_ set_peers].
  - by apply Forall_snoc.
  - change (clash (set_peers (peers_ n ++ [mkPeerEntry p o]) n)) with (clash n).
    assert (∀ e e', clash n e e' → clash n e' e) as Hsym.
    { intros e e' (? & ? & Ea & ?). split_and!; [done..|]. by rewrite <- Ea. }
    intros i j e e'. rewrite !lookup_app_Some.
    intros [Hi|[Hi1 Hi2]] [Hj|[Hj1 Hj2]] Hcl; [by eapply Hu|exfalso..|].
    + apply list_lookup_singleton_Some in Hj2 as [_ <-]. eapply Hc, Hcl. by eapply list_elem_of_lookup_2.
    + apply list_lookup_singleton_Some in Hi2 as [_ <-]. eapply Hc, Hsym, Hcl. by eapply list_elem_of_lookup_2.
    + apply list_lookup_singleton_Some in Hi2 as [? _], Hj2 as [? _]. lia.
Qed.

Lemma admit_peer_safe p o n :
  ninv n → is_Some (heap_ n !! p) → ninv (admit_peer p o n).2 ∧ later n (admit_peer p o n).2.
Proof.
  intros Hn Hp. unfold admit_peer. destruct (stopping_ n); [done|].
  pose proof (rival_spec (peer_host_ (deref n p)) (listen_port (remote_version_ (deref n p))) n) as Hr.
  destruct (rival _ _ n) as [old|].
  - destruct (Bool.eqb _ _); [|done]. set (n1 := mark_dead (pe_peer old) n).
    set (n2 := close_socket (pe_peer old) n1). cbn [snd].
    assert (ninv n1) as Hn1 by (apply ninv_update_flags; [done|apply mark_dead_flags]).
    assert (later n n1) as L1 by (apply update_later; intros; apply mark_dead_flags).
    assert (ninv n2) as Hn2 by (apply ninv_update_flags; [done|apply close_flags]).
    assert (later n1 n2) as L2 by (apply update_later; intros; apply close_flags).
    split; [|etransitivity; [exact L1|]; etransitivity; [exact L2|auto using later_same, book_later_same]]. destruct Hr as (Hin & Hal & Hpa & Hz).
    assert (∀ q, peer_later (deref n q) (deref n2 q)) as Hlt.
    { intros q. transitivity (deref n1 q); apply deref_update_later; intros;
        [apply mark_dead_flags|apply close_flags]. }
    assert (alive_ (deref n2 (pe_peer old)) = false) as Hdead.
    { apply not_true_iff_false. intros Ht.
      assert (peer_later (deref n1 (pe_peer old)) (deref n2 (pe_peer old))) as (_ & _ & Hd & _)
        by (apply deref_update_later; intros; apply close_flags).
      apply Hd in Ht. pose proof (ni_entries n Hn) as He. rewrite Forall_forall in He.
      destruct (He old Hin) as [q Hq]. revert Ht. unfold n1, mark_dead, deref, update. cbn [heap_ set_heap].
      rewrite list_lookup_alter_eq, Hq. done. }
    apply push_safe; [done| |].
    { unfold n2, n1, close_socket, mark_dead. by rewrite !update_valid. }
    intros e He Hc. pose proof (clash_later n n2 _ _ Hlt Hc) as (A1 & A2 & Ea & Ez). cbn [pe_peer] in *.
    assert (clash n e old) as Hc'.
    { split_and!; [done..| |done]. rewrite Ea, Hpa. done. }
    apply list_elem_of_lookup in He as [i Hi], Hin as [j Hj].
    change (peers_ n2) with (peers_ n) in Hi.
    assert (i = j) as -> by (by eapply (ni_unique n Hn)). assert (e = old) as -> by congruence.
    destruct Hc as (Hc & _). congruence.
  - cbn [snd]. split; [|auto using later_same, book_later_same]. apply push_safe; [done..|]. intros e He (A1 & A2 & Ea & Ez). cbn [pe_peer] in *.
    apply Ez. rewrite Ea. apply (Hr e He A1). by rewrite Ea.
Qed.

(** ** Programs *)

Abbreviation safe := (psafe ninv later).
Abbreviation ok p := (psafe ninv later p (λ _ _, True)).

Lemma ok_bind {A B} (p : prog Node A) (f : A → prog Node B) s0 :
  ok p s0 → (∀ a s, ok (f a) s) → ok (p ≫= f) s0.
Proof. intros Hp Hf. eapply psafe_bind; [apply _|exact Hp|]. intros a s _ _ _. apply Hf. Qed.

Lemma ok_ret {A} (a : A) s0 : ok (mret a) s0.
Proof. done. Qed.

Lemma ok_query {A} (f : Node → A) s0 : ok (query f) s0.
Proof. by apply psafe_query; [apply _|]. Qed.

Lemma ok_each {A} (p : A → prog Node unit) l s0 : (∀ a s, a ∈ l → ok (p a) s) → ok (each p l) s0.
Proof. intros Hp. apply psafe_each; [apply _|]. intros a s Ha _ _. by apply Hp. Qed.

Lemma ok_section {A} (m : ST Node A) s0 :
  (∀ n, ninv n → ninv (m n).2 ∧ later n (m n).2) → ok (atomic m) s0.
Proof. intros Hm. apply psafe_section. intros n _. apply Hm. Qed.

Lemma ok_modify f s0 : (∀ n, ninv n → ninv (f n) ∧ later n (f n)) → ok (atomic (st_modify f)) s0.
Proof. intros Hf. by apply ok_section. Qed.

Lemma ok_send p t pl s0 : ok (send_msg p t pl) s0.
Proof. apply ok_section. intros n. apply send_section_safe. Qed.

Lemma ok_on_chain {A} (m : ST ChainManager A) s0 :
  (∀ s, Cs.inv U s → Cs.inv U (m s).2) → ok (on_chain m) s0.
Proof.
  intros Hm. apply ok_section. intros n Hn. unfold st_zoom. specialize (Hm (chain_ n) (ni_chain n Hn)).
  destruct (m (chain_ n)) as [r c]. simpl in *. split; [by apply ninv_set_chain|auto using later_same, book_later_same].
Qed.

Lemma ok_on_chain_at {A} (m : Z → ST ChainManager A) s0 :
  (∀ now s, Cs.inv U s → Cs.inv U (m now s).2) → ok (on_chain_at m) s0.
Proof.
  intros Hm. apply ok_section. intros n Hn. unfold st_zoom.
  specialize (Hm (clock_ n) (chain_ n) (ni_chain n Hn)).
  destruct (m _ (chain_ n)) as [r c]. simpl in *. split; [by apply ninv_set_chain|auto using later_same, book_later_same].
Qed.

Lemma ok_on_book {A} (m : Z → list AddressEntry → A * list AddressEntry) s0 :
  (∀ now b, Ab.step_at now b (m now b).2) → ok (on_book m) s0.
Proof.
  intros Hm. apply ok_section. intros n Hn. specialize (Hm (steady_ n) (address_book_ n)).
  pose proof (Ab.step_at_spent (steady_ n)) as Hsp.
  destruct (m _ (address_book_ n)) as [r b]. simpl in *. split.
  - eapply ninv_set_book, Ab.book_step_inv; [done|by eapply Ab.step_at_step|apply (ni_book n Hn)].
  - apply later_same; [done|done|]. split_and!; [done|done|]. intros lim a Hu. by eapply Hsp; [apply (ni_book n Hn)|..].
Qed.

Lemma ok_book_add a t s0 : ok (book_add a t) s0.
Proof. apply ok_on_book. intros. apply Ab.at_add. Qed.
Lemma ok_book_success a s0 : ok (book_success a) s0.
Proof. apply ok_on_book. intros. apply Ab.at_success. Qed.
Lemma ok_book_failure a s0 : ok (book_failure a) s0.
Proof. apply ok_on_book. intros. apply Ab.at_failure. Qed.

Create HintDb node discriminated.
#[local] Hint Resolve ok_ret ok_query ok_send ok_book_add ok_book_success ok_book_failure : node.

(** Walk a program whose sections are known. *)
Ltac walk :=
  repeat first
    [ solve [eauto with node]
    | apply ok_bind; [|intros]
    | apply ok_each; intros
    | case_match ].

Lemma ok_broadcast x t h s0 : ok (broadcast_inv x t h) s0.
Proof. unfold broadcast_inv. walk. Qed.
#[local] Hint Resolve ok_broadcast : node.

Lemma ok_submit_tx tx s0 : ok (on_chain (Cm.submit_transaction tx)) s0.
Proof. apply ok_on_chain. intros s Hs. exact (Cs.step_inv U _ _ (Cs.step_tx U tx s) Hs). Qed.

Lemma ok_submit b s0 : Fork.known U b → ok (on_chain_at (Cm.submit_block b)) s0.
Proof. intros Hb. apply ok_on_chain_at. intros now s Hs. exact (Cs.step_inv U _ _ (Cs.step_block U b now s Hb) Hs). Qed.

Lemma ok_adopt bs s0 : Forall (Fork.known U) bs → ok (on_chain_at (Cm.adopt_branch bs)) s0.
Proof. intros Hb. apply ok_on_chain_at. intros now s Hs. exact (Cs.step_inv U _ _ (Cs.step_branch U bs now s Hb) Hs). Qed.
#[local] Hint Resolve ok_submit_tx ok_submit ok_adopt : node.

(** The log is nobody's invariant. *)
Lemma ninv_set_log b l n : ninv n → ninv (set_log b l n).
Proof. intros []. by split. Qed.

Lemma ok_tell c m s0 : ok (tell c m) s0.
Proof.
  apply ok_modify. intros n Hn. unfold told. case_match; [|done]. split; [by apply ninv_set_log|].
  apply later_same; [done|done|]. split_and!; [done|by apply prefix_app_r|done].
Qed.
#[local] Hint Resolve ok_tell : node.

Lemma ok_missing items s0 : ok (missing_items items) s0.
Proof. revert s0. induction items; intros s0; cbn [missing_items]; walk. Qed.
#[local] Hint Resolve ok_missing : node.

Lemma ok_handle_inv p pl s0 : ok (handle_inv p pl) s0.
Proof. unfold handle_inv. walk. Qed.

Lemma ok_send_item p i s0 : ok (send_item p i) s0.
Proof. unfold send_item. walk. Qed.
#[local] Hint Resolve ok_send_item : node.

Lemma ok_handle_getdata p pl s0 : ok (handle_getdata p pl) s0.
Proof. unfold handle_getdata. walk. Qed.

Lemma ok_handle_block p pl s0 : U pl → ok (handle_block p pl) s0.
Proof.
  intros Hu. unfold handle_block. apply ok_bind.
  { apply ok_section. intros n Hn. pose proof (buffer_block_safe p pl n Hn Hu) as Hs.
    by destruct (buffer_block p pl n). }
  intros [] s; [apply ok_ret|]. destruct (Blk.deserialize pl) as [b|] eqn:Eb; [|apply ok_ret].
  apply ok_bind; [apply ok_submit; by eapply deserialized_known|]. intros. walk.
Qed.

Lemma ok_handle_tx p pl s0 : ok (handle_tx p pl) s0.
Proof. unfold handle_tx. walk. Qed.

Lemma ok_handle_getblocks p pl s0 : ok (handle_getblocks p pl) s0.
Proof. unfold handle_getblocks. walk. Qed.

Lemma ok_handle_peers p pl s0 : ok (handle_peers p pl) s0.
Proof. unfold handle_peers. walk. Qed.
#[local] Hint Resolve ok_handle_inv ok_handle_getdata ok_handle_block ok_handle_tx
  ok_handle_getblocks ok_handle_peers : node.

Lemma ok_dispatch p m s0 : (type m = BLOCK → U (payload m)) → ok (dispatch p m) s0.
Proof.
  intros Hm. unfold dispatch.
  repeat (case_decide; [solve [eauto with node | unfold handle_ping, handle_pong; walk]|]). apply ok_ret.
Qed.

Lemma ok_peer_loop turns p s0 : ok (peer_loop turns p) s0.
Proof.
  revert s0. induction turns as [|turns IH]; intros s0; cbn [peer_loop]; [apply ok_ret|].
  apply ok_bind; [apply ok_query|]. intros [] s; [|apply ok_ret]. cbn [negb]. eapply psafe_bind; [apply _|..].
  { apply (psafe_atomic _ _ _ (λ r _, ∀ m, r = Some m → type m = BLOCK → U (payload m))).
    intros n _ Hn. destruct (receive_section_safe p n Hn) as (Hi & Hl & Hm).
    destruct (receive_section p n) as [r n']. simpl in *. split_and!; [done..|].
    intros a s' [= <-] _ _. done. }
  intros [m|] s1 _ _ Hm.
  - apply ok_bind.
    { apply ok_modify. intros n Hn. split; [apply ninv_update_flags; [done|apply touch_flags]|].
      apply update_later. intros. apply touch_flags. }
    intros _ s2. apply ok_bind; [by apply ok_dispatch, Hm|auto].
  - apply ok_modify. intros n Hn. split; [apply ninv_update_flags; [done|apply mark_dead_flags]|].
    apply update_later. intros. apply mark_dead_flags.
Qed.

Lemma ok_finish s0 : ok finish_sync_if_due s0.
Proof.
  unfold finish_sync_if_due. eapply psafe_bind; [apply _|..].
  { apply (psafe_atomic _ _ _ (λ b _, Forall (Fork.known U) b)). intros n _ Hn.
    destruct (take_buffer_safe n Hn) as (Hi & Hl & Hb). destruct (take_buffer n) as [b n'].
    split_and!; [done..|]. by intros a s' [= <-]. }
  intros b s _ _ Hb. walk.
Qed.

Lemma ok_reset s0 : ok reset_sync_state s0.
Proof. apply ok_modify. intros n Hn. split; [by apply ninv_set_sync_state, no_sync_ok|auto using later_same, book_later_same]. Qed.
#[local] Hint Resolve ok_finish ok_reset : node.

(** A pointer stays valid. *)
Lemma valid_later p n n' : later n n' → is_Some (heap_ n !! p) → is_Some (heap_ n' !! p).
Proof. intros (_ & _ & Hl) [q Hq]. destruct (Hl p q Hq) as (q' & ? & _). by eexists. Qed.

Lemma ok_start_sync p s0 : is_Some (heap_ s0 !! p) → ok (start_sync_state p) s0.
Proof.
  intros Hp. apply psafe_section. intros n Hl Hn. destruct (sync_active (sync_state_ n)); [done|].
  split; [|auto using later_same, book_later_same]. apply ninv_set_sync_state; [done|]. split; [constructor|].
  cbn. exists p. split; [done|]. by eapply valid_later.
Qed.

Lemma ok_sync_with p s0 : is_Some (heap_ s0 !! p) → ok (sync_with p) s0.
Proof.
  intros Hp. unfold sync_with. apply ok_bind; [by apply ok_start_sync|]. intros [] s; [|apply ok_ret].
  cbn [negb]. apply ok_bind; [by apply ok_on_chain|]. intros. walk.
Qed.

Lemma live_valid f n p : ninv n → p ∈ live f n → is_Some (heap_ n !! p).
Proof.
  intros Hn (e & -> & [_ He]%list_elem_of_filter)%list_elem_of_fmap.
  pose proof (ni_entries n Hn) as Hv. rewrite Forall_forall in Hv. by apply Hv.
Qed.

Lemma ok_request_sync s0 : ok request_sync s0.
Proof.
  unfold request_sync. apply ok_bind; [apply ok_query|]. intros h s1. eapply psafe_bind; [apply _|..].
  { apply (psafe_query _ _ _ (λ l n, ∀ p, p ∈ l → is_Some (heap_ n !! p))).
    intros n n' _ Hn Hl _ p Hp. eapply valid_later; [exact Hl|]. by eapply live_valid. }
  intros targets s2 _ _ Hv. case_bool_decide; [apply ok_ret|]. eapply psafe_bind; [apply _|..].
  { apply (psafe_atomic _ _ _ (λ r n, ∀ p, r = Some p → is_Some (heap_ n !! p))). intros n Hl Hn.
    cbn [next_target fst snd]. split_and!; [by apply ninv_set_sync|auto using later_same, book_later_same|].
    intros a n' [= <-] Hl' _ p Hp%list_elem_of_lookup_2. eapply valid_later; [exact Hl'|].
    eapply valid_later; [exact Hl|]. by apply Hv. }
  intros [p|] s3 _ _ Hp; [|apply ok_ret]. by apply ok_sync_with, Hp.
Qed.

Lemma ok_send_peer_list p a s0 : ok (send_peer_list p a) s0.
Proof. unfold send_peer_list. walk. Qed.
#[local] Hint Resolve ok_request_sync ok_send_peer_list : node.

Lemma ok_gossip s0 : ok gossip_peers s0.
Proof. unfold gossip_peers. walk. Qed.
#[local] Hint Resolve ok_gossip : node.

Lemma ok_drop p s0 : ok (drop_peer p) s0.
Proof.
  unfold drop_peer. apply ok_bind; [|intros; apply ok_ret]. apply ok_modify. intros n Hn.
  split; [apply ninv_update_flags; [done|apply close_flags]|]. apply update_later. intros. apply close_flags.
Qed.
#[local] Hint Resolve ok_drop : node.

Lemma ok_register r h o s0 : (∀ fd, r = Some fd → fd_ok fd) → ok (register_new_peer r h o) s0.
Proof.
  intros Hr. unfold register_new_peer. destruct r as [fd|]; [|apply ok_ret]. specialize (Hr fd eq_refl).
  apply ok_bind; [apply ok_query|]. intros mine s1. apply ok_bind; [apply ok_query|]. intros info s2.
  destruct (Msg.perform_handshake _ fd) as [[v|] fd'] eqn:Eh; [|apply ok_ret].
  destruct (handshake_ok _ _ _ _ Hr Eh) as [Hfd Hv]. case_match; [apply ok_ret|].
  eapply psafe_bind; [apply _|..].
  { apply (psafe_atomic _ _ _ (λ p n, is_Some (heap_ n !! p))). intros n _ Hn.
    destruct (new_peer_safe fd' v h n Hn Hfd Hv) as (Hi & Hl & Hp). split_and!; [done..|].
    intros p n' [= <-] Hl' _. eapply valid_later; [exact Hl'|]. by eexists. }
  intros p s3 _ _ Hp. cbv zeta. eapply psafe_bind; [apply _|..].
  { apply (psafe_atomic _ _ _ (λ _ n, is_Some (heap_ n !! p))). intros n Hl Hn.
    pose proof (valid_later p _ _ Hl Hp) as Hp'. destruct (admit_peer_safe p o n Hn Hp') as [Hi Hl'].
    destruct (admit_peer p o n) as [r n']. split_and!; [done..|]. intros a n'' _ Hl'' _.
    eapply valid_later; [exact Hl''|]. by eapply valid_later. }
  intros [[]|] s4 _ _ Hp4; [|apply ok_bind; [apply ok_tell|intros; apply ok_drop]|apply ok_drop].
  eapply psafe_bind; [apply _| |].
  { apply (psafe_keep _ _ _ (λ n, is_Some (heap_ n !! p))); [by intros; eapply valid_later|done|]. walk. }
  intros ? s5 _ _ Hp5. eapply psafe_bind; [apply _| |].
  { apply (psafe_keep _ _ _ (λ n, is_Some (heap_ n !! p))); [by intros; eapply valid_later|done|]. walk. }
  intros ? s6 _ _ Hp6. apply ok_bind; [|intros; apply ok_ret]. case_match; [by apply ok_sync_with|apply ok_ret].
Qed.

Lemma ok_connect_to h pt s0 :
  safe (connect_to h pt) (λ r _, ∀ fd, r = Some fd → fd_ok fd) s0.
Proof.
  unfold connect_to. destruct (inet_pton _); [|by apply psafe_ret].
  apply psafe_atomic. intros n _ Hn. pose proof (ni_dials n Hn) as Hd.
  destruct (dials_ n) as [|r dials] eqn:Ed; simpl.
  { split_and!; [done..|]. by intros a s' [= <-]. }
  apply Forall_cons in Hd as [Hr Hd]. split_and!.
  - destruct Hn. by split.
  - auto using later_same, book_later_same.
  - by intros a s' [= <-].
Qed.

Lemma ok_accept s0 : ok accept_one_peer s0.
Proof.
  unfold accept_one_peer. eapply psafe_bind; [apply _|..].
  { apply (psafe_atomic _ _ _ (λ r _, ∀ fd h, r = Some (fd, h) → fd_ok fd)). intros n _ Hn.
    destruct (listening_ n); [|split_and!; [done..|]; by intros a s' [= <-]]. cbn [negb].
    pose proof (ni_accepts n Hn) as Hd. destruct (accepts_ n) as [|r l] eqn:Ed; simpl.
    { split_and!; [done..|]. by intros a s' [= <-]. }
    apply Forall_cons in Hd as [Hr Hd]. split_and!; [destruct Hn; by split|auto using later_same, book_later_same|].
    by intros a s' [= <-]. }
  intros [[fd [h|]]|] s _ _ Hr; [|apply ok_ret..]. apply ok_register. intros fd' [= <-]. by eapply Hr.
Qed.
#[local] Hint Resolve ok_accept : node.

Lemma ok_dial {A} (h : str) (pt : Z) (f : option Socket → prog Node A) s0 :
  (∀ r s, (∀ fd, r = Some fd → fd_ok fd) → ok (f r) s) → ok (connect_to h pt ≫= f) s0.
Proof.
  intros Hf. eapply psafe_bind; [apply _|apply ok_connect_to|]. intros r s _ _ Hr. by apply Hf.
Qed.

Lemma ok_connect_to_peer h pt s0 : ok (connect_to_peer h pt) s0.
Proof.
  unfold connect_to_peer.
  apply ok_bind; [apply ok_query|]. intros [] s1; [apply ok_ret|].
  apply ok_bind; [apply ok_query|]. intros [] s2; [apply ok_ret|].
  apply ok_bind; [apply ok_book_add|]. intros _ s3.
  eapply psafe_bind; [apply _|apply ok_connect_to|]. intros r s4 _ _ Hr. by apply ok_register.
Qed.

Lemma ok_dial_loop k s0 : ok (dial_loop k) s0.
Proof.
  revert s0. induction k as [|k IH]; intros s0; cbn [dial_loop]; [apply ok_ret|].
  apply ok_bind; [apply ok_query|]. intros count s1. case_match; [apply ok_ret|].
  apply ok_bind; [apply ok_on_book; intros; apply Ab.at_select|]. intros [a|] s2; [|apply ok_ret].
  apply ok_bind; [apply ok_query|]. intros [] s3; apply ok_dial; intros r s4 Hr.
  - walk.
  - apply ok_bind; [by apply ok_register|]. intros. walk.
Qed.
#[local] Hint Resolve ok_dial_loop : node.

(** ** Dialling within a window of time *)

Section window.
Variable lim : Z.

(** The addresses of [l] were dialled, and may not be again before [lim]. *)
Definition dialled (l : list PeerAddress) n : Prop :=
  lim <= steady_ n + BASE_BACKOFF ∧ Forall (λ a, Ab.spent lim a (address_book_ n)) l.

Lemma dialled_later l n n' : later n n' → dialled l n → dialled l n'.
Proof.
  intros (_ & (Ht & _ & Hs) & _) [Hl Hf]. split; [lia|]. eapply Forall_impl; [exact Hf|]. intros a. by apply Hs.
Qed.

Lemma expired_later n n' : later n n' → lim <= steady_ n → lim <= steady_ n'.
Proof. intros (_ & (Ht & _) & _) Hl. lia. Qed.

Lemma dialled_bound l n : ninv n → NoDup l → dialled l n → (length l <= MAX_ENTRIES)%nat.
Proof.
  intros Hn Hnd [_ Hf]. destruct (ni_book n Hn) as (_ & Hlen & _).
  pose proof (Ab.spent_count lim l _ Hnd Hf). lia.
Qed.

Lemma bind_dialled {A} l (p : prog Node A) Q s0 :
  dialled l s0 → safe p Q s0 → safe p (λ a n, Q a n ∧ dialled l n) s0.
Proof. intros Hl. by apply psafe_frame; [intros n n'; apply dialled_later|]. Qed.

(** A selection before [lim] is of an address not dialled yet. *)
Lemma select_window l s0 :
  dialled l s0 →
  safe (on_book Ab.select_candidate) (λ r n,
    ∀ a, r = Some a → lim <= steady_ n ∨ (dialled (a :: l) n ∧ a ∉ l)) s0.
Proof.
  intros Hl. unfold on_book. apply psafe_atomic. intros n Hr Hn.
  pose proof (dialled_later _ _ _ Hr Hl) as Hl'. pose proof (ni_book n Hn) as Hb.
  pose proof (Ab.at_select (steady_ n) (address_book_ n)) as Hstep.
  pose proof (Ab.select_spends (steady_ n) lim) as Hsel.
  destruct (Ab.select_candidate (steady_ n) (address_book_ n)) as [r b] eqn:E. cbn [fst snd] in *.
  assert (later n (set_book b n)) as Hlt.
  { apply later_same; [done|done|]. split_and!; [done|done|]. intros lim' a Hu. by eapply Ab.step_at_spent. }
  split_and!; [|done|].
  - eapply ninv_set_book, Ab.book_step_inv; [done|by eapply Ab.step_at_step|done].
  - intros ? s' [= <-] Hr' _ a ->.
    destruct (Z.le_gt_cases lim (steady_ n)) as [?|Hlim]; [left; by eapply expired_later, expired_later|].
    destruct (Hsel a _ _ Hb Hlim E) as [Hno Hyes]. right. destruct Hl' as [Ht Hf]. split.
    + eapply dialled_later; [exact Hr'|]. split; [done|]. constructor; [done|].
      eapply Forall_impl; [exact Hf|]. intros x. by eapply Ab.step_at_spent.
    + intros Hin. rewrite Forall_forall in Hf. by apply Hno, Hf.
Qed.

Lemma dial_window k l s0 :
  NoDup l → dialled l s0 → (MAX_ENTRIES < length l + k)%nat →
  safe (dial_loop k) (λ ended n, ended = true ∨ lim <= steady_ n) s0.
Proof.
  revert l s0. induction k as [|k IH]; intros l s0 Hnd Hl Hk; cbn [dial_loop].
  { apply psafe_ret. intros s Hr Hs. pose proof (dialled_bound l s Hs Hnd (dialled_later _ _ _ Hr Hl)). lia. }
  eapply psafe_bind; [apply _|apply (psafe_keep _ _ _ (dialled l)); [apply dialled_later|done|apply ok_query]|].
  intros count s1 _ _ Hl1. case_match; [apply psafe_ret; by left|].
  eapply psafe_bind; [apply _|by apply (select_window l)|].
  intros [a|] s2 _ _ Hsel; [|apply psafe_ret; by left]. destruct (Hsel a eq_refl) as [Hexp|[Hl2 Hnew]].
  { eapply psafe_weaken; [|intros ended n Hn; right; exact Hn].
    apply (psafe_keep _ _ _ (λ n, lim <= steady_ n)); [apply expired_later|done|].
    apply ok_bind; [apply ok_query|]. intros [] s3; apply ok_dial; intros r s4 Hr.
    - apply ok_bind; [case_match; walk|]. intros. apply ok_dial_loop.
    - apply ok_bind; [by apply ok_register|]. intros. apply ok_bind; [case_match; walk|]. intros. apply ok_dial_loop. }
  assert (∀ s, dialled (a :: l) s → safe (dial_loop k) (λ ended n, ended = true ∨ lim <= steady_ n) s) as Hnext.
  { intros s Hs. apply (IH (a :: l)); [by constructor|done|simpl; lia]. }
  eapply psafe_bind; [apply _|by apply (bind_dialled (a :: l)), ok_query|]. intros [] s3 _ _ [_ Hl3].
  - eapply psafe_bind; [apply _|by apply (bind_dialled (a :: l)), ok_connect_to|]. intros r s4 _ _ [_ Hl4].
    eapply psafe_bind; [apply _|apply (bind_dialled (a :: l)); [done|case_match; walk]|]. intros _ s5 _ _ [_ Hl5].
    by apply Hnext.
  - eapply psafe_bind; [apply _|by apply (bind_dialled (a :: l)), ok_connect_to|]. intros r s4 _ _ [Hr Hl4].
    eapply psafe_bind; [apply _|by apply (bind_dialled (a :: l)), ok_register|]. intros c s5 _ _ [_ Hl5].
    eapply psafe_bind; [apply _|apply (bind_dialled (a :: l)); [done|case_match; walk]|]. intros _ s6 _ _ [_ Hl6].
    by apply Hnext.
Qed.
End window.

Lemma ok_ping_turn g s0 : ok (ping_turn g) s0.
Proof.
  unfold ping_turn. apply ok_bind.
  { apply ok_section. intros n Hn. pose proof (ping_scan_safe (peers_ n) n Hn).
    by destruct (ping_scan _ n). }
  intros l s1. apply ok_bind; [walk|]. intros _ s2. do 2 (apply ok_bind; [apply ok_query|]; intros).
  apply ok_bind.
  { case_match; [|apply ok_ret]. apply ok_bind; [apply ok_request_sync|]. intros _ s4. apply ok_modify.
    intros n Hn. split; [by apply ninv_set_sync|auto using later_same, book_later_same]. }
  intros. walk.
Qed.

Lemma ok_stop s0 : ok stop s0.
Proof.
  unfold stop. do 2 (apply ok_bind; [apply ok_modify; intros n Hn; split;
    [by apply ninv_set_flags|auto using later_same, book_later_same]|]; intros).
  apply ok_modify. intros n Hn.
  destruct (close_all_safe (peers_ n) (set_flags (listening_ n) (running_ n) true n)) as (Hi & Hl & _).
  { by apply ninv_set_flags. }
  split; [by apply ninv_no_peers|]. etransitivity; [|etransitivity; [exact Hl|auto using later_same, book_later_same]].
  auto using later_same, book_later_same.
Qed.

(** ** Schedules *)

(** What other threads and callers may run. A mined block is one of [U]. *)
Inductive thread : prog Node unit → Prop :=
| t_accept turns : thread (accept_loop turns)
| t_peer turns p : thread (peer_loop turns p)
| t_cleaner turns : thread (cleaner_loop turns)
| t_ping turns : thread (ping_loop turns)
| t_connect turns dials : thread (connect_loop turns dials)
| t_dial h pt : thread (connect_to_peer h pt;; mret tt)
| t_block b : Fork.known U b → thread (submit_block b)
| t_tx tx : thread (submit_transaction tx)
| t_remember h pt : thread (remember_peer h pt)
| t_start bound : thread (start bound;; mret tt)
| t_stop : thread stop.

(** The clocks: the steady one never goes back. *)
Inductive tick : Node → Node → Prop :=
| tick_clocks n t c : steady_ n <= t → tick n (set_clocks t c n).

Lemma ok_start bound s0 : ok (start bound) s0.
Proof.
  unfold start. case_match; [apply ok_ret|].
  apply ok_bind; [|intros; apply ok_ret]. apply ok_modify. intros n Hn.
  split; [by apply ninv_set_flags|auto using later_same, book_later_same].
Qed.

Lemma thread_ok p s0 : thread p → ok p s0.
Proof.
  intros Ht. destruct Ht as [k|k p|k|k|k d|h pt|b Hb|tx|h pt|bound|].
  - revert s0. induction k; intros s0; cbn [accept_loop]; walk.
  - apply ok_peer_loop.
  - revert s0. induction k as [|k IH]; intros s0; cbn [cleaner_loop]; [apply ok_ret|].
    apply ok_bind; [apply ok_query|]. intros [] s1; [|apply ok_ret]. cbn [negb].
    apply ok_bind; [apply ok_modify, sweep_safe|]. intros. unfold wait_or_stop. walk.
  - unfold ping_loop. apply ok_bind; [apply ok_query|]. intros g s1. revert s1 g.
    induction k as [|k IH]; intros s1 g; cbn [ping_turns]; [apply ok_ret|].
    apply ok_bind; [apply ok_query|]. intros [] s2; [|apply ok_ret]. cbn [negb].
    apply ok_bind; [apply ok_ping_turn|]. intros. unfold wait_or_stop. walk.
  - revert s0. induction k as [|k IH]; intros s0; cbn [connect_loop]; unfold wait_or_stop; walk.
  - apply ok_bind; [apply ok_connect_to_peer|intros; apply ok_ret].
  - unfold submit_block. walk.
  - unfold submit_transaction. walk.
  - unfold remember_peer. walk.
  - apply ok_bind; [apply ok_start|intros; apply ok_ret].
  - apply ok_stop.
Qed.

Lemma tick_ok n n' : tick n n' → ninv n → ninv n' ∧ later n n'.
Proof.
  intros [? t c Ht] Hn. split; [by apply ninv_set_clocks|]. by apply later_same; [done|done|split_and!].
Qed.

Lemma make_node_inv pt info c now clock dials accepts :
  Cs.inv U c → Forall (λ r, ∀ fd, r = Some fd → fd_ok fd) dials →
  Forall (λ r, ∀ fd h, r = Some (fd, h) → fd_ok fd) accepts →
  ninv (make_node pt info c now clock dials accepts).
Proof.
  intros Hc Hd Ha. split; simpl; try done.
  split; [constructor|]. split; [unfold MAX_ENTRIES; simpl; lia|constructor].
Qed.

(** The node is consistent at every point of every execution, whatever the threads,
    their number and their interleaving: from a new node on a consistent chain manager, after
    any schedule of critical sections of the accept, peer, cleaner, ping and connect loops
    and of the public operations, with the clock moving in between and calls that throw
    included, the chain manager and the address book satisfy their invariants, every peer
    pointer held by the peer list or by the synchronisation state is valid, no two live
    connections lead to the same host and listening port, the synchronisation buffer holds
    only blocks that were decoded from the wire and is empty when no synchronisation runs,
    and every recorded peer version has 64-bit fields. No peer object ever changes its host
    or version, and once dead or closed it stays so. *)
Theorem node_invariant pt info c now clock dials accepts n ts n' ts' :
  Cs.inv U c → Forall (λ r, ∀ fd, r = Some fd → fd_ok fd) dials →
  Forall (λ r, ∀ fd h, r = Some (fd, h) → fd_ok fd) accepts →
  rtc (sched tick thread) (make_node pt info c now clock dials accepts, []) (n, ts) →
  rtc (sched tick thread) (n, ts) (n', ts') →
  ninv n ∧ ninv n' ∧ later n n'.
Proof.
  intros Hc Hd Ha Hr Hr'. pose proof (make_node_inv pt info c now clock _ _ Hc Hd Ha) as Hi.
  destruct (interleaved_inv ninv later tick thread _ _ _ _ tick_ok (λ p s, thread_ok p s) Hi
    (Forall_nil_2 _) Hr) as (Hn & _ & Hts).
  destruct (interleaved_inv ninv later tick thread _ _ _ _ tick_ok (λ p s, thread_ok p s) Hn Hts Hr')
    as (Hn' & Hl & _). done.
Qed.

(** C9. The connect thread does not dial without end: whatever the other threads do
    meanwhile and whatever the clock does, when the inner loop of [connect_loop] has not
    ended after 1001 turns, at least five seconds have passed since it began. So at most
    1000 connections are attempted in any five seconds, and with the clock standing still
    the loop ends. *)
Theorem dialling_bounded pt info c now clock dials accepts n ts ended n' ts' :
  Cs.inv U c → Forall (λ r, ∀ fd, r = Some fd → fd_ok fd) dials →
  Forall (λ r, ∀ fd h, r = Some (fd, h) → fd_ok fd) accepts →
  rtc (sched tick thread) (make_node pt info c now clock dials accepts, []) (n, ts) →
  executes tick thread (dial_loop (S MAX_ENTRIES)) (n, ts) ended (n', ts') →
  ended = true ∨ steady_ n + seconds 5 <= steady_ n'.
Proof.
  intros Hc Hd Ha Hr Hex. pose proof (make_node_inv pt info c now clock _ _ Hc Hd Ha) as Hi.
  destruct (interleaved_inv ninv later tick thread _ _ _ _ tick_ok (λ p s, thread_ok p s) Hi
    (Forall_nil_2 _) Hr) as (Hn & _ & Hts).
  apply (executes_post ninv later tick thread (dial_loop (S MAX_ENTRIES))
    (λ ended n', ended = true ∨ steady_ n + seconds 5 <= steady_ n') n ts ended n' ts' tick_ok
    (λ p s, thread_ok p s) Hn Hts); [|done].
  apply (dial_window _ _ []); [constructor|by split|simpl; lia].
Qed.

(** ** Deciding [clean]

    Every place where a block message could start is looked at. *)
Definition clean_check (P : bytes → bool) (bs : bytes) : bool :=
  forallb (λ i, let t := drop i bs in
    if bool_decide (take 5 t = MAGIC_BYTES ++ [BLOCK])
    then P (take (Z.to_nat (of_le (take 4 (drop 5 t)))) (drop 9 t)) else true) (seq 0 (S (length bs))).

Lemma clean_check_sound P bs :
  sz bs < 2 ^ 32 → (∀ x, P x = true → U x) → clean_check P bs = true → clean bs.
Proof.
  intros Hsz HP Hc pre m rest E Ht. unfold clean_check in Hc. rewrite forallb_forall in Hc.
  specialize (Hc (length pre)). rewrite E, drop_app_exact in Hc. cbv zeta in Hc.
  rewrite <- E in Hc. apply HP. rewrite Msg.frame_header, Ht in Hc.
  assert (in_u 32 (sz (payload m))) as Hu.
  { rewrite E in Hsz. unfold Msg.frame in Hsz. rewrite !sz_app in Hsz. unfold sz in *. unfold in_u. lia. }
  destruct (Msg.header_fields BLOCK _ Hu) as (_ & _ & F3).
  set (h := Msg.header_of BLOCK (sz (payload m))) in *.
  assert (length h = 9%nat) as Hl by apply Msg.length_header_of.
  assert (In (length pre) (seq 0 (S (length bs)))) as Hin.
  { apply in_seq. rewrite E, length_app. lia. }
  specialize (Hc Hin). rewrite <- app_assoc in Hc.
  replace (take 5 (h ++ payload m ++ rest)) with (MAGIC_BYTES ++ [BLOCK]) in Hc by done.
  rewrite bool_decide_true in Hc by done.
  rewrite drop_app_le in Hc by lia. rewrite take_app_le in Hc by (rewrite length_drop; lia).
  rewrite F3, drop_app_length' in Hc by done. unfold sz in Hc. rewrite Nat2Z.id, take_app_exact in Hc. done.
Qed.
End safety.

(** ** A concrete node *)
Section witnesses.
#[local] Existing Instance demo_crypto.
#[local] Existing Instance demo_crypto_laws.
#[local] Existing Instance demo_sqlite.
#[local] Existing Instance Op.demo_buckets.
#[local] Existing Instance Ab.demo_inet.
#[local] Existing Instance Cs.universe_cf.

Definition version_of (id height : Z) : VersionInfo := mkVersionInfo 1 height 1700000000 8333 id.

(** A peer that announces five blocks and sends one. *)
Definition demo_peer_stream : bytes :=
  Msg.frame (Msg.version_message (version_of 78 5)) ++ Msg.frame (mkMessage BLOCK (Blk.serialize Cs.block_a)).

Definition demo_fd : Socket := mkSocket [Segment demo_peer_stream] [] (replicate 20 100000).

Lemma demo_fd_ok : fd_ok Cs.universe demo_fd.
Proof.
  assert (clean Cs.universe demo_peer_stream) as Hc; [|unfold fd_ok, demo_fd; cbn [inbound arriving]; by rewrite app_nil_r].
  apply (clean_check_sound Cs.universe (λ x, bool_decide (x ∈ Blk.serialize <$> Cs.demo_blocks))).
  - by vm_compute.
  - intros x. by rewrite bool_decide_eq_true.
  - by vm_compute.
Qed.

Definition node_0 : Node := make_node 9000 (version_of 77 1) Cs.fresh 0 1000 [Some demo_fd] [].

Definition dial_demo : prog Node unit := connect_to_peer (lit "93.184.216.34") 8333;; mret tt.

Definition node_1 : Node := (run (start true;; mret tt) node_0).2.
Definition node_2 : Node := (run dial_demo node_1).2.
Definition node_3 : Node := (run (peer_loop 1 0) node_2).2.

Lemma schedule_run p n ts :
  thread Cs.universe p → is_ok (run p n).1 = true →
  rtc (sched tick (thread Cs.universe)) (n, ts) ((run p n).2, Ret tt :: ts).
Proof.
  intros Ht Hok. eapply rtc_l; [by apply (sched_spawn _ _ _ _ p)|]. apply run_sched.
  destruct (run p n) as [[[]|e] n']; done.
Qed.

Lemma node_invariant_witness :
  ninv Cs.universe node_2 ∧ ninv Cs.universe node_3 ∧ later node_2 node_3.
Proof.
  apply (node_invariant Cs.universe 9000 (version_of 77 1) Cs.fresh 0 1000 [Some demo_fd] []
    node_2 [Ret tt; Ret tt] node_3 [Ret tt; Ret tt; Ret tt]).
  - exact Cs.fresh_inv.
  - constructor; [|constructor]. intros fd [= <-]. exact demo_fd_ok.
  - constructor.
  - etransitivity; [apply (schedule_run _ node_0 [] (t_start _ true)); by vm_compute|].
    apply (schedule_run _ node_1 [Ret tt] (t_dial _ (lit "93.184.216.34") 8333)); by vm_compute.
  - apply (schedule_run _ node_2 [Ret tt; Ret tt] (t_peer _ 1 0)); by vm_compute.
Defined.

(** The peer was registered and its block is in the synchronisation buffer. *)
Example demo_buffered :
  (peer_count node_3, hash_ <$> sync_buffer (sync_state_ node_3)) = (1%nat, [hash_ Cs.block_a]).
Proof. by vm_compute. Qed.
(** A node that has been told of one address dials it once, and its loop ends. *)
Definition node_r : Node := (run (remember_peer (lit "93.184.216.34") 8333) node_1).2.
Definition node_d : Node := (run (dial_loop (S MAX_ENTRIES)) node_r).2.

Lemma node_d_run : run (dial_loop (S MAX_ENTRIES)) node_r = (Ok true, node_d).
Proof.
  assert ((run (dial_loop (S MAX_ENTRIES)) node_r).1 = Ok true) as E by (vm_compute; reflexivity).
  unfold node_d. destruct (run (dial_loop (S MAX_ENTRIES)) node_r) as [r n]. cbn [fst snd] in *. by rewrite E.
Qed.

Lemma dialling_bounded_witness :
  (peer_count node_r, peer_count node_d) = (0%nat, 1%nat) ∧
  (true = true ∨ steady_ node_r + seconds 5 <= steady_ node_d).
Proof.
  split; [by vm_compute|].
  apply (dialling_bounded Cs.universe 9000 (version_of 77 1) Cs.fresh 0 1000 [Some demo_fd] []
    node_r [Ret tt; Ret tt] true node_d [Ret tt; Ret tt]).
  - exact Cs.fresh_inv.
  - constructor; [|constructor]. intros fd [= <-]. apply demo_fd_ok.
  - constructor.
  - etransitivity; [apply (schedule_run _ node_0 [] (t_start _ true)); by vm_compute|].
    apply (schedule_run _ node_1 [Ret tt] (t_remember _ (lit "93.184.216.34") 8333)); by vm_compute.
  - apply run_executes. exact node_d_run.
Defined.

(** The inner loop does not look at [running_]: a node that was stopped while its connect
    thread was dialling goes on to the next address, takes up the connection and performs the
    handshake, before it notices that it has no use for it. *)
Definition node_s : Node := (run stop node_r).2.

Theorem dialling_ignores_stop :
  let '(r, n) := run (dial_loop (S MAX_ENTRIES)) node_s in
  running_ node_s = false ∧ r = Ok true ∧ length (dials_ node_s) = 1%nat ∧ dials_ n = [] ∧
  length (heap_ n) = 1%nat ∧ peer_count n = 0%nat.
Proof. by vm_compute. Qed.
End witnesses.
End Ns.
