(* ===== verification/NodePeers.v ===== *)
(** * Connections of a node

    Which connection survives when two nodes dial each other, how silent peers are dropped,
    and what one malformed transaction does to a node. *)

From S2P Require Import Prelude Prog Text Codec Crypto Demo Transaction Block Ledger Mempool OrphanPool.
From S2P Require Import ProofOfWork Blockchain ForkResolution BlockLocator Storage ChainManager ChainLedger.
From S2P Require Import ChainSafety Wire Message AddressBook Node NodeSafety.

Module Np.
Import Nd.

Section peers.
Context `{CryptoLaws} `{Buckets} `{!BlockStore} `{Inet}.

Implicit Types n : Node.

(** ** Simultaneous connections *)

(** The connection is in the peer list and alive. *)
Definition surviving (p : nat) n : Prop :=
  ∃ e, e ∈ peers_ n ∧ pe_peer e = p ∧ is_alive n p = true.

(** [p] and [p'] are new live connections to one and the same node, not listed yet, and no
    listed one leads there. *)
Record pair_ready n (p p' : nat) (id : Z) : Prop := {
  pr_running : stopping_ n = false;
  pr_ne : p ≠ p';
  pr_new : (p ∉ pe_peer <$> peers_ n) ∧ (p' ∉ pe_peer <$> peers_ n);
  pr_heap : is_Some (heap_ n !! p) ∧ is_Some (heap_ n !! p');
  pr_alive : is_alive n p = true ∧ is_alive n p' = true;
  pr_id : node_id (remote_version_ (deref n p)) = id ∧ node_id (remote_version_ (deref n p')) = id;
  pr_address : peer_address (deref n p) = peer_address (deref n p');
  pr_port : port (peer_address (deref n p)) ≠ 0;
  pr_alone : ∀ e, e ∈ peers_ n → is_alive n (pe_peer e) = true →
    peer_address (deref n (pe_peer e)) ≠ peer_address (deref n p)
}.

Lemma pair_ready_sym n p p' id : pair_ready n p p' id → pair_ready n p' p id.
Proof.
  intros [? ? [? ?] [? ?] [? ?] [? ?] Ha Hp Hn]. split; try done; [by rewrite <- Ha|].
  intros e He Hal. rewrite <- Ha. by apply Hn.
Qed.

(** The first of two connections enters; the second replaces it exactly when its direction is
    the one the smaller identity dials. *)
Lemma admit_first n p p' id d :
  pair_ready n p p' id → admit_peer p d n = (Some true, push_peer p d n).
Proof.
  intros Hr. unfold admit_peer. rewrite (pr_running _ _ _ _ Hr).
  pose proof (Ns.rival_spec (peer_host_ (deref n p)) (listen_port (remote_version_ (deref n p))) n) as Hs.
  destruct (rival _ _ n) as [e|]; [|done]. destruct Hs as (He & Ha & Hpa & _).
  by destruct (pr_alone _ _ _ _ Hr e He Ha).
Qed.

Lemma admit_second n p p' id d d' :
  pair_ready n p p' id →
  let n1 := push_peer p d n in
  (admit_peer p' d' n1).2 =
    if Bool.eqb (node_id (info_ n) <? id) d'
    then push_peer p' d' (close_socket p (mark_dead p n1)) else n1.
Proof.
  intros Hr n1. unfold admit_peer. change (stopping_ n1) with (stopping_ n). rewrite (pr_running _ _ _ _ Hr).
  change (deref n1) with (deref n). change (info_ n1) with (info_ n).
  rewrite (proj2 (pr_id _ _ _ _ Hr)).
  pose proof (Ns.rival_spec (peer_host_ (deref n p')) (listen_port (remote_version_ (deref n p'))) n1) as Hs.
  assert (peer_address (deref n p) =
    mkPeerAddress (peer_host_ (deref n p')) (listen_port (remote_version_ (deref n p')))) as Ha
    by apply (pr_address _ _ _ _ Hr).
  destruct (rival _ _ n1) as [e|].
  - destruct Hs as (He & Hal & Hpa & Hz). change (deref n1) with (deref n) in Hpa.
    apply elem_of_app in He as [He|He%list_elem_of_singleton].
    + destruct (pr_alone _ _ _ _ Hr e He Hal). by rewrite Hpa, Ha.
    + subst e. cbn [pe_peer]. by destruct (Bool.eqb _ d').
  - exfalso. apply (pr_port _ _ _ _ Hr). rewrite Ha. apply (Hs (mkPeerEntry p d)).
    + apply elem_of_app. right. by apply list_elem_of_singleton.
    + apply (pr_alive _ _ _ _ Hr).
    + done.
Qed.

(** Both connections handled, in this order. *)
Definition admit_two (p : nat) (d : bool) (p' : nat) (d' : bool) n : Node := (admit_peer p' d' (admit_peer p d n).2).2.

Lemma admit_two_survivors n p p' id d :
  pair_ready n p p' id →
  let n' := admit_two p d p' (negb d) n in
  let new_wins := Bool.eqb (node_id (info_ n) <? id) (negb d) in
  (surviving p n' ↔ new_wins = false) ∧ (surviving p' n' ↔ new_wins = true).
Proof.
  intros Hr n' w. subst n'. unfold admit_two. rewrite (admit_first _ _ _ _ d Hr). cbn [snd].
  rewrite (admit_second _ _ _ _ d (negb d) Hr). fold w.
  destruct Hr as [_ Hne [Hn Hn'] [[q Hq] [q' Hq']] [Hal Hal'] _ _ _ _].
  destruct w.
  - set (m := close_socket p (mark_dead p (push_peer p d n))).
    assert (is_alive m p = false) as Hd.
    { unfold is_alive, deref, m, close_socket, mark_dead, update. cbn [heap_ set_heap push_peer set_peers].
      by rewrite !list_lookup_alter_eq, Hq. }
    assert (is_alive m p' = true) as Hl.
    { revert Hal'. unfold is_alive, deref, m, close_socket, mark_dead, update.
      cbn [heap_ set_heap push_peer set_peers]. by rewrite !list_lookup_alter_ne by done. }
    split; (split; [|done || intros _]).
    + intros (e & _ & _ & Ha). change (is_alive m p = true) in Ha. congruence.
    + done.
    + exists (mkPeerEntry p' (negb d)). split_and!; [|done|done].
      apply elem_of_app. right. by apply list_elem_of_singleton.
  - split; (split; [|done || intros _]).
    + done.
    + exists (mkPeerEntry p d). split_and!; [|done|done].
      apply elem_of_app. right. by apply list_elem_of_singleton.
    + intros (e & He & Hp & _). apply elem_of_app in He as [He|He%list_elem_of_singleton]; [|by subst e].
      destruct Hn'. rewrite <- Hp. by apply list_elem_of_fmap_2.
Qed.

(** C11. Two nodes that dial each other keep the same connection. Connection [a] was dialled
    by the first node and [b] by the second; whatever the order in which each side gets to
    register them, and even when the two sides differ in it, both keep exactly the connection
    that the node with the smaller identity dialled, and drop the other. *)
Theorem duplicate_connections_agree n1 n2 a1 b1 a2 b2 (first1 first2 : bool) :
  let id1 := node_id (info_ n1) in let id2 := node_id (info_ n2) in
  pair_ready n1 a1 b1 id2 → pair_ready n2 a2 b2 id1 → id1 ≠ id2 →
  let n1' := if first1 then admit_two a1 true b1 false n1 else admit_two b1 false a1 true n1 in
  let n2' := if first2 then admit_two a2 false b2 true n2 else admit_two b2 true a2 false n2 in
  (surviving a1 n1' ↔ id1 < id2) ∧ (surviving a2 n2' ↔ id1 < id2) ∧
  (surviving b1 n1' ↔ id2 < id1) ∧ (surviving b2 n2' ↔ id2 < id1).
Proof.
  intros id1 id2 H1' H2' Hne n1' n2'. subst n1' n2'.
  pose proof (admit_two_survivors n1 a1 b1 id2 true H1') as [A1 A2].
  pose proof (admit_two_survivors n1 b1 a1 id2 false (pair_ready_sym _ _ _ _ H1')) as [A3 A4].
  pose proof (admit_two_survivors n2 a2 b2 id1 false H2') as [B1 B2].
  pose proof (admit_two_survivors n2 b2 a2 id1 true (pair_ready_sym _ _ _ _ H2')) as [B3 B4].
  fold id1 in A1, A2, A3, A4. fold id2 in B1, B2, B3, B4. cbn [negb] in *.
  destruct (Z.ltb_spec id1 id2), (Z.ltb_spec id2 id1); try lia; cbn [Bool.eqb] in *;
  destruct first1, first2;
    (rewrite ?A1, ?A2, ?A3, ?A4, ?B1, ?B2, ?B3, ?B4); split_and!; (split; [done || lia|done || lia]).
Qed.

(** ** Silent peers *)

Lemma elapsed_ge k now q : 0 < k → (k <= elapsed now q ↔ seconds k <= now - last_seen_ q).
Proof.
  intros Hk. unfold elapsed, seconds. destruct (Z.le_gt_cases 0 (now - last_seen_ q)) as [Hp|Hn].
  - rewrite Z.quot_div_nonneg by lia. pose proof (Z.div_le_lower_bound (now - last_seen_ q) 1000000000 k).
    pose proof (Z.mul_div_le (now - last_seen_ q) 1000000000). lia.
  - assert (Z.quot (now - last_seen_ q) 1000000000 <= 0) as Hz; [|lia].
    replace (now - last_seen_ q) with (- (last_seen_ q - now)) by lia.
    rewrite Z.quot_opp_l by lia. pose proof (Z.quot_pos (last_seen_ q - now) 1000000000). lia.
Qed.

(** Alive, but silent for [PING_TIMEOUT]. *)
Definition idle n (q : Peer) : bool := alive_ q && (PING_TIMEOUT <=? elapsed (steady_ n) q).

(** To be pinged. *)
Definition quiet n (q : Peer) : bool :=
  alive_ q && (PING_INTERVAL <=? elapsed (steady_ n) q) && (elapsed (steady_ n) q <? PING_TIMEOUT).

Lemma ping_entry_spec n e :
  let q := deref n (pe_peer e) in
  ping_entry n e = (quiet n q, if idle n q then mark_dead (pe_peer e) n else n).
Proof.
  cbv zeta. unfold ping_entry, quiet, idle, PING_INTERVAL, PING_TIMEOUT.
  destruct (alive_ _); [|done]. cbn [negb andb]. rewrite Z.leb_antisym.
  destruct (Z.ltb_spec (elapsed (steady_ n) (deref n (pe_peer e))) 40); cbn [negb];
    by rewrite ?andb_true_r, ?andb_false_r.
Qed.

(** The scan marks the idle peers among the entries and touches nothing else. *)
Lemma mark_idle n p p' :
  deref (if idle n (deref n p) then mark_dead p n else n) p' =
  if bool_decide (p' = p) && idle n (deref n p') then peer_mark_dead (deref n p') else deref n p'.
Proof.
  case_bool_decide as Hp; cbn [andb]; [subst p'|].
  - destruct (idle n (deref n p)) eqn:Ei; [|done]. unfold mark_dead, update, deref in *.
    cbn [heap_ set_heap]. rewrite list_lookup_alter_eq. by destruct (heap_ n !! p).
  - destruct (idle n (deref n p)); [|done]. unfold mark_dead, update, deref. cbn [heap_ set_heap].
    by rewrite list_lookup_alter_ne by done.
Qed.

Lemma ping_scan_spec es n :
  let '(to_ping, n') := ping_scan es n in
  to_ping = pe_peer <$> filter (λ e, quiet n (deref n (pe_peer e)) = true) es ∧
  peers_ n' = peers_ n ∧ steady_ n' = steady_ n ∧
  ∀ p, deref n' p = if bool_decide (p ∈ pe_peer <$> es) && idle n (deref n p)
                    then peer_mark_dead (deref n p) else deref n p.
Proof.
  revert n. induction es as [|e es IH]; intros n; cbn [ping_scan]; [done|].
  rewrite ping_entry_spec. set (n1 := if idle _ _ then _ else _).
  assert (steady_ n1 = steady_ n ∧ peers_ n1 = peers_ n) as [Es Ep]
    by (unfold n1; by destruct (idle _ _)).
  assert (∀ p, quiet n1 (deref n1 p) = quiet n (deref n p)) as Eq.
  { intros p. unfold quiet. rewrite Es. unfold n1. rewrite mark_idle.
    destruct (bool_decide _ && idle n (deref n p)) eqn:Ei; [|done].
    apply andb_true_iff in Ei as [_ Ei]. unfold idle in Ei. apply andb_true_iff in Ei as [Ha Ht].
    rewrite Ha. cbn [andb peer_mark_dead alive_]. apply Z.leb_le in Ht.
    change (elapsed (steady_ n) (peer_mark_dead (deref n p))) with (elapsed (steady_ n) (deref n p)).
    by rewrite (proj2 (Z.ltb_ge _ _) Ht), andb_false_r. }
  specialize (IH n1). destruct (ping_scan es n1) as [l n2]. destruct IH as (-> & Ep2 & Es2 & Hd).
  split_and!; [|congruence|congruence|].
  - rewrite filter_cons.
    rewrite (list_filter_iff (λ e, quiet n1 (deref n1 (pe_peer e)) = true)
      (λ e, quiet n (deref n (pe_peer e)) = true)) by (intros; by rewrite Eq).
    destruct (quiet n (deref n (pe_peer e))) eqn:Ee.
    + by rewrite decide_True.
    + by rewrite decide_False.
  - intros p. rewrite Hd.
    assert (deref n1 p = if bool_decide (p = pe_peer e) && idle n (deref n p)
      then peer_mark_dead (deref n p) else deref n p) as Hm by apply mark_idle.
    assert (idle n1 (deref n1 p) = negb (bool_decide (p = pe_peer e)) && idle n (deref n p)) as Hi.
    { rewrite Hm. unfold idle. rewrite Es. case_bool_decide; cbn [negb andb]; [|done].
      by destruct (alive_ (deref n p) && _) eqn:Ei. }
    rewrite Hi, Hm. cbn [fmap list_fmap]. destruct (decide (p = pe_peer e)) as [->|Hne].
    + rewrite (bool_decide_true (pe_peer e = _)) by done.
      rewrite (bool_decide_true (pe_peer e ∈ _ :: _)) by left. cbn [andb negb].
      by rewrite andb_false_r.
    + rewrite (bool_decide_false (p = _)) by done. cbn [andb negb].
      by rewrite (bool_decide_ext (p ∈ pe_peer e :: _) (p ∈ pe_peer <$> es)) by set_solver.
Qed.

Lemma sweep_entries n e : e ∈ peers_ (sweep n) ↔ is_alive n (pe_peer e) = true ∧ e ∈ peers_ n.
Proof. unfold sweep. cbn [peers_ set_peers]. by rewrite list_elem_of_filter. Qed.

Lemma close_all_deref l n p :
  deref (foldl (λ n e, close_socket (pe_peer e) n) n l) p =
  if bool_decide (p ∈ pe_peer <$> l) then peer_close (deref n p) else deref n p.
Proof.
  revert n. induction l as [|e l IH]; intros n; [done|]. cbn [foldl]. rewrite IH.
  assert (deref (close_socket (pe_peer e) n) p =
    if bool_decide (p = pe_peer e) then peer_close (deref n p) else deref n p) as ->.
  { unfold deref, close_socket, update. cbn [heap_ set_heap].
    destruct (decide (p = pe_peer e)) as [->|Hp].
    - rewrite bool_decide_true, list_lookup_alter_eq by done. by destruct (heap_ n !! pe_peer e).
    - by rewrite bool_decide_false, list_lookup_alter_ne by done. }
  rewrite fmap_cons. destruct (decide (p = pe_peer e)) as [->|Hne].
  - rewrite (bool_decide_true (pe_peer e ∈ _ :: _)) by left. rewrite (bool_decide_true (pe_peer e = _)) by done.
    by case_bool_decide.
  - rewrite (bool_decide_false (p = _)) by done.
    by rewrite (bool_decide_ext (p ∈ pe_peer e :: _) (p ∈ pe_peer <$> l)) by set_solver.
Qed.

Lemma sweep_deref n p :
  deref (sweep n) p =
  if bool_decide (p ∈ pe_peer <$> peers_ n) && negb (is_alive n p) then peer_close (deref n p) else deref n p.
Proof.
  unfold sweep. change (deref (set_peers ?l ?m) p) with (deref m p). rewrite close_all_deref.
  destruct (bool_decide (p ∈ pe_peer <$> peers_ n) && negb (is_alive n p)) eqn:E.
  - apply andb_true_iff in E as [(e & -> & He)%bool_decide_eq_true%list_elem_of_fmap Ha%negb_true_iff].
    rewrite bool_decide_true; [reflexivity|]. apply list_elem_of_fmap_2, list_elem_of_filter.
    split; [exact Ha|exact He].
  - rewrite bool_decide_false; [done|]. intros Hin.
    apply list_elem_of_fmap in Hin as (e & -> & [Ha He]%list_elem_of_filter).
    rewrite Ha, bool_decide_true in E; [done|]. by apply list_elem_of_fmap_2.
Qed.

(** Silent peers are dropped. One scan of the ping thread and one sweep of the cleaner
    decide the fate of every live connection by the time since its last message: after 40
    seconds or more it is marked dead, its socket is closed and it leaves the peer list;
    before that it stays exactly as it was; and it is pinged exactly when it has been silent
    for 5 seconds but less than 40. *)
Theorem silent_peers_dropped n e :
  e ∈ peers_ n → is_alive n (pe_peer e) = true →
  let q := deref n (pe_peer e) in
  let silence := steady_ n - last_seen_ q in
  let '(to_ping, n1) := ping_scan (peers_ n) n in
  let n2 := sweep n1 in
  (seconds 40 <= silence → (e ∉ peers_ n2) ∧ is_alive n2 (pe_peer e) = false ∧
    socket_open (deref n2 (pe_peer e)) = false) ∧
  (silence < seconds 40 → e ∈ peers_ n2 ∧ deref n2 (pe_peer e) = q) ∧
  (pe_peer e ∈ to_ping ↔ seconds 5 <= silence < seconds 40).
Proof.
  intros He Ha q silence. subst q silence.
  pose proof (ping_scan_spec (peers_ n) n) as Hs. destruct (ping_scan (peers_ n) n) as [l n1].
  destruct Hs as (-> & Ep & _ & Hd). specialize (Hd (pe_peer e)).
  rewrite bool_decide_true in Hd by by apply list_elem_of_fmap_2. cbn [andb] in Hd.
  unfold is_alive in Ha. unfold idle in Hd. rewrite Ha in Hd. cbn [andb] in Hd.
  pose proof (elapsed_ge 40 (steady_ n) (deref n (pe_peer e)) eq_refl) as E40.
  pose proof (elapsed_ge 5 (steady_ n) (deref n (pe_peer e)) eq_refl) as E5.
  cbv zeta. split_and!.
  - intros Hsil%E40. rewrite (proj2 (Z.leb_le PING_TIMEOUT _)) in Hd by done.
    assert (is_alive n1 (pe_peer e) = false) as Hdead by (unfold is_alive; by rewrite Hd).
    assert (deref (sweep n1) (pe_peer e) = peer_close (deref n1 (pe_peer e))) as Hc.
    { rewrite sweep_deref, Ep, Hdead, bool_decide_true; [done|]. by apply list_elem_of_fmap_2. }
    rewrite sweep_entries, Hdead. unfold is_alive. rewrite Hc, Hd. naive_solver.
  - intros Hsil. assert (elapsed (steady_ n) (deref n (pe_peer e)) < PING_TIMEOUT) as Hlt.
    { destruct (Z.lt_ge_cases (elapsed (steady_ n) (deref n (pe_peer e))) PING_TIMEOUT) as [?|Hge]; [done|].
      apply E40 in Hge. lia. }
    rewrite (proj2 (Z.leb_gt PING_TIMEOUT _)) in Hd by done.
    assert (is_alive n1 (pe_peer e) = true) as Hal by (unfold is_alive; by rewrite Hd).
    rewrite sweep_entries, sweep_deref, Ep, Hal, andb_false_r. by rewrite Hd.
  - rewrite list_elem_of_fmap. unfold quiet, PING_INTERVAL, PING_TIMEOUT in *. split.
    + intros (e' & Epp & [Hq _]%list_elem_of_filter). rewrite <- Epp, Ha in Hq.
      rewrite !andb_true_iff, Z.leb_le, Z.ltb_lt in Hq. lia.
    + intros [H5 H40]. exists e. split; [done|]. apply list_elem_of_filter. split; [|done].
      rewrite Ha, !andb_true_iff, Z.leb_le, Z.ltb_lt. lia.
Qed.

(** ** One turn of a peer's thread *)

(** The state after a message has been read. *)
Definition heard (p : nat) (fd : Socket) n : Node := touch p (update (peer_set_socket fd) p n).

Lemma peer_loop_turn n p turns m rest :
  running_ n = true → is_alive n p = true → socket_open (deref n p) = true → Msg.frame_wf m →
  Msg.stream (inbound (socket_ (deref n p))) = Msg.frame m ++ rest →
  ∃ fd, Msg.receive_message (socket_ (deref n p)) = (Some m, fd) ∧ Msg.stream (inbound fd) = rest ∧
    outbound fd = outbound (socket_ (deref n p)) ∧
    run (peer_loop (S turns) p) n = run (dispatch p m;; peer_loop turns p) (heard p fd n).
Proof.
  intros Hrun Hal Hop Hm Hs. destruct (Msg.receive_frame _ m rest Hm Hs) as (fd & Er & Hrest & Ho).
  exists fd. split_and!; [done..|].
  cbn [peer_loop]. rewrite (run_bind_Ok _ _ _ true n) by (rewrite run_query; by rewrite Hrun, Hal). cbn [negb].
  rewrite (run_bind_Ok _ _ _ (Some m) (update (peer_set_socket fd) p n)).
  2: { rewrite run_atomic. unfold receive_section. by rewrite Hop, Er. }
  by rewrite (run_bind_Ok _ _ _ tt (heard p fd n)).
Qed.

(** ** A malformed transaction *)

(** C37. One message ends the process: for every byte string that is not the encoding of a
    curve point, a running node whose live peer sends a transaction claiming that public key
    throws out of that peer's thread, where nothing catches the exception. *)
Theorem malformed_key_kills_node pk n p turns rest :
  EC_POINT_oct2point pk = None → in_u 32 (sz pk) →
  let m := mkMessage TX (Tx.serialize (Tx.claiming pk)) in
  running_ n = true → is_alive n p = true → socket_open (deref n p) = true → Msg.frame_wf m →
  Msg.stream (inbound (socket_ (deref n p))) = Msg.frame m ++ rest →
  (run (peer_loop (S turns) p) n).1 = Throw RuntimeError.
Proof.
  intros Hpk Hsz m Hrun Hal Hop Hm Hs. destruct (Tx.malformed_key_tx pk Hpk Hsz) as [Hrt Hth].
  destruct (peer_loop_turn n p turns m rest Hrun Hal Hop Hm Hs) as (fd & _ & _ & _ & ->).
  apply run_bind_Throw. unfold dispatch, m. cbn [type payload].
  rewrite !decide_False by done. rewrite decide_True by done.
  unfold handle_tx. rewrite Hrt. apply run_bind_Throw.
  unfold on_chain. rewrite run_atomic. unfold st_zoom, Cm.submit_transaction, Cm.on_mempool, st_zoom.
  set (mp := mempool_ _). pose proof (Mp.add_transaction_cases (Tx.claiming pk) mp) as Hc.
  inversion Hc as [e He Heq|He Heq|He ? Heq|He ? ? Heq|c He ? ? ? ? Heq|c He ? ? ? ? Heq|He ? ? ? Heq];
    rewrite Hth in He; by simplify_eq.
Qed.
End peers.

(** ** Witnesses *)
Section witnesses.
#[local] Existing Instance demo_crypto.
#[local] Existing Instance demo_crypto_laws.
#[local] Existing Instance demo_sqlite.
#[local] Existing Instance Op.demo_buckets.
#[local] Existing Instance Ab.demo_inet.

Definition peer_of (id seen : Z) (h : string) (bs : bytes) : Peer :=
  make_peer (mkSocket [Segment bs] [] []) (Ns.version_of id 1) (lit h) seen.

(** A running node of identity [id] that holds the given peers. *)
Definition node_with (id now : Z) (heap : list Peer) (entries : list PeerEntry) : Node :=
  set_peers entries (set_heap heap (set_flags true true false
    (make_node 9000 (Ns.version_of id 1) Cs.fresh now 1000 [] []))).

Definition left_node : Node := node_with 77 0 [peer_of 78 0 "10.0.0.2" []; peer_of 78 0 "10.0.0.2" []] [].
Definition right_node : Node := node_with 78 0 [peer_of 77 0 "10.0.0.1" []; peer_of 77 0 "10.0.0.1" []] [].

Lemma demo_pair n id h :
  heap_ n = [peer_of id 0 h []; peer_of id 0 h []] → peers_ n = [] → stopping_ n = false →
  pair_ready n 0 1 id.
Proof.
  intros Eh Ep Es. split; unfold is_alive, deref; rewrite ?Eh, ?Ep; simpl; try done.
  - split; apply not_elem_of_nil.
  - intros e He. by apply not_elem_of_nil in He.
Qed.

Lemma duplicate_connections_agree_witness :
  let n1 := admit_two 0 true 1 false left_node in
  let n2 := admit_two 1 true 0 false right_node in
  (surviving 0 n1 ↔ 77 < 78) ∧ (surviving 0 n2 ↔ 77 < 78) ∧
  (surviving 1 n1 ↔ 78 < 77) ∧ (surviving 1 n2 ↔ 78 < 77).
Proof.
  apply (duplicate_connections_agree left_node right_node 0 1 0 1 true false).
  - by eapply demo_pair.
  - by eapply demo_pair.
  - done.
Defined.

(** One peer heard 10 seconds ago and one 50 seconds ago. *)
Definition silent_node : Node :=
  node_with 77 (seconds 100) [peer_of 78 (seconds 90) "10.0.0.2" []; peer_of 79 (seconds 50) "10.0.0.3" []]
    [mkPeerEntry 0 true; mkPeerEntry 1 false].

Lemma silent_peers_dropped_witness :
  let e := mkPeerEntry 1 false in
  let q := deref silent_node 1 in
  let silence := steady_ silent_node - last_seen_ q in
  let '(to_ping, n1) := ping_scan (peers_ silent_node) silent_node in
  let n2 := sweep n1 in
  (seconds 40 <= silence → (e ∉ peers_ n2) ∧ is_alive n2 (pe_peer e) = false ∧
    socket_open (deref n2 (pe_peer e)) = false) ∧
  (silence < seconds 40 → e ∈ peers_ n2 ∧ deref n2 (pe_peer e) = q) ∧
  (pe_peer e ∈ to_ping ↔ seconds 5 <= silence < seconds 40).
Proof.
  apply (silent_peers_dropped silent_node (mkPeerEntry 1 false)).
  - right. left.
  - done.
Defined.

Example silent_peers : (ping_scan (peers_ silent_node) silent_node).1 = [0%nat] ∧
  peers_ (sweep (ping_scan (peers_ silent_node) silent_node).2) = [mkPeerEntry 0 true].
Proof. by vm_compute. Qed.

Definition bad_tx_node : Node :=
  node_with 77 0 [peer_of 78 0 "10.0.0.2" (Msg.frame (mkMessage TX (Tx.serialize (Tx.claiming (lit "junk")))))]
    [mkPeerEntry 0 true].

Lemma malformed_key_kills_node_witness :
  (run (peer_loop 1 0) bad_tx_node).1 = Throw RuntimeError.
Proof. apply (malformed_key_kills_node (lit "junk") bad_tx_node 0 0 []); by vm_compute. Defined.
End witnesses.
End Np.
