(* ===== verification/NodeSync.v ===== *)
(** * Two nodes talking

    The exchanges by which a block travels and a node catches up, through the threads of two
    nodes: each side reads from its stream the bytes the other has written. *)

From S2P Require Import Prelude Prog Text Codec Crypto Demo Transaction Block Ledger Mempool OrphanPool.
From S2P Require Import ProofOfWork Blockchain ForkResolution BlockLocator Storage ChainManager ChainLedger.
From S2P Require Import ChainSafety ChainProgress ChainSync Wire Message AddressBook Node NodeSafety NodePeers.

Module Ny.
Import Nd.

(** The bytes a connection will deliver, and those written to it. *)
Abbreviation coming n p := (Msg.stream (inbound (socket_ (deref n p)))).
Abbreviation written n p := (outbound (socket_ (deref n p))).

Section net.
Context `{CryptoLaws} `{Buckets} `{!BlockStore} `{Inet} (U : bytes → Prop) {CF : CollisionFree U}.

Implicit Types n : Node.

(** ** Connections *)

(** The peer can be talked to. *)
Definition connected n (p : nat) : Prop :=
  running_ n = true ∧ is_alive n p = true ∧ socket_open (deref n p) = true.

Lemma connected_valid n p : connected n p → heap_ n !! p = Some (deref n p).
Proof.
  intros (_ & Ha & _). unfold is_alive, deref in *. by destruct (heap_ n !! p).
Qed.

Lemma deref_set_socket n p fd :
  connected n p → deref (update (peer_set_socket fd) p n) p = peer_set_socket fd (deref n p).
Proof.
  intros Hq%connected_valid. unfold deref at 1, update. cbn [heap_ set_heap].
  by rewrite list_lookup_alter_eq, Hq.
Qed.

Lemma connected_set_socket n p fd : connected n p → connected (update (peer_set_socket fd) p n) p.
Proof.
  intros Hc. pose proof (deref_set_socket n p fd Hc) as Hd. destruct Hc as (Hr & Ha & Ho).
  split_and!; [done| |]; unfold is_alive in *; by rewrite Hd.
Qed.

Lemma deref_heard n p fd :
  connected n p → deref (Np.heard p fd n) p = peer_touch (steady_ n) (peer_set_socket fd (deref n p)).
Proof.
  intros Hc. pose proof (connected_valid _ _ (connected_set_socket n p fd Hc)) as Hq.
  rewrite (deref_set_socket n p fd Hc) in Hq. unfold Np.heard, touch. unfold deref at 1.
  unfold update at 1. cbn [heap_ set_heap]. by rewrite list_lookup_alter_eq, Hq.
Qed.

Lemma connected_heard n p fd : connected n p → connected (Np.heard p fd n) p.
Proof.
  intros Hc. pose proof (deref_heard n p fd Hc) as Hd. destruct Hc as (Hr & Ha & Ho).
  split_and!; [done| |]; unfold is_alive in *; by rewrite Hd.
Qed.

(** Sending one message. *)
Lemma run_send n p t pl fd :
  connected n p → Msg.send_message (mkMessage t pl) (socket_ (deref n p)) = (true, fd) →
  run (send_msg p t pl) n = (Ok true, update (peer_set_socket fd) p n).
Proof. intros (_ & _ & Ho) E. unfold send_msg. rewrite run_atomic. unfold send_section. by rewrite Ho, E. Qed.

(** What does not change when messages are sent and received. *)
Definition same_chain n n' : Prop :=
  chain_ n' = chain_ n ∧ steady_ n' = steady_ n ∧ clock_ n' = clock_ n ∧ running_ n' = running_ n ∧
  log_ n' = log_ n ∧ logger_ n' = logger_ n.

#[global] Instance same_chain_preorder : PreOrder same_chain.
Proof.
  unfold same_chain. split; [by intros n|]. intros n1 n2 n3 (? & ? & ? & ? & ? & ?) (? & ? & ? & ? & ? & ?).
  split_and!; congruence.
Qed.

(** Sending a list of messages to one peer. *)
Lemma run_send_each {A} (f : A → Message) (l : list A) n p fd :
  connected n p → Msg.send_all (f <$> l) (socket_ (deref n p)) = (true, fd) →
  ∃ n', run (each (λ a, send_msg p (type (f a)) (payload (f a));; mret tt) l) n = (Ok tt, n') ∧
    connected n' p ∧ socket_ (deref n' p) = fd ∧ same_chain n n' ∧ sync_state_ n' = sync_state_ n.
Proof.
  revert n. induction l as [|a l IH]; intros n Hc; cbn [fmap list_fmap Msg.send_all].
  { intros [= <-]. by exists n. }
  destruct (Msg.send_message (f a) _) as [[] fd1] eqn:E1; [|done]. intros E2.
  set (n1 := update (peer_set_socket fd1) p n).
  assert (run (send_msg p (type (f a)) (payload (f a)) ;; mret tt) n = (Ok tt, n1)) as Er.
  { rewrite (run_bind_Ok _ _ _ true n1); [done|]. apply run_send; [done|]. by destruct (f a). }
  destruct (IH n1) as (n' & En & Hc' & Hs & Hsame & Hsy).
  - by apply connected_set_socket.
  - unfold n1. by rewrite deref_set_socket.
  - exists n'. cbn [each]. rewrite (run_bind_Ok _ _ _ tt n1 Er). split_and!; [done..| |done].
    etransitivity; [|exact Hsame]. done.
Qed.

(** ** Asking for blocks *)

Definition getblocks_message (locator : list HashBytes) : Message :=
  mkMessage GETBLOCKS (Wire.serialize_getblocks locator).
Definition block_message (b : Block) : Message := mkMessage BLOCK (Blk.serialize b).

Lemma frame_wf_u32 m : Msg.frame_wf m → sz (payload m) < 2 ^ 32.
Proof. unfold Msg.frame_wf, MAX_PAYLOAD_SIZE. solve_width. Qed.

Lemma getblocks_fits locator : Wire.locator_wf locator → Msg.frame_wf (getblocks_message locator).
Proof.
  intros [Hn Hh]. unfold Msg.frame_wf, getblocks_message, Wire.serialize_getblocks.
  cbn [payload]. rewrite sz_app. assert (sz (locator ≫= id) = 32 * sz locator) as ->.
  { clear Hn. induction Hh as [|h l Hh _ IH]; [done|]. rewrite bind_cons, sz_app, IH.
    unfold hash_wf in Hh. unfold sz, id. rewrite Hh. cbn [length]. lia. }
  unfold sz at 1. rewrite length_le_split. unfold kMaxLocatorHashes, MAX_PAYLOAD_SIZE in *. lia.
Qed.

(** A node that is not synchronising asks its peer. *)
Lemma run_sync_with n p locator fd :
  connected n p → sync_active (sync_state_ n) = false → Cm.locator (chain_ n) = Ok locator →
  Msg.send_message (getblocks_message locator) (socket_ (deref n p)) = (true, fd) →
  ∃ n', run (sync_with p) n = (Ok tt, n') ∧ connected n' p ∧ socket_ (deref n' p) = fd ∧
    same_chain n n' ∧ sync_state_ n' = mkSyncState true (Some p) [] (steady_ n).
Proof.
  intros Hc Hsy Hl Hsend. set (n1 := set_sync_state (mkSyncState true (Some p) [] (steady_ n)) n).
  exists (update (peer_set_socket fd) p n1).
  assert (connected n1 p) as Hc1 by done.
  split_and!; [|by apply connected_set_socket|by rewrite deref_set_socket|done|done].
  unfold sync_with. rewrite (run_bind_Ok _ _ _ true n1).
  2: { unfold start_sync_state. rewrite run_atomic. by rewrite Hsy. }
  cbn [negb]. rewrite (run_bind_Ok _ _ _ locator n1).
  2: { unfold on_chain. rewrite run_atomic. unfold st_zoom. cbn [chain_ n1 set_sync_state]. by rewrite Hl. }
  by rewrite (run_bind_Ok _ _ _ true _ (run_send n1 p _ _ fd Hc1 Hsend)).
Qed.

(** Answering: the blocks above the match, at most 2000, are sent. *)
Lemma run_answer n p locator rest :
  connected n p → Wire.locator_wf locator →
  coming n p = Msg.frame (getblocks_message locator) ++ rest →
  let blocks := Cm.blocks_after_locator locator MAX_BLOCKS_PER_RESPONSE (chain_ n) in
  Forall (λ b, Msg.frame_wf (block_message b)) blocks →
  (Msg.send_all (block_message <$> blocks) (socket_ (deref n p))).1 = true →
  ∃ n', run (peer_loop 1 p) n = (Ok tt, n') ∧ connected n' p ∧ same_chain n n' ∧
    written n' p = written n p ++ ((block_message <$> blocks) ≫= Msg.frame).
Proof.
  intros Hc Hw Hs blocks Hwf Hsend.
  pose proof (getblocks_fits locator Hw) as Hgw.
  destruct Hc as (Hr & Ha & Ho).
  destruct (Np.peer_loop_turn n p 0 _ rest Hr Ha Ho Hgw Hs) as (fd & Er & _ & Hout & Erun).
  assert (connected n p) as Hc by done.
  pose proof (connected_heard n p fd Hc) as Hc1. pose proof (deref_heard n p fd Hc) as Hd1.
  set (n1 := Np.heard p fd n) in *.
  assert (socket_ (deref n1 p) = fd) as Hfd by by rewrite Hd1.
  destruct (Msg.send_all (block_message <$> blocks) fd) as [ok fd'] eqn:Eall.
  assert (ok = true) as ->.
  { rewrite <- Hsend. replace ok with (Msg.send_all (block_message <$> blocks) fd).1 by by rewrite Eall.
    apply Msg.send_all_answers. replace fd with (Msg.receive_message (socket_ (deref n p))).2 by by rewrite Er.
    apply Msg.receive_answers. }
  destruct (run_send_each block_message blocks n1 p fd' Hc1) as (n' & En & Hc' & Hs' & Hsame & _);
    [by rewrite Hfd|].
  exists n'. split_and!; [|done|by etransitivity; [|exact Hsame]|].
  - rewrite Erun. rewrite (run_bind_Ok _ _ _ tt n'); [done|]. unfold dispatch. cbn [type getblocks_message payload].
    rewrite !decide_False by done. rewrite decide_True by done. unfold handle_getblocks.
    pose proof (@decode_encode _ Wire.locator_codec locator Hw) as Hdec.
    change (Wire.deserialize_getblocks (Wire.serialize_getblocks locator) = Some locator) in Hdec.
    rewrite Hdec.
    by rewrite (run_bind_Ok _ _ _ blocks n1).
  - rewrite Hs'. apply Msg.send_all_spec in Eall as [_ Eo].
    + by rewrite Eo, Hout.
    + apply Forall_fmap. eapply Forall_impl; [exact Hwf|]. intros b. apply frame_wf_u32.
Qed.

(** Blocks of the synchronisation peer go to the buffer. *)
Lemma run_buffer bs n p buffer last rest :
  connected n p → Forall Blk.wf bs → Forall (λ b, Msg.frame_wf (block_message b)) bs →
  coming n p = ((block_message <$> bs) ≫= Msg.frame) ++ rest →
  sync_state_ n = mkSyncState true (Some p) buffer last → last <= steady_ n →
  ∃ n' last', run (peer_loop (length bs) p) n = (Ok tt, n') ∧ connected n' p ∧ same_chain n n' ∧
    sync_state_ n' = mkSyncState true (Some p) (buffer ++ (Blk.on_arrival <$> bs)) last' ∧
    last' <= steady_ n'.
Proof.
  intros Hc Hwf. revert n buffer last Hc. induction Hwf as [|b bs Hb _ IH]; intros n buffer last Hc Hfr Hs Hsy Hl.
  { exists n, last. simpl. by rewrite app_nil_r. }
  apply Forall_cons in Hfr as [Hfb Hfr]. cbn [fmap list_fmap] in Hs. rewrite bind_cons, <- app_assoc in Hs.
  destruct Hc as (Hr & Ha & Ho).
  destruct (Np.peer_loop_turn n p (length bs) _ _ Hr Ha Ho Hfb Hs) as (fd & _ & Hrest & _ & Erun).
  assert (connected n p) as Hc by done.
  pose proof (connected_heard n p fd Hc) as Hc1. pose proof (deref_heard n p fd Hc) as Hd1.
  set (n1 := Np.heard p fd n) in *.
  set (buffer' := buffer ++ [Blk.on_arrival b]).
  set (last' := if (MAX_BLOCKS_PER_RESPONSE <=? length buffer')%nat then steady_ n - SYNC_IDLE_TIMEOUT else steady_ n).
  set (n2 := set_sync_state (mkSyncState true (Some p) buffer' last') n1).
  destruct (IH n2 buffer' last') as (n' & l' & En & Hc' & Hsame & Hsy' & Hl'); [done|done| |done| |].
  { change (deref n2 p) with (deref n1 p). by rewrite Hd1. }
  { change (steady_ n2) with (steady_ n). unfold last', SYNC_IDLE_TIMEOUT, milliseconds. case_match; lia. }
  exists n', l'. split_and!; [|done|by etransitivity; [|exact Hsame]| |done].
  - cbn [length]. rewrite Erun, <- En. rewrite (run_bind_Ok _ _ _ tt n2); [done|]. unfold dispatch. cbn [type block_message payload].
    rewrite !decide_False by done. rewrite decide_True by done. unfold handle_block.
    rewrite (run_bind_Ok _ _ _ true n2); [done|]. rewrite run_atomic. unfold buffer_block.
    change (sync_state_ n1) with (sync_state_ n). rewrite Hsy. cbn [sync_active sync_peer sync_buffer].
    rewrite bool_decide_true by done. cbn [andb]. by rewrite Blk.deserialize_serialize.
  - rewrite Hsy'. unfold buffer'. by rewrite <- app_assoc.
Qed.

(** When nothing has come for longer than the idle timeout, the buffer is adopted. *)
Definition sync_line (received : Z) (height : nat) : str * str :=
  (lit "SYNC", Text.to_string received ++ lit " block(s) received, adopted, height now " ++ Text.to_string (Z.of_nat height)).

Lemma run_finish n buffer last p s' :
  sync_state_ n = mkSyncState true (Some p) buffer last → buffer ≠ [] →
  SYNC_IDLE_TIMEOUT < steady_ n - last →
  Cm.adopt_branch buffer (clock_ n) (chain_ n) = (Ok true, s') →
  ∃ n', run finish_sync_if_due n = (Ok tt, n') ∧ chain_ n' = s' ∧ sync_state_ n' = no_sync ∧
    log_ n' = log_ n ++ (if logger_ n then [sync_line (sz buffer) (Cm.chain_height s')] else []).
Proof.
  intros Hsy Hne Ht Had. set (n1 := set_sync_state no_sync n). unfold finish_sync_if_due.
  rewrite (run_bind_Ok _ _ _ buffer n1).
  2: { rewrite run_atomic. unfold take_buffer. rewrite Hsy.
       cbn [sync_active sync_peer sync_buffer sync_last_block negb].
       by rewrite (proj2 (Z.ltb_lt _ _) Ht), andb_false_r. }
  rewrite bool_decide_false by done. rewrite (run_bind_Ok _ _ _ true (set_chain s' n1)).
  - rewrite (run_bind_Ok _ _ _ _ _ (run_query _ _)). eexists. split; [done|]. unfold told.
    change (logger_ (set_chain s' n1)) with (logger_ n).
    destruct (logger_ n); split_and!; try done; [|by rewrite app_nil_r]. cbn. unfold sync_line. by rewrite <- !app_assoc.
  - unfold on_chain_at. rewrite run_atomic. unfold st_zoom. change (clock_ n1) with (clock_ n).
    change (chain_ n1) with (chain_ n). by rewrite Had.
Qed.

(** ** Catching up *)

(** [s] lacks the last blocks of [c], at most one response's worth; they satisfy the rules
    of [s] at time [now], their transactions are authorized, they make the chain heavier, each
    fits a message, and the store of [s] takes them. *)
Record behind (s : ChainManager) (c : Blockchain) (now : Z) : Prop := {
  bh_shorter : (Bc.size (blockchain_ s) < Bc.size c)%nat;
  bh_prefix : hash_ <$> blocks_ (blockchain_ s) = take (Bc.size (blockchain_ s)) (hash_ <$> blocks_ c);
  bh_batch : (length (Cy.missing s c) <= MAX_BLOCKS_PER_RESPONSE)%nat;
  bh_valid : Cy.valid_above s c now;
  bh_authorized : Forall Cl.authorized (Cy.missing s c ≫= transactions_);
  bh_heavier : Bc.tip_work (blocks_ (blockchain_ s)) < Bc.tip_work (blocks_ c);
  bh_frames : Forall (λ b, Msg.frame_wf (block_message b)) (Cy.missing s c);
  bh_store : Cy.store_replaces s
}.

Lemma known_locator s l : Cs.inv U s → sz (blocks_ (blockchain_ s)) < 2 ^ 63 → Cm.locator s = Ok l → Wire.locator_wf l.
Proof.
  intros Hs Hsz Hl. destruct (Bc.rooted_latest (blockchain_ s)) as (tip & Ht & _); [apply (Cs.inv_chain _ _ Hs)|].
  destruct (Cy.locator_asks U s Hs tip Ht) as (l' & El & Hw & Hlen).
  assert (hash_ tip :: l' = l) as <- by congruence. split; [|done].
  assert (Nat.log2 (Bc.size (blockchain_ s)) <= 63)%nat; [|unfold kMaxLocatorHashes, sz; lia].
  destruct (Cp.tip_position _ _ Ht) as [_ Hn]. apply Nat.lt_le_incl, Nat.log2_lt_pow2; [done|].
  apply Nat2Z.inj_lt. rewrite Nat2Z.inj_pow. exact Hsz.
Qed.

(** C4. A node that is behind catches up, under these conditions ([behind]): the chain of node
    [a] is a proper prefix of node [b]'s, at most 2000 blocks shorter; the missing blocks fit a
    frame, pass [a]'s checks of time and difficulty, have authorized transactions, and make a
    chain of more work; the store of [a], if it has one, takes them; no synchronisation is
    under way, the sockets take what is sent, and nothing else happens on the two nodes
    meanwhile. When [a] then asks its connection [p] for blocks, [b] reads the request on the other
    end [q] and answers, [a] reads the answer, and 300 ms pass, then every step completes,
    what [b] reads is what [a] wrote and what [a] reads is what [b] wrote, and [a]'s chain is
    [b]'s block for block, accumulated work included; the transactions of the missing blocks
    are handed to its ledger in order (which ignores those it refuses), its synchronisation state is clear again, and the log,
    when there is one, reports the number of blocks and the new height. *)
Theorem sync_catches_up a b p q t clock locator rest rest' :
  let c := blockchain_ (chain_ b) in
  let missing := Cy.missing (chain_ a) c in
  Cs.inv U (chain_ a) → Cs.inv U (chain_ b) → sz (blocks_ c) < 2 ^ 63 →
  behind (chain_ a) c clock →
  connected a p → connected b q → sync_active (sync_state_ a) = false →
  Cm.locator (chain_ a) = Ok locator →
  (Msg.send_message (getblocks_message locator) (socket_ (deref a p))).1 = true →
  (Msg.send_all (block_message <$> missing) (socket_ (deref b q))).1 = true →
  coming b q = Msg.frame (getblocks_message locator) ++ rest →
  coming a p = ((block_message <$> missing) ≫= Msg.frame) ++ rest' →
  steady_ a + SYNC_IDLE_TIMEOUT < t →
  ∃ a1 b1 a2 a3,
    (run (sync_with p) a = (Ok tt, a1) ∧
     written a1 p = written a p ++ Msg.frame (getblocks_message locator)) ∧
    (run (peer_loop 1 q) b = (Ok tt, b1) ∧
     written b1 q = written b q ++ ((block_message <$> missing) ≫= Msg.frame)) ∧
    run (peer_loop (length missing) p) a1 = (Ok tt, a2) ∧
    run finish_sync_if_due (set_clocks t clock a2) = (Ok tt, a3) ∧
    blocks_ (blockchain_ (chain_ a3)) = blocks_ c ∧
    ledger_ (chain_ a3) = Ldg.apply_all (missing ≫= transactions_) (ledger_ (chain_ a)) ∧
    mempool_ (chain_ a3) = mempool_ (chain_ a) ∧ sync_state_ a3 = no_sync ∧
    log_ a3 = log_ a ++ (if logger_ a then [sync_line (sz missing) (Bc.size c)] else []).
Proof.
  intros c missing Ha Hb Hsz [Hlt Hpre Hbatch Hval Hau Hhv Hfr Hst] Cp Cq Hsy Hl Hsa Hsb Hq Hp Ht.
  pose proof (Cs.inv_chain _ _ Hb) as Hc. pose proof (Cs.inv_known _ _ Hb) as Kc. fold c in Hc, Kc.
  assert (Wire.locator_wf locator) as Hlw.
  { eapply known_locator; [exact Ha| |done]. unfold sz, Bc.size in *. lia. }
  destruct (Bc.rooted_latest (blockchain_ (chain_ a))) as (tip & Htip & _); [apply (Cs.inv_chain _ _ Ha)|].
  destruct (Cy.locator_asks U (chain_ a) Ha tip Htip) as (l' & El & _).
  assert (locator = hash_ tip :: l') as Eloc by congruence.
  assert (Cm.blocks_after_locator locator MAX_BLOCKS_PER_RESPONSE (chain_ b) = missing) as Eans.
  { rewrite Eloc, (Cy.answer_missing U (chain_ a) c Ha Hc Kc Hlt Hpre (chain_ b) tip l' _ Htip eq_refl).
    by apply take_ge. }
  destruct (Msg.send_message _ (socket_ (deref a p))) as [ok fd] eqn:Es. simpl in Hsa. subst ok.
  destruct (run_sync_with a p locator fd Cp Hsy Hl Es) as (a1 & E1 & C1 & F1 & S1 & Y1).
  destruct (run_answer b q locator rest Cq Hlw Hq) as (b1 & E2 & _ & _ & W2); [by rewrite Eans..|].
  rewrite Eans in W2. apply Msg.send_message_spec in Es as (_ & Ei & Eo).
  2: apply frame_wf_u32, getblocks_fits, Hlw.
  destruct (run_buffer missing a1 p [] (steady_ a) rest' C1) as (a2 & last & E3 & _ & S2 & Y2 & L2).
  { eapply Forall_impl; [apply (Cy.missing_known U (chain_ a) c Kc)|]. by intros x (? & _). }
  { exact Hfr. }
  { by rewrite F1, Ei. }
  { exact Y1. }
  { destruct S1 as (_ & -> & _). done. }
  destruct (Cy.adopt_missing U (chain_ a) c Ha Hc Kc Hlt Hpre clock Hval Hau Hhv Hst) as (s' & Ead & Ebl & Ele & Eme).
  destruct (run_finish (set_clocks t clock a2) (Cy.arriving (chain_ a) c) last p s') as (a3 & E4 & E5 & Y3 & L3).
  { exact Y2. }
  { destruct (Cy.missing_branch U (chain_ a) c Ha Hc Kc Hlt Hpre tip Htip) as (x & r & -> & _). done. }
  { cbn [steady_ set_clocks]. destruct S1 as (_ & T1 & _), S2 as (_ & T2 & _). lia. }
  { cbn [clock_ set_clocks chain_]. destruct S1 as (G1 & _), S2 as (G2 & _). by rewrite G2, G1. }
  exists a1, b1, a2, a3. rewrite E5. split_and!; try done; [by rewrite F1, Eo|].
  rewrite L3. cbn [log_ logger_ set_clocks].
  destruct S1 as (_ & _ & _ & _ & G1 & K1), S2 as (_ & _ & _ & _ & G2 & K2). rewrite G2, G1, K2, K1.
  unfold Cy.arriving, sz, Cm.chain_height, Bc.size. by rewrite Ebl, length_fmap.
Qed.

(** ** Relaying a block *)

Definition inventory_message (t : byte) (items : list InventoryItem) : Message :=
  mkMessage t (Wire.serialize_inventory items).

(** Programs that only look and send return, and leave the chain alone. *)
Definition quiet {A} (p : prog Node A) : Prop :=
  ∀ n, ∃ a n', run p n = (Ok a, n') ∧ same_chain n n'.

Lemma quiet_ret {A} (a : A) : quiet (mret a).
Proof. intros n. by exists a, n. Qed.

Lemma quiet_query {A} (f : Node → A) : quiet (query f).
Proof. intros n. by exists (f n), n. Qed.

Lemma quiet_bind {A B} (p : prog Node A) (f : A → prog Node B) :
  quiet p → (∀ a, quiet (f a)) → quiet (p ≫= f).
Proof.
  intros Hp Hf n. destruct (Hp n) as (a & n1 & E1 & S1). destruct (Hf a n1) as (b & n2 & E2 & S2).
  exists b, n2. rewrite (run_bind_Ok _ _ _ _ _ E1). split; [done|]. by transitivity n1.
Qed.

Lemma quiet_send p t pl : quiet (send_msg p t pl).
Proof.
  intros n. unfold send_msg. rewrite run_atomic. unfold send_section.
  destruct (negb _); [by eexists _, _|]. destruct (Msg.send_message _ _) as [ok fd]. by eexists _, _.
Qed.

Lemma quiet_each {A} (p : A → prog Node unit) l : (∀ a, quiet (p a)) → quiet (each p l).
Proof. intros Hp. induction l; cbn [each]; [apply quiet_ret|]. by apply quiet_bind. Qed.

Lemma quiet_broadcast x t h : quiet (broadcast_inv x t h).
Proof.
  unfold broadcast_inv. apply quiet_bind; [apply quiet_query|]. intros l. apply quiet_each. intros p.
  apply quiet_bind; [apply quiet_send|]. intros. apply quiet_ret.
Qed.

(** What [handle_block] does with the outcome of a block. *)
Lemma run_handle_block n p pl blk o s' :
  sync_active (sync_state_ n) && bool_decide (sync_peer (sync_state_ n) = p) = false →
  Blk.deserialize pl = Some blk → Cm.submit_block blk (clock_ n) (chain_ n) = (Ok o, s') →
  ∃ n', run (handle_block p pl) n = (Ok tt, n') ∧ chain_ n' = s'.
Proof.
  intros Hsy Hd Hsub. unfold handle_block. rewrite (run_bind_Ok _ _ _ false n).
  2: { rewrite run_atomic. unfold buffer_block. by rewrite Hsy. }
  rewrite Hd, (run_bind_Ok _ _ _ o (set_chain s' n)).
  2: { unfold on_chain_at. rewrite run_atomic. unfold st_zoom. by rewrite Hsub. }
  match goal with |- ∃ _, run ?pr _ = _ ∧ _ => assert (quiet pr) as Hq end.
  { destruct (status o); [apply quiet_ret|by apply quiet_each; intros; apply quiet_broadcast..|].
    destruct p as [p|], (missing_parent o) as [h|]; try apply quiet_ret.
    apply quiet_bind; [apply quiet_send|]. intros. apply quiet_ret. }
  destruct (Hq (set_chain s' n)) as ([] & n' & E & (Ec & _)). exists n'. by rewrite Ec.
Qed.

Lemma item_round_trip h : hash_wf h →
  Wire.deserialize_inventory (Wire.serialize_inventory [mkItem BLOCK_ITEM h]) = Some [mkItem BLOCK_ITEM h] ∧
  ∀ t, Msg.frame_wf (inventory_message t [mkItem BLOCK_ITEM h]).
Proof.
  intros Hh. split.
  - apply (@decode_encode _ Wire.inventory_codec). split; [done|]. by repeat constructor.
  - intros t. unfold Msg.frame_wf, inventory_message, Wire.serialize_inventory. cbn [payload]. rewrite sz_app.
    unfold sz. rewrite length_le_split. cbn. rewrite app_nil_r, Hh. done.
Qed.

(** One turn in which the handler answers with one message. *)
Lemma run_reply n p m m' rest :
  connected n p → Msg.frame_wf m → coming n p = Msg.frame m ++ rest → Msg.frame_wf m' →
  (Msg.send_message m' (socket_ (deref n p))).1 = true →
  (∀ n1 n2, same_chain n n1 → run (send_msg p (type m') (payload m')) n1 = (Ok true, n2) →
    run (dispatch p m) n1 = (Ok tt, n2)) →
  ∃ n', run (peer_loop 1 p) n = (Ok tt, n') ∧ connected n' p ∧ coming n' p = rest ∧
    written n' p = written n p ++ Msg.frame m' ∧ same_chain n n' ∧ sync_state_ n' = sync_state_ n.
Proof.
  intros Hc Hm Hs Hm' Hsend Hd. pose proof Hc as (Hr & Ha & Ho).
  destruct (Np.peer_loop_turn n p 0 _ _ Hr Ha Ho Hm Hs) as (fd & Er & Hrest & Hout & Erun).
  pose proof (connected_heard n p fd Hc) as C1. pose proof (deref_heard n p fd Hc) as D1.
  set (n1 := Np.heard p fd n) in *. assert (socket_ (deref n1 p) = fd) as F1 by by rewrite D1.
  destruct (Msg.send_message m' fd) as [ok fd'] eqn:Es.
  assert (ok = true) as ->.
  { rewrite <- Hsend. replace ok with (Msg.send_message m' fd).1 by by rewrite Es.
    apply Msg.send_message_answers.
    replace fd with (Msg.receive_message (socket_ (deref n p))).2 by by rewrite Er. apply Msg.receive_answers. }
  set (n2 := update (peer_set_socket fd') p n1).
  assert (run (send_msg p (type m') (payload m')) n1 = (Ok true, n2)) as En.
  { apply run_send; [done|]. rewrite F1. by destruct m'. }
  pose proof (deref_set_socket n1 p fd' C1) as D2. fold n2 in D2.
  apply Msg.send_message_spec in Es as (_ & Hi & Hw); [|by apply frame_wf_u32].
  exists n2. split_and!; [|by apply connected_set_socket|..|done|done].
  - rewrite Erun. by rewrite (run_bind_Ok _ _ _ tt n2) by by apply Hd.
  - rewrite D2. cbn [socket_ peer_set_socket]. by rewrite Hi.
  - rewrite D2. cbn [socket_ peer_set_socket]. by rewrite Hw, Hout.
Qed.

(** A block announced is a block delivered. When [b] reads from its connection [q] the
    announcement of a block it does not have, and [a], on the other end [p], has it, then [b]
    asks for it, [a] answers with exactly that block, and what [b]'s chain manager is given is
    the announced block: whatever it decides, [b]'s chain manager ends as
    [submit_block] on that block leaves it, and both nodes' threads go on. *)
Theorem announced_block_delivered a b p q h blk o s' rest rest' :
  let inv_m := inventory_message INV [mkItem BLOCK_ITEM h] in
  let get_m := inventory_message GETDATA [mkItem BLOCK_ITEM h] in
  hash_wf h → Cm.find_block h (chain_ a) (chain_ a) = Some blk → Blk.wf blk →
  Msg.frame_wf (block_message blk) → Cm.has_block h (chain_ b) = false →
  connected a p → connected b q →
  sync_active (sync_state_ b) && bool_decide (sync_peer (sync_state_ b) = Some q) = false →
  (Msg.send_message get_m (socket_ (deref b q))).1 = true →
  (Msg.send_message (block_message blk) (socket_ (deref a p))).1 = true →
  coming b q = Msg.frame inv_m ++ Msg.frame (block_message blk) ++ rest →
  coming a p = Msg.frame get_m ++ rest' →
  Cm.submit_block (Blk.on_arrival blk) (clock_ b) (chain_ b) = (Ok o, s') →
  ∃ b1 a1 b2,
    (run (peer_loop 1 q) b = (Ok tt, b1) ∧ written b1 q = written b q ++ Msg.frame get_m) ∧
    (run (peer_loop 1 p) a = (Ok tt, a1) ∧ written a1 p = written a p ++ Msg.frame (block_message blk)) ∧
    (run (peer_loop 1 q) b1 = (Ok tt, b2) ∧ chain_ b2 = s').
Proof.
  intros inv_m get_m Hh Hfind Hwf Hfw Hhas Cp Cq Hsy Hsb Hsa Hq Hp Hsub.
  destruct (item_round_trip h Hh) as [Hdec Hiw].
  destruct (run_reply b q inv_m get_m _ Cq (Hiw INV) Hq (Hiw GETDATA) Hsb)
    as (b1 & E1 & C1 & R1 & W1 & S1 & Y1).
  { intros n1 n2 (Ec & _) En. unfold dispatch, inv_m. cbn [type inventory_message payload].
    rewrite decide_True by done. unfold handle_inv. rewrite Hdec. cbn [missing_items].
    rewrite (run_bind_Ok _ _ _ [mkItem BLOCK_ITEM h] n1).
    2: { rewrite (run_bind_Ok _ _ _ false n1); [done|]. rewrite run_query. cbn [item_type item_hash].
         by rewrite Ec, Hhas. }
    rewrite bool_decide_false by done. by rewrite (run_bind_Ok _ _ _ true n2 En). }
  destruct (run_reply a p get_m (block_message blk) _ Cp (Hiw GETDATA) Hp Hfw Hsa)
    as (a1 & E2 & _ & _ & W2 & _).
  { intros n1 n2 (Ec & _) En. unfold dispatch, get_m. cbn [type inventory_message payload].
    rewrite decide_False by done. rewrite decide_True by done. unfold handle_getdata. rewrite Hdec.
    cbn [each]. rewrite (run_bind_Ok _ _ _ tt n2); [done|]. unfold send_item. cbn [item_type item_hash].
    rewrite (run_bind_Ok _ _ _ (chain_ n1) n1) by done. rewrite (run_bind_Ok _ _ _ (chain_ n1) n1) by done.
    rewrite Ec, Hfind. by rewrite (run_bind_Ok _ _ _ true n2 En). }
  pose proof C1 as (Rq & Aq & Oq).
  destruct (Np.peer_loop_turn b1 q 0 _ _ Rq Aq Oq Hfw R1) as (fd & _ & _ & _ & E3).
  destruct S1 as (Ec & _ & Ek & _).
  destruct (run_handle_block (Np.heard q fd b1) (Some q) (Blk.serialize blk) (Blk.on_arrival blk) o s')
    as (b2 & E4 & Es).
  { change (sync_state_ (Np.heard q fd b1)) with (sync_state_ b1). by rewrite Y1. }
  { by apply Blk.deserialize_serialize. }
  { change (clock_ (Np.heard q fd b1)) with (clock_ b1). change (chain_ (Np.heard q fd b1)) with (chain_ b1).
    by rewrite Ec, Ek. }
  exists b1, a1, b2. split_and!; [done..| |done].
  rewrite E3. rewrite (run_bind_Ok _ _ _ tt b2); [done|]. unfold dispatch. cbn [type block_message payload].
  rewrite !decide_False by done. by rewrite decide_True by done.
Qed.
End net.

(** ** Witnesses *)
Section witnesses.
#[local] Existing Instance demo_crypto.
#[local] Existing Instance demo_crypto_laws.
#[local] Existing Instance demo_sqlite.
#[local] Existing Instance Op.demo_buckets.
#[local] Existing Instance Ab.demo_inet.
#[local] Existing Instance Cs.universe_cf.

(** A new chain, and one with two more blocks. *)
Definition short : ChainManager := Cm.make 10 kTestParams None.
Definition middle : ChainManager := (Cm.submit_block Cs.block_b 1001 short).2.
Definition long : ChainManager := (Cm.submit_block Cs.block_c 1002 middle).2.

Lemma short_inv : Cs.inv Cs.universe short.
Proof. exact (Cs.manager_make_inv Cs.universe 10 kTestParams None). Qed.
Lemma middle_inv : Cs.inv Cs.universe middle.
Proof. exact (Cs.step_inv Cs.universe _ _ (Cs.step_block Cs.universe _ 1001 short Cs.block_b_known) short_inv). Qed.
Lemma long_inv : Cs.inv Cs.universe long.
Proof. exact (Cs.step_inv Cs.universe _ _ (Cs.step_block Cs.universe _ 1002 middle Cs.block_c_known) middle_inv). Qed.

(** A node with one connection on which [bs] will arrive. *)
Definition talker (id other : Z) (s : ChainManager) (bs : bytes) : Node :=
  set_chain s (set_clocks 0 1002 (Np.node_with id 0
    [make_peer (mkSocket [Segment bs] [] (replicate 10 100000)) (Ns.version_of other 3) (lit "10.0.0.2") 0]
    [mkPeerEntry 0 true])).

Definition request : list HashBytes := match Cm.locator short with Ok l => l | Throw _ => [] end.

Definition asking : Node := set_logger
  (talker 77 78 short ((block_message <$> Cy.missing short (blockchain_ long)) ≫= Msg.frame)).
Definition answering : Node := talker 78 77 long (Msg.frame (getblocks_message request)).

Lemma short_behind : behind short (blockchain_ long) 1002.
Proof.
  split.
  - apply Nat.ltb_lt. by vm_compute.
  - by vm_compute.
  - apply Nat.leb_le. by vm_compute.
  - intros i b Hi Hb. destruct i as [|[|[|i]]]; [by vm_compute in Hi; lia| | |].
    + vm_compute in Hb. injection Hb as <-. by vm_compute.
    + vm_compute in Hb. injection Hb as <-. by vm_compute.
    + by vm_compute in Hb.
  - assert (Cy.missing short (blockchain_ long) ≫= transactions_ = [demo_coinbase "bob" 50]) as -> by by vm_compute.
    constructor; [by left|constructor].
  - by vm_compute.
  - apply (bool_decide_eq_true_1 _). by vm_compute.
  - by intros st.
Qed.

Lemma sync_catches_up_witness :
  let c := blockchain_ long in
  let missing := Cy.missing short c in
  ∃ a1 b1 a2 a3,
    (run (sync_with 0) asking = (Ok tt, a1) ∧
     written a1 0%nat = written asking 0%nat ++ Msg.frame (getblocks_message request)) ∧
    (run (peer_loop 1 0) answering = (Ok tt, b1) ∧
     written b1 0%nat = written answering 0%nat ++ ((block_message <$> missing) ≫= Msg.frame)) ∧
    run (peer_loop (length missing) 0) a1 = (Ok tt, a2) ∧
    run finish_sync_if_due (set_clocks (seconds 1) 1002 a2) = (Ok tt, a3) ∧
    blocks_ (blockchain_ (chain_ a3)) = blocks_ c ∧
    ledger_ (chain_ a3) = Ldg.apply_all (missing ≫= transactions_) (ledger_ short) ∧
    mempool_ (chain_ a3) = mempool_ short ∧ sync_state_ a3 = no_sync ∧
    log_ a3 = log_ asking ++ (if logger_ asking then [sync_line (sz missing) (Bc.size c)] else []).
Proof.
  apply (sync_catches_up Cs.universe asking answering 0 0 (seconds 1) 1002 request [] []).
  - exact short_inv.
  - exact long_inv.
  - by vm_compute.
  - exact short_behind.
  - by vm_compute.
  - by vm_compute.
  - by vm_compute.
  - by vm_compute.
  - by vm_compute.
  - by vm_compute.
  - by vm_compute.
  - by vm_compute.
  - by vm_compute.
Defined.

(** [answering] announces its tip to a node that has the block below it. *)
Definition tip_hash : HashBytes := hash_ Cs.block_c.

Definition listener : Node :=
  talker 77 78 middle (Msg.frame (inventory_message INV [mkItem BLOCK_ITEM tip_hash]) ++
    Msg.frame (block_message Cs.block_c)).
Definition announcer : Node :=
  talker 78 77 long (Msg.frame (inventory_message GETDATA [mkItem BLOCK_ITEM tip_hash])).

Definition stored_c : Block := match Cm.find_block tip_hash long long with Some b => b | None => Bc.genesis end.

Lemma announced_block_delivered_witness :
  ∃ b1 a1 b2,
    (run (peer_loop 1 0) listener = (Ok tt, b1) ∧
     written b1 0%nat = written listener 0%nat ++ Msg.frame (inventory_message GETDATA [mkItem BLOCK_ITEM tip_hash])) ∧
    (run (peer_loop 1 0) announcer = (Ok tt, a1) ∧
     written a1 0%nat = written announcer 0%nat ++ Msg.frame (block_message stored_c)) ∧
    (run (peer_loop 1 0) b1 = (Ok tt, b2) ∧
     chain_ b2 = (Cm.submit_block (Blk.on_arrival stored_c) 1002 middle).2).
Proof.
  apply (announced_block_delivered announcer listener 0 0 tip_hash stored_c
    (mkBlockOutcome Accepted [tip_hash] None) _ [] []).
  - by vm_compute.
  - by vm_compute.
  - apply (Cs.block_c_known).
  - by vm_compute.
  - by vm_compute.
  - by vm_compute.
  - by vm_compute.
  - by vm_compute.
  - by vm_compute.
  - by vm_compute.
  - by vm_compute.
  - by vm_compute.
  - apply ST_run_eq. by vm_compute.
Defined.
End witnesses.
End Ny.
