(* ===== verification/Rpc.v ===== *)
(** * The RPC server (src/app/RpcServer.cpp)

    One line per connection: a command, preceded by the API key when one is set. The server
    shares the node; the key may be changed from the console while a request is handled, so
    its state is the node and the key, and a request is a sequence of critical sections. *)

From S2P Require Import Prelude Prog Text Codec Crypto Demo Transaction Block Ledger Mempool OrphanPool.
From S2P Require Import ProofOfWork Blockchain ForkResolution BlockLocator Storage ChainManager ChainLedger.
From S2P Require Import ChainSafety Wire Message AddressBook Node NodeSafety NodePeers NodeSync.

Record RpcServer `{BlockStore} := mkRpcServer { node_ : Node; api_key_ : str; rpc_running_ : bool }.

(** The longest line that is read. *)
Definition max_line : nat := 4096.

Module Rpc.

Section server.
Context `{Crypto, Buckets, BlockStore, Inet}.

Definition set_node (n : Node) (s : RpcServer) : RpcServer := mkRpcServer _ n (api_key_ s) (rpc_running_ s).

Definition set_api_key (key : str) (s : RpcServer) : RpcServer :=
  mkRpcServer _ (node_ s) key (rpc_running_ s).

Definition set_running (b : bool) (s : RpcServer) : RpcServer := mkRpcServer _ (node_ s) (api_key_ s) b.

(** A call on the node. *)
Definition on_node {A} (p : prog Node A) : prog RpcServer A := zoom node_ set_node p.

Definition api_key_required : prog RpcServer bool := query (λ s, negb (bool_decide (api_key_ s = []))).

Definition check_api_key (provided_key : str) : prog RpcServer bool :=
  query (λ s, if bool_decide (api_key_ s = []) then true else bool_decide (api_key_ s = provided_key)).

(** ** Commands *)

Definition getbalance (iss : list str) : prog RpcServer str :=
  let '(address, _) := Text.read_word [] iss in
  if bool_decide (address = []) then mret (lit "ERROR_EMPTY_ADDRESS") else
  balance ← query (λ s, Cm.get_balance address (chain_ (node_ s)));
  match balance with
  | Some balance => mret (Text.to_string balance)
  | None => mret (lit "UNKNOWN")
  end.

Definition getnonce (iss : list str) : prog RpcServer str :=
  let '(address, _) := Text.read_word [] iss in
  if bool_decide (address = []) then mret (lit "ERROR_EMPTY_ADDRESS") else
  nonce ← query (λ s, Cm.next_nonce address (chain_ (node_ s)));
  mret (Text.to_string nonce).

Definition submittx (iss : list str) : prog RpcServer str :=
  let '(hex, _) := Text.read_word [] iss in
  if bool_decide (hex = []) then mret (lit "ERROR_EMPTY_PAYLOAD") else
  match from_hex hex with
  | None => mret (lit "ERROR_INVALID_HEX")
  | Some bytes =>
      match Tx.deserialize bytes with
      | None => mret (lit "ERROR_INVALID_PAYLOAD")
      | Some tx => on_node (Nd.submit_transaction tx);; mret (lit "OK")
      end
  end.

Definition run_command (command : str) (iss : list str) : prog RpcServer str :=
  if bool_decide (command = lit "GETBALANCE") then getbalance iss else
  if bool_decide (command = lit "GETNONCE") then getnonce iss else
  if bool_decide (command = lit "SUBMITTX") then submittx iss else
  if bool_decide (command = lit "HEIGHT") then
    height ← query (λ s, Cm.chain_height (chain_ (node_ s))); mret (Text.to_string (Z.of_nat height))
  else
  if bool_decide (command = lit "PEERS") then
    count ← query (λ s, Nd.peer_count (node_ s)); mret (Text.to_string (Z.of_nat count))
  else
  mret (lit "ERROR_UNKNOWN_COMMAND").

Definition handle_command (line : str) : prog RpcServer str :=
  let '(command, iss) := Text.read_word [] (Text.words line) in
  required ← api_key_required;
  if negb required then run_command command iss else
  ok ← check_api_key command;
  if negb ok then mret (lit "ERROR unauthorized") else
  let '(command, iss) := Text.read_word command iss in
  run_command command iss.

(** ** Connections *)

(** The reading loop: the line read so far, or [None] when it is too long. Each turn makes
    the line longer, so [turns] turns are enough from a line of [max_line + 1 - turns] characters. *)
Fixpoint read_line (turns : nat) (line : str) (fd : Socket) : option str * Socket :=
  match turns with
  | O => (None, fd)
  | S turns =>
      match Msg.read_exact 1 fd with
      | (Some [b], fd) =>
          if (max_line <=? length line)%nat then (None, fd) else
          if bool_decide (b = newline) then (Some line, fd) else read_line turns (line ++ [b]) fd
      | (_, fd) => (Some line, fd)
      end
  end.

(** The socket as the exchange leaves it. *)
Definition handle_connection (fd : Socket) : prog RpcServer Socket :=
  match read_line (S max_line) [] fd with
  | (None, fd) => mret (Msg.send_exact (lit "ERROR") fd).2
  | (Some line, fd) =>
      result ← handle_command line;
      mret (Msg.send_exact (result ++ [newline]) fd).2
  end.

(** [start]; [bound] tells whether [listen_on] succeeded. *)
Definition start (bound : bool) : prog RpcServer bool :=
  if negb bound then mret false else atomic (st_modify (set_running true));; mret true.

(** The next connections, as the kernel delivers them; an empty [accept] is [None]. *)
Fixpoint accept_loop (connections : list (option Socket)) : prog RpcServer unit :=
  match connections with
  | [] => mret tt
  | r :: connections =>
      go ← query rpc_running_;
      if negb go then mret tt else
      match r with
      | None => accept_loop connections
      | Some fd => handle_connection fd;; accept_loop connections
      end
  end.

Definition stop : prog RpcServer unit := atomic (st_modify (set_running false)).

(** ** Reading a request *)

(** A line of at most 4095 characters that ends, by a newline or because the client stops
    sending, is read as it is; longer input is refused. *)
Lemma read_exact_1 fd :
  match Msg.stream (inbound fd) with
  | [] => ∃ fd', Msg.read_exact 1 fd = (None, fd') ∧ outbound fd' = outbound fd
  | b :: rest => ∃ fd', Msg.read_exact 1 fd = (Some [b], fd') ∧ Msg.stream (inbound fd') = rest ∧
                   outbound fd' = outbound fd
  end.
Proof.
  unfold Msg.read_exact. pose proof (Msg.read_loop_spec (inbound fd) 1) as Hs.
  destruct (Msg.stream (inbound fd)) as [|b rest] eqn:E.
  - destruct (Msg.read_loop (inbound fd) 1) as [[bs|] ev]; [|by eexists].
    destruct Hs as [Hl Hs]. by destruct bs.
  - destruct (Msg.read_loop_app (inbound fd) [b] rest E) as (ev & Er & Hr). simpl in Er. rewrite Er. by eexists.
Qed.

Lemma read_line_newline l rest turns line fd :
  Msg.stream (inbound fd) = l ++ newline :: rest → newline ∉ l →
  (turns + length line = S max_line)%nat → (length line + length l < max_line)%nat →
  ∃ fd', read_line turns line fd = (Some (line ++ l), fd') ∧ Msg.stream (inbound fd') = rest ∧
    outbound fd' = outbound fd.
Proof.
  revert turns line fd. induction l as [|b l IH]; intros turns line fd Hs Hn Ht Hl.
  - destruct turns as [|turns]; [simpl in *; lia|]. cbn [read_line]. pose proof (read_exact_1 fd) as H1'.
    rewrite Hs in H1'. destruct H1' as (fd' & -> & Hr & Ho). simpl in Hl.
    rewrite (proj2 (Nat.leb_gt _ _)) by lia. rewrite bool_decide_true by done. rewrite app_nil_r. by exists fd'.
  - destruct turns as [|turns]; [simpl in *; lia|]. cbn [read_line]. pose proof (read_exact_1 fd) as H1'.
    rewrite Hs in H1'. destruct H1' as (fd' & -> & Hr & Ho). simpl in Hl.
    rewrite (proj2 (Nat.leb_gt _ _)) by lia.
    assert (b ≠ newline ∧ newline ∉ l) as [Hb Hn'] by set_solver. rewrite bool_decide_false by done.
    destruct (IH turns (line ++ [b]) fd' Hr Hn') as (fd2 & E & Hr2 & Ho2).
    { rewrite length_app. simpl. lia. }
    { rewrite length_app. simpl. lia. }
    exists fd2. rewrite E, <- app_assoc. split_and!; [done..|congruence].
Qed.

Lemma read_line_long l b rest turns line fd :
  Msg.stream (inbound fd) = l ++ b :: rest → newline ∉ l →
  (turns + length line = S max_line)%nat → (length line + length l = max_line)%nat →
  ∃ fd', read_line turns line fd = (None, fd') ∧ outbound fd' = outbound fd.
Proof.
  revert turns line fd. induction l as [|c l IH]; intros turns line fd Hs Hn Ht Hl;
    (destruct turns as [|turns]; [simpl in *; lia|]); cbn [read_line]; pose proof (read_exact_1 fd) as H1';
    rewrite Hs in H1'; destruct H1' as (fd' & -> & Hr & Ho); simpl in Hl.
  - rewrite (proj2 (Nat.leb_le _ _)) by lia. by exists fd'.
  - rewrite (proj2 (Nat.leb_gt _ _)) by lia.
    assert (c ≠ newline ∧ newline ∉ l) as [Hb Hn'] by set_solver. rewrite bool_decide_false by done.
    destruct (IH turns (line ++ [c]) fd' Hr Hn') as (fd2 & E & Ho2).
    { rewrite length_app. simpl. lia. }
    { rewrite length_app. simpl. lia. }
    exists fd2. split; [done|congruence].
Qed.

(** ** What requests do *)

Lemma run_on_node {A} (p : prog Node A) s :
  run (on_node p) s = ((run p (node_ s)).1, set_node (run p (node_ s)).2 s).
Proof. apply run_zoom; [done..|]. by intros []. Qed.

(** A request either leaves the server as it is or submits one transaction. *)
Definition acts (line : str) s (s' : RpcServer) : Prop :=
  s' = s ∨ ∃ hex bytes tx, hex ∈ Text.words line ∧ lit "SUBMITTX" ∈ Text.words line ∧
    from_hex hex = Some bytes ∧ Tx.deserialize bytes = Some tx ∧
    s' = set_node (run (Nd.submit_transaction tx) (node_ s)).2 s.

Lemma run_command_acts command iss line s :
  command ∈ [] :: Text.words line → (∀ w, w ∈ iss → w ∈ Text.words line) →
  acts line s (run (run_command command iss) s).2.
Proof.
  intros Hc Hi. unfold run_command.
  case_bool_decide; [left; unfold getbalance; destruct (Text.read_word [] iss); case_bool_decide; [done|];
    rewrite run_bind, ST_bind_eq with (a := Cm.get_balance _ (chain_ (node_ s))) (s' := s) by done; by case_match|].
  case_bool_decide; [left; unfold getnonce; destruct (Text.read_word [] iss); by case_bool_decide|].
  case_bool_decide as Hsub; [|left; by repeat case_bool_decide].
  unfold submittx. destruct iss as [|hex iss]; [by left|]. cbn [Text.read_word].
  case_bool_decide; [by left|]. destruct (from_hex hex) as [bytes|] eqn:Eh; [|by left].
  destruct (Tx.deserialize bytes) as [tx|] eqn:Et; [|by left].
  right. exists hex, bytes, tx. split_and!; [apply Hi; left| |done|done|].
  - subst command. apply elem_of_cons in Hc as [Hc|Hc]; [by vm_compute in Hc|done].
  - rewrite run_bind. unfold mbind, ST_bind. rewrite run_on_node.
    by destruct (run (Nd.submit_transaction tx) (node_ s)) as [[]].
Qed.

Lemma read_word_spec old line :
  (Text.read_word old (Text.words line)).1 ∈ old :: Text.words line ∧
  (∀ w, w ∈ (Text.read_word old (Text.words line)).2 → w ∈ Text.words line).
Proof.
  destruct (Text.words line) as [|w ws]; simpl; split; [left|done|right; left|]. intros x Hx. by right.
Qed.

Lemma run_required s :
  run api_key_required s = (Ok (negb (bool_decide (api_key_ s = []))), s).
Proof. done. Qed.

(** With a key set, a request that does not begin with it is refused. *)
Lemma run_unauthorized line s :
  api_key_ s ≠ [] → head (Text.words line) ≠ Some (api_key_ s) →
  run (handle_command line) s = (Ok (lit "ERROR unauthorized"), s).
Proof.
  intros Hk Hh. unfold handle_command. destruct (Text.read_word [] (Text.words line)) as [command iss] eqn:E.
  rewrite (run_bind_Ok _ _ _ _ _ (run_required s)). rewrite bool_decide_false by done. cbn [negb].
  assert (api_key_ s ≠ command) as Hne.
  { intros Ek. destruct (Text.words line) as [|w ws]; simpl in E; injection E as <- <-; [done|].
    by apply Hh; rewrite Ek. }
  rewrite (run_bind_Ok _ _ _ false s); [done|]. unfold check_api_key. rewrite run_query.
  by rewrite !bool_decide_false by done.
Qed.

(** The key in front of the command is taken off. *)
Lemma run_authorized line command iss s :
  Text.words line = (if bool_decide (api_key_ s = []) then [] else [api_key_ s]) ++ command :: iss →
  run (handle_command line) s = run (run_command command iss) s.
Proof.
  intros Hw. unfold handle_command. rewrite Hw. case_bool_decide as Hk; cbn [app Text.read_word];
    rewrite (run_bind_Ok _ _ _ _ _ (run_required s)).
  - by rewrite bool_decide_true by done.
  - rewrite bool_decide_false by done. cbn [negb]. rewrite (run_bind_Ok _ _ _ true s); [done|].
    unfold check_api_key. rewrite run_query. by rewrite bool_decide_false, bool_decide_true by done.
Qed.

(** C20. The API key guards the node. With a key set, a request whose first word is not that
    key is answered "ERROR unauthorized" and changes nothing; a key that contains a space, or
    any other whitespace, can never be presented, so every request is refused. Any request,
    authorized or not, either changes nothing or submits one transaction that it carries in
    hexadecimal next to the command SUBMITTX, exactly as the node's own submission does. *)
Theorem rpc_key_guards_node line s :
  (api_key_ s ≠ [] → head (Text.words line) ≠ Some (api_key_ s) ∨ ~ Text.is_word (api_key_ s) →
    run (handle_command line) s = (Ok (lit "ERROR unauthorized"), s)) ∧
  acts line s (run (handle_command line) s).2.
Proof.
  split.
  - intros Hk Hor. apply run_unauthorized; [done|]. destruct Hor as [Hh|Hw]; [done|].
    intros Hh. apply Hw. pose proof (Text.words_are_words line) as Hf.
    destruct (Text.words line) as [|w ws]; [done|]. injection Hh as <-. by apply Forall_cons in Hf as [? _].
  - unfold handle_command. pose proof (read_word_spec [] line) as [Hc Hi].
    destruct (Text.read_word [] (Text.words line)) as [command iss]. cbn [fst snd] in Hc, Hi.
    rewrite (run_bind_Ok _ _ _ _ _ (run_required s)). destruct (negb (negb _)); [by apply run_command_acts|].
    unfold check_api_key. rewrite (run_bind_Ok _ _ _ _ _ (run_query _ s)). destruct (negb _); [by left|].
    assert ((Text.read_word command iss).1 ∈ [] :: Text.words line ∧
      ∀ w, w ∈ (Text.read_word command iss).2 → w ∈ Text.words line) as [Hc' Hi'].
    { destruct iss as [|w ws]; simpl; split; [done|done|right; apply Hi; left|]. intros x Hx. apply Hi. by right. }
    destruct (Text.read_word command iss) as [command' iss']. by apply run_command_acts.
Qed.

(** ** Over a connection *)

Lemma handle_connection_line fd l rest s :
  newline ∉ l → (length l < max_line)%nat → Msg.stream (inbound fd) = l ++ newline :: rest →
  ∃ fd', outbound fd' = outbound fd ∧
    run (handle_connection fd) s =
    (match (run (handle_command l) s).1 with
     | Ok result => Ok (Msg.send_exact (result ++ [newline]) fd').2
     | Throw e => Throw e
     end, (run (handle_command l) s).2).
Proof.
  intros Hn Hl Hs. destruct (read_line_newline l rest (S max_line) [] fd Hs Hn) as (fd' & E & _ & Ho);
    [cbn [length]; lia|cbn [length]; lia|].
  exists fd'. split; [done|]. unfold handle_connection. rewrite E. cbn [app]. rewrite run_bind.
  unfold mbind, ST_bind. by destruct (run (handle_command l) s) as [[]].
Qed.

(** Requests over a connection: a line of fewer than 4096 characters, ended by a newline
    and delivered in any segments, is handled as the command it is, and the answer goes out
    followed by a newline; when more than 4096 characters come without a newline the answer
    is "ERROR" and the node is left alone. In both cases nothing else is written. *)
Theorem rpc_connection fd l rest s :
  newline ∉ l →
  ((length l < max_line)%nat → Msg.stream (inbound fd) = l ++ newline :: rest →
    ∃ fd', outbound fd' = outbound fd ∧
      run (handle_connection fd) s =
      (match (run (handle_command l) s).1 with
       | Ok result => Ok (Msg.send_exact (result ++ [newline]) fd').2
       | Throw e => Throw e
       end, (run (handle_command l) s).2)) ∧
  (length l = max_line → rest ≠ [] → Msg.stream (inbound fd) = l ++ rest →
    ∃ fd', outbound fd' = outbound fd ∧
      run (handle_connection fd) s = (Ok (Msg.send_exact (lit "ERROR") fd').2, s)).
Proof.
  intros Hn. split.
  - by apply handle_connection_line.
  - intros Hl Hne Hs. destruct rest as [|b rest]; [done|].
    destruct (read_line_long l b rest (S max_line) [] fd Hs Hn) as (fd' & E & Ho); [cbn [length]; lia|cbn [length]; lia|].
    exists fd'. split; [done|]. unfold handle_connection. by rewrite E.
Qed.
End server.

(** ** Witnesses *)
Section witnesses.
#[local] Existing Instance demo_crypto.
#[local] Existing Instance demo_crypto_laws.
#[local] Existing Instance demo_sqlite.
#[local] Existing Instance Op.demo_buckets.
#[local] Existing Instance Ab.demo_inet.

Definition demo_server (key : string) : RpcServer :=
  mkRpcServer _ (Np.node_with 77 0 [] []) (lit key) true.

Lemma rpc_key_guards_node_witness :
  run (handle_command (lit "SUBMITTX 00")) (demo_server "se cret") =
    (Ok (lit "ERROR unauthorized"), demo_server "se cret") ∧
  acts (lit "SUBMITTX 00") (demo_server "se cret")
    (run (handle_command (lit "SUBMITTX 00")) (demo_server "se cret")).2.
Proof.
  destruct (rpc_key_guards_node (lit "SUBMITTX 00") (demo_server "se cret")) as [Hk Ha].
  split; [|exact Ha]. apply Hk; [done|]. right. apply (bool_decide_eq_false_1 _). by vm_compute.
Defined.

Definition demo_client : Socket := mkSocket [Segment (lit "HEI"); Retry; Segment (lit "GHT" ++ [newline])] [] [100].

Lemma rpc_connection_witness :
  ∃ fd', outbound fd' = outbound demo_client ∧
    run (handle_connection demo_client) (demo_server "") =
    (match (run (handle_command (lit "HEIGHT")) (demo_server "")).1 with
     | Ok result => Ok (Msg.send_exact (result ++ [newline]) fd').2
     | Throw e => Throw e
     end, (run (handle_command (lit "HEIGHT")) (demo_server "")).2).
Proof.
  apply (rpc_connection demo_client (lit "HEIGHT") [] (demo_server "")).
  - apply (bool_decide_eq_false_1 _). by vm_compute.
  - apply Nat.ltb_lt. by vm_compute.
  - by vm_compute.
Defined.

Example demo_answers :
  ((run (handle_command (lit "HEIGHT")) (demo_server "")).1,
   (run (handle_command (lit "k GETNONCE bob")) (demo_server "k")).1,
   (run (handle_command (lit "k")) (demo_server "k")).1) =
  (Ok (lit "1"), Ok (lit "0"), Ok (lit "ERROR_UNKNOWN_COMMAND")).
Proof. by vm_compute. Qed.
End witnesses.
End Rpc.
