(* ===== verification/Wallet.v ===== *)
(** * The wallet (src/app/Wallet.cpp, WalletCli.cpp)

    A key pair kept in a file, and a client of the RPC server: each call opens a connection,
    writes one line and reads one line. What the kernel answers to the coming connection
    attempts is the list [connections_]; the key file is its contents. *)

From S2P Require Import Prelude Prog Text Codec Crypto Demo Transaction Block Ledger Mempool OrphanPool.
From S2P Require Import ProofOfWork Blockchain ForkResolution BlockLocator Storage ChainManager ChainLedger.
From S2P Require Import ChainSafety Wire Message AddressBook Node NodeSafety NodePeers NodeSync Rpc.

Record RpcConfiguration := mkRpcConfiguration { rpc_address : PeerAddress; rpc_api_key : str }.

Record Wallet := mkWallet { keys_ : KeyPair; address_ : str }.

(** Standard output and standard error, a line at a time. *)
Inductive output := Cout (text : str) | Cerr (text : str) | Prompted (text : str).

Record WalletCli := mkWalletCli {
  wallet_ : Wallet;
  rpc_config_ : RpcConfiguration;
  connections_ : list (option Socket);
  printed_ : list output
}.

Module Wl.

Section wallet.
Context `{Crypto}.

(** ** The key file *)

Definition load_from_file (contents : str) : option KeyPair :=
  match Text.words contents with
  | w1 :: ws =>
      match from_hex w1 with
      | None => None
      | Some private =>
          match ws with
          | w2 :: _ =>
              match from_hex w2 with
              | None => None
              | Some public => Some {| public_key := public; private_key := private |}
              end
          | [] => None
          end
      end
  | [] => None
  end.

Definition save_to_file (keys : KeyPair) : str :=
  to_hex (private_key keys) ++ [newline] ++ to_hex (public_key keys) ++ [newline].

(** The constructor: [file] is the key file if it can be opened; otherwise a key is
    generated from [entropy] and saved, if the file can be created. The second component is
    what the file holds afterwards. *)
Definition make (file : option str) (entropy : Z) (writable : bool) : result Wallet * option str :=
  match file with
  | Some contents =>
      match load_from_file contents with
      | None => (Throw RuntimeError, file)
      | Some keys => (Ok (mkWallet keys (derive_address (public_key keys))), file)
      end
  | None =>
      let keys := generate_keypair entropy in
      if negb writable then (Throw RuntimeError, None)
      else (Ok (mkWallet keys (derive_address (public_key keys))), Some (save_to_file keys))
  end.

(** ** Requests *)

(** The bytes before the first newline, or all of them. *)
Fixpoint until_newline (bs : bytes) : str :=
  match bs with
  | [] => []
  | b :: bs => if bool_decide (b = newline) then [] else b :: until_newline bs
  end.

(** The reading loop; every turn takes a byte, so the length of what is to come bounds it. *)
Fixpoint read_loop (turns : nat) (line : str) (fd : Socket) : str :=
  match turns with
  | O => line
  | S turns =>
      match Msg.read_exact 1 fd with
      | (Some [b], fd) => if bool_decide (b = newline) then line else read_loop turns (line ++ [b]) fd
      | _ => line
      end
  end.

Definition read_from (fd : Socket) : str := read_loop (S (length (Msg.stream (inbound fd)))) [] fd.

(** Connect, write the command, read the answer. *)
Definition call (command : str) (connection : option Socket) : option str :=
  match connection with
  | None => None
  | Some fd =>
      let '(sent, fd) := Msg.send_exact command fd in
      if negb sent then None else Some (read_from fd)
  end.

Definition balance (c : RpcConfiguration) (connection : option Socket) (w : Wallet) : option str :=
  call (rpc_api_key c ++ lit " GETBALANCE " ++ address_ w ++ [newline]) connection.

Definition height (c : RpcConfiguration) (connection : option Socket) : option str :=
  call (rpc_api_key c ++ lit " HEIGHT" ++ [newline]) connection.

Definition peers (c : RpcConfiguration) (connection : option Socket) : option str :=
  call (rpc_api_key c ++ lit " PEERS" ++ [newline]) connection.

Definition next_nonce (c : RpcConfiguration) (connection : option Socket) (w : Wallet) : option str :=
  call (rpc_api_key c ++ lit " GETNONCE " ++ address_ w ++ [newline]) connection.

(** The transaction [send] signs. *)
Definition payment (recipient : str) (amount fee nonce : Z) (w : Wallet) : Transaction :=
  Tx.make (address_ w) recipient amount (public_key (keys_ w)) fee nonce.

Definition submit_line (c : RpcConfiguration) (tx : Transaction) : str :=
  rpc_api_key c ++ lit " SUBMITTX " ++ to_hex (Tx.serialize tx).

(** [send], over a connection for the nonce and one for the submission. *)
Definition send (recipient : str) (amount fee : Z) (c : RpcConfiguration) (first second : option Socket)
    (w : Wallet) : result (option bool) :=
  match next_nonce c first w with
  | None => Ok None
  | Some nonce_str =>
      match Text.parse_number nonce_str with
      | None => Ok None
      | Some nonce =>
          let tx := payment recipient amount fee (u64 nonce) w in
          signature ← sign (Tx.serialize_for_signing tx) (private_key (keys_ w));
          let tx := Tx.with_signature tx signature in
          match call (submit_line c tx ++ [newline]) second with
          | None => Ok None
          | Some answer => Ok (Some (bool_decide (answer = lit "OK")))
          end
      end
  end.

(** ** Reading an answer *)

Lemma read_loop_until turns line fd :
  (length (Msg.stream (inbound fd)) < turns)%nat →
  read_loop turns line fd = line ++ until_newline (Msg.stream (inbound fd)).
Proof.
  revert line fd. induction turns as [|turns IH]; intros line fd Ht; [lia|]. cbn [read_loop].
  pose proof (Rpc.read_exact_1 fd) as Hr. destruct (Msg.stream (inbound fd)) as [|b rest] eqn:E.
  - destruct Hr as (fd' & -> & _). cbn. by rewrite app_nil_r.
  - destruct Hr as (fd' & -> & Hs & _). cbn [until_newline]. case_bool_decide; [by rewrite app_nil_r|].
    rewrite IH, Hs, <- app_assoc; [done|]. rewrite Hs. simpl in Ht. lia.
Qed.

Lemma read_from_spec fd : read_from fd = until_newline (Msg.stream (inbound fd)).
Proof. unfold read_from. by rewrite read_loop_until by lia. Qed.

Lemma until_newline_app l rest : newline ∉ l → until_newline (l ++ newline :: rest) = l.
Proof.
  induction l as [|b l IH]; intros Hn; simpl; [done|]. rewrite bool_decide_false by set_solver.
  f_equal. apply IH. set_solver.
Qed.
(** ** The key file, again *)

Lemma to_hex_nospace d : Forall (λ c, isspace c = false) (to_hex d).
Proof.
  induction d as [|b d IH]; cbn [to_hex]; [constructor|].
  destruct b; vm_compute (hex_char _); repeat constructor; exact IH.
Qed.

Lemma to_hex_word d : d ≠ [] → Text.is_word (to_hex d).
Proof. intros Hd. split; [by destruct d|apply to_hex_nospace]. Qed.

Lemma load_save keys :
  private_key keys ≠ [] → public_key keys ≠ [] → load_from_file (save_to_file keys) = Some keys.
Proof.
  intros Hp Hq. unfold load_from_file, save_to_file. cbn [app].
  rewrite Text.words_cons, Text.words_cons by (done || by apply to_hex_word).
  rewrite !from_hex_to_hex. by destruct keys.
Qed.

(** A wallet survives a restart: opening a path with no file makes a wallet and a key
    file, unless the file cannot be created; opening the path again gives the same keys and
    address, draws no new key and leaves the file as it is. OpenSSL encodes neither half of
    a key as no bytes. *)
Theorem wallet_reopens entropy entropy' writable w file :
  private_key (generate_keypair entropy) ≠ [] → public_key (generate_keypair entropy) ≠ [] →
  make None entropy true = (Ok w, file) →
  make file entropy' writable = (Ok w, file) ∧
  address_ w = derive_address (public_key (keys_ w)) ∧
  make None entropy false = (Throw RuntimeError, None).
Proof.
  intros Hp Hq [= <- <-]. unfold make. by rewrite load_save.
Qed.
End wallet.

(** ** The wallet and the server *)
Section payment.
Context `{CryptoLaws, !SignatureLaws, Buckets, BlockStore, Inet}.

(** A key that a request can carry. *)
Definition usable_key (key : str) : Prop := key = [] ∨ Text.is_word key.

Lemma words_request key c1 c2 command rest :
  usable_key key → Text.is_word command → isspace c1 = true → isspace c2 = true →
  Text.words (key ++ c1 :: command ++ c2 :: rest) =
  (if bool_decide (key = []) then [] else [key]) ++ command :: Text.words rest.
Proof.
  intros Hk Hc H1' H2'. case_bool_decide as E.
  - subst key. cbn [app]. by rewrite Text.words_space, Text.words_cons.
  - destruct Hk as [|Hk]; [done|]. rewrite Text.words_cons, Text.words_cons by done. done.
Qed.

Lemma usable_key_nospace key : usable_key key → Forall (λ c, isspace c = false) key.
Proof. by intros [->|[_ ?]]. Qed.

Lemma nospace_newline l : Forall (λ c, isspace c = false) l → newline ∉ l.
Proof. intros Hf Hn. rewrite Forall_forall in Hf. by specialize (Hf _ Hn). Qed.

(** One request: [line] and a newline go out, the server reads them on its end and answers
    in full, and that is what the client receives. [s] and [s'] are the server before and
    after. *)
Definition exchange (line : str) (s s' : RpcServer) (client : Socket) : Prop :=
  (length line < max_line)%nat ∧ (Msg.send_exact (line ++ [newline]) client).1 = true ∧
  ∃ server server', outbound server = [] ∧ Msg.stream (inbound server) = line ++ [newline] ∧
    run (Rpc.handle_connection server) s = (Ok server', s') ∧
    newline ∈ outbound server' ∧ Msg.stream (inbound client) = outbound server'.

Lemma call_exchange line s s' client answer :
  newline ∉ line → exchange line s s' client → (run (Rpc.handle_command line) s).1 = Ok answer →
  newline ∉ answer →
  call (line ++ [newline]) (Some client) = Some answer ∧ s' = (run (Rpc.handle_command line) s).2.
Proof.
  intros Hn (Hl & Hs & server & server' & Ho & Hi & Hr & Hin & Hc) Ha Hna.
  destruct (Rpc.handle_connection_line server line [] s Hn Hl Hi) as (fd' & Ho' & E).
  rewrite E, Ha in Hr. injection Hr as <- <-. split; [|done]. unfold call.
  destruct (Msg.send_exact (line ++ [newline]) client) as [ok cl] eqn:Es. simpl in Hs. subst ok. cbn [negb].
  apply Msg.send_exact_spec in Es as [Ei _]. rewrite read_from_spec, Ei, Hc.
  destruct (Msg.send_exact (answer ++ [newline]) fd') as [ok sv] eqn:Ev.
  apply Msg.send_exact_spec in Ev as (_ & sent & rest & Eb & Eo & _). cbn [snd] in *.
  rewrite Eo, Ho', Ho in *. cbn [app] in *.
  destruct (list_elem_of_split _ _ Hin) as (l1 & l2 & ->). rewrite <- app_assoc in Eb. cbn [app] in Eb.
  assert (l1 = answer ∧ l2 = []) as [-> ->]; [|by rewrite until_newline_app].
  clear -Eb Hna. revert l1 Eb. induction answer as [|b answer IH]; intros [|c l1]; simpl.
  - intros [= E]. by destruct l2.
  - intros [= ? E]. by destruct l1.
  - intros [= -> E]. set_solver.
  - intros [= -> E]. destruct (IH ltac:(set_solver) l1 E) as [-> ->]. done.
Qed.

Lemma digits_newline n : 0 <= n → newline ∉ Text.to_string n.
Proof. intros Hn. apply nospace_newline. by apply Text.to_string_word. Qed.

Definition nonce_line (c : RpcConfiguration) (w : Wallet) : str :=
  rpc_api_key c ++ lit " GETNONCE " ++ address_ w.

(** The server's answer to the nonce request. *)
Lemma run_nonce_line c w s :
  usable_key (rpc_api_key c) → api_key_ s = rpc_api_key c →
  address_ w = derive_address (public_key (keys_ w)) →
  run (Rpc.handle_command (nonce_line c w)) s =
  (Ok (Text.to_string (Cm.next_nonce (address_ w) (chain_ (node_ s)))), s).
Proof.
  intros Hk Hs Ha.
  assert (Text.is_word (address_ w)) as Hw.
  { rewrite Ha. apply to_hex_word. intros E.
    pose proof (double_sha_256_length (public_key (keys_ w))) as L. by rewrite E in L. }
  rewrite (Rpc.run_authorized _ (lit "GETNONCE") [address_ w]).
  - unfold Rpc.run_command. rewrite bool_decide_false, bool_decide_true by done. unfold Rpc.getnonce.
    cbn [Text.read_word]. by rewrite bool_decide_false by apply Hw.
  - rewrite Hs. unfold nonce_line. rewrite <- (Text.words_last (address_ w) Hw).
    apply (words_request (rpc_api_key c) Byte.x20 Byte.x20 (lit "GETNONCE") (address_ w)); [done| |done..].
    by apply (bool_decide_eq_true_1 _).
Qed.

Lemma length_serialize tx :
  length (Tx.serialize tx) =
  (40 + length (sender_ tx) + length (recipient_ tx) + length (sender_public_key_ tx) + length (signature_ tx))%nat.
Proof.
  unfold Tx.serialize, Tx.serialize_for_signing, put_lbytes. rewrite !length_app, !length_le_split. lia.
Qed.

(** A transaction whose line is short enough has fields that fit their prefixes. *)
Lemma submit_line_wf c tx :
  in_u 64 (amount_ tx) → in_u 64 (fee_ tx) → in_u 64 (nonce_ tx) →
  (length (submit_line c tx) < max_line)%nat → Tx.wf tx.
Proof.
  intros Ha Hf Hn Hl. unfold submit_line in Hl. rewrite !length_app, length_to_hex, length_serialize in Hl.
  assert (Z.of_nat max_line < 2 ^ 32) by done.
  unfold Tx.wf, in_u, sz. split_and!; try lia; by apply Ha || apply Hf || apply Hn.
Qed.

(** The server's answer to a submission. *)
Lemma run_submit_line c tx s :
  usable_key (rpc_api_key c) → api_key_ s = rpc_api_key c → Tx.wf tx →
  Tx.has_valid_signature tx = Ok true → (0 < mp_max_size_ (mempool_ (chain_ (node_ s))))%nat →
  ∃ n', run (Rpc.handle_command (submit_line c tx)) s = (Ok (lit "OK"), Rpc.set_node n' s) ∧
    run (Nd.submit_transaction tx) (node_ s) = (Ok tt, n') ∧
    chain_ n' = (Cm.submit_transaction tx (chain_ (node_ s))).2.
Proof.
  intros Hk Hs Hw Hv Hm.
  assert (∃ n', run (Nd.submit_transaction tx) (node_ s) = (Ok tt, n') ∧
    chain_ n' = (Cm.submit_transaction tx (chain_ (node_ s))).2) as (n' & En & Ec).
  { unfold Nd.submit_transaction.
    assert (∃ ok, (Cm.submit_transaction tx (chain_ (node_ s))).1 = Ok ok) as [ok Eok].
    { unfold Cm.submit_transaction, Cm.on_mempool, st_zoom.
      destruct (Mp.add_transaction_cases tx (mempool_ (chain_ (node_ s)))); simpl; first [by eexists|exfalso; congruence|exfalso; lia]. }
    destruct (Cm.submit_transaction tx (chain_ (node_ s))) as [r s'] eqn:Es. simpl in Eok. subst r.
    rewrite (run_bind_Ok _ _ _ ok (Nd.set_chain s' (node_ s))).
    2: { unfold Nd.on_chain. rewrite run_atomic. unfold st_zoom. by rewrite Es. }
    destruct ok; [|by exists (Nd.set_chain s' (node_ s))].
    destruct (Ny.quiet_broadcast None TRANSACTION_ITEM (Tx.compute_hash tx) (Nd.set_chain s' (node_ s)))
      as ([] & n' & E & Hc & _). exists n'. by rewrite E, Hc. }
  exists n'. split_and!; [|done|done].
  assert (Text.is_word (to_hex (Tx.serialize tx))) as Hh.
  { apply to_hex_word. intros E. pose proof (length_serialize tx) as L. rewrite E in L. simpl in L. lia. }
  rewrite (Rpc.run_authorized _ (lit "SUBMITTX") [to_hex (Tx.serialize tx)]).
  - unfold Rpc.run_command. rewrite 2!bool_decide_false, bool_decide_true by done. unfold Rpc.submittx.
    cbn [Text.read_word]. rewrite bool_decide_false by apply Hh. rewrite from_hex_to_hex.
    assert (Tx.deserialize (Tx.serialize tx) = Some tx) as -> by by apply (@decode_encode _ Tx.codec).
    rewrite (run_bind_Ok _ _ _ tt (Rpc.set_node n' s)); [done|]. by rewrite Rpc.run_on_node, En.
  - rewrite Hs. unfold submit_line. rewrite <- (Text.words_last _ Hh).
    apply (words_request (rpc_api_key c) Byte.x20 Byte.x20 (lit "SUBMITTX")); [done| |done..].
    by apply (bool_decide_eq_true_1 _).
Qed.
Lemma mempool_accepts tx m :
  Tx.has_valid_signature tx = Ok true → (Mp.size m < mp_max_size_ m)%nat →
  Mp.has_transaction (Tx.compute_hash tx) (Mp.add_transaction tx m).2 = true.
Proof.
  intros Hv Hm. destruct (Mp.add_transaction_cases tx m); simpl; try (congruence || lia || done).
  apply Mp.has_transaction_spec. simpl. rewrite Mp.multiset_insert_perm. simpl. left.
Qed.

Lemma line_newline key (command : str) data :
  usable_key key → newline ∉ command → newline ∉ key ++ command ++ to_hex data.
Proof.
  intros Hk%usable_key_nospace%nospace_newline Hc. rewrite !not_elem_of_app.
  split_and!; [done..|]. apply nospace_newline, to_hex_nospace.
Qed.

(** The nonce the server tells. *)
Lemma nonce_answer c s s1 first w :
  usable_key (rpc_api_key c) → api_key_ s = rpc_api_key c →
  address_ w = derive_address (public_key (keys_ w)) →
  0 <= Cm.next_nonce (address_ w) (chain_ (node_ s)) → exchange (nonce_line c w) s s1 first →
  s1 = s ∧ next_nonce c (Some first) w = Some (Text.to_string (Cm.next_nonce (address_ w) (chain_ (node_ s)))).
Proof.
  intros Hk Hs Ha Hn He. pose proof (run_nonce_line c w s Hk Hs Ha) as Hr.
  assert (newline ∉ nonce_line c w) as Hnl.
  { unfold nonce_line. rewrite Ha. apply line_newline; [done|by apply (bool_decide_eq_false_1 _)]. }
  destruct (call_exchange _ _ _ _ (Text.to_string (Cm.next_nonce (address_ w) (chain_ (node_ s)))) Hnl He)
    as [Ec ->]; [by rewrite Hr|by apply digits_newline|].
  rewrite Hr. split; [done|]. unfold next_nonce. rewrite <- Ec. unfold nonce_line. by rewrite <- !app_assoc.
Qed.

(** C12. A payment goes through. A new wallet with the server's key (or none on either side)
    pays any 64-bit amount and fee: over one connection the server tells the nonce its ledger
    has for the wallet's address, over a second one it receives the transaction with that
    nonce, signed; the transaction is valid, the server hands exactly that transaction to the
    node and answers, [send] returns true, and the node's pool has it if there was room.
    A nonce that does not fit an [int] cannot be read: [send] then fails before it signs. *)
Theorem wallet_payment entropy file recipient amount fee c s s1 first w :
  make None entropy true = (Ok w, file) → usable_key (rpc_api_key c) → api_key_ s = rpc_api_key c →
  in_u 64 amount → in_u 64 fee →
  let nonce := Cm.next_nonce (address_ w) (chain_ (node_ s)) in
  let pool s := mempool_ (chain_ (node_ s)) in
  in_u 64 nonce → (0 < mp_max_size_ (pool s))%nat → exchange (nonce_line c w) s s1 first →
  s1 = s ∧
  (Text.INT_MAX < nonce → ∀ second, send recipient amount fee c (Some first) second w = Ok None) ∧
  (nonce <= Text.INT_MAX → ∃ signature,
    let unsigned := payment recipient amount fee nonce w in
    let tx := Tx.with_signature unsigned signature in
    sign (Tx.serialize_for_signing unsigned) (private_key (keys_ w)) = Ok signature ∧
    Tx.has_valid_signature tx = Ok true ∧
    ∀ s2 second, exchange (submit_line c tx) s1 s2 second →
      send recipient amount fee c (Some first) (Some second) w = Ok (Some true) ∧
      run (Nd.submit_transaction tx) (node_ s) = (Ok tt, node_ s2) ∧
      pool s2 = (Mp.add_transaction tx (pool s)).2 ∧
      ((Mp.size (pool s) < mp_max_size_ (pool s))%nat →
        Mp.has_transaction (Tx.compute_hash tx) (pool s2) = true)).
Proof.
  intros [= <- _] Hk Hs Ham Hf nonce pool Hn Hm He. set (w := mkWallet _ _) in *.
  destruct (nonce_answer c s s1 first w Hk Hs eq_refl (proj1 Hn) He) as [-> En].
  pose proof (Text.parse_to_string nonce [] (proj1 Hn) I) as Ep. rewrite app_nil_r in Ep.
  split_and!; [done|..].
  { intros Hbig second. unfold send. rewrite En. fold nonce. rewrite Ep.
    by rewrite (proj2 (Z.ltb_lt _ _)) by lia. }
  intros Hle. rewrite (proj2 (Z.ltb_ge _ _)) in Ep by lia.
  destruct (Tx.generated_key_tx entropy recipient amount fee nonce) as (sig & Hsig & Hv & _).
  exists sig. intros unsigned tx. split_and!; [done..|]. intros s2 second He2.
  destruct (run_submit_line c tx s Hk Hs (submit_line_wf c tx Ham Hf Hn (proj1 He2)) Hv Hm) as (n' & Er & Et & Ec).
  assert (newline ∉ submit_line c tx) as Hnl by (apply line_newline; [done|by apply (bool_decide_eq_false_1 _)]).
  destruct (call_exchange _ _ _ _ (lit "OK") Hnl He2) as [Eo ->];
    [by rewrite Er|by apply (bool_decide_eq_false_1 _)|]. rewrite Er. cbn [snd].
  split_and!.
  - unfold send. rewrite En. fold nonce. rewrite Ep. cbv beta iota. rewrite (wrap_small 64 nonce) by done.
    fold unsigned. unfold mbind, result_bind.
    assert (sign (Tx.serialize_for_signing unsigned) (private_key (keys_ w)) = Ok sig) as -> by exact Hsig.
    fold tx. by rewrite Eo.
  - done.
  - unfold pool. cbn [node_ Rpc.set_node]. rewrite Ec. apply Cl.submit_transaction_mempool.
  - intros Hroom. unfold pool. cbn [node_ Rpc.set_node]. rewrite Ec, Cl.submit_transaction_mempool.
    by apply mempool_accepts.
Qed.
End payment.
(** ** The command line (src/app/WalletCli.cpp) *)
Section cli.
Context `{Crypto}.

Definition set_connections (l : list (option Socket)) (s : WalletCli) : WalletCli :=
  mkWalletCli (wallet_ s) (rpc_config_ s) l (printed_ s).

Definition set_rpc_config (c : RpcConfiguration) (s : WalletCli) : WalletCli :=
  mkWalletCli (wallet_ s) c (connections_ s) (printed_ s).

Definition print (o : output) : ST WalletCli unit :=
  st_modify (λ s, mkWalletCli (wallet_ s) (rpc_config_ s) (connections_ s) (printed_ s ++ [o])).
Definition cout (text : str) : ST WalletCli unit := print (Cout text).
Definition cerr (text : str) : ST WalletCli unit := print (Cerr text).

(** The next connection attempt. *)
Definition dial : ST WalletCli (option Socket) := λ s,
  match connections_ s with
  | [] => (Ok None, s)
  | r :: l => (Ok r, set_connections l s)
  end.

Definition handle_help_command : ST WalletCli unit :=
  cout (lit "commands:");;
  cout (lit "  send <address> <amount> [fee]  sign and submit a transaction");;
  cout (lit "  balance                  show this wallet's balance");;
  cout (lit "  height                   show connected node's chain height");;
  cout (lit "  peers                    show connected node's peer count");;
  cout (lit "  connect <host> <port>    change which node's RPC port to talk to");;
  cout (lit "  set rpc-api-key <value>  set the RPC auth token to send with requests");;
  cout (lit "  help                     show this message");;
  cout (lit "  quit / exit              exit the wallet").

Definition handle_connect_command (iss : list str) : ST WalletCli unit :=
  match iss with
  | host :: port :: _ =>
      match Text.parse_number port with
      | None => cerr (lit "invalid port: " ++ port)
      | Some port_number =>
          let port := wrap 16 port_number in
          st_modify (λ s, set_rpc_config (mkRpcConfiguration (mkPeerAddress host port) (rpc_api_key (rpc_config_ s))) s);;
          cout (lit "target set to " ++ host ++ lit ":" ++ Text.to_string port)
      end
  | _ => cerr (lit "usage: connect <host> <port>")
  end.

Definition handle_set_command (iss : list str) : ST WalletCli unit :=
  let '(subcommand, iss) := Text.read_word [] iss in
  if bool_decide (subcommand = []) then cerr (lit "usage: set rpc-api-key <value>") else
  if bool_decide (subcommand = lit "rpc-api-key") then
    let '(api_key, iss) := Text.read_word [] iss in
    if bool_decide (api_key = []) then cerr (lit "usage: set rpc-api-key <value>") else
    st_modify (λ s, set_rpc_config (mkRpcConfiguration (rpc_address (rpc_config_ s)) api_key) s);;
    cout (lit "RPC API key set")
  else cerr (lit "unknown set target: " ++ subcommand).

(** An answer, or that there was none. *)
Definition show_answer (answer : option str) : ST WalletCli unit :=
  match answer with
  | Some text => cout text
  | None => cerr (lit "network error")
  end.

Definition handle_balance_command : ST WalletCli unit :=
  fd ← dial; s ← st_get; show_answer (balance (rpc_config_ s) fd (wallet_ s)).

Definition handle_peers_command : ST WalletCli unit :=
  fd ← dial; s ← st_get; show_answer (peers (rpc_config_ s) fd).

Definition handle_height_command : ST WalletCli unit :=
  fd ← dial; s ← st_get; show_answer (height (rpc_config_ s) fd).

(** The call to [send] and what is printed of its result. The second connection is only
    tried when the first exchange has given a nonce. *)
Definition pay (recipient : str) (amount fee : Z) : ST WalletCli unit :=
  first ← dial;
  s ← st_get;
  second ← match next_nonce (rpc_config_ s) first (wallet_ s) ≫= Text.parse_number with
           | Some _ => dial
           | None => mret None
           end;
  ok ← st_lift (send recipient amount fee (rpc_config_ s) first second (wallet_ s));
  match ok with
  | None => cerr (lit "network error")
  | Some true => cout (lit "sent")
  | Some false => cerr (lit "rejected by node")
  end.

Definition handle_send_command (iss : list str) : ST WalletCli unit :=
  let '(recipient, iss) := Text.read_word [] iss in
  let '(amount_str, iss) := Text.read_word [] iss in
  let '(fee_str, iss) := Text.read_word [] iss in
  if bool_decide (recipient = []) || bool_decide (amount_str = []) then
    cerr (lit "usage: send <address> <amount> (optional) <fee>")
  else
  match Text.parse_number amount_str with
  | None => cerr (lit "invalid amount: " ++ amount_str)
  | Some amount =>
      if bool_decide (fee_str = []) then pay recipient (u64 amount) (u64 0) else
      match Text.parse_number fee_str with
      | Some fee => pay recipient (u64 amount) (u64 fee)
      | None => cerr (lit "invalid fee: " ++ fee_str)
      end
  end.

(** Whether the loop goes on after the line. *)
Definition handle_line (buffer : str) : ST WalletCli bool :=
  let '(command, iss) := Text.read_word [] (Text.words buffer) in
  if bool_decide (command = []) then mret true else
  if bool_decide (command = lit "help") then handle_help_command;; mret true else
  if bool_decide (command = lit "connect") then handle_connect_command iss;; mret true else
  if bool_decide (command = lit "set") then handle_set_command iss;; mret true else
  if bool_decide (command = lit "exit") || bool_decide (command = lit "quit") then mret false else
  if bool_decide (command = lit "balance") then handle_balance_command;; mret true else
  if bool_decide (command = lit "send") then handle_send_command iss;; mret true else
  if bool_decide (command = lit "peers") then handle_peers_command;; mret true else
  if bool_decide (command = lit "height") then handle_height_command;; mret true else
  cerr (lit "unknown command: " ++ command);; mret true.

(** The lines of standard input; it ends after the last. *)
Fixpoint run_lines (input : list str) : ST WalletCli unit :=
  match input with
  | [] => mret tt
  | buffer :: input => go ← handle_line buffer; if (go : bool) then run_lines input else mret tt
  end.
(** The two's complement of a negative number in 64 bits. *)
Definition as_u64 (n : Z) : Z := if n <? 0 then 2 ^ 64 + n else n.

Lemma u64_as_u64 n : Text.fits_int n = true → u64 n = as_u64 n.
Proof.
  unfold Text.fits_int, as_u64, Text.INT_MIN, Text.INT_MAX, wrap. intros Hn. destruct (n <? 0) eqn:E.
  - rewrite <- (Z.mod_add n 1 (2 ^ 64)), Z.mod_small by lia. lia.
  - apply Z.mod_small. lia.
Qed.

Definition send_line (recipient : str) (amount fee : Z) : str :=
  lit "send " ++ recipient ++ lit " " ++ Text.to_string amount ++ lit " " ++ Text.to_string fee.

(** The amount that is paid is the amount that is typed, but for its sign and its size:
    the command "send" with an amount and a fee between 0 and 2^31 - 1 pays them; amounts and
    fees beyond an [int] are refused although a balance may hold 2^64 - 1; a negative number
    -n is not refused, it pays 2^64 - n. *)
Theorem cli_send_amount recipient amount fee s :
  Text.is_word recipient →
  handle_line (send_line recipient amount fee) s =
  (if negb (Text.fits_int amount) then (cerr (lit "invalid amount: " ++ Text.to_string amount);; mret true) s
   else if negb (Text.fits_int fee) then (cerr (lit "invalid fee: " ++ Text.to_string fee);; mret true) s
   else (pay recipient (as_u64 amount) (as_u64 fee);; mret true) s).
Proof.
  intros Hr. unfold handle_line.
  assert (Text.words (send_line recipient amount fee) =
    [lit "send"; recipient; Text.to_string amount; Text.to_string fee]) as ->.
  { unfold send_line. change (lit "send ") with (lit "send" ++ lit " "). rewrite <- !app_assoc.
    change (lit " ") with [Byte.x20]. cbn [app].
    rewrite (Text.words_cons (lit "send")) by (done || by apply (bool_decide_eq_true_1 _)).
    rewrite Text.words_cons, Text.words_cons by (done || apply Text.to_string_is_word).
    by rewrite Text.words_last by apply Text.to_string_is_word. }
  cbn [Text.read_word]. do 2 (rewrite bool_decide_false by done).
  rewrite !(bool_decide_false (lit "send" = _)) by done. rewrite bool_decide_true by done.
  cbn [orb]. unfold handle_send_command. cbn [Text.read_word].
  rewrite bool_decide_false by apply Hr. rewrite bool_decide_false by apply Text.to_string_is_word. cbn [orb].
  rewrite !Text.parse_to_string_int. destruct (Text.fits_int amount) eqn:Ea; [|done].
  rewrite bool_decide_false by apply Text.to_string_is_word.
  destruct (Text.fits_int fee) eqn:Ef; [|done]. by rewrite !u64_as_u64 by done.
Qed.
End cli.
(** ** Witnesses *)
Section witnesses.
#[local] Existing Instance demo_crypto.
#[local] Existing Instance demo_crypto_laws.
#[local] Existing Instance demo_signature_laws.
#[local] Existing Instance demo_sqlite.
#[local] Existing Instance Op.demo_buckets.
#[local] Existing Instance Ab.demo_inet.

Definition demo_wallet : Wallet :=
  mkWallet (generate_keypair 7) (derive_address (public_key (generate_keypair 7))).

Lemma wallet_reopens_witness :
  make (Some (save_to_file (generate_keypair 7))) 8 true = (Ok demo_wallet, Some (save_to_file (generate_keypair 7))) ∧
  address_ demo_wallet = derive_address (public_key (keys_ demo_wallet)) ∧
  make None 7 false = (Throw RuntimeError, None).
Proof. apply (wallet_reopens 7 8 true demo_wallet); [done|done|reflexivity]. Defined.

Definition demo_config : RpcConfiguration := mkRpcConfiguration (mkPeerAddress (lit "127.0.0.1") 9000) (lit "k").
Definition the_server : RpcServer := Rpc.demo_server "k".

(** Both ends of a connection over which [line] is sent and answered. *)
Definition server_end (line : str) : Socket := mkSocket [Segment (line ++ [newline])] [] [5000].
Definition served (line : str) (s : RpcServer) : result Socket * RpcServer :=
  run (Rpc.handle_connection (server_end line)) s.
Definition client_end (line : str) (s : RpcServer) : Socket :=
  mkSocket (match (served line s).1 with Ok fd => [Segment (outbound fd)] | _ => [] end) [] [5000].

Lemma demo_exchange line s :
  (length line <? max_line)%nat = true → (Msg.send_exact (line ++ [newline]) (client_end line s)).1 = true →
  match (served line s).1 with Ok fd => bool_decide (newline ∈ outbound fd) | _ => false end = true →
  exchange line s (served line s).2 (client_end line s).
Proof.
  intros Hl%Nat.ltb_lt Hs Hm. split_and!; [done..|]. unfold client_end.
  destruct (served line s) as [[fd|] s'] eqn:E; [|done]. exists (server_end line), fd. cbn [fst] in *.
  apply bool_decide_eq_true in Hm. split_and!; [done| |done|done|].
  - cbn. destruct line; [done|]. cbn. by rewrite app_nil_r.
  - cbn. destruct (outbound fd); [set_solver|]. by rewrite app_nil_r.
Qed.

#[local] Abbreviation demo_unsigned :=
  (payment (lit "bob") 5 1 (Cm.next_nonce (address_ demo_wallet) (chain_ (node_ the_server))) demo_wallet).
Definition demo_signature : bytes :=
  demo_sign (private_key (keys_ demo_wallet)) (Tx.serialize_for_signing demo_unsigned).
#[local] Abbreviation demo_payment := (Tx.with_signature demo_unsigned demo_signature).

Definition nonce_client : Socket := client_end (nonce_line demo_config demo_wallet) the_server.
Definition submit_client : Socket := client_end (submit_line demo_config demo_payment) the_server.
Definition paid_server : RpcServer := (served (submit_line demo_config demo_payment) the_server).2.

Lemma submit_exchange : exchange (submit_line demo_config demo_payment) the_server paid_server submit_client.
Proof. apply demo_exchange; by vm_compute. Qed.

Lemma wallet_payment_witness :
  send (lit "bob") 5 1 demo_config (Some nonce_client) (Some submit_client) demo_wallet = Ok (Some true) ∧
  Mp.has_transaction (Tx.compute_hash demo_payment) (mempool_ (chain_ (node_ paid_server))) = true.
Proof.
  destruct (wallet_payment 7 (Some (save_to_file (generate_keypair 7))) (lit "bob") 5 1 demo_config the_server
    (served (nonce_line demo_config demo_wallet) the_server).2 nonce_client demo_wallet) as (Es & _ & Hp).
  - done.
  - right. apply (bool_decide_eq_true_1 _). by vm_compute.
  - done.
  - done.
  - done.
  - by vm_compute.
  - apply Nat.ltb_lt. by vm_compute.
  - apply demo_exchange; by vm_compute.
  - destruct Hp as (sig & Hs & _ & Hp); [apply Z.leb_le; by vm_compute|].
    assert (Ok demo_signature = Ok sig) as [= <-] by (rewrite <- Hs; by vm_compute).
    destruct (Hp paid_server submit_client) as (Hsend & _ & _ & Hroom).
    + rewrite Es. exact submit_exchange.
    + split; [exact Hsend|]. apply Hroom. apply Nat.ltb_lt. by vm_compute.
Defined.

Definition demo_cli : WalletCli := mkWalletCli demo_wallet demo_config [Some nonce_client; Some submit_client] [].

Lemma if_false {A} (b : bool) (x y : A) : b = false → (if b then x else y) = y.
Proof. by intros ->. Qed.

Lemma cli_send_amount_witness :
  handle_line (send_line (lit "bob") (-1) 1) demo_cli = (pay (lit "bob") (2 ^ 64 - 1) 1;; mret true) demo_cli.
Proof.
  assert (Text.is_word (lit "bob")) as Hw by (apply (bool_decide_eq_true_1 _); by vm_compute).
  assert (negb (Text.fits_int (-1)) = false) as E1 by done. assert (negb (Text.fits_int 1) = false) as E2 by done.
  assert (as_u64 (-1) = 2 ^ 64 - 1) as E3 by done. assert (as_u64 1 = 1) as E4 by done.
  pose proof (cli_send_amount (lit "bob") (-1) 1 demo_cli Hw) as E.
  rewrite (if_false _ _ _ E1), (if_false _ _ _ E2), E3, E4 in E. exact E.
Defined.

Example demo_session :
  printed_ (run_lines [lit "send bob 5 1"; []; lit "balance"; lit "pay"; lit "quit"; lit "help"] demo_cli).2 =
  [Cout (lit "sent"); Cerr (lit "network error"); Cerr (lit "unknown command: pay")].
Proof. by vm_compute. Qed.
End witnesses.
End Wl.
