(* ===== verification/Startup.v ===== *)
(** * Starting the programs (src/network/Bootstrap.cpp, src/app/main.cpp, src/app/wallet_main.cpp)

    The bootstrap file and the command lines. A file is its contents, [None] when it cannot be
    opened; a command line is the list of its arguments. *)

From S2P Require Import Prelude Text Codec Crypto Demo Transaction Block ProofOfWork Wire Message Wallet.

(** [OrchestratorConfig] (src/app/Orchestrator.hpp), without the node's name, which is always
    the same and only appears in the log. *)
Record OrchestratorConfig := mkOrchestratorConfig {
  cfg_listen_port : Z;
  cfg_addresses : list PeerAddress;
  cfg_mine : bool;
  cfg_consensus : ConsensusParams;
  cfg_rpc_port : Z;
  cfg_reward_address : str;
  cfg_db_path : str;
  cfg_api_key : str
}.

(** [Config] (src/app/Wallet.hpp) *)
Record Config := mkConfig { cfg_rpc : RpcConfiguration; keyfile_path : str }.

Module Su.

Definition colon : byte := Byte.x3a.

(** ** The bootstrap file *)

(** [buffer.find(':')], and what is before and behind it. *)
Fixpoint split_colon (buffer : str) : option (str * str) :=
  match buffer with
  | [] => None
  | c :: buffer =>
      if bool_decide (c = colon) then Some ([], buffer) else
      match split_colon buffer with
      | Some (host, port) => Some (c :: host, port)
      | None => None
      end
  end.

(** The body of the loop: the entry a word stands for, [None] where the code continues. *)
Definition parse_entry (buffer : str) : option PeerAddress :=
  match split_colon buffer with
  | None => None
  | Some (host, port_str) =>
      if bool_decide (host = []) || bool_decide (port_str = []) then None else
      if negb (forallb isdigit port_str) then None else
      match Text.stoi_digits port_str with
      | Ok port_num =>
          if (port_num <? 0) || (65535 <? port_num) then None
          else Some (mkPeerAddress host (wrap 16 port_num))
      | Throw _ => None
      end
  end.

Definition load_bootstrap_peers (file : option str) : option (list PeerAddress) :=
  match file with
  | None => None
  | Some contents => Some (omap parse_entry (Text.words contents))
  end.

Definition create_bootstrap_file : str :=
  lit "# forgechain bootstrap peers, one per line: host:port" ++ [newline].

(** ** The node's command line *)

Definition default_config : OrchestratorConfig := mkOrchestratorConfig 8000 [] false kMainParams 0 [] [] [].

Definition set_listen_port (p : Z) (c : OrchestratorConfig) : OrchestratorConfig :=
  mkOrchestratorConfig p (cfg_addresses c) (cfg_mine c) (cfg_consensus c) (cfg_rpc_port c)
    (cfg_reward_address c) (cfg_db_path c) (cfg_api_key c).
Definition add_addresses (l : list PeerAddress) (c : OrchestratorConfig) : OrchestratorConfig :=
  mkOrchestratorConfig (cfg_listen_port c) (cfg_addresses c ++ l) (cfg_mine c) (cfg_consensus c) (cfg_rpc_port c)
    (cfg_reward_address c) (cfg_db_path c) (cfg_api_key c).
Definition set_mine (c : OrchestratorConfig) : OrchestratorConfig :=
  mkOrchestratorConfig (cfg_listen_port c) (cfg_addresses c) true (cfg_consensus c) (cfg_rpc_port c)
    (cfg_reward_address c) (cfg_db_path c) (cfg_api_key c).
Definition set_rpc_port (p : Z) (c : OrchestratorConfig) : OrchestratorConfig :=
  mkOrchestratorConfig (cfg_listen_port c) (cfg_addresses c) (cfg_mine c) (cfg_consensus c) p
    (cfg_reward_address c) (cfg_db_path c) (cfg_api_key c).
Definition set_reward_address (a : str) (c : OrchestratorConfig) : OrchestratorConfig :=
  mkOrchestratorConfig (cfg_listen_port c) (cfg_addresses c) (cfg_mine c) (cfg_consensus c) (cfg_rpc_port c)
    a (cfg_db_path c) (cfg_api_key c).
Definition set_db_path (p : str) (c : OrchestratorConfig) : OrchestratorConfig :=
  mkOrchestratorConfig (cfg_listen_port c) (cfg_addresses c) (cfg_mine c) (cfg_consensus c) (cfg_rpc_port c)
    (cfg_reward_address c) p (cfg_api_key c).
Definition set_config_key (k : str) (c : OrchestratorConfig) : OrchestratorConfig :=
  mkOrchestratorConfig (cfg_listen_port c) (cfg_addresses c) (cfg_mine c) (cfg_consensus c) (cfg_rpc_port c)
    (cfg_reward_address c) (cfg_db_path c) k.

(** [if (!view.empty()) field = view] *)
Definition unless_empty {A} (v : str) (set : str → A → A) (a : A) : A :=
  if bool_decide (v = []) then a else set v a.

Definition flag (view : str) (long short : string) : bool :=
  bool_decide (view = lit long) || bool_decide (view = lit short).

(** A flag that lacks its values matches no branch, like an unknown one. *)
Fixpoint parse_args (argv : list str) (config : OrchestratorConfig) (bootstrap : str) :
    result (OrchestratorConfig * str) :=
  match argv with
  | [] => Ok (config, bootstrap)
  | view :: argv =>
      if flag view "--port" "-p" then
        match argv with
        | port_view :: argv =>
            port ← of_option InvalidArgument (Text.parse_number port_view);
            parse_args argv (set_listen_port (wrap 16 port) config) bootstrap
        | _ => Throw InvalidArgument
        end
      else if flag view "--connect" "-c" then
        match argv with
        | host :: port_view :: argv =>
            port ← of_option InvalidArgument (Text.parse_number port_view);
            parse_args argv (add_addresses [mkPeerAddress host (wrap 16 port)] config) bootstrap
        | _ => Throw InvalidArgument
        end
      else if flag view "--mine" "-m" then parse_args argv (set_mine config) bootstrap
      else if flag view "--bootstrap-file" "-b" then
        match argv with
        | path :: argv => parse_args argv config (unless_empty path (λ p _, p) bootstrap)
        | _ => Throw InvalidArgument
        end
      else if flag view "--rpc-port" "-R" then
        match argv with
        | port_view :: argv =>
            port ← of_option InvalidArgument (Text.parse_number port_view);
            parse_args argv (set_rpc_port (wrap 16 port) config) bootstrap
        | _ => Throw InvalidArgument
        end
      else if flag view "--reward-address" "-r" then
        match argv with
        | a :: argv => parse_args argv (unless_empty a set_reward_address config) bootstrap
        | _ => Throw InvalidArgument
        end
      else if flag view "--rpc-api-key" "-K" then
        match argv with
        | k :: argv => parse_args argv (unless_empty k set_config_key config) bootstrap
        | _ => Throw InvalidArgument
        end
      else if flag view "--db-path" "-d" then
        match argv with
        | p :: argv => parse_args argv (unless_empty p set_db_path config) bootstrap
        | _ => Throw InvalidArgument
        end
      else Throw InvalidArgument
  end.

(** The configuration [main] starts the node with; [files] opens a path. *)
Definition configure (argv : list str) (files : str → option str) : result OrchestratorConfig :=
  args ← parse_args argv default_config [];
  let '(config, path) := args in
  match load_bootstrap_peers (files path) with
  | Some peers => Ok (add_addresses peers config)
  | None => Ok config
  end.
(** ** The wallet's command line (src/app/wallet_main.cpp) *)

(** The loop: a flag that lacks its values, or an unknown argument, is passed over. *)
Fixpoint parse_wallet_loop (argv : list str) (config : Config) : result Config :=
  match argv with
  | [] => Ok config
  | view :: argv =>
      if flag view "--connect" "-c" then
        match argv with
        | host :: port_view :: argv' =>
            port ← of_option InvalidArgument (Text.parse_number port_view);
            parse_wallet_loop argv' (mkConfig (mkRpcConfiguration (mkPeerAddress host (wrap 16 port))
              (rpc_api_key (cfg_rpc config))) (keyfile_path config))
        | _ => parse_wallet_loop argv config
        end
      else if flag view "--keyfile" "-k" then
        match argv with
        | path :: argv' =>
            if bool_decide (path = []) then Throw InvalidArgument
            else parse_wallet_loop argv' (mkConfig (cfg_rpc config) path)
        | _ => parse_wallet_loop argv config
        end
      else if flag view "--rpc-api-key" "-K" then
        match argv with
        | key :: argv' =>
            if bool_decide (key = []) then Throw InvalidArgument
            else parse_wallet_loop argv' (mkConfig (mkRpcConfiguration (rpc_address (cfg_rpc config)) key)
              (keyfile_path config))
        | _ => parse_wallet_loop argv config
        end
      else parse_wallet_loop argv config
  end.

(** [Config config;] leaves the port, which has no initializer, undetermined: [junk]. *)
Definition empty_config (junk : Z) : Config := mkConfig (mkRpcConfiguration (mkPeerAddress [] junk) []) [].

Definition parse_wallet_args (junk : Z) (argv : list str) : result Config :=
  config ← parse_wallet_loop argv (empty_config junk);
  if bool_decide (keyfile_path config = []) then Throw InvalidArgument else Ok config.

(** [main] of the wallet: the exit code and what was printed. [file] is the key file,
    [connections] what the kernel will answer to connection attempts, [input] the lines of
    standard input. The text of the two error messages is left out. *)
Definition wallet_main `{Crypto} (junk : Z) (argv : list str) (file : option str) (entropy : Z) (writable : bool)
    (connections : list (option Socket)) (input : list str) : result Z * list output :=
  match parse_wallet_args junk argv with
  | Throw _ => (Ok 1, [])
  | Ok config =>
      match (Wl.make file entropy writable).1 with
      | Throw _ => (Ok 2, [])
      | Ok wallet =>
          let hello := [Cout (lit "Wallet address: " ++ address_ wallet)] in
          let '(r, cli) := Wl.run_lines input (mkWalletCli wallet (cfg_rpc config) connections hello) in
          (r ≫= λ _, Ok 0, printed_ cli)
      end
  end.

(** ** The bootstrap file is read back *)

Lemma split_colon_spec buffer h p :
  split_colon buffer = Some (h, p) ↔ buffer = h ++ colon :: p ∧ colon ∉ h.
Proof.
  revert h. induction buffer as [|c buffer IH]; intros h; cbn [split_colon].
  - split; [done|]. intros [E _]. by destruct h.
  - case_bool_decide as Ec.
    + split; [intros [= <- <-]; subst c; split; [done|apply not_elem_of_nil]|].
      intros [E Hn]. destruct h as [|x h]; injection E; intros; subst; [done|set_solver].
    + split.
      * destruct (split_colon buffer) as [[h' p']|] eqn:Es; [|done]. intros [= <- <-].
        destruct (proj1 (IH h') eq_refl) as [-> Hn]. split; [done|set_solver].
      * intros [E Hn]. destruct h as [|x h]; injection E; intros; subst; [done|].
        rewrite (proj2 (IH h)); [done|]. split; [done|set_solver].
Qed.

(** What an entry may be: a host without a colon, a colon, and a decimal number of 16 bits. *)
Lemma parse_entry_spec w a :
  parse_entry w = Some a ↔
  ∃ digits, w = host a ++ colon :: digits ∧ host a ≠ [] ∧ (colon ∉ host a) ∧ digits ≠ [] ∧
    Forall (λ c, isdigit c = true) digits ∧ port a = Text.digits_value digits ∧ in_u 16 (port a).
Proof.
  unfold parse_entry. split.
  - destruct (split_colon w) as [[h p]|] eqn:E; [|done]. apply split_colon_spec in E as [-> Hn].
    destruct (_ || _) eqn:Ee; [done|]. apply orb_false_iff in Ee as [Eh Ep].
    apply bool_decide_eq_false in Eh, Ep. destruct (forallb isdigit p) eqn:Ed; [|done]. cbn [negb].
    unfold Text.stoi_digits. destruct (Text.INT_MAX <? _); [done|].
    destruct (_ || _) eqn:Er; [done|]. intros [= <-]. cbn [host port]. exists p.
    assert (Forall (λ c, isdigit c = true) p) as Hd.
    { apply Forall_forall. intros x Hx. by apply (proj1 (forallb_forall _ _) Ed), list_elem_of_In. }
    rewrite wrap_small by (unfold in_u; lia). split_and!; try done; unfold in_u; lia.
  - intros (ds & -> & Hh & Hc & Hd & Hf & Ep & Hr). destruct a as [h p]. cbn [host port] in *. subst p.
    rewrite (proj2 (split_colon_spec _ h ds)) by done. rewrite !bool_decide_false by done. cbn [orb].
    assert (forallb isdigit ds = true) as ->.
    { apply forallb_forall. intros x Hx. rewrite Forall_forall in Hf. by apply Hf, list_elem_of_In. }
    unfold Text.stoi_digits, in_u, Text.INT_MAX in *. cbn [negb].
    rewrite (proj2 (Z.ltb_ge _ _)) by lia. rewrite (proj2 (Z.ltb_ge _ _)), (proj2 (Z.ltb_ge _ _)) by lia.
    cbn [orb]. by rewrite wrap_small.
Qed.

Definition entry (a : PeerAddress) : str := host a ++ colon :: Text.to_string (port a).

Definition entry_wf (a : PeerAddress) : Prop :=
  Text.is_word (host a) ∧ (colon ∉ host a) ∧ in_u 16 (port a).

Lemma parse_entry_entry a : entry_wf a → Text.is_word (entry a) ∧ parse_entry (entry a) = Some a.
Proof.
  intros ([Hne Hw] & Hc & Hp). destruct (Text.to_string_spec (port a)) as (Hv & Hd & Hn); [apply Hp|].
  split.
  - split; [by destruct a as [[]]|]. apply Forall_app. split; [done|]. constructor; [done|].
    by apply Text.to_string_word, Hp.
  - apply parse_entry_spec. exists (Text.to_string (port a)). by rewrite Hv.
Qed.

Lemma omap_lines l rest :
  Forall entry_wf l →
  omap parse_entry (Text.words (foldr (λ a s, entry a ++ newline :: s) rest l)) =
  l ++ omap parse_entry (Text.words rest).
Proof.
  induction 1 as [|a l Ha _ IH]; [done|]. cbn [foldr]. destruct (parse_entry_entry a Ha) as [Hw Ep].
  rewrite Text.words_cons by done. cbn [omap list_omap]. rewrite Ep. cbn [app]. by rewrite <- IH.
Qed.

(** The bootstrap file: a word of the file gives an entry exactly when it is a host
    without a colon, a colon, and decimal digits whose value is at most 65535 (neither a
    negative port nor one that is too large is taken modulo 2^16, as the command line does);
    everything else is skipped. The file [create_bootstrap_file] writes holds no peers, and
    with one "host:port" line per peer added it is read as exactly those peers, in order. *)
Theorem bootstrap_file_read l contents a :
  (∃ peers, load_bootstrap_peers (Some contents) = Some peers ∧
    (a ∈ peers ↔ ∃ digits, (host a ++ colon :: digits) ∈ Text.words contents ∧ host a ≠ [] ∧
      (colon ∉ host a) ∧ digits ≠ [] ∧ Forall (λ c, isdigit c = true) digits ∧
      port a = Text.digits_value digits ∧ in_u 16 (port a))) ∧
  (Forall entry_wf l →
    load_bootstrap_peers (Some (create_bootstrap_file ++ foldr (λ a s, entry a ++ newline :: s) [] l)) = Some l).
Proof.
  split.
  - exists (omap parse_entry (Text.words contents)). split; [done|].
    rewrite list_elem_of_omap. setoid_rewrite parse_entry_spec. naive_solver.
  - intros Hl. unfold load_bootstrap_peers, create_bootstrap_file. f_equal. rewrite <- app_assoc.
    cbn [app]. rewrite Text.words_app, omap_app, omap_lines by done. cbn [omap list_omap Text.words Text.words_from].
    rewrite app_nil_r. by vm_compute (omap _ _).
Qed.

(** ** The language of the node's arguments *)

(** A setting on the command line, with its values as they are written there. *)
Inductive setting :=
| Port (port : str)
| Connect (host port : str)
| Mine
| BootstrapFile (path : str)
| RpcPort (port : str)
| RewardAddress (address : str)
| RpcApiKey (key : str)
| DbPath (path : str).

Definition names (x : setting) : string * string :=
  match x with
  | Port _ => ("--port", "-p")
  | Connect _ _ => ("--connect", "-c")
  | Mine => ("--mine", "-m")
  | BootstrapFile _ => ("--bootstrap-file", "-b")
  | RpcPort _ => ("--rpc-port", "-R")
  | RewardAddress _ => ("--reward-address", "-r")
  | RpcApiKey _ => ("--rpc-api-key", "-K")
  | DbPath _ => ("--db-path", "-d")
  end%string.

Definition values (x : setting) : list str :=
  match x with
  | Port p | RpcPort p => [p]
  | Connect h p => [h; p]
  | Mine => []
  | BootstrapFile v | RewardAddress v | RpcApiKey v | DbPath v => [v]
  end.

(** The arguments of a setting, with its short name or its long one. *)
Definition arguments (x : bool * setting) : list str :=
  let '(long, short) := names x.2 in lit (if x.1 then short else long) :: values x.2.

(** The number written in the argument, in 16 bits; [None] if it is not one. *)
Definition port_of (s : str) : option Z := wrap 16 <$> Text.parse_number s.

(** What a setting does, [None] if the program refuses it. *)
Definition apply_setting (x : setting) (c : OrchestratorConfig * str) : option (OrchestratorConfig * str) :=
  let '(config, path) := c in
  match x with
  | Port p => (λ p, (set_listen_port p config, path)) <$> port_of p
  | Connect h p => (λ p, (add_addresses [mkPeerAddress h p] config, path)) <$> port_of p
  | Mine => Some (set_mine config, path)
  | BootstrapFile v => Some (config, unless_empty v (λ p _, p) path)
  | RpcPort p => (λ p, (set_rpc_port p config, path)) <$> port_of p
  | RewardAddress v => Some (unless_empty v set_reward_address config, path)
  | RpcApiKey v => Some (unless_empty v set_config_key config, path)
  | DbPath v => Some (unless_empty v set_db_path config, path)
  end.

Fixpoint apply_settings (l : list (bool * setting)) (c : OrchestratorConfig * str) :
    option (OrchestratorConfig * str) :=
  match l with
  | [] => Some c
  | x :: l => c ← apply_setting x.2 c; apply_settings l c
  end.

Ltac eval_flags :=
  repeat match goal with
  | |- context [flag ?v ?a ?b] =>
      let r := eval vm_compute in (flag v a b) in
      assert (flag v a b = r) as -> by (vm_compute; reflexivity)
  end.

Lemma parse_setting x rest c :
  parse_args (arguments x ++ rest) c.1 c.2 =
  match apply_setting x.2 c with
  | Some c => parse_args rest c.1 c.2
  | None => Throw InvalidArgument
  end.
Proof.
  destruct c as [config bootstrap], x as [short x].
  destruct x, short; unfold arguments; cbn [names fst snd values app]; cbn [parse_args]; eval_flags;
    cbn [apply_setting fst snd]; try done; unfold port_of; by destruct (Text.parse_number _).
Qed.

Lemma parse_settings l rest c :
  parse_args ((l ≫= arguments) ++ rest) c.1 c.2 =
  match apply_settings l c with
  | Some c => parse_args rest c.1 c.2
  | None => Throw InvalidArgument
  end.
Proof.
  revert c. induction l as [|x l IH]; intros c; [done|].
  cbn [mbind list_bind apply_settings]. rewrite <- app_assoc, parse_setting.
  destruct (apply_setting x.2 c) as [c'|]; [|done]. apply IH.
Qed.

Lemma flag_true view long short :
  flag view long short = true → ∃ b : bool, view = lit (if b then short else long).
Proof. unfold flag. intros [H|H]%orb_true_iff; apply bool_decide_eq_true in H; [by exists false|by exists true]. Qed.

(** What is accepted begins with a setting. *)
Lemma parse_args_cons view argv config path r :
  parse_args (view :: argv) config path = Ok r →
  ∃ x rest, view :: argv = arguments x ++ rest ∧ (length rest < length (view :: argv))%nat.
Proof.
  cbn [parse_args].
  repeat match goal with
  | |- context [if flag ?v ?long ?short then _ else _] =>
      let E := fresh in destruct (flag v long short) eqn:E; [apply flag_true in E as [b ->]|clear E]
  end; [..|done].
  - destruct argv as [|p argv]; [done|]. exists (b, Port p), argv. simpl. split; [done|lia].
  - destruct argv as [|h [|p argv]]; [done..|]. exists (b, Connect h p), argv. simpl. split; [done|lia].
  - exists (b, Mine), argv. simpl. split; [done|lia].
  - destruct argv as [|p argv]; [done|]. exists (b, BootstrapFile p), argv. simpl. split; [done|lia].
  - destruct argv as [|p argv]; [done|]. exists (b, RpcPort p), argv. simpl. split; [done|lia].
  - destruct argv as [|p argv]; [done|]. exists (b, RewardAddress p), argv. simpl. split; [done|lia].
  - destruct argv as [|p argv]; [done|]. exists (b, RpcApiKey p), argv. simpl. split; [done|lia].
  - destruct argv as [|p argv]; [done|]. exists (b, DbPath p), argv. simpl. split; [done|lia].
Qed.

Lemma parse_args_settings n argv c r :
  (length argv < n)%nat → parse_args argv c.1 c.2 = Ok r →
  ∃ l, argv = l ≫= arguments ∧ apply_settings l c = Some r.
Proof.
  revert argv c. induction n as [|n IH]; intros argv c Hn E; [lia|]. destruct argv as [|view argv].
  - injection E as <-. exists []. by destruct c.
  - destruct (parse_args_cons _ _ _ _ _ E) as (x & rest & Ex & Hl). rewrite Ex, parse_setting in E.
    destruct (apply_setting x.2 c) as [c'|] eqn:Ea; [|done].
    destruct (IH rest c' ltac:(simpl in *; lia) E) as (l & -> & El).
    exists (x :: l). rewrite Ex. split; [done|]. cbn [apply_settings]. by rewrite Ea.
Qed.

Lemma parse_args_iff argv c r :
  parse_args argv c.1 c.2 = Ok r ↔ ∃ l, argv = l ≫= arguments ∧ apply_settings l c = Some r.
Proof.
  split; [by apply (parse_args_settings (S (length argv))); lia|].
  intros (l & -> & E). rewrite <- (app_nil_r (l ≫= _)), parse_settings, E. by destruct r.
Qed.

Lemma parse_args_throws argv config path e :
  parse_args argv config path = Throw e → e = InvalidArgument.
Proof.
  assert (∀ n argv (c : OrchestratorConfig * str), (length argv < n)%nat →
    parse_args argv c.1 c.2 = Throw e → e = InvalidArgument) as Hall.
  { clear. induction n as [|n IH]; intros argv [config path] Hn; [lia|].
    destruct argv as [|view argv]; [done|]. cbn [parse_args fst snd].
    repeat match goal with |- context [if flag ?v ?l ?s then _ else _] => destruct (flag v l s) end;
      repeat match goal with |- context [match ?l with [] => _ | _ :: _ => _ end] => destruct l; [by intros [= <-]|] end;
      repeat match goal with |- context [Text.parse_number ?p] => destruct (Text.parse_number p); [|by intros [= <-]] end;
      try (by intros [= <-]); cbn [of_option mbind result_bind];
      match goal with |- parse_args ?l ?c ?p = _ → _ => apply (IH l (c, p)); simpl in *; lia end. }
  by apply (Hall (S (length argv)) argv (config, path) ltac:(lia)).
Qed.

(** The configurations of the command lines that are in the grammar. *)
Lemma configure_iff argv files config :
  configure argv files = Ok config ↔
    ∃ l c path, argv = l ≫= arguments ∧ apply_settings l (default_config, []) = Some (c, path) ∧
      config = add_addresses (default [] (load_bootstrap_peers (files path))) c.
Proof.
  assert (∀ c, add_addresses [] c = c) as Hnil. { intros []. unfold add_addresses. simpl. by rewrite app_nil_r. }
  unfold configure. rewrite bind_Ok. split.
  - intros ([c path] & (l & -> & El)%(parse_args_iff argv (default_config, [])) & E). exists l, c, path.
    split_and!; [done..|]. destruct (load_bootstrap_peers (files path)); injection E as <-; by rewrite ?Hnil.
  - intros (l & c & path & -> & El & ->). exists (c, path). split; [by apply (parse_args_iff _ (default_config, [])); exists l|].
    destruct (load_bootstrap_peers (files path)); simpl; by rewrite ?Hnil.
Qed.

(** C33. The command line of the node: it is accepted exactly when it is a sequence of the
    documented settings, each under its long or short name and followed by its values, with a
    number wherever a port stands; the configuration is then the default one with the settings
    applied in order, an empty value leaving its field alone, and the peers of the bootstrap
    file behind those given with --connect. Everything else is refused with
    [std::invalid_argument]. A port that does not fit 16 bits is not refused: it is taken
    modulo 2^16. *)
Theorem command_line_exact argv files config :
  (configure argv files = Ok config ↔
    ∃ l c path, argv = l ≫= arguments ∧ apply_settings l (default_config, []) = Some (c, path) ∧
      config = add_addresses (default [] (load_bootstrap_peers (files path))) c) ∧
  (∀ e, configure argv files = Throw e → e = InvalidArgument) ∧
  (∀ n, port_of (Text.to_string n) = if Text.fits_int n then Some (n mod 2 ^ 16) else None).
Proof.
  split_and!.
  - apply configure_iff.
  - intros e. unfold configure. destruct (parse_args argv default_config []) as [[c path]|e'] eqn:E; simpl.
    + by destruct (load_bootstrap_peers (files path)).
    + intros [= <-]. by apply parse_args_throws in E.
  - intros n. unfold port_of. rewrite Text.parse_to_string_int. by destruct (Text.fits_int n).
Qed.

(** ** Witnesses *)

Definition demo_peers : list PeerAddress :=
  [mkPeerAddress (lit "10.0.0.2") 9000; mkPeerAddress (lit "10.0.0.3") 65535].

Lemma bootstrap_file_read_witness :
  load_bootstrap_peers (Some (create_bootstrap_file ++ foldr (λ a s, entry a ++ newline :: s) [] demo_peers)) =
  Some demo_peers.
Proof.
  apply (bootstrap_file_read demo_peers [] (mkPeerAddress [] 0)).
  repeat constructor; try (by vm_compute); apply (bool_decide_eq_false_1 _); by vm_compute.
Defined.

Example demo_command_line :
  configure [lit "-p"; lit "70000"; lit "--mine"; lit "-c"; lit "10.0.0.9"; lit "-1"; lit "-b"; lit "peers"]
    (λ path, if bool_decide (path = lit "peers") then Some (lit "# ours  10.0.0.2:9000 10.0.0.3:70000") else None) =
  Ok (mkOrchestratorConfig 4464 [mkPeerAddress (lit "10.0.0.9") 65535; mkPeerAddress (lit "10.0.0.2") 9000] true
        kMainParams 0 [] [] []).
Proof. by vm_compute. Qed.

Example demo_bad_command_lines :
  (configure [lit "--mine"; lit "--port"] (λ _, None), parse_wallet_args 0 [lit "--keyfile"],
   parse_wallet_args 0 [lit "--unknown"; lit "-k"; lit "key"; lit "-c"; lit "10.0.0.2"; lit "9000"]) =
  (Throw InvalidArgument, Throw InvalidArgument,
   Ok (mkConfig (mkRpcConfiguration (mkPeerAddress (lit "10.0.0.2") 9000) []) (lit "key"))).
Proof. by vm_compute. Qed.
End Su.
