(* ===== verification/Orchestrator.v ===== *)
(** * The node program (src/app/Orchestrator.cpp)

    The orchestrator owns the node, the RPC server and the mining thread, and runs the
    console. Its state is shared by the console, the mining thread, the RPC thread and the
    node's threads; every operation is a sequence of critical sections. The constructor's
    work on the chain is in Restart, the coinbase of the mining loop in ChainProgress. *)

From S2P Require Import Prelude Prog Text Codec Crypto Demo Transaction Block Ledger Mempool OrphanPool.
From S2P Require Import ProofOfWork Blockchain ForkResolution BlockLocator Storage ChainManager ChainLedger.
From S2P Require Import ChainSafety ChainProgress ChainSync Restart Wire Message AddressBook Node NodeSafety.
From S2P Require Import NodePeers NodeSync Rpc Wallet Startup.

(** [o_server] holds the node and, when [o_has_rpc], the fields of [rpc_server_]; [o_mining]
    tells whether the mining thread was started. [o_printed] is the terminal. The lines
    given to the log, by the node's threads and here, are kept with the node. *)
Record Orchestrator `{BlockStore} := mkOrchestrator {
  o_config : OrchestratorConfig;
  o_server : RpcServer;
  o_has_rpc : bool;
  o_running : bool;
  o_mining : bool;
  o_printed : list output
}.

Module Or.

Section orchestrator.
Context `{Crypto, Buckets, BlockStore, Inet}.

(** [gmtime_r] and [strftime] *)
Context (as_utc : Z → str).

Definition set_server (r : RpcServer) (s : Orchestrator) : Orchestrator :=
  mkOrchestrator _ (o_config s) r (o_has_rpc s) (o_running s) (o_mining s) (o_printed s).
Definition set_config (c : OrchestratorConfig) (s : Orchestrator) : Orchestrator :=
  mkOrchestrator _ c (o_server s) (o_has_rpc s) (o_running s) (o_mining s) (o_printed s).
Definition set_has_rpc (b : bool) (s : Orchestrator) : Orchestrator :=
  mkOrchestrator _ (o_config s) (o_server s) b (o_running s) (o_mining s) (o_printed s).
Definition set_running (b : bool) (s : Orchestrator) : Orchestrator :=
  mkOrchestrator _ (o_config s) (o_server s) (o_has_rpc s) b (o_mining s) (o_printed s).
Definition set_mining (b : bool) (s : Orchestrator) : Orchestrator :=
  mkOrchestrator _ (o_config s) (o_server s) (o_has_rpc s) (o_running s) b (o_printed s).
Definition add_output (o : output) (s : Orchestrator) : Orchestrator :=
  mkOrchestrator _ (o_config s) (o_server s) (o_has_rpc s) (o_running s) (o_mining s) (o_printed s ++ [o]).

Definition the_node (s : Orchestrator) : Node := node_ (o_server s).
Definition the_chain (s : Orchestrator) : ChainManager := chain_ (the_node s).
Definition o_log (s : Orchestrator) : list (str * str) := log_ (the_node s).

(** [log_.log] *)
Definition add_log (category message : str) (s : Orchestrator) : Orchestrator :=
  let n := the_node s in
  set_server (Rpc.set_node (Nd.set_log (logger_ n) (log_ n ++ [(category, message)]) n) (o_server s)) s.

Definition on_server {A} (p : prog RpcServer A) : prog Orchestrator A := zoom o_server set_server p.
Definition on_node {A} (p : prog Node A) : prog Orchestrator A := on_server (Rpc.on_node p).
Definition log (category message : str) : prog Orchestrator unit := atomic (st_modify (add_log category message)).
Definition cout (text : str) : prog Orchestrator unit := atomic (st_modify (add_output (Cout text))).
Definition cerr (text : str) : prog Orchestrator unit := atomic (st_modify (add_output (Cerr text))).
Definition prompt (text : str) : prog Orchestrator unit := atomic (st_modify (add_output (Prompted text))).

(** The members as the constructor leaves them, over the node it made, whose logger it sets. *)
Definition make (config : OrchestratorConfig) (n : Node) : Orchestrator :=
  mkOrchestrator _ config (mkRpcServer _ (Nd.set_logger n) [] false) false false false [].

(** ** [start] *)

(** [rpc_server_.emplace]: a new server, without a key. *)
Definition emplace_rpc : prog Orchestrator unit :=
  atomic (st_modify (λ s, set_has_rpc true (set_server (mkRpcServer _ (the_node s) [] false) s))).

(** [rpc_server_->set_api_key(std::move(config_.api_key))]: the key moves to the server. What a
    string holds after it was moved from is not specified: [moved]. *)
Definition move_api_key (moved : str) (s : Orchestrator) : Orchestrator :=
  set_config (Su.set_config_key moved (o_config s))
    (set_server (Rpc.set_api_key (cfg_api_key (o_config s)) (o_server s)) s).

(** [rpc_bound] tells whether [listen_on] succeeds for the RPC port. *)
Definition start_rpc (rpc_bound : bool) (moved : str) : prog Orchestrator unit :=
  emplace_rpc;;
  ok ← on_server (Rpc.start rpc_bound);
  config ← query o_config;
  if negb ok then
    log (lit "RPC") (lit "FAILED to start RPC server on port " ++ Text.to_string (cfg_rpc_port config));;
    atomic (st_modify (set_has_rpc false))
  else if bool_decide (cfg_api_key config = []) then mret tt
  else atomic (st_modify (move_api_key moved)).

(** [bound] tells whether [listen_on] succeeds for the node's port. *)
Definition start (bound rpc_bound : bool) (moved : str) : prog Orchestrator bool :=
  ok ← on_node (Nd.start bound);
  if negb ok then mret false else
  atomic (st_modify (set_running true));;
  config ← query o_config;
  (if (cfg_mine config : bool) then atomic (st_modify (set_mining true)) else mret tt);;
  (if 0 <? cfg_rpc_port config then start_rpc rpc_bound moved else mret tt);;
  each (λ a, on_node (Nd.remember_peer (host a) (port a))) (cfg_addresses config);;
  (if bool_decide (cfg_addresses config = []) then mret tt else
   log (lit "PEER") (lit "bootstrapping from " ++ Text.to_string (sz (cfg_addresses config)) ++
     lit " configured peer(s)"));;
  mret true.

(** ** The mining loop *)

(** The section under the state lock: the template and the transactions to mine. *)
Definition prepare (s : Orchestrator) : result (BlockTemplate * list Transaction) :=
  tmpl ← Cm.block_template kMaxTxsPerBlock (clock_ (the_node s)) (the_chain s);
  mret (tmpl, Cp.assemble (cfg_reward_address (o_config s)) tmpl).

(** What is done with the mined block. *)
Definition submit_mined (height : nat) (mined : Block) : prog Orchestrator unit :=
  on_node (Nd.submit_block mined);;
  accepted ← query (λ s, Cm.has_block (hash_ mined) (the_chain s));
  if (accepted : bool)
  then log (lit "MINE") (lit "block ACCEPTED, height now " ++ Text.to_string (Z.of_nat height + 1))
  else log (lit "MINE") (lit "block REJECTED (stale or invalid)").

(** One turn, while the loop runs; [stop] gives the answers of the [should_stop] callback. *)
Definition mining_turn (stop : Z → Z → bool) : prog Orchestrator unit :=
  prepared ← atomic (λ s, (prepare s, s));
  let '(tmpl, transactions) := prepared in
  match Pow.mine_block_until 1 (tmpl_prev_hash tmpl) (tmpl_timestamp tmpl) (tmpl_difficulty tmpl)
          transactions (Some stop) with
  | None => mret tt
  | Some mined => submit_mined (tmpl_height tmpl) mined
  end.

Fixpoint mining_loop (stops : list (Z → Z → bool)) : prog Orchestrator unit :=
  match stops with
  | [] => mret tt
  | stop :: stops =>
      go ← query o_running;
      if negb go then mret tt else mining_turn stop;; mining_loop stops
  end.

(** ** The console *)

Definition handle_balance_command (address : str) : prog Orchestrator unit :=
  balance ← query (λ s, Cm.get_balance address (the_chain s));
  match balance with
  | None => cout (lit "unknown address")
  | Some balance => cout (Text.to_string balance)
  end.

Definition handle_height_command : prog Orchestrator unit :=
  height ← query (λ s, Cm.chain_height (the_chain s)); cout (Text.to_string (Z.of_nat height)).

Definition handle_peers_command : prog Orchestrator unit :=
  peers ← query (λ s, Nd.peers (the_node s));
  if bool_decide (peers = []) then cout (lit "(no peers connected)") else each cout peers.

Definition handle_status_command : prog Orchestrator unit :=
  config ← query o_config;
  cout (lit "port: " ++ Text.to_string (cfg_listen_port config));;
  (if 0 <? cfg_rpc_port config then cout (lit "rpc: active on port " ++ Text.to_string (cfg_rpc_port config))
   else cout (lit "rpc: disabled"));;
  (if (cfg_mine config : bool) then
     cout (lit "mining: active");;
     if negb (bool_decide (cfg_reward_address config = []))
     then cout (lit "reward address: " ++ cfg_reward_address config)
     else cout (lit "reward address: none (mined blocks have no coinbase)")
   else cout (lit "mining: disabled"));;
  difficulty ← atomic (λ s, (Cm.next_block_difficulty (the_chain s), s));
  cout (lit "difficulty: " ++ Text.to_string difficulty ++ lit " bits (next block)").

Definition handle_set_reward_address (address : str) : prog Orchestrator unit :=
  atomic (st_modify (λ s, set_config (Su.set_reward_address address (o_config s)) s));;
  cout (lit "reward address set to " ++ address).

Definition handle_connect_to_peer (host : str) (port : Z) : prog Orchestrator unit :=
  ok ← on_node (Nd.connect_to_peer host port);
  cout ((if (ok : bool) then lit "connected to " else lit "failed to connect to ") ++
    host ++ lit ":" ++ Text.to_string port).

Definition show_tx (tx : Transaction) : str :=
  lit "  " ++ sender_ tx ++ lit " -> " ++ recipient_ tx ++ lit " : " ++ Text.to_string (amount_ tx) ++
  lit " (fee: " ++ Text.to_string (fee_ tx) ++ lit ")".

Definition handle_mempool_command : prog Orchestrator unit :=
  txs ← query (λ s, Cm.mempool_snapshot (the_chain s));
  if bool_decide (txs = []) then cout (lit "(mempool is empty)") else
  cout (Text.to_string (sz txs) ++ lit " transaction(s):");;
  each (λ tx, cout (show_tx tx)) txs.

Definition handle_set_secret_key_command (key : str) : prog Orchestrator unit :=
  has ← query o_has_rpc;
  if negb has then cerr (lit "RPC is not enabled on this node (no --rpc-port given)")
  else on_server (atomic (st_modify (Rpc.set_api_key key))).

Definition handle_addrbook_command : prog Orchestrator unit :=
  addrbook ← query (λ s, Nd.book (the_node s));
  if bool_decide (addrbook = []) then cout (lit "(address book is empty)") else each cout addrbook.

Definition handle_ledger_command : prog Orchestrator unit :=
  balances ← query (λ s, Cm.all_balances (the_chain s));
  if bool_decide (balances = []) then cout (lit "(ledger is empty)") else
  cout (Text.to_string (sz balances) ++ lit " account(s):");;
  each (λ x : str * Z, cout (lit "  " ++ x.1 ++ lit " : " ++ Text.to_string x.2)) balances.

Definition show_block_tx (x : nat * Transaction) : prog Orchestrator unit :=
  let '(i, tx) := x in
  cout (lit "  [" ++ Text.to_string (Z.of_nat i) ++ lit "] " ++ to_hex (Tx.compute_hash tx));;
  cout (lit "      " ++ sender_ tx ++ lit " -> " ++ recipient_ tx);;
  cout (lit "      amount " ++ Text.to_string (amount_ tx) ++ lit ", fee " ++ Text.to_string (fee_ tx) ++
    (if Tx.is_coinbase tx then lit "  (coinbase)" else lit ", nonce " ++ Text.to_string (nonce_ tx))).

Definition show_block (height : nat) (block : Block) : prog Orchestrator unit :=
  cout (lit "height:     " ++ Text.to_string (Z.of_nat height));;
  cout (lit "hash:       " ++ to_hex (hash_ block));;
  cout (lit "prev:       " ++ to_hex (prev_hash_ block));;
  cout (lit "merkle:     " ++ to_hex (merkle_root_ block));;
  cout (lit "timestamp:  " ++ Text.to_string (timestamp_ block) ++ lit "  (" ++ as_utc (timestamp_ block) ++ lit " UTC)");;
  cout (lit "difficulty: " ++ Text.to_string (difficulty_ block) ++ lit " bits");;
  cout (lit "nonce:      " ++ Text.to_string (block_nonce_ block));;
  cout (lit "work:       " ++ Text.to_string (Blk.block_work block) ++ lit "  (cumulative " ++
    Text.to_string (cumulative_work_ block) ++ lit ")");;
  cout (lit "version:    " ++ Text.to_string (version_ block));;
  if bool_decide (transactions_ block = []) then cout (lit "transactions: (none)") else
  cout (lit "transactions: " ++ Text.to_string (sz (transactions_ block)));;
  each show_block_tx (imap pair (transactions_ block)).

(** [height] is a [size_t]; the chain is read three times at most, each under its own lock. *)
Definition handle_block_command (height : Z) : prog Orchestrator unit :=
  size ← query (λ s, Cm.chain_height (the_chain s));
  if Z.of_nat size <=? height then
    size ← query (λ s, Cm.chain_height (the_chain s));
    cout (lit "no block at height " ++ Text.to_string height ++ lit " (chain height is " ++
      Text.to_string (Z.of_nat size) ++ lit ")")
  else
    block ← atomic (λ s, (Cm.block_at (Z.to_nat height) (the_chain s), s));
    show_block (Z.to_nat height) block.

Definition help_text : list string :=
  ["commands:";
   "  balance <address>         show Ledger balance for address";
   "  height                    show current chain height";
   "  block <height>            show full contents of the block at that height";
   "  peers                     list connected peers (host:port, direction)";
   "  addrbook                  list known peer addresses and their state";
   "  mempool                   show pending transactions in mempool";
   "  ledger                    list known addresses and their balances";
   "  status                    show node configuration";
   "  set reward-address <addr> change mining reward address";
   "  set secret-key <value>    set/change the RPC auth token";
   "  connect <host> <port>     connect to a peer";
   "  help                      show this message";
   "  quit / exit               shut down the node"]%string.

Definition handle_help_command : prog Orchestrator unit := each (λ t, cout (lit t)) help_text.

(** The branches of [set] and [connect]. *)
Definition set_command (iss : list str) : prog Orchestrator unit :=
  let '(subcommand, iss) := Text.read_word [] iss in
  if bool_decide (subcommand = lit "reward-address") then
    let '(address, _) := Text.read_word [] iss in
    if bool_decide (address = []) then cerr (lit "usage: set reward-address <address>")
    else handle_set_reward_address address
  else if bool_decide (subcommand = lit "secret-key") then
    let '(key, _) := Text.read_word [] iss in
    if bool_decide (key = []) then cerr (lit "usage: set secret-key <value>")
    else handle_set_secret_key_command key
  else cerr (lit "unknown set target: " ++ subcommand ++
         lit " (usage: set reward-address <address> | set secret-key <value>)").

Definition connect_command (iss : list str) : prog Orchestrator unit :=
  match iss with
  | host :: port :: _ =>
      match Text.parse_number port with
      | None => cerr (lit "invalid port: " ++ port)
      | Some port_number => handle_connect_to_peer host (wrap 16 port_number)
      end
  | _ => cerr (lit "usage: connect <host> <port>")
  end.

(** One line of the console: whether the loop goes on. *)
Definition console_line (buffer : str) : prog Orchestrator bool :=
  let '(command, iss) := Text.read_word [] (Text.words buffer) in
  if bool_decide (command = lit "balance") then
    let '(address, _) := Text.read_word [] iss in
    (if bool_decide (address = []) then mret tt else handle_balance_command address);; mret true
  else if bool_decide (command = lit "height") then handle_height_command;; mret true
  else if bool_decide (command = lit "peers") then handle_peers_command;; mret true
  else if bool_decide (command = lit "status") then handle_status_command;; mret true
  else if bool_decide (command = lit "addrbook") then handle_addrbook_command;; mret true
  else if bool_decide (command = lit "block") then
    let '(height_str, _) := Text.read_word [] iss in
    match Text.parse_number height_str with
    | None => cerr (lit "usage: block <height>")
    | Some height => handle_block_command (u64 height)
    end;; mret true
  else if bool_decide (command = lit "set") then set_command iss;; mret true
  else if bool_decide (command = lit "connect") then connect_command iss;; mret true
  else if bool_decide (command = lit "mempool") then handle_mempool_command;; mret true
  else if bool_decide (command = lit "ledger") then handle_ledger_command;; mret true
  else if bool_decide (command = lit "help") then handle_help_command;; mret true
  else if bool_decide (command = lit "quit") || bool_decide (command = lit "exit") then mret false
  else cout (lit "unknown command");; mret true.

(** The lines of standard input; it ends after the last. *)
Fixpoint run_command_loop (input : list str) : prog Orchestrator unit :=
  prompt (lit ">>> ");;
  match input with
  | [] => mret tt
  | buffer :: input => go ← console_line buffer; if (go : bool) then run_command_loop input else mret tt
  end.

(** ** [stop] *)

(** Joining the mining thread and the threads of the two servers changes no state. *)
Definition stop : prog Orchestrator unit :=
  atomic (st_modify (set_running false));;
  atomic (st_modify (set_mining false));;
  has ← query o_has_rpc;
  (if (has : bool) then on_server Rpc.stop else mret tt);;
  on_node Nd.stop.

(** ** Runs on a component *)

Lemma run_on_server {A} (p : prog RpcServer A) s :
  run (on_server p) s = ((run p (o_server s)).1, set_server (run p (o_server s)).2 s).
Proof. apply run_zoom; [done..|]. by intros []. Qed.

Lemma run_node {A} (p : prog Node A) s :
  run (on_node p) s =
  ((run p (the_node s)).1, set_server (Rpc.set_node (run p (the_node s)).2 (o_server s)) s).
Proof. unfold on_node. by rewrite run_on_server, Rpc.run_on_node. Qed.
End orchestrator.

(** ** The key comes after the door is open *)
Section unguarded.
Context `{CryptoLaws, !SignatureLaws, Buckets, BlockStore, Inet}.

Definition no_key : RpcConfiguration := mkRpcConfiguration (mkPeerAddress [] 0) [].

(** The thread of the RPC server with one client. *)
Definition rpc_thread (client : Socket) (p : prog Orchestrator unit) : Prop :=
  p = on_server (Rpc.accept_loop [Some client]).

Lemma run_rpc_thread client tx s :
  api_key_ (o_server s) = [] → rpc_running_ (o_server s) = true →
  Tx.wf tx → Tx.has_valid_signature tx = Ok true →
  (Mp.size (mempool_ (the_chain s)) < mp_max_size_ (mempool_ (the_chain s)))%nat →
  (length (Wl.submit_line no_key tx) < max_line)%nat →
  Msg.stream (inbound client) = Wl.submit_line no_key tx ++ [newline] →
  ∃ n', run (on_server (Rpc.accept_loop [Some client])) s =
      (Ok tt, set_server (Rpc.set_node n' (o_server s)) s) ∧
    Mp.has_transaction (Tx.compute_hash tx) (mempool_ (chain_ n')) = true.
Proof.
  intros Hk Hr Hw Hv Hm Hl Hs.
  destruct (Wl.run_submit_line no_key tx (o_server s) (or_introl eq_refl) Hk Hw Hv ltac:(unfold the_chain, the_node in Hm; lia)) as (n' & E & _ & Ec).
  exists n'. split.
  - assert (newline ∉ Wl.submit_line no_key tx) as Hn.
    { apply Wl.line_newline; [by left|by apply (bool_decide_eq_false_1 _)]. }
    destruct (Rpc.handle_connection_line client _ [] (o_server s) Hn Hl Hs) as (fd' & _ & Eh).
    rewrite E in Eh. rewrite run_on_server. cbn [Rpc.accept_loop].
    assert (run (go ← query rpc_running_;
      if negb go then mret tt else (Rpc.handle_connection client;; mret tt)) (o_server s) =
      (Ok tt, Rpc.set_node n' (o_server s))) as ->; [|done].
    rewrite (run_bind_Ok _ _ _ true (o_server s)) by (by rewrite run_query, Hr). cbn [negb].
    by rewrite (run_bind_Ok _ _ _ _ _ Eh).
  - rewrite Ec, Cl.submit_transaction_mempool. by apply Wl.mempool_accepts.
Qed.

(** One section of the thread at [i]. *)
Lemma sched_step {S} env spawn (s : S) ts i X (m : ST S X) k x s' c :
  ts !! i = Some (Act m k) → m s = (Ok x, s') → rtc (sched env spawn) (s', <[i := k x]> ts) c →
  rtc (sched env spawn) (s, ts) c.
Proof. intros Hi Hm. apply rtc_l. by apply (sched_act env spawn s ts i X m k x s'). Qed.

Ltac first_steps := eapply (sched_step _ _ _ _ 0); [done|done|]; cbn.

(** Up to the point where the RPC server listens. *)
Lemma start_listens env spawn config n moved :
  0 < cfg_rpc_port config → cfg_api_key config ≠ [] →
  ∃ mining rest,
    let s := mkOrchestrator _ config (mkRpcServer _ (Nd.set_flags true true false (Nd.set_logger n)) [] true) true true mining [] in
    rtc (sched env spawn) (make config n, [start true true moved;; mret tt])
      (s, [Act (st_modify (move_api_key moved)) rest]).
Proof.
  intros Hp Hk. destruct config as [lp addrs mine cons rp ra db key]. cbn [cfg_rpc_port cfg_api_key] in *.
  apply Z.ltb_lt in Hp. destruct mine; eexists _, _; cbv zeta; do 3 first_steps; rewrite Hp.
  - do 4 first_steps. rewrite (bool_decide_false (key = [])) by done. apply rtc_refl.
  - do 3 first_steps. rewrite (bool_decide_false (key = [])) by done. apply rtc_refl.
Qed.

(** The RPC server answers before it has its key. [start] lets the server accept
    connections and only then hands it the configured key: there is a schedule of [start]
    and the server's thread in which a client that presents no key has its transaction put in
    the pool, and the key is set right after; from then on the same request is refused. *)
Theorem rpc_unguarded_at_start env config n moved client tx :
  0 < cfg_rpc_port config → cfg_api_key config ≠ [] →
  Tx.wf tx → Tx.has_valid_signature tx = Ok true →
  (Mp.size (mempool_ (chain_ n)) < mp_max_size_ (mempool_ (chain_ n)))%nat →
  (length (Wl.submit_line no_key tx) < max_line)%nat →
  Msg.stream (inbound client) = Wl.submit_line no_key tx ++ [newline] →
  cfg_api_key config ≠ lit "SUBMITTX" →
  ∃ s ts, rtc (sched env (rpc_thread client)) (make config n, [start true true moved;; mret tt]) (s, ts) ∧
    api_key_ (o_server s) = cfg_api_key config ∧
    Mp.has_transaction (Tx.compute_hash tx) (mempool_ (the_chain s)) = true ∧
    run (Rpc.handle_command (Wl.submit_line no_key tx)) (o_server s) = (Ok (lit "ERROR unauthorized"), o_server s).
Proof.
  intros Hp Hk Hw Hv Hm Hl Hs Hne.
  destruct (start_listens env (rpc_thread client) config n moved Hp Hk) as (mining & rest & Hstart).
  set (s1 := mkOrchestrator _ config (mkRpcServer _ (Nd.set_flags true true false (Nd.set_logger n)) [] true) true true mining []) in *.
  destruct (run_rpc_thread client tx s1 eq_refl eq_refl Hw Hv Hm Hl Hs) as (n' & Er & Hh).
  eexists _, _. split.
  - etrans; [exact Hstart|]. eapply rtc_l; [by apply sched_spawn; unfold rpc_thread|].
    etrans; [eapply run_sched, Er|]. eapply (sched_step _ _ _ _ 1); [done|done|]. apply rtc_refl.
  - split_and!; [done|exact Hh|]. apply Rpc.run_unauthorized; [done|].
    assert (Text.words (Wl.submit_line no_key tx) = lit "SUBMITTX" :: Text.words (to_hex (Tx.serialize tx))) as ->.
    { apply (Wl.words_request [] Byte.x20 Byte.x20 (lit "SUBMITTX")); [by left| |done..].
      by apply (bool_decide_eq_true_1 _). }
    intros [= E]. by apply Hne.
Qed.
End unguarded.

(** ** Mining and the whole program *)
Section program.
Context `{CryptoLaws, Buckets, !BlockStore, Inet} (U : bytes → Prop) {CF : CollisionFree U}.
Context (as_utc : Z → str).

(** Submitting a block the chain manager accepts. *)
Lemma run_submit_block b o c' n :
  Cm.submit_block b (clock_ n) (chain_ n) = (Ok o, c') →
  ∃ n', run (Nd.submit_block b) n = (Ok tt, n') ∧ chain_ n' = c' ∧ log_ n' = log_ n.
Proof.
  intros E. unfold Nd.submit_block. rewrite (run_bind_Ok _ _ _ o (Nd.set_chain c' n)).
  2: { unfold Nd.on_chain_at. rewrite run_atomic. unfold st_zoom. by rewrite E. }
  destruct (Ny.quiet_each (Nd.broadcast_inv None BLOCK_ITEM) (to_broadcast o)
    (λ h, Ny.quiet_broadcast None BLOCK_ITEM h) (Nd.set_chain c' n)) as ([] & n' & Er & Ec & _ & _ & _ & El & _).
  exists n'. by rewrite Er, Ec, El.
Qed.

Lemma template_height limit now c tmpl :
  Cm.block_template limit now c = Ok tmpl → tmpl_height tmpl = Bc.size (blockchain_ c).
Proof. unfold Cm.block_template. by intros (? & _ & (? & _ & (? & _ & [= <-])%bind_Ok)%bind_Ok)%bind_Ok. Qed.

(** C13. A turn of the mining loop, from the template to the log, when the node is consistent
    and nothing else happens meanwhile. Let the clock and the timestamps of the chain be below
    2^63, the timestamp of the found block at most the permitted drift ahead of the clock (it
    is bumped when the nonces are exhausted), the money of the ledger and of the block in
    bounds, and let the store, if there is one, take the block. Then a block found by the
    search is submitted and accepted: the chain grows by exactly that block, its transactions
    (the reward, if an address is configured, then the selected ones) are applied to the
    ledger one by one, and the log says so with the new height. When the callback stops the search, nothing
    changes. *)
Theorem mining_turn_extends stop s tmpl :
  let c := the_chain s in
  let now := clock_ (the_node s) in
  let reward := cfg_reward_address (o_config s) in
  Cs.inv U c → Cm.block_template kMaxTxsPerBlock now c = Ok tmpl →
  match Cp.mine_template reward tmpl (Some stop) with
  | None => run (mining_turn stop) s = (Ok tt, s)
  | Some b =>
      Fork.known U b → Forall (λ x, timestamp_ x < 2 ^ 63) (blocks_ (blockchain_ c)) → 0 <= now < 2 ^ 63 →
      timestamp_ b <= now + max_future_drift (params_ c) →
      Cl.bounded (Cp.assemble reward tmpl) (ledger_ c) → Cp.store_accepts b c →
      ∃ s', run (mining_turn stop) s = (Ok tt, s') ∧
        blockchain_ (the_chain s') = Bc.add_block b (blockchain_ c) ∧
        Cl.accepted_run (Cp.assemble reward tmpl) (ledger_ c) (ledger_ (the_chain s')) ∧
        o_log s' = o_log s ++ [(lit "MINE", lit "block ACCEPTED, height now " ++
          Text.to_string (Z.of_nat (Bc.size (blockchain_ (the_chain s')))))]
  end.
Proof.
  intros c now reward Hc Ht. unfold mining_turn.
  assert (run (atomic (λ s, (prepare s, s))) s = (Ok (tmpl, Cp.assemble reward tmpl), s)) as Ep.
  { rewrite run_atomic. unfold prepare. fold c now. rewrite Ht. done. }
  destruct (Cp.mine_template reward tmpl (Some stop)) as [b|] eqn:Em; unfold Cp.mine_template in Em.
  2: { rewrite (run_bind_Ok _ _ _ _ _ Ep). by rewrite Em. }
  intros Hk Hts Hnow Hd Hb Hst.
  destruct (Cp.template_block_accepted U reward kMaxTxsPerBlock now tmpl (Some stop) b now c)
    as (c' & Es & Ec & Er); [done..|].
  rewrite (run_bind_Ok _ _ _ _ _ Ep), Em. unfold submit_mined.
  destruct (run_submit_block b _ c' (the_node s) Es) as (n' & En & Ec' & El).
  set (s1 := set_server (Rpc.set_node n' (o_server s)) s).
  rewrite (run_bind_Ok _ _ _ tt s1) by (by rewrite run_node, En).
  assert (the_chain s1 = c') as Ec1 by exact Ec'.
  rewrite (run_bind_Ok _ _ _ true s1).
  2: { rewrite run_query, Ec1. unfold Cm.has_block. rewrite Ec, Bc.add_block_has. by rewrite bool_decide_true. }
  eexists. split; [reflexivity|]. change (the_chain (add_log _ _ s1)) with (the_chain s1). rewrite Ec1.
  split_and!; [done|done|]. change (o_log (add_log ?c ?m s1)) with (log_ n' ++ [(c, m)]). rewrite El. do 4 f_equal.
  rewrite Ec, (template_height _ _ _ _ Ht). unfold Bc.size, Bc.add_block. cbn [blocks_]. rewrite length_app. simpl. f_equal. lia.
Qed.

(** ** Every thread of the program *)

Abbreviation oinv := (λ s : Orchestrator, Ns.ninv U (the_node s)).

(** The node only moves forward, no setting but the reward address and the key changes, and
    what was printed or logged stays. *)
Definition olater (s s' : Orchestrator) : Prop :=
  Ns.later (the_node s) (the_node s') ∧
  (∃ reward key, o_config s' = Su.set_config_key key (Su.set_reward_address reward (o_config s))) ∧
  o_printed s `prefix_of` o_printed s'.

#[global] Instance olater_preorder : PreOrder olater.
Proof.
  split.
  - intros s. split_and!; [done| |done]. exists (cfg_reward_address (o_config s)), (cfg_api_key (o_config s)).
    by destruct (o_config s).
  - intros s1 s2 s3 (L1 & (r1 & k1 & E1) & P1) (L2 & (r2 & k2 & E2) & P2).
    split_and!; [by transitivity (the_node s2)| |by transitivity (o_printed s2)].
    exists r2, k2. rewrite E2, E1. done.
Qed.

Abbreviation ok p s0 := (psafe oinv olater p (λ _ _, True) s0).

Lemma ook_bind {A B} (p : prog Orchestrator A) (f : A → prog Orchestrator B) s0 :
  ok p s0 → (∀ a s, ok (f a) s) → ok (p ≫= f) s0.
Proof. intros Hp Hf. eapply psafe_bind; [apply _|exact Hp|]. intros a s _ _ _. apply Hf. Qed.

Lemma ook_ret {A} (a : A) s0 : ok (mret a) s0.
Proof. done. Qed.

Lemma ook_query {A} (f : Orchestrator → A) s0 : ok (query f) s0.
Proof. by apply psafe_query; [apply _|]. Qed.

Lemma ook_read {A} (f : Orchestrator → result A) s0 : ok (atomic (λ s, (f s, s))) s0.
Proof. by apply psafe_section. Qed.

Lemma ook_each {A} (p : A → prog Orchestrator unit) l s0 : (∀ a s, ok (p a) s) → ok (each p l) s0.
Proof. intros Hp. apply psafe_each; [apply _|]. intros a s _ _ _. apply Hp. Qed.

(** A section that leaves the node alone. *)
Lemma ook_modify f s0 :
  (∀ s, the_node (f s) = the_node s) →
  (∀ s, ∃ r k, o_config (f s) = Su.set_config_key k (Su.set_reward_address r (o_config s))) →
  (∀ s, o_printed s `prefix_of` o_printed (f s)) →
  ok (atomic (st_modify f)) s0.
Proof.
  intros Hn Hc Hp. apply psafe_section. intros s _ Hs. simpl. rewrite Hn. split; [done|].
  split_and!; [by rewrite Hn|apply Hc|apply Hp].
Qed.

Lemma same_reward (c : OrchestratorConfig) : ∃ r k, c = Su.set_config_key k (Su.set_reward_address r c).
Proof. exists (cfg_reward_address c), (cfg_api_key c). by destruct c. Qed.

(** The RPC server, and the node under it. *)
Abbreviation rok p s0 :=
  (psafe (λ r : RpcServer, Ns.ninv U (node_ r)) (λ r r', Ns.later (node_ r) (node_ r')) p (λ _ _, True) s0).

#[local] Instance rlater_preorder : PreOrder (λ r r' : RpcServer, Ns.later (node_ r) (node_ r')).
Proof. split; [by intros r|]. intros r1 r2 r3 L1 L2. by transitivity (node_ r2). Qed.

Lemma rok_node {A} (p : prog Node A) r :
  psafe (Ns.ninv U) Ns.later p (λ _ _, True) (node_ r) → rok (Rpc.on_node p) r.
Proof. by apply psafe_zoom. Qed.

Lemma ook_server {A} (p : prog RpcServer A) s0 : rok p (o_server s0) → ok (on_server p) s0.
Proof.
  apply psafe_zoom; [done|by intros s s' [? _]|done|]. intros r s _ Hr Hl. split; [done|].
  split_and!; [done|apply same_reward|done].
Qed.

Lemma ook_node {A} (p : prog Node A) s0 :
  psafe (Ns.ninv U) Ns.later p (λ _ _, True) (the_node s0) → ok (on_node p) s0.
Proof. intros Hp. by apply ook_server, rok_node. Qed.

Lemma rok_bind {A B} (p : prog RpcServer A) (f : A → prog RpcServer B) r :
  rok p r → (∀ a r, rok (f a) r) → rok (p ≫= f) r.
Proof. intros Hp Hf. eapply psafe_bind; [apply _|exact Hp|]. intros a s _ _ _. apply Hf. Qed.

Lemma rok_query {A} (f : RpcServer → A) r : rok (query f) r.
Proof. by apply psafe_query; [apply _|]. Qed.

Lemma rok_modify f r : (∀ r, node_ (f r) = node_ r) → rok (atomic (st_modify f)) r.
Proof. intros Hf. apply psafe_section. intros r' _ Hr. simpl. by rewrite !Hf. Qed.

Lemma rok_submit tx r : rok (Rpc.on_node (Nd.submit_transaction tx)) r.
Proof. apply rok_node. apply Ns.thread_ok; [apply _|constructor]. Qed.

Ltac rpc_walk :=
  repeat first [done | apply rok_query | apply rok_submit | apply rok_bind; [|intros] | case_match].

Lemma rok_run_command command iss r : rok (Rpc.run_command command iss) r.
Proof. unfold Rpc.run_command, Rpc.getbalance, Rpc.getnonce, Rpc.submittx. rpc_walk. Qed.

Lemma rok_connection fd r : rok (Rpc.handle_connection fd) r.
Proof.
  unfold Rpc.handle_connection. destruct (Rpc.read_line _ _ _) as [[line|] fd']; [|done].
  apply rok_bind; [|done]. unfold Rpc.handle_command, Rpc.api_key_required, Rpc.check_api_key.
  case_match. apply rok_bind; [apply rok_query|]. intros required r1. case_match; [apply rok_run_command|].
  apply rok_bind; [apply rok_query|]. intros okk r2. case_match; [done|]. case_match. apply rok_run_command.
Qed.

Lemma rok_accept connections r : rok (Rpc.accept_loop connections) r.
Proof.
  revert r. induction connections as [|[fd|] connections IH]; intros r; cbn [Rpc.accept_loop]; [done|..];
    (apply rok_bind; [apply rok_query|]; intros go r1; destruct go; [cbn [negb]|done]).
  - apply rok_bind; [apply rok_connection|]. intros. apply IH.
  - apply IH.
Qed.

(** What runs: the node's threads and operations, [start], the console, the RPC thread, the
    mining thread once it has found a block of [U] (before that it only reads), and [stop]. *)
Inductive app_thread : prog Orchestrator unit → Prop :=
| a_node p : Ns.thread U p → app_thread (on_node p)
| a_start bound rpc_bound moved : app_thread (start bound rpc_bound moved;; mret tt)
| a_console input : app_thread (run_command_loop as_utc input)
| a_rpc connections : app_thread (on_server (Rpc.accept_loop connections))
| a_mined height b : Fork.known U b → app_thread (submit_mined height b)
| a_stop : app_thread stop.

Lemma ook_cout t s0 : ok (cout t) s0.
Proof. apply ook_modify; [done|by intros; apply same_reward|]. by eexists. Qed.
Lemma ook_cerr t s0 : ok (cerr t) s0.
Proof. apply ook_modify; [done|by intros; apply same_reward|]. by eexists. Qed.
Lemma ook_prompt t s0 : ok (prompt t) s0.
Proof. apply ook_modify; [done|by intros; apply same_reward|]. by eexists. Qed.
Lemma ook_log c m s0 : ok (log c m) s0.
Proof.
  apply psafe_section. intros s _ Hs. simpl. split; [by apply Ns.ninv_set_log|].
  split_and!; [|by apply same_reward|done]. apply Ns.later_same; [done|done|].
  split_and!; [done|by apply prefix_app_r|done].
Qed.
Lemma ook_flag f s0 :
  (∀ s, the_node (f s) = the_node s ∧ o_config (f s) = o_config s ∧ o_printed (f s) = o_printed s) →
  ok (atomic (st_modify f)) s0.
Proof.
  intros Hf. apply ook_modify.
  - intros s. apply Hf.
  - intros s. destruct (Hf s) as (_ & -> & _). apply same_reward.
  - intros s. by destruct (Hf s) as (_ & _ & ->).
Qed.

Lemma ook_thread p s0 : Ns.thread U p → ok (on_node p) s0.
Proof. intros Hp. apply ook_node. by apply Ns.thread_ok. Qed.

Lemma ook_connect h pt s0 : ok (on_node (Nd.connect_to_peer h pt)) s0.
Proof. by apply ook_node, Ns.ok_connect_to_peer. Qed.

Lemma ook_set_reward a s0 : ok (handle_set_reward_address a) s0.
Proof.
  apply ook_bind; [|intros; apply ook_cout]. apply ook_modify; [done| |done]. intros s. by exists a, (cfg_api_key (o_config s)).
Qed.

Lemma ook_set_key k s0 : ok (handle_set_secret_key_command k) s0.
Proof.
  apply ook_bind; [apply ook_query|]. intros [] s; [|apply ook_cerr]. by apply ook_server, rok_modify.
Qed.

Create HintDb orch discriminated.
#[local] Hint Resolve ook_ret ook_query ook_read ook_cout ook_cerr ook_log ook_connect ook_set_reward ook_set_key : orch.

Ltac orch_walk :=
  repeat first
    [ solve [eauto with orch]
    | apply ook_bind; [|intros]
    | apply ook_each; intros
    | case_match ].

Lemma ook_line buffer s0 : ok (console_line as_utc buffer) s0.
Proof.
  unfold console_line, handle_balance_command, handle_height_command, handle_peers_command, handle_status_command,
    handle_addrbook_command, handle_block_command, show_block, show_block_tx, set_command, connect_command,
    handle_connect_to_peer, handle_mempool_command, handle_ledger_command, handle_help_command.
  orch_walk.
Qed.

Lemma ook_console input s0 : ok (run_command_loop as_utc input) s0.
Proof.
  revert s0. induction input as [|buffer input IH]; intros s0; cbn [run_command_loop];
    (apply ook_bind; [apply ook_prompt|intros _ s1]); [done|].
  apply ook_bind; [apply ook_line|]. intros [] s; [apply IH|done].
Qed.

Lemma ook_start_rpc b moved s0 : ok (start_rpc b moved) s0.
Proof.
  unfold start_rpc, emplace_rpc, Rpc.start. apply ook_bind; [by apply ook_flag|]. intros _ s1. apply ook_bind.
  { apply ook_server. destruct b; [|done]. apply rok_bind; [by apply rok_modify|done]. }
  intros okk s2. apply ook_bind; [apply ook_query|]. intros c s3. destruct okk; cbn [negb].
  - case_match; [done|]. apply ook_modify; [done| |done]. intros s. by eexists _, moved.
  - apply ook_bind; [apply ook_log|]. intros _ s4. by apply ook_flag.
Qed.

Lemma ook_start b rb moved s0 : ok (start b rb moved) s0.
Proof.
  unfold start. apply ook_bind.
  { apply ook_node, Ns.ok_start. }
  intros okk s1. destruct okk; cbn [negb]; [|done].
  apply ook_bind; [by apply ook_flag|]. intros _ s2. apply ook_bind; [apply ook_query|]. intros c s3.
  apply ook_bind; [case_match; [by apply ook_flag|done]|]. intros _ s4.
  apply ook_bind; [case_match; [apply ook_start_rpc|done]|]. intros _ s5.
  apply ook_bind; [apply ook_each; intros; apply ook_thread; constructor|]. intros _ s6.
  apply ook_bind; [case_match; [done|apply ook_log]|]. done.
Qed.

Lemma app_thread_ok p s0 : app_thread p → ok p s0.
Proof.
  intros Hp. destruct Hp as [p Hp|b rb moved|input|conns|height b Hb|].
  - by apply ook_thread.
  - apply ook_bind; [apply ook_start|done].
  - apply ook_console.
  - apply ook_server, rok_accept.
  - unfold submit_mined. apply ook_bind; [apply ook_thread; by constructor|]. intros _ s. orch_walk.
  - unfold stop. apply ook_bind; [by apply ook_flag|]. intros _ s1. apply ook_bind; [by apply ook_flag|]. intros _ s2.
    apply ook_bind; [apply ook_query|]. intros has s3. apply ook_bind.
    { case_match; [|done]. by apply ook_server, rok_modify. }
    intros _ s4. apply ook_thread. constructor.
Qed.

(** The clocks move, as in [Ns.tick]. *)
Inductive app_tick : Orchestrator → Orchestrator → Prop :=
| app_tick_node n' s : Ns.tick (the_node s) n' → app_tick s (set_server (Rpc.set_node n' (o_server s)) s).

Lemma app_tick_ok s s' : app_tick s s' → oinv s → oinv s' ∧ olater s s'.
Proof.
  intros [n' s0 Htick] Hs. destruct (Ns.tick_ok U _ _ Htick Hs). split; [done|].
  split_and!; [done|apply same_reward|done].
Qed.

(** C1. The whole program is safe. From the orchestrator as it is constructed over a
    consistent chain, after any interleaving of [start], console input, RPC connections,
    mined blocks, [stop], the node's own threads and operations and the clock, whatever
    throws, the node satisfies its invariant (chain, ledger, pool and address book are
    consistent, pointers valid, connections unique), no peer changes its identity or comes
    back to life, an address that backs off does not become due before its time or the next
    five seconds, nothing printed or logged is lost, and of the configuration only the reward
    address changes, and the key, which [start] moves to the RPC server. *)
Theorem program_invariant config n s ts s' ts' :
  Ns.ninv U n →
  rtc (sched app_tick app_thread) (make config n, []) (s, ts) →
  rtc (sched app_tick app_thread) (s, ts) (s', ts') →
  Ns.ninv U (the_node s) ∧ Ns.ninv U (the_node s') ∧ olater s s'.
Proof.
  intros Hn Hr Hr'.
  apply (Ns.ninv_set_log U true (log_ n)) in Hn.
  destruct (interleaved_inv oinv olater app_tick app_thread (make config n) _ _ _ app_tick_ok (λ p s, app_thread_ok p s) Hn
    (Forall_nil_2 _) Hr) as (Hs & _ & Hts).
  destruct (interleaved_inv oinv olater app_tick app_thread _ _ _ _ app_tick_ok (λ p s, app_thread_ok p s) Hs Hts Hr')
    as (Hs' & Hl & _). done.
Qed.
End program.

(** ** Witnesses *)
Section witnesses.
#[local] Existing Instance demo_crypto.
#[local] Existing Instance demo_crypto_laws.
#[local] Existing Instance demo_signature_laws.
#[local] Existing Instance demo_sqlite.
#[local] Existing Instance Op.demo_buckets.
#[local] Existing Instance Ab.demo_inet.
#[local] Existing Instance Cp.universe_cf.

Definition demo_config : OrchestratorConfig :=
  mkOrchestratorConfig 9000 Su.demo_peers true kTestParams 9001 (demo_address "miner") [] (lit "k").
Definition demo_node : Node := Nd.make_node 9000 (Ns.version_of 77 1) Cs.fresh 0 1000 [] [].
Definition demo_tx : Transaction := demo_pay "alice" "bob" 10 1 0.
Definition intruder : Socket := Wl.server_end (Wl.submit_line no_key demo_tx).

Lemma rpc_unguarded_at_start_witness :
  ∃ s ts, rtc (sched (λ _ _, False) (rpc_thread intruder)) (make demo_config demo_node, [start true true [];; mret tt]) (s, ts) ∧
    api_key_ (o_server s) = lit "k" ∧
    Mp.has_transaction (Tx.compute_hash demo_tx) (mempool_ (the_chain s)) = true ∧
    run (Rpc.handle_command (Wl.submit_line no_key demo_tx)) (o_server s) =
      (Ok (lit "ERROR unauthorized"), o_server s).
Proof.
  apply (rpc_unguarded_at_start (λ _ _, False) demo_config demo_node [] intruder demo_tx).
  - done.
  - done.
  - by vm_compute.
  - by vm_compute.
  - apply Nat.ltb_lt. by vm_compute.
  - apply Nat.ltb_lt. by vm_compute.
  - by vm_compute.
  - done.
Defined.

Definition demo_orchestrator : Orchestrator := make demo_config demo_node.

Definition mined_block : Block :=
  match Cp.mine_template (demo_address "miner") Cp.demo_tmpl (Some (λ _ _, false)) with
  | Some b => b
  | None => Bc.genesis
  end.

Lemma mining_turn_extends_witness :
  ∃ s', run (mining_turn (λ _ _, false)) demo_orchestrator = (Ok tt, s') ∧
    blockchain_ (the_chain s') = Bc.add_block mined_block (blockchain_ Cs.fresh) ∧
    Cl.accepted_run (Cp.assemble (demo_address "miner") Cp.demo_tmpl) (ledger_ Cs.fresh) (ledger_ (the_chain s')) ∧
    o_log s' = [] ++ [(lit "MINE", lit "block ACCEPTED, height now " ++
      Text.to_string (Z.of_nat (Bc.size (blockchain_ (the_chain s')))))].
Proof.
  assert (Cp.mine_template (demo_address "miner") Cp.demo_tmpl (Some (λ _ _, false)) = Some mined_block) as Em
    by by vm_compute.
  pose proof (mining_turn_extends Cp.universe (λ _ _, false) demo_orchestrator Cp.demo_tmpl) as Ht.
  cbv zeta in Ht. change (cfg_reward_address (o_config demo_orchestrator)) with (demo_address "miner") in Ht.
  rewrite Em in Ht. apply Ht; clear Ht.
  - exact (Cs.inv_set_storage Cp.universe _ _ (Cs.manager_make_inv Cp.universe 10 kTestParams (Some Cs.demo_store))).
  - by vm_compute.
  - replace mined_block with Cp.demo_mined by by vm_compute. apply Cp.demo_mined_known.
  - apply (bool_decide_unpack _). by vm_compute.
  - split; [apply Z.leb_le|apply Z.ltb_lt]; by vm_compute.
  - apply Z.leb_le. by vm_compute.
  - split; [apply Z.ltb_lt; by vm_compute|]. apply (bool_decide_unpack _). by vm_compute.
  - by vm_compute.
Defined.

Lemma demo_schedule p s ts :
  app_thread Cs.universe (λ _, []) p → is_ok (run p s).1 = true →
  rtc (sched app_tick (app_thread Cs.universe (λ _, []))) (s, ts) ((run p s).2, Ret tt :: ts).
Proof.
  intros Ht Hok. eapply rtc_l; [by apply (sched_spawn _ _ _ _ p)|]. apply run_sched.
  destruct (run p s) as [[[]|e] s']; done.
Qed.

Definition session : list str := [lit "set reward-address bob"; lit "status"; lit "block 0"; lit "block -1"; lit "exit"].
Definition orch_1 : Orchestrator := (run (start true true [];; mret tt) (make demo_config Ns.node_0)).2.
Definition orch_2 : Orchestrator := (run (run_command_loop (λ _, []) session) orch_1).2.

#[local] Existing Instance Cs.universe_cf.

Lemma program_invariant_witness :
  Ns.ninv Cs.universe (the_node orch_1) ∧ Ns.ninv Cs.universe (the_node orch_2) ∧ olater orch_1 orch_2.
Proof.
  apply (program_invariant Cs.universe (λ _, []) demo_config Ns.node_0 orch_1 [Ret tt] orch_2 [Ret tt; Ret tt]).
  - apply Ns.make_node_inv; [exact Cs.fresh_inv| |constructor].
    constructor; [|constructor]. intros fd [= <-]. exact Ns.demo_fd_ok.
  - apply (demo_schedule _ (make demo_config Ns.node_0) [] (a_start _ _ true true [])); by vm_compute.
  - apply (demo_schedule _ orch_1 [Ret tt] (a_console _ _ session)); by vm_compute.
Defined.

Example demo_console :
  (take 4 (o_printed orch_2), drop (length (o_printed orch_2) - 2) (o_printed orch_2)) =
  ([Prompted (lit ">>> "); Cout (lit "reward address set to bob"); Prompted (lit ">>> "); Cout (lit "port: 9000")],
   [Cout (lit "no block at height 18446744073709551615 (chain height is 1)"); Prompted (lit ">>> ")]).
Proof. by vm_compute. Qed.
End witnesses.
End Or.
