(* ===== verification/Main.v ===== *)
(** * The node's [main] (src/app/main.cpp)

    From the command line to the exit status: configuration, construction with the restore
    from the database, [start], the console and the destructor. [main] is the main thread
    when nothing interferes; [outcome] are the results it can have among the other threads of
    the program, those of Orchestrator. That another thread's exception ends the process, that
    a join may not return (Shutdown) and the handler of SIGINT are not part of it. *)

From S2P Require Import Prelude Prog Text Codec Crypto Demo Transaction Block Ledger Mempool OrphanPool.
From S2P Require Import ProofOfWork Blockchain ForkResolution BlockLocator Storage ChainManager ChainLedger.
From S2P Require Import ChainSafety ChainProgress ChainSync Restart Wire Message AddressBook Node NodeSafety.
From S2P Require Import NodePeers NodeSync Rpc Wallet Startup Orchestrator NodeId.

(** How a process ends: a status, or an exception nobody catches. *)
Inductive ending := Exit (status : Z) | Terminate (e : exn).

(** What the system answers: whether the ports are free, which files there are, what the
    library makes of a database path, the random word, the clocks, the connections, what a
    string holds after it was moved from, and the lines of standard input. *)
Record world `{Sqlite} := mkWorld {
  w_files : str → option str;
  w_open : str → option db;
  w_random : Z;
  w_bound : bool;
  w_rpc_bound : bool;
  w_now : Z;
  w_clock : Z;
  w_dials : list (option Socket);
  w_accepts : list (option (Socket * option str));
  w_moved : str;
  w_input : list str
}.

Module Mn.

Section main.
Context `{Crypto, Buckets, Sqlite, Inet}.
Context (as_utc : Z → str).

(** [storage_]: the constructor of [Storage] throws when the path does not open. *)
Definition open_storage (w : world) (db_path : str) : result (option db) :=
  if bool_decide (db_path = []) then Ok None else
  match w_open w (c_str db_path) with
  | None => Throw RuntimeError
  | Some d => match Sto.create_schema d with (Ok _, d) => Ok (Some d) | (Throw e, _) => Throw e end
  end.

(** The constructor. *)
Definition construct (w : world) (config : OrchestratorConfig) : result Orchestrator :=
  match open_storage w (cfg_db_path config) with
  | Throw e => Throw e
  | Ok storage =>
      match Rs.construct (cfg_consensus config) storage with
      | (Throw e, _) => Throw e
      | (Ok _, chain) =>
          let info := mkVersionInfo 1 0 0 (cfg_listen_port config) (Nid.generate_node_id (w_random w)) in
          Ok (Or.make config (Nd.make_node (cfg_listen_port config) info chain (w_now w) (w_clock w) (w_dials w) (w_accepts w)))
      end
  end.

(** [start], the console and, at the end of the scope, the destructor. *)
Definition serve (w : world) : prog Orchestrator Z :=
  ok ← Or.start (w_bound w) (w_rpc_bound w) (w_moved w);
  status ← (if negb ok then Or.cerr (lit "Failed to start node (port already in use?)");; mret 2
            else Or.run_command_loop as_utc (w_input w);; mret 0);
  Or.stop;; mret status.

Definition main (w : world) (argv : list str) : ending :=
  match Su.configure argv (w_files w) with
  | Throw _ => Exit 1
  | Ok config =>
      match construct w config with
      | Throw e => Terminate e
      | Ok orchestrator =>
          match (run (serve w) orchestrator).1 with
          | Ok status => Exit status
          | Throw e => Terminate e
          end
      end
  end.

(** ** Programs that cannot throw on a chain

    [E] are the exceptions that are expected; [R] is what the other threads do. *)

Definition nonempty (n : Node) : Prop := (0 < Bc.size (blockchain_ (chain_ n)))%nat.

Lemma block_ok c i : (i < Bc.size (blockchain_ c))%nat → ∃ b, Bc.at_ i (blockchain_ c) = Ok b.
Proof. intros Hi. destruct (lookup_lt_is_Some_2 _ _ Hi) as [b Hb]. exists b. unfold Bc.at_. by rewrite Hb. Qed.

Lemma difficulty_ok c : (0 < Bc.size (blockchain_ c))%nat → is_ok (Cm.next_block_difficulty c) = true.
Proof.
  intros Hc. unfold Cm.next_block_difficulty, Pow.next_difficulty. destruct (_ || _) eqn:E; [done|].
  apply orb_false_iff in E as [E1 E2]. apply Nat.ltb_ge in E1. apply Nat.leb_gt in E2.
  destruct (block_ok c (Bc.size (blockchain_ c) - 1)) as [b Hb]; [lia|]. unfold Cm.block_at_callback. rewrite Hb. cbn [mbind result_bind].
  destruct (negb _); [done|]. destruct (block_ok c (Bc.size (blockchain_ c) - retarget_interval (params_ c))) as [b' Hb']; [lia|].
  by rewrite Hb'.
Qed.

Lemma locator_ok c : (0 < Bc.size (blockchain_ c))%nat → is_ok (Cm.locator c) = true.
Proof.
  intros Hc. unfold Cm.locator, Loc.build_locator. destruct (_ =? 0)%nat; [done|].
  assert (∀ fuel hashes step h, (h < Bc.size (blockchain_ c))%nat → ∃ l, Loc.locator_loop fuel (blockchain_ c) hashes step h = Ok l) as Hloop.
  { induction fuel as [|fuel IH]; intros hashes step h Hh; cbn [Loc.locator_loop]; [by eexists|]. destruct (0 <? h)%nat; [|by eexists].
    destruct (block_ok c h Hh) as [b Hb]. rewrite Hb. cbn [mbind result_bind]. destruct (_ <? _)%nat; [by eexists|]. apply IH. lia. }
  destruct (Hloop (Bc.size (blockchain_ c)) [] 1%nat (Bc.size (blockchain_ c) - 1)%nat) as [l Hl]; [lia|]. rewrite Hl. cbn [mbind result_bind].
  destruct (block_ok c 0 Hc) as [b Hb]. by rewrite Hb.
Qed.

Section calm.
Context (E : exn → Prop) (R : Orchestrator → Orchestrator → Prop).

(** *** The node *)

Abbreviation ncalm p := (∀ n, yields nonempty (λ _ _, True) (λ _, True) E p n).

Lemma ncalm_bind {A B} (p : prog Node A) (f : A → prog Node B) : ncalm p → (∀ a, ncalm (f a)) → ncalm (p ≫= f).
Proof. intros Hp Hf n. eapply yields_bind; [apply Hp|]. intros. apply Hf. Qed.

Lemma ncalm_section {A} (m : ST Node A) : (∀ n, nonempty n → is_ok (m n).1 = true) → ncalm (atomic m).
Proof. intros Hm n. by apply yields_section. Qed.

Lemma ncalm_locator : ncalm (Nd.on_chain (λ c, (Cm.locator c, c))).
Proof. apply ncalm_section. intros n Hn. unfold st_zoom. by apply locator_ok. Qed.

(** The other sections return whatever the state. *)
Ltac plain_section :=
  apply ncalm_section; intros;
  unfold Nd.send_section, Nd.new_peer, st_modify, st_gets; repeat case_match; done.
Ltac ncalm_walk :=
  repeat first
    [ apply ncalm_locator | apply ncalm_bind; [|intros ?] | done | case_match | solve [plain_section]].

Lemma ncalm_connect host port : ncalm (Nd.connect_to_peer host port).
Proof.
  unfold Nd.connect_to_peer, Nd.register_new_peer, Nd.book_add, Nd.connect_to, Nd.drop_peer, Nd.tell, Nd.send_peer_list,
    Nd.sync_with, Nd.start_sync_state, Nd.reset_sync_state, Nd.send_msg, Nd.on_book.
  ncalm_walk.
Qed.

Lemma ncalm_remember host port : ncalm (Nd.remember_peer host port).
Proof. unfold Nd.remember_peer, Nd.book_add, Nd.on_book. ncalm_walk. Qed.

(** *** The orchestrator *)

Abbreviation ne := (λ s : Orchestrator, nonempty (Or.the_node s)).
Abbreviation calm p := (∀ s, yields ne R (λ _, True) E p s).

Lemma calm_bind {A B} (p : prog Orchestrator A) (f : A → prog Orchestrator B) : calm p → (∀ a, calm (f a)) → calm (p ≫= f).
Proof. intros Hp Hf s. eapply yields_bind; [apply Hp|]. intros. apply Hf. Qed.

Lemma calm_section {A} (m : ST Orchestrator A) : (∀ s, ne s → is_ok (m s).1 = true) → calm (atomic m).
Proof. intros Hm s. by apply yields_section. Qed.

Lemma calm_each {A} (p : A → prog Orchestrator unit) l : (∀ a, calm (p a)) → calm (each p l).
Proof. intros Hp s. by apply yields_each. Qed.

Lemma calm_node {A} (p : prog Node A) : ncalm p → calm (Or.on_node p).
Proof.
  intros Hp s. unfold Or.on_node, Or.on_server, Rpc.on_node.
  apply (yields_zoom (λ r : RpcServer, nonempty (node_ r)) (λ _ _, True)); [done..|].
  by apply (yields_zoom nonempty (λ _ _, True)).
Qed.

(** Printing, reading and branching. *)
Ltac calm_step :=
  first
    [ apply calm_bind; [|intros ?] | done | apply calm_each; intros ?
    | apply calm_node; first [apply ncalm_connect | apply ncalm_remember] | apply calm_section; done | case_match ].
Ltac calm_walk := repeat calm_step.

(** The chain has the block when the height is read. It has it still when the block is, unless
    the chain has become shorter in between. *)
Lemma calm_block height :
  E OutOfRange ∨ (∀ s s', R s s' → (Cm.chain_height (Or.the_chain s) <= Cm.chain_height (Or.the_chain s'))%nat) →
  calm (Or.handle_block_command as_utc height).
Proof.
  intros HE s0 s1 _ _. change (yields ne R (λ _, True) E
    (if Z.of_nat (Cm.chain_height (Or.the_chain s1)) <=? height then
       size ← query (λ s, Cm.chain_height (Or.the_chain s));
       Or.cout (lit "no block at height " ++ Text.to_string height ++ lit " (chain height is " ++ Text.to_string (Z.of_nat size) ++ lit ")")
     else block ← atomic (λ s, (Cm.block_at (Z.to_nat height) (Or.the_chain s), s)); Or.show_block as_utc (Z.to_nat height) block) s1).
  destruct (_ <=? _) eqn:Hh.
  { revert s1 Hh. intros s1 _. revert s1. calm_walk. }
  apply Z.leb_gt in Hh. intros s2 Hr Hne.
  destruct (Bc.at_ (Z.to_nat height) (blockchain_ (Or.the_chain s2))) as [b|e] eqn:Eb.
  - assert (calm (Or.show_block as_utc (Z.to_nat height) b)) as Hs by (unfold Or.show_block, Or.show_block_tx; calm_walk).
    unfold Cm.block_at. rewrite Eb. apply Hs.
  - unfold Cm.block_at. rewrite Eb. destruct HE as [HE|HE].
    + unfold Bc.at_ in Eb. destruct (_ !! _); [done|]. by injection Eb as <-.
    + specialize (HE _ _ Hr). destruct (block_ok (Or.the_chain s2) (Z.to_nat height)) as [b Hb]; [|congruence].
      unfold nonempty in Hne. unfold Cm.chain_height, Or.the_chain in *. lia.
Qed.

Lemma calm_status : calm Or.handle_status_command.
Proof.
  unfold Or.handle_status_command. do 4 (apply calm_bind; [calm_walk|]; intros ?). apply calm_bind; [|intros; calm_walk].
  apply calm_section. intros s Hs. by apply difficulty_ok.
Qed.

(** A line that asks for a block. *)
Definition asks_block (buffer : str) : Prop := ∃ height, Text.words buffer = lit "block" :: height.

Lemma calm_line buffer :
  (asks_block buffer →
    E OutOfRange ∨ (∀ s s', R s s' → (Cm.chain_height (Or.the_chain s) <= Cm.chain_height (Or.the_chain s'))%nat)) →
  calm (Or.console_line as_utc buffer).
Proof.
  intros HE.
  unfold Or.console_line, Or.handle_balance_command, Or.handle_height_command, Or.handle_peers_command, Or.handle_addrbook_command,
    Or.set_command, Or.handle_set_reward_address, Or.handle_set_secret_key_command, Or.connect_command, Or.handle_connect_to_peer,
    Or.handle_mempool_command, Or.handle_ledger_command, Or.handle_help_command.
  repeat first [apply calm_status | apply calm_block | calm_step].
  apply HE. unfold asks_block. destruct (Text.words buffer); repeat case_bool_decide; simplify_eq/=; by eexists.
Qed.

Lemma calm_console input :
  (Exists asks_block input →
    E OutOfRange ∨ (∀ s s', R s s' → (Cm.chain_height (Or.the_chain s) <= Cm.chain_height (Or.the_chain s'))%nat)) →
  calm (Or.run_command_loop as_utc input).
Proof.
  induction input as [|buffer input IH]; intros HE; cbn [Or.run_command_loop]; (apply calm_bind; [calm_walk|]); intros _; [done|].
  apply calm_bind; [apply calm_line|]; [by intros; apply HE; left|]. intros []; [|done]. apply IH. intros. apply HE. by right.
Qed.

Lemma calm_stop : calm Or.stop.
Proof.
  unfold Or.stop. repeat first [apply calm_node; unfold Nd.stop; ncalm_walk; done | calm_step].
Qed.

(** [start] answers whether the port was free. *)
Lemma start_answers bound rpc_bound moved s : yields ne R (λ ok, ok = bound) E (Or.start bound rpc_bound moved) s.
Proof.
  unfold Or.start. eapply (yields_bind _ _ _ (λ ok, ok = bound)).
  { unfold Or.on_node, Nd.start. by destruct bound. }
  intros ok s1 ->. destruct bound; cbn [negb]; [|done].
  assert (∀ (p : prog Orchestrator unit) s2, calm p → yields ne R (λ ok, ok = true) E (p;; mret true) s2) as Hend.
  { intros p s2 Hp. by eapply yields_bind. }
  assert (∀ A (p : prog Orchestrator A) f s2, calm p → (∀ a s, yields ne R (λ ok, ok = true) E (f a) s) →
    yields ne R (λ ok, ok = true) E (p ≫= f) s2) as Hnext.
  { intros A p f s2 Hp Hf. eapply yields_bind; [apply Hp|]. eauto. }
  apply Hnext; [calm_walk|]. intros _ s2. apply Hnext; [calm_walk|]. intros config s3. apply Hnext; [calm_walk|]. intros _ s4.
  apply Hnext; [unfold Or.start_rpc, Or.emplace_rpc, Rpc.start; calm_walk|]. intros _ s5.
  apply Hnext; [calm_walk|]. intros _ s6. apply Hend. calm_walk.
Qed.

Lemma serve_answers w s :
  (Exists asks_block (w_input w) →
    E OutOfRange ∨ (∀ s s', R s s' → (Cm.chain_height (Or.the_chain s) <= Cm.chain_height (Or.the_chain s'))%nat)) →
  yields ne R (λ status, status = if w_bound w then 0 else 2) E (serve w) s.
Proof.
  intros HE. unfold serve. eapply yields_bind; [apply start_answers|]. intros ok s1 ->.
  apply (yields_bind _ _ _ (λ status, status = if w_bound w then 0 else 2)).
  - destruct (w_bound w); cbn [negb]; (eapply yields_bind; [|done]); [by apply calm_console|]. apply calm_section. done.
  - intros status s2 ->. eapply yields_bind; [apply calm_stop|]. done.
Qed.
End calm.
End main.

(** ** The exit status *)
Section exit_status.
Context `{CryptoLaws, Buckets, SqliteLaws, Inet} (U : bytes → Prop) {CF : CollisionFree U}.
Context (as_utc : Z → str).

(** What the process ends with when the main thread runs among the others. *)
Inductive outcome (w : world) (argv : list str) : ending → Prop :=
| refused e : Su.configure argv (w_files w) = Throw e → outcome w argv (Exit 1)
| not_constructed config e :
    Su.configure argv (w_files w) = Ok config → construct w config = Throw e → outcome w argv (Terminate e)
| served config o r :
    Su.configure argv (w_files w) = Ok config → construct w config = Ok o →
    ends Or.app_tick (Or.app_thread U as_utc) (serve as_utc w) (o, []) r →
    outcome w argv (match r with Ok status => Exit status | Throw e => Terminate e end).

Lemma main_outcome w argv : outcome w argv (main as_utc w argv).
Proof.
  unfold main. destruct (Su.configure _ _) as [config|e] eqn:Ec; [|by eapply refused].
  destruct (construct w config) as [o|e] eqn:Eo; [|by eapply not_constructed].
  eapply (served w argv config o); [done..|]. apply run_ends.
Qed.

(** A database that was opened holds nothing or a chain, and what arrives over the network
    are blocks of [U]. *)
Definition sound (w : world) : Prop :=
  (∀ path d d', w_open w path = Some d → Sto.create_schema d = (Ok tt, d') → Rs.holds_chain U d') ∧
  Forall (λ r, ∀ fd, r = Some fd → Ns.fd_ok U fd) (w_dials w) ∧
  Forall (λ r, ∀ fd h, r = Some (fd, h) → Ns.fd_ok U fd) (w_accepts w).

(** The database holds a chain whose transactions apply to an empty ledger one after the other. *)
Definition replays (d : db) : Prop :=
  ∃ c l, Bc.inv c ∧ Forall (Fork.known U) (blocks_ c) ∧ mirrors d (blocks_ c) ∧ sz (blocks_ c) < 2 ^ 63 ∧
    Forall Cl.authorized (blocks_ c ≫= transactions_) ∧ Cl.accepted_run (blocks_ c ≫= transactions_) Ldg.empty l.

(** The settings of a command line in the grammar. *)
Definition configured (w : world) (argv : list str) (config : OrchestratorConfig) : Prop :=
  ∃ l c path, argv = l ≫= Su.arguments ∧ Su.apply_settings l (Su.default_config, []) = Some (c, path) ∧
    config = Su.add_addresses (default [] (Su.load_bootstrap_peers (w_files w path))) c.

Lemma construct_consistent w config o :
  sound w → construct w config = Ok o → Ns.ninv U (Or.the_node o).
Proof.
  intros (Ho & Hd & Ha) E. unfold construct in E. destruct (open_storage w _) as [st|] eqn:Es; [|done].
  pose proof (Rs.construct_inv U (cfg_consensus config) st) as Hc.
  case_match eqn:Ec; destruct r as [[]|]; [|done]. cbn [snd] in Hc. injection E as <-.
  apply (Ns.ninv_set_log U true []), Ns.make_node_inv; [|done..]. apply Hc. clear Hc.
  unfold open_storage in Es. case_bool_decide; [by injection Es as <-|].
  destruct (w_open w _) as [d|] eqn:Eo; [|done]. destruct (Sto.create_schema d) as [[[]|] d'] eqn:Ed; [|done].
  injection Es as <-. by eapply Ho.
Qed.

Lemma construct_throws w config e :
  construct w config = Throw e →
  cfg_db_path config ≠ [] ∧
  (∀ d d', w_open w (c_str (cfg_db_path config)) = Some d → Sto.create_schema d = (Ok tt, d') → ¬ replays d').
Proof.
  unfold construct, open_storage. case_bool_decide; [done|]. intros E. split; [done|].
  intros d d' Ho Hs (c & l & Hc & Kc & Hm & Hsz & Hau & R). rewrite Ho, Hs in E.
  destruct (Rs.construct_spec U c _ (cfg_consensus config) l Hc Kc Hm Hsz Hau R) as (s' & Er & _).
  revert E. case_match eqn:E'. pose proof (eq_trans (eq_sym E') Er). by simplify_eq.
Qed.

Abbreviation oinv := (λ s : Orchestrator, Ns.ninv U (Or.the_node s)).

Lemma serve_safe w s : psafe oinv Or.olater (serve as_utc w) (λ _ _, True) s.
Proof.
  unfold serve. apply Or.ook_bind; [by apply Or.ook_start|]. intros ok s1. apply Or.ook_bind.
  - destruct ok; cbn [negb]; (apply Or.ook_bind; [|done]); [by apply Or.ook_console|apply Or.ook_cerr].
  - intros status s2. apply Or.ook_bind; [|done]. apply (Or.app_thread_ok U as_utc). constructor.
Qed.

Lemma serve_yields w E R s :
  (Exists asks_block (w_input w) →
    E OutOfRange ∨ (∀ s s', R s s' → (Cm.chain_height (Or.the_chain s) <= Cm.chain_height (Or.the_chain s'))%nat)) →
  yields oinv R (λ status, status = if w_bound w then 0 else 2) E (serve as_utc w) s.
Proof.
  intros HE. eapply yields_weaken; [|by apply serve_answers]. intros s1 Hs.
  destruct (Cs.inv_chain _ _ (Ns.ni_chain _ _ Hs)) as (_ & (l & Hl & _) & _). unfold nonempty, Bc.size.
  rewrite Hl. simpl. lia.
Qed.

(** Among the other threads, and alone. *)
Lemma serve_ends w o r :
  oinv o → ends Or.app_tick (Or.app_thread U as_utc) (serve as_utc w) (o, []) r →
  match r with
  | Ok status => status = if w_bound w then 0 else 2
  | Throw e => e = OutOfRange ∧ Exists asks_block (w_input w)
  end.
Proof.
  intros Ho Hr.
  apply (ends_yields oinv Or.olater _ _ _ (λ status, status = if w_bound w then 0 else 2)
    (λ e, e = OutOfRange ∧ Exists asks_block (w_input w))) in Hr; [done|by apply Or.app_tick_ok| |done|constructor|apply serve_safe|].
  - intros p s Hp. by apply (Or.app_thread_ok U as_utc).
  - apply serve_yields. eauto.
Qed.

Lemma serve_alone w o : oinv o → (run (serve as_utc w) o).1 = Ok (if w_bound w then 0 else 2).
Proof.
  intros Ho.
  pose proof (run_yields oinv Or.olater (serve as_utc w) (λ status, status = if w_bound w then 0 else 2) (λ _, False) o Ho
    (serve_safe w o)) as Hy.
  destruct (run _ o).1; [rewrite Hy; [done|]|exfalso; apply Hy]; apply serve_yields; right; by intros s ? <-.
Qed.

End exit_status.

(** ** Runs *)
Section runs.
#[local] Existing Instance demo_crypto.
#[local] Existing Instance demo_crypto_laws.
#[local] Existing Instance demo_sqlite.
#[local] Existing Instance demo_sqlite_laws.
#[local] Existing Instance Op.demo_buckets.
#[local] Existing Instance Ab.demo_inet.
#[local] Existing Instance Cs.universe_cf.

Definition demo_world (bound : bool) : world :=
  mkWorld _ (λ _, None) (λ path, if bool_decide (path = lit "chain.db") then Some Cs.demo_store else None) 5489 bound true 0 1000
    [] [] [] [lit "status"; lit "block 0"; lit "block 7"; lit "connect 10.0.0.1 80"; lit "exit"].

Definition demo_arguments : list str := [lit "--port"; lit "9000"; lit "-d"; lit "chain.db"].

Lemma demo_world_sound bound : sound Cs.universe (demo_world bound).
Proof.
  split_and!; [|constructor..]. intros path d d' Ho Hs. simpl in Ho. case_bool_decide; [|done]. injection Ho as <-.
  assert (d' = demo_empty_db) as ->; [|left; exact demo_empty_mirrors].
  assert (Sto.create_schema demo_empty_db = (Ok tt, demo_empty_db)) as E by by vm_compute.
  change Cs.demo_store with demo_empty_db in Hs. congruence.
Qed.


Example main_runs :
  main (λ _, []) (demo_world true) [lit "--port"; lit "9000"] = Exit 0 ∧
  main (λ _, []) (demo_world false) [lit "--port"; lit "9000"] = Exit 2 ∧
  main (λ _, []) (demo_world true) [lit "--port"] = Exit 1 ∧
  main (λ _, []) (demo_world true) [lit "-d"; lit "/no/such/place"] = Terminate RuntimeError.
Proof. vm_compute. done. Qed.
End runs.
End Mn.
